(* ===== verification/_CoqProject ===== *)
-Q . S2P
Prelude.v
Heap.v
CLib.v
Stream.v
Resp.v
Store.v
Rdb.v
Config.v
CommandQueue.v
Memory.v
StreamMemory.v
StoreMemory.v
StoreLifecycle.v
Replicas.v
World.v
Command.v
Invariants.v
Handlers.v
XreadMemory.v
Server.v
ServerMemory.v
Client.v
Sessions.v
Interleave.v
Handshake.v
Replication.v
ThreadPool.v
Sockets.v
Logger.v
