(* ===== verification/Prelude.v ===== *)
(** * FastKey: a verification development

    FastKey is a Redis-compatible server in C.  This library models it from the
    command line to the last [free]: the wire protocol, the store, the streams,
    the commands with their transactions and their propagation to replicas, the
    reader of dump files, the connection threads and their interleavings, the
    handshake with a master, the pool of threads, the sockets, and the memory
    that all of this allocates.

    ** The program and the library

    The behaviour, with data structures as values:

    - app/stream.c, stream.h: [Stream].  Identifiers (parsing, printing,
      ordering), append, range and after-an-ID reads, the reads of XREAD.
    - app/resp.c, resp.h: [Resp].  The receive buffer, the serialisers, the
      parser of requests, the parser of replies that EXEC uses.
    - app/redis_store.c, redis_store.h: [Store].  The chained hash table, its
      growth, expiry and stream entries; the abstract map it implements is the
      Module [KV] there.
    - app/rdb.c, rdb.h: [Rdb].  The reader of dump files, against a format.
    - app/config.c, config.h: [Config].  The command line.
    - app/command_queue.c: [CommandQueue].  The queue of a transaction.
    - app/server.h, handshake.h, replicas.c: [Replicas].  The server record,
      the list of replicas and the propagation loop.
    - [World]: what the commands share (server record, streams in memory,
      wait states, clock, log of socket writes), the environment they run
      against, the monad of computations on that state, its invariant, and the
      type class [keeps] of computations that keep it.
    - app/command.c, command.h: [Command].  Every handler, the command table,
      the dispatcher.  [Invariants]: what every command keeps, and how EXEC
      runs.  [Handlers]: what each command answers, against [KV].
    - app/server.c: [Server].  Construction of the server, the sweep, and the
      loop a replica runs on the link to its master.
    - app/client_handler.c, sendReply of networking.c: [Client], one connection
      by itself; [Sessions], any number of them interleaved with each other.
    - [Interleave]: INCR as two calls of the store, between which other threads
      can run.
    - app/handshake.c, and the exact reads and writes of networking.c:
      [Handshake], a computation over the bytes the master will send.
      [Replication] puts it against a master's connection loop.
    - app/thread_pool.c, thread_pool.h: [ThreadPool], a step relation whose
      steps are the critical sections, with signals and broadcasts.
    - networking.c, initServer of server.c, the loop of main.c: [Sockets], over
      the set of open descriptors, with every call that can fail.
    - app/logger.c: [Logger].
    - [CLib]: the standard-library functions the code calls (C strings,
      strtoull, strtoll, atoi, snprintf's decimal numbers), as the C standard
      and glibc define them.

    The memory, with the same operations pointer by pointer:

    - [Heap]: blocks that are allocated, read, written and freed, where any
      other access is undefined, and a separation logic for them: an instance of
      Iris's interface, with a total weakest precondition.
    - [Memory]: RESP values and transaction queues (resp.c, command_queue.c).
    - [StreamMemory]: the linked entries of a stream (stream.c).
    - [StoreMemory]: the table with its chains (redis_store.c);
      [StoreLifecycle]: a store from its creation to its release.
    - [XreadMemory]: XREAD from the request to the reply: its arrays, the
      records of what it read, the wait in between (command.c, stream.c).
    - [ServerMemory]: configuration, server and replicas, and the ways out of
      [main] (config.c, server.c, replicas.c, main.c).

    A connection ([Client]) appends what it receives to its buffer, parses
    requests from it ([Resp]) and hands each to [Command.executeCommand],
    which queues it ([CommandQueue]) or runs a handler; a handler works on the
    store ([Store]), the streams it points to ([Stream]) and, for keys that
    memory does not have, the dump file ([Rdb]); commands that write are then
    sent to the replicas ([Replicas]).  A server started as a replica first
    shakes hands with its master ([Handshake]) and then runs the loop of
    [Server] on that link.  Each connection that [main] accepts ([Sockets]) is a
    task of the pool ([ThreadPool]); the tasks run side by side ([Sessions]).

    ** How the code is represented

    Definitions keep the names of the source; an operation that is modelled
    twice has the same name in both files.  A buffer with a length is a list of
    bytes; where the code treats it as a C string, [cstr] cuts it at the first
    NUL.  Machine integers are integers in [Z] with their wrap-around written
    out (u64, s32, ...).  In the first group of files streams live in a heap of
    stream objects, because the store and a blocked XREAD share pointers to
    them, and other structures have one owner and are values; the second group
    has a block for everything the program allocates, and its theorems say that
    the blocks behave as the values do.  An operation that can fail to have a
    defined behaviour answers in [res]: [UB] is a null or dangling pointer
    followed, a block freed twice, an indeterminate value used or a signed
    overflow, [Diverge] a call that does not return.  What fresh memory reads as
    is the parameter [junk].

    The environment ([World.Env]) is the file system, the results of writes to
    sockets, fresh memory, and the other threads: an operation that blocks
    (XREAD, WAIT) hands them the whole state and continues with whatever they
    leave; theorems assume of them only that they keep the invariant
    ([World.env_ok]), or nothing.  In [Sessions] the other threads are there,
    and a command that blocks is one step whose wait the environment answers.

    Fuel.  [Command.executeCommand] takes the depth of EXEC's recursion, and
    [exec_depth_two] shows that two levels are enough.  The scan of a dump and
    its entry loops, the parse loops of the connections and the propagation
    loop take the number of bytes or replicas left; the scan and the entry
    loops are proved to run out of it only where the C loop does not end
    ([rdb_truncated_hangs]), the parse loops to serve every command that has
    arrived ([client_chunking]), the propagation loop to reach every replica
    ([propagate_each_once]).  Loops over linked blocks take a bound on the
    length of the list; that a larger bound than the list is enough is part of
    each theorem, since [Heap.wp] is total.

    ** What the theorems show

    - Connections: however the input is cut, the commands run in order and
      nothing is lost ([client_chunking]); the lemma [client_wedged] shows
      that bad input wedges the connection.  Interleaved connections behave as a
      server that runs one whole command at a time ([sessions_linearise]), keep
      every invariant ([sessions_invariant]) and are the loops of the code cut
      up ([sessions_implement_loop]); [replica_descriptor_reused].  Below the
      level of commands INCR is not atomic: [incr_race_bounds],
      [incr_lost_update].
    - Commands: every command keeps the invariants of the store, the heap, the
      replication record and the client ([execute_invariant]); SET, GET, INCR
      and XADD on every branch ([set_outcome], [get_outcome], [incr_outcome],
      [xadd_outcome]);
      transactions ([transaction_queues], [exec_runs_queue]); blocking reads
      ([xread_block_delivers]); the errors [exec_null_reply], [xadd_crashes],
      [wait_signalled_at_half], [xread_block_missing_key].
    - Store: the table refines a finite map under any sequence of operations
      ([store_refines_map]), and so do its blocks, which are all given back
      ([store_lifecycle]); it keeps its load ([store_load_bounded]), sweeps
      what has expired ([store_clear_expired]); the two units of its expiries
      ([store_expiry_units_differ]).
    - Streams: append on every branch and its invariant
      ([stream_add_functional], [stream_add_invariant]), ranges and reads as
      segments of the list ([stream_range_segment], [stream_read_follow]); the
      linked entries do what the list does ([stream_add_refines],
      [stream_read_copies], [free_stream_exact]), and XREAD, which copies what
      it answers, gives everything back but the reply ([xread_frees_all]).
    - Protocol: requests round-trip ([resp_command_roundtrip]; for replies,
      the lemma [resp_reply_roundtrip]), partial input waits
      ([resp_partial_command_waits]), the parser makes progress
      ([resp_parse_progress]) and the buffer grows in bounds
      ([resp_append_invariant]).  Values are freed exactly once
      ([free_value_exact]), and a transaction owns its commands
      ([queue_owns_commands]).
    - Dump files: lookups in well-formed files ([rdb_value_roundtrip]; for
      listings, the lemma [rdb_keys_roundtrip]), termination
      ([rdb_truncated_hangs]), the width of expiries
      ([rdb_seconds_expiry_wraps]).
    - Threads: the pool runs each task it accepts once and loses none
      ([pool_accounts]), never leaves a task with every worker asleep
      ([pool_no_lost_wakeup]), except when it is stopped
      ([pool_stop_strands]).
    - Replication: the handshake of a replica completes against a master's
      connection loop ([handshake_completes]); each replica gets each command
      once
      ([propagate_each_once]), the offset ([propagate_offset_per_replica]),
      what a replica does with it ([replica_ignores_master]).
    - The process: [config_parse_settings], [createServer_outcome]; no socket is
      left open by a call that fails ([sockets_never_leak]), and each accepted
      one belongs to one task ([connections_accounted]); what the configuration
      and the server own ([config_owns_strings], [free_server_exact]), and that
      every way out of the program frees some of it twice
      ([main_frees_twice]).

    ** Assumptions

    Allocation succeeds, but for the argument of a connection's thread, and
    malloc(0) is not NULL.  The platform is LP64 and
    little-endian with signed [char], and the library is glibc.  In [Sessions] a
    command is atomic, as the store's lock does not make it ([Interleave]); a
    command reads the clock once between two waits, and
    the real-time and monotonic clocks agree.  Counters of bytes and entries
    stay below 2^63.

    ** Not modelled

    The replies of commands other than XREAD, and the buffers they are put
    together in, as blocks: in the files on memory, those commands stop at the
    store, the streams and the queue.  Functions nothing calls: createReplicationInfo,
    freeReplicationInfo.  The handler of a signal is the last way out of [main],
    taken between two rounds of its loop.  Planned: the outcomes of
    XRANGE, KEYS, INFO and PSYNC at the level of commands. *)

From stdpp Require Export ssreflect gmap strings list fin_maps sorting.
From Stdlib Require Export ZArith Lia Ascii Sorted ZifyBool.

Open Scope Z_scope.

(** ** Bytes

    A C [char] is an [ascii]; a region of memory is a list of them.  [bs]
    turns a string literal of the source into the bytes it denotes. *)
Abbreviation bytes := (list ascii).
Definition bs (s : string) : bytes := String.list_ascii_of_string s.
Definition NUL : ascii := "000"%char.
Definition CR : ascii := "013"%char.
Definition LF : ascii := "010"%char.
Definition CRLF : bytes := [CR; LF].
Definition DASH : ascii := "-"%char.

(** ** Results

    [Ok a] is a normal return; [UB] is an execution that has no defined
    behaviour in C (an indeterminate value read, a null or dangling pointer
    dereferenced); [Diverge] is an execution that does not return. *)
Inductive res (A : Type) : Type :=
| Ok (a : A)
| UB
| Diverge.
Arguments Ok {A} a.
Arguments UB {A}.
Arguments Diverge {A}.

#[export] Instance res_ret : MRet res := @Ok.
#[export] Instance res_bind : MBind res := λ A B f m,
  match m with Ok a => f a | UB => UB | Diverge => Diverge end.
#[export] Instance res_fmap : FMap res := λ A B f m,
  match m with Ok a => Ok (f a) | UB => UB | Diverge => Diverge end.

(** An option that stands for a pointer: dereferencing [NULL] is undefined. *)
Definition deref {A} (p : option A) : res A :=
  match p with Some a => Ok a | None => UB end.

Definition is_ok {A} (m : res A) : bool := match m with Ok _ => true | _ => false end.

Section Res.
Context {A B : Type}.

Lemma bind_ok (a : A) (f : A → res B) : (Ok a ≫= f) = f a.
Proof. done. Qed.

Lemma bind_ok_inv (m : res A) (f : A → res B) b :
  m ≫= f = Ok b → ∃ a, m = Ok a ∧ f a = Ok b.
Proof. destruct m; simpl; naive_solver. Qed.

Lemma deref_ok_inv (p : option A) a : deref p = Ok a → p = Some a.
Proof. destruct p; simpl; congruence. Qed.
End Res.

(** ** What uninitialised memory reads as

    [malloc] leaves the memory it returns indeterminate.  [Zeroed] is an
    allocator whose fresh memory happens to read as zero; [Wild z] is one
    where it does not: an indeterminate integer reads as [z], and a pointer
    or tag read from it is undefined behaviour. *)
Inductive junk := Zeroed | Wild (z : Z).
Definition junk_int (j : junk) : Z := match j with Zeroed => 0 | Wild z => z end.
Definition junk_is_null (j : junk) : bool := match j with Zeroed => true | Wild _ => false end.

(** ** Generic lemmas on lists *)

Lemma in_flat_lookup {A} (l : list (list A)) i b x :
  l !! i = Some b → x ∈ b → x ∈ concat l.
Proof.
  intros Hb Hx. apply list_elem_of_In, in_concat. exists b.
  split; apply list_elem_of_In; [by eapply list_elem_of_lookup_2|done].
Qed.

Lemma flat_lookup_in {A} (l : list (list A)) x :
  x ∈ concat l → ∃ i b, l !! i = Some b ∧ x ∈ b.
Proof.
  intros (b & Hb & Hx)%list_elem_of_In%in_concat.
  apply list_elem_of_In, list_elem_of_lookup in Hb as [i Hi].
  exists i, b. split; [done|by apply list_elem_of_In].
Qed.

Lemma strict_prefix_app {A} (p x y : list A) :
  p `prefix_of` x ++ y → p ≠ x ++ y →
  (p `prefix_of` x ∧ p ≠ x) ∨ (∃ q, p = x ++ q ∧ q `prefix_of` y ∧ q ≠ y).
Proof.
  revert p. induction x as [|a x IH]; intros p Hp Hne; simpl in *; [eauto|].
  destruct p as [|b p]; [left; split; [apply prefix_nil|done]|].
  apply prefix_cons_inv_1 in Hp as Hab; subst b.
  apply prefix_cons_inv_2 in Hp.
  destruct (IH p Hp) as [[? ?]|(q & -> & ? & ?)]; [congruence| |eauto].
  left. split; [by apply prefix_cons|congruence].
Qed.

(** A list around one of its positions. *)
Lemma lookup_split {A} (l : list A) i y :
  l !! i = Some y →
  ∃ l1 l2, l = l1 ++ y :: l2 ∧ i = length l1 ∧ delete i l = l1 ++ l2
    ∧ ∀ x, <[i := x]> l = l1 ++ x :: l2.
Proof.
  intros Hy. exists (take i l), (drop (S i) l). pose proof (lookup_lt_Some _ _ _ Hy).
  rw take_drop_middle //. split; [done|]. rw length_take Nat.min_l; [|lia].
  split; [done|]. split; [by rw delete_take_drop|].
  intros x. by rw insert_take_drop.
Qed.

(** How many elements of a list satisfy a test. *)
Definition count {A} (f : A → bool) (l : list A) : nat := length (filter (λ x, f x = true) l).

Lemma count_app {A} (f : A → bool) l l' : count f (l ++ l') = (count f l + count f l')%nat.
Proof. by rw /count filter_app length_app. Qed.

Lemma count_cons {A} (f : A → bool) x l : count f (x :: l) = (Nat.b2n (f x) + count f l)%nat.
Proof.
  rw /count. destruct (f x) eqn:E; [by rw filter_cons_True|].
  rw filter_cons_False; [done|by rw E].
Qed.

Lemma count_insert {A} (f : A → bool) l i x y :
  l !! i = Some x → (count f (<[i := y]> l) + Nat.b2n (f x) = count f l + Nat.b2n (f y))%nat.
Proof.
  intros (l1 & l2 & -> & -> & _ & Hi)%lookup_split. rw Hi !count_app !count_cons. lia.
Qed.

Lemma count_lt {A} (f : A → bool) l i x :
  l !! i = Some x → f x = false → (count f l < length l)%nat.
Proof.
  intros (l1 & l2 & -> & _)%lookup_split Hx. rw count_app count_cons Hx length_app /= /count.
  pose proof (length_filter (λ x, f x = true) l1). pose proof (length_filter (λ x, f x = true) l2). lia.
Qed.

Lemma count_all {A} (f : A → bool) l : Forall (λ x, f x = true) l → count f l = length l.
Proof. induction 1 as [|x l Hx _ IH]; [done|]. by rw count_cons Hx IH. Qed.

Lemma count_pos {A} (f : A → bool) l : (0 < count f l)%nat → ∃ i x, l !! i = Some x ∧ f x = true.
Proof.
  rw /count. destruct (filter _ l) as [|x l'] eqn:E; [simpl; lia|]. intros _.
  assert (x ∈ filter (λ x, f x = true) l) as Hx by (rw E; by left).
  apply list_elem_of_filter in Hx as [Hf [i Hi]%list_elem_of_lookup_1]. by exists i, x.
Qed.

(** ** Automation *)

(** Split the next [match] or [decide] of the goal or of a hypothesis. *)
Ltac cases :=
  repeat first [case_decide | case_match]; simplify_eq/=; try done.

(** Invert a chain of binds that is known to succeed. *)
Ltac ok_inv H :=
  repeat (let a := fresh "r" in let E := fresh "Er" in
          apply bind_ok_inv in H as (a & E & H)).

(** Decide a closed goal by evaluation. *)
Ltac by_decide := refine (bool_decide_unpack _ _); vm_compute; exact I.

(** [lia] reasons about [/] and [mod] by constants. *)
Ltac Zify.zify_post_hook ::= Z.to_euclidean_division_equations.

(** Lengths of compound byte strings, for [lia]. *)
Lemma length_CRLF : length CRLF = 2%nat.
Proof. done. Qed.

Create HintDb lens.
#[export] Hint Rewrite @length_app @length_cons @length_map @length_CRLF @length_drop : lens.

Ltac lens := autorewrite with lens in *; try lia.
