(* ===== verification/Heap.v ===== *)
(** * The memory of the process, and a logic for who owns it

    [malloc], [free] and accesses through pointers, as a state in which every
    live block is an object; using a block that is not live is [UB].  The
    assertions are the sets of memories, with separating conjunction, as an
    instance of Iris's interface for such logics; [wp] is total: the call
    returns, and touches nothing but what it owns. *)

From S2P Require Import Prelude.
From iris.proofmode Require Import proofmode.
From iris.algebra Require Import ofe.

(** A pointer is [NULL] or the address of a block. *)
Abbreviation loc := positive.
Abbreviation ptr := (option loc).
Abbreviation NULL := (@None loc).

(** ** Memory *)

Section Memory.
Context {O : Type}.
Abbreviation mem := (gmap loc O).

Definition Mem (A : Type) : Type := mem → res (A * mem).
#[global] Instance Mem_ret : MRet Mem := λ A a m, Ok (a, m).
#[global] Instance Mem_bind : MBind Mem := λ A B f c m,
  match c m with Ok (a, m') => f a m' | UB => UB | Diverge => Diverge end.

Definition malloc (o : O) : Mem ptr := λ m,
  let l := fresh (dom m) in Ok (Some l, <[l := o]> m).
Definition load (p : ptr) : Mem O := λ m,
  match p with
  | Some l => match m !! l with Some o => Ok (o, m) | None => UB end
  | None => UB
  end.
Definition store (p : ptr) (o : O) : Mem () := λ m,
  match p with
  | Some l => match m !! l with Some _ => Ok ((), <[l := o]> m) | None => UB end
  | None => UB
  end.
(** [free(NULL)] does nothing. *)
Definition free (p : ptr) : Mem () := λ m,
  match p with
  | Some l => match m !! l with Some _ => Ok ((), delete l m) | None => UB end
  | None => Ok ((), m)
  end.
Definition undefined {A} : Mem A := λ _, UB.
Definition diverge {A} : Mem A := λ _, Diverge.

(** ** Assertions *)

Record hProp := HProp { hProp_holds :> mem → Prop }.

Section Ofe.
Inductive hProp_equiv' (P Q : hProp) : Prop := { hProp_in_equiv : ∀ m, P m ↔ Q m }.
#[local] Instance hProp_equiv : Equiv hProp := hProp_equiv'.
#[local] Instance hProp_equivalence : Equivalence (≡@{hProp}).
Proof. split; repeat destruct 1; constructor; naive_solver. Qed.
Canonical Structure hPropO := discreteO hProp.
End Ofe.

Inductive hProp_entails (P Q : hProp) : Prop := { hProp_in_entails : ∀ m, P m → Q m }.
Definition hProp_emp : hProp := HProp (λ m, m = ∅).
Definition hProp_pure (φ : Prop) : hProp := HProp (λ _, φ).
Definition hProp_and (P Q : hProp) : hProp := HProp (λ m, P m ∧ Q m).
Definition hProp_or (P Q : hProp) : hProp := HProp (λ m, P m ∨ Q m).
Definition hProp_impl (P Q : hProp) : hProp := HProp (λ m, P m → Q m).
Definition hProp_forall {A} (Ψ : A → hProp) : hProp := HProp (λ m, ∀ a, Ψ a m).
Definition hProp_exist {A} (Ψ : A → hProp) : hProp := HProp (λ m, ∃ a, Ψ a m).
Definition hProp_sep (P Q : hProp) : hProp :=
  HProp (λ m, ∃ m1 m2, m = m1 ∪ m2 ∧ m1 ##ₘ m2 ∧ P m1 ∧ Q m2).
Definition hProp_wand (P Q : hProp) : hProp :=
  HProp (λ m, ∀ m', m ##ₘ m' → P m' → Q (m ∪ m')).
Definition hProp_persistently (P : hProp) : hProp := hProp_pure (hProp_entails hProp_emp P).
Definition hProp_later (P : hProp) : hProp := P.

Lemma hProp_bi_mixin :
  BiMixin hProp_entails hProp_emp hProp_pure hProp_and hProp_or hProp_impl
    (@hProp_forall) (@hProp_exist) hProp_sep hProp_wand.
Proof.
  split.
  - split; [by constructor|]. intros P Q R [H1] [H2]. constructor. auto.
  - intros P Q. split.
    + intros [H]. split; constructor; apply H.
    + intros [[H1] [H2]]. constructor. split; auto.
  - intros n φ ψ H. constructor. naive_solver.
  - intros n P P' [H1] Q Q' [H2]. constructor. naive_solver.
  - intros n P P' [H1] Q Q' [H2]. constructor. naive_solver.
  - intros n P P' [H1] Q Q' [H2]. constructor. naive_solver.
  - intros A n Ψ Ψ' H. constructor. intros m. split; intros Ha a; by apply (H a).
  - intros A n Ψ Ψ' H. constructor. intros m. split; intros [a Ha]; exists a; by apply (H a).
  - intros n P P' [H1] Q Q' [H2]. constructor. naive_solver.
  - intros n P P' [H1] Q Q' [H2]. constructor. naive_solver.
  - intros φ P H. constructor. naive_solver.
  - intros φ P H. constructor. intros m Hφ. by apply H.
  - intros P Q. constructor. naive_solver.
  - intros P Q. constructor. naive_solver.
  - intros P Q R [H1] [H2]. constructor. naive_solver.
  - intros P Q. constructor. naive_solver.
  - intros P Q. constructor. naive_solver.
  - intros P Q R [H1] [H2]. constructor. naive_solver.
  - intros P Q R [H]. constructor. naive_solver.
  - intros P Q R [H]. constructor. naive_solver.
  - intros A P Ψ H. constructor. intros m HP a. by apply (H a).
  - intros A Ψ a. constructor. naive_solver.
  - intros A Ψ a. constructor. naive_solver.
  - intros A Φ Q H. constructor. intros m [a Ha]. by apply (H a).
  - intros P P' Q Q' [H1] [H2]. constructor. intros m (m1 & m2 & ? & ? & ? & ?). exists m1, m2. auto.
  - intros P. constructor. intros m HP. exists ∅, m. rw map_empty_union.
    split_and!; [done|apply map_disjoint_empty_l|done..].
  - intros P. constructor. intros m (m1 & m2 & -> & ? & Hm & ?). rw /= in Hm. subst m1. by rw map_empty_union.
  - intros P Q. constructor. intros m (m1 & m2 & -> & ? & ? & ?). exists m2, m1.
    split_and!; [by apply map_union_comm|by apply map_disjoint_sym|done..].
  - intros P Q R. constructor. intros m (m12 & m3 & -> & Hd & (m1 & m2 & -> & Hd' & ? & ?) & ?).
    apply map_disjoint_union_l in Hd as [? ?].
    exists m1, (m2 ∪ m3). split_and!; [by rw assoc_L|by apply map_disjoint_union_r|done|by exists m2, m3].
  - intros P Q R [H]. constructor. intros m HP m' Hd HQ. apply H. by exists m, m'.
  - intros P Q R [H]. constructor. intros m (m1 & m2 & -> & Hd & HP & HQ). by apply H.
Qed.

Lemma hProp_persistently_mixin :
  BiPersistentlyMixin hProp_entails hProp_emp hProp_and (@hProp_exist) hProp_sep hProp_persistently.
Proof.
  eapply bi_persistently_mixin_discrete, hProp_bi_mixin; [done| |done].
  intros A Φ [H]. destruct (H ∅) as [a Ha]; [done|]. exists a. constructor. by intros m ->.
Qed.

Lemma hProp_later_mixin :
  BiLaterMixin hProp_entails hProp_pure hProp_or hProp_impl (@hProp_forall) (@hProp_exist)
    hProp_sep hProp_persistently hProp_later.
Proof. eapply bi_later_mixin_id, hProp_bi_mixin. done. Qed.

Canonical Structure hPropI : bi :=
  {| bi_ofe_mixin := ofe_mixin_of hProp;
     bi_bi_mixin := hProp_bi_mixin;
     bi_bi_persistently_mixin := hProp_persistently_mixin;
     bi_bi_later_mixin := hProp_later_mixin |}.

(** The block at [l] is [o], and nothing else is owned. *)
Definition points_to (l : loc) (o : O) : hPropI := HProp (λ m, m = {[l := o]}).

(** [c] returns from every memory of which a part satisfies this assertion, and
    that part then satisfies [Φ] of the result; the rest is as it was. *)
Definition wp {A} (c : Mem A) (Φ : A → hPropI) : hPropI :=
  HProp (λ m, ∀ mf, m ##ₘ mf →
    ∃ a m', c (m ∪ mf) = Ok (a, m' ∪ mf) ∧ m' ##ₘ mf ∧ Φ a m').

End Memory.
Arguments Mem : clear implicits.
Arguments hProp : clear implicits.
Arguments hPropI : clear implicits.

Notation "l ↦ o" := (points_to l o) (at level 20, format "l  ↦  o") : bi_scope.

(** ** The rules *)

Section Rules.
Context {O : Type}.
Implicit Types (m : gmap loc O) (P : hPropI O).

Lemma wp_ret {A} (a : A) (Φ : A → hPropI O) : Φ a ⊢ wp (mret a) Φ.
Proof. constructor. intros m H mf Hd. by exists a, m. Qed.

Lemma wp_bind {A B} (c : Mem O A) (f : A → Mem O B) Φ :
  wp c (λ a, wp (f a) Φ) ⊢ wp (c ≫= f) Φ.
Proof.
  constructor. intros m H mf Hd. destruct (H mf Hd) as (a & m1 & E & Hd1 & Ha).
  destruct (Ha mf Hd1) as (b & m2 & E2 & Hd2 & Hb). exists b, m2. split; [|done].
  by rw /mbind /Mem_bind E.
Qed.

Lemma wp_wand {A} (c : Mem O A) Φ Ψ : wp c Φ -∗ (∀ a, Φ a -∗ Ψ a) -∗ wp c Ψ.
Proof.
  apply bi.entails_wand, bi.wand_intro_r. constructor.
  intros m (m1 & m2 & -> & Hd & Hc & Hw) mf [Hd1 Hd2]%map_disjoint_union_l.
  destruct (Hc (m2 ∪ mf)) as (a & m1' & E & Hd' & Ha); [by apply map_disjoint_union_r|].
  apply map_disjoint_union_r in Hd' as [Hd3 Hd4].
  exists a, (m1' ∪ m2). rw -!assoc_L. split; [done|].
  split; [by apply map_disjoint_union_l|]. rw map_union_comm //. by apply (Hw a).
Qed.

Lemma wp_malloc o (Φ : ptr → hPropI O) : (∀ l, l ↦ o -∗ Φ (Some l)) ⊢ wp (malloc o) Φ.
Proof.
  constructor. intros m H mf Hd. set (l := fresh (dom (m ∪ mf))).
  assert ((m ∪ mf) !! l = None) as Hl by apply not_elem_of_dom, is_fresh.
  apply lookup_union_None in Hl as [Hl Hl'].
  exists (Some l), (m ∪ {[l := o]}). split_and!.
  - rw /malloc -/l. rw insert_union_singleton_l assoc_L -(map_union_comm m {[l := o]}) //.
    by apply map_disjoint_singleton_r.
  - apply map_disjoint_union_l. split; [done|]. by apply map_disjoint_singleton_l.
  - apply (H l); [by apply map_disjoint_singleton_r|done].
Qed.

Lemma wp_load l o (Φ : O → hPropI O) : l ↦ o -∗ (l ↦ o -∗ Φ o) -∗ wp (load (Some l)) Φ.
Proof.
  apply bi.entails_wand, bi.wand_intro_r. constructor.
  intros m (m1 & m2 & -> & Hd & Hm & Hw) mf Hd'. rw /= in Hm. subst m1.
  exists o, ({[l := o]} ∪ m2). split_and!; [|done|].
  - rw /load. by rw -assoc_L lookup_union_l' ?lookup_singleton_eq.
  - rw map_union_comm //. by apply Hw.
Qed.

Lemma wp_store l o o' (Φ : () → hPropI O) : l ↦ o -∗ (l ↦ o' -∗ Φ ()) -∗ wp (store (Some l) o') Φ.
Proof.
  apply bi.entails_wand, bi.wand_intro_r. constructor.
  intros m (m1 & m2 & -> & Hd & Hm & Hw) mf Hd'. rw /= in Hm. subst m1.
  apply map_disjoint_union_l in Hd' as [Hd1 Hd2].
  assert ({[l := o']} ##ₘ m2) as Hd3 by (apply map_disjoint_singleton_l; by apply map_disjoint_singleton_l in Hd).
  exists (), ({[l := o']} ∪ m2). split_and!.
  - rw /store -assoc_L lookup_union_l' ?lookup_singleton_eq //.
    by rw insert_union_l insert_singleton_eq assoc_L.
  - apply map_disjoint_union_l. split; [|done]. apply map_disjoint_singleton_l.
    by apply map_disjoint_singleton_l in Hd1.
  - rw map_union_comm //. by apply Hw.
Qed.

Lemma wp_free l o (Φ : () → hPropI O) : l ↦ o -∗ Φ () -∗ wp (free (Some l)) Φ.
Proof.
  apply bi.entails_wand, bi.wand_intro_r. constructor.
  intros m (m1 & m2 & -> & Hd & Hm & HΦ) mf Hd'. rw /= in Hm. subst m1.
  apply map_disjoint_union_l in Hd' as [Hd1 Hd2].
  apply map_disjoint_singleton_l in Hd, Hd1.
  exists (), m2. split_and!; [|done..].
  rw /free -assoc_L lookup_union_l' ?lookup_singleton_eq //.
  rw delete_union delete_singleton_eq left_id_L. rw delete_id //. by apply lookup_union_None.
Qed.

Lemma wp_free_null (Φ : () → hPropI O) : Φ () ⊢ wp (free NULL) Φ.
Proof. constructor. intros m H mf Hd. by exists (), m. Qed.

(** Memories that satisfy an assertion. *)
Lemma sep_holds P (Q : hPropI O) m1 m2 : P m1 → Q m2 → m1 ##ₘ m2 → (P ∗ Q)%I (m1 ∪ m2).
Proof. intros HP HQ Hd. by exists m1, m2. Qed.

Lemma entails_holds P (Q : hPropI O) m : (P ⊢ Q) → P m → Q m.
Proof. intros [H]. apply H. Qed.

(** A proof in the logic says how the call runs. *)
Lemma wp_run {A} (c : Mem O A) P Φ m mf :
  (P ⊢ wp c Φ) → P m → m ##ₘ mf → ∃ a m', c (m ∪ mf) = Ok (a, m' ∪ mf) ∧ m' ##ₘ mf ∧ Φ a m'.
Proof. intros [H] HP. by apply (H m). Qed.
End Rules.
