(* ===== verification/CLib.v ===== *)
(** * The C runtime the program relies on

    Machine integers (LP64: [int] has 32 bits; [long], [long long], [size_t]
    and [time_t] have 64), signed [char], NUL-terminated strings and the
    parts of the C standard library the sources call: [strlen], [strcmp],
    [strcasecmp], [strncmp], [strchr], [strtoull], [strtoll], [atoi], [atoll],
    [tolower] in the C locale, [memmem] on CRLF and the decimal conversions
    of [printf].  None of this is code of the repository; the definitions
    follow the C standard (and glibc where it leaves a choice). *)

From S2P Require Import Prelude.

(** ** Machine integers *)

Definition u64 (z : Z) : Z := z mod 2 ^ 64.
Definition u32 (z : Z) : Z := z mod 2 ^ 32.
Definition s64 (z : Z) : Z := (z + 2 ^ 63) mod 2 ^ 64 - 2 ^ 63.
Definition s32 (z : Z) : Z := (z + 2 ^ 31) mod 2 ^ 32 - 2 ^ 31.

Definition UINT64_MAX : Z := 2 ^ 64 - 1.
Definition LLONG_MAX : Z := 2 ^ 63 - 1.
Definition LLONG_MIN : Z := - 2 ^ 63.
Definition INT_MAX : Z := 2 ^ 31 - 1.

Definition in_u64 (z : Z) : Prop := 0 ≤ z < 2 ^ 64.
Definition in_s64 (z : Z) : Prop := - 2 ^ 63 ≤ z < 2 ^ 63.

(** ** Characters *)

Definition ucode (c : ascii) : Z := Z.of_N (N_of_ascii c).

(** [char] is signed on the target, and is sign-extended when widened. *)
Definition schar (c : ascii) : Z := if ucode c <? 128 then ucode c else ucode c - 256.

Definition chr (z : Z) : ascii := ascii_of_N (Z.to_N z).

Definition is_digit (c : ascii) : bool := (48 <=? ucode c) && (ucode c <=? 57).
Definition is_space (c : ascii) : bool := (ucode c =? 32) || ((9 <=? ucode c) && (ucode c <=? 13)).
Definition tolower (c : ascii) : ascii :=
  if (65 <=? ucode c) && (ucode c <=? 90) then chr (ucode c + 32) else c.

(** ** Strings *)

(** The C string that starts at the beginning of a region of memory (which
    is followed by a NUL): everything before its first NUL. *)
Fixpoint cstr (b : bytes) : bytes :=
  match b with
  | [] => []
  | c :: b' => if decide (c = NUL) then [] else c :: cstr b'
  end.

Definition strlen (b : bytes) : nat := length (cstr b).
Definition strcmp_eq (a b : bytes) : bool := bool_decide (cstr a = cstr b).
Definition strcasecmp_eq (a b : bytes) : bool :=
  bool_decide (map tolower (cstr a) = map tolower (cstr b)).
Definition strncmp_eq (a b : bytes) (n : nat) : bool :=
  bool_decide (take n (cstr a) = take n (cstr b)).

(** [strchr] for a character other than NUL: the prefix before its first
    occurrence and the suffix that starts at it. *)
Fixpoint split_at (c : ascii) (b : bytes) : option (bytes * bytes) :=
  match b with
  | [] => None
  | x :: b' =>
      if decide (x = c) then Some ([], b)
      else ('(p, s) ← split_at c b'; Some (x :: p, s))
  end.
Definition strchr (b : bytes) (c : ascii) : option (bytes * bytes) := split_at c (cstr b).

(** [memmem(data, len, CRLF, 2)]: the bytes before the first CRLF. *)
Fixpoint before_crlf (b : bytes) : option bytes :=
  match b with
  | [] => None
  | c :: b' =>
      match b' with
      | d :: _ => if decide (c = CR ∧ d = LF) then Some [] else cons c <$> before_crlf b'
      | [] => None
      end
  end.

(** ** Numbers to text *)

Definition digit (d : Z) : ascii := chr (48 + d).

(** The decimal digits of a non-negative number, most significant first.
    Twenty digits hold every 64-bit value. *)
Fixpoint digits (fuel : nat) (n : Z) (acc : bytes) : bytes :=
  match fuel with
  | O => acc
  | S fuel' =>
      if n <? 10 then digit n :: acc
      else digits fuel' (n / 10) (digit (n mod 10) :: acc)
  end.

(** [%lu], [%zu] and, on negative numbers too, [%lld], [%d]. *)
Definition print_u (n : Z) : bytes := digits 20 n [].
Definition print_s (n : Z) : bytes := if n <? 0 then DASH :: print_u (- n) else print_u n.

(** [snprintf(buf, size, ...)]: what the buffer holds afterwards. *)
Definition snprintf (size : nat) (out : bytes) : bytes := take (size - 1) out.

(** ** Text to numbers *)

Fixpoint skip_space (b : bytes) : bytes :=
  match b with
  | c :: b' => if is_space c then skip_space b' else b
  | [] => []
  end.

Fixpoint scan_digits (acc : Z) (b : bytes) : Z * bytes :=
  match b with
  | c :: b' => if is_digit c then scan_digits (acc * 10 + (ucode c - 48)) b' else (acc, b)
  | [] => (acc, [])
  end.

Definition scan_sign (b : bytes) : bool * bytes :=
  match b with
  | c :: b' => if decide (c = DASH) then (true, b')
               else if decide (c = "+"%char) then (false, b') else (false, b)
  | [] => (false, [])
  end.

(** The subject sequence of [strtol] and its family in base 10: sign,
    magnitude and the text after it; [None] when there is no conversion. *)
Definition scan_int (b : bytes) : option (bool * Z * bytes) :=
  let '(neg, b') := scan_sign (skip_space b) in
  match b' with
  | c :: _ => if is_digit c
              then let '(v, rest) := scan_digits 0 b' in Some (neg, v, rest)
              else None
  | [] => None
  end.

(** The value and the suffix [endptr] points to. *)
Definition strtoull (b : bytes) : Z * bytes :=
  match scan_int (cstr b) with
  | None => (0, cstr b)
  | Some (neg, v, rest) =>
      (if UINT64_MAX <? v then UINT64_MAX else if neg then u64 (- v) else v, rest)
  end.

Definition strtoll (b : bytes) : Z * bytes :=
  match scan_int (cstr b) with
  | None => (0, cstr b)
  | Some (neg, v, rest) =>
      let v' := if neg then - v else v in
      (Z.max LLONG_MIN (Z.min LLONG_MAX v'), rest)
  end.

Definition atoll (b : bytes) : Z := (strtoll b).1.
(** [atoi] is [(int) strtol(s, NULL, 10)]. *)
Definition atoi (b : bytes) : Z := s32 (strtoll b).1.

(** ** Facts about characters *)

Lemma ucode_bound c : 0 ≤ ucode c < 256.
Proof.
  unfold ucode. pose proof (N_ascii_bounded c). lia.
Qed.

Lemma ucode_chr z : 0 ≤ z < 256 → ucode (chr z) = z.
Proof. intros Hz. unfold ucode, chr. rw N_ascii_embedding; lia. Qed.

Lemma ucode_digit d : 0 ≤ d ≤ 9 → ucode (digit d) = 48 + d.
Proof. intros Hd. apply ucode_chr. lia. Qed.

Lemma is_digit_digit d : 0 ≤ d ≤ 9 → is_digit (digit d) = true.
Proof. intros Hd. unfold is_digit. rw ucode_digit //. lia. Qed.

Lemma is_digit_ne c d : is_digit c = true → is_digit d = false → c ≠ d.
Proof. congruence. Qed.

Lemma is_digit_not_space c : is_digit c = true → is_space c = false.
Proof. unfold is_digit, is_space. lia. Qed.

(** Text made of digits holds none of the characters that are not digits. *)
Lemma digits_free c b : is_digit c = false → Forall (λ x, is_digit x = true) b → c ∉ b.
Proof. intros Hc Hb Hin. rw Forall_forall in Hb. apply Hb in Hin. congruence. Qed.

(** ** Facts about C strings *)

Lemma cstr_nonul_app a b : NUL ∉ a → cstr (a ++ b) = a ++ cstr b.
Proof.
  induction a as [|c a IH]; intros Ha; simpl; [done|].
  apply not_elem_of_cons in Ha as [? ?]. rw decide_False //. rw IH //.
Qed.

Lemma cstr_nonul a : NUL ∉ a → cstr a = a.
Proof. intros Ha. rw -{1}(app_nil_r a) cstr_nonul_app //= app_nil_r //. Qed.

Lemma cstr_is_nonul b : NUL ∉ cstr b.
Proof.
  induction b as [|c b IH]; simpl; [by apply not_elem_of_nil|].
  case_decide; [by apply not_elem_of_nil|]. apply not_elem_of_cons; naive_solver.
Qed.

Lemma cstr_app_nul v : cstr (v ++ [NUL]) = cstr v.
Proof. induction v as [|c v IH]; [done|]. cbn [app cstr]. by rw IH. Qed.

Lemma strtoll_app_nul v : strtoll (v ++ [NUL]) = strtoll v.
Proof. by rw /strtoll cstr_app_nul. Qed.
Lemma atoi_nul v : atoi (v ++ [NUL]) = atoi v.
Proof. by rw /atoi strtoll_app_nul. Qed.
Lemma strcasecmp_eq_nul a b : strcasecmp_eq (a ++ [NUL]) b = strcasecmp_eq a b.
Proof. by rw /strcasecmp_eq cstr_app_nul. Qed.
Lemma strncmp_eq_nul a b n : strncmp_eq (a ++ [NUL]) b n = strncmp_eq a b n.
Proof. by rw /strncmp_eq cstr_app_nul. Qed.
Lemma cstr_idemp b : cstr (cstr b) = cstr b.
Proof. apply cstr_nonul, cstr_is_nonul. Qed.

Lemma cstr_elem c b : c ∈ cstr b → c ∈ b.
Proof.
  induction b as [|x b IH]; simpl; [done|]. case_decide; [by intros ?%elem_of_nil|].
  intros [->|?]%elem_of_cons; [by left|right; auto].
Qed.

(** What is cut off at a NUL. *)
Lemma cstr_at_nul a b : NUL ∉ a → cstr (a ++ NUL :: b) = a.
Proof. intros Ha. rw cstr_nonul_app //= app_nil_r //. Qed.

Lemma split_at_app c p s : c ∉ p → split_at c (p ++ c :: s) = Some (p, c :: s).
Proof.
  induction p as [|x p IH]; intros Hp; simpl; [by rw decide_True|].
  apply not_elem_of_cons in Hp as [? ?]. rw decide_False // IH //.
Qed.

Lemma split_at_none c b : c ∉ b → split_at c b = None.
Proof.
  induction b as [|x b IH]; intros Hb; simpl; [done|].
  apply not_elem_of_cons in Hb as [? ?]. rw decide_False // IH //.
Qed.

Lemma split_at_some c b p s : split_at c b = Some (p, s) → b = p ++ s ∧ c ∉ p ∧ (∃ s', s = c :: s').
Proof.
  revert p s. induction b as [|x b IH]; intros p s; simpl; [done|]. case_decide.
  - intros [= <- <-]. subst. split; [done|]. split; [by apply not_elem_of_nil|eauto].
  - destruct (split_at c b) as [[p' s']|]; simpl; [|done]. intros [= <- <-].
    destruct (IH p' s' eq_refl) as (-> & ? & ?). split; [done|].
    split; [|done]. by apply not_elem_of_cons.
Qed.

(** ** Facts about lines *)

Lemma before_crlf_cons2 c d b :
  before_crlf (c :: d :: b) =
  if decide (c = CR ∧ d = LF) then Some [] else cons c <$> before_crlf (d :: b).
Proof. done. Qed.

Lemma before_crlf_app l r : CR ∉ l → before_crlf (l ++ CRLF ++ r) = Some l.
Proof.
  induction l as [|c l IH]; intros Hl; [done|].
  apply not_elem_of_cons in Hl as [? ?]. specialize (IH ltac:(done)).
  assert (∃ d t, l ++ CRLF ++ r = d :: t) as (d & t & E) by (destruct l; eauto).
  rw -app_comm_cons E before_crlf_cons2 decide_False; [|naive_solver].
  by rw -E IH.
Qed.

Lemma before_crlf_none b : LF ∉ b → before_crlf b = None.
Proof.
  induction b as [|c b IH]; intros Hb; [done|].
  apply not_elem_of_cons in Hb as [? Hb]. destruct b as [|d b]; [done|].
  rw before_crlf_cons2 IH // decide_False //.
  intros [_ ->]. apply Hb. by left.
Qed.

Lemma before_crlf_some b l : before_crlf b = Some l → ∃ r, b = l ++ CRLF ++ r.
Proof.
  revert l. induction b as [|c b IH]; intros l Hb; [done|].
  destruct b as [|d b]; [done|]. rw before_crlf_cons2 in Hb. case_decide as Hcd.
  - destruct Hcd as [-> ->]. simplify_eq. by exists b.
  - destruct (before_crlf (d :: b)) as [l'|] eqn:E; simpl in *; simplify_eq.
    destruct (IH l' eq_refl) as [r Hr]. exists r. simpl. by rw Hr.
Qed.

(** ** Printing and reading back *)

Lemma digits_acc f n acc : digits f n acc = digits f n [] ++ acc.
Proof.
  revert n acc. induction f as [|f IH]; intros n acc; simpl; [done|].
  case_match; [done|]. rw IH (IH _ [_]) -app_assoc //.
Qed.

Lemma digits_nonempty f n : digits (S f) n [] ≠ [].
Proof. simpl. case_match; [done|]. rw digits_acc. by destruct (digits f _ _). Qed.

Lemma digits_are_digits f n : 0 ≤ n → Forall (λ c, is_digit c = true) (digits f n []).
Proof.
  revert n. induction f as [|f IH]; intros n Hn; simpl; [constructor|].
  case_match.
  - constructor; [|constructor]. apply is_digit_digit. lia.
  - rw digits_acc. apply Forall_app. split; [apply IH; lia|].
    constructor; [|constructor]. apply is_digit_digit. lia.
Qed.

Lemma scan_digits_digits f n r :
  0 ≤ n < 10 ^ Z.of_nat f → scan_digits 0 (digits f n [] ++ r) = scan_digits n r.
Proof.
  revert n r. induction f as [|f IH]; intros n r Hn; simpl.
  - change (10 ^ Z.of_nat 0) with 1 in Hn. f_equal. lia.
  - rw Nat2Z.inj_succ Z.pow_succ_r in Hn; [|lia]. case_match; simpl.
    + rw is_digit_digit; [|lia]. rw ucode_digit; [|lia]. f_equal. lia.
    + rw digits_acc -app_assoc IH; [|lia]. simpl.
      rw is_digit_digit; [|lia]. rw ucode_digit; [|lia]. f_equal. lia.
Qed.

Lemma digits_length f n k :
  0 ≤ n < 10 ^ Z.of_nat (S k) → (length (digits f n []) ≤ S k)%nat.
Proof.
  revert n k. induction f as [|f IH]; intros n k Hn; simpl; [lia|].
  case_match; simpl; [lia|]. rw digits_acc length_app /=.
  destruct k as [|k]; [change (10 ^ Z.of_nat 1) with 10 in Hn; lia|].
  specialize (IH (n / 10) k). rw Nat2Z.inj_succ Z.pow_succ_r in Hn; lia.
Qed.

Lemma print_u_digits n : 0 ≤ n → Forall (λ c, is_digit c = true) (print_u n).
Proof. apply digits_are_digits. Qed.

Lemma print_u_cons n : 0 ≤ n → ∃ c t, print_u n = c :: t ∧ is_digit c = true.
Proof.
  intros Hn. pose proof (print_u_digits n Hn) as Hd.
  destruct (print_u n) as [|c t] eqn:E; [|inversion Hd; subst; eauto].
  by destruct (digits_nonempty 19 n).
Qed.

Lemma print_u_free c n : is_digit c = false → 0 ≤ n → c ∉ print_u n.
Proof. intros ??. apply digits_free; [done|]. by apply print_u_digits. Qed.

Lemma print_u_length n k :
  0 ≤ n < 10 ^ Z.of_nat (S k) → (length (print_u n) ≤ S k)%nat.
Proof. apply digits_length. Qed.

(** The text after a number does not continue it. *)
Definition ends_number (r : bytes) : Prop :=
  match r with c :: _ => is_digit c = false | [] => True end.

Lemma scan_digits_end v r : ends_number r → scan_digits v r = (v, r).
Proof. destruct r as [|c r]; simpl; [done|]. by intros ->. Qed.

Lemma scan_sign_digit c b : is_digit c = true → scan_sign (c :: b) = (false, c :: b).
Proof. intros Hc. simpl. rw !decide_False //; intros ->; done. Qed.

Lemma scan_int_print_u n r :
  0 ≤ n < 10 ^ 20 → ends_number r → scan_int (print_u n ++ r) = Some (false, n, r).
Proof.
  intros Hn Hr. destruct (print_u_cons n) as (c & t & E & Hc); [lia|].
  unfold scan_int. rw E /=. rw is_digit_not_space //.
  rw scan_sign_digit // Hc. change (c :: t ++ r) with ((c :: t) ++ r). rw -E.
  unfold print_u. rw scan_digits_digits; [|done]. by rw scan_digits_end.
Qed.

Lemma ends_number_cstr r : ends_number r → ends_number (cstr r).
Proof. destruct r as [|c r]; simpl; [done|]. by case_decide. Qed.

(** [strtoull] reads back what [%lu] printed and stops at its end. *)
Lemma strtoull_print_u n r :
  in_u64 n → ends_number r → strtoull (print_u n ++ r) = (n, cstr r).
Proof.
  unfold in_u64. intros Hn Hr. unfold strtoull.
  rw cstr_nonul_app; [|by apply print_u_free; [done|lia]].
  rw scan_int_print_u; [|lia|by apply ends_number_cstr].
  unfold UINT64_MAX. case_match; [lia|reflexivity].
Qed.

Lemma strtoll_print_u n r :
  0 ≤ n < 2 ^ 63 → ends_number r → strtoll (print_u n ++ r) = (n, cstr r).
Proof.
  intros Hn Hr. unfold strtoll.
  rw cstr_nonul_app; [|by apply print_u_free; [done|lia]].
  rw scan_int_print_u; [|lia|by apply ends_number_cstr].
  unfold LLONG_MIN, LLONG_MAX. f_equal. lia.
Qed.

Lemma s32_small n : - 2 ^ 31 ≤ n < 2 ^ 31 → s32 n = n.
Proof. intros Hn. unfold s32. rw Z.mod_small; lia. Qed.

Lemma s64_small n : in_s64 n → s64 n = n.
Proof. unfold in_s64. intros Hn. unfold s64. rw Z.mod_small; lia. Qed.

Lemma u64_small n : in_u64 n → u64 n = n.
Proof. intros Hn. unfold u64. by apply Z.mod_small. Qed.

Lemma u64_range n : in_u64 (u64 n).
Proof. unfold in_u64, u64. apply Z.mod_pos_bound. lia. Qed.

Lemma atoi_print_u n r : 0 ≤ n ≤ INT_MAX → ends_number r → atoi (print_u n ++ r) = n.
Proof.
  unfold INT_MAX. intros Hn Hr. unfold atoi. rw strtoll_print_u //; [|lia].
  simpl. apply s32_small. lia.
Qed.

Lemma scan_int_neg n : 0 ≤ n < 10 ^ 20 → scan_int (DASH :: print_u n) = Some (true, n, []).
Proof.
  intros Hn. destruct (print_u_cons n) as (c & t & E & Hc); [lia|].
  change (scan_int (DASH :: print_u n)) with
    (match print_u n with
     | c :: _ => if is_digit c
                 then let '(v, rest) := scan_digits 0 (print_u n) in Some (true, v, rest)
                 else None
     | [] => None
     end).
  rw {1}E Hc -(app_nil_r (print_u n)) scan_digits_digits //.
Qed.

(** [%lld] then [strtoll], the way INCR stores a counter and reads it back. *)
Lemma strtoll_print_s n : in_s64 n → strtoll (print_s n) = (n, []).
Proof.
  unfold in_s64, print_s. intros Hn. case_match.
  - unfold strtoll.
    assert (NUL ∉ print_u (- n)) by (apply print_u_free; [done|lia]).
    rw (cstr_nonul (DASH :: _)); [|by apply not_elem_of_cons].
    rw scan_int_neg; [|lia]. unfold LLONG_MIN, LLONG_MAX. f_equal. lia.
  - rw -(app_nil_r (print_u n)) strtoll_print_u //. lia.
Qed.

Lemma print_s_free c n : is_digit c = false → c ≠ DASH → c ∉ print_s n.
Proof.
  intros Hc ?. unfold print_s. case_match.
  - apply not_elem_of_cons. split; [done|]. apply print_u_free; [done|lia].
  - apply print_u_free; [done|lia].
Qed.

Lemma strcmp_eq_nonul a b : NUL ∉ a → NUL ∉ b → strcmp_eq a b = bool_decide (a = b).
Proof. intros Ha Hb. unfold strcmp_eq. by rw !cstr_nonul. Qed.

Lemma scan_digits_nonneg v b : 0 ≤ v → 0 ≤ (scan_digits v b).1.
Proof.
  revert v. induction b as [|c b IH]; intros v Hv; simpl; [done|].
  destruct (is_digit c) eqn:Hc; [|done]. apply IH. unfold is_digit in Hc. lia.
Qed.

Lemma scan_int_nonneg b neg v r : scan_int b = Some (neg, v, r) → 0 ≤ v.
Proof.
  unfold scan_int. destruct (scan_sign (skip_space b)) as [? [|c b']]; [done|].
  destruct (is_digit c); [|done].
  pose proof (scan_digits_nonneg 0 (c :: b')) as Hs.
  destruct (scan_digits 0 (c :: b')). intros [= <- <- <-]. by apply Hs.
Qed.

Lemma strtoull_range b : in_u64 (strtoull b).1.
Proof.
  unfold strtoull. destruct (scan_int (cstr b)) as [[[neg v] r]|] eqn:E; simpl.
  - apply scan_int_nonneg in E. case_match; [done|].
    destruct neg; [apply u64_range|]. unfold in_u64, UINT64_MAX in *. lia.
  - done.
Qed.

Lemma strtoll_range b : in_s64 (strtoll b).1.
Proof.
  unfold strtoll, in_s64, LLONG_MIN, LLONG_MAX.
  destruct (scan_int (cstr b)) as [[[neg v] r]|]; simpl; [|lia]. destruct neg; lia.
Qed.

Lemma atoi_range b : - 2 ^ 31 ≤ atoi b < 2 ^ 31.
Proof. unfold atoi, s32. lia. Qed.

Lemma digits_length_fuel f n : (length (digits f n []) ≤ f)%nat.
Proof.
  revert n. induction f as [|f IH]; intros n; simpl; [done|].
  case_match; simpl; [lia|]. rw digits_acc length_app /=. specialize (IH (n / 10)). lia.
Qed.

Lemma print_u_length_max n : (length (print_u n) ≤ 20)%nat.
Proof. apply digits_length_fuel. Qed.

Lemma snprintf_fits size out : (length out < size)%nat → snprintf size out = out.
Proof. intros Hl. unfold snprintf. apply take_ge. lia. Qed.

(** A strict prefix of a line does not hold its line end. *)
Lemma before_crlf_strict_prefix p l :
  LF ∉ l → p `prefix_of` l ++ CRLF → p ≠ l ++ CRLF → before_crlf p = None.
Proof.
  intros Hl Hp Hne. apply before_crlf_none.
  change CRLF with ([CR] ++ [LF]) in *. rw app_assoc in Hp, Hne.
  assert (LF ∉ l ++ [CR]) by (apply not_elem_of_app; split; [done|by_decide]).
  destruct (strict_prefix_app _ _ _ Hp Hne) as [[[k E] _]|(q & -> & Hq & Hqn)].
  - rw E in H. by apply not_elem_of_app in H as [? _].
  - destruct Hq as [k Hk]. destruct q as [|c q]; [by rw app_nil_r|]. simplify_eq/=.
    destruct q; [|done]. by destruct Hqn.
Qed.

#[global] Arguments print_u : simpl never.
#[global] Arguments print_s : simpl never.
#[global] Arguments snprintf : simpl never.
#[global] Arguments strtoull : simpl never.
#[global] Arguments strtoll : simpl never.
#[global] Arguments atoi : simpl never.

Lemma scan_digits_all v b : Forall (λ c, is_digit c = true) b → (scan_digits v b).2 = [].
Proof.
  intros Hb. revert v. induction Hb as [|c b Hc _ IH]; intros v; simpl; [done|]. by rw Hc.
Qed.

(** A non-empty run of digits is consumed whole. *)
Lemma strtoull_digits b :
  b ≠ [] → Forall (λ c, is_digit c = true) b → (strtoull b).2 = [].
Proof.
  intros Hne Hb. unfold strtoull. rw cstr_nonul; [|by apply digits_free].
  destruct b as [|c b]; [done|]. inversion Hb as [|?? Hc Hb']; subst.
  pose proof (scan_digits_all 0 (c :: b) Hb) as E.
  unfold scan_int. cbn [skip_space]. rw is_digit_not_space // scan_sign_digit // Hc.
  destruct (scan_digits 0 (c :: b)) as [v r]. simpl in *. by subst.
Qed.

Lemma cstr_prefix b : ∃ r, b = cstr b ++ r.
Proof.
  induction b as [|c b [r IH]]; simpl; [by exists []|]. case_decide; [by eexists|].
  exists r. simpl. congruence.
Qed.

(** [strcmp] against a literal of the same length compares the bytes. *)
Lemma strcmp_eq_same_length b m :
  length b = length m → NUL ∉ m → strcmp_eq b m = true → b = m.
Proof.
  intros Hl Hm Hs%bool_decide_eq_true. rw (cstr_nonul m) in Hs; [|done].
  destruct (cstr_prefix b) as [r Hr]. rw Hs in Hr. subst b.
  rw length_app in Hl. destruct r; [apply app_nil_r|simpl in Hl; lia].
Qed.
