(* ===== verification/Stream.v ===== *)
(** * Streams (src/app/stream.h, src/app/stream.c)

    Stream identifiers, the append-only list of entries, range and
    after-an-ID reads, and the per-command result records of XREAD. *)

From S2P Require Import Prelude CLib.

(** ** Data *)

Record StreamID := mkStreamID { ms : Z; seq : Z }.

(** [numFields] is the common length of [fields] and [values]; the [next]
    pointers are the list that holds the entries. *)
Record StreamEntry := mkStreamEntry {
  id : bytes;
  fields : list bytes;
  values : list bytes
}.
Definition numFields (e : StreamEntry) : Z := Z.of_nat (length (fields e)).

(** The linked list from [head] to [tail]. *)
Record Stream := mkStream { entries : list StreamEntry }.
Definition tail_of (s : Stream) : option StreamEntry := last (entries s).

(** One stream of an XREAD answer.  [si_count] is indeterminate when
    [streamRead] returned without setting it. *)
Record StreamInfo := mkStreamInfo {
  si_key : bytes;
  si_entries : list StreamEntry;
  si_count : Z
}.

#[export] Instance StreamID_eq_dec : EqDecision StreamID.
Proof. solve_decision. Defined.
#[export] Instance StreamEntry_eq_dec : EqDecision StreamEntry.
Proof. solve_decision. Defined.
#[export] Instance Stream_eq_dec : EqDecision Stream.
Proof. solve_decision. Defined.

(** ** Identifiers *)

Definition isIdInRange (i s e : StreamID) : bool :=
  if (ms i <? ms s) || (ms e <? ms i) then false
  else if (ms i =? ms s) && (seq i <? seq s) then false
  else if (ms i =? ms e) && (seq e <? seq i) then false
  else true.

Definition compareStreamIDs (a b : StreamID) : Z :=
  if negb (ms a =? ms b) then (if ms b <? ms a then 1 else -1)
  else if negb (seq a =? seq b) then (if seq b <? seq a then 1 else -1)
  else 0.

(** [now] is what [getCurrentTimeMs] returns if it is called. *)
Definition parseStreamID (now : Z) (id : bytes) : option StreamID :=
  if strcmp_eq id (bs "*") then Some (mkStreamID now UINT64_MAX)
  else
    match strchr id DASH with
    | None => None
    | Some ([], _) => None
    | Some (_, dash) =>
        if decide (head (drop 1 dash) = Some "*"%char) then
          Some (mkStreamID (strtoull id).1 UINT64_MAX)
        else
          let '(ms, endptr) := strtoull id in
          if negb (bool_decide (endptr = dash)) then None
          else
            let '(seq, endptr) := strtoull (drop 1 dash) in
            if negb (bool_decide (endptr = [])) then None
            else Some (mkStreamID ms seq)
    end.

(** [snprintf(id, 32, "%lu-%lu", ms, seq)]. *)
Definition generateStreamID (ms seq : Z) : bytes :=
  snprintf 32 (print_u ms ++ DASH :: print_u seq).

(** The return value of the inner [parseStreamID] is not checked: on a tail
    whose identifier does not parse, [lastId] is indeterminate. *)
Definition getNextSequence (now : Z) (s : Stream) (ms' : Z) : res Z :=
  match tail_of s with
  | None => Ok (if ms' =? 0 then 1 else 0)
  | Some t =>
      lastId ← deref (parseStreamID now (id t));
      Ok (if ms lastId =? ms' then u64 (seq lastId + 1) else 0)
  end.

Definition isValidNextID (now : Z) (s : Stream) (newId : StreamID) : bool :=
  if (ms newId =? 0) && (seq newId =? 0) then false
  else
    match tail_of s with
    | None => true
    | Some t =>
        match parseStreamID now (id t) with
        | None => false
        | Some lastId =>
            if ms newId <? ms lastId then false
            else if (ms newId =? ms lastId) && (seq newId <=? seq lastId) then false
            else true
        end
    end.

(** ** Operations *)

Definition createStream : Stream := mkStream [].

Definition err_zero_id : bytes := bs "-ERR The ID specified in XADD must be greater than 0-0".
Definition err_small_id : bytes :=
  bs "-ERR The ID specified in XADD is equal or smaller than the target stream top item".

(** What [streamAdd] returns ([None] is [NULL]), the stream afterwards and
    whether it set [has_new_data] and broadcast to the blocked readers. *)
Definition streamAdd (now : Z) (s : Stream) (id : bytes) (fields values : list bytes)
    : res (option bytes * Stream * bool) :=
  match parseStreamID now id with
  | None => Ok (None, s, false)
  | Some parsedId =>
      seq' ← (if seq parsedId =? UINT64_MAX
              then getNextSequence now s (ms parsedId) else Ok (seq parsedId));
      let parsedId := mkStreamID (ms parsedId) seq' in
      if negb (isValidNextID now s parsedId) then
        if (ms parsedId =? 0) && (seq parsedId =? 0) then Ok (Some err_zero_id, s, false)
        else Ok (Some err_small_id, s, false)
      else
        let finalId := generateStreamID (ms parsedId) (seq parsedId) in
        let entry := mkStreamEntry finalId (map cstr fields) (map cstr values) in
        Ok (Some finalId, mkStream (entries s ++ [entry]), true)
  end.

(** The loop both readers share: entries whose identifier parses and
    satisfies the test are copied, in order. *)
Fixpoint select_entries (now : Z) (keep : StreamID → bool) (l : list StreamEntry)
    : list StreamEntry :=
  match l with
  | [] => []
  | e :: l' =>
      match parseStreamID now (id e) with
      | None => select_entries now keep l'
      | Some i => if keep i then e :: select_entries now keep l'
                  else select_entries now keep l'
      end
  end.

Definition MIN_ID : StreamID := mkStreamID 0 0.
Definition MAX_ID : StreamID := mkStreamID UINT64_MAX UINT64_MAX.

(** [None] is a return before [*count] is set. *)
Definition streamRange (now : Z) (s : Stream) (start end_ : bytes)
    : option (list StreamEntry * Z) :=
  startId ← (if strcmp_eq start (bs "-") then Some MIN_ID else parseStreamID now start);
  endId ← (if strcmp_eq end_ (bs "+") then Some MAX_ID else parseStreamID now end_);
  let result := select_entries now (λ i, isIdInRange i startId endId) (entries s) in
  Some (result, Z.of_nat (length result)).

Definition streamRead (now : Z) (s : Stream) (id : bytes)
    : option (list StreamEntry * Z) :=
  startId ← parseStreamID now id;
  let result := select_entries now (λ i, 0 <? compareStreamIDs i startId) (entries s) in
  Some (result, Z.of_nat (length result)).

(** ** XREAD over several streams *)

(** One iteration of the loop of [processStreamReads] and [recheckStreams]:
    [st] is the stream, if there is one; when [streamRead] fails, [count]
    keeps the junk of the fresh record. *)
Definition read_stream (now : Z) (j : junk) (st : option Stream) (key id : bytes) : StreamInfo :=
  match st with
  | Some s =>
      match streamRead now s id with
      | Some (es, count) => mkStreamInfo (cstr key) es count
      | None => mkStreamInfo (cstr key) [] (junk_int j)
      end
  | None => mkStreamInfo (cstr key) [] 0
  end.

Definition recheckStreams (now : Z) (j : junk) (l : list (option Stream * bytes * bytes))
    : list StreamInfo :=
  map (λ '(st, key, id), read_stream now j st key id) l.

(** The answer and [hasData]; for no streams, [NULL] and [hasData] as the
    caller left it. *)
Definition processStreamReads (now : Z) (j : junk) (l : list (option Stream * bytes * bytes))
    : list StreamInfo * bool :=
  let infos := recheckStreams now j l in
  (infos, existsb (λ i, 0 <? si_count i) infos).

(** ** The order of identifiers *)

Definition id_lt (a b : StreamID) : Prop := ms a < ms b ∨ (ms a = ms b ∧ seq a < seq b).
Definition id_le (a b : StreamID) : Prop := id_lt a b ∨ a = b.

#[export] Instance id_lt_dec a b : Decision (id_lt a b).
Proof. unfold id_lt. apply _. Defined.
#[export] Instance id_le_dec a b : Decision (id_le a b).
Proof. unfold id_le. apply _. Defined.

#[export] Instance id_lt_strict : StrictOrder id_lt.
Proof. unfold id_lt. split; [intros ?|intros ???]; unfold complement; lia. Qed.

Lemma id_le_alt a b : id_le a b ↔ ms a < ms b ∨ (ms a = ms b ∧ seq a ≤ seq b).
Proof.
  unfold id_le, id_lt. destruct a as [m q], b as [m' q']; simpl. split.
  - intros [?|[= -> ->]]; lia.
  - intros [?|[-> ?]]; [by left; left|]. destruct (decide (q = q')) as [->|]; [by right|].
    left; right; lia.
Qed.

Lemma id_not_lt a b : ¬ id_lt a b ↔ id_le b a.
Proof. rw id_le_alt. unfold id_lt. lia. Qed.

Lemma id_le_lt_trans a b c : id_le a b → id_lt b c → id_lt a c.
Proof. rw id_le_alt. unfold id_lt. lia. Qed.

Lemma id_lt_le_trans a b c : id_lt a b → id_le b c → id_lt a c.
Proof. rw id_le_alt. unfold id_lt. lia. Qed.

Lemma isIdInRange_true i s e : isIdInRange i s e = true ↔ id_le s i ∧ id_le i e.
Proof. rw !id_le_alt. unfold isIdInRange. repeat case_match; lia. Qed.

Lemma compareStreamIDs_pos a b : 0 < compareStreamIDs a b ↔ id_lt b a.
Proof. unfold compareStreamIDs, id_lt. repeat case_match; lia. Qed.

Lemma compareStreamIDs_zero a b : compareStreamIDs a b = 0 ↔ a = b.
Proof.
  unfold compareStreamIDs. destruct a as [m q], b as [m' q']; simpl.
  split; [|intros [= -> ->]; rw !Z.eqb_refl //].
  repeat case_match; try lia. intros _. f_equal; lia.
Qed.

(** ** Generated identifiers *)

Definition valid_id (i : StreamID) : Prop := in_u64 (ms i) ∧ in_u64 (seq i).

(** The text of the identifier fits the 32-byte buffer of [generateStreamID]. *)
Definition fits (i : StreamID) : Prop :=
  (length (print_u (ms i)) + 1 + length (print_u (seq i)) ≤ 31)%nat.

Lemma generateStreamID_fits i :
  fits i → generateStreamID (ms i) (seq i) = print_u (ms i) ++ DASH :: print_u (seq i).
Proof.
  unfold fits, generateStreamID, snprintf. intros Hf. rw take_ge // length_app length_cons. lia.
Qed.

Lemma fits_of_length i :
  (length (generateStreamID (ms i) (seq i)) < 31)%nat → fits i.
Proof.
  unfold fits, generateStreamID, snprintf. rw length_take length_app length_cons. lia.
Qed.

(** Thirteen digits of milliseconds and seventeen of sequence fit. *)
Lemma fits_of_bound i : 0 ≤ ms i < 10 ^ 13 → 0 ≤ seq i < 10 ^ 17 → fits i.
Proof.
  intros Hm Hs. unfold fits.
  pose proof (print_u_length (ms i) 12 Hm). pose proof (print_u_length (seq i) 16 Hs). lia.
Qed.

Lemma parse_generate now i :
  valid_id i → fits i → parseStreamID now (generateStreamID (ms i) (seq i)) = Some i.
Proof.
  intros [Hm Hs] Hf. rw generateStreamID_fits //.
  unfold in_u64 in Hm, Hs. destruct i as [m q]; simpl in *.
  assert (NUL ∉ print_u m) by (apply print_u_free; [done|lia]).
  assert (NUL ∉ print_u q) by (apply print_u_free; [done|lia]).
  assert (DASH ∉ print_u m) by (apply print_u_free; [done|lia]).
  assert (Hid : cstr (print_u m ++ DASH :: print_u q) = print_u m ++ DASH :: print_u q).
  { apply cstr_nonul, not_elem_of_app. split; [done|]. by apply not_elem_of_cons. }
  destruct (print_u_cons m) as (c & t & Em & Hc); [lia|].
  destruct (print_u_cons q) as (d & u & Eq & Hd); [lia|].
  unfold parseStreamID. assert (strcmp_eq (print_u m ++ DASH :: print_u q) (bs "*") = false) as ->.
  { unfold strcmp_eq. apply bool_decide_eq_false. rw Hid Em /=. intros [= -> _]. done. }
  unfold strchr. rw Hid split_at_app // {1}Em /=.
  rw decide_False; [|rw Eq /=; intros [= ->]; done].
  rw strtoull_print_u //. rw cstr_nonul_app // in Hid.
  apply app_inv_head in Hid. rw Hid bool_decide_eq_true_2 //=.
  rw -{1}(app_nil_r (print_u q)) strtoull_print_u //.
Qed.

(** An identifier is a C string. *)
Lemma generateStreamID_nonul i : valid_id i → NUL ∉ generateStreamID (ms i) (seq i).
Proof.
  intros [Hm Hs]. unfold generateStreamID, snprintf. intros Hk%(subseteq_take _ _). apply elem_of_app in Hk as [Hk|[Hk|Hk]%elem_of_cons]; [|done|].
  - revert Hk. apply print_u_free; [done|apply Hm].
  - revert Hk. apply print_u_free; [done|apply Hs].
Qed.

(** It starts with a digit. *)
Lemma generateStreamID_head i : valid_id i → head (generateStreamID (ms i) (seq i)) ≠ Some DASH.
Proof.
  intros [Hm _]. destruct (print_u_cons (ms i)) as (c & l & E & Hc); [apply Hm|].
  unfold generateStreamID, snprintf. rw E /=. intros [= ->]. done.
Qed.

Lemma parseStreamID_valid now b i :
  in_u64 now → parseStreamID now b = Some i → valid_id i.
Proof.
  assert (Hmax : in_u64 UINT64_MAX) by done.
  unfold parseStreamID, valid_id. intros Hnow.
  case_match; [by intros [= <-]|].
  destruct (strchr b DASH) as [[[|c p] dash]|]; [done| |done].
  case_decide; [intros [= <-]; split; [apply strtoull_range|done]|].
  pose proof (strtoull_range b) as Hb. pose proof (strtoull_range (drop 1 dash)) as Hd.
  destruct (strtoull b) as [m e], (strtoull (drop 1 dash)) as [q e'].
  case_match; [done|]. case_match; [done|]. by intros [= <-].
Qed.

(** ** The stream invariant *)

Definition entry_id (e : StreamEntry) : StreamID := default MIN_ID (parseStreamID 0 (id e)).

(** Every identifier was generated, untruncated, from one above 0-0, and
    identifiers strictly increase along the list. *)
Definition canonical (e : StreamEntry) : Prop :=
  ∃ i, valid_id i ∧ fits i ∧ id_lt MIN_ID i ∧ id e = generateStreamID (ms i) (seq i).

Definition stream_wf (s : Stream) : Prop :=
  Forall canonical (entries s) ∧ StronglySorted id_lt (map entry_id (entries s)).

(** The identifier of the top item; 0-0 when there is none. *)
Definition last_id (s : Stream) : StreamID := default MIN_ID (entry_id <$> tail_of s).

Lemma canonical_entry_id e :
  canonical e → valid_id (entry_id e) ∧ fits (entry_id e) ∧ id_lt MIN_ID (entry_id e)
                ∧ id e = generateStreamID (ms (entry_id e)) (seq (entry_id e)).
Proof.
  intros (i & Hv & Hf & Hp & He). unfold entry_id. rw He parse_generate //=.
Qed.

Lemma canonical_parse now e : canonical e → parseStreamID now (id e) = Some (entry_id e).
Proof. intros (? & ? & ? & He)%canonical_entry_id. rw {1}He parse_generate //. Qed.

Lemma createStream_wf : stream_wf createStream.
Proof. split; constructor. Qed.

Lemma tail_of_elem s t : tail_of s = Some t → t ∈ entries s.
Proof. intros (l & E)%last_Some. rw E. apply elem_of_app. right. by apply list_elem_of_singleton. Qed.

Lemma last_id_valid s : stream_wf s → valid_id (last_id s).
Proof.
  intros [Hc _]. unfold last_id. destruct (tail_of s) as [t|] eqn:E; simpl; [|done].
  apply tail_of_elem in E. rw Forall_forall in Hc. by apply Hc, canonical_entry_id in E as [? _].
Qed.

(** The top item has the greatest identifier. *)
Lemma last_id_max s e : stream_wf s → e ∈ entries s → id_le (entry_id e) (last_id s).
Proof.
  intros [_ Hs] He. unfold last_id, tail_of.
  destruct (last (entries s)) as [t|] eqn:El; simpl.
  - apply last_Some in El as [l El]. rw El in Hs He. rw map_app in Hs.
    apply elem_of_app in He as [He|He%list_elem_of_singleton]; [|by right; subst].
    left. eapply StronglySorted_app_1_elem_of in Hs; [done| |by left].
    apply list_elem_of_fmap. eauto.
  - apply last_None in El. rw El in He. by apply elem_of_nil in He.
Qed.

Lemma isValidNextID_spec now s i :
  stream_wf s → valid_id i → isValidNextID now s i = bool_decide (id_lt (last_id s) i).
Proof.
  intros [Hc _] Hv. unfold isValidNextID, last_id.
  destruct Hv as [Hm Hq]. unfold in_u64 in *.
  destruct (tail_of s) as [t|] eqn:Et; simpl.
  - apply tail_of_elem in Et. rw Forall_forall in Hc. apply Hc in Et.
    rw canonical_parse //. apply canonical_entry_id in Et as ((? & ?) & _ & Hp & _).
    unfold in_u64, id_lt in *. simpl in *. symmetry.
    repeat case_match; simplify_eq;
      first [apply bool_decide_eq_true; lia|apply bool_decide_eq_false; lia].
  - unfold id_lt. simpl. symmetry.
    case_match; first [apply bool_decide_eq_true; lia|apply bool_decide_eq_false; lia].
Qed.

Lemma getNextSequence_spec now s m :
  stream_wf s →
  getNextSequence now s m =
  Ok (if ms (last_id s) =? m then u64 (seq (last_id s) + 1) else 0).
Proof.
  intros [Hc _]. unfold getNextSequence, last_id.
  destruct (tail_of s) as [t|] eqn:Et; simpl.
  - apply tail_of_elem in Et. rw Forall_forall in Hc. rw canonical_parse //. by apply Hc.
  - rw (Z.eqb_sym m 0). by destruct m.
Qed.

(** The identifier XADD asks for: an automatic sequence number is one more
    than the top item's when the milliseconds agree, and 0 otherwise. *)
Definition requested_id (now : Z) (s : Stream) (text : bytes) : option StreamID :=
  i ← parseStreamID now text;
  Some (if seq i =? UINT64_MAX
        then mkStreamID (ms i) (if ms (last_id s) =? ms i then u64 (seq (last_id s) + 1) else 0)
        else i).

Definition new_entry (i : StreamID) (fs vs : list bytes) : StreamEntry :=
  mkStreamEntry (generateStreamID (ms i) (seq i)) (map cstr fs) (map cstr vs).

Definition add_outcome (s : Stream) (i : option StreamID) (fs vs : list bytes)
    : option bytes * Stream * bool :=
  match i with
  | None => (None, s, false)
  | Some i =>
      if decide (id_lt (last_id s) i)
      then (Some (generateStreamID (ms i) (seq i)), mkStream (entries s ++ [new_entry i fs vs]), true)
      else (Some (if decide (i = MIN_ID) then err_zero_id else err_small_id), s, false)
  end.

Lemma requested_valid now s text i :
  stream_wf s → in_u64 now → requested_id now s text = Some i → valid_id i.
Proof.
  intros Hw Hn. unfold requested_id.
  destruct (parseStreamID now text) as [p|] eqn:E; simpl; [|done]. intros [= <-].
  apply parseStreamID_valid in E as [Hm Hq]; [|done].
  case_match; [|done]. split; simpl; [done|]. case_match; [apply u64_range|done].
Qed.

Lemma streamAdd_outcome now s text fs vs :
  stream_wf s → in_u64 now →
  streamAdd now s text fs vs = Ok (add_outcome s (requested_id now s text) fs vs).
Proof.
  intros Hw Hn. pose proof (requested_valid now s text) as Hr.
  unfold streamAdd, requested_id, add_outcome in *.
  destruct (parseStreamID now text) as [[m q]|]; simpl in *; [|done].
  rw getNextSequence_spec //.
  set (i := if q =? UINT64_MAX then _ else _) in *.
  assert (Hi : valid_id i) by by apply Hr.
  replace (if q =? UINT64_MAX then _ else _) with (Ok (seq i)) by (subst i; by case_match).
  assert (Hm : mkStreamID m (seq i) = i) by (subst i; by case_match).
  simpl. rw Hm isValidNextID_spec //. clearbody i. subst m || rw -Hm /=.
  destruct i as [m' q']; simpl in *. simplify_eq.
  case_decide; [rw bool_decide_eq_true_2 //|rw bool_decide_eq_false_2 //=].
  case_match; case_decide as Hz; unfold MIN_ID in *; simplify_eq/=; try done.
  exfalso. apply Hz. f_equal; lia.
Qed.

Lemma last_id_snoc s e : last_id (mkStream (entries s ++ [e])) = entry_id e.
Proof. unfold last_id, tail_of. simpl. by rw last_snoc. Qed.

Lemma new_entry_canonical i fs vs :
  valid_id i → fits i → id_lt MIN_ID i →
  canonical (new_entry i fs vs) ∧ entry_id (new_entry i fs vs) = i.
Proof.
  intros Hv Hf Hp. split; [by exists i|]. unfold entry_id. simpl. by rw parse_generate.
Qed.

Lemma min_id_le i : valid_id i → id_le MIN_ID i.
Proof. intros [Hm Hs]. unfold in_u64 in *. apply id_le_alt. simpl. lia. Qed.

Lemma snoc_wf s i fs vs :
  stream_wf s → valid_id i → fits i → id_lt (last_id s) i →
  stream_wf (mkStream (entries s ++ [new_entry i fs vs])).
Proof.
  intros Hw Hv Hf Hl. pose proof (last_id_valid s Hw) as Hlv.
  assert (Hp : id_lt MIN_ID i) by (eapply id_le_lt_trans; [by apply min_id_le|done]).
  destruct (new_entry_canonical i fs vs) as [Hc He]; [done..|].
  pose proof Hw as [Hws Hss]. split; simpl.
  - apply Forall_app. by split; [|constructor].
  - rw map_app. apply StronglySorted_app_2; [|done|by repeat constructor].
    intros x1 x2 (e & -> & Hin)%list_elem_of_fmap ->%list_elem_of_singleton.
    rw He. eapply id_le_lt_trans; [by apply last_id_max|done].
Qed.

(** ** Reading a well-formed stream *)

Lemma select_entries_filter now keep l :
  Forall canonical l →
  select_entries now keep l = filter (λ e, keep (entry_id e) = true) l.
Proof.
  induction 1 as [|e l Hc _ IH]; simpl; [done|]. rw canonical_parse // IH filter_cons.
  destruct (keep (entry_id e)) eqn:?; case_decide; congruence.
Qed.

(** A test that holds from some identifier on cuts a sorted stream in two. *)
Lemma sorted_cut (P : StreamID → Prop) `{!∀ i, Decision (P i)} l :
  (∀ a b, P a → id_lt a b → P b) →
  StronglySorted id_lt (map entry_id l) →
  ∃ l1 l2, l = l1 ++ l2 ∧ Forall (λ e, ¬ P (entry_id e)) l1 ∧ Forall (λ e, P (entry_id e)) l2.
Proof.
  intros HP. induction l as [|e l IH]; simpl; intros Hs.
  { exists [], []. by repeat constructor. }
  apply StronglySorted_inv in Hs as [Hs He].
  destruct (decide (P (entry_id e))) as [Hpe|Hpe].
  - exists [], (e :: l). split; [done|]. split; [constructor|]. constructor; [done|].
    rw List.Forall_map in He. eapply Forall_impl; [exact He|]. simpl. eauto.
  - destruct (IH Hs) as (l1 & l2 & -> & H1 & H2). exists (e :: l1), l2.
    split; [done|]. split; [by constructor|done].
Qed.

Lemma filter_all {A} (P : A → Prop) `{!∀ x, Decision (P x)} l : Forall P l → filter P l = l.
Proof. induction 1 as [|x l Hx _ IH]; [done|]. rw filter_cons_True // IH //. Qed.

Lemma filter_none {A} (P : A → Prop) `{!∀ x, Decision (P x)} l :
  Forall (λ x, ¬ P x) l → filter P l = [].
Proof. induction 1 as [|x l Hx _ IH]; [done|]. rw filter_cons_False // IH //. Qed.

Lemma streamRead_cut now s text i :
  stream_wf s → parseStreamID now text = Some i →
  ∃ old new, entries s = old ++ new ∧
    Forall (λ e, id_le (entry_id e) i) old ∧ Forall (λ e, id_lt i (entry_id e)) new ∧
    streamRead now s text = Some (new, Z.of_nat (length new)).
Proof.
  intros [Hc Hs] Hp.
  destruct (sorted_cut (id_lt i) (entries s)) as (l1 & l2 & E & H1 & H2); [|done|].
  { intros a b ??. by etrans. }
  exists l1, l2. split; [done|]. split; [|split; [done|]].
  { eapply Forall_impl; [exact H1|]. intros e. simpl. apply id_not_lt. }
  unfold streamRead. rw Hp /= select_entries_filter // E filter_app.
  rw filter_none ?filter_all //.
  - eapply Forall_impl; [exact H2|]. intros e ?. simpl. by apply Z.ltb_lt, compareStreamIDs_pos.
  - eapply Forall_impl; [exact H1|]. intros e He. simpl.
    by intros Ht%Z.ltb_lt%compareStreamIDs_pos.
Qed.

Lemma streamRange_cut now s start end_ lo hi :
  stream_wf s →
  (if strcmp_eq start (bs "-") then Some MIN_ID else parseStreamID now start) = Some lo →
  (if strcmp_eq end_ (bs "+") then Some MAX_ID else parseStreamID now end_) = Some hi →
  ∃ before found after, entries s = before ++ found ++ after ∧
    Forall (λ e, id_lt (entry_id e) lo) before ∧
    Forall (λ e, id_le lo (entry_id e) ∧ id_le (entry_id e) hi) found ∧
    Forall (λ e, id_lt hi (entry_id e)) after ∧
    streamRange now s start end_ = Some (found, Z.of_nat (length found)).
Proof.
  intros [Hc Hs] Hlo Hhi.
  destruct (sorted_cut (id_le lo) (entries s)) as (l1 & m & E & H1 & Hm); [|done|].
  { intros a b ??. left. by eapply id_le_lt_trans. }
  rw E map_app in Hs. pose proof (StronglySorted_app_1_r _ _ _ Hs) as Hsm.
  destruct (sorted_cut (id_lt hi) m) as (m1 & m2 & -> & H2 & H3); [|done|].
  { intros a b ??. by etrans. }
  apply Forall_app in Hm as [Hm1 Hm2]. exists l1, m1, m2. split; [done|].
  assert (HF : Forall (λ e, id_le lo (entry_id e) ∧ id_le (entry_id e) hi) m1).
  { apply Forall_and. split; [done|]. eapply Forall_impl; [exact H2|].
    intros e. simpl. apply id_not_lt. }
  assert (HA : Forall (λ e, id_lt (entry_id e) lo) l1).
  { eapply Forall_impl; [exact H1|]. intros e. simpl. rw -id_not_lt.
    destruct (decide (id_lt (entry_id e) lo)); naive_solver. }
  split; [done|]. split; [done|].
  split; [done|].
  unfold streamRange. rw Hlo Hhi /= select_entries_filter // E !filter_app.
  rw (filter_none _ l1) ?(filter_all _ m1) ?(filter_none _ m2) ?app_nil_r //.
  - eapply Forall_impl; [exact H3|]. intros e He [_ Hh]%isIdInRange_true.
    by apply id_not_lt in Hh.
  - eapply Forall_impl; [exact HF|]. intros e. simpl. apply isIdInRange_true.
  - eapply Forall_impl; [exact HA|]. intros e He [Hl _]%isIdInRange_true.
    by apply id_not_lt in Hl.
Qed.

(** The text "m-*" asks for an automatic sequence number. *)
Lemma parse_auto now m :
  in_u64 m → parseStreamID now (print_u m ++ bs "-*") = Some (mkStreamID m UINT64_MAX).
Proof.
  unfold in_u64. intros Hm.
  assert (NUL ∉ print_u m) by (apply print_u_free; [done|lia]).
  assert (DASH ∉ print_u m) by (apply print_u_free; [done|lia]).
  destruct (print_u_cons m) as (c & t & Em & Hc); [lia|].
  assert (Hid : cstr (print_u m ++ bs "-*") = print_u m ++ bs "-*") by by rw cstr_nonul_app.
  unfold parseStreamID. assert (strcmp_eq (print_u m ++ bs "-*") (bs "*") = false) as ->.
  { unfold strcmp_eq. apply bool_decide_eq_false. rw Hid Em /=. by destruct t. }
  unfold strchr. rw Hid (split_at_app DASH (print_u m) (bs "*")) // {1}Em /=.
  by rw strtoull_print_u.
Qed.

(** ** Streams whose identifiers may have been cut

    Whatever the identifiers given, the stored ones parse, so that no operation
    on a stream is undefined: a cut identifier keeps at least nine digits of
    its sequence number. *)

Definition generated (e : StreamEntry) : Prop :=
  ∃ i, valid_id i ∧ id e = generateStreamID (ms i) (seq i).
Definition stream_ok (s : Stream) : Prop := Forall generated (entries s).

Lemma parse_generated now i :
  valid_id i → is_Some (parseStreamID now (generateStreamID (ms i) (seq i))).
Proof.
  intros [Hm Hq]. unfold in_u64 in *. destruct i as [m q]; simpl in *.
  assert (Hml := print_u_length_max m).
  unfold generateStreamID, snprintf. rw take_app_ge; [|lia].
  destruct (32 - 1 - length (print_u m))%nat as [|k] eqn:Ek; [lia|]. rw firstn_cons.
  set (t := take k (print_u q)).
  assert (Ht : Forall (λ c, is_digit c = true) t) by (apply Forall_take, print_u_digits; lia).
  assert (Hne : t ≠ []).
  { subst t. destruct (print_u_cons q) as (c & u & -> & _); [lia|]. by destruct k; [lia|]. }
  assert (NUL ∉ t) by by apply digits_free.
  assert (NUL ∉ print_u m) by (apply print_u_free; [done|lia]).
  assert (DASH ∉ print_u m) by (apply print_u_free; [done|lia]).
  assert (Hc : cstr (DASH :: t) = DASH :: t) by by apply cstr_nonul, not_elem_of_cons.
  assert (Hid : cstr (print_u m ++ DASH :: t) = print_u m ++ DASH :: t) by by rw cstr_nonul_app // Hc.
  destruct (print_u_cons m) as (c & u & Em & Hd); [lia|].
  unfold parseStreamID. case_match; [by eexists|].
  unfold strchr. rw Hid split_at_app // {1}Em /=. case_decide; [by eexists|].
  rw strtoull_print_u // Hc bool_decide_eq_true_2 //=.
  pose proof (strtoull_digits t Hne Ht) as E. change (drop 0 t) with t.
  destruct (strtoull t) as [v r]. simpl in E. subst r. by eexists.
Qed.

Lemma stream_wf_ok s : stream_wf s → stream_ok s.
Proof. intros [Hc _]. eapply Forall_impl; [exact Hc|]. intros e (i & ? & _ & _ & ?). by exists i. Qed.

Lemma streamAdd_defined now s text fs vs :
  stream_ok s → in_u64 now →
  ∃ r s' w, streamAdd now s text fs vs = Ok (r, s', w) ∧ stream_ok s'.
Proof.
  intros Hs Hn. unfold streamAdd. destruct (parseStreamID now text) as [p|] eqn:Ep; [|by eauto].
  apply parseStreamID_valid in Ep as [Hpm Hpq]; [|done].
  assert (∃ q, (if seq p =? UINT64_MAX then getNextSequence now s (ms p) else Ok (seq p)) = Ok q
               ∧ in_u64 q) as (q & -> & Hq).
  { case_match; [|by eauto]. unfold getNextSequence. destruct (tail_of s) as [t|] eqn:Et.
    - apply tail_of_elem in Et. unfold stream_ok in Hs. rw Forall_forall in Hs.
      destruct (Hs _ Et) as (i & Hi & ->). destruct (parse_generated now i Hi) as [l ->]. simpl.
      eexists. split; [reflexivity|]. case_match; [apply u64_range|done].
    - eexists. split; [reflexivity|]. by case_match. }
  rw bind_ok. repeat case_match; try by eauto 6.
  eexists _, _, _. split; [reflexivity|]. apply Forall_app. split; [done|].
  constructor; [|constructor]. by exists (mkStreamID (ms p) q).
Qed.

(** *** A stream used by the witnesses *)

Definition ex_id (m q : Z) : StreamID := mkStreamID m q.
Definition ex_stream : Stream :=
  mkStream (([] ++ [new_entry (ex_id 5 1) [bs "a"] [bs "1"]])
              ++ [new_entry (ex_id 7 0) [bs "b"] [bs "2"]]).

Lemma ex_stream_wf : stream_wf ex_stream.
Proof.
  apply (snoc_wf (mkStream _)); [apply (snoc_wf createStream)|..];
    try done; try (apply fits_of_bound; vm_compute; split; congruence); try by_decide.
  apply createStream_wf.
Qed.

(** ** Properties *)

(** XADD on a well-formed stream, on every branch: an identifier that does
    not parse returns [NULL] and changes nothing; an identifier at or below
    the top item is refused with the error for 0-0 or for a small identifier
    and changes nothing; otherwise the entry is appended under the generated
    identifier, that identifier is returned and the readers are woken.  The
    execution is always defined. *)
Theorem stream_add_functional now s text fs vs :
  stream_wf s → in_u64 now →
  streamAdd now s text fs vs =
  Ok (match requested_id now s text with
      | None => (None, s, false)
      | Some i =>
          if decide (id_lt (last_id s) i)
          then (Some (generateStreamID (ms i) (seq i)),
                mkStream (entries s ++ [new_entry i fs vs]), true)
          else (Some (if decide (i = MIN_ID) then err_zero_id else err_small_id), s, false)
      end).
Proof. intros. by rw streamAdd_outcome. Qed.

Lemma stream_add_functional_witness :
  streamAdd 9 ex_stream (bs "7-*") [bs "f"] [bs "v"] =
  Ok (Some (bs "7-1"), mkStream (entries ex_stream ++ [new_entry (ex_id 7 1) [bs "f"] [bs "v"]]),
      true).
Proof. rw stream_add_functional; [reflexivity|apply ex_stream_wf|done]. Defined.

(** C17. Streams stay well formed: after an XADD whose answer is shorter than the
    31 characters the identifier buffer holds, every identifier of the
    stream is still canonical, identifiers still strictly increase, and the
    answer is the new top item, above the old one. *)
Theorem stream_add_invariant now s text fs vs r s' :
  stream_wf s → in_u64 now → streamAdd now s text fs vs = Ok (Some r, s', true) →
  (length r < 31)%nat →
  stream_wf s' ∧ id_lt (last_id s) (last_id s') ∧ parseStreamID now r = Some (last_id s').
Proof.
  intros Hw Hn Ha Hr. rw streamAdd_outcome // in Ha.
  destruct (requested_id now s text) as [i|] eqn:Ei; simpl in Ha; [|done].
  case_decide as Hl; [|done]. simplify_eq.
  pose proof (requested_valid _ _ _ _ Hw Hn Ei) as Hv. apply fits_of_length in Hr.
  rw last_id_snoc. assert (Hp : id_lt MIN_ID i).
  { eapply id_le_lt_trans; [by apply min_id_le, last_id_valid|done]. }
  destruct (new_entry_canonical i fs vs) as [_ ->]; [done..|].
  split; [by apply snoc_wf|]. split; [done|]. by apply parse_generate.
Qed.

Lemma stream_add_invariant_witness :
  let s' := mkStream (entries ex_stream ++ [new_entry (ex_id 7 1) [bs "f"] [bs "v"]]) in
  stream_wf s' ∧ id_lt (last_id ex_stream) (last_id s')
  ∧ parseStreamID 9 (bs "7-1") = Some (last_id s').
Proof.
  intros s'. apply (stream_add_invariant 9 ex_stream (bs "7-*") [bs "f"] [bs "v"]).
  - apply ex_stream_wf.
  - done.
  - reflexivity.
  - vm_compute. lia.
Defined.

(** C18. XRANGE answers a contiguous segment: everything before it is below the
    lower bound, everything in it is within both bounds, and everything
    after it is above the upper bound; the count is its length. *)
Theorem stream_range_segment now s start end_ lo hi :
  stream_wf s →
  (if strcmp_eq start (bs "-") then Some MIN_ID else parseStreamID now start) = Some lo →
  (if strcmp_eq end_ (bs "+") then Some MAX_ID else parseStreamID now end_) = Some hi →
  ∃ before found after, entries s = before ++ found ++ after ∧
    Forall (λ e, id_lt (entry_id e) lo) before ∧
    Forall (λ e, id_le lo (entry_id e) ∧ id_le (entry_id e) hi) found ∧
    Forall (λ e, id_lt hi (entry_id e)) after ∧
    streamRange now s start end_ = Some (found, Z.of_nat (length found)).
Proof. apply streamRange_cut. Qed.

Lemma stream_range_segment_witness :
  ∃ before found after, entries ex_stream = before ++ found ++ after ∧
    Forall (λ e, id_lt (entry_id e) (ex_id 6 0)) before ∧
    Forall (λ e, id_le (ex_id 6 0) (entry_id e) ∧ id_le (entry_id e) MAX_ID) found ∧
    Forall (λ e, id_lt MAX_ID (entry_id e)) after ∧
    streamRange 9 ex_stream (bs "6-0") (bs "+") = Some (found, Z.of_nat (length found)).
Proof. apply stream_range_segment; [apply ex_stream_wf|reflexivity|reflexivity]. Defined.

(** C19. A reader that asks for what follows the top item it has seen gets
    exactly the entries appended since, in order: none lost, none twice. *)
Theorem stream_read_follow now s s' new t :
  stream_wf s' → tail_of s = Some t → entries s' = entries s ++ new →
  streamRead now s' (id t) = Some (new, Z.of_nat (length new)).
Proof.
  intros [Hc Hs] Ht E. rw E in Hc Hs. pose proof Hc as [Hcs _]%Forall_app.
  rw map_app in Hs.
  assert (Hws : stream_wf s) by (split; [done|]; by eapply StronglySorted_app_1_l).
  assert (Hlast : last_id s = entry_id t) by by rw /last_id Ht.
  apply tail_of_elem in Ht as Hin. unfold streamRead.
  rw (canonical_parse now t) /=; [|by rw Forall_forall in Hcs; apply Hcs].
  rw E select_entries_filter // filter_app filter_none ?filter_all //.
  - apply Forall_forall. intros e He. apply Z.ltb_lt, compareStreamIDs_pos.
    eapply StronglySorted_app_1_elem_of; [exact Hs|..]; by apply list_elem_of_fmap_2.
  - apply Forall_forall. intros e He Hlt%Z.ltb_lt%compareStreamIDs_pos. revert Hlt.
    apply (proj2 (id_not_lt _ _)). rw -Hlast. by apply last_id_max.
Qed.

Lemma stream_read_follow_witness :
  streamRead 9 (mkStream (entries ex_stream ++ [new_entry (ex_id 8 0) [] []])) (bs "7-0") =
  Some ([new_entry (ex_id 8 0) [] []], Z.of_nat 1).
Proof.
  apply (stream_read_follow 9 ex_stream _ [new_entry (ex_id 8 0) [] []]
           (new_entry (ex_id 7 0) [bs "b"] [bs "2"])); [|reflexivity|reflexivity].
  apply (snoc_wf ex_stream (ex_id 8 0)); [apply ex_stream_wf|done| |by_decide].
  apply fits_of_bound; vm_compute; split; congruence.
Defined.

(** An automatic sequence number is accepted whenever some sequence number
    is left for those milliseconds, and it is the least acceptable one. *)
Theorem stream_auto_sequence_least now s m fs vs :
  stream_wf s → in_u64 now → in_u64 m → id_lt (last_id s) (mkStreamID m UINT64_MAX) →
  ∃ q, id_lt (last_id s) (mkStreamID m q)
    ∧ (∀ q', in_u64 q' → id_lt (last_id s) (mkStreamID m q') → q ≤ q')
    ∧ streamAdd now s (print_u m ++ bs "-*") fs vs =
      Ok (Some (generateStreamID m q),
          mkStream (entries s ++ [new_entry (mkStreamID m q) fs vs]), true).
Proof.
  intros Hw Hn Hm Hl. rw streamAdd_outcome //. unfold requested_id.
  rw parse_auto //=. set (q := if ms (last_id s) =? m then _ else _).
  pose proof (last_id_valid s Hw) as [? Hq]. unfold in_u64 in Hq.
  unfold id_lt in Hl. simpl in Hl. unfold UINT64_MAX in Hl.
  assert (Hqv : (ms (last_id s) = m ∧ q = seq (last_id s) + 1) ∨ (ms (last_id s) < m ∧ q = 0)).
  { subst q. case_match; [|lia]. left. rw u64_small; unfold in_u64; lia. }
  assert (Hlt : id_lt (last_id s) (mkStreamID m q)) by (unfold id_lt; simpl; lia).
  exists q. split; [done|]. split; [|by rw decide_True].
  intros q' Hq'. unfold id_lt, in_u64 in *. simpl. lia.
Qed.

Lemma stream_auto_sequence_least_witness :
  ∃ q, id_lt (last_id ex_stream) (mkStreamID 7 q)
    ∧ (∀ q', in_u64 q' → id_lt (last_id ex_stream) (mkStreamID 7 q') → q ≤ q')
    ∧ streamAdd 9 ex_stream (print_u 7 ++ bs "-*") [] [] =
      Ok (Some (generateStreamID 7 q),
          mkStream (entries ex_stream ++ [new_entry (mkStreamID 7 q) [] []]), true).
Proof. apply stream_auto_sequence_least; [apply ex_stream_wf|done|done|by_decide]. Defined.

(** Identifiers survive printing and parsing, whatever the clock, as long as
    their text fits the 32-byte buffer. *)
Theorem stream_id_roundtrip now i :
  valid_id i → fits i → parseStreamID now (generateStreamID (ms i) (seq i)) = Some i.
Proof. apply parse_generate. Qed.

Lemma stream_id_roundtrip_witness :
  parseStreamID 0 (generateStreamID 1526919030474 55) = Some (mkStreamID 1526919030474 55).
Proof.
  apply (stream_id_roundtrip 0 (mkStreamID 1526919030474 55)); [done|].
  unfold fits. vm_compute. lia.
Defined.

(** Identifiers longer than 31 characters are cut by the 32-byte buffer: the
    stored identifier is not the one given, and adding the same identifier
    twice is accepted both times, which leaves two entries with equal
    identifiers. *)
Theorem stream_long_id_duplicates :
  let text := bs "18446744073709551614-18446744073709551614" in
  let stored := bs "18446744073709551614-1844674407" in
  ∃ s1 s2,
    streamAdd 0 createStream text [] [] = Ok (Some stored, s1, true)
    ∧ streamAdd 0 s1 text [] [] = Ok (Some stored, s2, true)
    ∧ map id (entries s2) = [stored; stored]
    ∧ streamRange 0 s2 text text = Some ([], 0).
Proof. eexists _, _. repeat split; vm_compute; reflexivity. Qed.
