(* ===== verification/Resp.v ===== *)
(** * The RESP protocol (src/app/resp.h, src/app/resp.c)

    The receive buffer, the serialiser and the deserialiser. *)

From S2P Require Import Prelude CLib Stream.

Definition RESP_OK : Z := 0.
Definition RESP_ERR : Z := -1.
Definition RESP_INCOMPLETE : Z := 1.
Definition RESP_BUFFER_SIZE : Z := 4096.

(** ** Values *)

(** [type] and the member of the union it selects; the [len] of a string is
    the length of its bytes. *)
Inductive RespValue :=
| RespString (str : bytes)
| RespError (str : bytes)
| RespInteger (integer : Z)
| RespBulk (str : bytes)
| RespArray (elements : list RespValue).

(** [v->data.string.str] and [v->data.string.len]: reading the string member
    of an integer or an array is undefined. *)
Definition data_string (v : RespValue) : res bytes :=
  match v with
  | RespString s | RespError s | RespBulk s => Ok s
  | RespInteger _ | RespArray _ => UB
  end.

Fixpoint list_data_string (l : list RespValue) : res (list bytes) :=
  match l with
  | [] => Ok []
  | v :: l' => s ← data_string v; ss ← list_data_string l'; Ok (s :: ss)
  end.

(** ** The receive buffer *)

(** [rb_buffer] is the used part of the allocation of [rb_size] bytes. *)
Record RespBuffer := mkRespBuffer { rb_buffer : bytes; rb_size : Z }.
Definition rb_used (b : RespBuffer) : Z := Z.of_nat (length (rb_buffer b)).

Definition createRespBuffer : RespBuffer := mkRespBuffer [] RESP_BUFFER_SIZE.

(** [while (newSize < need) newSize *= 2]. *)
Fixpoint grow (fuel : nat) (newSize need : Z) : Z :=
  match fuel with
  | O => newSize
  | S fuel' => if newSize <? need then grow fuel' (newSize * 2) need else newSize
  end.

Definition grow_fuel (need : Z) : nat := S (Z.to_nat (Z.log2_up need)).

(** [realloc_ok] says whether [realloc] returns memory if it is called. *)
Definition appendRespBuffer (realloc_ok : bool) (b : RespBuffer) (data : bytes) : Z * RespBuffer :=
  let len := Z.of_nat (length data) in
  if rb_size b <? rb_used b + len then
    let need := rb_used b + len in
    let newSize := grow (grow_fuel need) (rb_size b * 2) need in
    if realloc_ok then (RESP_OK, mkRespBuffer (rb_buffer b ++ data) newSize)
    else (RESP_ERR, b)
  else (RESP_OK, mkRespBuffer (rb_buffer b ++ data) (rb_size b)).

(** Appending a C string to a buffer under construction. *)
Definition append_str (b : RespBuffer) (s : bytes) : RespBuffer :=
  (appendRespBuffer true b (cstr s)).2.

(** ** Serialiser *)

Definition createSimpleString (str : bytes) : bytes := "+"%char :: cstr str ++ CRLF.
Definition createError (message : bytes) : bytes := DASH :: cstr message ++ CRLF.
Definition createInteger (num : Z) : bytes := snprintf 32 (":"%char :: print_s num ++ CRLF).

(** The output and [*outputLen]; [str] is the first [len] bytes at the pointer. *)
Definition encodeBulkString (str : bytes) : bytes * Z :=
  let header := snprintf 32 ("$"%char :: print_u (Z.of_nat (length str)) ++ CRLF) in
  let output := header ++ str ++ CRLF in
  (output, Z.of_nat (length header) + Z.of_nat (length str) + 2).

Definition createBulkString (str : bytes) : bytes := (encodeBulkString str).1.
Definition createNullBulkString : bytes := bs "$-1" ++ CRLF.

Definition array_header (count : Z) : bytes := snprintf 32 ("*"%char :: print_u count ++ CRLF).

(** Append the elements one after the other and duplicate the result. *)
Definition append_all (b : RespBuffer) (l : list bytes) : RespBuffer := fold_left append_str l b.
Definition strndup (b : RespBuffer) : bytes := cstr (rb_buffer b).

Definition createRespArray (elements : list bytes) : bytes :=
  let buffer := append_str createRespBuffer (array_header (Z.of_nat (length elements))) in
  strndup (append_all buffer (map (λ e, createBulkString (cstr e)) elements)).

(** The body of [createRespArrayFromElements], given the serialised elements. *)
Definition respArrayOf (elementStrs : list bytes) : bytes :=
  let buffer := append_str createRespBuffer (array_header (Z.of_nat (length elementStrs))) in
  strndup (append_all buffer elementStrs).

Fixpoint elementStr (v : RespValue) : bytes :=
  match v with
  | RespString s => createSimpleString s
  | RespInteger n => createInteger n
  | RespArray es => respArrayOf (map elementStr es)
  | RespBulk s => createBulkString s
  | RespError s => createError s
  end.

Definition createRespArrayFromElements (elements : list RespValue) : bytes :=
  respArrayOf (map elementStr elements).

(** The pieces one stream entry appends after "*2". *)
Definition entry_pieces (e : StreamEntry) : list bytes :=
  createBulkString (cstr (id e))
    :: array_header (numFields e * 2)
    :: concat (zip_with (λ f v, [createBulkString (cstr f); createBulkString (cstr v)])
                 (fields e) (values e)).

Definition STAR0 : bytes := bs "*0" ++ CRLF.
Definition STAR1 : bytes := bs "*1" ++ CRLF.
Definition STAR2 : bytes := bs "*2" ++ CRLF.

Definition createXrangeResponse (entries : list StreamEntry) (count : Z) : bytes :=
  match entries with
  | [] => createRespArray []
  | _ =>
      if count =? 0 then createRespArray []
      else
        let buffer := append_str createRespBuffer (array_header count) in
        strndup (append_all buffer (concat (map (λ e, STAR2 :: entry_pieces e) entries)))
  end.

Definition xread_pieces (i : StreamInfo) : list bytes :=
  STAR2 :: createBulkString (cstr (si_key i)) ::
  match si_entries i with
  | [] => [STAR0]
  | e :: _ => if si_count i =? 0 then [STAR0] else STAR1 :: STAR2 :: entry_pieces e
  end.

Definition createXreadResponse (streams : list StreamInfo) : bytes :=
  let buffer := append_str createRespBuffer (array_header (Z.of_nat (length streams))) in
  strndup (append_all buffer (concat (map xread_pieces streams))).

(** [out] is the formatted text; the buffer holds its first 4095 characters
    and a NUL, and [len] is the length of the whole text. *)
Definition createFormattedBulkString (out : bytes) : res bytes :=
  if decide (length out ≤ 4095)%nat then Ok (createBulkString out)
  else if decide (length out = 4096)%nat then Ok (createBulkString (take 4095 out ++ [NUL]))
  else UB.
Definition createFormattedSimpleString (out : bytes) : bytes :=
  createSimpleString (snprintf 4096 out).

(** ** Deserialiser *)

(** The outcome of a parsing function: a value and the bytes it took, or one
    of the two failure codes. *)
Inductive presult (A : Type) := POk (a : A) (consumed : nat) | PErr | PIncomplete.
Arguments POk {A} a consumed.
Arguments PErr {A}.
Arguments PIncomplete {A}.

(** [None] is [RESP_INCOMPLETE]. *)
Definition parseLine (data : bytes) : option bytes := before_crlf data.

(** [atoi(line + 1)]: past the end of the allocation if the line is empty. *)
Definition line_number (line : bytes) : res Z :=
  match line with [] => UB | _ :: rest => Ok (atoi rest) end.

Definition createRespString (str : bytes) : RespValue := RespBulk str.

Definition parseBulkString (data : bytes) : res (presult RespValue) :=
  match parseLine data with
  | None => Ok PIncomplete
  | Some line =>
      strLen ← line_number line;
      let consumed := (length line + 2)%nat in
      if strLen <? 0 then Ok PErr
      else if Z.of_nat (length data) <? Z.of_nat consumed + strLen + 2 then Ok PIncomplete
      else
        let len := Z.to_nat strLen in
        Ok (POk (createRespString (take len (drop consumed data))) (consumed + len + 2))
  end.

(** The loop of [parseArray] over the elements still to be read. *)
Fixpoint parseElements (n : nat) (data : bytes) : res (presult (list RespValue)) :=
  match n with
  | O => Ok (POk [] 0)
  | S n' =>
      r ← parseBulkString data;
      match r with
      | PErr => Ok PErr
      | PIncomplete => Ok PIncomplete
      | POk v c =>
          rs ← parseElements n' (drop c data);
          Ok (match rs with
              | POk vs cs => POk (v :: vs) (c + cs)
              | PErr => PErr
              | PIncomplete => PIncomplete
              end)
      end
  end.

(** On failure the half-filled array is released by [freeRespValue], which
    reads the element pointers that were never written. *)
Definition parseArray (j : junk) (data : bytes) : res (presult RespValue) :=
  match parseLine data with
  | None => Ok PIncomplete
  | Some line =>
      arrayLen ← line_number line;
      let consumed := (length line + 2)%nat in
      if arrayLen <? 0 then Ok PErr
      else
        rs ← parseElements (Z.to_nat arrayLen) (drop consumed data);
        match rs with
        | POk vs cs => Ok (POk (RespArray vs) (consumed + cs))
        | PErr => if junk_is_null j then Ok PErr else UB
        | PIncomplete => if junk_is_null j then Ok PIncomplete else UB
        end
  end.

(** On success the consumed bytes are moved out of the buffer. *)
Definition finish_parse (b : RespBuffer) (r : presult RespValue)
    : Z * option RespValue * RespBuffer :=
  match r with
  | POk v consumed =>
      (RESP_OK, Some v, mkRespBuffer (drop consumed (rb_buffer b)) (rb_size b))
  | PErr => (RESP_ERR, None, b)
  | PIncomplete => (RESP_INCOMPLETE, None, b)
  end.

(** The status, [*value] when it was set, and the buffer afterwards. *)
Definition parseResp (j : junk) (b : RespBuffer) : res (Z * option RespValue * RespBuffer) :=
  if rb_used b <? 3 then Ok (RESP_INCOMPLETE, None, b)
  else
    c ← deref (head (rb_buffer b));
    if decide (c = "*"%char) then finish_parse b <$> parseArray j (rb_buffer b)
    else if decide (c = "$"%char) then finish_parse b <$> parseBulkString (rb_buffer b)
    else Ok (RESP_ERR, None, b).

(** [None] is a [RespValue] that was allocated and never written: reading
    its type is undefined.  [response] is a C string. *)
Definition parseResponseToRespValue (j : junk) (response : bytes) : res (option RespValue) :=
  let response := cstr response in
  match response with
  | [] => Ok None
  | c :: _ =>
      if decide (c = "+"%char ∨ c = DASH) then
        line ← deref (parseLine response);
        let str := drop 1 line in
        Ok (Some (if decide (c = "+"%char) then RespString str else RespError str))
      else if decide (c = ":"%char) then
        line ← deref (parseLine response);
        Ok (Some (RespInteger (atoll (drop 1 line))))
      else if decide (c = "$"%char) then
        r ← parseBulkString response;
        Ok (match r with POk v _ => Some v | _ => None end)
      else if decide (c = "*"%char) then
        r ← parseArray j response;
        Ok (match r with POk v _ => Some v | _ => None end)
      else Ok None
  end.

(** ** Value management *)

(** A deep copy: every string and every element is duplicated. *)
Fixpoint cloneRespValue (original : RespValue) : RespValue :=
  match original with
  | RespString s => RespString s
  | RespBulk s => RespBulk s
  | RespError s => RespError s
  | RespArray es => RespArray (map cloneRespValue es)
  | RespInteger n => RespInteger n
  end.

(** Elements that are not strings have an indeterminate [data.string.len]. *)
Definition calculateCommandSize (command : RespValue) : res Z :=
  match command with
  | RespArray es =>
      strs ← list_data_string es;
      let element (s : bytes) :=
        let len := Z.of_nat (length s) in
        Z.of_nat (length ("$"%char :: print_u len ++ CRLF)) + len + 2 in
      Ok (Z.of_nat (length ("*"%char :: print_u (Z.of_nat (length es)) ++ CRLF))
          + foldr (λ s n, element s + n) 0 strs)
  | _ => UB
  end.

(** ** What the serialiser produces *)

(** The wire format: a bulk string, an array of already serialised items, a
    command. *)
Definition line (c : ascii) (n : Z) : bytes := c :: print_u n.
Definition bulk (s : bytes) : bytes :=
  (line "$" (Z.of_nat (length s)) ++ CRLF) ++ s ++ CRLF.
Definition array_of (items : list bytes) : bytes :=
  (line "*" (Z.of_nat (length items)) ++ CRLF) ++ concat items.
Definition resp_command (args : list bytes) : bytes := array_of (map bulk args).

(** A value on the wire. *)
Fixpoint encode (v : RespValue) : bytes :=
  match v with
  | RespString s => "+"%char :: s ++ CRLF
  | RespError s => DASH :: s ++ CRLF
  | RespInteger n => ":"%char :: print_s n ++ CRLF
  | RespBulk s => bulk s
  | RespArray es => array_of (map encode es)
  end.

(** Values whose strings hold no NUL and no line break (bulk strings may hold
    line breaks), and whose integers fit [long long]. *)
Fixpoint clean (v : RespValue) : Prop :=
  match v with
  | RespString s | RespError s => NUL ∉ s ∧ CR ∉ s
  | RespInteger n => in_s64 n
  | RespBulk s => NUL ∉ s
  | RespArray es => foldr (λ e P, clean e ∧ P) True es
  end.

(** Induction on values with the elements of arrays. *)
Section RespValueInd.
Context (P : RespValue → Prop).
Hypothesis HS : ∀ s, P (RespString s).
Hypothesis HE : ∀ s, P (RespError s).
Hypothesis HI : ∀ n, P (RespInteger n).
Hypothesis HB : ∀ s, P (RespBulk s).
Hypothesis HA : ∀ es, Forall P es → P (RespArray es).

Fixpoint RespValue_nested_ind (v : RespValue) : P v :=
  match v with
  | RespString s => HS s
  | RespError s => HE s
  | RespInteger n => HI n
  | RespBulk s => HB s
  | RespArray es =>
      HA es ((fix go l : Forall P l :=
                match l with
                | [] => List.Forall_nil _
                | e :: l' => @List.Forall_cons _ P e l' (RespValue_nested_ind e) (go l')
                end) es)
  end.
End RespValueInd.

Lemma clean_array es : clean (RespArray es) ↔ Forall clean es.
Proof.
  simpl. induction es as [|e es IH]; simpl; [by split|]. rw IH Forall_cons. done.
Qed.

Lemma cloneRespValue_id v : cloneRespValue v = v.
Proof.
  induction v as [| | | |es IH] using RespValue_nested_ind; simpl; try done.
  f_equal. induction IH as [|e es He _ IH]; simpl; [done|]. by rw He IH.
Qed.

(** *** The buffer accumulates what is appended *)

Lemma append_data b d : rb_buffer (appendRespBuffer true b d).2 = rb_buffer b ++ d.
Proof. unfold appendRespBuffer. by case_match. Qed.

Lemma append_str_data b s : rb_buffer (append_str b s) = rb_buffer b ++ cstr s.
Proof. apply append_data. Qed.

Lemma append_all_data b l : rb_buffer (append_all b l) = rb_buffer b ++ concat (map cstr l).
Proof.
  revert b. induction l as [|s l IH]; intros b; simpl; [by rw app_nil_r|].
  rw IH append_str_data -app_assoc //.
Qed.

Lemma concat_cstr_nonul l : NUL ∉ concat (map cstr l).
Proof.
  intros (s & Hs & Hin)%list_elem_of_In%in_concat.
  apply in_map_iff in Hs as (t & <- & _). apply list_elem_of_In in Hin.
  by apply cstr_is_nonul in Hin.
Qed.

(** *** Headers and bulk strings *)

Lemma header_fits c n : snprintf 32 (c :: print_u n ++ CRLF) = line c n ++ CRLF.
Proof.
  apply snprintf_fits. pose proof (print_u_length_max n).
  rw /= length_app /=. lia.
Qed.

Lemma line_free d c n : is_digit d = false → d ≠ c → 0 ≤ n → d ∉ line c n.
Proof. intros ???. apply not_elem_of_cons. split; [done|by apply print_u_free]. Qed.

Lemma createBulkString_bulk s : createBulkString s = bulk s.
Proof. unfold createBulkString, encodeBulkString. by rw header_fits. Qed.

Lemma array_header_line n : array_header n = line "*" n ++ CRLF.
Proof. apply header_fits. Qed.

Lemma bulk_nonul s : NUL ∉ s → NUL ∉ bulk s.
Proof.
  intros Hs. unfold bulk. rw !not_elem_of_app.
  split; split; [|by_decide|done|by_decide]. apply line_free; [done|done|lia].
Qed.

Lemma respArrayOf_spec l : respArrayOf l = array_of (map cstr l).
Proof.
  unfold respArrayOf, strndup, array_of. rw append_all_data append_str_data array_header_line.
  assert (NUL ∉ line "*" (Z.of_nat (length l)) ++ CRLF).
  { apply not_elem_of_app. split; [apply line_free; [done|done|lia]|by_decide]. }
  change (rb_buffer createRespBuffer) with (@nil ascii).
  rw app_nil_l (cstr_nonul (line _ _ ++ _)) // length_map cstr_nonul //.
  apply not_elem_of_app. split; [done|]. apply concat_cstr_nonul.
Qed.

Lemma createRespArray_spec es : createRespArray es = resp_command (map cstr es).
Proof.
  transitivity (respArrayOf (map (λ e, createBulkString (cstr e)) es)).
  { unfold createRespArray, respArrayOf. by rw length_map. }
  rw respArrayOf_spec. unfold resp_command. f_equal. rw !map_map. apply map_ext. intros e.
  rw createBulkString_bulk cstr_nonul //. apply bulk_nonul, cstr_is_nonul.
Qed.

Lemma print_s_length n : in_s64 n → (length (print_s n) ≤ 21)%nat.
Proof.
  intros _. unfold print_s. pose proof (print_u_length_max n).
  pose proof (print_u_length_max (- n)). case_match; simpl; lia.
Qed.

Lemma createInteger_spec n : in_s64 n → createInteger n = encode (RespInteger n).
Proof.
  intros Hn. apply snprintf_fits. pose proof (print_s_length n Hn). rw /= length_app /=. lia.
Qed.

Lemma encode_nonul v : clean v → NUL ∉ encode v.
Proof.
  induction v as [s|s|n|s|es IH] using RespValue_nested_ind; intros Hc.
  1-2: simpl; destruct Hc; rw not_elem_of_cons not_elem_of_app; split; [done|split; [done|by_decide]].
  - simpl. rw not_elem_of_cons not_elem_of_app. split; [done|]. split; [|by_decide].
    by apply print_s_free.
  - by apply bulk_nonul.
  - apply clean_array in Hc. cbn [encode]. unfold array_of. rw !not_elem_of_app.
    split; [split; [apply line_free; [done|done|lia]|by_decide]|].
    intros (s & Hs & Hin)%list_elem_of_In%in_concat. apply list_elem_of_In in Hin.
    apply in_map_iff in Hs as (e & <- & He%list_elem_of_In).
    rw Forall_forall in IH. rw Forall_forall in Hc. by eapply IH; [|apply Hc|].
Qed.

(** Serialising a clean value gives its wire format. *)
Lemma elementStr_encode v : clean v → elementStr v = encode v.
Proof.
  induction v as [s|s|n|s|es IH] using RespValue_nested_ind; intros Hc.
  - destruct Hc. unfold elementStr, createSimpleString. by rw cstr_nonul.
  - destruct Hc. unfold elementStr, createError. by rw cstr_nonul.
  - by apply createInteger_spec.
  - apply createBulkString_bulk.
  - apply clean_array in Hc. cbn [elementStr encode]. rw respArrayOf_spec map_map. f_equal.
    apply map_ext_in. intros e He%list_elem_of_In. rw Forall_forall in IH. rw Forall_forall in Hc.
    rw IH; [|done|by apply Hc]. by apply cstr_nonul, encode_nonul, Hc.
Qed.

(** ** Parsing what was serialised *)

(** Lengths [atoi] can represent. *)
Definition int_sized {A} (l : list A) : Prop := Z.of_nat (length l) ≤ INT_MAX.

Lemma parseLine_header c n r :
  0 ≤ n → CR ≠ c → parseLine ((line c n ++ CRLF) ++ r) = Some (line c n).
Proof. intros ??. rw /parseLine -app_assoc. apply before_crlf_app, line_free; done. Qed.

Lemma line_number_line c n : 0 ≤ n ≤ INT_MAX → line_number (line c n) = Ok n.
Proof. intros Hn. unfold line_number, line. by rw -(app_nil_r (print_u n)) atoi_print_u. Qed.

Lemma drop_header c n r : drop (length (line c n) + 2) ((line c n ++ CRLF) ++ r) = r.
Proof. by rw drop_app_length' // length_app. Qed.

Lemma length_bulk s : length (bulk s) = (length (line "$" (Z.of_nat (length s))) + length s + 4)%nat.
Proof. unfold bulk. lens. Qed.

Lemma parseBulkString_bulk s r :
  int_sized s → parseBulkString (bulk s ++ r) = Ok (POk (RespBulk s) (length (bulk s))).
Proof.
  unfold int_sized. intros Hs. unfold parseBulkString, bulk. rw -app_assoc parseLine_header; [|lia|done].
  rw line_number_line; [|lia]. rw bind_ok drop_header.
  case_match eqn:E; [lia|clear E]. case_match eqn:E; [lens|clear E].
  rw Nat2Z.id -app_assoc take_app_length /createRespString.
  f_equal. f_equal. lens.
Qed.

Lemma parseElements_bulks args r :
  Forall int_sized args →
  parseElements (length args) (concat (map bulk args) ++ r) =
  Ok (POk (map RespBulk args) (length (concat (map bulk args)))).
Proof.
  induction 1 as [|s args Hs _ IH]; [done|]. cbn [length parseElements map concat].
  rw -app_assoc parseBulkString_bulk // bind_ok drop_app_length IH bind_ok length_app //.
Qed.

Lemma parseArray_command j args r :
  int_sized args → Forall int_sized args →
  parseArray j (resp_command args ++ r) =
  Ok (POk (RespArray (map RespBulk args)) (length (resp_command args))).
Proof.
  unfold int_sized at 1. intros Hn Ha. unfold resp_command, array_of, parseArray.
  rw -app_assoc parseLine_header; [|lia|done]. rw length_map line_number_line; [|lia].
  rw bind_ok drop_header Nat2Z.id parseElements_bulks // bind_ok.
  case_match eqn:E; [lia|clear E]. do 2 f_equal. lens.
Qed.

Lemma resp_command_head args : ∃ t, resp_command args = "*"%char :: t ∧ (2 ≤ length t)%nat.
Proof. eexists. split; [reflexivity|]. lens. Qed.

Lemma resp_command_nonempty args : resp_command args ≠ [].
Proof. destruct (resp_command_head args) as (t & -> & _). done. Qed.

Lemma parseResp_star j t n :
  (2 ≤ length t)%nat →
  let b := mkRespBuffer ("*"%char :: t) n in
  parseResp j b = finish_parse b <$> parseArray j ("*"%char :: t).
Proof. intros Ht. unfold parseResp, rb_used. simpl. case_match; [lia|done]. Qed.

Lemma parseResp_command j args r n :
  int_sized args → Forall int_sized args →
  parseResp j (mkRespBuffer (resp_command args ++ r) n) =
  Ok (RESP_OK, Some (RespArray (map RespBulk args)), mkRespBuffer r n).
Proof.
  intros Hn Ha. destruct (resp_command_head args) as (t & E & Ht).
  rw {1}E -app_comm_cons parseResp_star; [|lens].
  rw app_comm_cons -E parseArray_command //. simpl. by rw drop_app_length.
Qed.

(** *** Incomplete input *)

Lemma parseBulkString_prefix p s :
  int_sized s → p `prefix_of` bulk s → p ≠ bulk s → parseBulkString p = Ok PIncomplete.
Proof.
  unfold int_sized. intros Hs Hp Hne. unfold parseBulkString.
  assert (Hl : LF ∉ line "$" (Z.of_nat (length s))) by (apply line_free; [done|done|lia]).
  destruct (strict_prefix_app _ _ _ Hp Hne) as [[Hp' Hn']|(q & -> & [k Hk] & Hqn)].
  { unfold parseLine. by rw (before_crlf_strict_prefix _ _ Hl Hp' Hn'). }
  rw parseLine_header; [|lia|done]. rw line_number_line; [|lia]. rw bind_ok.
  case_match eqn:E; [lia|clear E]. case_match eqn:E; [done|exfalso].
  destruct k as [|c k]; [by rw app_nil_r in Hk|].
  apply (f_equal length) in Hk. lens.
Qed.

Lemma parseElements_prefix p args :
  Forall int_sized args → p `prefix_of` concat (map bulk args) → p ≠ concat (map bulk args) →
  parseElements (length args) p = Ok PIncomplete.
Proof.
  intros Ha. revert p. induction Ha as [|s args Hs _ IH]; intros p Hp Hne.
  { by apply prefix_nil_inv in Hp. }
  cbn [length map concat parseElements] in *.
  destruct (strict_prefix_app _ _ _ Hp Hne) as [[Hp' Hn']|(q & -> & Hq & Hqn)].
  - by rw (parseBulkString_prefix p s).
  - rw parseBulkString_bulk // bind_ok drop_app_length IH //.
Qed.

(** Does a partial command hold its whole first line? *)
Definition past_header (p : bytes) : bool := bool_decide (is_Some (parseLine p)).

Lemma parseArray_prefix j p args :
  int_sized args → Forall int_sized args →
  p `prefix_of` resp_command args → p ≠ resp_command args →
  parseArray j p =
  if past_header p && negb (junk_is_null j) then UB else Ok PIncomplete.
Proof.
  unfold int_sized at 1. intros Hn Ha Hp Hne. unfold parseArray, past_header.
  assert (Hl : LF ∉ line "*" (Z.of_nat (length args))) by (apply line_free; [done|done|lia]).
  unfold resp_command, array_of in *. rw length_map in Hp, Hne.
  destruct (strict_prefix_app _ _ _ Hp Hne) as [[Hp' Hn']|(q & -> & Hq & Hqn)].
  { unfold parseLine. by rw (before_crlf_strict_prefix _ _ Hl Hp' Hn'). }
  rw parseLine_header; [|lia|done]. rw line_number_line; [|lia].
  rw bind_ok drop_header Nat2Z.id parseElements_prefix // bind_ok.
  case_match eqn:E; [lia|clear E]. rw bool_decide_eq_true_2 //. by destruct j.
Qed.

Lemma parseResp_prefix j p args n :
  int_sized args → Forall int_sized args →
  p `prefix_of` resp_command args → p ≠ resp_command args →
  parseResp j (mkRespBuffer p n) =
  if past_header p && negb (junk_is_null j) then UB
  else Ok (RESP_INCOMPLETE, None, mkRespBuffer p n).
Proof.
  intros Hn Ha Hp Hne. destruct (decide (length p < 3)%nat) as [Hlen|Hlen].
  - unfold parseResp, rb_used. simpl. case_match; [|lia].
    pose proof (parseArray_prefix j p args Hn Ha Hp Hne) as E.
    destruct (past_header p) eqn:Eh; [|done]. exfalso.
    unfold past_header in Eh. apply bool_decide_eq_true in Eh as [l El].
    apply before_crlf_some in El as [r ->]. autorewrite with lens in Hlen.
    destruct l; simpl in Hlen; [|lia]. destruct Hp as [k Hk].
    by destruct (resp_command_head args) as (t & Et & _); rw Et in Hk.
  - destruct (resp_command_head args) as (t & Et & _).
    destruct p as [|c t']; [simpl in Hlen; lia|].
    assert (c = "*"%char) as ->.
    { destruct Hp as [k Hk]. rw Et in Hk. by simplify_eq/=. }
    rw parseResp_star; [|simpl in Hlen; lia]. rw (parseArray_prefix j _ args) //.
    by case_match.
Qed.

(** *** Shape and extent of what is parsed *)

Lemma parseLine_length d l : parseLine d = Some l → (length l + 2 ≤ length d)%nat.
Proof. intros (r & ->)%before_crlf_some. lens. Qed.

Lemma parseBulkString_ok d v c :
  parseBulkString d = Ok (POk v c) → (∃ s, v = RespBulk s) ∧ (0 < c ≤ length d)%nat.
Proof.
  unfold parseBulkString. destruct (parseLine d) as [l|] eqn:El; [|done].
  intros (n & _ & H)%bind_ok_inv. case_match; [done|]. case_match; [done|]. simplify_eq.
  split; [by eexists|]. apply parseLine_length in El. lia.
Qed.

Lemma parseElements_ok n d vs c :
  parseElements n d = Ok (POk vs c) → (∃ ss, vs = map RespBulk ss) ∧ (c ≤ length d)%nat.
Proof.
  revert d vs c. induction n as [|n IH]; simpl; intros d vs c.
  { intros [= <- <-]. split; [by exists []|lia]. }
  intros ([v k| |] & Hv & H)%bind_ok_inv; [|done|done].
  apply bind_ok_inv in H as (rs & Hrs & H). destruct rs as [ws k'| |]; simplify_eq.
  apply parseBulkString_ok in Hv as [[s ->] ?]. apply IH in Hrs as [[ss ->] ?].
  split; [by exists (s :: ss)|]. lens.
Qed.

(** The two shapes of a parsed command. *)
Definition parsed_shape (v : RespValue) : Prop :=
  (∃ s, v = RespBulk s) ∨ (∃ ss, v = RespArray (map RespBulk ss)).

Lemma parseArray_ok j d v c :
  parseArray j d = Ok (POk v c) → parsed_shape v ∧ (0 < c ≤ length d)%nat.
Proof.
  unfold parseArray. destruct (parseLine d) as [l|] eqn:El; [|done].
  intros (n & _ & H)%bind_ok_inv. case_match; [done|].
  apply bind_ok_inv in H as ([vs k| |] & Hrs & H); [|by case_match..]. simplify_eq.
  apply parseElements_ok in Hrs as [Hs Hk]. apply parseLine_length in El.
  split; [right; by destruct Hs as [ss ->]; exists ss|]. lens.
Qed.

Lemma finish_parse_ok b r v b' :
  finish_parse b r = (RESP_OK, v, b') →
  ∃ v0 c, r = POk v0 c ∧ v = Some v0
          ∧ b' = mkRespBuffer (drop c (rb_buffer b)) (rb_size b).
Proof. destruct r; intros; simplify_eq/=; eauto. Qed.

Lemma parseResp_ok j b v b' :
  parseResp j b = Ok (RESP_OK, v, b') →
  ∃ v0 taken, v = Some v0 ∧ parsed_shape v0 ∧ taken ≠ []
    ∧ rb_buffer b = taken ++ rb_buffer b' ∧ rb_size b' = rb_size b.
Proof.
  assert (Hcut : ∀ v0 c, (0 < c ≤ length (rb_buffer b))%nat → parsed_shape v0 →
    ∃ v1 taken, Some v0 = Some v1 ∧ parsed_shape v1 ∧ taken ≠ []
      ∧ rb_buffer b = taken ++ drop c (rb_buffer b) ∧ rb_size b = rb_size b).
  { intros v0 c Hc Hv. exists v0, (take c (rb_buffer b)).
    repeat split; try done; [|by rw take_drop].
    intros E%(f_equal length). rw length_take /= in E. lia. }
  unfold parseResp. case_match; [done|]. intros (c & _ & H')%bind_ok_inv.
  case_decide; [|case_decide; [|done]].
  - destruct (parseArray j (rb_buffer b)) as [r| |] eqn:E; simpl in H'; [|done|done].
    injection H' as (v0 & k & -> & -> & ->)%finish_parse_ok.
    apply parseArray_ok in E as [??]. by apply Hcut.
  - destruct (parseBulkString (rb_buffer b)) as [r| |] eqn:E; simpl in H'; [|done|done].
    injection H' as (v0 & k & -> & -> & ->)%finish_parse_ok.
    apply parseBulkString_ok in E as [??]. apply Hcut; [done|by left].
Qed.

Lemma finish_parse_other b r st v b' :
  finish_parse b r = (st, v, b') → st ≠ RESP_OK → v = None ∧ b' = b.
Proof. destruct r; intros; simplify_eq/=; done. Qed.

(** Whatever the status, a parse that does not succeed leaves the buffer. *)
Lemma parseResp_other j b st v b' :
  parseResp j b = Ok (st, v, b') → st ≠ RESP_OK → v = None ∧ b' = b.
Proof.
  unfold parseResp. case_match; [naive_solver|]. intros (c & _ & H')%bind_ok_inv Hst.
  case_decide; [|case_decide; [|naive_solver]].
  - destruct (parseArray j (rb_buffer b)); simplify_eq/=. by eapply finish_parse_other.
  - destruct (parseBulkString (rb_buffer b)); simplify_eq/=. by eapply finish_parse_other.
Qed.

(** *** Replies read back *)

(** Values the reply parser understands: no nesting below the top array, and
    only bulk strings in it. *)
Definition flat (v : RespValue) : Prop :=
  match v with
  | RespString s | RespError s => NUL ∉ s ∧ CR ∉ s
  | RespInteger n => in_s64 n
  | RespBulk s => NUL ∉ s ∧ int_sized s
  | RespArray es => int_sized es ∧ ∃ ss, es = map RespBulk ss
                      ∧ Forall (λ s, NUL ∉ s ∧ int_sized s) ss
  end.

Lemma flat_clean v : flat v → clean v.
Proof.
  destruct v as [s|s|n|s|es]; try done; [by intros [? _]|].
  intros (_ & ss & -> & Hs). apply clean_array, List.Forall_map.
  eapply Forall_impl; [exact Hs|]. by intros s [? _].
Qed.

Lemma parseResponse_flat j v :
  flat v → parseResponseToRespValue j (encode v) = Ok (Some v).
Proof.
  intros Hf. unfold parseResponseToRespValue.
  rw (cstr_nonul (encode v)); [|by apply encode_nonul, flat_clean].
  destruct v as [s|s|n|s|es]; cbn [encode] in *.
  - destruct Hf as [_ Hc]. rw /parseLine (before_crlf_app ("+"%char :: s) []) //.
    by apply not_elem_of_cons.
  - destruct Hf as [_ Hc]. rw /parseLine (before_crlf_app (DASH :: s) []) //.
    by apply not_elem_of_cons.
  - rw /parseLine (before_crlf_app (":"%char :: print_s n) []).
    + by rw /= /atoll strtoll_print_s.
    + apply not_elem_of_cons. split; [done|]. by apply print_s_free.
  - destruct Hf as [_ Hs]. pose proof (parseBulkString_bulk s [] Hs) as E.
    rw app_nil_r in E. unfold bulk, line in *. simpl in *. by rw E.
  - destruct Hf as (Hes & ss & -> & Hs). assert (Hss : Forall int_sized ss)
      by by eapply Forall_impl; [exact Hs|]; intros s [_ ?].
    assert (Hn : int_sized ss) by (unfold int_sized in *; by rw length_map in Hes).
    pose proof (parseArray_command j ss [] Hn Hss) as E. rw app_nil_r in E.
    rw map_map. change (map (λ x, encode (RespBulk x)) ss) with (map bulk ss).
    unfold resp_command, array_of, line in *. simpl in *. by rw E.
Qed.

(** *** The size of a command *)

Lemma list_data_string_bulk args : list_data_string (map RespBulk args) = Ok args.
Proof. induction args as [|s args IH]; simpl; [done|]. by rw IH. Qed.

Lemma calculateCommandSize_bulk args :
  calculateCommandSize (RespArray (map RespBulk args)) = Ok (Z.of_nat (length (resp_command args))).
Proof.
  unfold calculateCommandSize. rw list_data_string_bulk bind_ok length_map. f_equal.
  unfold resp_command, array_of. lens.
  enough (foldr (λ s n, Z.of_nat (length ("$"%char :: print_u (Z.of_nat (length s)) ++ CRLF))
            + Z.of_nat (length s) + 2 + n) 0 args
          = Z.of_nat (length (concat (map bulk args)))) as -> by (unfold line; lens).
  induction args as [|s args IH]; [done|]. cbn [foldr map concat].
  rw IH. unfold bulk, line. lens.
Qed.

(** *** Growth of the buffer *)

Definition buffer_wf (b : RespBuffer) : Prop := 0 < rb_size b ∧ rb_used b ≤ rb_size b.

Lemma grow_spec fuel n need :
  0 < n → need ≤ n * 2 ^ Z.of_nat fuel →
  need ≤ grow fuel n need ∧ n ≤ grow fuel n need
  ∧ (grow fuel n need = n ∨ grow fuel n need < 2 * need).
Proof.
  revert n. induction fuel as [|fuel IH]; intros n Hn Hneed; simpl.
  { change (2 ^ Z.of_nat 0) with 1 in Hneed. lia. }
  rw Nat2Z.inj_succ Z.pow_succ_r in Hneed; [|lia].
  case_match; [|lia]. specialize (IH (n * 2)). lia.
Qed.

Lemma grow_fuel_enough n need : 0 < n → need ≤ n * 2 ^ Z.of_nat (grow_fuel need).
Proof.
  intros Hn. unfold grow_fuel. rw Nat2Z.inj_succ Z2Nat.id; [|apply Z.log2_up_nonneg].
  rw Z.pow_succ_r; [|apply Z.log2_up_nonneg].
  assert (0 < 2 ^ Z.log2_up need) by (apply Z.pow_pos_nonneg; [lia|apply Z.log2_up_nonneg]).
  destruct (decide (need ≤ 1)); [nia|]. pose proof (Z.log2_up_spec need). nia.
Qed.

(** ** Properties *)

(** C13. A serialised command at the head of the buffer parses to exactly its
    arguments, and leaves exactly the bytes that follow it. *)
Theorem resp_command_roundtrip j args r n :
  int_sized args → Forall int_sized args →
  parseResp j (mkRespBuffer (resp_command args ++ r) n) =
  Ok (RESP_OK, Some (RespArray (map RespBulk args)), mkRespBuffer r n).
Proof. apply parseResp_command. Qed.

Lemma resp_command_roundtrip_witness :
  parseResp (Wild 7) (mkRespBuffer (resp_command [bs "ECHO"; [NUL; CR; LF]] ++ bs "*1") 4096) =
  Ok (RESP_OK, Some (RespArray [RespBulk (bs "ECHO"); RespBulk [NUL; CR; LF]]),
      mkRespBuffer (bs "*1") 4096).
Proof.
  apply (resp_command_roundtrip _ [bs "ECHO"; [NUL; CR; LF]]); [done|].
  by repeat constructor.
Defined.

(** C35. A command cut anywhere is reported incomplete and stays in the buffer
    untouched, provided fresh memory reads as zero: no prefix is mistaken for a
    command or for an error. *)
Theorem resp_partial_command_waits p args n :
  int_sized args → Forall int_sized args →
  p `prefix_of` resp_command args → p ≠ resp_command args →
  parseResp Zeroed (mkRespBuffer p n) = Ok (RESP_INCOMPLETE, None, mkRespBuffer p n).
Proof. intros. rw (parseResp_prefix _ _ args) // andb_false_r //. Qed.

Lemma resp_partial_command_waits_witness :
  parseResp Zeroed (mkRespBuffer (bs "*2" ++ CRLF ++ bs "$4" ++ CRLF ++ bs "EC") 4096) =
  Ok (RESP_INCOMPLETE, None, mkRespBuffer (bs "*2" ++ CRLF ++ bs "$4" ++ CRLF ++ bs "EC") 4096).
Proof.
  apply (resp_partial_command_waits _ [bs "ECHO"; bs "hi"]); [done|by repeat constructor| |done].
  by exists (bs "HO" ++ CRLF ++ bulk (bs "hi")).
Defined.

(** When fresh memory does not read as zero, a command that arrives in two
    pieces, cut after its first line, has no defined behaviour: the parser
    frees element pointers it never wrote. *)
Theorem resp_partial_command_wild z p args n :
  int_sized args → Forall int_sized args →
  p `prefix_of` resp_command args → p ≠ resp_command args → past_header p = true →
  parseResp (Wild z) (mkRespBuffer p n) = UB.
Proof. intros ???? Hp. rw (parseResp_prefix _ _ args) // Hp //. Qed.

Lemma resp_partial_command_wild_witness :
  parseResp (Wild 7) (mkRespBuffer (bs "*2" ++ CRLF ++ bs "$4" ++ CRLF ++ bs "EC") 4096) = UB.
Proof.
  apply (resp_partial_command_wild _ _ [bs "ECHO"; bs "hi"]);
    [done|by repeat constructor| |done|reflexivity].
  by exists (bs "HO" ++ CRLF ++ bulk (bs "hi")).
Defined.

(** Whatever the input, a successful parse takes at least one byte from the
    front of the buffer and yields a bulk string or an array of bulk strings;
    any other status yields no value and leaves the buffer as it was. *)
Theorem resp_parse_progress j b st v b' :
  parseResp j b = Ok (st, v, b') →
  (st = RESP_OK ∧ ∃ v0 taken, v = Some v0 ∧ parsed_shape v0 ∧ taken ≠ []
     ∧ rb_buffer b = taken ++ rb_buffer b' ∧ rb_size b' = rb_size b)
  ∨ (st ≠ RESP_OK ∧ v = None ∧ b' = b).
Proof.
  intros H. destruct (decide (st = RESP_OK)) as [->|Hst].
  - left. split; [done|]. by eapply parseResp_ok.
  - right. split; [done|]. by eapply parseResp_other.
Qed.

Lemma resp_parse_progress_witness :
  let b := mkRespBuffer (bs "*1" ++ CRLF ++ bulk (bs "PING") ++ bs "x") 4096 in
  let b' := mkRespBuffer (bs "x") 4096 in
  (RESP_OK = RESP_OK ∧ ∃ v0 taken, Some (RespArray [RespBulk (bs "PING")]) = Some v0
     ∧ parsed_shape v0 ∧ taken ≠ []
     ∧ rb_buffer b = taken ++ rb_buffer b' ∧ rb_size b' = rb_size b)
  ∨ (RESP_OK ≠ RESP_OK ∧ Some (RespArray [RespBulk (bs "PING")]) = None ∧ b' = b).
Proof. intros b b'. apply (resp_parse_progress Zeroed b). reflexivity. Defined.

(** The buffer is append-only and never overflows its allocation: the data
    is what was there followed by what was appended, it fits the new size,
    the doubling loop ended on its own test, and the size stays below twice
    what is needed, so that it does not wrap for data below 2^62 bytes. *)
Theorem resp_append_invariant b d :
  buffer_wf b → rb_used b + Z.of_nat (length d) ≤ 2 ^ 62 → rb_size b ≤ 2 ^ 62 →
  ∃ b', appendRespBuffer true b d = (RESP_OK, b') ∧ rb_buffer b' = rb_buffer b ++ d
    ∧ buffer_wf b' ∧ rb_size b ≤ rb_size b'
    ∧ (rb_size b' ≤ 2 * rb_size b ∨ rb_size b' < 2 * (rb_used b + Z.of_nat (length d)))
    ∧ rb_size b' < 2 ^ 64.
Proof.
  unfold buffer_wf. intros [Hpos Hfit] Hd Hs. unfold appendRespBuffer.
  set (need := rb_used b + Z.of_nat (length d)) in *.
  pose proof (grow_spec (grow_fuel need) (rb_size b * 2) need ltac:(lia)
                (grow_fuel_enough (rb_size b * 2) need ltac:(lia))) as Hg.
  set (g := grow _ _ _) in *. clearbody g. unfold rb_used in *.
  case_match eqn:E; (eexists; split; [reflexivity|]; split; [reflexivity|]); simpl; lens.
Qed.

Lemma resp_append_invariant_witness :
  ∃ b', appendRespBuffer true (mkRespBuffer (bs "abc") 4) (bs "defghijklmnop") = (RESP_OK, b')
    ∧ rb_buffer b' = bs "abc" ++ bs "defghijklmnop"
    ∧ buffer_wf b' ∧ 4 ≤ rb_size b'
    ∧ (rb_size b' ≤ 2 * 4 ∨ rb_size b' < 2 * (3 + 13)) ∧ rb_size b' < 2 ^ 64.
Proof.
  apply (resp_append_invariant (mkRespBuffer (bs "abc") 4)); [split; by vm_compute|done|done].
Defined.

(** The serialiser writes the wire format: a value whose strings hold no NUL
    is written as the protocol prescribes, at any depth. *)
Theorem resp_serialise_format v : clean v → elementStr v = encode v.
Proof. apply elementStr_encode. Qed.

Lemma resp_serialise_format_witness :
  elementStr (RespArray [RespInteger (-5); RespArray [RespBulk (bs "a"); RespError (bs "ERR")]]) =
  encode (RespArray [RespInteger (-5); RespArray [RespBulk (bs "a"); RespError (bs "ERR")]]).
Proof.
  apply resp_serialise_format. cbn [clean foldr].
  repeat split; try done; by_decide.
Defined.

(** A value with a NUL inside is cut there when it is an element of an
    array, while its announced length is not: the reader of the array waits
    for bytes that never come. *)
Theorem resp_array_cut_at_nul a b :
  NUL ∉ a →
  let s := a ++ NUL :: b in
  createRespArrayFromElements [RespBulk s] =
  array_of [(line "$" (Z.of_nat (length s)) ++ CRLF) ++ a].
Proof.
  intros Ha s. unfold createRespArrayFromElements.
  change (map elementStr [RespBulk s]) with [createBulkString s].
  rw respArrayOf_spec createBulkString_bulk. change (map cstr [bulk s]) with [cstr (bulk s)].
  do 2 f_equal. unfold bulk. rw {2}/s. rw -(app_assoc a) -app_comm_cons app_assoc cstr_at_nul //.
  rw !not_elem_of_app. split; [|done]. split; [|by_decide]. apply line_free; [done|done|lia].
Qed.

Lemma resp_array_cut_at_nul_witness :
  createRespArrayFromElements [RespBulk (bs "ab" ++ NUL :: bs "cd")] =
  array_of [bs "$5" ++ CRLF ++ bs "ab"].
Proof. apply (resp_array_cut_at_nul (bs "ab") (bs "cd")). by_decide. Defined.

(** Flat replies survive the round trip EXEC puts them through. *)
Theorem resp_reply_roundtrip j v :
  flat v → parseResponseToRespValue j (elementStr v) = Ok (Some v).
Proof. intros Hf. rw elementStr_encode; [by apply parseResponse_flat|by apply flat_clean]. Qed.

Lemma resp_reply_roundtrip_witness :
  parseResponseToRespValue (Wild 3) (elementStr (RespArray [RespBulk (bs "dir"); RespBulk []])) =
  Ok (Some (RespArray [RespBulk (bs "dir"); RespBulk []])).
Proof.
  apply resp_reply_roundtrip. split; [done|]. exists [bs "dir"; []]. split; [done|].
  repeat constructor; try done; by_decide.
Defined.

(** The reply parser does not understand two replies the handlers produce:
    a null bulk string leaves the value uninitialised, and an array of arrays
    is read as something else. *)
Theorem resp_reply_misread j :
  parseResponseToRespValue j createNullBulkString = Ok None
  ∧ parseResponseToRespValue j
      (createXrangeResponse [mkStreamEntry (bs "1-1") [bs "f"] [bs "v"]] 1) =
    Ok (Some (RespArray [RespBulk (bs "$3")])).
Proof. split; destruct j; vm_compute; reflexivity. Qed.

(** The size by which a replica advances its offset is the length of the
    command on the wire. *)
Theorem resp_command_size args :
  Forall (λ s, NUL ∉ s) args →
  calculateCommandSize (RespArray (map RespBulk args)) =
  Ok (Z.of_nat (length (createRespArrayFromElements (map RespBulk args)))).
Proof.
  intros Hf. rw calculateCommandSize_bulk. do 3 f_equal.
  change (createRespArrayFromElements (map RespBulk args))
    with (elementStr (RespArray (map RespBulk args))).
  rw elementStr_encode; [by rw /= map_map|]. by apply clean_array, List.Forall_map.
Qed.

Lemma resp_command_size_witness :
  calculateCommandSize (RespArray (map RespBulk [bs "SET"; bs "foo"; bs "123"])) =
  Ok (Z.of_nat (length (createRespArrayFromElements (map RespBulk [bs "SET"; bs "foo"; bs "123"])))).
Proof. apply resp_command_size. repeat constructor; by_decide. Defined.
