(* ===== verification/Store.v ===== *)
(** * The key-value store (src/app/redis_store.h, src/app/redis_store.c)

    A chained hash table of string and stream entries with expiry times.
    Stream objects live in a heap and entries point to them, so that a
    pointer kept across an operation may dangle.  Allocation succeeds, and the
    pointers passed to the operations are not [NULL]. *)

From S2P Require Import Prelude CLib Stream.

(** ** Data *)

Inductive ValueType := TYPE_NONE | TYPE_STRING | TYPE_STREAM.
#[export] Instance ValueType_eq_dec : EqDecision ValueType.
Proof. solve_decision. Defined.

(** The tagged union of an entry; a stream is a reference into the heap. *)
Inductive StoreValue := VString (data : bytes) | VStream (stream : nat).
#[export] Instance StoreValue_eq_dec : EqDecision StoreValue.
Proof. solve_decision. Defined.

Definition type_of (v : StoreValue) : ValueType :=
  match v with VString _ => TYPE_STRING | VStream _ => TYPE_STREAM end.

(** [expiry] is 0 when there is none; the [next] pointers are the buckets. *)
Record StoreEntry := mkStoreEntry { key : bytes; value : StoreValue; expiry : Z }.
#[export] Instance StoreEntry_eq_dec : EqDecision StoreEntry.
Proof. solve_decision. Defined.

Record RedisStore := mkRedisStore { table : list (list StoreEntry); used : Z }.
Definition size (st : RedisStore) : Z := Z.of_nat (length (table st)).

Abbreviation heap := (gmap nat Stream).

Definition STORE_OK : Z := 0.
Definition STORE_ERR : Z := -1.
Definition INITIAL_STORE_SIZE : nat := 16.

(** ** Hashing *)

Definition hash_step (h : Z) (c : ascii) : Z := u64 (u64 (u64 (Z.shiftl h 5) + h) + schar c).
Definition hash (k : bytes) : Z := fold_left hash_step (cstr k) 5381.

(** [hash(key) % size]. *)
Definition slot (n : nat) (k : bytes) : nat := Z.to_nat (hash k mod Z.of_nat n).

(** ** The load factor

    [(float)used / size > 0.75].  Conversion to [float] rounds to 24
    significant bits, ties to even; the quotient by a power of two is exact. *)
Definition round_f32 (z : Z) : Z :=
  if z <? 2 ^ 24 then z
  else
    let ulp := 2 ^ (Z.log2 z - 23) in
    let q := z / ulp in
    let r := z mod ulp in
    (if 2 * r <? ulp then q else if ulp <? 2 * r then q + 1
     else if Z.even q then q else q + 1) * ulp.

Definition load_exceeded (used size : Z) : bool := 3 * round_f32 size <? 4 * round_f32 used.

(** ** Buckets *)

Fixpoint find_entry (k : bytes) (b : list StoreEntry) : option StoreEntry :=
  match b with
  | [] => None
  | e :: b' => if strcmp_eq (key e) k then Some e else find_entry k b'
  end.

(** Write through the pointer [find_entry] stopped at. *)
Fixpoint update_entry (k : bytes) (f : StoreEntry → StoreEntry) (b : list StoreEntry)
    : list StoreEntry :=
  match b with
  | [] => []
  | e :: b' => if strcmp_eq (key e) k then f e :: b' else e :: update_entry k f b'
  end.

Definition bucket (st : RedisStore) (k : bytes) : list StoreEntry :=
  default [] (table st !! slot (length (table st)) k).

Definition lookup_entry (st : RedisStore) (k : bytes) : option StoreEntry :=
  find_entry k (bucket st k).

Definition set_entry (st : RedisStore) (k : bytes) (f : StoreEntry → StoreEntry) : RedisStore :=
  mkRedisStore (alter (update_entry k f) (slot (length (table st)) k) (table st)) (used st).

(** Push a new entry at the head of its bucket. *)
Definition push (t : list (list StoreEntry)) (e : StoreEntry) : list (list StoreEntry) :=
  alter (cons e) (slot (length t) (key e)) t.

Definition push_entry (st : RedisStore) (e : StoreEntry) : RedisStore :=
  mkRedisStore (push (table st) e) (used st + 1).

(** ** Operations *)

Definition createStore : RedisStore := mkRedisStore (replicate INITIAL_STORE_SIZE []) 0.

(** What [freeEntry] and the overwriting branch of [storeSet] do to the heap. *)
Definition free_value (h : heap) (v : StoreValue) : heap :=
  match v with VString _ => h | VStream r => delete r h end.

Definition resize (st : RedisStore) : RedisStore :=
  mkRedisStore (fold_left push (concat (table st)) (replicate (length (table st) * 2) []))
    (used st).

Definition storeSet (h : heap) (st : RedisStore) (k v : bytes) : Z * heap * RedisStore :=
  let st := if load_exceeded (used st) (size st) then resize st else st in
  match lookup_entry st k with
  | Some e =>
      (STORE_OK, free_value h (value e),
       set_entry st k (λ e, mkStoreEntry (key e) (VString v) (expiry e)))
  | None => (STORE_OK, h, push_entry st (mkStoreEntry (cstr k) (VString v) 0))
  end.

(** [now] is [getCurrentTimeMs()], in milliseconds. *)
Definition storeGet (now : Z) (st : RedisStore) (k : bytes) : option bytes :=
  match lookup_entry st k with
  | None => None
  | Some e =>
      if negb (expiry e =? 0) && (expiry e <=? now) then None
      else match value e with VString d => Some d | VStream _ => None end
  end.

(** [now_s] is [time(NULL)], in seconds. *)
Definition getValueType (now_s : Z) (st : RedisStore) (k : bytes) : ValueType :=
  match lookup_entry st k with
  | None => TYPE_NONE
  | Some e =>
      if negb (expiry e =? 0) && (expiry e <? now_s) then TYPE_NONE else type_of (value e)
  end.

Definition setExpiry (st : RedisStore) (k : bytes) (x : Z) : Z * RedisStore :=
  match lookup_entry st k with
  | Some _ => (STORE_OK, set_entry st k (λ e, mkStoreEntry (key e) (value e) x))
  | None => (STORE_ERR, st)
  end.

Definition expired_at (now_s : Z) (e : StoreEntry) : bool :=
  negb (expiry e =? 0) && (expiry e <? now_s).

(** [now_s] is [time(NULL)], in seconds. *)
Definition clearExpired (now_s : Z) (h : heap) (st : RedisStore) : heap * RedisStore :=
  let gone := filter (λ e, expired_at now_s e = true) (concat (table st)) in
  (fold_left (λ h e, free_value h (value e)) gone h,
   mkRedisStore (map (filter (λ e, expired_at now_s e = false)) (table st))
     (used st - Z.of_nat (length gone))).

(** The expiry of a new stream entry is never written.  An entry that holds a
    string is used as a stream all the same. *)
Definition storeStreamAdd (now : Z) (j : junk) (h : heap) (st : RedisStore)
    (k id : bytes) (fields values : list bytes)
    : res (option bytes * bool * heap * RedisStore) :=
  let '(v, h, st) :=
    match lookup_entry st k with
    | Some e => (value e, h, st)
    | None =>
        let r := fresh (dom h) in
        (VStream r, <[r := createStream]> h,
         push_entry st (mkStoreEntry (cstr k) (VStream r) (junk_int j)))
    end in
  match v with
  | VString _ => UB
  | VStream r =>
      s ← deref (h !! r);
      '(reply, s', woke) ← streamAdd now s id fields values;
      Ok (reply, woke, <[r := s']> h, st)
  end.

(** The pointer to the stream, which the caller may keep. *)
Definition storeGetStream (st : RedisStore) (k : bytes) : option nat :=
  match lookup_entry st k with
  | Some e => match value e with VStream r => Some r | VString _ => None end
  | None => None
  end.

Definition storeSize (st : RedisStore) : Z := used st.

(** ** The invariant of the table *)

(** Every entry of bucket [i] hashes to [i] under a NUL-free key. *)
Definition placed (t : list (list StoreEntry)) : Prop :=
  ∀ i b e, t !! i = Some b → e ∈ b → NUL ∉ key e ∧ slot (length t) (key e) = i.

Definition keys (t : list (list StoreEntry)) : list bytes := map key (concat t).

(** The streams the table points to. *)
Definition ref_of (e : StoreEntry) : option nat :=
  match value e with VString _ => None | VStream r => Some r end.
Record store_wf (st : RedisStore) : Prop := {
  wf_size : ∃ n, length (table st) = (INITIAL_STORE_SIZE * 2 ^ n)%nat;
  wf_placed : placed (table st);
  wf_keys : NoDup (keys (table st));
  wf_used : used st = Z.of_nat (length (concat (table st)))
}.

(** Every stream object is owned by exactly one entry, every pointer to a
    stream is live, and every live stream has identifiers that parse: nothing
    dangles, nothing leaks, nothing is undefined to read. *)
Record owns (h : heap) (l : list StoreEntry) : Prop := {
  own_once : NoDup (omap ref_of l);
  own_live : ∀ r, r ∈ omap ref_of l ↔ is_Some (h !! r);
  own_ok : map_Forall (λ _, stream_ok) h
}.
Definition heap_wf (h : heap) (st : RedisStore) : Prop := owns h (concat (table st)).

(** ** Hashing *)

Lemma hash_cstr k : hash (cstr k) = hash k.
Proof. unfold hash. by rw cstr_idemp. Qed.

Lemma slot_cstr n k : slot n (cstr k) = slot n k.
Proof. unfold slot. by rw hash_cstr. Qed.

Lemma slot_bound n k : (0 < n)%nat → (slot n k < n)%nat.
Proof. intros Hn. unfold slot. pose proof (Z.mod_pos_bound (hash k) (Z.of_nat n)). lia. Qed.

Lemma wf_length_pos st : store_wf st → (0 < length (table st))%nat.
Proof.
  intros [[n ->] _ _ _]. unfold INITIAL_STORE_SIZE.
  pose proof (Nat.pow_nonzero 2 n). lia.
Qed.

(** ** Buckets as parts of the whole *)

Section Buckets.
Context {A : Type}.
Implicit Types (t : list (list A)) (b : list A).

Lemma concat_split t i b :
  t !! i = Some b → concat t = concat (take i t) ++ b ++ concat (drop (S i) t).
Proof. intros Hi. by rw -{1}(take_drop_middle t i b Hi) concat_app. Qed.

Lemma concat_alter t i b (f : list A → list A) :
  t !! i = Some b →
  concat (alter f i t) = concat (take i t) ++ f b ++ concat (drop (S i) t).
Proof.
  intros Hi. assert (Ha : alter f i t !! i = Some (f b)) by by rw list_lookup_alter_eq Hi.
  rw (concat_split _ _ _ Ha) take_alter_ge // drop_alter_lt //. lia.
Qed.

Lemma concat_filter (P : A → Prop) `{!∀ x, Decision (P x)} t :
  concat (map (filter P) t) = filter P (concat t).
Proof. induction t as [|b t IH]; simpl; [done|]. by rw filter_app IH. Qed.
End Buckets.

Lemma length_push t e : length (push t e) = length t.
Proof. apply length_alter. Qed.

(** Pushing adds the entry to the whole, wherever its bucket is. *)
Lemma push_perm t e : (0 < length t)%nat → concat (push t e) ≡ₚ e :: concat t.
Proof.
  intros Ht. unfold push.
  destruct (lookup_lt_is_Some_2 t (slot (length t) (key e))) as [b Hb]; [by apply slot_bound|].
  rw (concat_alter _ _ _ _ Hb) (concat_split _ _ _ Hb) /=. symmetry. apply Permutation_middle.
Qed.

Lemma push_placed t e : NUL ∉ key e → placed t → placed (push t e).
Proof.
  intros He Ht i b x. rw length_push. unfold push. rw list_lookup_alter.
  case_decide as Hi; [|apply Ht]. subst i.
  destruct (t !! slot (length t) (key e)) as [b'|] eqn:Eb; [|done].
  intros [= <-] [->|Hx]%elem_of_cons; [done|by eapply Ht].
Qed.

(** ** Finding an entry *)

Lemma strcmp_key e k : NUL ∉ key e → strcmp_eq (key e) k = bool_decide (key e = cstr k).
Proof. intros He. unfold strcmp_eq. by rw cstr_nonul. Qed.

Lemma find_entry_some k b e :
  Forall (λ e, NUL ∉ key e) b → find_entry k b = Some e →
  ∃ b1 b2, b = b1 ++ e :: b2 ∧ key e = cstr k
    ∧ ∀ f, update_entry k f b = b1 ++ f e :: b2.
Proof.
  induction 1 as [|x b Hx _ IH]; simpl; [done|]. rw strcmp_key //.
  case_bool_decide as Hk.
  - intros [= <-]. by exists [], b.
  - intros (b1 & b2 & -> & Hke & Hu)%IH. exists (x :: b1), b2. split; [done|].
    split; [done|]. intros f. by rw Hu.
Qed.

Lemma find_entry_none k b :
  Forall (λ e, NUL ∉ key e) b → find_entry k b = None → cstr k ∉ map key b.
Proof.
  induction 1 as [|x b Hx _ IH]; simpl; [intros _; apply not_elem_of_nil|].
  rw strcmp_key //. case_bool_decide as Hk; [done|]. intros Hf.
  apply not_elem_of_cons. split; [congruence|by apply IH].
Qed.

Lemma placed_nonul t i b : placed t → t !! i = Some b → Forall (λ e, NUL ∉ key e) b.
Proof. intros Hp Hi. apply Forall_forall. intros e He. by eapply Hp. Qed.

Section Lookup.
Context (st : RedisStore) (Hwf : store_wf st).

Lemma bucket_lookup k :
  table st !! slot (length (table st)) k = Some (bucket st k).
Proof.
  unfold bucket. destruct (lookup_lt_is_Some_2 (table st) (slot (length (table st)) k))
    as [b ->]; [by apply slot_bound, wf_length_pos|done].
Qed.

(** A found entry, the rest of the table, and the effect of an update. *)
Lemma lookup_entry_some k e :
  lookup_entry st k = Some e →
  key e = cstr k ∧ ∃ rest, concat (table st) ≡ₚ e :: rest
    ∧ ∀ f, concat (table (set_entry st k f)) ≡ₚ f e :: rest.
Proof.
  intros Hl. apply find_entry_some in Hl as (b1 & b2 & Hb & Hk & Hu);
    [|eapply placed_nonul, bucket_lookup; apply Hwf].
  split; [done|]. pose proof (bucket_lookup k) as Hi.
  eexists (concat (take _ _) ++ b1 ++ b2 ++ concat (drop _ _)). split.
  - rw (concat_split _ _ _ Hi) {1}Hb. rw -!app_assoc /=. solve_Permutation.
  - intros f. simpl. rw (concat_alter _ _ _ _ Hi) Hu. rw -!app_assoc /=. solve_Permutation.
Qed.

Lemma lookup_entry_none k : lookup_entry st k = None → cstr k ∉ keys (table st).
Proof.
  intros Hl (e & Hke & He)%list_elem_of_fmap.
  apply flat_lookup_in in He as (i & b & Hi & He).
  destruct (wf_placed st Hwf i b e Hi He) as [_ Hs]. rw -Hke slot_cstr in Hs.
  pose proof (bucket_lookup k) as Hb. rw Hs Hi in Hb. injection Hb as ->.
  apply find_entry_none in Hl; [|by eapply placed_nonul; [apply Hwf|]].
  apply Hl. rw Hke. by apply list_elem_of_fmap_2.
Qed.
End Lookup.

(** ** The table as a finite map *)

Definition kv (e : StoreEntry) : bytes * (StoreValue * Z) := (key e, (value e, expiry e)).
Definition map_of (l : list StoreEntry) : gmap bytes (StoreValue * Z) := list_to_map (map kv l).

(** The contents of a store: the value and the expiry of each key. *)
Definition contents (st : RedisStore) : gmap bytes (StoreValue * Z) := map_of (concat (table st)).

Lemma kv_keys l : (map kv l).*1 = map key l.
Proof. transitivity (map fst (map kv l)); [reflexivity|by rw map_map]. Qed.

Lemma map_of_perm l l' : NoDup (map key l) → l ≡ₚ l' → map_of l = map_of l'.
Proof.
  intros Hn Hp. apply list_to_map_proper; [by rw kv_keys|]. by apply Permutation_map.
Qed.

Lemma keys_perm t l : concat t ≡ₚ l → keys t ≡ₚ map key l.
Proof. intros Hp. by apply Permutation_map. Qed.

(** Looking a key up in the table is looking it up in the map. *)
Lemma contents_lookup st k :
  store_wf st → contents st !! cstr k = (λ e, (value e, expiry e)) <$> lookup_entry st k.
Proof.
  intros Hwf. pose proof (wf_keys st Hwf) as Hn. unfold contents.
  destruct (lookup_entry st k) as [e|] eqn:El; simpl.
  - apply (lookup_entry_some st Hwf) in El as (Hk & rest & Hp & _).
    rw (map_of_perm _ _ Hn Hp). unfold map_of. simpl. rw -Hk. apply lookup_insert_eq.
  - apply (lookup_entry_none st Hwf) in El.
    apply not_elem_of_list_to_map_1. by rw kv_keys.
Qed.

(** *** Writing through a found entry *)

Lemma update_entry_elem k f b x :
  x ∈ update_entry k f b → x ∈ b ∨ ∃ e, e ∈ b ∧ x = f e.
Proof.
  induction b as [|e b IH]; simpl; [by left|]. case_match.
  - intros [->|Hx]%elem_of_cons; [right; exists e; split; [by left|done]|left; by right].
  - intros [->|Hx]%elem_of_cons; [left; by left|].
    destruct (IH Hx) as [?|(y & ? & ->)]; [left; by right|right; exists y; split; [by right|done]].
Qed.

Lemma set_entry_effect st k e f :
  store_wf st → lookup_entry st k = Some e → (∀ e, key (f e) = key e) →
  store_wf (set_entry st k f)
  ∧ contents (set_entry st k f) = <[cstr k := (value (f e), expiry (f e))]> (contents st)
  ∧ ∃ rest, concat (table st) ≡ₚ e :: rest ∧ concat (table (set_entry st k f)) ≡ₚ f e :: rest.
Proof.
  intros Hwf El Hf. apply (lookup_entry_some st Hwf) in El as (Hk & rest & Hp & Hu).
  pose proof Hwf as [Hs Hpl Hn Hus].
  assert (Hn' : NoDup (keys (table (set_entry st k f)))).
  { rw (keys_perm _ _ (Hu f)) /= Hf. by rw (keys_perm _ _ Hp) in Hn. }
  split; [split|].
  - by rw /= length_alter.
  - intros i b x. rw /= length_alter list_lookup_alter. case_decide as Hi; [|apply Hpl].
    subst i. rw (bucket_lookup st Hwf k). intros [= <-] Hx.
    apply update_entry_elem in Hx as [Hx|(y & Hx & ->)]; [|rw !Hf];
      by eapply Hpl; [by apply bucket_lookup|].
  - done.
  - rw /= Hus. f_equal. transitivity (length (e :: rest)); [by rw Hp|]. by rw (Hu f).
  - split; [|by exists rest]. unfold contents.
    rw (map_of_perm _ _ Hn' (Hu f)) (map_of_perm _ _ Hn Hp). unfold map_of. simpl.
    by rw Hf -Hk insert_insert_eq.
Qed.

(** *** Adding an entry *)

Lemma push_entry_effect st e :
  store_wf st → NUL ∉ key e → key e ∉ keys (table st) →
  store_wf (push_entry st e)
  ∧ contents (push_entry st e) = <[key e := (value e, expiry e)]> (contents st)
  ∧ concat (table (push_entry st e)) ≡ₚ e :: concat (table st).
Proof.
  intros Hwf He Hk. pose proof Hwf as [Hs Hpl Hn Hus].
  assert (Hp : concat (push (table st) e) ≡ₚ e :: concat (table st))
    by by apply push_perm, wf_length_pos.
  assert (Hn' : NoDup (keys (push (table st) e))).
  { rw (keys_perm _ _ Hp) /=. by constructor. }
  split; [split|split; [|done]]; simpl.
  - by rw length_push.
  - by apply push_placed.
  - done.
  - rw Hp Hus /=. lia.
  - unfold contents. simpl. by rw (map_of_perm _ _ Hn' Hp).
Qed.

(** *** Growing the table *)

Lemma fold_push_length l t : length (fold_left push l t) = length t.
Proof. revert t. induction l as [|e l IH]; intros t; simpl; [done|]. by rw IH length_push. Qed.

Lemma fold_push_perm l t :
  (0 < length t)%nat → concat (fold_left push l t) ≡ₚ l ++ concat t.
Proof.
  revert t. induction l as [|e l IH]; intros t Ht; simpl; [done|].
  rw IH; [|by rw length_push]. rw (push_perm t e Ht). solve_Permutation.
Qed.

Lemma fold_push_placed l t :
  Forall (λ e, NUL ∉ key e) l → placed t → placed (fold_left push l t).
Proof.
  intros Hl. revert t. induction Hl as [|e l He _ IH]; intros t Ht; simpl; [done|].
  by apply IH, push_placed.
Qed.

Lemma concat_replicate_nil {A} n : concat (replicate n (@nil A)) = [].
Proof. induction n; simpl; done. Qed.

Lemma replicate_placed n : placed (replicate n []).
Proof. intros i b e [-> _]%lookup_replicate. by intros ?%elem_of_nil. Qed.

Lemma placed_all_nonul t : placed t → Forall (λ e, NUL ∉ key e) (concat t).
Proof.
  intros Ht. apply Forall_forall. intros e (i & b & Hi & He)%flat_lookup_in. by eapply Ht.
Qed.

Lemma resize_effect st :
  store_wf st →
  store_wf (resize st) ∧ contents (resize st) = contents st
  ∧ concat (table (resize st)) ≡ₚ concat (table st)
  ∧ length (table (resize st)) = (length (table st) * 2)%nat.
Proof.
  intros Hwf. pose proof Hwf as [[n Hs] Hpl Hn Hus]. pose proof (wf_length_pos st Hwf) as Hpos.
  assert (Hp : concat (table (resize st)) ≡ₚ concat (table st)).
  { simpl. rw fold_push_perm ?length_replicate ?concat_replicate_nil ?app_nil_r //. lia. }
  assert (Hl : length (table (resize st)) = (length (table st) * 2)%nat)
    by by rw /= fold_push_length length_replicate.
  split; [split|split; [|done]].
  - exists (S n). rw Hl Hs Nat.pow_succ_r'. lia.
  - apply fold_push_placed; [by apply placed_all_nonul|apply replicate_placed].
  - by rw (keys_perm _ _ Hp).
  - by rw Hp.
  - unfold contents. symmetry. by apply map_of_perm.
Qed.

(** ** Ownership of the streams *)

#[export] Instance owns_proper h : Proper ((≡ₚ) ==> iff) (owns h).
Proof.
  intros l l' Hp. assert (Ho : omap ref_of l ≡ₚ omap ref_of l') by by rw Hp.
  split; intros [H1 H2 H3]; split; try done.
  - by rw -Ho.
  - intros r. by rw -Ho.
  - by rw Ho.
  - intros r. by rw Ho.
Qed.

(** An entry replaced by one with the same reference. *)
Lemma owns_same h e e' l : ref_of e' = ref_of e → owns h (e :: l) → owns h (e' :: l).
Proof. intros Hr [H1 H2 H3]. split; simpl in *; rw ?Hr; done. Qed.

(** A string added. *)
Lemma owns_string h e l : ref_of e = None → owns h l → owns h (e :: l).
Proof. intros Hr [H1 H2 H3]. split; simpl; rw ?Hr; done. Qed.

(** An entry released. *)
Lemma owns_free h e l : owns h (e :: l) → owns (free_value h (value e)) l.
Proof.
  intros [H1 H2 H3]. unfold free_value, ref_of in *. simpl in *.
  destruct (value e) as [d|r]; [done|].
  apply NoDup_cons in H1 as [Hr H1]. split; [done| |by apply map_Forall_delete].
  intros r'. specialize (H2 r'). rw elem_of_cons in H2.
  destruct (decide (r' = r)) as [->|Hne].
  - rw lookup_delete_eq. split; [done|by intros []].
  - rw lookup_delete_ne //. naive_solver.
Qed.

(** A new stream. *)
Lemma owns_alloc h k x l :
  let r := fresh (dom h) in
  owns h l → owns (<[r := createStream]> h) (mkStoreEntry k (VStream r) x :: l).
Proof.
  intros r [H1 H2 H3]. assert (Hr : h !! r = None) by by apply not_elem_of_dom, is_fresh.
  split; simpl.
  - constructor; [|done]. intros Hin%H2. rw Hr in Hin. by destruct Hin.
  - intros r'. rw elem_of_cons lookup_insert. case_decide; [subst; naive_solver|].
    rw H2. naive_solver.
  - apply map_Forall_insert_2; [constructor|done].
Qed.

(** A stream written back. *)
Lemma owns_update h r s l :
  owns h l → is_Some (h !! r) → stream_ok s → owns (<[r := s]> h) l.
Proof.
  intros [H1 H2 H3] Hr Hs. split; [done| |by apply map_Forall_insert_2].
  intros r'. rw H2 lookup_insert. case_decide; [subst; naive_solver|done].
Qed.

(** Several entries released. *)
Lemma owns_free_all h gone l :
  owns h (gone ++ l) → owns (fold_left (λ h e, free_value h (value e)) gone h) l.
Proof. revert h. induction gone as [|e gone IH]; intros h Ho; simpl; [done|]. by apply IH, owns_free. Qed.

(** ** What a client sees: values with their streams *)

Inductive KVal := KString (d : bytes) | KStream (s : Stream).

Definition deref_value (h : heap) (v : StoreValue) : KVal :=
  match v with
  | VString d => KString d
  | VStream r => KStream (default createStream (h !! r))
  end.

Definition deref_item (h : heap) (i : StoreValue * Z) : KVal * Z := (deref_value h i.1, i.2).
Definition view (h : heap) (st : RedisStore) : gmap bytes (KVal * Z) := deref_item h <$> contents st.

Lemma view_lookup h st k :
  store_wf st →
  view h st !! cstr k = (λ e, (deref_value h (value e), expiry e)) <$> lookup_entry st k.
Proof.
  intros Hwf. unfold view. rw lookup_fmap contents_lookup //. by destruct (lookup_entry st k).
Qed.

Lemma contents_elem st k v x :
  store_wf st → contents st !! k = Some (v, x) ↔ mkStoreEntry k v x ∈ concat (table st).
Proof.
  intros Hwf. unfold contents, map_of.
  rw -elem_of_list_to_map; [|rw kv_keys; apply Hwf].
  rw list_elem_of_fmap. split.
  - intros ([k' v' x'] & [= -> -> ->] & He). done.
  - intros He. by exists (mkStoreEntry k v x).
Qed.

(** No two keys share a stream. *)
Lemma owner_unique h st k k' r x x' :
  store_wf st → heap_wf h st →
  contents st !! k = Some (VStream r, x) → contents st !! k' = Some (VStream r, x') → k = k'.
Proof.
  intros Hwf [Hn _ _] H1%contents_elem H2%contents_elem; try done.
  apply elem_of_Permutation in H1 as [l Hl]. rw Hl in H2. rw Hl /= in Hn.
  apply elem_of_cons in H2 as [[=]|H2]; [done|].
  apply NoDup_cons in Hn as [Hn _]. exfalso. apply Hn.
  apply list_elem_of_omap. by eexists.
Qed.

(** Writing or freeing the stream of one key shows at no other. *)
Lemma view_other h h' st k r x :
  store_wf st → heap_wf h st → contents st !! k = Some (VStream r, x) →
  (∀ r', r' ≠ r → h' !! r' = h !! r') →
  ∀ k', k' ≠ k → view h' st !! k' = view h st !! k'.
Proof.
  intros Hwf Ho Hk Hh k' Hne. unfold view. rw !lookup_fmap.
  destruct (contents st !! k') as [[[d|r'] x']|] eqn:Ek; [done| |done].
  unfold deref_item. simpl. rw Hh; [done|]. intros ->. by eapply Hne, owner_unique.
Qed.

(** ** The specification

    The store as a finite map from keys to values and expiry times: what each
    operation promises, without buckets, pointers or counts. *)
Module KV.
Abbreviation state := (gmap bytes (KVal * Z)).

Definition empty : state := ∅.

Definition set (m : state) (k v : bytes) : state :=
  <[cstr k := (KString v, from_option snd 0 (m !! cstr k))]> m.

Definition get (now : Z) (m : state) (k : bytes) : option bytes :=
  match m !! cstr k with
  | Some (KString d, x) => if decide (x ≠ 0 ∧ x ≤ now) then None else Some d
  | _ => None
  end.

Definition type (now_s : Z) (m : state) (k : bytes) : ValueType :=
  match m !! cstr k with
  | Some (v, x) =>
      if decide (x ≠ 0 ∧ x < now_s) then TYPE_NONE
      else match v with KString _ => TYPE_STRING | KStream _ => TYPE_STREAM end
  | None => TYPE_NONE
  end.

Definition expire (m : state) (k : bytes) (x : Z) : state :=
  alter (λ i, (i.1, x)) (cstr k) m.

Definition clear (now_s : Z) (m : state) : state :=
  filter (λ i, ¬ (i.2.2 ≠ 0 ∧ i.2.2 < now_s)) m.

Definition xadd (now : Z) (j : junk) (m : state) (k id : bytes) (fields values : list bytes)
    : res (option bytes * bool * state) :=
  '(s, x) ← match m !! cstr k with
            | Some (KString _, _) => UB
            | Some (KStream s, x) => Ok (s, x)
            | None => Ok (createStream, junk_int j)
            end;
  '(reply, s', woke) ← streamAdd now s id fields values;
  Ok (reply, woke, <[cstr k := (KStream s', x)]> m).
End KV.

(** ** The operations implement the specification *)

(** The invariant of the store and of the heap it points into. *)
Definition db_wf (h : heap) (st : RedisStore) : Prop := store_wf st ∧ heap_wf h st.

Lemma createStore_wf : db_wf ∅ createStore.
Proof.
  assert (E : concat (table createStore) = []) by by apply concat_replicate_nil.
  split; split; rw /keys ?E; try by constructor.
  - by exists 0%nat.
  - apply (replicate_placed INITIAL_STORE_SIZE).
  - intros r. rw elem_of_nil lookup_empty. split; [done|by intros []].
  - apply map_Forall_empty.
Qed.

Lemma createStore_view : view ∅ createStore = KV.empty.
Proof.
  unfold view, contents. assert (concat (table createStore) = []) as -> by by apply concat_replicate_nil.
  apply fmap_empty.
Qed.

Lemma view_delete h st k r x :
  store_wf st → heap_wf h st → contents st !! k = Some (VStream r, x) →
  ∀ i, <[k := i]> (view (delete r h) st) = <[k := i]> (view h st).
Proof.
  intros Hwf Ho Hk i. apply map_eq. intros k'. rw !lookup_insert. case_decide; [done|].
  eapply view_other; [done..| |done]. intros r' Hr. by rw lookup_delete_ne.
Qed.

Lemma set_entry_string_spec h st k e v :
  db_wf h st → lookup_entry st k = Some e →
  let f (e : StoreEntry) := mkStoreEntry (key e) (VString v) (expiry e) in
  db_wf (free_value h (value e)) (set_entry st k f)
  ∧ view (free_value h (value e)) (set_entry st k f) = KV.set (view h st) k v.
Proof.
  intros [Hwf Ho] El f. pose proof (contents_lookup st k Hwf) as Hc. rw El /= in Hc.
  destruct (set_entry_effect st k e f Hwf El) as (Hwf' & Hc' & rest & Hp & Hp'); [done|].
  split; [split; [done|]|].
  - unfold heap_wf. rw Hp'. apply owns_string; [done|]. apply owns_free. by rw -Hp.
  - unfold KV.set. rw view_lookup // El /=. unfold view at 1. rw Hc' fmap_insert /=.
    unfold free_value. destruct (value e) as [d|r]; [done|]. by eapply view_delete.
Qed.

Lemma maybe_resize_spec h st :
  db_wf h st →
  let st' := if load_exceeded (used st) (size st) then resize st else st in
  db_wf h st' ∧ view h st' = view h st.
Proof.
  intros [Hwf Ho] st'. subst st'. case_match; [|done].
  destruct (resize_effect st Hwf) as (Hwf' & Hc & Hp & _).
  split; [split; [done|]|unfold view; by rw Hc]. unfold heap_wf. by rw Hp.
Qed.

Lemma push_new st k v x :
  store_wf st → lookup_entry st k = None →
  store_wf (push_entry st (mkStoreEntry (cstr k) v x))
  ∧ contents (push_entry st (mkStoreEntry (cstr k) v x)) = <[cstr k := (v, x)]> (contents st)
  ∧ concat (table (push_entry st (mkStoreEntry (cstr k) v x)))
    ≡ₚ mkStoreEntry (cstr k) v x :: concat (table st).
Proof.
  intros Hwf El. apply (push_entry_effect st (mkStoreEntry (cstr k) v x)); [done|..].
  - apply cstr_is_nonul.
  - by apply lookup_entry_none.
Qed.

Lemma storeSet_spec h st k v :
  db_wf h st →
  ∃ h' st', storeSet h st k v = (STORE_OK, h', st') ∧ db_wf h' st'
    ∧ view h' st' = KV.set (view h st) k v.
Proof.
  intros Hdb. unfold storeSet.
  destruct (maybe_resize_spec h st Hdb) as [Hdb' <-].
  set (st1 := if load_exceeded _ _ then _ else _) in *. clearbody st1. clear st Hdb.
  destruct (lookup_entry st1 k) as [e|] eqn:El.
  - destruct (set_entry_string_spec h st1 k e v Hdb' El). by eexists _, _.
  - destruct Hdb' as [Hwf Ho].
    destruct (push_new st1 k (VString v) 0 Hwf El) as (Hwf' & Hc & Hp).
    eexists _, _. split; [reflexivity|]. split; [split; [done|]|].
    + unfold heap_wf. rw Hp. by apply owns_string.
    + unfold KV.set. rw view_lookup // El /=. unfold view at 1. by rw Hc fmap_insert.
Qed.

Lemma storeGet_spec now h st k : store_wf st → storeGet now st k = KV.get now (view h st) k.
Proof.
  intros Hwf. unfold storeGet, KV.get. rw view_lookup //.
  destruct (lookup_entry st k) as [[ke [d|r] x]|]; simpl; [..|done].
  - case_decide as Hx; case_match; try done; lia.
  - by case_match.
Qed.

Lemma getValueType_spec now_s h st k :
  store_wf st → getValueType now_s st k = KV.type now_s (view h st) k.
Proof.
  intros Hwf. unfold getValueType, KV.type. rw view_lookup //.
  destruct (lookup_entry st k) as [[ke [d|r] x]|]; simpl; [..|done];
    case_decide as Hx; case_match; try done; lia.
Qed.

Lemma setExpiry_spec h st k x :
  db_wf h st →
  ∃ st', setExpiry st k x = (if decide (is_Some (view h st !! cstr k)) then STORE_OK else STORE_ERR, st')
    ∧ db_wf h st' ∧ view h st' = KV.expire (view h st) k x.
Proof.
  intros [Hwf Ho]. unfold setExpiry, KV.expire. rw view_lookup //.
  pose proof (view_lookup h st k Hwf) as Hv.
  destruct (lookup_entry st k) as [e|] eqn:El; simpl in *.
  - set (f := λ e, mkStoreEntry (key e) (value e) x).
    destruct (set_entry_effect st k e f Hwf El) as (Hwf' & Hc' & rest & Hp & Hp'); [done|].
    eexists. split; [reflexivity|]. split; [split; [done|]|].
    + unfold heap_wf. rw Hp'. eapply (owns_same _ e); [done|]. by rw -Hp.
    + unfold view at 1. rw Hc' fmap_insert /=. apply map_eq. intros k'.
      rw lookup_insert lookup_alter. case_decide; [subst; by rw Hv|done].
  - eexists. split; [reflexivity|]. split; [done|].
    apply map_eq. intros k'. rw lookup_alter. case_decide; [subst; by rw Hv|done].
Qed.

(** *** Appending to a stream *)

Lemma contents_live h st k r x :
  db_wf h st → contents st !! k = Some (VStream r, x) → ∃ s, h !! r = Some s ∧ stream_ok s.
Proof.
  intros [Hwf [_ Hl Hok]] He%contents_elem; [|done].
  assert (is_Some (h !! r)) as [s Hs].
  { apply Hl, list_elem_of_omap. by eexists. }
  exists s. split; [done|]. by eapply Hok.
Qed.

Lemma view_update h st k r x s' :
  db_wf h st → contents st !! k = Some (VStream r, x) →
  view (<[r := s']> h) st = <[k := (KStream s', x)]> (view h st).
Proof.
  intros [Hwf Ho] Hk. apply map_eq. intros k'. rw lookup_insert. case_decide as Hkk.
  - subst k'. unfold view. rw lookup_fmap Hk /= /deref_item /=. by rw lookup_insert_eq.
  - eapply view_other; [done..| |done]. intros r' Hr. by rw lookup_insert_ne.
Qed.

Lemma view_fresh h st s :
  db_wf h st → view (<[fresh (dom h) := s]> h) st = view h st.
Proof.
  intros Hdb. apply map_eq. intros k. unfold view. rw !lookup_fmap.
  destruct (contents st !! k) as [[[d|r] x]|] eqn:Ek; [done| |done].
  destruct (contents_live h st k r x Hdb Ek) as (s' & Hs & _).
  rw /= /deref_item /= lookup_insert_ne //. intros <-.
  assert (h !! fresh (dom h) = None) by by apply not_elem_of_dom, is_fresh. congruence.
Qed.

(** Appending to a stream the table points to. *)
Lemma stream_write_spec now h st k r x id fs vs :
  db_wf h st → in_u64 now → contents st !! k = Some (VStream r, x) →
  ∃ s reply s' w, h !! r = Some s ∧ streamAdd now s id fs vs = Ok (reply, s', w)
    ∧ db_wf (<[r := s']> h) st
    ∧ view (<[r := s']> h) st = <[k := (KStream s', x)]> (view h st).
Proof.
  intros Hdb Hn Hk. destruct (contents_live h st k r x Hdb Hk) as (s & Hs & Hok).
  destruct (streamAdd_defined now s id fs vs Hok Hn) as (reply & s' & w & E & Hok').
  exists s, reply, s', w. split; [done|]. split; [done|]. split; [|by apply view_update].
  destruct Hdb as [Hwf Ho]. split; [done|]. by apply owns_update; [|eexists|].
Qed.

Lemma storeStreamAdd_spec now j h st k id fs vs :
  db_wf h st → in_u64 now →
  match KV.xadd now j (view h st) k id fs vs with
  | Ok (reply, woke, m) =>
      ∃ h' st', storeStreamAdd now j h st k id fs vs = Ok (reply, woke, h', st')
        ∧ db_wf h' st' ∧ view h' st' = m
  | UB => storeStreamAdd now j h st k id fs vs = UB
  | Diverge => False
  end.
Proof.
  intros Hdb Hn. pose proof Hdb as [Hwf Ho]. unfold KV.xadd, storeStreamAdd.
  pose proof (contents_lookup st k Hwf) as Hc. rw view_lookup //.
  destruct (lookup_entry st k) as [[ke [d|r] x]|] eqn:El; simpl in *; [done|..].
  - destruct (stream_write_spec now h st (cstr k) r x id fs vs Hdb Hn Hc)
      as (s & reply & s' & w & Hs & E & Hdb' & Hv).
    rw Hs /= E /=. by eexists _, _.
  - set (r := fresh (dom h)). destruct (push_new st k (VStream r) (junk_int j) Hwf El)
      as (Hwf1 & Hc1 & Hp1). set (st1 := push_entry st _) in *.
    assert (Hdb1 : db_wf (<[r := createStream]> h) st1).
    { split; [done|]. unfold heap_wf. rw Hp1. by apply owns_alloc. }
    destruct (stream_write_spec now _ st1 (cstr k) r (junk_int j) id fs vs Hdb1 Hn)
      as (s & reply & s' & w & Hs & E & Hdb' & Hv); [by rw Hc1 lookup_insert_eq|].
    rw lookup_insert_eq in Hs. injection Hs as <-. rw lookup_insert_eq /= E /=.
    eexists _, _. split; [reflexivity|]. split; [done|].
    rw Hv. unfold view at 1. rw Hc1 fmap_insert insert_insert_eq. f_equal. by apply view_fresh.
Qed.

(** *** Dropping the expired *)

Lemma filter_split_perm (f : StoreEntry → bool) l :
  l ≡ₚ filter (λ e, f e = true) l ++ filter (λ e, f e = false) l.
Proof.
  induction l as [|e l IH]; [done|]. rw !filter_cons.
  destruct (f e); simpl; repeat case_decide; try done; rw {1}IH; solve_Permutation.
Qed.

Lemma placed_filter (P : StoreEntry → Prop) `{!∀ x, Decision (P x)} t :
  placed t → placed (map (filter P) t).
Proof.
  intros Ht i b e Hi He. rw length_map. apply list_lookup_fmap_Some in Hi as (b' & -> & Hi).
  apply list_elem_of_filter in He as [_ He]. by eapply Ht.
Qed.

Lemma free_all_other gone h r :
  r ∉ omap ref_of gone → fold_left (λ h e, free_value h (value e)) gone h !! r = h !! r.
Proof.
  revert h. induction gone as [|e gone IH]; intros h Hr; simpl; [done|]. rw IH.
  - unfold free_value. destruct (value e) as [d|r'] eqn:Ev; [done|].
    apply lookup_delete_ne. intros ->. apply Hr. simpl. unfold ref_of. rw Ev. by left.
  - intros Hin. apply Hr. simpl. case_match; [by right|done].
Qed.

Lemma clearExpired_table now_s h st :
  concat (table (clearExpired now_s h st).2) =
  filter (λ e, expired_at now_s e = false) (concat (table st)).
Proof. apply concat_filter. Qed.

Lemma clearExpired_wf now_s h st :
  db_wf h st → db_wf (clearExpired now_s h st).1 (clearExpired now_s h st).2.
Proof.
  intros [Hwf Ho]. pose proof Hwf as [[n Hs] Hpl Hn Hus].
  pose proof (filter_split_perm (expired_at now_s) (concat (table st))) as Hp.
  split; [split|]; unfold heap_wf, keys; rw ?clearExpired_table.
  - exists n. by rw /= length_map.
  - by apply placed_filter.
  - rw (keys_perm _ _ Hp) map_app in Hn. by apply NoDup_app in Hn as (_ & _ & ?).
  - rw /= Hus. rw {1}Hp. lens.
  - apply owns_free_all. by rw -Hp.
Qed.

Lemma clearExpired_contents now_s h st k :
  db_wf h st →
  contents (clearExpired now_s h st).2 !! k =
  (contents st !! k) ≫= λ i, if expired_at now_s (mkStoreEntry k i.1 i.2) then None else Some i.
Proof.
  intros Hdb. pose proof (clearExpired_wf now_s h st Hdb) as [Hwf' _]. destruct Hdb as [Hwf _].
  apply option_eq. intros [v x].
  rw contents_elem // clearExpired_table list_elem_of_filter -contents_elem //.
  destruct (contents st !! k) as [[v' x']|]; simpl; [|naive_solver].
  split.
  - by intros [He [= -> ->]]; rw He.
  - by case_match; intros [= -> ->].
Qed.

Lemma clearExpired_spec now_s h st :
  db_wf h st →
  view (clearExpired now_s h st).1 (clearExpired now_s h st).2 = KV.clear now_s (view h st).
Proof.
  intros Hdb. apply map_eq. intros k. unfold view, KV.clear.
  rw lookup_fmap clearExpired_contents // map_lookup_filter lookup_fmap.
  destruct (contents st !! k) as [[v x]|] eqn:Ek; simpl; [|done].
  destruct (expired_at now_s (mkStoreEntry k v x)) eqn:Ex; unfold expired_at in Ex; simpl in Ex.
  - case_guard as Hg; [|done]. simpl in Hg. lia.
  - case_guard as Hg; [|simpl in Hg; lia]. simpl. f_equal.
    destruct v as [d|r]; [done|]. rw /deref_item /= free_all_other //.
    destruct Hdb as [Hwf [Hon _ _]].
    rw (filter_split_perm (expired_at now_s) (concat (table st))) omap_app in Hon.
    apply NoDup_app in Hon as (_ & Hd & _). intros Hin. apply (Hd _ Hin).
    apply list_elem_of_omap. exists (mkStoreEntry k (VStream r) x). split; [|done].
    apply list_elem_of_filter. split; [unfold expired_at; simpl; lia|].
    by apply contents_elem.
Qed.

(** ** Sequences of operations *)

(** The calls that change the store, with what they read from outside. *)
Inductive store_op :=
| OpSet (k v : bytes)
| OpExpire (k : bytes) (x : Z)
| OpXadd (now : Z) (j : junk) (k id : bytes) (fields values : list bytes)
| OpClear (now_s : Z).

Definition op_ok (o : store_op) : Prop :=
  match o with OpXadd now _ _ _ _ _ => in_u64 now | _ => True end.

Definition run_op (d : heap * RedisStore) (o : store_op) : res (heap * RedisStore) :=
  let '(h, st) := d in
  match o with
  | OpSet k v => let '(_, h', st') := storeSet h st k v in Ok (h', st')
  | OpExpire k x => Ok (h, (setExpiry st k x).2)
  | OpXadd now j k id fs vs =>
      '(_, _, h', st') ← storeStreamAdd now j h st k id fs vs; Ok (h', st')
  | OpClear now_s => Ok (clearExpired now_s h st)
  end.

Definition spec_op (m : KV.state) (o : store_op) : res KV.state :=
  match o with
  | OpSet k v => Ok (KV.set m k v)
  | OpExpire k x => Ok (KV.expire m k x)
  | OpXadd now j k id fs vs => '(_, _, m') ← KV.xadd now j m k id fs vs; Ok m'
  | OpClear now_s => Ok (KV.clear now_s m)
  end.

Fixpoint run_ops (d : heap * RedisStore) (l : list store_op) : res (heap * RedisStore) :=
  match l with [] => Ok d | o :: l' => d' ← run_op d o; run_ops d' l' end.

Fixpoint spec_ops (m : KV.state) (l : list store_op) : res KV.state :=
  match l with [] => Ok m | o :: l' => m' ← spec_op m o; spec_ops m' l' end.

(** A concrete store that implements an abstract one. *)
Definition implements (r : res (heap * RedisStore)) (m : res KV.state) : Prop :=
  match m with
  | Ok m => ∃ h st, r = Ok (h, st) ∧ db_wf h st ∧ view h st = m
  | UB => r = UB
  | Diverge => False
  end.

Lemma run_op_implements h st o :
  db_wf h st → op_ok o → implements (run_op (h, st) o) (spec_op (view h st) o).
Proof.
  intros Hdb Ho. destruct o as [k v|k x|now j k id fs vs|now_s]; simpl.
  - destruct (storeSet_spec h st k v Hdb) as (h' & st' & -> & ? & ?). by eexists _, _.
  - destruct (setExpiry_spec h st k x Hdb) as (st' & -> & ? & ?). by eexists _, _.
  - pose proof (storeStreamAdd_spec now j h st k id fs vs Hdb Ho) as H.
    destruct (KV.xadd now j (view h st) k id fs vs) as [[[reply w] m]| |]; simpl; [|by rw H|done].
    destruct H as (h' & st' & -> & ? & ?). by eexists _, _.
  - pose proof (clearExpired_wf now_s h st Hdb). pose proof (clearExpired_spec now_s h st Hdb).
    destruct (clearExpired now_s h st) as [h' st']. by eexists _, _.
Qed.

Lemma run_ops_implements h st l :
  db_wf h st → Forall op_ok l → implements (run_ops (h, st) l) (spec_ops (view h st) l).
Proof.
  intros Hdb Hl. revert h st Hdb. induction Hl as [|o l Ho _ IH]; intros h st Hdb.
  - by eexists _, _.
  - pose proof (run_op_implements h st o Hdb Ho) as H. cbn [run_ops spec_ops].
    destruct (spec_op (view h st) o) as [m| |]; simpl in *; [|by rw H|done].
    destruct H as (h' & st' & -> & Hdb' & <-). by apply IH.
Qed.

(** *** Counting *)

Lemma contents_size st : store_wf st → Z.of_nat (base.size (contents st)) = used st.
Proof.
  intros Hwf. unfold contents, map_of. rw map_size_list_to_map; [|rw kv_keys; apply Hwf].
  by rw length_map (wf_used st Hwf).
Qed.

(** Chains hold three quarters of an entry on average, plus the entry that
    passed the threshold. *)
Definition load_wf (st : RedisStore) : Prop := 4 * used st ≤ 3 * size st + 4.

Lemma round_f32_small z : z < 2 ^ 24 → round_f32 z = z.
Proof. intros Hz. unfold round_f32. case_match; [done|lia]. Qed.

Lemma storeSet_load h st k v :
  store_wf st → used st < 2 ^ 24 → size st < 2 ^ 24 → load_wf st →
  load_wf (storeSet h st k v).2.
Proof.
  intros Hwf Hu Hz Hl. unfold storeSet, load_exceeded, load_wf in *.
  rw !round_f32_small //. pose proof (wf_length_pos st Hwf) as Hpos.
  destruct (wf_size st Hwf) as [n Hn]. unfold INITIAL_STORE_SIZE in Hn.
  set (st1 := if _ <? _ then _ else _).
  assert (H1 : 4 * used st1 ≤ 3 * size st1).
  { subst st1. case_match; [|unfold size in *; lia].
    unfold size in *. destruct (resize_effect st Hwf) as (_ & _ & _ & ->). simpl. lia. }
  clearbody st1. destruct (lookup_entry st1 k); unfold size in *; simpl.
  - rw length_alter. lia.
  - rw length_push. lia.
Qed.

(** *** A store used by the witnesses *)

Definition ex_ops : list store_op :=
  [OpSet (bs "k") (bs "v"); OpXadd 9 Zeroed (bs "s") (bs "5-1") [bs "f"] [bs "1"];
   OpExpire (bs "k") 5000; OpSet (bs "n") (bs "41")].

Definition ex_db : heap * RedisStore :=
  match run_ops (∅, createStore) ex_ops with Ok d => d | _ => (∅, createStore) end.

Lemma ex_ops_ok : Forall op_ok ex_ops.
Proof. repeat constructor; vm_compute; congruence. Qed.

Lemma ex_db_run : is_ok (run_ops (∅, createStore) ex_ops) = true.
Proof. vm_compute. reflexivity. Qed.

Lemma ex_db_wf : db_wf ex_db.1 ex_db.2.
Proof.
  pose proof (run_ops_implements ∅ createStore ex_ops createStore_wf ex_ops_ok) as H.
  pose proof ex_db_run as E. unfold ex_db, implements in *.
  destruct (run_ops _ ex_ops) as [d| |]; [|done..].
  destruct (spec_ops _ ex_ops) as [m| |]; [|done..].
  destruct H as (h & st & Ed & Hdb & _). injection Ed as ->. exact Hdb.
Qed.

(** ** Properties *)

(** C4. The hash table with its buckets, growth, counts and stream pointers
    implements a finite map.  Any sequence of SETs, expiries, XADDs and expiry
    sweeps from the empty store goes exactly as on the map, up to and including
    the point where it is undefined; the invariant holds throughout, so that
    every key sits in its bucket once, no stream pointer dangles and no stream
    leaks; and GET and TYPE answer from the map. *)
Theorem store_refines_map l :
  Forall op_ok l →
  match spec_ops KV.empty l with
  | Ok m =>
      ∃ h st, run_ops (∅, createStore) l = Ok (h, st) ∧ db_wf h st ∧ view h st = m
        ∧ (∀ now k, storeGet now st k = KV.get now m k)
        ∧ (∀ now_s k, getValueType now_s st k = KV.type now_s m k)
  | UB => run_ops (∅, createStore) l = UB
  | Diverge => False
  end.
Proof.
  intros Hl. pose proof (run_ops_implements ∅ createStore l createStore_wf Hl) as H.
  rw createStore_view in H. destruct (spec_ops KV.empty l) as [m| |]; simpl in H; try done.
  destruct H as (h & st & E & Hdb & <-). exists h, st.
  split; [done|]. split; [done|]. split; [done|].
  split; intros; [by apply storeGet_spec, Hdb|by apply getValueType_spec, Hdb].
Qed.

Lemma store_refines_map_witness :
  match spec_ops KV.empty ex_ops with
  | Ok m =>
      ∃ h st, run_ops (∅, createStore) ex_ops = Ok (h, st) ∧ db_wf h st ∧ view h st = m
        ∧ (∀ now k, storeGet now st k = KV.get now m k)
        ∧ (∀ now_s k, getValueType now_s st k = KV.type now_s m k)
  | UB => run_ops (∅, createStore) ex_ops = UB
  | Diverge => False
  end.
Proof. apply store_refines_map, ex_ops_ok. Defined.

(** After SET, GET of the same key answers the value just written unless an
    expiry left by an earlier SET has passed, and GET of any other key answers
    what it did before. *)
Theorem store_get_after_set h st k v now k' :
  db_wf h st →
  storeGet now (storeSet h st k v).2 k' =
  if decide (cstr k' = cstr k) then
    match view h st !! cstr k with
    | Some (_, x) => if decide (x ≠ 0 ∧ x ≤ now) then None else Some v
    | None => Some v
    end
  else storeGet now st k'.
Proof.
  intros Hdb. destruct (storeSet_spec h st k v Hdb) as (h' & st' & -> & [Hwf' _] & Hv).
  rw /= (storeGet_spec now h') // Hv (storeGet_spec now h); [|apply Hdb].
  unfold KV.get, KV.set.
  destruct (decide (cstr k' = cstr k)) as [->|Hne]; [|by rw lookup_insert_ne].
  rw lookup_insert_eq. by destruct (view h st !! cstr k) as [[w x]|].
Qed.

Lemma store_get_after_set_witness :
  storeGet 4000 (storeSet ex_db.1 ex_db.2 (bs "k") (bs "w")).2 (bs "k") = Some (bs "w")
  ∧ storeGet 6000 (storeSet ex_db.1 ex_db.2 (bs "k") (bs "w")).2 (bs "k") = None.
Proof. split; rw store_get_after_set; try apply ex_db_wf; vm_compute; reflexivity. Defined.

(** Growing the table keeps the contents, the count and the invariant, and
    doubles the number of buckets. *)
Theorem store_resize_preserves h st :
  db_wf h st →
  db_wf h (resize st) ∧ view h (resize st) = view h st
  ∧ used (resize st) = used st ∧ size (resize st) = 2 * size st.
Proof.
  intros [Hwf Ho]. destruct (resize_effect st Hwf) as (Hwf' & Hc & Hp & Hl).
  split; [split; [done|unfold heap_wf; by rw Hp]|]. split; [by rw /view Hc|].
  split; [done|]. unfold size. rw Hl. lia.
Qed.

Lemma store_resize_preserves_witness :
  db_wf ex_db.1 (resize ex_db.2) ∧ view ex_db.1 (resize ex_db.2) = view ex_db.1 ex_db.2
  ∧ used (resize ex_db.2) = used ex_db.2 ∧ size (resize ex_db.2) = 2 * size ex_db.2.
Proof. apply store_resize_preserves, ex_db_wf. Defined.

(** The count is the number of keys, and SET keeps the load factor below
    three quarters plus the entry that passes the threshold (up to 2^24
    entries, beyond which the single-precision quotient is rounded). *)
Theorem store_load_bounded h st k v :
  db_wf h st → used st < 2 ^ 24 → size st < 2 ^ 24 → load_wf st →
  let st' := (storeSet h st k v).2 in
  storeSize st' = Z.of_nat (base.size (contents st')) ∧ load_wf st'.
Proof.
  intros Hdb Hu Hz Hl st'. split; [|by apply storeSet_load, Hl; [apply Hdb|..]].
  destruct (storeSet_spec h st k v Hdb) as (h1 & st1 & E & [Hwf1 _] & _).
  subst st'. rw E. symmetry. by apply contents_size.
Qed.

Lemma store_load_bounded_witness :
  let st' := (storeSet ex_db.1 ex_db.2 (bs "z") (bs "1")).2 in
  storeSize st' = Z.of_nat (base.size (contents st')) ∧ load_wf st'.
Proof. apply store_load_bounded; [apply ex_db_wf|vm_compute; congruence..]. Defined.

(** The expiry sweep removes exactly the entries whose expiry is before the
    clock it is given, and frees exactly their streams. *)
Theorem store_clear_expired now_s h st :
  db_wf h st →
  let h' := (clearExpired now_s h st).1 in
  let st' := (clearExpired now_s h st).2 in
  db_wf h' st' ∧ view h' st' = KV.clear now_s (view h st)
  ∧ storeSize st' = Z.of_nat (base.size (KV.clear now_s (view h st))).
Proof.
  intros Hdb h' st'. pose proof (clearExpired_wf now_s h st Hdb) as Hdb'.
  split; [done|]. split; [by apply clearExpired_spec|].
  rw -clearExpired_spec // /view map_size_fmap. symmetry. apply contents_size, Hdb'.
Qed.

Lemma store_clear_expired_witness :
  let h' := (clearExpired 6000 ex_db.1 ex_db.2).1 in
  let st' := (clearExpired 6000 ex_db.1 ex_db.2).2 in
  db_wf h' st' ∧ view h' st' = KV.clear 6000 (view ex_db.1 ex_db.2)
  ∧ storeSize st' = Z.of_nat (base.size (KV.clear 6000 (view ex_db.1 ex_db.2))).
Proof. apply store_clear_expired, ex_db_wf. Defined.

(** GET compares the expiry with a clock in milliseconds, TYPE and the sweep
    with one in seconds: a key that GET no longer finds because its expiry has
    passed keeps its type and survives every sweep until the clock in seconds
    reaches the expiry in milliseconds. *)
Theorem store_expiry_units_differ now h st k d x :
  db_wf h st → view h st !! cstr k = Some (KString d, x) →
  0 < x ≤ now → now / 1000 ≤ x →
  storeGet now st k = None
  ∧ getValueType (now / 1000) st k = TYPE_STRING
  ∧ view (clearExpired (now / 1000) h st).1 (clearExpired (now / 1000) h st).2 !! cstr k
    = Some (KString d, x).
Proof.
  intros Hdb Hk Hx Hs. pose proof Hdb as [Hwf _].
  rw (storeGet_spec now h) // (getValueType_spec _ h) // clearExpired_spec //.
  unfold KV.get, KV.type, KV.clear. rw Hk. repeat case_decide; try lia. split; [done|].
  split; [done|]. apply map_lookup_filter_Some. split; [done|]. simpl. lia.
Qed.

Lemma store_expiry_units_differ_witness :
  storeGet 1000000 ex_db.2 (bs "k") = None
  ∧ getValueType (1000000 / 1000) ex_db.2 (bs "k") = TYPE_STRING
  ∧ view (clearExpired (1000000 / 1000) ex_db.1 ex_db.2).1
      (clearExpired (1000000 / 1000) ex_db.1 ex_db.2).2 !! cstr (bs "k")
    = Some (KString (bs "v"), 5000).
Proof.
  apply store_expiry_units_differ; [apply ex_db_wf|vm_compute; reflexivity|lia|lia].
Defined.

(** XADD to a key that holds a string has no defined behaviour, whatever the
    arguments: the entry's string pointer is used as a stream. *)
Theorem store_xadd_on_string now j h st k id fs vs d x :
  db_wf h st → in_u64 now → view h st !! cstr k = Some (KString d, x) →
  storeStreamAdd now j h st k id fs vs = UB.
Proof.
  intros Hdb Hn Hk. pose proof (storeStreamAdd_spec now j h st k id fs vs Hdb Hn) as H.
  unfold KV.xadd in H. by rw Hk in H.
Qed.

Lemma store_xadd_on_string_witness :
  storeStreamAdd 9 Zeroed ex_db.1 ex_db.2 (bs "k") (bs "*") [] [] = UB.
Proof.
  apply (store_xadd_on_string _ _ _ _ _ _ _ _ (bs "v") 5000);
    [apply ex_db_wf|done|vm_compute; reflexivity].
Defined.

(** XADD with an identifier that does not parse, to a key that does not
    exist, answers [NULL] and still creates the key with an empty stream. *)
Theorem store_xadd_failure_creates now j h st k id fs vs :
  db_wf h st → in_u64 now → view h st !! cstr k = None → parseStreamID now id = None →
  ∃ h' st', storeStreamAdd now j h st k id fs vs = Ok (None, false, h', st')
    ∧ view h' st' = <[cstr k := (KStream createStream, junk_int j)]> (view h st).
Proof.
  intros Hdb Hn Hk Hid. pose proof (storeStreamAdd_spec now j h st k id fs vs Hdb Hn) as H.
  unfold KV.xadd, streamAdd in H. rw Hk Hid /= in H.
  destruct H as (h' & st' & E & _ & Hv). by exists h', st'.
Qed.

Lemma store_xadd_failure_creates_witness :
  ∃ h' st', storeStreamAdd 9 Zeroed ex_db.1 ex_db.2 (bs "q") (bs "x") [] [] = Ok (None, false, h', st')
    ∧ view h' st' = <[cstr (bs "q") := (KStream createStream, junk_int Zeroed)]> (view ex_db.1 ex_db.2).
Proof.
  apply store_xadd_failure_creates; [apply ex_db_wf|done|vm_compute; reflexivity|reflexivity].
Defined.
