(* ===== verification/Rdb.v ===== *)
(** * The RDB file reader (app/rdb.c, app/rdb.h)

    An open file is the list of bytes that [fread] has not returned yet: a
    read of [n] bytes takes what is there, and a short read consumes the rest
    of the file.  The file system is a function from path to contents.  The
    two scanning loops take fuel, and run out of it only where the C loop
    does not end: [findDatabaseSection_total] and [value_loop_fuel] give the
    fuel that is enough.  A file format ([rdb_file]) states which files the
    reader is meant for, and the round trips are stated against it. *)
From S2P Require Import Prelude.
From S2P Require Import CLib.
From S2P Require Import Resp.

(** ** Constants *)
Definition RDB_MAGIC : bytes := bs "REDIS".
Definition RDB_VERSION : bytes := bs "0011".
Definition RDB_MAGIC_LEN : nat := 5.
Definition RDB_VERSION_LEN : nat := 4.
Definition RDB_TYPE_MASK : Z := 192.
Definition RDB_TYPE_SHIFT : Z := 6.
Definition RDB_LENGTH_MASK : Z := 63.
Definition RDB_LEN_6BIT : Z := 0.
Definition RDB_LEN_14BIT : Z := 1.
Definition RDB_LEN_32BIT : Z := 2.
Definition RDB_DATABASE_START : Z := 254.
Definition RDB_HASHTABLE_SIZE : Z := 251.
Definition RDB_EXPIRE_SEC : Z := 253.
Definition RDB_EXPIRE_MS : Z := 252.
Definition RDB_EOF : Z := 255.
Definition RDB_TYPE_STRING : Z := 0.
Definition RDB_ENC_INT8 : Z := 192.
Definition RDB_ENC_INT16 : Z := 193.
Definition RDB_ENC_INT32 : Z := 194.

(** ** The reader *)

Record RdbReader := mkRdbReader { fp : bytes; filename : bytes; pos : Z }.

(** [fs] is the file system: [fopen] of a path gives its contents. *)
Definition createRdbReader (fs : bytes → option bytes) (dir filename : bytes) : option RdbReader :=
  let fullPath := cstr dir ++ bs "/" ++ cstr filename in
  contents ← fs fullPath;
  Some (mkRdbReader contents fullPath 0).

(** [fread] of [n] bytes: what it stored, and whether it got all of them. *)
Definition fread (n : nat) (r : RdbReader) : bytes * RdbReader :=
  (take n (fp r), mkRdbReader (drop n (fp r)) (filename r) (pos r)).
Definition advance (n : nat) (r : RdbReader) : RdbReader :=
  mkRdbReader (fp r) (filename r) (pos r + Z.of_nat n).
Definition short (n : nat) (b : bytes) : bool := negb (Nat.eqb (length b) n).

(** The number whose little-endian (big-endian) representation is [b]. *)
Definition le_number (b : bytes) : Z := foldr (λ c n, ucode c + 256 * n) 0 b.
Definition be_number (b : bytes) : Z := le_number (rev b).

Definition readByte (r : RdbReader) : Z * RdbReader :=
  let '(b, r) := fread 1 r in
  if short 1 b then (0, r) else (le_number b, advance 1 r).

(** The host is little-endian, so [ntohl] makes the value the big-endian
    reading of the four bytes; [readUint64] does no conversion. *)
Definition readUint32 (r : RdbReader) : Z * RdbReader :=
  let '(b, r) := fread 4 r in
  if short 4 b then (0, r) else (be_number b, advance 4 r).
Definition readUint64 (r : RdbReader) : Z * RdbReader :=
  let '(b, r) := fread 8 r in
  if short 8 b then (0, r) else (le_number b, advance 8 r).

Definition readLength (r : RdbReader) : Z * RdbReader :=
  let '(byte, r) := readByte r in
  let type := Z.shiftr (Z.land byte RDB_TYPE_MASK) RDB_TYPE_SHIFT in
  if type =? RDB_LEN_6BIT then (Z.land byte RDB_LENGTH_MASK, r)
  else if type =? RDB_LEN_14BIT then
    let '(low, r) := readByte r in
    (Z.lor (Z.shiftl (Z.land byte RDB_LENGTH_MASK) 8) low, r)
  else if type =? RDB_LEN_32BIT then readUint32 r
  else (0, r).

(** The string ([None] for [NULL]) and the length the caller is given. *)
Definition readString (r : RdbReader) : option bytes * Z * RdbReader :=
  let '(len, r) := readLength r in
  if len =? 0 then (None, len, r)
  else
    let n := Z.to_nat len in
    let '(str, r) := fread n r in
    if short n str then (None, len, r) else (Some str, len, advance n r).

(** [jv] is what the local [val] holds after a short read of it. *)
Definition readEncodedString (jv : Z) (r : RdbReader) : option bytes * option Z * RdbReader :=
  let '(byte, r) := readByte r in
  if Z.shiftr (Z.land byte 192) 6 =? 3 then
    let finish (num : Z) (r : RdbReader) :=
      let numStr := snprintf 32 (print_s num) in
      (Some numStr, Some (Z.of_nat (length numStr)), r) in
    if byte =? RDB_ENC_INT8 then let '(val, r) := readByte r in finish val r
    else if byte =? RDB_ENC_INT16 then
      let '(b, r) := fread 2 r in
      finish (if short 2 b then jv mod 2 ^ 16 else be_number b) (advance 2 r)
    else if byte =? RDB_ENC_INT32 then
      let '(b, r) := fread 4 r in
      finish (s32 (if short 4 b then jv else be_number b)) (advance 4 r)
    else (None, None, r)
  else let '(str, len, r) := readString r in (str, Some len, r).

Definition validateHeader (r : RdbReader) : bool * RdbReader :=
  let '(magic, r) := fread RDB_MAGIC_LEN r in
  if short RDB_MAGIC_LEN magic then (false, r)
  else
    let r := advance RDB_MAGIC_LEN r in
    if negb (strcmp_eq magic RDB_MAGIC) then (false, r)
    else
      let '(version, r) := fread RDB_VERSION_LEN r in
      if short RDB_VERSION_LEN version then (false, r)
      else (strcmp_eq version RDB_VERSION, advance RDB_VERSION_LEN r).

(** The loop of [findDatabaseSection]: at the end of the file [readByte]
    returns 0 for ever. *)
Fixpoint find_section (fuel : nat) (r : RdbReader) : res (bool * RdbReader) :=
  match fuel with
  | O => Diverge
  | S fuel' =>
      let '(type, r) := readByte r in
      if type =? RDB_EOF then Ok (false, r)
      else if type =? RDB_DATABASE_START then
        let r := (readLength r).2 in
        let '(b, r) := readByte r in
        Ok (true, if b =? RDB_HASHTABLE_SIZE then (readLength (readLength r).2).2 else r)
      else find_section fuel' r
  end.
Definition section_fuel (r : RdbReader) : nat := S (length (fp r)).
Definition findDatabaseSection (r : RdbReader) : res (bool * RdbReader) :=
  find_section (section_fuel r) r.

(** [!validateHeader(reader) || !findDatabaseSection(reader)], negated. *)
Definition open_database (r : RdbReader) : res (bool * RdbReader) :=
  let '(ok, r) := validateHeader r in
  if ok then findDatabaseSection r else Ok (false, r).

Definition skipRdbValue (r : RdbReader) : RdbReader := (readString r).2.

(** The expiry in front of an entry, 0 for none, and the entry's type.  The
    product is one of two [uint32_t]: it wraps before it is widened. *)
Definition readExpiry (type : Z) (r : RdbReader) : Z * Z * RdbReader :=
  if type =? RDB_EXPIRE_MS then
    let '(expiry, r) := readUint64 r in
    let '(type, r) := readByte r in (expiry, type, r)
  else if type =? RDB_EXPIRE_SEC then
    let '(seconds, r) := readUint32 r in
    let '(type, r) := readByte r in (u32 (seconds * 1000), type, r)
  else (0, type, r).

(** The entries loop of [getRdbValue]. *)
Fixpoint value_loop (fuel : nat) (now : Z) (targetKey : bytes) (r : RdbReader)
    : res (option bytes) :=
  match fuel with
  | O => Diverge
  | S fuel' =>
      let '(type, r) := readByte r in
      if type =? RDB_EOF then Ok None
      else
        let '(expiry, type, r) := readExpiry type r in
        let '(keyStr, keyLen, r) := readString r in
        match keyStr with
        | None => Ok None
        | Some keyStr =>
            let keyMatch := (Z.of_nat (strlen targetKey) =? keyLen)
                            && bool_decide (keyStr = take (Z.to_nat keyLen) (cstr targetKey)) in
            if type =? RDB_TYPE_STRING then
              let '(value, _, r) := readString r in
              if keyMatch then
                if (0 <? expiry) && (expiry <=? now) then Ok None else Ok value
              else value_loop fuel' now targetKey r
            else value_loop fuel' now targetKey r
        end
  end.
Definition getRdbValue (now : Z) (targetKey : bytes) (r : RdbReader) : res (option bytes) :=
  '(ok, r) ← open_database r;
  if ok : bool then value_loop (section_fuel r) now targetKey r else Ok None.

(** The entries loop of [getRdbKeys]; [None] is its [NULL]. *)
Fixpoint keys_loop (fuel : nat) (r : RdbReader) : res (list RespValue) :=
  match fuel with
  | O => Diverge
  | S fuel' =>
      let '(type, r) := readByte r in
      if type =? RDB_EOF then Ok []
      else
        let '(_, type, r) := readExpiry type r in
        let '(keyStr, _, r) := readString r in
        match keyStr with
        | None => Ok []
        | Some keyStr =>
            let r := if type =? RDB_TYPE_STRING then skipRdbValue r else r in
            cons (createRespString keyStr) <$> keys_loop fuel' r
        end
  end.
Definition getRdbKeys (r : RdbReader) : res (option (list RespValue)) :=
  '(ok, r) ← open_database r;
  if ok : bool then Some <$> keys_loop (section_fuel r) r else Ok None.

(** ** The files the reader is meant for *)

(** Numbers as the file holds them. *)
Fixpoint le_bytes (n : nat) (z : Z) : bytes :=
  match n with O => [] | S n' => chr (z mod 256) :: le_bytes n' (z / 256) end.
Definition be_bytes (n : nat) (z : Z) : bytes := rev (le_bytes n z).

Definition rdb_length (n : Z) : bytes :=
  if n <? 64 then [chr n]
  else if n <? 2 ^ 14 then [chr (64 + n / 256); chr (n mod 256)]
  else chr 128 :: be_bytes 4 n.
Definition rdb_string (s : bytes) : bytes := rdb_length (Z.of_nat (length s)) ++ s.

Inductive rdb_expiry := NoExpiry | ExpiryMs (t : Z) | ExpirySec (t : Z).
Record rdb_entry := mkEntry { e_expiry : rdb_expiry; e_key : bytes; e_value : bytes }.

Definition rdb_expiry_bytes (x : rdb_expiry) : bytes :=
  match x with
  | NoExpiry => []
  | ExpiryMs t => chr RDB_EXPIRE_MS :: le_bytes 8 t
  | ExpirySec t => chr RDB_EXPIRE_SEC :: be_bytes 4 t
  end.
Definition rdb_entry_bytes (e : rdb_entry) : bytes :=
  rdb_expiry_bytes (e_expiry e) ++ chr RDB_TYPE_STRING :: rdb_string (e_key e)
    ++ rdb_string (e_value e).
Definition rdb_section (db n m : Z) (es : list rdb_entry) (rest : bytes) : bytes :=
  chr RDB_DATABASE_START :: rdb_length db ++ chr RDB_HASHTABLE_SIZE :: rdb_length n
    ++ rdb_length m ++ concat (map rdb_entry_bytes es) ++ chr RDB_EOF :: rest.
Definition rdb_file (meta : bytes) (db n m : Z) (es : list rdb_entry) (rest : bytes) : bytes :=
  RDB_MAGIC ++ RDB_VERSION ++ meta ++ rdb_section db n m es rest.

(** The instant the reader takes for the expiry of an entry. *)
Definition expiry_ms (x : rdb_expiry) : Z :=
  match x with NoExpiry => 0 | ExpiryMs t => t | ExpirySec t => u32 (t * 1000) end.
(** What a lookup of [k] is meant to return: the value of the first entry for
    [k], if it has not expired and is not empty. *)
Definition rdb_lookup (now : Z) (k : bytes) (es : list rdb_entry) : option bytes :=
  e ← head (filter (λ e, e_key e = k) es);
  if (0 <? expiry_ms (e_expiry e)) && (expiry_ms (e_expiry e) <=? now) then None
  else if decide (e_value e = []) then None else Some (e_value e).
Definition entry_ok (e : rdb_entry) : Prop :=
  e_key e ≠ [] ∧ Z.of_nat (length (e_key e)) < 2 ^ 32 ∧ Z.of_nat (length (e_value e)) < 2 ^ 32
  ∧ match e_expiry e with
    | NoExpiry => True | ExpiryMs t => in_u64 t | ExpirySec t => 0 ≤ t < 2 ^ 32
    end.
(** A byte the scan for the database section does not stop at. *)
Definition unmarked (c : ascii) : Prop := ucode c ≠ RDB_EOF ∧ ucode c ≠ RDB_DATABASE_START.
Definition len32 (n : Z) : Prop := 0 ≤ n < 2 ^ 32.

(** ** Numbers *)

Lemma length_le_bytes n z : length (le_bytes n z) = n.
Proof. revert z. induction n as [|n IH]; intros z; simpl; [done|by rw IH]. Qed.

Lemma length_be_bytes n z : length (be_bytes n z) = n.
Proof. by rw /be_bytes length_rev length_le_bytes. Qed.

Lemma le_number_le_bytes n z : 0 ≤ z < 256 ^ Z.of_nat n → le_number (le_bytes n z) = z.
Proof.
  revert z. induction n as [|n IH]; intros z Hz; [simpl in *; lia|].
  rw Nat2Z.inj_succ Z.pow_succ_r in Hz; [|lia].
  cbn [le_bytes le_number foldr]. rw -/(le_number (le_bytes n (z / 256))).
  rw IH; [rw ucode_chr|]; lia.
Qed.

Lemma be_number_be_bytes n z : 0 ≤ z < 256 ^ Z.of_nat n → be_number (be_bytes n z) = z.
Proof. intros Hz. by rw /be_number /be_bytes rev_involutive le_number_le_bytes. Qed.

Lemma high_bits b : 0 ≤ b < 256 → Z.shiftr (Z.land b RDB_TYPE_MASK) RDB_TYPE_SHIFT = b / 64.
Proof.
  intros Hb. rw /RDB_TYPE_MASK /RDB_TYPE_SHIFT Z.shiftr_land (Z.land_ones _ 2); [|lia].
  rw Z.shiftr_div_pow2; [|lia]. change (2 ^ 6) with 64. change (2 ^ 2) with 4. lia.
Qed.

Lemma low_bits b : Z.land b RDB_LENGTH_MASK = b mod 64.
Proof. by rw /RDB_LENGTH_MASK (Z.land_ones _ 6). Qed.

Lemma lor_low a b : 0 ≤ b < 256 → Z.lor (Z.shiftl a 8) b = 256 * a + b.
Proof.
  intros Hb.
  assert (Z.land (Z.shiftl a 8) b = 0) as Hd.
  { apply Z.bits_inj'. intros n Hn. rw Z.land_spec Z.bits_0.
    destruct (Z_lt_le_dec n 8); [by rw Z.shiftl_spec_low|].
    rw -(Z.mod_small b (2 ^ 8)); [|done]. rw (Z.mod_pow2_bits_high b); [|lia].
    by rw andb_false_r. }
  rw -Z.lxor_lor; [|done]. rw -Z.add_nocarry_lxor; [|done].
  rw Z.shiftl_mul_pow2; lia.
Qed.

(** ** The primitive reads *)

Lemma readByte_cons c f n p :
  readByte (mkRdbReader (c :: f) n p) = (ucode c, mkRdbReader f n (p + 1)).
Proof. rw /readByte /= /advance /=. by rw drop_0 Z.mul_0_r Z.add_0_r. Qed.

Lemma readByte_eof n p : readByte (mkRdbReader [] n p) = (0, mkRdbReader [] n p).
Proof. done. Qed.

Lemma fread_app m b f n p :
  length b = m → fread m (mkRdbReader (b ++ f) n p) = (b, mkRdbReader f n p).
Proof. intros <-. by rw /fread /= take_app_length drop_app_length. Qed.

Lemma short_full b : short (length b) b = false.
Proof. by rw /short Nat.eqb_refl. Qed.

Lemma readUint32_be z f n p :
  len32 z → readUint32 (mkRdbReader (be_bytes 4 z ++ f) n p) = (z, mkRdbReader f n (p + 4)).
Proof.
  intros Hz. rw /readUint32 fread_app; [|apply length_be_bytes].
  rw -{1}(length_be_bytes 4 z) short_full be_number_be_bytes; [done|by red in Hz].
Qed.

Lemma readUint64_le z f n p :
  in_u64 z → readUint64 (mkRdbReader (le_bytes 8 z ++ f) n p) = (z, mkRdbReader f n (p + 8)).
Proof.
  intros Hz. rw /readUint64 fread_app; [|apply length_le_bytes].
  rw -{1}(length_le_bytes 8 z) short_full le_number_le_bytes; [done|by red in Hz].
Qed.

#[local] Opaque readByte readUint32 readUint64 be_bytes.

Lemma readLength_rdb z f n p :
  len32 z → ∃ p', readLength (mkRdbReader (rdb_length z ++ f) n p) = (z, mkRdbReader f n p').
Proof.
  intros Hz. red in Hz. rw /rdb_length /readLength.
  destruct (Z.ltb_spec z 64).
  { cbn [app]. rw readByte_cons ucode_chr; [|lia]. rw high_bits; [|lia].
    rw (Z.div_small z); [|lia]. rw low_bits Z.mod_small; [|lia]. eauto. }
  destruct (Z.ltb_spec z (2 ^ 14)).
  { cbn [app]. rw readByte_cons ucode_chr; [|lia]. rw high_bits; [|lia].
    replace ((64 + z / 256) / 64) with 1 by lia. simpl.
    rw readByte_cons ucode_chr; [|lia]. rw low_bits lor_low; [|lia].
    eexists. f_equal. lia. }
  cbn [app]. rw readByte_cons ucode_chr; [|lia]. rw high_bits; [|lia].
  change (128 / 64) with 2. simpl. rw readUint32_be; [|done]. eauto.
Qed.

Lemma rdb_length_short z : (1 ≤ length (rdb_length z))%nat.
Proof. rw /rdb_length. destruct (z <? 64); [done|]. destruct (z <? 2 ^ 14); simpl; lia. Qed.

(** A string of the file, the empty one as [NULL]. *)
Definition as_read (s : bytes) : option bytes := if decide (s = []) then None else Some s.

Lemma readString_rdb s f n p :
  Z.of_nat (length s) < 2 ^ 32 →
  ∃ p', readString (mkRdbReader (rdb_string s ++ f) n p) =
        (as_read s, Z.of_nat (length s), mkRdbReader f n p').
Proof.
  intros Hs. rw /readString /rdb_string -app_assoc /as_read.
  destruct (readLength_rdb (Z.of_nat (length s)) (s ++ f) n p) as [p' ->]; [split; lia|].
  destruct s as [|c s]; [simpl; eauto|].
  rw (_ : (Z.of_nat (length (c :: s)) =? 0) = false); [|simpl; lia].
  rw Nat2Z.id fread_app; [|done]. rw short_full. case_decide; [done|]. eexists. done.
Qed.

#[local] Opaque readLength readString.

Lemma validateHeader_ok f n p :
  validateHeader (mkRdbReader (RDB_MAGIC ++ RDB_VERSION ++ f) n p) = (true, mkRdbReader f n (p + 9)).
Proof.
  rw /validateHeader fread_app; [|done]. rw /= /advance /=.
  rw /RDB_VERSION_LEN -(drop_0 f) /=. by rw -Z.add_assoc !drop_0.
Qed.

(** ** The scan for the database section *)

Lemma find_section_eof fuel n p : find_section fuel (mkRdbReader [] n p) = Diverge.
Proof. induction fuel as [|fuel IH]; simpl; [done|]. by rw readByte_eof /= IH. Qed.

Lemma find_section_step fuel c f n p :
  unmarked c →
  find_section (S fuel) (mkRdbReader (c :: f) n p) = find_section fuel (mkRdbReader f n (p + 1)).
Proof.
  intros [H1 H2]. simpl. rw readByte_cons.
  by rw (proj2 (Z.eqb_neq _ _) H1) (proj2 (Z.eqb_neq _ _) H2).
Qed.

Lemma find_section_skip meta fuel f n p :
  Forall unmarked meta →
  find_section (length meta + fuel) (mkRdbReader (meta ++ f) n p) =
  find_section fuel (mkRdbReader f n (p + Z.of_nat (length meta))).
Proof.
  intros Hm. revert p. induction Hm as [|c meta Hc Hm IH]; intros p; simpl app.
  { simpl. by rw Z.add_0_r. }
  rw [length (c :: meta)]/= Nat.add_succ_l find_section_step; [|done]. rw IH. do 2 f_equal. lia.
Qed.

Lemma find_section_unmarked fuel body n p :
  Forall unmarked body → find_section fuel (mkRdbReader body n p) = Diverge.
Proof.
  intros Hb. revert p fuel. induction Hb as [|c body Hc Hb IH]; intros p fuel.
  { apply find_section_eof. }
  destruct fuel as [|fuel]; [done|]. rw find_section_step; [|done]. apply IH.
Qed.

(** A stop byte ends the scan. *)
Lemma find_section_marked meta c f fuel n p :
  Forall unmarked meta → ¬ unmarked c → (length meta < fuel)%nat →
  is_ok (find_section fuel (mkRdbReader (meta ++ c :: f) n p)) = true.
Proof.
  intros Hm Hc Hf. replace fuel with (length meta + S (fuel - length meta - 1))%nat by lia.
  rw find_section_skip; [|done]. simpl. rw readByte_cons.
  destruct (Z.eqb_spec (ucode c) RDB_EOF); [done|].
  destruct (Z.eqb_spec (ucode c) RDB_DATABASE_START); [by destruct (readByte _)|].
  by destruct Hc.
Qed.

#[export] Instance unmarked_dec c : Decision (unmarked c).
Proof. unfold unmarked. apply _. Defined.

Lemma split_marked body :
  Forall unmarked body ∨ ∃ meta c f, body = meta ++ c :: f ∧ Forall unmarked meta ∧ ¬ unmarked c.
Proof.
  induction body as [|c body IH]; [by left|].
  destruct (decide (unmarked c)) as [Hc|Hc]; [|right; by exists [], c, body].
  destruct IH as [IH|(m & d & f & -> & Hm & Hd)]; [left; by constructor|].
  right. exists (c :: m), d, f. by rw Forall_cons.
Qed.

(** The fuel [findDatabaseSection] uses is enough: the scan runs out of it
    exactly where it would with any other. *)
Lemma findDatabaseSection_total r :
  findDatabaseSection r = Diverge ↔ Forall unmarked (fp r).
Proof.
  destruct r as [body n p]. unfold findDatabaseSection, section_fuel. cbn [fp]. split.
  - destruct (split_marked body) as [|(m & c & f & -> & Hm & Hc)]; [done|].
    intros Hd. epose proof (find_section_marked m c f (S (length (m ++ c :: f))) n p Hm Hc) as Hok.
    rw Hd in Hok. by discriminate Hok; lens.
  - intros. by apply find_section_unmarked.
Qed.

(** ** The entry loops *)

Definition left_of (r : RdbReader) : nat := length (fp r).

#[local] Transparent readByte readUint32 readUint64 readLength readString.
Lemma fread_left k r : (left_of (fread k r).2 ≤ left_of r)%nat.
Proof. rw /fread /left_of /= length_drop. lia. Qed.

Lemma readByte_left r : (left_of (readByte r).2 ≤ left_of r)%nat.
Proof. rw /readByte /left_of /=. case_match; simpl; rw length_drop; lia. Qed.

Lemma readUint32_left r : (left_of (readUint32 r).2 ≤ left_of r)%nat.
Proof. rw /readUint32 /left_of /=. case_match; simpl; rw length_drop; lia. Qed.

Lemma readUint64_left r : (left_of (readUint64 r).2 ≤ left_of r)%nat.
Proof. rw /readUint64 /left_of /=. case_match; simpl; rw length_drop; lia. Qed.

Lemma readLength_left r : (left_of (readLength r).2 ≤ left_of r)%nat.
Proof.
  rw /readLength. pose proof (readByte_left r). destruct (readByte r) as [b r1].
  pose proof (readByte_left r1). pose proof (readUint32_left r1). destruct (readByte r1).
  simpl in *. repeat case_match; simpl; lia.
Qed.

Lemma readString_left r : (left_of (readString r).2 ≤ left_of r)%nat.
Proof.
  rw /readString. pose proof (readLength_left r). destruct (readLength r) as [len r1].
  pose proof (fread_left (Z.to_nat len) r1). destruct (fread _ r1).
  simpl in *. repeat case_match; unfold left_of in *; simpl in *; lia.
Qed.

Lemma readString_eof n p : readString (mkRdbReader [] n p) = (None, 0, mkRdbReader [] n p).
Proof. done. Qed.

Lemma readExpiry_left type r : (left_of (readExpiry type r).2 ≤ left_of r)%nat.
Proof.
  rw /readExpiry. pose proof (readUint64_left r). pose proof (readUint32_left r).
  destruct (readUint64 r) as [? r1], (readUint32 r) as [? r2].
  pose proof (readByte_left r1). pose proof (readByte_left r2).
  destruct (readByte r1), (readByte r2). simpl in *. repeat case_match; simpl; lia.
Qed.
#[local] Opaque readByte readUint32 readUint64 readLength readString.

(** Every iteration that goes on has consumed the byte it began with, and the
    loops stop at the end of the file. *)
Lemma value_loop_total fuel now k r :
  (left_of r < fuel)%nat → is_ok (value_loop fuel now k r) = true.
Proof.
  revert r. induction fuel as [|fuel IH]; intros [[|c f] n p] Hr; simpl; [lia|lia|..].
  { by rw readByte_eof /= readString_eof. }
  rw readByte_cons. case_match; [done|].
  pose proof (readExpiry_left (ucode c) (mkRdbReader f n (p + 1))) as H1.
  destruct (readExpiry _ _) as [[x ty] r1]. pose proof (readString_left r1) as H2.
  destruct (readString r1) as [[[s|] len] r2]; [|done].
  pose proof (readString_left r2) as H3. destruct (readString r2) as [[v l] r3].
  cbn in H1, H2, H3, Hr.
  repeat case_match; try done; apply IH; unfold left_of in *; simpl in *; lia.
Qed.

Lemma keys_loop_total fuel r : (left_of r < fuel)%nat → is_ok (keys_loop fuel r) = true.
Proof.
  revert r. induction fuel as [|fuel IH]; intros [[|c f] n p] Hr; simpl; [lia|lia|..].
  { by rw readByte_eof /= readString_eof. }
  rw readByte_cons. case_match; [done|].
  pose proof (readExpiry_left (ucode c) (mkRdbReader f n (p + 1))) as H1.
  destruct (readExpiry _ _) as [[x ty] r1]. pose proof (readString_left r1) as H2.
  destruct (readString r1) as [[[s|] len] r2]; [|done].
  pose proof (readString_left r2) as H3. rw /skipRdbValue.
  epose proof (IH (if ty =? RDB_TYPE_STRING then (readString r2).2 else r2)) as IH'.
  destruct (keys_loop _ _); simpl in *; try done; apply IH';
    case_match; unfold left_of in *; simpl in *; lia.
Qed.

(** ** Reading what the file format writes *)

(** The opening bytes of an entry are its type and its expiry. *)
Lemma read_entry_head e f n p :
  entry_ok e →
  ∃ c p' f', rdb_entry_bytes e ++ f = c :: f'
    ∧ ucode c ≠ RDB_EOF
    ∧ readExpiry (ucode c) (mkRdbReader f' n p) =
      (expiry_ms (e_expiry e), RDB_TYPE_STRING,
       mkRdbReader (rdb_string (e_key e) ++ rdb_string (e_value e) ++ f) n p').
Proof.
  intros (_ & _ & _ & Hx). rw /rdb_entry_bytes /readExpiry.
  destruct (e_expiry e) as [|t|t]; simpl in *.
  - eexists _, _, _. rw -app_assoc. done.
  - eexists _, _, _. split; [done|]. split; [done|].
    rw (_ : ucode _ =? RDB_EXPIRE_MS = true) //.
    repeat (rw -?app_assoc -?app_comm_cons). rw readUint64_le; [|done]. by rw readByte_cons.
  - eexists _, _, _. split; [done|]. split; [done|].
    rw (_ : ucode _ =? RDB_EXPIRE_MS = false) // (_ : ucode _ =? RDB_EXPIRE_SEC = true) //.
    repeat (rw -?app_assoc -?app_comm_cons). rw readUint32_be; [|done]. by rw readByte_cons.
Qed.

Lemma key_match k key :
  (Z.of_nat (strlen k) =? Z.of_nat (length key))
  && bool_decide (key = take (Z.to_nat (Z.of_nat (length key))) (cstr k))
  = bool_decide (key = cstr k).
Proof.
  rw /strlen Nat2Z.id. destruct (Z.eqb_spec (Z.of_nat (length (cstr k))) (Z.of_nat (length key))) as [H|H]; simpl.
  - rw take_ge; [done|lia].
  - symmetry. apply bool_decide_eq_false. by intros ->.
Qed.

Lemma value_loop_entries now k es fuel rest n p :
  Forall entry_ok es → (length es < fuel)%nat →
  value_loop fuel now k
    (mkRdbReader (concat (map rdb_entry_bytes es) ++ chr RDB_EOF :: rest) n p) =
  Ok (rdb_lookup now (cstr k) es).
Proof.
  intros Hes. revert fuel p. induction Hes as [|e es He Hes IH]; intros [|fuel] p Hf; simpl in Hf; try lia.
  { simpl. by rw readByte_cons. }
  destruct (read_entry_head e (concat (map rdb_entry_bytes es) ++ chr RDB_EOF :: rest) n (p + 1) He)
    as (c & p1 & f' & Hb & Hc & Hx).
  cbn [map concat]. rw -app_assoc Hb. cbn [value_loop]. rw readByte_cons (proj2 (Z.eqb_neq _ _) Hc) Hx.
  destruct He as (Hk & Hkl & Hvl & _).
  edestruct (readString_rdb (e_key e)) as [p2 ->]; [done|]. rw {1}/as_read decide_False; [|done].
  rw key_match. cbn [Z.eqb RDB_TYPE_STRING].
  edestruct (readString_rdb (e_value e)) as [p3 ->]; [done|].
  rw /rdb_lookup. destruct (decide (e_key e = cstr k)) as [E|E].
  - rw bool_decide_true; [|done]. rw filter_cons_True; [|done]. rw /as_read /=. by repeat case_match.
  - rw bool_decide_false; [|done]. rw filter_cons_False; [|done]. apply IH. lia.
Qed.

Lemma keys_loop_entries es fuel rest n p :
  Forall entry_ok es → (length es < fuel)%nat →
  keys_loop fuel (mkRdbReader (concat (map rdb_entry_bytes es) ++ chr RDB_EOF :: rest) n p) =
  Ok (map (λ e, RespBulk (e_key e)) es).
Proof.
  intros Hes. revert fuel p. induction Hes as [|e es He Hes IH]; intros [|fuel] p Hf; simpl in Hf; try lia.
  { simpl. by rw readByte_cons. }
  destruct (read_entry_head e (concat (map rdb_entry_bytes es) ++ chr RDB_EOF :: rest) n (p + 1) He)
    as (c & p1 & f' & Hb & Hc & Hx).
  cbn [map concat]. rw -app_assoc Hb. cbn [keys_loop]. rw readByte_cons (proj2 (Z.eqb_neq _ _) Hc) Hx.
  destruct He as (Hk & Hkl & Hvl & _).
  edestruct (readString_rdb (e_key e)) as [p2 ->]; [done|]. rw {1}/as_read decide_False; [|done].
  cbn [Z.eqb RDB_TYPE_STRING]. rw /skipRdbValue.
  edestruct (readString_rdb (e_value e)) as [p3 ->]; [done|]. cbn [snd].
  rw IH; [done|lia].
Qed.

Lemma open_database_file meta db k m es rest n p :
  Forall unmarked meta → len32 db → len32 k → len32 m →
  ∃ p', open_database (mkRdbReader (rdb_file meta db k m es rest) n p) =
        Ok (true, mkRdbReader (concat (map rdb_entry_bytes es) ++ chr RDB_EOF :: rest) n p').
Proof.
  intros Hm Hd Hk Hl. rw /open_database /rdb_file validateHeader_ok /findDatabaseSection.
  rw (_ : section_fuel _ = length meta + S (length (rdb_section db k m es rest)))%nat;
    [|rw /section_fuel; cbn [fp]; lens].
  rw find_section_skip; [|done]. unfold rdb_section. cbn [find_section]. rw readByte_cons.
  rw (_ : ucode _ =? RDB_EOF = false) // (_ : ucode _ =? RDB_DATABASE_START = true) //.
  edestruct (readLength_rdb db) as [p1 ->]; [done|]. cbn [snd]. rw readByte_cons.
  rw (_ : ucode _ =? RDB_HASHTABLE_SIZE = true) //.
  edestruct (readLength_rdb k) as [p2 ->]; [done|]. cbn [snd].
  edestruct (readLength_rdb m) as [p3 ->]; [done|]. eauto.
Qed.

Lemma entries_fit es rest :
  (length es < S (length (concat (map rdb_entry_bytes es) ++ chr RDB_EOF :: rest)))%nat.
Proof.
  induction es as [|e es IH]; [simpl; lia|]. cbn [map concat]. rw -app_assoc length_app [length (e :: es)]/=.
  assert (1 ≤ length (rdb_entry_bytes e))%nat; [|lia].
  rw /rdb_entry_bytes length_app length_cons. lia.
Qed.

(** ** The properties *)

(** C14. Reading a value from a well-formed dump (any metadata without the two
    marker bytes, the database section, string entries with or without an
    expiry, the end marker) terminates and returns the value of the first
    entry for the key: nothing if there is none, if its expiry (as the reader
    understands it) is not after [now], or if the value is empty. *)
Theorem rdb_value_roundtrip meta db k m es rest n now key :
  Forall unmarked meta → len32 db → len32 k → len32 m → Forall entry_ok es →
  getRdbValue now key (mkRdbReader (rdb_file meta db k m es rest) n 0) =
  Ok (rdb_lookup now (cstr key) es).
Proof.
  intros Hm Hd Hk Hl He. rw /getRdbValue.
  destruct (open_database_file meta db k m es rest n 0) as [p' ->]; [done..|].
  cbn [mbind res_bind]. apply value_loop_entries; [done|apply entries_fit].
Qed.

Definition ex_meta : bytes := chr 250 :: rdb_string (bs "redis-ver") ++ rdb_string (bs "7.2.0").
Definition ex_entries : list rdb_entry :=
  [mkEntry NoExpiry (bs "foo") (bs "123"); mkEntry (ExpiryMs 1713824559637) (bs "bar") (bs "baz");
   mkEntry (ExpirySec 4294968) (bs "qux") (bs "quux")].
Definition ex_file : bytes := rdb_file ex_meta 0 3 2 ex_entries [].

Lemma ex_meta_ok : Forall unmarked ex_meta.
Proof. by_decide. Qed.

Lemma ex_entries_ok : Forall entry_ok ex_entries.
Proof. repeat constructor; simpl; try lia; try done. Qed.

Lemma rdb_value_roundtrip_witness :
  getRdbValue 1713824559637 (bs "foo") (mkRdbReader ex_file (bs "/tmp/dump.rdb") 0) = Ok (Some (bs "123"))
  ∧ getRdbValue 1713824559637 (bs "bar") (mkRdbReader ex_file (bs "/tmp/dump.rdb") 0) = Ok None.
Proof.
  split; (etrans; [apply rdb_value_roundtrip;
    [exact ex_meta_ok|by vm_compute|by vm_compute|by vm_compute|exact ex_entries_ok]|]);
    vm_compute; reflexivity.
Defined.

(** The same dump's keys are listed in the file's order, the expired ones
    and the duplicates included. *)
Theorem rdb_keys_roundtrip meta db k m es rest n :
  Forall unmarked meta → len32 db → len32 k → len32 m → Forall entry_ok es →
  getRdbKeys (mkRdbReader (rdb_file meta db k m es rest) n 0) =
  Ok (Some (map (λ e, RespBulk (e_key e)) es)).
Proof.
  intros Hm Hd Hk Hl He. rw /getRdbKeys.
  destruct (open_database_file meta db k m es rest n 0) as [p' ->]; [done..|].
  cbn [mbind res_bind]. rw keys_loop_entries; [done|done|apply entries_fit].
Qed.

Lemma rdb_keys_roundtrip_witness :
  getRdbKeys (mkRdbReader ex_file (bs "/tmp/dump.rdb") 0) =
  Ok (Some [RespBulk (bs "foo"); RespBulk (bs "bar"); RespBulk (bs "qux")]).
Proof.
  apply (rdb_keys_roundtrip ex_meta 0 3 2 ex_entries [] (bs "/tmp/dump.rdb"));
    [exact ex_meta_ok|by vm_compute|by vm_compute|by vm_compute|exact ex_entries_ok].
Defined.

Lemma validateHeader_true r r1 :
  validateHeader r = (true, r1) → fp r = RDB_MAGIC ++ RDB_VERSION ++ fp r1.
Proof.
  destruct r as [f n p]. rw /validateHeader. unfold fread; cbn [fp filename pos].
  destruct (short _ _) eqn:E1; [done|]. unfold advance; cbn [fp filename pos].
  destruct (strcmp_eq (take _ f) _) eqn:E2; [cbn [negb]|done].
  destruct (short _ (take RDB_VERSION_LEN _)) eqn:E3; [done|]. intros [= E4 <-]. cbn [fp].
  rw -{1}(take_drop RDB_MAGIC_LEN f) -{1}(take_drop RDB_VERSION_LEN (drop RDB_MAGIC_LEN f)).
  apply negb_false_iff, Nat.eqb_eq in E1, E3.
  apply (strcmp_eq_same_length _ RDB_MAGIC E1) in E2; [|by_decide].
  apply (strcmp_eq_same_length _ RDB_VERSION E3) in E4; [|by_decide].
  by rw E2 E4.
Qed.

(** C38. Looking a key up in a dump, or listing the keys of one, fails to
    return exactly when the dump has a valid header and neither an end marker
    nor a database section after it, as a file cut short by a crash has: the
    scan for the section then reads zeros for ever. *)
Theorem rdb_truncated_hangs now k r :
  (getRdbValue now k r = Diverge ↔
   ∃ body, fp r = RDB_MAGIC ++ RDB_VERSION ++ body ∧ Forall unmarked body)
  ∧ (getRdbKeys r = Diverge ↔
     ∃ body, fp r = RDB_MAGIC ++ RDB_VERSION ++ body ∧ Forall unmarked body)
  ∧ (∀ fuel body n p, Forall unmarked body → find_section fuel (mkRdbReader body n p) = Diverge).
Proof.
  assert (open_database r = Diverge ↔
          ∃ body, fp r = RDB_MAGIC ++ RDB_VERSION ++ body ∧ Forall unmarked body) as Hopen.
  { rw /open_database. split.
    - destruct (validateHeader r) as [[] r1] eqn:E; [|done].
      intros Hd%findDatabaseSection_total. exists (fp r1). split; [by apply validateHeader_true|done].
    - destruct r as [f n p]. cbn [fp]. intros (body & -> & Hb). rw validateHeader_ok.
      by apply findDatabaseSection_total. }
  rw -!Hopen. split; [|split; [|intros; by apply find_section_unmarked]].
  - rw /getRdbValue. destruct (open_database r) as [[[] r1]| |]; [|done..].
    cbn [mbind res_bind]. pose proof (value_loop_total (section_fuel r1) now k r1 ltac:(unfold left_of, section_fuel; lia)).
    destruct (value_loop _ _ _ _); naive_solver.
  - rw /getRdbKeys. destruct (open_database r) as [[[] r1]| |]; [|done..].
    cbn [mbind res_bind]. pose proof (keys_loop_total (section_fuel r1) r1 ltac:(unfold left_of, section_fuel; lia)).
    destruct (keys_loop _ _); naive_solver.
Qed.

(** An expiry given in seconds is multiplied in 32 bits: with the clock
    past 2^32 ms (February 1970), an entry that is to expire at second [t] is
    reported as expired, however far in the future [t] is, unless the product
    happens to wrap to zero. *)
Theorem rdb_seconds_expiry_wraps meta db k m e es rest n now :
  Forall unmarked meta → len32 db → len32 k → len32 m → Forall entry_ok (e :: es) →
  ∀ t, e_expiry e = ExpirySec t → NUL ∉ e_key e → u32 (t * 1000) ≠ 0 → 2 ^ 32 ≤ now →
  getRdbValue now (e_key e) (mkRdbReader (rdb_file meta db k m (e :: es) rest) n 0) = Ok None.
Proof.
  intros Hm Hd Hk Hl He t Ht Hn Hz Hnow. rw /getRdbValue.
  destruct (open_database_file meta db k m (e :: es) rest n 0) as [p' ->]; [done..|].
  cbn [mbind res_bind]. rw value_loop_entries; [|done|apply entries_fit].
  rw /rdb_lookup cstr_nonul; [|done]. rw filter_cons_True; [|done]. cbn [head mbind option_bind].
  rw Ht /=. unfold u32 in *.
  rw (_ : (0 <? _) && _ = true); [done|]. apply andb_true_iff. lia.
Qed.

Lemma rdb_seconds_expiry_wraps_witness :
  getRdbValue 1700000000000 (bs "qux")
    (mkRdbReader (rdb_file ex_meta 0 3 2 [mkEntry (ExpirySec 1900000000) (bs "qux") (bs "quux")] [])
       (bs "/tmp/dump.rdb") 0) = Ok None.
Proof.
  refine (rdb_seconds_expiry_wraps ex_meta 0 3 2 (mkEntry (ExpirySec 1900000000) (bs "qux") (bs "quux"))
            [] [] (bs "/tmp/dump.rdb") _ ex_meta_ok _ _ _ _ 1900000000 _ _ _ _);
    [by vm_compute..| | | | |].
  - repeat constructor; simpl; try lia; done.
  - done.
  - by_decide.
  - by vm_compute.
  - by vm_compute.
Defined.
