(* ===== verification/Config.v ===== *)
(** * The command line (app/config.c, app/config.h)

    The configuration record, [parseConfig] over the argument vector, and the
    settings a command line is meant to express ([setting]) with the way they
    are written. *)
From S2P Require Import Prelude.
From S2P Require Import CLib.

Record ServerConfig := mkServerConfig {
  cfg_dir : bytes;
  cfg_dbfilename : bytes;
  cfg_port : Z;
  cfg_bindaddr : bytes;
  cfg_master_host : option bytes;
  cfg_master_port : Z;
  cfg_is_replica : bool
}.

#[export] Instance ServerConfig_eq_dec : EqDecision ServerConfig.
Proof. solve_decision. Defined.

Definition default_config : ServerConfig :=
  mkServerConfig (bs "/tmp") (bs "dump.rdb") 6379 (bs "127.0.0.1") None 0 false.

Definition with_dir (v : bytes) (c : ServerConfig) : ServerConfig :=
  mkServerConfig (cstr v) (cfg_dbfilename c) (cfg_port c) (cfg_bindaddr c)
    (cfg_master_host c) (cfg_master_port c) (cfg_is_replica c).
Definition with_dbfilename (v : bytes) (c : ServerConfig) : ServerConfig :=
  mkServerConfig (cfg_dir c) (cstr v) (cfg_port c) (cfg_bindaddr c)
    (cfg_master_host c) (cfg_master_port c) (cfg_is_replica c).
Definition with_port (v : bytes) (c : ServerConfig) : ServerConfig :=
  mkServerConfig (cfg_dir c) (cfg_dbfilename c) (atoi v) (cfg_bindaddr c)
    (cfg_master_host c) (cfg_master_port c) (cfg_is_replica c).
Definition with_bindaddr (v : bytes) (c : ServerConfig) : ServerConfig :=
  mkServerConfig (cfg_dir c) (cfg_dbfilename c) (cfg_port c) (cstr v)
    (cfg_master_host c) (cfg_master_port c) (cfg_is_replica c).
(** One argument holds host and port; without a space in it the host and the
    port keep their values. *)
Definition with_replicaof (v : bytes) (c : ServerConfig) : ServerConfig :=
  let '(host, port) :=
    match strchr v " "%char with
    | Some (host, space) => (Some host, atoi (drop 1 space))
    | None => (cfg_master_host c, cfg_master_port c)
    end in
  mkServerConfig (cfg_dir c) (cfg_dbfilename c) (cfg_port c) (cfg_bindaddr c) host port true.

(** The loop over [argv]: every option needs an argument after it, so at the
    last position nothing is recognised. *)
Fixpoint parse_args (c : ServerConfig) (argv : list bytes) : ServerConfig :=
  match argv with
  | a :: ((v :: rest) as next) =>
      if strcmp_eq a (bs "--dir") then parse_args (with_dir v c) rest
      else if strcmp_eq a (bs "--dbfilename") then parse_args (with_dbfilename v c) rest
      else if strcmp_eq a (bs "--port") then parse_args (with_port v c) rest
      else if strcmp_eq a (bs "--bind") then parse_args (with_bindaddr v c) rest
      else if strcmp_eq a (bs "--replicaof") then parse_args (with_replicaof v c) rest
      else parse_args c next
  | _ => c
  end.
Definition parseConfig (argv : list bytes) : ServerConfig :=
  parse_args default_config (drop 1 argv).

(** ** What a command line says *)

Inductive setting :=
| SetDir (d : bytes)
| SetDbfilename (f : bytes)
| SetPort (p : Z)
| SetBind (a : bytes)
| SetReplicaof (host : bytes) (port : Z).

Definition write_setting (s : setting) : list bytes :=
  match s with
  | SetDir d => [bs "--dir"; d]
  | SetDbfilename f => [bs "--dbfilename"; f]
  | SetPort p => [bs "--port"; print_u p]
  | SetBind a => [bs "--bind"; a]
  | SetReplicaof host port => [bs "--replicaof"; host ++ " "%char :: print_u port]
  end.
Definition setting_ok (s : setting) : Prop :=
  match s with
  | SetDir v | SetDbfilename v | SetBind v => NUL ∉ v
  | SetPort p => 0 ≤ p ≤ INT_MAX
  | SetReplicaof host port => NUL ∉ host ∧ " "%char ∉ host ∧ 0 ≤ port ≤ INT_MAX
  end.
Definition apply_setting (c : ServerConfig) (s : setting) : ServerConfig :=
  match s with
  | SetDir d => mkServerConfig d (cfg_dbfilename c) (cfg_port c) (cfg_bindaddr c)
                  (cfg_master_host c) (cfg_master_port c) (cfg_is_replica c)
  | SetDbfilename f => mkServerConfig (cfg_dir c) f (cfg_port c) (cfg_bindaddr c)
                  (cfg_master_host c) (cfg_master_port c) (cfg_is_replica c)
  | SetPort p => mkServerConfig (cfg_dir c) (cfg_dbfilename c) p (cfg_bindaddr c)
                  (cfg_master_host c) (cfg_master_port c) (cfg_is_replica c)
  | SetBind a => mkServerConfig (cfg_dir c) (cfg_dbfilename c) (cfg_port c) a
                  (cfg_master_host c) (cfg_master_port c) (cfg_is_replica c)
  | SetReplicaof host port => mkServerConfig (cfg_dir c) (cfg_dbfilename c) (cfg_port c)
                  (cfg_bindaddr c) (Some host) port true
  end.

Lemma atoi_print n : 0 ≤ n ≤ INT_MAX → atoi (print_u n) = n.
Proof. intros Hn. rw -(app_nil_r (print_u n)). by apply atoi_print_u. Qed.

Lemma strchr_replicaof host port :
  NUL ∉ host → " "%char ∉ host → 0 ≤ port →
  strchr (host ++ " "%char :: print_u port) " "%char = Some (host, " "%char :: print_u port).
Proof.
  intros Hn Hs Hp. rw /strchr cstr_nonul_app; [|done].
  rw (cstr_nonul (" "%char :: _)); [by apply split_at_app|].
  rw not_elem_of_cons. split; [done|]. by apply print_u_free.
Qed.

Lemma parse_setting c s rest :
  setting_ok s → parse_args c (write_setting s ++ rest) = parse_args (apply_setting c s) rest.
Proof.
  destruct s as [d|f|p|a|host port]; intros Hok.
  - change (parse_args (with_dir d c) rest = parse_args (apply_setting c (SetDir d)) rest).
    by rw /with_dir cstr_nonul.
  - change (parse_args (with_dbfilename f c) rest = parse_args (apply_setting c (SetDbfilename f)) rest).
    by rw /with_dbfilename cstr_nonul.
  - change (parse_args (with_port (print_u p) c) rest = parse_args (apply_setting c (SetPort p)) rest).
    by rw /with_port atoi_print.
  - change (parse_args (with_bindaddr a c) rest = parse_args (apply_setting c (SetBind a)) rest).
    by rw /with_bindaddr cstr_nonul.
  - destruct Hok as (Hn & Hs & Hp).
    change (parse_args (with_replicaof (host ++ " "%char :: print_u port) c) rest
            = parse_args (apply_setting c (SetReplicaof host port)) rest).
    rw /with_replicaof strchr_replicaof; [|done|done|lia]. cbn [drop].
    by rw drop_0 atoi_print.
Qed.

(** C40. A command line written from any list of settings parses to the
    configuration those settings describe, applied in order to the defaults:
    the last of several settings of the same option wins. *)
Theorem config_parse_settings program l :
  Forall setting_ok l →
  parseConfig (program :: concat (map write_setting l)) = fold_left apply_setting l default_config.
Proof.
  intros Hl. rw /parseConfig /= drop_0. generalize default_config.
  induction Hl as [|s l Hs Hl IH]; intros c; [done|].
  cbn [map concat fold_left]. by rw parse_setting.
Qed.

Lemma config_parse_settings_witness :
  parseConfig [bs "fastkey"; bs "--port"; bs "8080"; bs "--replicaof"; bs "localhost 6379"] =
  mkServerConfig (bs "/tmp") (bs "dump.rdb") 8080 (bs "127.0.0.1") (Some (bs "localhost")) 6379 true.
Proof.
  apply (config_parse_settings (bs "fastkey") [SetPort 8080; SetReplicaof (bs "localhost") 6379]).
  repeat constructor; try done; by_decide.
Defined.
