(* ===== verification/CommandQueue.v ===== *)
(** * The queue of a transaction (app/command_queue.c, app/command_queue.h)

    [q_commands] are the first [size] slots of the array, [q_capacity] the
    slots allocated. *)
From S2P Require Import Prelude.
From S2P Require Import Resp.

Record CommandQueue := mkQueue { q_commands : list RespValue; q_capacity : Z }.
Definition q_size (q : CommandQueue) : Z := Z.of_nat (length (q_commands q)).

Definition createCommandQueue : CommandQueue := mkQueue [] 0.

Definition queueCommand (q : CommandQueue) (command : RespValue) : CommandQueue :=
  let capacity :=
    if q_capacity q <=? q_size q
    then (if q_capacity q =? 0 then 4 else q_capacity q * 2)
    else q_capacity q in
  mkQueue (q_commands q ++ [cloneRespValue command]) capacity.

Definition clearCommandQueue (q : CommandQueue) : CommandQueue := mkQueue [] 0.

(** Every command has a slot, and the array is at most twice what it holds
    (four slots at least). *)
Definition queue_wf (q : CommandQueue) : Prop :=
  q_size q ≤ q_capacity q ∧ (q_capacity q ≤ 4 ∨ q_capacity q ≤ 2 * q_size q).

Lemma createCommandQueue_wf : queue_wf createCommandQueue.
Proof. rw /queue_wf /q_size /=. lia. Qed.

Lemma queueCommand_commands q c : q_commands (queueCommand q c) = q_commands q ++ [c].
Proof. by rw /queueCommand /= cloneRespValue_id. Qed.

Lemma queueCommand_wf q c : queue_wf q → queue_wf (queueCommand q c).
Proof.
  intros [H1 H2]. rw /queue_wf /queueCommand /q_size /= length_app /= -/(q_size q).
  destruct (Z.leb_spec (q_capacity q) (q_size q)), (Z.eqb_spec (q_capacity q) 0);
    unfold q_size in *; lia.
Qed.
