(* ===== verification/Memory.v ===== *)
(** * Values and queues in memory (src/app/resp.c, src/app/command_queue.c)

    The kinds of block the program allocates; the blocks behind a [RespValue]
    and a [CommandQueue]; and the operations that allocate, copy and free
    them, pointer by pointer.  [value_at v p] owns exactly the blocks of the
    value [v] at [p].  [StreamMemory] and [StoreMemory] do the same for streams
    and the store. *)

From S2P Require Import Prelude Heap CLib Resp CommandQueue.
From iris.proofmode Require Import proofmode.

(** ** Blocks *)

(** The union of a [RespValue], by its tag. *)
Inductive CResp :=
| CString (str : ptr) (len : nat)
| CError (str : ptr) (len : nat)
| CBulk (str : ptr) (len : nat)
| CInteger (integer : Z)
| CArray (elements : ptr) (len : nat).

(** The union of an entry of the store, by its type. *)
Inductive CValue :=
| CData (data : ptr) (len : nat)
| CStream (stream : ptr).

(** One [StreamInfo] of an XREAD answer. *)
Record CInfo := mkCInfo { i_key : ptr; i_entries : ptr; i_count : Z }.

(** What a block holds.  [OFresh] is one that nothing has been written to. *)
Inductive obj :=
| OFresh
| OChars (data : bytes)
| OPtrs (ptrs : list ptr)
| OResp (v : CResp)
| OQueue (commands : ptr) (size capacity : nat)
| OEntry (id fields values : ptr) (numFields : nat) (next : ptr)
| OStream (head tail : ptr)
| OInfos (infos : list CInfo)
| OStoreEntry (key : ptr) (value : CValue) (expiry : Z) (next : ptr)
| OStore (table : ptr) (size : nat) (used : Z)
| OConfig (dir dbfilename : ptr) (port : Z) (bindaddr master_host : ptr) (master_port : Z) (is_replica : bool)
| OServer (bindaddr dir filename db repl_info : ptr) (fd port : Z)
| OReplInfo (master_info replicas replication_id : ptr) (repl_offset : Z)
| OMaster (host : ptr) (port fd : Z)
| OReplicas (replicas : ptr) (count capacity : nat)
| OFds (fds : list Z).

Definition load_chars (p : ptr) : Mem obj bytes :=
  o ← load p; match o with OChars d => mret d | _ => undefined end.
Definition load_resp (p : ptr) : Mem obj CResp :=
  o ← load p; match o with OResp v => mret v | _ => undefined end.
Definition load_queue (p : ptr) : Mem obj (ptr * nat * nat) :=
  o ← load p; match o with OQueue c s k => mret (c, s, k) | _ => undefined end.
(** [p[i]] and [p[i] = q] for an array of pointers. *)
Definition load_index (p : ptr) (i : nat) : Mem obj ptr :=
  o ← load p;
  match o with
  | OPtrs ps => match ps !! i with Some q => mret q | None => undefined end
  | _ => undefined
  end.
Definition store_index (p : ptr) (i : nat) (q : ptr) : Mem obj () :=
  o ← load p;
  match o with
  | OPtrs ps => if (i <? length ps)%nat then store p (OPtrs (<[i := q]> ps)) else undefined
  | _ => undefined
  end.
(** [realloc] of an array of pointers to [n] of them. *)
Definition realloc (p : ptr) (n : nat) : Mem obj ptr :=
  match p with
  | None => malloc (OPtrs (replicate n NULL))
  | Some _ =>
      o ← load p;
      match o with
      | OPtrs ps => _ ← free p; malloc (OPtrs (take n ps ++ replicate (n - length ps) NULL))
      | _ => undefined
      end
  end.

(** [strdup] *)
Definition strdup (p : ptr) : Mem obj ptr := d ← load_chars p; malloc (OChars (cstr d ++ [NUL])).

(** A block with a string, as a literal that is copied or an argument. *)
Definition new_chars (s : bytes) : Mem obj ptr := malloc (OChars (s ++ [NUL])).

(** [for (i = 0; i < n; i++)] *)
Fixpoint for_from (i n : nat) (body : nat → Mem obj ()) : Mem obj () :=
  match n with
  | O => mret ()
  | S n' => _ ← body i; for_from (S i) n' body
  end.

(** ** Operations on values

    The recursion follows the pointers; [fuel] bounds its depth. *)

Fixpoint freeRespValue (fuel : nat) (value : ptr) : Mem obj () :=
  match fuel with
  | O => diverge
  | S fuel' =>
      match value with
      | None => mret ()
      | Some _ =>
          v ← load_resp value;
          _ ← match v with
              | CString str _ | CError str _ | CBulk str _ => free str
              | CArray elements len =>
                  _ ← for_from 0 len (λ i, e ← load_index elements i; freeRespValue fuel' e);
                  free elements
              | CInteger _ => mret ()
              end;
          free value
      end
  end.

(** [malloc(len + 1)], [memcpy] and the final zero. *)
Definition copy_chars (str : ptr) (len : nat) : Mem obj ptr :=
  copy ← malloc OFresh;
  data ← load_chars str;
  if (length data <? len)%nat then undefined
  else _ ← store copy (OChars (take len data ++ [NUL])); mret copy.

Fixpoint cloneRespValue (fuel : nat) (original : ptr) : Mem obj ptr :=
  match fuel with
  | O => diverge
  | S fuel' =>
      match original with
      | None => mret NULL
      | Some _ =>
          clone ← malloc OFresh;
          v ← load_resp original;
          _ ← match v with
              | CString str len => copy ← copy_chars str len; store clone (OResp (CString copy len))
              | CError str len => copy ← copy_chars str len; store clone (OResp (CError copy len))
              | CBulk str len => copy ← copy_chars str len; store clone (OResp (CBulk copy len))
              | CArray elements len =>
                  copies ← malloc (OPtrs (replicate len NULL));
                  _ ← store clone (OResp (CArray copies len));
                  for_from 0 len (λ i,
                    e ← load_index elements i;
                    copy ← cloneRespValue fuel' e;
                    store_index copies i copy)
              | CInteger integer => store clone (OResp (CInteger integer))
              end;
          mret clone
      end
  end.

(** ** Operations on queues *)

Definition createCommandQueue : Mem obj ptr := malloc (OQueue NULL 0 0).

Definition queueCommand (fuel : nat) (queue command : ptr) : Mem obj () :=
  '(commands, size, capacity) ← load_queue queue;
  _ ← (if (capacity <=? size)%nat then
         let new_capacity := if (capacity =? 0)%nat then 4%nat else (capacity * 2)%nat in
         commands ← realloc commands new_capacity;
         store queue (OQueue commands size new_capacity)
       else mret ());
  '(commands, size, capacity) ← load_queue queue;
  copy ← cloneRespValue fuel command;
  _ ← store_index commands size copy;
  store queue (OQueue commands (S size) capacity).

Definition clearCommandQueue (fuel : nat) (queue : ptr) : Mem obj () :=
  '(commands, size, _) ← load_queue queue;
  _ ← for_from 0 size (λ i, c ← load_index commands i; freeRespValue fuel c);
  _ ← free commands;
  store queue (OQueue NULL 0 0).

Definition freeCommandQueue (fuel : nat) (queue : ptr) : Mem obj () :=
  _ ← clearCommandQueue fuel queue;
  free queue.

(** ** Ownership *)

Definition chars_at (s : bytes) (p : ptr) : hPropI obj :=
  ∃ l, <affine> ⌜p = Some l⌝ ∗ l ↦ OChars (s ++ [NUL]).

(** A string, or [NULL] for none. *)
Definition chars_or_null (s : option bytes) (p : ptr) : hPropI obj :=
  match s with Some text => chars_at text p | None => <affine> ⌜p = NULL⌝ end.

Fixpoint value_at (v : RespValue) (p : ptr) : hPropI obj :=
  ∃ l, <affine> ⌜p = Some l⌝ ∗
  match v with
  | RespString s => ∃ str, l ↦ OResp (CString str (length s)) ∗ chars_at s str
  | RespError s => ∃ str, l ↦ OResp (CError str (length s)) ∗ chars_at s str
  | RespBulk s => ∃ str, l ↦ OResp (CBulk str (length s)) ∗ chars_at s str
  | RespInteger z => l ↦ OResp (CInteger z)
  | RespArray vs =>
      ∃ le ps, l ↦ OResp (CArray (Some le) (length vs)) ∗ le ↦ OPtrs ps
        ∗ (fix values vs ps := match vs, ps with
                               | [], [] => emp
                               | v :: vs, p :: ps => value_at v p ∗ values vs ps
                               | _, _ => False
                               end) vs ps
  end%I.
(** The values of an array, one for each pointer. *)
Fixpoint values_at (vs : list RespValue) (ps : list ptr) : hPropI obj :=
  match vs, ps with
  | [], [] => emp
  | v :: vs, p :: ps => value_at v p ∗ values_at vs ps
  | _, _ => False
  end%I.

(** How deep the recursion goes. *)
Fixpoint depth (v : RespValue) : nat :=
  match v with
  | RespArray vs => S (list_max (map depth vs))
  | _ => 1
  end.

(** A queue of [vs]; slots past its size hold anything. *)
Definition queue_at (vs : list RespValue) (p : ptr) : hPropI obj :=
  ∃ q commands capacity, <affine> ⌜p = Some q⌝ ∗ q ↦ OQueue commands (length vs) capacity
    ∗ (<affine> ⌜commands = NULL ∧ capacity = 0%nat ∧ vs = []⌝
       ∨ ∃ l ps rest, <affine> ⌜commands = Some l ∧ (length vs + length rest = capacity)%nat ∧ (0 < capacity)%nat⌝
           ∗ l ↦ OPtrs (ps ++ rest) ∗ values_at vs ps).

(** ** The rules for typed accesses *)

Section Rules.
Implicit Types Φ : ptr → hPropI obj.

Lemma wp_load_chars l d (Φ : bytes → hPropI obj) :
  l ↦ OChars d -∗ (l ↦ OChars d -∗ Φ d) -∗ wp (load_chars (Some l)) Φ.
Proof.
  iIntros "Hl HΦ". iApply wp_bind. iApply (wp_load with "Hl"). iIntros "Hl".
  iApply wp_ret. by iApply "HΦ".
Qed.

Lemma wp_new_chars s Φ : (∀ l, l ↦ OChars (s ++ [NUL]) -∗ Φ (Some l)) -∗ wp (new_chars s) Φ.
Proof. iIntros "HΦ". iApply wp_malloc. iIntros (l) "Hl". by iApply "HΦ". Qed.

Lemma wp_free_chars s p (Φ : () → hPropI obj) : chars_at s p -∗ Φ () -∗ wp (free p) Φ.
Proof. iIntros "(%l & -> & Hl) HΦ". by iApply (wp_free with "Hl"). Qed.

Lemma wp_free_chars_or_null s p (Φ : () → hPropI obj) : chars_or_null s p -∗ Φ () -∗ wp (free p) Φ.
Proof. destruct s as [s|]; [apply wp_free_chars|]. iIntros "-> HΦ". by iApply wp_free_null. Qed.

Lemma wp_load_resp l v (Φ : CResp → hPropI obj) :
  l ↦ OResp v -∗ (l ↦ OResp v -∗ Φ v) -∗ wp (load_resp (Some l)) Φ.
Proof.
  iIntros "Hl HΦ". iApply wp_bind. iApply (wp_load with "Hl"). iIntros "Hl".
  iApply wp_ret. by iApply "HΦ".
Qed.

Lemma wp_load_queue l c s k (Φ : ptr * nat * nat → hPropI obj) :
  l ↦ OQueue c s k -∗ (l ↦ OQueue c s k -∗ Φ (c, s, k)) -∗ wp (load_queue (Some l)) Φ.
Proof.
  iIntros "Hl HΦ". iApply wp_bind. iApply (wp_load with "Hl"). iIntros "Hl".
  iApply wp_ret. by iApply "HΦ".
Qed.

Lemma wp_load_index l ps i q Φ :
  ps !! i = Some q → l ↦ OPtrs ps -∗ (l ↦ OPtrs ps -∗ Φ q) -∗ wp (load_index (Some l) i) Φ.
Proof.
  iIntros (Hi) "Hl HΦ". iApply wp_bind. iApply (wp_load with "Hl"). iIntros "Hl".
  rewrite Hi. iApply wp_ret. by iApply "HΦ".
Qed.

Lemma wp_store_index l ps i q (Φ : () → hPropI obj) :
  (i < length ps)%nat → l ↦ OPtrs ps -∗ (l ↦ OPtrs (<[i := q]> ps) -∗ Φ ()) -∗ wp (store_index (Some l) i q) Φ.
Proof.
  iIntros (Hi) "Hl HΦ". iApply wp_bind. iApply (wp_load with "Hl"). iIntros "Hl".
  rewrite (proj2 (Nat.ltb_lt _ _) Hi). by iApply (wp_store with "Hl").
Qed.

(** A loop over the elements of an array, of which the first [i] are done. *)
Lemma wp_for {A} (I : list A → list A → hPropI obj) (l : list A) body (Φ : () → hPropI obj) :
  (∀ done x rest, l = done ++ x :: rest →
     ∀ Ψ : () → hPropI obj, I done (x :: rest) -∗ (I (done ++ [x]) rest -∗ Ψ ()) -∗ wp (body (length done)) Ψ) →
  I [] l -∗ (I l [] -∗ Φ ()) -∗ wp (for_from 0 (length l) body) Φ.
Proof.
  intros Hbody. change 0%nat with (length (@nil A)).
  assert (∀ rest done, l = done ++ rest →
    I done rest -∗ (I l [] -∗ Φ ()) -∗ wp (for_from (length done) (length rest) body) Φ) as H.
  { induction rest as [|x rest IH]; intros dn E; cbn [length for_from].
    - rewrite app_nil_r in E. subst dn. iIntros "HI HΦ". iApply wp_ret. by iApply "HΦ".
    - iIntros "HI HΦ". iApply wp_bind. iApply (Hbody dn x rest E with "HI"). iIntros "HI".
      replace (S (length dn)) with (length (dn ++ [x])) by (rewrite length_app /=; lia).
      iApply (IH (dn ++ [x]) with "HI HΦ"). by rewrite -app_assoc. }
  iIntros "HI HΦ". by iApply (H l [] with "HI HΦ").
Qed.
End Rules.

(** ** Ownership of arrays *)

Lemma value_at_array vs p :
  value_at (RespArray vs) p ⊣⊢
  ∃ l le ps, <affine> ⌜p = Some l⌝ ∗ l ↦ OResp (CArray (Some le) (length vs)) ∗ le ↦ OPtrs ps ∗ values_at vs ps.
Proof.
  assert (∀ vs ps, (fix values vs ps := match vs, ps with
     | [], [] => emp | v :: vs, p :: ps => value_at v p ∗ values vs ps | _, _ => False end)%I vs ps
     = values_at vs ps) as H by (clear; induction vs as [|v vs IH]; intros [|p ps]; cbn; rewrite ?IH //).
  cbn [value_at]. iSplit.
  - iIntros "(%l & -> & %le & %ps & H1 & H2 & H3)". iExists l, le, ps. rewrite H. by iFrame.
  - iIntros "(%l & %le & %ps & -> & H1 & H2 & H3)". iExists l. iSplit; [done|]. iExists le, ps. rewrite H. iFrame.
Qed.

Lemma values_at_length vs ps : values_at vs ps ⊢ <affine> ⌜length vs = length ps⌝ ∗ values_at vs ps.
Proof.
  revert ps. induction vs as [|v vs IH]; intros [|p ps]; cbn; try (by iIntros "[]"); [by iIntros "?"; iFrame|].
  iIntros "[Hv Hvs]". iDestruct (IH with "Hvs") as "[%E Hvs]". iFrame. by rewrite E.
Qed.

Lemma values_at_app vs1 vs2 ps1 ps2 :
  values_at vs1 ps1 ∗ values_at vs2 ps2 ⊢ values_at (vs1 ++ vs2) (ps1 ++ ps2).
Proof.
  revert ps1. induction vs1 as [|v vs1 IH]; intros [|p ps1]; cbn; try (by iIntros "[[] ?]"); [by iIntros "[_ ?]"|].
  iIntros "[[Hv H1] H2]". iFrame. iApply IH. iFrame.
Qed.

(** ** freeRespValue *)

Lemma depth_element v vs fuel : v ∈ vs → (depth (RespArray vs) ≤ S fuel)%nat → (depth v ≤ fuel)%nat.
Proof.
  intros Hv Hd. cbn [depth] in Hd. apply (Nat.le_trans _ (list_max (map depth vs))); [|lia].
  assert (Forall (λ k, (k ≤ list_max (map depth vs))%nat) (map depth vs)) as Hall by (by apply list_max_le).
  rewrite Forall_map Forall_forall in Hall. by apply Hall.
Qed.

(** Freeing the elements of an array, given how to free one. *)
Lemma wp_free_elements vs ps more le free_one (Φ : () → hPropI obj) :
  (∀ v p (Ψ : () → hPropI obj), v ∈ vs → value_at v p -∗ Ψ () -∗ wp (free_one p) Ψ) →
  le ↦ OPtrs (ps ++ more) -∗ values_at vs ps -∗ (le ↦ OPtrs (ps ++ more) -∗ Φ ()) -∗
  wp (for_from 0 (length vs) (λ i, e ← load_index (Some le) i; free_one e)) Φ.
Proof.
  intros Hone. iIntros "Hle Hvs HΦ".
  iApply (wp_for (λ dn rest, ∃ ps1 ps2, <affine> ⌜ps = ps1 ++ ps2 ∧ length ps1 = length dn⌝
    ∗ le ↦ OPtrs (ps ++ more) ∗ values_at rest ps2)%I with "[Hle Hvs]").
  - intros dn v rest E Ψ. iIntros "(%ps1 & %ps2 & %Hps & Hle & Hvs) HΨ". destruct Hps as [-> Hlen].
    destruct ps2 as [|p ps2]; [done|]. iDestruct "Hvs" as "[Hv Hvs]".
    iApply wp_bind.
    iApply (wp_load_index with "Hle"); [by rewrite -Hlen -app_assoc -app_comm_cons list_lookup_middle|]. iIntros "Hle".
    iApply (Hone with "Hv"); [rewrite E; set_solver|]. iApply "HΨ". iExists (ps1 ++ [p]), ps2.
    rewrite -!app_assoc. iFrame. iPureIntro. rewrite !length_app Hlen. done.
  - iExists [], ps. by iFrame.
  - iIntros "(%ps1 & %ps2 & %Hps & Hle & Hvs)". destruct Hps as [-> Hlen]. destruct ps2; [|by iDestruct "Hvs" as "[]"].
    by iApply "HΦ".
Qed.

Lemma wp_freeRespValue fuel v p (Φ : () → hPropI obj) :
  (depth v ≤ fuel)%nat → value_at v p -∗ Φ () -∗ wp (freeRespValue fuel p) Φ.
Proof.
  revert v p Φ. induction fuel as [|fuel IH]; intros v p Φ Hd; [by destruct v; cbn in Hd; lia|].
  iIntros "Hv HΦ". cbn [freeRespValue]. destruct v as [s|s|z|s|vs].
  5: { iDestruct (value_at_array with "Hv") as "(%l & %le & %ps & -> & Hl & Hle & Hvs)".
    iApply wp_bind. iApply (wp_load_resp with "Hl"). iIntros "Hl".
    iApply wp_bind. iApply wp_bind. iApply (wp_free_elements vs ps [] with "[Hle] Hvs").
    { intros v p Ψ Hv. apply IH. by eapply depth_element. }
    { by rewrite app_nil_r. }
    iIntros "Hle". iApply (wp_free with "Hle"). by iApply (wp_free with "Hl"). }
  3: { iDestruct "Hv" as "(%l & -> & Hl)". iApply wp_bind. iApply (wp_load_resp with "Hl"). iIntros "Hl".
    iApply wp_bind. iApply wp_ret. by iApply (wp_free with "Hl"). }
  all: iDestruct "Hv" as "(%l & -> & %str & Hl & Hs)"; iApply wp_bind; iApply (wp_load_resp with "Hl");
    iIntros "Hl"; iApply wp_bind; iApply (wp_free_chars with "Hs"); by iApply (wp_free with "Hl").
Qed.

(** ** cloneRespValue *)

Lemma wp_copy_chars s p Φ :
  chars_at s p -∗ (∀ q, chars_at s p -∗ chars_at s q -∗ Φ q) -∗ wp (copy_chars p (length s)) Φ.
Proof.
  iIntros "(%l & -> & Hl) HΦ". iApply wp_bind. iApply wp_malloc. iIntros (c) "Hc".
  iApply wp_bind. iApply (wp_load_chars with "Hl"). iIntros "Hl".
  rewrite (proj2 (Nat.ltb_ge _ _)); [|rewrite length_app; cbn; lia].
  iApply wp_bind. iApply (wp_store with "Hc"). iIntros "Hc". iApply wp_ret.
  rewrite take_app_length. iApply ("HΦ" with "[Hl]"); [iExists l|iExists c]; by iFrame.
Qed.

Lemma wp_clone_elements vs ps le lc clone_one (Φ : () → hPropI obj) :
  (∀ v p (Ψ : ptr → hPropI obj), v ∈ vs →
     value_at v p -∗ (∀ q, value_at v p -∗ value_at v q -∗ Ψ q) -∗ wp (clone_one p) Ψ) →
  le ↦ OPtrs ps -∗ values_at vs ps -∗ lc ↦ OPtrs (replicate (length vs) NULL) -∗
  (∀ qs, le ↦ OPtrs ps -∗ values_at vs ps -∗ lc ↦ OPtrs qs -∗ values_at vs qs -∗ Φ ()) -∗
  wp (for_from 0 (length vs) (λ i,
        e ← load_index (Some le) i; copy ← clone_one e; store_index (Some lc) i copy)) Φ.
Proof.
  intros Hone. iIntros "Hle Hvs Hlc HΦ".
  iApply (wp_for (λ dn rest, ∃ ps1 ps2 qs, <affine> ⌜ps = ps1 ++ ps2 ∧ length ps1 = length dn ∧ length qs = length dn⌝
    ∗ le ↦ OPtrs ps ∗ lc ↦ OPtrs (qs ++ replicate (length rest) NULL)
    ∗ values_at dn ps1 ∗ values_at rest ps2 ∗ values_at dn qs)%I with "[Hle Hvs Hlc]").
  - intros dn v rest E Ψ. iIntros "(%ps1 & %ps2 & %qs & %Hps & Hle & Hlc & Hdn & Hvs & Hqs) HΨ".
    destruct Hps as (-> & Hlen & Hqs).
    destruct ps2 as [|p ps2]; [done|]. iDestruct "Hvs" as "[Hv Hvs]".
    iApply wp_bind. iApply (wp_load_index with "Hle"); [by rewrite -Hlen list_lookup_middle|]. iIntros "Hle".
    iApply wp_bind. iApply (Hone with "Hv"); [rewrite E; set_solver|]. iIntros (q) "Hv Hq".
    iApply (wp_store_index with "Hlc"); [rewrite length_app length_replicate Hqs; cbn; lia|]. iIntros "Hlc".
    iApply "HΨ". iExists (ps1 ++ [p]), ps2, (qs ++ [q]). rewrite -!app_assoc.
    cbn [length replicate app]. rewrite -Hqs insert_app_r_alt //. rewrite Nat.sub_diag. cbn [list_insert insert].
    iFrame "Hle Hlc Hvs". iSplit; [iPureIntro; rewrite !length_app Hlen Hqs; done|].
    iSplitL "Hdn Hv"; (iApply values_at_app; iFrame; by cbn; iFrame).
  - iExists [], ps, []. by iFrame.
  - iIntros "(%ps1 & %ps2 & %qs & %Hps & Hle & Hlc & Hdn & Hvs & Hqs)".
    destruct Hps as (-> & Hlen & Hqs).
    destruct ps2; [|by iDestruct "Hvs" as "[]"]. cbn [length replicate values_at]. rewrite !app_nil_r.
    iApply ("HΦ" with "Hle Hdn Hlc Hqs").
Qed.

Lemma wp_cloneRespValue fuel v p Φ :
  (depth v ≤ fuel)%nat →
  value_at v p -∗ (∀ q, value_at v p -∗ value_at v q -∗ Φ q) -∗ wp (cloneRespValue fuel p) Φ.
Proof.
  revert v p Φ. induction fuel as [|fuel IH]; intros v p Φ Hd; [by destruct v; cbn in Hd; lia|].
  iIntros "Hv HΦ". cbn [cloneRespValue]. destruct v as [s|s|z|s|vs].
  5: { iDestruct (value_at_array with "Hv") as "(%l & %le & %ps & -> & Hl & Hle & Hvs)".
    iApply wp_bind. iApply wp_malloc. iIntros (c) "Hc".
    iApply wp_bind. iApply (wp_load_resp with "Hl"). iIntros "Hl".
    iApply wp_bind. iApply wp_bind. iApply wp_malloc. iIntros (lc) "Hlc".
    iApply wp_bind. iApply (wp_store with "Hc"). iIntros "Hc".
    iApply (wp_clone_elements with "Hle Hvs Hlc").
    { intros v p Ψ Hv. apply IH. by eapply depth_element. }
    iIntros (qs) "Hle Hvs Hlc Hqs". iApply wp_ret.
    iApply ("HΦ" with "[Hl Hle Hvs]"); iApply value_at_array; [iExists l, le, ps|iExists c, lc, qs]; by iFrame. }
  3: { iDestruct "Hv" as "(%l & -> & Hl)". iApply wp_bind. iApply wp_malloc. iIntros (c) "Hc".
    iApply wp_bind. iApply (wp_load_resp with "Hl"). iIntros "Hl".
    iApply wp_bind. iApply (wp_store with "Hc"). iIntros "Hc". iApply wp_ret.
    iApply ("HΦ" with "[Hl]"); [iExists l|iExists c]; by iFrame. }
  all: iDestruct "Hv" as "(%l & -> & %str & Hl & Hs)"; iApply wp_bind; iApply wp_malloc; iIntros (c) "Hc";
    iApply wp_bind; iApply (wp_load_resp with "Hl"); iIntros "Hl"; iApply wp_bind; iApply wp_bind;
    iApply (wp_copy_chars with "Hs"); iIntros (copy) "Hs Hcopy";
    iApply (wp_store with "Hc"); iIntros "Hc"; iApply wp_ret;
    (iApply ("HΦ" with "[Hl Hs]"); [iExists l|iExists c]; (iSplit; [done|]); by iFrame).
Qed.

(** ** Queues *)

Lemma wp_createCommandQueue Φ : (∀ p, queue_at [] p -∗ Φ p) -∗ wp createCommandQueue Φ.
Proof.
  iIntros "HΦ". iApply wp_malloc. iIntros (q) "Hq". iApply "HΦ". iExists q, NULL, 0%nat. iFrame.
  iSplit; [done|]. by iLeft.
Qed.

(** The slot that [queueCommand] makes sure of. *)
Definition room_at (vs : list RespValue) (p : ptr) : hPropI obj :=
  ∃ q l ps rest, <affine> ⌜p = Some q ∧ length vs = length ps ∧ rest ≠ []⌝
    ∗ q ↦ OQueue (Some l) (length vs) (length vs + length rest) ∗ l ↦ OPtrs (ps ++ rest) ∗ values_at vs ps.

Lemma wp_realloc l ps n (Φ : ptr → hPropI obj) :
  l ↦ OPtrs ps -∗ (∀ l', l' ↦ OPtrs (take n ps ++ replicate (n - length ps) NULL) -∗ Φ (Some l')) -∗
  wp (realloc (Some l) n) Φ.
Proof.
  iIntros "Hl HΦ". cbn [realloc]. iApply wp_bind. iApply (wp_load with "Hl"). iIntros "Hl".
  iApply wp_bind. iApply (wp_free with "Hl"). by iApply wp_malloc.
Qed.

Lemma wp_make_room {A} vs p (f : () → Mem obj A) (Φ : A → hPropI obj) :
  queue_at vs p -∗ (room_at vs p -∗ wp (f ()) Φ) -∗
  wp ('(commands, size, capacity) ← load_queue p;
      _ ← (if (capacity <=? size)%nat then
             let new_capacity := if (capacity =? 0)%nat then 4%nat else (capacity * 2)%nat in
             commands ← realloc commands new_capacity;
             store p (OQueue commands size new_capacity)
           else mret ());
      f ()) Φ.
Proof.
  iIntros "(%q & %cmds & %cap & -> & Hq & Hc) Hf".
  iApply wp_bind. iApply (wp_load_queue with "Hq"). iIntros "Hq". iApply wp_bind.
  iDestruct "Hc" as "[%Hc|(%l & %ps & %rest & %Hc & Hl & Hvs)]".
  - destruct Hc as (-> & -> & ->). cbn [length Nat.leb Nat.eqb]. iApply wp_bind. iApply wp_malloc. iIntros (l) "Hl".
    iApply (wp_store with "Hq"). iIntros "Hq". iApply "Hf". iExists q, l, [], (replicate 4 NULL).
    cbn. iFrame. done.
  - destruct Hc as (-> & <- & Hpos). iDestruct (values_at_length with "Hvs") as "[%Hlen Hvs]".
    destruct rest as [|r rest].
    + rewrite Nat.add_0_r Nat.leb_refl. destruct (Nat.eqb_spec (length vs) 0) as [E|_]; [cbn in Hpos; lia|].
      iApply wp_bind. rewrite app_nil_r. iApply (wp_realloc with "Hl"). iIntros (l') "Hl'".
      iApply (wp_store with "Hq"). iIntros "Hq". iApply "Hf".
      rewrite take_ge; [|lia]. iExists q, l', ps, (replicate (length vs * 2 - length ps) NULL). iFrame.
      rewrite length_replicate. replace (length vs + _)%nat with (length vs * 2)%nat by lia. iFrame.
      iPureIntro. split_and!; [done..|]. intros E%(f_equal length). rewrite length_replicate /= in E. cbn in Hpos. lia.
    + rewrite (proj2 (Nat.leb_gt _ _)); [|cbn; lia]. iApply wp_ret. iApply "Hf".
      iExists q, l, ps, (r :: rest). by iFrame.
Qed.

(** A command is queued as a copy: the caller keeps its own. *)
Lemma wp_queueCommand fuel vs v q p (Φ : () → hPropI obj) :
  (depth v ≤ fuel)%nat →
  queue_at vs q -∗ value_at v p -∗ (queue_at (vs ++ [v]) q -∗ value_at v p -∗ Φ ()) -∗
  wp (queueCommand fuel q p) Φ.
Proof.
  iIntros (Hd) "Hq Hv HΦ".
  iApply (wp_make_room _ _ (λ _, '(commands, size, capacity) ← load_queue q;
    copy ← cloneRespValue fuel p; _ ← store_index commands size copy;
    store q (OQueue commands (S size) capacity)) with "Hq").
  iIntros "(%lq & %l & %ps & %rest & %Hr & Hq & Hl & Hvs)". destruct Hr as (-> & Hlen & Hrest).
  iApply wp_bind. iApply (wp_load_queue with "Hq"). iIntros "Hq".
  iApply wp_bind. iApply (wp_cloneRespValue with "Hv"); [done|]. iIntros (c) "Hv Hc".
  destruct rest as [|r rest]; [done|].
  iApply wp_bind. iApply (wp_store_index with "Hl"); [rewrite length_app Hlen; cbn; lia|]. iIntros "Hl".
  iApply (wp_store with "Hq"). iIntros "Hq". iApply ("HΦ" with "[-Hv] Hv").
  rewrite Hlen insert_app_r_alt // Nat.sub_diag. cbn [list_insert insert].
  iExists lq, (Some l), (length vs + length (r :: rest))%nat. iSplit; [done|].
  rewrite length_app Nat.add_1_r -Hlen. iFrame "Hq". iRight. iExists l, (ps ++ [c]), rest.
  rewrite -app_assoc. iFrame "Hl". iSplit; [iPureIntro; cbn [length]; split_and!; [done|lia..]|].
  iApply values_at_app. iFrame.
Qed.

Definition all_within (fuel : nat) (vs : list RespValue) : Prop := Forall (λ v, (depth v ≤ fuel)%nat) vs.

(** A queue as it is made, and as it is left by a clear. *)
Definition cleared_at (p : ptr) : hPropI obj := ∃ q, <affine> ⌜p = Some q⌝ ∗ q ↦ OQueue NULL 0 0.

Lemma cleared_queue p : cleared_at p ⊢ queue_at [] p.
Proof.
  iIntros "(%q & -> & Hq)". iExists q, NULL, 0%nat. iFrame. iSplit; [done|]. by iLeft.
Qed.

Lemma wp_clearCommandQueue fuel vs q (Φ : () → hPropI obj) :
  all_within fuel vs → queue_at vs q -∗ (cleared_at q -∗ Φ ()) -∗ wp (clearCommandQueue fuel q) Φ.
Proof.
  iIntros (Hd) "(%lq & %cmds & %cap & -> & Hq & Hc) HΦ".
  iApply wp_bind. iApply (wp_load_queue with "Hq"). iIntros "Hq". iApply wp_bind.
  iDestruct "Hc" as "[%Hc|(%l & %ps & %rest & %Hc & Hl & Hvs)]".
  - destruct Hc as (-> & -> & ->). iApply wp_ret. iApply wp_bind. iApply wp_free_null.
    iApply (wp_store with "Hq"). iIntros "Hq". iApply "HΦ". iExists lq. by iFrame.
  - destruct Hc as (-> & _ & _). iApply (wp_free_elements with "Hl Hvs").
    { intros v p Ψ Hv. apply wp_freeRespValue. unfold all_within in Hd. rewrite Forall_forall in Hd. by apply Hd. }
    iIntros "Hl". iApply wp_bind. iApply (wp_free with "Hl").
    iApply (wp_store with "Hq"). iIntros "Hq". iApply "HΦ". iExists lq. by iFrame.
Qed.

Lemma wp_freeCommandQueue fuel vs q (Φ : () → hPropI obj) :
  all_within fuel vs → queue_at vs q -∗ Φ () -∗ wp (freeCommandQueue fuel q) Φ.
Proof.
  iIntros (Hd) "Hq HΦ". iApply wp_bind. iApply (wp_clearCommandQueue with "Hq"); [done|].
  iIntros "(%lq & -> & Hq)". by iApply (wp_free with "Hq").
Qed.

(** ** The commands of a transaction

    What a connection does with each command it parses inside a transaction:
    [executeCommand] queues it, then the parse loop frees it. *)
Fixpoint queue_each (fuel : nat) (queue : ptr) (commands : list ptr) : Mem obj () :=
  match commands with
  | [] => mret ()
  | command :: commands' =>
      _ ← queueCommand fuel queue command;
      _ ← freeRespValue fuel command;
      queue_each fuel queue commands'
  end.

Lemma wp_queue_each fuel vs ws ps q (Φ : () → hPropI obj) :
  all_within fuel ws →
  queue_at vs q -∗ values_at ws ps -∗ (queue_at (vs ++ ws) q -∗ Φ ()) -∗ wp (queue_each fuel q ps) Φ.
Proof.
  intros Hd. revert vs ps. induction Hd as [|w ws Hw Hd IH]; intros vs [|p ps]; cbn [values_at queue_each];
    iIntros "Hq Hws HΦ"; try (by iDestruct "Hws" as "[]").
  - iApply wp_ret. iApply "HΦ". by rewrite app_nil_r.
  - iDestruct "Hws" as "[Hw Hws]". iApply wp_bind. iApply (wp_queueCommand with "Hq Hw"); [done|].
    iIntros "Hq Hw". iApply wp_bind. iApply (wp_freeRespValue with "Hw"); [done|].
    iApply (IH with "Hq Hws"). by rewrite -app_assoc.
Qed.

(** ** The properties *)

(** Freeing a value of any shape gives back every block of it, and
    nothing else, exactly once: what is left is the memory around it. *)
Theorem free_value_exact fuel v p m mf :
  (depth v ≤ fuel)%nat → value_at v p m → m ##ₘ mf →
  freeRespValue fuel p (m ∪ mf) = Ok ((), mf).
Proof.
  intros Hd Hv Hm.
  destruct (wp_run (freeRespValue fuel p) (value_at v p) (λ _, emp%I) m mf) as ([] & m' & E & _ & He); [|done..|].
  - iIntros "Hv". by iApply (wp_freeRespValue with "Hv").
  - rewrite E. by rewrite He map_empty_union.
Qed.

(** C11. A transaction owns its commands: after each command is queued and the
    connection has freed its own copy, the queue holds them all, in order, and
    freeing the queue gives back every block, so that the memory is as if the
    transaction had never been; nothing is freed twice and nothing is lost. *)
Theorem queue_owns_commands fuel vs ps m mf :
  all_within fuel vs → values_at vs ps m → m ##ₘ mf →
  ∃ q m', (q ← createCommandQueue; _ ← queue_each fuel q ps; mret q) (m ∪ mf) = Ok (q, m' ∪ mf)
    ∧ m' ##ₘ mf ∧ queue_at vs q m' ∧ freeCommandQueue fuel q (m' ∪ mf) = Ok ((), mf).
Proof.
  intros Hd Hv Hm.
  destruct (wp_run (q ← createCommandQueue; _ ← queue_each fuel q ps; mret q) (values_at vs ps) (queue_at vs) m mf)
    as (q & m' & E & Hd' & Hq); [|done..|].
  - iIntros "Hvs". iApply wp_bind. iApply wp_createCommandQueue. iIntros (q) "Hq".
    iApply wp_bind. iApply (wp_queue_each with "Hq Hvs"); [done|]. iIntros "Hq". by iApply wp_ret.
  - exists q, m'. split_and!; [done..|].
    destruct (wp_run (freeCommandQueue fuel q) (queue_at vs q) (λ _, emp%I) m' mf) as ([] & m2 & E2 & _ & He); [|done..|].
    + iIntros "Hq". by iApply (wp_freeCommandQueue with "Hq").
    + rewrite E2. by rewrite He map_empty_union.
Qed.

(** A command of two words, at addresses 1 to 6. *)
Definition ex_value : RespValue := RespArray [RespBulk (bs "GET"); RespBulk (bs "k")].
Definition ex_memory : gmap loc obj :=
  {[1%positive := OResp (CArray (Some 2%positive) 2)]}
  ∪ ({[2%positive := OPtrs [Some 3%positive; Some 5%positive]]}
  ∪ ({[3%positive := OResp (CBulk (Some 4%positive) 3)]} ∪ ({[4%positive := OChars (bs "GET" ++ [NUL])]}
  ∪ ({[5%positive := OResp (CBulk (Some 6%positive) 1)]} ∪ {[6%positive := OChars (bs "k" ++ [NUL])]})))).

Lemma ex_value_at : value_at ex_value (Some 1%positive) ex_memory.
Proof.
  assert ((1%positive ↦ OResp (CArray (Some 2%positive) 2) ∗ 2%positive ↦ OPtrs [Some 3%positive; Some 5%positive]
    ∗ 3%positive ↦ OResp (CBulk (Some 4%positive) 3) ∗ 4%positive ↦ OChars (bs "GET" ++ [NUL])
    ∗ 5%positive ↦ OResp (CBulk (Some 6%positive) 1) ∗ 6%positive ↦ OChars (bs "k" ++ [NUL]))%I ex_memory) as H.
  { repeat (apply sep_holds; [exact eq_refl| |solve_map_disjoint]). exact eq_refl. }
  revert H. apply entails_holds. rewrite value_at_array. iIntros "(H1 & H2 & H3 & H4 & H5 & H6)".
  iExists 1%positive, 2%positive, [Some 3%positive; Some 5%positive]. iSplit; [done|]. iFrame "H1 H2".
  cbn [values_at]. iSplitL "H3 H4"; [|iSplitL; [|done]].
  - iExists 3%positive. iSplit; [done|]. iExists (Some 4%positive). iFrame "H3". iExists 4%positive. by iFrame.
  - iExists 5%positive. iSplit; [done|]. iExists (Some 6%positive). iFrame "H5". iExists 6%positive. by iFrame.
Qed.

Lemma free_value_exact_witness :
  freeRespValue 2 (Some 1%positive) (ex_memory ∪ {[7%positive := OFresh]}) = Ok ((), {[7%positive := OFresh]}).
Proof. apply (free_value_exact 2 ex_value); [cbn; lia|exact ex_value_at|by apply map_disjoint_singleton_r]. Defined.

Lemma queue_owns_commands_witness :
  ∃ q m', (q ← createCommandQueue; _ ← queue_each 2 q [Some 1%positive]; mret q) (ex_memory ∪ ∅) = Ok (q, m' ∪ ∅)
    ∧ m' ##ₘ ∅ ∧ queue_at [ex_value] q m' ∧ freeCommandQueue 2 q (m' ∪ ∅) = Ok ((), ∅).
Proof.
  apply (queue_owns_commands 2 [ex_value] [Some 1%positive]); [repeat constructor; cbn; lia| |apply map_disjoint_empty_r].
  eapply entails_holds; [|exact ex_value_at]. cbn [values_at]. iIntros "$".
Defined.
