(* ===== verification/StreamMemory.v ===== *)
(** * Streams in memory (src/app/stream.c)

    The linked list of entries behind a [Stream]: appending to it at the tail,
    reading from it by copying the entries that match, and freeing it, pointer
    by pointer, against the lists of [Stream]. *)

From S2P Require Import Prelude Heap CLib Stream Memory.
From iris.proofmode Require Import proofmode.

(** ** Accesses *)

Record CEntry := mkCEntry { e_id : ptr; e_fields : ptr; e_values : ptr; e_numFields : nat; e_next : ptr }.
Definition OfEntry (e : CEntry) : obj := OEntry (e_id e) (e_fields e) (e_values e) (e_numFields e) (e_next e).

Definition load_entry (p : ptr) : Mem obj CEntry :=
  o ← load p; match o with OEntry i f v n q => mret (mkCEntry i f v n q) | _ => undefined end.
(** [p->next = q] *)
Definition set_next (p q : ptr) : Mem obj () :=
  e ← load_entry p;
  store p (OEntry (e_id e) (e_fields e) (e_values e) (e_numFields e) q).
Definition load_stream (p : ptr) : Mem obj (ptr * ptr) :=
  o ← load p; match o with OStream h t => mret (h, t) | _ => undefined end.

(** ** Operations *)

Definition freeStreamEntry (entry : ptr) : Mem obj () :=
  match entry with
  | None => mret ()
  | Some _ =>
      e ← load_entry entry;
      _ ← free (e_id e);
      _ ← (if bool_decide (e_fields e ≠ NULL ∧ e_values e ≠ NULL) then
             for_from 0 (e_numFields e) (λ i,
               f ← load_index (e_fields e) i; _ ← free f;
               v ← load_index (e_values e) i; free v)
           else mret ());
      _ ← free (e_fields e);
      _ ← free (e_values e);
      free entry
  end.

(** The loop of [freeStream] and of the other callers that free a list; [fuel]
    bounds the length of the list. *)
Fixpoint free_entries (fuel : nat) (current : ptr) : Mem obj () :=
  match fuel with
  | O => diverge
  | S fuel' =>
      match current with
      | None => mret ()
      | Some _ =>
          e ← load_entry current;
          _ ← freeStreamEntry current;
          free_entries fuel' (e_next e)
      end
  end.

Definition freeStream (fuel : nat) (stream : ptr) : Mem obj () :=
  match stream with
  | None => mret ()
  | Some _ =>
      '(head, _) ← load_stream stream;
      _ ← free_entries fuel head;
      free stream
  end.

Definition copyStreamEntry (source : ptr) : Mem obj ptr :=
  match source with
  | None => mret NULL
  | Some _ =>
      copy ← malloc OFresh;
      s ← load_entry source;
      id ← strdup (e_id s);
      fields ← malloc (OPtrs (replicate (e_numFields s) NULL));
      values ← malloc (OPtrs (replicate (e_numFields s) NULL));
      _ ← store copy (OEntry id fields values (e_numFields s) NULL);
      _ ← for_from 0 (e_numFields s) (λ i,
            f ← load_index (e_fields s) i; f ← strdup f; _ ← store_index fields i f;
            v ← load_index (e_values s) i; v ← strdup v; store_index values i v);
      mret copy
  end.

(** The last part of [streamAdd]: the entry is made, linked at the tail, and
    its identifier copied for the caller. *)
Definition append_entry (stream finalId fields values : ptr) (numFields : nat) : Mem obj ptr :=
  entry ← malloc OFresh;
  efields ← malloc (OPtrs (replicate numFields NULL));
  evalues ← malloc (OPtrs (replicate numFields NULL));
  _ ← store entry (OEntry finalId efields evalues numFields NULL);
  _ ← for_from 0 numFields (λ i,
        f ← load_index fields i; f ← strdup f; _ ← store_index efields i f;
        v ← load_index values i; v ← strdup v; store_index evalues i v);
  '(head, tail) ← load_stream stream;
  _ ← match head with
      | None => store stream (OStream entry tail)
      | Some _ => set_next tail entry
      end;
  '(head, _) ← load_stream stream;
  _ ← store stream (OStream head entry);
  strdup finalId.

Definition createStream : Mem obj ptr := malloc (OStream NULL NULL).

(** The identifier of the last entry; [getNextSequence] reads its parts
    whether or not it parses. *)
Definition getNextSequence (now : Z) (stream : ptr) (ms' : Z) : Mem obj Z :=
  '(_, tail) ← load_stream stream;
  match tail with
  | None => mret (if (ms' =? 0)%Z then 1%Z else 0%Z)
  | Some _ =>
      t ← load_entry tail;
      id ← load_chars (e_id t);
      match parseStreamID now id with
      | None => undefined
      | Some lastId => mret (if (ms lastId =? ms')%Z then u64 (Stream.seq lastId + 1) else 0%Z)
      end
  end.

Definition isValidNextID (now : Z) (stream : ptr) (newId : StreamID) : Mem obj bool :=
  if ((ms newId =? 0) && (Stream.seq newId =? 0))%Z then mret false
  else
    '(_, tail) ← load_stream stream;
    match tail with
    | None => mret true
    | Some _ =>
        t ← load_entry tail;
        id ← load_chars (e_id t);
        match parseStreamID now id with
        | None => mret false
        | Some lastId =>
            if (ms newId <? ms lastId)%Z then mret false
            else if ((ms newId =? ms lastId) && (Stream.seq newId <=? Stream.seq lastId))%Z then mret false
            else mret true
        end
    end.

(** What follows the identifier in the 32 bytes of [generateStreamID] is never
    read.  The broadcast is not a matter of memory. *)
Definition streamAdd (now : Z) (stream id fields values : ptr) (numFields : nat) : Mem obj ptr :=
  if bool_decide (stream = NULL ∨ id = NULL ∨ fields = NULL ∨ values = NULL) then mret NULL
  else
    text ← load_chars id;
    match parseStreamID now text with
    | None => mret NULL
    | Some parsedId =>
        seq' ← (if (Stream.seq parsedId =? UINT64_MAX)%Z
                then getNextSequence now stream (ms parsedId) else mret (Stream.seq parsedId));
        let parsedId := mkStreamID (ms parsedId) seq' in
        valid ← isValidNextID now stream parsedId;
        if negb valid then
          if ((ms parsedId =? 0) && (Stream.seq parsedId =? 0))%Z then malloc (OChars (err_zero_id ++ [NUL]))
          else malloc (OChars (err_small_id ++ [NUL]))
        else
          finalId ← malloc (OChars (generateStreamID (ms parsedId) (Stream.seq parsedId) ++ [NUL]));
          append_entry stream finalId fields values numFields
    end.

(** The loop of [streamRange] and [streamRead]: [keep] is the test on the
    identifier. *)
Fixpoint copy_matching (fuel : nat) (now : Z) (keep : StreamID → bool)
    (entry result resultTail : ptr) (count : nat) : Mem obj (ptr * nat) :=
  match fuel with
  | O => diverge
  | S fuel' =>
      match entry with
      | None => mret (result, count)
      | Some _ =>
          e ← load_entry entry;
          id ← load_chars (e_id e);
          match parseStreamID now id with
          | None => copy_matching fuel' now keep (e_next e) result resultTail count
          | Some entryId =>
              if keep entryId then
                newEntry ← copyStreamEntry entry;
                result ← match result with
                         | None => mret newEntry
                         | Some _ => _ ← set_next resultTail newEntry; mret result
                         end;
                copy_matching fuel' now keep (e_next e) result newEntry (S count)
              else copy_matching fuel' now keep (e_next e) result resultTail count
          end
      end
  end.

(** ** Ownership *)

Fixpoint strings_at (ss : list bytes) (ps : list ptr) : hPropI obj :=
  match ss, ps with
  | [], [] => emp
  | s :: ss, p :: ps => chars_at s p ∗ strings_at ss ps
  | _, _ => False
  end%I.
(** An array of strings. *)
Definition array_at (ss : list bytes) (p : ptr) : hPropI obj :=
  ∃ l ps, <affine> ⌜p = Some l⌝ ∗ l ↦ OPtrs ps ∗ strings_at ss ps.

Definition entry_at (e : StreamEntry) (next p : ptr) : hPropI obj :=
  ∃ l i f v, <affine> ⌜p = Some l ∧ length (fields e) = length (values e)⌝
    ∗ l ↦ OEntry i f v (length (fields e)) next
    ∗ chars_at (id e) i ∗ array_at (fields e) f ∗ array_at (values e) v.

(** The entries from [p] on, up to the pointer [q]. *)
Fixpoint segment_at (es : list StreamEntry) (p q : ptr) : hPropI obj :=
  match es with
  | [] => <affine> ⌜p = q⌝
  | e :: es => ∃ next, entry_at e next p ∗ segment_at es next q
  end%I.

(** A list with a pointer to its last entry. *)
Definition list_at (es : list StreamEntry) (head tail : ptr) : hPropI obj :=
  (<affine> ⌜es = [] ∧ head = NULL ∧ tail = NULL⌝
   ∨ ∃ es' e, <affine> ⌜es = es' ++ [e]⌝ ∗ segment_at es' head tail ∗ entry_at e NULL tail)%I.
Definition stream_at (s : Stream) (p : ptr) : hPropI obj :=
  ∃ l head tail, <affine> ⌜p = Some l⌝ ∗ l ↦ OStream head tail ∗ list_at (entries s) head tail.

(** ** The rules for typed accesses *)

Lemma wp_load_entry l e (Φ : CEntry → hPropI obj) :
  l ↦ OfEntry e -∗ (l ↦ OfEntry e -∗ Φ e) -∗ wp (load_entry (Some l)) Φ.
Proof.
  iIntros "Hl HΦ". iApply wp_bind. iApply (wp_load with "Hl"). iIntros "Hl".
  destruct e. iApply wp_ret. by iApply "HΦ".
Qed.

Lemma wp_load_stream l h t (Φ : ptr * ptr → hPropI obj) :
  l ↦ OStream h t -∗ (l ↦ OStream h t -∗ Φ (h, t)) -∗ wp (load_stream (Some l)) Φ.
Proof.
  iIntros "Hl HΦ". iApply wp_bind. iApply (wp_load with "Hl"). iIntros "Hl".
  iApply wp_ret. by iApply "HΦ".
Qed.

Lemma wp_strdup s p (Φ : ptr → hPropI obj) :
  chars_at s p -∗ (∀ q, chars_at s p -∗ chars_at (cstr s) q -∗ Φ q) -∗ wp (strdup p) Φ.
Proof.
  iIntros "(%l & -> & Hl) HΦ". iApply wp_bind. iApply (wp_load_chars with "Hl"). iIntros "Hl".
  iApply wp_malloc. iIntros (c) "Hc". rewrite cstr_app_nul.
  iApply ("HΦ" with "[Hl]"); [iExists l|iExists c]; by iFrame.
Qed.

Lemma strings_at_app ss1 ss2 ps1 ps2 :
  strings_at ss1 ps1 ∗ strings_at ss2 ps2 ⊢ strings_at (ss1 ++ ss2) (ps1 ++ ps2).
Proof.
  revert ps1. induction ss1 as [|s ss1 IH]; intros [|p ps1]; cbn; try (by iIntros "[[] ?]"); [by iIntros "[_ ?]"|].
  iIntros "[[Hs H1] H2]". iFrame. iApply IH. iFrame.
Qed.

Lemma strings_at_snoc ss s ps p : strings_at ss ps ∗ chars_at s p ⊢ strings_at (ss ++ [s]) (ps ++ [p]).
Proof. iIntros "[Hss Hs]". iApply strings_at_app. iFrame. Qed.

(** ** Pairs of arrays *)

Section Pairs.
Context (fs vs : list bytes) (Hlen : length fs = length vs).

Lemma pairs_fst : (zip fs vs).*1 = fs.
Proof using Hlen. apply fst_zip. lia. Qed.

Lemma pairs_snd : (zip fs vs).*2 = vs.
Proof using Hlen. apply snd_zip. lia. Qed.

Lemma pairs_length : length (zip fs vs) = length fs.
Proof using Hlen. rewrite length_zip_with. lia. Qed.

(** Freeing the strings of two arrays of the same length. *)
Lemma wp_free_pairs lf lv ps qs (Φ : () → hPropI obj) :
  lf ↦ OPtrs ps -∗ strings_at fs ps -∗ lv ↦ OPtrs qs -∗ strings_at vs qs -∗
  (lf ↦ OPtrs ps -∗ lv ↦ OPtrs qs -∗ Φ ()) -∗
  wp (for_from 0 (length fs) (λ i,
        f ← load_index (Some lf) i; _ ← free f; v ← load_index (Some lv) i; free v)) Φ.
Proof using Hlen.
  iIntros "Hf Hfs Hv Hvs HΦ". rewrite -pairs_length.
  iApply (wp_for (λ (dn rest : list (bytes * bytes)), ∃ ps1 ps2 qs1 qs2,
    <affine> ⌜ps = ps1 ++ ps2 ∧ qs = qs1 ++ qs2 ∧ length ps1 = length dn ∧ length qs1 = length dn⌝
    ∗ lf ↦ OPtrs ps ∗ strings_at rest.*1 ps2 ∗ lv ↦ OPtrs qs ∗ strings_at rest.*2 qs2)%I with "[Hf Hfs Hv Hvs]").
  - intros dn [f v] rest E Ψ. iIntros "(%ps1 & %ps2 & %qs1 & %qs2 & %H & Hf & Hfs & Hv & Hvs) HΨ".
    destruct H as (-> & -> & Hp & Hq). destruct ps2 as [|p ps2], qs2 as [|q qs2]; try done. cbn [fst snd fmap list_fmap strings_at].
    iDestruct "Hfs" as "[Hs Hfs]". iDestruct "Hvs" as "[Hs' Hvs]".
    iApply wp_bind. iApply (wp_load_index with "Hf"); [by rewrite -Hp list_lookup_middle|]. iIntros "Hf".
    iApply wp_bind. iApply (wp_free_chars with "Hs").
    iApply wp_bind. iApply (wp_load_index with "Hv"); [by rewrite -Hq list_lookup_middle|]. iIntros "Hv".
    iApply (wp_free_chars with "Hs'"). iApply "HΨ". iExists (ps1 ++ [p]), ps2, (qs1 ++ [q]), qs2.
    rewrite -!app_assoc. iFrame. iPureIntro. rewrite !length_app Hp Hq. done.
  - iExists [], ps, [], qs. rewrite pairs_fst pairs_snd. by iFrame.
  - iIntros "(%ps1 & %ps2 & %qs1 & %qs2 & %H & Hf & Hfs & Hv & Hvs)". destruct H as (-> & -> & _ & _).
    destruct ps2, qs2; try (by iDestruct "Hfs" as "[]"); try (by iDestruct "Hvs" as "[]").
    iApply ("HΦ" with "Hf Hv").
Qed.

(** Copying them into two new arrays. *)
Lemma wp_copy_pairs lf lv ps qs cf cv (Φ : () → hPropI obj) :
  lf ↦ OPtrs ps -∗ strings_at fs ps -∗ lv ↦ OPtrs qs -∗ strings_at vs qs -∗
  cf ↦ OPtrs (replicate (length fs) NULL) -∗ cv ↦ OPtrs (replicate (length fs) NULL) -∗
  (array_at fs (Some lf) -∗ array_at vs (Some lv) -∗
   array_at (map cstr fs) (Some cf) -∗ array_at (map cstr vs) (Some cv) -∗ Φ ()) -∗
  wp (for_from 0 (length fs) (λ i,
        f ← load_index (Some lf) i; f ← strdup f; _ ← store_index (Some cf) i f;
        v ← load_index (Some lv) i; v ← strdup v; store_index (Some cv) i v)) Φ.
Proof using Hlen.
  iIntros "Hf Hfs Hv Hvs Hcf Hcv HΦ". rewrite -pairs_length.
  iApply (wp_for (λ (dn rest : list (bytes * bytes)), ∃ ps1 ps2 qs1 qs2 rs ts,
    <affine> ⌜ps = ps1 ++ ps2 ∧ qs = qs1 ++ qs2 ∧ length ps1 = length dn ∧ length qs1 = length dn
              ∧ length rs = length dn ∧ length ts = length dn⌝
    ∗ lf ↦ OPtrs ps ∗ strings_at dn.*1 ps1 ∗ strings_at rest.*1 ps2
    ∗ lv ↦ OPtrs qs ∗ strings_at dn.*2 qs1 ∗ strings_at rest.*2 qs2
    ∗ cf ↦ OPtrs (rs ++ replicate (length rest) NULL) ∗ strings_at (map cstr dn.*1) rs
    ∗ cv ↦ OPtrs (ts ++ replicate (length rest) NULL) ∗ strings_at (map cstr dn.*2) ts)%I
    with "[Hf Hfs Hv Hvs Hcf Hcv]").
  - intros dn [f v] rest E Ψ. iIntros "(%ps1 & %ps2 & %qs1 & %qs2 & %rs & %ts & %H & Hf & Hfd & Hfs & Hv & Hvd & Hvs & Hcf & Hrs & Hcv & Hts) HΨ".
    destruct H as (-> & -> & Hp & Hq & Hr & Ht). destruct ps2 as [|p ps2], qs2 as [|q qs2]; try done. cbn [fst snd fmap list_fmap strings_at].
    iDestruct "Hfs" as "[Hs Hfs]". iDestruct "Hvs" as "[Hs' Hvs]".
    iApply wp_bind. iApply (wp_load_index with "Hf"); [by rewrite -Hp list_lookup_middle|]. iIntros "Hf".
    iApply wp_bind. iApply (wp_strdup with "Hs"). iIntros (r) "Hs Hr".
    iApply wp_bind. iApply (wp_store_index with "Hcf"); [rewrite length_app length_replicate Hr; cbn; lia|]. iIntros "Hcf".
    iApply wp_bind. iApply (wp_load_index with "Hv"); [by rewrite -Hq list_lookup_middle|]. iIntros "Hv".
    iApply wp_bind. iApply (wp_strdup with "Hs'"). iIntros (t) "Hs' Ht".
    iApply (wp_store_index with "Hcv"); [rewrite length_app length_replicate Ht; cbn; lia|]. iIntros "Hcv".
    iApply "HΨ". iExists (ps1 ++ [p]), ps2, (qs1 ++ [q]), qs2, (rs ++ [r]), (ts ++ [t]).
    rewrite -!app_assoc -{1}Hr -{1}Ht !insert_app_r_alt // !Nat.sub_diag. cbn [length replicate list_insert insert app].
    rewrite !fmap_app !map_app. iFrame "Hf Hfs Hv Hvs Hcf Hcv".
    iSplit; [iPureIntro; rewrite !length_app; cbn [length]; split_and!; [done..|lia|lia|lia|lia]|].
    iSplitL "Hfd Hs"; [iApply strings_at_snoc; iFrame|].
    iSplitL "Hvd Hs'"; [iApply strings_at_snoc; iFrame|].
    iSplitL "Hrs Hr"; iApply strings_at_snoc; iFrame.
  - iExists [], ps, [], qs, [], []. rewrite pairs_fst pairs_snd pairs_length. cbn [app]. by iFrame.
  - iIntros "(%ps1 & %ps2 & %qs1 & %qs2 & %rs & %ts & %H & Hf & Hfd & Hfs & Hv & Hvd & Hvs & Hcf & Hrs & Hcv & Hts)".
    destruct H as (-> & -> & _). destruct ps2, qs2; try (by iDestruct "Hfs" as "[]"); try (by iDestruct "Hvs" as "[]").
    rewrite pairs_fst pairs_snd. cbn [length replicate]. rewrite !app_nil_r.
    iApply ("HΦ" with "[Hf Hfd] [Hv Hvd] [Hcf Hrs]"); [iExists lf, ps1|iExists lv, qs1|iExists cf, rs|iExists cv, ts]; by iFrame.
Qed.
End Pairs.

(** ** Freeing *)

(** An entry opened up. *)
Lemma entry_open e next p :
  entry_at e next p ⊣⊢
  ∃ l i lf lv ps qs, <affine> ⌜p = Some l ∧ length (fields e) = length (values e)⌝
    ∗ l ↦ OfEntry (mkCEntry i (Some lf) (Some lv) (length (fields e)) next)
    ∗ chars_at (id e) i ∗ lf ↦ OPtrs ps ∗ strings_at (fields e) ps ∗ lv ↦ OPtrs qs ∗ strings_at (values e) qs.
Proof.
  iSplit.
  - iIntros "(%l & %i & %f & %v & %H & Hl & Hi & (%lf & %ps & -> & Hf & Hfs) & (%lv & %qs & -> & Hv & Hvs))".
    iExists l, i, lf, lv, ps, qs. by iFrame.
  - iIntros "(%l & %i & %lf & %lv & %ps & %qs & %H & Hl & Hi & Hf & Hfs & Hv & Hvs)".
    iExists l, i, (Some lf), (Some lv). iSplit; [done|]. iFrame "Hl Hi".
    iSplitL "Hf Hfs"; [iExists lf, ps|iExists lv, qs]; by iFrame.
Qed.

Lemma wp_freeStreamEntry e next p (Φ : () → hPropI obj) :
  entry_at e next p -∗ Φ () -∗ wp (freeStreamEntry p) Φ.
Proof.
  iIntros "He HΦ". iDestruct (entry_open with "He") as "(%l & %i & %lf & %lv & %ps & %qs & %H & Hl & Hi & Hf & Hfs & Hv & Hvs)".
  destruct H as [-> Hlen]. cbn [freeStreamEntry].
  iApply wp_bind. iApply (wp_load_entry with "Hl"). iIntros "Hl". cbn [e_id e_fields e_values e_numFields].
  iApply wp_bind. iApply (wp_free_chars with "Hi"). iApply wp_bind.
  iApply (wp_free_pairs with "Hf Hfs Hv Hvs"); [done|]. iIntros "Hf Hv".
  iApply wp_bind. iApply (wp_free with "Hf"). iApply wp_bind. iApply (wp_free with "Hv"). by iApply (wp_free with "Hl").
Qed.

(** Reading the [next] pointer of an entry. *)
Lemma wp_entry_next {A} e next p (f : CEntry → Mem obj A) (Φ : A → hPropI obj) :
  entry_at e next p -∗
  (∀ c, <affine> ⌜e_next c = next ∧ is_Some p⌝ -∗ entry_at e next p -∗ wp (f c) Φ) -∗
  wp (load_entry p ≫= f) Φ.
Proof.
  iIntros "He HΦ". iDestruct (entry_open with "He") as "(%l & %i & %lf & %lv & %ps & %qs & %H & Hl & Hr)".
  destruct H as [-> Hlen]. iApply wp_bind. iApply (wp_load_entry with "Hl"). iIntros "Hl".
  iApply "HΦ"; [by iPureIntro; split|]. iApply entry_open. iExists l, i, lf, lv, ps, qs. by iFrame.
Qed.

Lemma wp_free_entries fuel es p (Φ : () → hPropI obj) :
  (length es < fuel)%nat → segment_at es p NULL -∗ Φ () -∗ wp (free_entries fuel p) Φ.
Proof.
  revert es p. induction fuel as [|fuel IH]; intros es p Hf; [lia|].
  destruct es as [|e es]; cbn [segment_at free_entries].
  - iIntros "-> HΦ". by iApply wp_ret.
  - iIntros "(%next & He & Hes) HΦ".
    iAssert (<affine> ⌜is_Some p⌝ ∗ entry_at e next p)%I with "[He]" as "[%Hp He]".
    { iDestruct "He" as "(%l & %i & %f & %v & %H & Hr)". iSplit; [iPureIntro; destruct H as [-> _]; done|].
      iExists l, i, f, v. by iFrame. }
    destruct Hp as [l ->]. iApply (wp_entry_next with "He"). iIntros (c) "%Hc He". destruct Hc as [-> _].
    iApply wp_bind. iApply (wp_freeStreamEntry with "He"). iApply (IH with "Hes HΦ"). cbn in Hf. lia.
Qed.

Lemma segment_app es1 es2 p q r : segment_at es1 p q ∗ segment_at es2 q r ⊢ segment_at (es1 ++ es2) p r.
Proof.
  revert p. induction es1 as [|e es1 IH]; intros p; cbn; [by iIntros "[-> ?]"|].
  iIntros "[(%next & He & H1) H2]". iExists next. iFrame. iApply IH. iFrame.
Qed.

Lemma list_segment es head tail : list_at es head tail ⊢ segment_at es head NULL.
Proof.
  iIntros "[%H|(%es' & %e & -> & Hs & He)]"; [by destruct H as (-> & -> & ->)|].
  iApply segment_app. by iFrame.
Qed.

Lemma wp_freeStream fuel s p (Φ : () → hPropI obj) :
  (length (entries s) < fuel)%nat → stream_at s p -∗ Φ () -∗ wp (freeStream fuel p) Φ.
Proof.
  iIntros (Hf) "(%l & %head & %tail & -> & Hl & Hs) HΦ". iApply wp_bind.
  iApply (wp_load_stream with "Hl"). iIntros "Hl". iDestruct (list_segment with "Hs") as "Hs".
  iApply wp_bind. iApply (wp_free_entries with "Hs"); [done|]. by iApply (wp_free with "Hl").
Qed.

(** ** Appending *)

Lemma wp_set_next e next p q (Φ : () → hPropI obj) :
  entry_at e next p -∗ (entry_at e q p -∗ Φ ()) -∗ wp (set_next p q) Φ.
Proof.
  iIntros "He HΦ". iDestruct (entry_open with "He") as "(%l & %i & %lf & %lv & %ps & %qs & %H & Hl & Hr)".
  destruct H as [-> Hlen]. iApply wp_bind. iApply (wp_load_entry with "Hl"). iIntros "Hl".
  iApply (wp_store with "Hl"). iIntros "Hl". iApply "HΦ". iApply entry_open.
  iExists l, i, lf, lv, ps, qs. by iFrame.
Qed.

Lemma entry_some e next p : entry_at e next p ⊢ <affine> ⌜is_Some p⌝ ∗ entry_at e next p.
Proof.
  iIntros "(%l & %i & %f & %v & %H & Hr)". iSplit; [iPureIntro; destruct H as [-> _]; done|].
  iExists l, i, f, v. by iFrame.
Qed.

(** The first entry of a list that has a last one. *)
Lemma segment_some es e head tail :
  segment_at es head tail ∗ entry_at e NULL tail ⊢ <affine> ⌜is_Some head⌝ ∗ segment_at es head tail ∗ entry_at e NULL tail.
Proof.
  destruct es as [|e' es]; cbn.
  - iIntros "[-> He]". iDestruct (entry_some with "He") as "[%H He]". by iFrame.
  - iIntros "[(%next & He' & Hs) He]". iDestruct (entry_some with "He'") as "[%H He']". iSplit; [done|].
    iFrame.
Qed.

Lemma wp_append_entry s p i fid f v fs vs (Φ : ptr → hPropI obj) :
  length fs = length vs → NUL ∉ fid →
  stream_at s p -∗ chars_at fid i -∗ array_at fs f -∗ array_at vs v -∗
  (∀ q, stream_at (mkStream (entries s ++ [mkStreamEntry fid (map cstr fs) (map cstr vs)])) p -∗
        array_at fs f -∗ array_at vs v -∗ chars_at fid q -∗ Φ q) -∗
  wp (append_entry p i f v (length fs)) Φ.
Proof.
  iIntros (Hlen Hfid) "(%ls & %head & %tail & -> & Hs & Hlist) Hi (%lf & %ps & -> & Hf & Hfs) (%lv & %qs & -> & Hv & Hvs) HΦ".
  iApply wp_bind. iApply wp_malloc. iIntros (e) "He".
  iApply wp_bind. iApply wp_malloc. iIntros (cf) "Hcf". iApply wp_bind. iApply wp_malloc. iIntros (cv) "Hcv".
  iApply wp_bind. iApply (wp_store with "He"). iIntros "He".
  iApply wp_bind. iApply (wp_copy_pairs with "Hf Hfs Hv Hvs Hcf Hcv"); [done|]. iIntros "Hf Hv Hcf Hcv".
  set (new := mkStreamEntry fid (map cstr fs) (map cstr vs)).
  iApply wp_bind. iApply (wp_load_stream with "Hs"). iIntros "Hs". iApply wp_bind.
  iAssert (wp (match head with
               | Some _ => set_next tail (Some e)
               | None => store (Some ls) (OStream (Some e) tail)
               end) (λ _, ∃ head', ls ↦ OStream head' tail ∗ segment_at (entries s) head' (Some e)))%I
    with "[Hs Hlist]" as "Hlink".
  { iDestruct "Hlist" as "[%H|(%es & %last & %E & Hseg & Hlast)]".
    - destruct H as (-> & -> & ->). iApply (wp_store with "Hs"). iIntros "Hs". iExists (Some e). by iFrame.
    - iDestruct (segment_some with "[$Hseg $Hlast]") as "(%Hh & Hseg & Hlast)". destruct Hh as [h ->].
      iApply (wp_set_next with "Hlast"). iIntros "Hlast". iExists (Some h). iFrame "Hs". rewrite E.
      iApply segment_app. by iFrame. }
  iApply (wp_wand with "Hlink"). iIntros ([]) "(%head' & Hs & Hseg)".
  iApply wp_bind. iApply (wp_load_stream with "Hs"). iIntros "Hs".
  iApply wp_bind. iApply (wp_store with "Hs"). iIntros "Hs".
  iApply (wp_strdup with "Hi"). iIntros (q) "Hi Hq". rewrite (cstr_nonul fid) //.
  iApply ("HΦ" with "[Hs Hseg He Hi Hcf Hcv] Hf Hv Hq").
  iExists ls, head', (Some e). iSplit; [done|]. iFrame "Hs". iRight. iExists (entries s), new. iSplit; [done|].
  iFrame "Hseg". iExists e, i, (Some cf), (Some cv). cbn [id fields values new]. iFrame "Hi Hcf Hcv".
  rewrite !length_map. iFrame. iPureIntro. by split.
Qed.

(** ** Copying *)

(** The copy of an entry, with its strings as C sees them. *)
Definition c_entry (e : StreamEntry) : StreamEntry :=
  mkStreamEntry (cstr (id e)) (map cstr (fields e)) (map cstr (values e)).
Definition nul_free (e : StreamEntry) : Prop :=
  NUL ∉ id e ∧ Forall (λ s, NUL ∉ s) (fields e) ∧ Forall (λ s, NUL ∉ s) (values e).

Lemma map_cstr_id l : Forall (λ s, NUL ∉ s) l → map cstr l = l.
Proof. induction 1 as [|s l Hs _ IH]; [done|]. cbn. by rewrite cstr_nonul // IH. Qed.

Lemma c_entry_id e : nul_free e → c_entry e = e.
Proof. intros (H1 & H2 & H3). destruct e. rewrite /c_entry /= cstr_nonul // !map_cstr_id //. Qed.

Lemma parseStreamID_nul now b : parseStreamID now (b ++ [NUL]) = parseStreamID now b.
Proof. by rewrite /parseStreamID /strcmp_eq /strchr /strtoull !cstr_app_nul. Qed.

Lemma wp_copyStreamEntry e next p (Φ : ptr → hPropI obj) :
  entry_at e next p -∗ (∀ q, entry_at e next p -∗ entry_at (c_entry e) NULL q -∗ Φ q) -∗
  wp (copyStreamEntry p) Φ.
Proof.
  iIntros "He HΦ". iDestruct (entry_open with "He") as "(%l & %i & %lf & %lv & %ps & %qs & %H & Hl & Hi & Hf & Hfs & Hv & Hvs)".
  destruct H as [-> Hlen]. cbn [copyStreamEntry].
  iApply wp_bind. iApply wp_malloc. iIntros (c) "Hc".
  iApply wp_bind. iApply (wp_load_entry with "Hl"). iIntros "Hl". cbn [e_id e_fields e_values e_numFields].
  iApply wp_bind. iApply (wp_strdup with "Hi"). iIntros (ci) "Hi Hci".
  iApply wp_bind. iApply wp_malloc. iIntros (cf) "Hcf". iApply wp_bind. iApply wp_malloc. iIntros (cv) "Hcv".
  iApply wp_bind. iApply (wp_store with "Hc"). iIntros "Hc".
  iApply wp_bind. iApply (wp_copy_pairs with "Hf Hfs Hv Hvs Hcf Hcv"); [done|]. iIntros "Hf Hv Hcf Hcv".
  iApply wp_ret. iApply ("HΦ" with "[Hl Hi Hf Hv]").
  - iExists l, i, (Some lf), (Some lv). by iFrame.
  - iExists c, ci, (Some cf), (Some cv). cbn [id fields values c_entry]. iFrame "Hci Hcf Hcv".
    rewrite !length_map. iFrame. iPureIntro. by split.
Qed.

(** Adding at the end of a result under construction. *)
Lemma wp_link_result acc result tail e q (Φ : ptr → hPropI obj) :
  list_at acc result tail -∗ entry_at e NULL q -∗ (∀ r, list_at (acc ++ [e]) r q -∗ Φ r) -∗
  wp (match result with None => mret q | Some _ => _ ← set_next tail q; mret result end) Φ.
Proof.
  iIntros "Hacc He HΦ". iDestruct "Hacc" as "[%H|(%es & %last & -> & Hseg & Hlast)]".
  - destruct H as (-> & -> & ->). iApply wp_ret. iApply "HΦ". iRight. iExists [], e. by iFrame.
  - iDestruct (segment_some with "[$Hseg $Hlast]") as "(%Hh & Hseg & Hlast)". destruct Hh as [h ->].
    iApply wp_bind. iApply (wp_set_next with "Hlast"). iIntros "Hlast". iApply wp_ret. iApply "HΦ".
    iRight. iExists (es ++ [last]), e. iFrame "He". iSplit; [done|]. iApply segment_app. by iFrame.
Qed.

(** The loop over a segment, going on at its end. *)
Lemma wp_copy_segment fuel now keep es acc p q result tail (Φ : ptr * nat → hPropI obj) :
  segment_at es p q -∗ list_at acc result tail -∗
  (∀ r t, segment_at es p q -∗ list_at (acc ++ map c_entry (select_entries now keep es)) r t -∗
     wp (copy_matching fuel now keep q r t (length (acc ++ map c_entry (select_entries now keep es)))) Φ) -∗
  wp (copy_matching (length es + fuel) now keep p result tail (length acc)) Φ.
Proof.
  revert acc p result tail. induction es as [|e es IH]; intros acc p result tail;
    cbn [segment_at length Nat.add copy_matching select_entries].
  { iIntros "-> Hacc HΦ". cbn [List.map]. rewrite app_nil_r. by iApply ("HΦ" with "[] Hacc"). }
  iIntros "(%next & He & Hes) Hacc HΦ". iDestruct (entry_some with "He") as "[%Hp He]". destruct Hp as [l ->].
  iDestruct (entry_open with "He") as "(%l' & %i & %lf & %lv & %ps & %qs & %H & Hl & (%li & -> & Hi) & Hr)".
  destruct H as [[= <-] Hlen].
  iApply wp_bind. iApply (wp_load_entry with "Hl"). iIntros "Hl". cbn [e_id e_next].
  iApply wp_bind. iApply (wp_load_chars with "Hi"). iIntros "Hi". rewrite parseStreamID_nul.
  iAssert (entry_at e next (Some l)) with "[Hl Hi Hr]" as "He".
  { iApply entry_open. iExists l, (Some li), lf, lv, ps, qs. iSplit; [done|]. iFrame "Hl Hr". iExists li. by iFrame. }
  destruct (parseStreamID now (id e)) as [i|]; [destruct (keep i)|].
  - iApply wp_bind. iApply (wp_copyStreamEntry with "He"). iIntros (c) "He Hc".
    iApply wp_bind. iApply (wp_link_result with "Hacc Hc"). iIntros (r) "Hacc".
    replace (S (length acc)) with (length (acc ++ [c_entry e])) by (rewrite length_app /=; lia).
    iApply (IH with "Hes Hacc"). iIntros (r' t) "Hes Hacc". cbn [List.map]. rewrite -app_assoc.
    iApply ("HΦ" with "[He Hes] Hacc"). iExists next. iFrame.
  - iApply (IH with "Hes Hacc"). iIntros (r' t) "Hes Hacc".
    iApply ("HΦ" with "[He Hes] Hacc"). iExists next. iFrame.
  - iApply (IH with "Hes Hacc"). iIntros (r' t) "Hes Hacc".
    iApply ("HΦ" with "[He Hes] Hacc"). iExists next. iFrame.
Qed.

Lemma select_app now keep l1 l2 :
  select_entries now keep (l1 ++ l2) = select_entries now keep l1 ++ select_entries now keep l2.
Proof. induction l1 as [|e l1 IH]; [done|]. cbn. repeat case_match; rewrite IH //. Qed.

Lemma select_length now keep l : (length (select_entries now keep l) ≤ length l)%nat.
Proof. induction l as [|e l IH]; [done|]. cbn. repeat case_match; cbn; lia. Qed.

(** The loop over a whole list, which stays as it is. *)
Lemma wp_copy_matching fuel now keep es head tail (Φ : ptr * nat → hPropI obj) :
  (length es < fuel)%nat → list_at es head tail -∗
  (∀ r t, list_at es head tail -∗ list_at (map c_entry (select_entries now keep es)) r t -∗
     Φ (r, length (select_entries now keep es))) -∗
  wp (copy_matching fuel now keep head NULL NULL 0) Φ.
Proof.
  iIntros (Hf) "Hes HΦ". iAssert (list_at [] NULL NULL) as "Hnil"; [by iLeft|].
  change 0%nat with (length (@nil StreamEntry)).
  iDestruct "Hes" as "[%H|(%es' & %e & -> & Hseg & He)]".
  - destruct H as (-> & -> & ->). destruct fuel as [|fuel]; [cbn in Hf; lia|]. iApply wp_ret.
    iApply ("HΦ" with "[] Hnil"). by iLeft.
  - rewrite length_app in Hf. cbn in Hf. replace fuel with (length es' + S (S (fuel - 2 - length es')))%nat by lia.
    iApply (wp_copy_segment with "Hseg Hnil"). iIntros (r t) "Hseg Hacc". cbn [app].
    change (S (S (fuel - 2 - length es'))) with (length [e] + S (fuel - 2 - length es'))%nat.
    iApply (wp_copy_segment _ _ _ [e] _ tail NULL with "[He] Hacc"); [iExists NULL; by iFrame|].
    iIntros (r' t') "(%next & He & ->) Hacc". iApply wp_ret. rewrite -map_app -select_app length_map.
    iApply ("HΦ" with "[Hseg He] Hacc"). iRight. iExists es', e. by iFrame.
Qed.

(** ** The readers *)

(** [None] is the [NULL] that is returned before [*count] is set. *)
Definition streamRange (fuel : nat) (now : Z) (stream : ptr) (start end_ : bytes) : Mem obj (option (ptr * nat)) :=
  match (if strcmp_eq start (bs "-") then Some MIN_ID else parseStreamID now start),
        (if strcmp_eq end_ (bs "+") then Some MAX_ID else parseStreamID now end_) with
  | Some startId, Some endId =>
      '(head, _) ← load_stream stream;
      r ← copy_matching fuel now (λ i, isIdInRange i startId endId) head NULL NULL 0;
      mret (Some r)
  | _, _ => mret None
  end.

Definition streamRead (fuel : nat) (now : Z) (stream : ptr) (id : bytes) : Mem obj (option (ptr * nat)) :=
  match parseStreamID now id with
  | Some startId =>
      '(head, _) ← load_stream stream;
      r ← copy_matching fuel now (λ i, (0 <? compareStreamIDs i startId)%Z) head NULL NULL 0;
      mret (Some r)
  | None => mret None
  end.

Lemma list_copied l : Forall nul_free l → map c_entry l = l.
Proof. induction 1 as [|e l He _ IH]; [done|]. cbn. by rewrite c_entry_id // IH. Qed.

Lemma select_nul_free now keep l : Forall nul_free l → Forall nul_free (select_entries now keep l).
Proof. induction 1 as [|e l He _ IH]; [done|]. cbn. repeat case_match; [by constructor|done..]. Qed.

(** A read in memory: the stream stays, and the result is a list of its own. *)
Lemma wp_read_list fuel now keep s p (Φ : option (ptr * nat) → hPropI obj) :
  (length (entries s) < fuel)%nat → Forall nul_free (entries s) →
  stream_at s p -∗
  (∀ r, stream_at s p -∗ segment_at (select_entries now keep (entries s)) r NULL -∗
     Φ (Some (r, length (select_entries now keep (entries s))))) -∗
  wp ('(head, _) ← load_stream p; r ← copy_matching fuel now keep head NULL NULL 0; mret (Some r)) Φ.
Proof.
  iIntros (Hf Hn) "(%l & %head & %tail & -> & Hl & Hs) HΦ".
  iApply wp_bind. iApply (wp_load_stream with "Hl"). iIntros "Hl".
  iApply wp_bind. iApply (wp_copy_matching with "Hs"); [done|]. iIntros (r t) "Hs Hr".
  iApply wp_ret. rewrite list_copied; [|by apply select_nul_free].
  iApply ("HΦ" with "[Hl Hs]"); [|by iApply list_segment]. iExists l, head, tail. by iFrame.
Qed.

Lemma wp_streamRange fuel now s p start end_ es count (Φ : option (ptr * nat) → hPropI obj) :
  (length (entries s) < fuel)%nat → Forall nul_free (entries s) →
  Stream.streamRange now s start end_ = Some (es, count) →
  stream_at s p -∗ (∀ r, stream_at s p -∗ segment_at es r NULL -∗ Φ (Some (r, Z.to_nat count))) -∗
  wp (streamRange fuel now p start end_) Φ.
Proof.
  intros Hf Hn. rewrite /Stream.streamRange /streamRange.
  destruct (if strcmp_eq start _ then _ else _) as [lo|]; [|done].
  destruct (if strcmp_eq end_ _ then _ else _) as [hi|]; [|done].
  intros [= <- <-]. rewrite Nat2Z.id. by apply wp_read_list.
Qed.

Lemma wp_streamRead fuel now s p text es count (Φ : option (ptr * nat) → hPropI obj) :
  (length (entries s) < fuel)%nat → Forall nul_free (entries s) →
  Stream.streamRead now s text = Some (es, count) →
  stream_at s p -∗ (∀ r, stream_at s p -∗ segment_at es r NULL -∗ Φ (Some (r, Z.to_nat count))) -∗
  wp (streamRead fuel now p text) Φ.
Proof.
  intros Hf Hn. rewrite /Stream.streamRead /streamRead.
  destruct (parseStreamID now text) as [i|]; [|done].
  intros [= <- <-]. rewrite Nat2Z.id. by apply wp_read_list.
Qed.

(** ** Adding *)

(** The last entry of a stream, within it. *)
Lemma stream_tail s p :
  stream_at s p ⊢ ∃ l head tail, <affine> ⌜p = Some l⌝ ∗ l ↦ OStream head tail
    ∗ ((<affine> ⌜tail_of s = None ∧ tail = NULL⌝ ∗ (l ↦ OStream head tail -∗ stream_at s p))
       ∨ ∃ e lt i f v n, <affine> ⌜tail_of s = Some e ∧ tail = Some lt⌝
           ∗ lt ↦ OfEntry (mkCEntry (Some i) f v n NULL) ∗ i ↦ OChars (id e ++ [NUL])
           ∗ (l ↦ OStream head tail -∗ lt ↦ OfEntry (mkCEntry (Some i) f v n NULL) -∗
              i ↦ OChars (id e ++ [NUL]) -∗ stream_at s p)).
Proof.
  rewrite /tail_of. iIntros "(%l & %head & %tail & -> & Hl & Hs)". iExists l, head, tail. iFrame "Hl". iSplit; [done|].
  iDestruct "Hs" as "[%H|(%es & %e & %E & Hs & He)]".
  - iLeft. destruct H as (E & -> & ->). rewrite E. iSplit; [done|]. iIntros "Hl".
    iExists l, NULL, NULL. iFrame "Hl". iSplit; [done|]. by iLeft.
  - iRight. iDestruct (entry_open with "He") as "(%lt & %i & %lf & %lv & %ps & %qs & %H & Hlt & (%li & -> & Hi) & Hr)".
    iExists e, lt, li, (Some lf), (Some lv), (length (fields e)). iFrame "Hlt Hi".
    iSplit; [iPureIntro; rewrite E last_snoc; by destruct H|]. iIntros "Hl Hlt Hi".
    iExists l, head, tail. iFrame "Hl". iSplit; [done|]. iRight. iExists es, e. iFrame "Hs". iSplit; [done|].
    iApply entry_open. iExists lt, (Some li), lf, lv, ps, qs. iSplit; [done|]. iFrame "Hlt Hr". iExists li. by iFrame.
Qed.

Lemma wp_getNextSequence now s m q p (Φ : Z → hPropI obj) :
  Stream.getNextSequence now s m = Ok q → stream_at s p -∗ (stream_at s p -∗ Φ q) -∗ wp (getNextSequence now p m) Φ.
Proof.
  rewrite /Stream.getNextSequence. iIntros (Hq) "Hs HΦ".
  iDestruct (stream_tail with "Hs") as "(%l & %head & %tail & -> & Hl & Hs)".
  iApply wp_bind. iApply (wp_load_stream with "Hl"). iIntros "Hl".
  iDestruct "Hs" as "[[%H Hs]|(%e & %lt & %i & %f & %v & %n & %H & Hlt & Hi & Hs)]"; destruct H as [E ->]; rewrite E in Hq.
  - injection Hq as <-. iApply wp_ret. iApply "HΦ". by iApply "Hs".
  - iApply wp_bind. iApply (wp_load_entry with "Hlt"). iIntros "Hlt". cbn [e_id].
    iApply wp_bind. iApply (wp_load_chars with "Hi"). iIntros "Hi". rewrite parseStreamID_nul.
    destruct (parseStreamID now (id e)) as [last|]; [|done]. injection Hq as <-.
    iApply wp_ret. iApply "HΦ". by iApply ("Hs" with "Hl Hlt").
Qed.

Lemma wp_isValidNextID now s i p (Φ : bool → hPropI obj) :
  stream_at s p -∗ (stream_at s p -∗ Φ (Stream.isValidNextID now s i)) -∗ wp (isValidNextID now p i) Φ.
Proof.
  rewrite /isValidNextID /Stream.isValidNextID. iIntros "Hs HΦ".
  destruct ((ms i =? 0) && (Stream.seq i =? 0))%Z; [iApply wp_ret; by iApply "HΦ"|].
  iDestruct (stream_tail with "Hs") as "(%l & %head & %tail & -> & Hl & Hs)".
  iApply wp_bind. iApply (wp_load_stream with "Hl"). iIntros "Hl".
  iDestruct "Hs" as "[[%H Hs]|(%e & %lt & %li & %f & %v & %n & %H & Hlt & Hi & Hs)]"; destruct H as [E ->]; rewrite E.
  - iApply wp_ret. iApply "HΦ". by iApply "Hs".
  - iApply wp_bind. iApply (wp_load_entry with "Hlt"). iIntros "Hlt". cbn [e_id].
    iApply wp_bind. iApply (wp_load_chars with "Hi"). iIntros "Hi". rewrite parseStreamID_nul.
    iDestruct ("Hs" with "Hl Hlt Hi") as "Hs".
    destruct (parseStreamID now (id e)) as [last|]; [|iApply wp_ret; by iApply "HΦ"].
    repeat case_match; iApply wp_ret; by iApply "HΦ".
Qed.

Lemma getNextSequence_u64 now s m q : Stream.getNextSequence now s m = Ok q → in_u64 q.
Proof.
  rewrite /Stream.getNextSequence. destruct (tail_of s) as [t|].
  - destruct (parseStreamID now (id t)) as [i|]; [|done]. intros [= <-]. case_match; [|done]. apply u64_range.
  - intros [= <-]. by case_match.
Qed.

Lemma wp_streamAdd now s text fs vs reply s' woke p i f v (Φ : ptr → hPropI obj) :
  in_u64 now → length fs = length vs → Stream.streamAdd now s text fs vs = Ok (reply, s', woke) →
  stream_at s p -∗ chars_at text i -∗ array_at fs f -∗ array_at vs v -∗
  (∀ q, stream_at s' p -∗ chars_at text i -∗ array_at fs f -∗ array_at vs v -∗ chars_or_null reply q -∗ Φ q) -∗
  wp (streamAdd now p i f v (length fs)) Φ.
Proof.
  iIntros (Hnow Hlen Ha) "Hs Hi Hf Hv HΦ". rewrite /streamAdd.
  iAssert (<affine> ⌜is_Some p ∧ is_Some i ∧ is_Some f ∧ is_Some v⌝ ∗ stream_at s p ∗ chars_at text i ∗ array_at fs f ∗ array_at vs v)%I
    with "[Hs Hi Hf Hv]" as "(%Hnn & Hs & Hi & Hf & Hv)".
  { iDestruct "Hs" as "(%l1 & %h & %t & -> & Hs)". iDestruct "Hi" as "(%l2 & -> & Hi)".
    iDestruct "Hf" as "(%l3 & %ps & -> & Hf)". iDestruct "Hv" as "(%l4 & %qs & -> & Hv)". iSplit; [done|].
    iSplitL "Hs"; [iExists l1, h, t; by iFrame|]. iSplitL "Hi"; [iExists l2; by iFrame|].
    iSplitL "Hf"; [iExists l3, ps|iExists l4, qs]; by iFrame. }
  rewrite bool_decide_eq_false_2; [|by destruct Hnn as ([? ->] & [? ->] & [? ->] & [? ->]); intros [?|[?|[?|?]]]].
  iDestruct "Hi" as "(%li & -> & Hi)". iApply wp_bind. iApply (wp_load_chars with "Hi"). iIntros "Hi".
  iAssert (chars_at text (Some li)) with "[Hi]" as "Hi"; [iExists li; by iFrame|]. rewrite parseStreamID_nul.
  revert Ha. rewrite /Stream.streamAdd. destruct (parseStreamID now text) as [pid|] eqn:Ep.
  2: { intros [= <- <- <-]. iApply wp_ret. by iApply ("HΦ" with "Hs Hi Hf Hv"). }
  pose proof (parseStreamID_valid now text pid Hnow Ep) as Hpid.
  intros (q & Hq & Ha)%bind_ok_inv.
  assert (valid_id (mkStreamID (ms pid) q)) as Hvalid.
  { split; [apply Hpid|]. clear Ha. revert Hq. case_match; [apply getNextSequence_u64|intros [= <-]; apply Hpid]. }
  iApply wp_bind. iAssert (wp (if (Stream.seq pid =? UINT64_MAX)%Z then getNextSequence now p (ms pid) else mret (Stream.seq pid))
    (λ q', <affine> ⌜q' = q⌝ ∗ stream_at s p)%I) with "[Hs]" as "Hseq".
  { destruct (Stream.seq pid =? UINT64_MAX)%Z.
    - iApply (wp_getNextSequence with "Hs"); [done|]. by iIntros "$".
    - injection Hq as <-. iApply wp_ret. by iFrame. }
  iApply (wp_wand with "Hseq"). iIntros (?) "[-> Hs]". iApply wp_bind. iApply (wp_isValidNextID with "Hs"). iIntros "Hs".
  cbv zeta in Ha. destruct (Stream.isValidNextID now s (mkStreamID (ms pid) q)); cbn [negb] in Ha |- *.
  - injection Ha as <- <- _. iApply wp_bind. iApply wp_malloc. iIntros (fin) "Hfin".
    iApply (wp_append_entry _ _ _ (generateStreamID (ms pid) q) with "Hs [Hfin] Hf Hv"); [done|by apply (generateStreamID_nonul _ Hvalid)| |].
    { iExists fin. by iFrame. }
    iIntros (r) "Hs Hf Hv Hr". by iApply ("HΦ" with "Hs Hi Hf Hv").
  - destruct ((_ =? 0) && _)%Z; injection Ha as <- <- _; iApply wp_malloc; iIntros (r) "Hr";
      iApply ("HΦ" with "Hs Hi Hf Hv"); iExists r; by iFrame.
Qed.

(** ** The properties *)

(** C10. [streamAdd] in memory does what [streamAdd] does to the list, on every
    branch: what it answers is a block of its own, an accepted entry is linked
    behind the last one, the first one if there was none, with copies of the
    caller's strings, and these stay the caller's; nothing else is touched. *)
Theorem stream_add_refines now s text fs vs reply s' woke p i f v m mf :
  in_u64 now → length fs = length vs → Stream.streamAdd now s text fs vs = Ok (reply, s', woke) →
  (stream_at s p ∗ chars_at text i ∗ array_at fs f ∗ array_at vs v)%I m → m ##ₘ mf →
  ∃ q m', streamAdd now p i f v (length fs) (m ∪ mf) = Ok (q, m' ∪ mf) ∧ m' ##ₘ mf
    ∧ (stream_at s' p ∗ chars_at text i ∗ array_at fs f ∗ array_at vs v ∗ chars_or_null reply q)%I m'.
Proof.
  intros Hnow Hlen Ha Hm Hd.
  destruct (wp_run (streamAdd now p i f v (length fs))
    (stream_at s p ∗ chars_at text i ∗ array_at fs f ∗ array_at vs v)%I
    (λ q, stream_at s' p ∗ chars_at text i ∗ array_at fs f ∗ array_at vs v ∗ chars_or_null reply q)%I m mf) as (q & m' & E & Hd' & HQ);
    [|exact Hm|done|by exists q, m'].
  iIntros "(Hs & Hi & Hf & Hv)". iApply (wp_streamAdd with "Hs Hi Hf Hv"); [done..|].
  iIntros (q) "Hs Hi Hf Hv Hq". iFrame.
Qed.

(** C20. A read in memory answers what the read of the list answers, as a list
    of copies that shares nothing with the stream; when the caller has freed it,
    what is left of the part of the memory that was touched is the stream. *)
Theorem stream_read_copies fuel now s p start end_ text es count m mf :
  (length (entries s) < fuel)%nat → Forall nul_free (entries s) → stream_at s p m → m ##ₘ mf →
  (Stream.streamRange now s start end_ = Some (es, count) →
   ∃ r m', streamRange fuel now p start end_ (m ∪ mf) = Ok (Some (r, Z.to_nat count), m' ∪ mf) ∧ m' ##ₘ mf
     ∧ (stream_at s p ∗ segment_at es r NULL)%I m'
     ∧ ∃ m'', free_entries fuel r (m' ∪ mf) = Ok ((), m'' ∪ mf) ∧ m'' ##ₘ mf ∧ stream_at s p m'')
  ∧ (Stream.streamRead now s text = Some (es, count) →
   ∃ r m', streamRead fuel now p text (m ∪ mf) = Ok (Some (r, Z.to_nat count), m' ∪ mf) ∧ m' ##ₘ mf
     ∧ (stream_at s p ∗ segment_at es r NULL)%I m'
     ∧ ∃ m'', free_entries fuel r (m' ∪ mf) = Ok ((), m'' ∪ mf) ∧ m'' ##ₘ mf ∧ stream_at s p m'').
Proof.
  intros Hf Hn Hm Hd.
  assert (∀ c, (∀ Φ : option (ptr * nat) → hPropI obj,
      stream_at s p -∗ (∀ r, stream_at s p -∗ segment_at es r NULL -∗ Φ (Some (r, Z.to_nat count))) -∗ wp c Φ) →
    (length es < fuel)%nat →
    ∃ r m', c (m ∪ mf) = Ok (Some (r, Z.to_nat count), m' ∪ mf) ∧ m' ##ₘ mf
     ∧ (stream_at s p ∗ segment_at es r NULL)%I m'
     ∧ ∃ m'', free_entries fuel r (m' ∪ mf) = Ok ((), m'' ∪ mf) ∧ m'' ##ₘ mf ∧ stream_at s p m'') as Hread.
  { intros c Hc Hes. destruct (wp_run c (stream_at s p)
      (λ a, ∃ r, <affine> ⌜a = Some (r, Z.to_nat count)⌝ ∗ stream_at s p ∗ segment_at es r NULL)%I m mf)
      as (a & m' & E & Hd' & HQ); [|done..|].
    { iIntros "Hs". iApply (Hc with "Hs"). iIntros (r) "Hs Hr". iExists r. by iFrame. }
    destruct HQ as (r & m1 & m2 & -> & _ & [He ->] & HQ). rewrite /= in He. subst m1. rewrite map_empty_union in E Hd'.
    exists r, m2. split_and!; [by rewrite E|done|done|].
    destruct (wp_run (free_entries fuel r) (stream_at s p ∗ segment_at es r NULL)%I (λ _, stream_at s p) m2 mf)
      as ([] & m3 & E3 & Hd3 & H3); [|done..|by exists m3].
    iIntros "[Hs Hr]". by iApply (wp_free_entries with "Hr"). }
  split; intros Hr.
  - apply Hread; [intros Φ; by apply wp_streamRange|].
    revert Hr. rewrite /Stream.streamRange.
    destruct (if strcmp_eq start _ then _ else _) as [lo|]; [|done].
    destruct (if strcmp_eq end_ _ then _ else _) as [hi|]; [|done]. intros [= <- _].
    eapply Nat.le_lt_trans; [apply select_length|done].
  - apply Hread; [intros Φ; by apply wp_streamRead|].
    revert Hr. rewrite /Stream.streamRead. destruct (parseStreamID now text) as [i|]; [|done].
    intros [= <- _]. eapply Nat.le_lt_trans; [apply select_length|done].
Qed.

(** [freeStream] frees the stream, its entries and all their strings, each
    of them once and nothing else. *)
Theorem free_stream_exact fuel s p m mf :
  (length (entries s) < fuel)%nat → stream_at s p m → m ##ₘ mf →
  freeStream fuel p (m ∪ mf) = Ok ((), mf).
Proof.
  intros Hf Hm Hd. destruct (wp_run (freeStream fuel p) (stream_at s p) (λ _, emp)%I m mf) as ([] & m' & E & _ & He);
    [iIntros "Hs"; by iApply (wp_freeStream with "Hs")|done..|].
  rewrite E. by rewrite He map_empty_union.
Qed.

(** ** Witnesses *)

Definition ex_strings : gmap loc obj :=
  {[4%positive := OPtrs [Some 5%positive]]} ∪ ({[5%positive := OChars (bs "f" ++ [NUL])]}
  ∪ ({[6%positive := OPtrs [Some 7%positive]]} ∪ ({[7%positive := OChars (bs "v" ++ [NUL])]}
  ∪ {[3%positive := OChars (bs "1-1" ++ [NUL])]}))).
Definition ex_stream : Stream := mkStream [mkStreamEntry (bs "1-1") [bs "f"] [bs "v"]].
Definition ex_stream_memory : gmap loc obj :=
  {[1%positive := OStream (Some 2%positive) (Some 2%positive)]}
  ∪ ({[2%positive := OEntry (Some 3%positive) (Some 4%positive) (Some 6%positive) 1 NULL]} ∪ ex_strings).
Definition ex_empty_memory : gmap loc obj := {[1%positive := OStream NULL NULL]} ∪ ex_strings.

Lemma ex_strings_at :
  (array_at [bs "f"] (Some 4%positive) ∗ array_at [bs "v"] (Some 6%positive)
   ∗ chars_at (bs "1-1") (Some 3%positive))%I ex_strings.
Proof.
  assert ((4%positive ↦ OPtrs [Some 5%positive] ∗ 5%positive ↦ OChars (bs "f" ++ [NUL])
    ∗ 6%positive ↦ OPtrs [Some 7%positive] ∗ 7%positive ↦ OChars (bs "v" ++ [NUL])
    ∗ 3%positive ↦ OChars (bs "1-1" ++ [NUL]))%I ex_strings) as H.
  { repeat (apply sep_holds; [exact eq_refl| |solve_map_disjoint]). exact eq_refl. }
  revert H. apply entails_holds. iIntros "(H4 & H5 & H6 & H7 & H3)".
  iSplitL "H4 H5"; [|iSplitL "H6 H7"].
  - iExists 4%positive, [Some 5%positive]. iFrame "H4". iSplit; [done|]. cbn [strings_at].
    iSplitL; [|done]. iExists 5%positive. by iFrame.
  - iExists 6%positive, [Some 7%positive]. iFrame "H6". iSplit; [done|]. cbn [strings_at].
    iSplitL; [|done]. iExists 7%positive. by iFrame.
  - iExists 3%positive. by iFrame.
Qed.

Lemma ex_stream_at : stream_at ex_stream (Some 1%positive) ex_stream_memory.
Proof.
  assert ((1%positive ↦ OStream (Some 2%positive) (Some 2%positive)
    ∗ 2%positive ↦ OEntry (Some 3%positive) (Some 4%positive) (Some 6%positive) 1 NULL
    ∗ array_at [bs "f"] (Some 4%positive) ∗ array_at [bs "v"] (Some 6%positive)
    ∗ chars_at (bs "1-1") (Some 3%positive))%I ex_stream_memory) as H.
  { repeat (apply sep_holds; [exact eq_refl| |solve_map_disjoint]). exact ex_strings_at. }
  revert H. apply entails_holds. iIntros "(H1 & H2 & Hf & Hv & Hi)".
  iExists 1%positive, (Some 2%positive), (Some 2%positive). iSplit; [done|]. iFrame "H1". iRight.
  iExists [], (mkStreamEntry (bs "1-1") [bs "f"] [bs "v"]). iSplit; [done|]. iSplit; [done|].
  iExists 2%positive, (Some 3%positive), (Some 4%positive), (Some 6%positive). by iFrame.
Qed.

Lemma ex_empty_at :
  (stream_at (mkStream []) (Some 1%positive) ∗ chars_at (bs "1-1") (Some 3%positive)
   ∗ array_at [bs "f"] (Some 4%positive) ∗ array_at [bs "v"] (Some 6%positive))%I ex_empty_memory.
Proof.
  assert ((1%positive ↦ OStream NULL NULL
    ∗ array_at [bs "f"] (Some 4%positive) ∗ array_at [bs "v"] (Some 6%positive)
    ∗ chars_at (bs "1-1") (Some 3%positive))%I ex_empty_memory) as H.
  { apply sep_holds; [exact eq_refl| |solve_map_disjoint]. exact ex_strings_at. }
  revert H. apply entails_holds. iIntros "(H1 & $ & $ & $)".
  iExists 1%positive, NULL, NULL. iFrame "H1". iSplit; [done|]. by iLeft.
Qed.

Lemma stream_add_refines_witness :
  ∃ q m', streamAdd 0 (Some 1%positive) (Some 3%positive) (Some 4%positive) (Some 6%positive) 1 (ex_empty_memory ∪ ∅)
      = Ok (q, m' ∪ ∅) ∧ m' ##ₘ ∅
    ∧ (stream_at ex_stream (Some 1%positive) ∗ chars_at (bs "1-1") (Some 3%positive)
       ∗ array_at [bs "f"] (Some 4%positive) ∗ array_at [bs "v"] (Some 6%positive) ∗ chars_at (bs "1-1") q)%I m'.
Proof.
  apply (stream_add_refines 0 (mkStream []) (bs "1-1") [bs "f"] [bs "v"] (Some (bs "1-1")) ex_stream true (Some 1%positive)
    (Some 3%positive) (Some 4%positive) (Some 6%positive)).
  - done.
  - reflexivity.
  - vm_compute. reflexivity.
  - exact ex_empty_at.
  - apply map_disjoint_empty_r.
Defined.

Lemma stream_read_copies_witness :
  ∃ r m', streamRead 2 0 (Some 1%positive) (bs "0-0") (ex_stream_memory ∪ ∅) = Ok (Some (r, 1%nat), m' ∪ ∅) ∧ m' ##ₘ ∅
     ∧ (stream_at ex_stream (Some 1%positive) ∗ segment_at (entries ex_stream) r NULL)%I m'
     ∧ ∃ m'', free_entries 2 r (m' ∪ ∅) = Ok ((), m'' ∪ ∅) ∧ m'' ##ₘ ∅ ∧ stream_at ex_stream (Some 1%positive) m''.
Proof.
  assert (length (entries ex_stream) < 2)%nat as H1 by (cbn; lia).
  assert (Forall nul_free (entries ex_stream)) as H2.
  { repeat constructor; apply (bool_decide_unpack _); exact I. }
  apply (proj2 (stream_read_copies 2 0 ex_stream (Some 1%positive) (bs "-") (bs "+") (bs "0-0") (entries ex_stream) 1
    ex_stream_memory ∅ H1 H2 ex_stream_at (map_disjoint_empty_r _))).
  vm_compute. reflexivity.
Defined.

Lemma free_stream_exact_witness :
  freeStream 2 (Some 1%positive) (ex_stream_memory ∪ {[8%positive := OFresh]}) = Ok ((), {[8%positive := OFresh]}).
Proof.
  apply (free_stream_exact 2 ex_stream); [cbn; lia|exact ex_stream_at|].
  apply map_disjoint_singleton_r. reflexivity.
Defined.
