(* ===== verification/StoreMemory.v ===== *)
(** * The store in memory (src/app/redis_store.c)

    The blocks behind a [RedisStore], and the operations on them, pointer by
    pointer: creation, growth, SET, GET, expiry, the sweep and the release.
    The streams are kept apart from the table, because a blocked XREAD points
    to them too: [heap_at] owns them, and an entry only holds a pointer. *)

From S2P Require Import Prelude Heap CLib Stream Store Memory StreamMemory.
From iris.proofmode Require Import proofmode.

(** ** Accesses *)

Record CStoreEntry := mkCStoreEntry { se_key : ptr; se_value : CValue; se_expiry : Z; se_next : ptr }.
Definition OfStoreEntry (e : CStoreEntry) : obj := OStoreEntry (se_key e) (se_value e) (se_expiry e) (se_next e).

Definition load_store_entry (p : ptr) : Mem obj CStoreEntry :=
  o ← load p; match o with OStoreEntry k v x q => mret (mkCStoreEntry k v x q) | _ => undefined end.
(** [p->value = v], with its type *)
Definition set_value (p : ptr) (v : CValue) : Mem obj () :=
  e ← load_store_entry p; store p (OStoreEntry (se_key e) v (se_expiry e) (se_next e)).
Definition set_expiry (p : ptr) (x : Z) : Mem obj () :=
  e ← load_store_entry p; store p (OStoreEntry (se_key e) (se_value e) x (se_next e)).
Definition set_entry_next (p q : ptr) : Mem obj () :=
  e ← load_store_entry p; store p (OStoreEntry (se_key e) (se_value e) (se_expiry e) q).
Definition load_store (p : ptr) : Mem obj (ptr * nat * Z) :=
  o ← load p; match o with OStore t n u => mret (t, n, u) | _ => undefined end.

(** [malloc(len)] and [memcpy] *)
Definition copy_data (value : ptr) (len : nat) : Mem obj ptr :=
  copy ← malloc OFresh;
  data ← load_chars value;
  if (length data <? len)%nat then undefined else _ ← store copy (OChars (take len data)); mret copy.

(** A [StoreEntry **]: a slot of the table or the [next] field of an entry. *)
Inductive link := Slot (table : ptr) (i : nat) | Next (entry : ptr).
Definition read_link (l : link) : Mem obj ptr :=
  match l with
  | Slot t i => load_index t i
  | Next e => e ← load_store_entry e; mret (se_next e)
  end.
Definition write_link (l : link) (p : ptr) : Mem obj () :=
  match l with Slot t i => store_index t i p | Next e => set_entry_next e p end.

(** ** Operations

    Chains and streams are shorter than [limit]. *)

Section Operations.
Context (limit : nat).

Definition createStore : Mem obj ptr :=
  s ← malloc OFresh;
  table ← malloc (OPtrs (replicate INITIAL_STORE_SIZE NULL));
  _ ← store s (OStore table INITIAL_STORE_SIZE 0);
  mret s.

Definition free_data (v : CValue) : Mem obj () :=
  match v with CData data _ => free data | CStream stream => freeStream limit stream end.

Definition freeEntry (entry : ptr) : Mem obj () :=
  e ← load_store_entry entry;
  _ ← free (se_key e);
  _ ← free_data (se_value e);
  free entry.

(** The inner loop of [resize]. *)
Fixpoint relink (fuel : nat) (newTable : ptr) (newSize : nat) (entry : ptr) : Mem obj () :=
  match fuel with
  | O => diverge
  | S fuel' =>
      match entry with
      | None => mret ()
      | Some _ =>
          e ← load_store_entry entry;
          k ← load_chars (se_key e);
          let hashVal := slot newSize k in
          head ← load_index newTable hashVal;
          _ ← set_entry_next entry head;
          _ ← store_index newTable hashVal entry;
          relink fuel' newTable newSize (se_next e)
      end
  end.

Definition resize (st : ptr) : Mem obj () :=
  '(table, n, used) ← load_store st;
  let newSize := (n * 2)%nat in
  newTable ← malloc (OPtrs (replicate newSize NULL));
  _ ← for_from 0 n (λ i, entry ← load_index table i; relink limit newTable newSize entry);
  _ ← free table;
  store st (OStore newTable newSize used).

(** The walk along a chain to the entry of a key. *)
Fixpoint walk (fuel : nat) (entry : ptr) (k : bytes) : Mem obj ptr :=
  match fuel with
  | O => diverge
  | S fuel' =>
      match entry with
      | None => mret NULL
      | Some _ =>
          e ← load_store_entry entry;
          k' ← load_chars (se_key e);
          if strcmp_eq k' k then mret entry else walk fuel' (se_next e) k
      end
  end.

(** [hash(key) % store->size] and the walk. *)
Definition find (st key : ptr) : Mem obj ptr :=
  '(table, n, _) ← load_store st;
  k ← load_chars key;
  head ← load_index table (slot n k);
  walk limit head k.

(** A new entry at the head of its chain. *)
Definition insert_entry (st key entry k : ptr) (v : CValue) (x : Z) : Mem obj () :=
  '(table, n, used) ← load_store st;
  text ← load_chars key;
  head ← load_index table (slot n text);
  _ ← store entry (OStoreEntry k v x head);
  _ ← store_index table (slot n text) entry;
  store st (OStore table n (used + 1)).

Definition storeSet (st key value : ptr) (valueLen : nat) : Mem obj Z :=
  if bool_decide (st = NULL ∨ key = NULL ∨ value = NULL) then mret STORE_ERR
  else
    '(_, n, used) ← load_store st;
    _ ← (if load_exceeded used (Z.of_nat n) then resize st else mret ());
    entry ← find st key;
    match entry with
    | Some _ =>
        e ← load_store_entry entry;
        _ ← free_data (se_value e);
        data ← copy_data value valueLen;
        _ ← set_value entry (CData data valueLen);
        mret STORE_OK
    | None =>
        entry ← malloc OFresh;
        k ← strdup key;
        data ← copy_data value valueLen;
        _ ← insert_entry st key entry k (CData data valueLen) 0;
        mret STORE_OK
    end.

(** A new entry has no expiry written. *)
Definition storeStreamAdd (now : Z) (j : junk) (st key id fields values : ptr) (numFields : nat) : Mem obj ptr :=
  entry ← find st key;
  entry ← match entry with
          | Some _ => mret entry
          | None =>
              entry ← malloc OFresh;
              k ← strdup key;
              s ← StreamMemory.createStream;
              _ ← insert_entry st key entry k (CStream s) (junk_int j);
              mret entry
          end;
  e ← load_store_entry entry;
  match se_value e with
  | CStream s => StreamMemory.streamAdd now s id fields values numFields
  | CData _ _ => undefined
  end.

(** The value and its length, or [NULL]. *)
Definition storeGet (now : Z) (st key : ptr) : Mem obj (option (ptr * nat)) :=
  if bool_decide (st = NULL ∨ key = NULL) then mret None
  else
    entry ← find st key;
    match entry with
    | None => mret None
    | Some _ =>
        e ← load_store_entry entry;
        if negb (se_expiry e =? 0)%Z && (se_expiry e <=? now)%Z then mret None
        else match se_value e with
             | CStream _ => mret None
             | CData data len => v ← copy_data data len; mret (Some (v, len))
             end
    end.

Definition setExpiry (st key : ptr) (x : Z) : Mem obj Z :=
  entry ← find st key;
  match entry with
  | Some _ => _ ← set_expiry entry x; mret STORE_OK
  | None => mret STORE_ERR
  end.

Definition storeGetStream (st key : ptr) : Mem obj ptr :=
  entry ← find st key;
  match entry with
  | Some _ => e ← load_store_entry entry;
              match se_value e with CStream s => mret s | CData _ _ => mret NULL end
  | None => mret NULL
  end.

(** The inner loop of [clearExpired]. *)
Fixpoint sweep (fuel : nat) (now : Z) (st : ptr) (entryPtr : link) : Mem obj () :=
  match fuel with
  | O => diverge
  | S fuel' =>
      entry ← read_link entryPtr;
      match entry with
      | None => mret ()
      | Some _ =>
          e ← load_store_entry entry;
          if negb (se_expiry e =? 0)%Z && (se_expiry e <? now)%Z then
            _ ← write_link entryPtr (se_next e);
            _ ← freeEntry entry;
            '(table, n, used) ← load_store st;
            _ ← store st (OStore table n (used - 1));
            sweep fuel' now st entryPtr
          else sweep fuel' now st (Next entry)
      end
  end.

Definition clearExpired (now : Z) (st : ptr) : Mem obj () :=
  '(table, n, _) ← load_store st;
  for_from 0 n (λ i, sweep limit now st (Slot table i)).

(** The inner loop of [freeStore]. *)
Fixpoint free_chain (fuel : nat) (entry : ptr) : Mem obj () :=
  match fuel with
  | O => diverge
  | S fuel' =>
      match entry with
      | None => mret ()
      | Some _ => e ← load_store_entry entry; _ ← freeEntry entry; free_chain fuel' (se_next e)
      end
  end.

Definition freeStore (st : ptr) : Mem obj () :=
  match st with
  | None => mret ()
  | Some _ =>
      '(table, n, _) ← load_store st;
      _ ← for_from 0 n (λ i, entry ← load_index table i; free_chain limit entry);
      _ ← free table;
      free st
  end.
End Operations.

(** ** Ownership *)

(** Where each stream is. *)
Abbreviation places := (nat → ptr).

Definition heap_at (ρ : places) (h : Store.heap) : hPropI obj := [∗ map] r ↦ s ∈ h, stream_at s (ρ r).

Definition data_at (ρ : places) (v : StoreValue) (c : CValue) : hPropI obj :=
  match v with
  | VString d => ∃ l, <affine> ⌜c = CData (Some l) (length d)⌝ ∗ l ↦ OChars d
  | VStream r => <affine> ⌜c = CStream (ρ r)⌝
  end.

Definition store_entry_at (ρ : places) (e : Store.StoreEntry) (next p : ptr) : hPropI obj :=
  ∃ l k c, <affine> ⌜p = Some l⌝ ∗ l ↦ OStoreEntry k c (Store.expiry e) next
    ∗ chars_at (Store.key e) k ∗ data_at ρ (Store.value e) c.

Fixpoint chain_at (ρ : places) (b : list Store.StoreEntry) (p : ptr) : hPropI obj :=
  match b with
  | [] => <affine> ⌜p = NULL⌝
  | e :: b => ∃ next, store_entry_at ρ e next p ∗ chain_at ρ b next
  end%I.
Fixpoint chains_at (ρ : places) (t : list (list Store.StoreEntry)) (ps : list ptr) : hPropI obj :=
  match t, ps with
  | [], [] => emp
  | b :: t, p :: ps => chain_at ρ b p ∗ chains_at ρ t ps
  | _, _ => False
  end%I.

Definition store_at (ρ : places) (st : RedisStore) (p : ptr) : hPropI obj :=
  ∃ l lt ps, <affine> ⌜p = Some l⌝ ∗ l ↦ OStore (Some lt) (length (table st)) (Store.used st)
    ∗ lt ↦ OPtrs ps ∗ chains_at ρ (table st) ps.

(** With its streams, somewhere in memory. *)
Definition some_store (h : Store.heap) (st : RedisStore) (p : ptr) : hPropI obj :=
  ∃ ρ, store_at ρ st p ∗ heap_at ρ h.

(** ** The rules for typed accesses *)

Lemma wp_load_store_entry l e (Φ : CStoreEntry → hPropI obj) :
  l ↦ OfStoreEntry e -∗ (l ↦ OfStoreEntry e -∗ Φ e) -∗ wp (load_store_entry (Some l)) Φ.
Proof.
  iIntros "Hl HΦ". iApply wp_bind. iApply (wp_load with "Hl"). iIntros "Hl".
  destruct e. iApply wp_ret. by iApply "HΦ".
Qed.

Lemma wp_set_value l e c (Φ : () → hPropI obj) :
  l ↦ OfStoreEntry e -∗ (l ↦ OfStoreEntry (mkCStoreEntry (se_key e) c (se_expiry e) (se_next e)) -∗ Φ ()) -∗ wp (set_value (Some l) c) Φ.
Proof.
  iIntros "Hl HΦ". iApply wp_bind. iApply (wp_load_store_entry with "Hl"). iIntros "Hl". by iApply (wp_store with "Hl").
Qed.

Lemma wp_set_expiry l e x (Φ : () → hPropI obj) :
  l ↦ OfStoreEntry e -∗ (l ↦ OfStoreEntry (mkCStoreEntry (se_key e) (se_value e) x (se_next e)) -∗ Φ ()) -∗ wp (set_expiry (Some l) x) Φ.
Proof.
  iIntros "Hl HΦ". iApply wp_bind. iApply (wp_load_store_entry with "Hl"). iIntros "Hl". by iApply (wp_store with "Hl").
Qed.

Lemma wp_set_entry_next l e q (Φ : () → hPropI obj) :
  l ↦ OfStoreEntry e -∗ (l ↦ OfStoreEntry (mkCStoreEntry (se_key e) (se_value e) (se_expiry e) q) -∗ Φ ()) -∗
  wp (set_entry_next (Some l) q) Φ.
Proof.
  iIntros "Hl HΦ". iApply wp_bind. iApply (wp_load_store_entry with "Hl"). iIntros "Hl". by iApply (wp_store with "Hl").
Qed.

Lemma wp_load_store l t n u (Φ : ptr * nat * Z → hPropI obj) :
  l ↦ OStore t n u -∗ (l ↦ OStore t n u -∗ Φ (t, n, u)) -∗ wp (load_store (Some l)) Φ.
Proof.
  iIntros "Hl HΦ". iApply wp_bind. iApply (wp_load with "Hl"). iIntros "Hl". iApply wp_ret. by iApply "HΦ".
Qed.

Lemma wp_copy_data l d more (Φ : ptr → hPropI obj) :
  l ↦ OChars (d ++ more) -∗ (∀ c, l ↦ OChars (d ++ more) -∗ c ↦ OChars d -∗ Φ (Some c)) -∗
  wp (copy_data (Some l) (length d)) Φ.
Proof.
  iIntros "Hl HΦ". iApply wp_bind. iApply wp_malloc. iIntros (c) "Hc".
  iApply wp_bind. iApply (wp_load_chars with "Hl"). iIntros "Hl".
  rewrite (proj2 (Nat.ltb_ge _ _)); [|rewrite length_app; lia].
  iApply wp_bind. iApply (wp_store with "Hc"). iIntros "Hc". iApply wp_ret. rewrite take_app_length.
  iApply ("HΦ" with "Hl Hc").
Qed.

(** ** Chains and tables *)

Section Chains.
Context (ρ : places).

Lemma chains_at_length t ps : chains_at ρ t ps ⊢ <affine> ⌜length ps = length t⌝ ∗ chains_at ρ t ps.
Proof.
  revert ps. induction t as [|b t IH]; intros [|p ps]; cbn; try (by iIntros "[]"); [by iIntros "?"; iFrame|].
  iIntros "[Hb Ht]". iDestruct (IH with "Ht") as "[%E Ht]". iFrame. by rewrite E.
Qed.

(** One chain of a table, and what may replace it. *)
Lemma chains_at_split t ps i :
  (i < length t)%nat →
  chains_at ρ t ps ⊢ ∃ b p, <affine> ⌜t !! i = Some b ∧ ps !! i = Some p⌝ ∗ chain_at ρ b p
    ∗ ∀ b' p', chain_at ρ b' p' -∗ chains_at ρ (<[i := b']> t) (<[i := p']> ps).
Proof.
  revert t ps. induction i as [|i IH]; intros [|b t] [|p ps] Hi; cbn in Hi |- *; try lia; try (by iIntros "[]").
  - iIntros "[Hb Ht]". iExists b, p. iFrame "Hb". iSplit; [done|]. iIntros (b' p') "Hb". iFrame.
  - iIntros "[Hb Ht]". iDestruct (IH t ps with "Ht") as "(%b' & %p' & %H & Hb' & Ht)"; [lia|].
    iExists b', p'. iFrame "Hb'". iSplit; [done|]. iIntros (b'' q) "Hq". iFrame "Hb". by iApply "Ht".
Qed.

Lemma chains_at_app t1 t2 ps1 ps2 : chains_at ρ t1 ps1 ∗ chains_at ρ t2 ps2 ⊢ chains_at ρ (t1 ++ t2) (ps1 ++ ps2).
Proof.
  revert ps1. induction t1 as [|b t1 IH]; intros [|p ps1]; cbn; try (by iIntros "[[] ?]"); [by iIntros "[_ ?]"|].
  iIntros "[[Hb H1] H2]". iFrame. iApply IH. iFrame.
Qed.

Lemma chains_at_empty n : emp ⊢ chains_at ρ (replicate n []) (replicate n NULL).
Proof. induction n as [|n IH]; cbn; [done|]. iIntros "H". iSplit; [done|]. by iApply IH. Qed.

(** A store entry opened up. *)
Lemma store_entry_open e next p :
  store_entry_at ρ e next p ⊣⊢ ∃ l lk c, <affine> ⌜p = Some l⌝
    ∗ l ↦ OfStoreEntry (mkCStoreEntry (Some lk) c (Store.expiry e) next)
    ∗ lk ↦ OChars (Store.key e ++ [NUL]) ∗ data_at ρ (Store.value e) c.
Proof.
  iSplit.
  - iIntros "(%l & %k & %c & -> & Hl & (%lk & -> & Hk) & Hc)". iExists l, lk, c. by iFrame.
  - iIntros "(%l & %lk & %c & -> & Hl & Hk & Hc)". iExists l, (Some lk), c. iFrame "Hl Hc".
    iSplit; [done|]. iExists lk. by iFrame.
Qed.

(** The head of a chain. *)
Lemma chain_cons e b l next c lk :
  l ↦ OfStoreEntry (mkCStoreEntry (Some lk) c (Store.expiry e) next) -∗ lk ↦ OChars (Store.key e ++ [NUL]) -∗
  data_at ρ (Store.value e) c -∗ chain_at ρ b next -∗ chain_at ρ (e :: b) (Some l).
Proof.
  iIntros "Hl Hk Hc Hb". iExists next. iFrame "Hb". iApply store_entry_open. iExists l, lk, c. by iFrame.
Qed.

Lemma strcmp_eq_nul a b : strcmp_eq (a ++ [NUL]) (b ++ [NUL]) = strcmp_eq a b.
Proof. by rewrite /strcmp_eq !cstr_app_nul. Qed.
Lemma slot_nul n k : slot n (k ++ [NUL]) = slot n k.
Proof. by rewrite -(slot_cstr n (k ++ _)) cstr_app_nul slot_cstr. Qed.

(** ** Walking *)

(** The walk stops at the first entry of the key, which may be replaced. *)
Lemma wp_walk fuel k b p (Φ : ptr → hPropI obj) :
  (length b < fuel)%nat → chain_at ρ b p -∗
  (∀ q, match find_entry k b with
        | None => <affine> ⌜q = NULL⌝ ∗ chain_at ρ b p
        | Some e => ∃ l lk c next, <affine> ⌜q = Some l⌝
            ∗ l ↦ OfStoreEntry (mkCStoreEntry (Some lk) c (Store.expiry e) next)
            ∗ lk ↦ OChars (Store.key e ++ [NUL]) ∗ data_at ρ (Store.value e) c
            ∗ ∀ e', store_entry_at ρ e' next q -∗ chain_at ρ (update_entry k (λ _, e') b) p
        end -∗ Φ q) -∗
  wp (walk fuel p (k ++ [NUL])) Φ.
Proof.
  revert b p Φ. induction fuel as [|fuel IH]; intros b p Φ Hf; [lia|].
  destruct b as [|e b]; cbn [chain_at walk find_entry update_entry].
  - iIntros "-> HΦ". iApply wp_ret. by iApply "HΦ".
  - iIntros "(%next & He & Hb) HΦ". iDestruct (store_entry_open with "He") as "(%l & %lk & %c & -> & Hl & Hk & Hc)".
    iApply wp_bind. iApply (wp_load_store_entry with "Hl"). iIntros "Hl". cbn [se_key se_next].
    iApply wp_bind. iApply (wp_load_chars with "Hk"). iIntros "Hk". rewrite strcmp_eq_nul.
    destruct (strcmp_eq (Store.key e) k).
    + iApply wp_ret. iApply "HΦ". iExists l, lk, c, next. iFrame "Hl Hk Hc". iSplit; [done|].
      iIntros (e') "He'". iExists next. iFrame.
    + iApply (IH with "Hb"); [cbn in Hf; lia|]. iIntros (q) "Hq". iApply "HΦ".
      destruct (find_entry k b) as [e0|].
      * iDestruct "Hq" as "(%l0 & %lk0 & %c0 & %next0 & -> & Hl0 & Hk0 & Hc0 & Hq)".
        iExists l0, lk0, c0, next0. iFrame "Hl0 Hk0 Hc0". iSplit; [done|]. iIntros (e') "He'".
        iDestruct ("Hq" with "He'") as "Hb". iApply (chain_cons with "Hl Hk Hc Hb").
      * iDestruct "Hq" as "[-> Hb]". iSplit; [done|]. iApply (chain_cons with "Hl Hk Hc Hb").
Qed.
End Chains.

(** ** Finding *)

Lemma update_entry_found k f b e : find_entry k b = Some e → update_entry k f b = update_entry k (λ _, f e) b.
Proof. induction b as [|x b IH]; cbn; [done|]. case_match; [by intros [= ->]|intros H0; by rewrite IH]. Qed.

Lemma update_entry_same k b e : find_entry k b = Some e → update_entry k (λ _, e) b = b.
Proof. induction b as [|x b IH]; cbn; [done|]. case_match; [by intros [= ->]|intros H0; by rewrite IH]. Qed.

Section Find.
Context (st : RedisStore) (k : bytes) (e : Store.StoreEntry) (Hf : lookup_entry st k = Some e).

Lemma found_bucket b : table st !! slot (length (table st)) k = Some b → find_entry k b = Some e.
Proof using Hf. move: Hf. rewrite /lookup_entry /bucket. by destruct (table st !! _) as [?|]; [intros ? [= <-]|]. Qed.

Lemma set_entry_found f : set_entry st k f = set_entry st k (λ _, f e).
Proof using Hf.
  rewrite /set_entry. f_equal. apply list_alter_ext; [|done]. intros b Hb. apply update_entry_found. by apply found_bucket.
Qed.

Lemma set_entry_same : set_entry st k (λ _, e) = st.
Proof using Hf.
  rewrite /set_entry. transitivity (mkRedisStore (table st) (Store.used st)); [f_equal|by destruct st].
  rewrite (list_alter_ext _ (λ b, b) _ (table st)) //; [by apply list_alter_id|].
  intros b Hb. apply update_entry_same. by apply found_bucket.
Qed.
End Find.

Lemma set_entry_insert st k f b :
  table st !! slot (length (table st)) k = Some b →
  set_entry st k f = mkRedisStore (<[slot (length (table st)) k := update_entry k f b]> (table st)) (Store.used st).
Proof.
  intros Hb. rewrite /set_entry list_insert_alter. f_equal. apply list_alter_ext; [|done]. intros b'. rewrite Hb. by intros [= <-].
Qed.

Lemma length_bucket st k : (length (bucket st k) ≤ length (concat (table st)))%nat.
Proof.
  rewrite /bucket. destruct (table st !! _) as [b|] eqn:E; cbn; [|lia].
  rewrite (concat_split _ _ _ E) !length_app. lia.
Qed.

(** ** Values and the streams they point to *)

Definition value_live (h : Store.heap) (v : StoreValue) : Prop :=
  match v with VString _ => True | VStream r => is_Some (h !! r) end.
Definition live (h : Store.heap) (l : list Store.StoreEntry) : Prop :=
  NoDup (omap ref_of l) ∧ ∀ r, r ∈ omap ref_of l → is_Some (h !! r).
Definition free_values (h : Store.heap) (l : list Store.StoreEntry) : Store.heap :=
  fold_left (λ h e, free_value h (Store.value e)) l h.
Definition gone_at (now : Z) (b : list Store.StoreEntry) : list Store.StoreEntry := filter (λ e, expired_at now e = true) b.
Definition kept_at (now : Z) (b : list Store.StoreEntry) : list Store.StoreEntry := filter (λ e, expired_at now e = false) b.

Lemma gone_cons now e b : gone_at now (e :: b) = if expired_at now e then e :: gone_at now b else gone_at now b.
Proof. rewrite /gone_at filter_cons. by destruct (expired_at now e). Qed.

Lemma kept_cons now e b : kept_at now (e :: b) = if expired_at now e then kept_at now b else e :: kept_at now b.
Proof. rewrite /kept_at filter_cons. by destruct (expired_at now e). Qed.

Lemma live_cons h e l :
  live h (e :: l) → value_live h (Store.value e) ∧ live (free_value h (Store.value e)) l ∧ live h l.
Proof.
  rewrite /live /ref_of /=. destruct (Store.value e) as [d|r]; cbn; [done|].
  intros [[Hr Hn]%NoDup_cons Hl]. split_and!; [apply Hl; set_solver|done| |done|].
  - intros r' Hr'. rewrite lookup_delete_ne; [|by intros ->]. apply Hl. set_solver.
  - intros r' Hr'. apply Hl. set_solver.
Qed.

Lemma live_drop h l1 l2 (P : Store.StoreEntry → Prop) `{!∀ e, Decision (P e)} :
  live h (l1 ++ l2) → live (free_values h (filter P l1)) l2.
Proof.
  revert h. induction l1 as [|e l1 IH]; intros h Hl; [done|]. cbn [app] in Hl.
  apply live_cons in Hl as (_ & H1 & H2). rewrite filter_cons. case_decide; by apply IH.
Qed.

Lemma live_drop_all h l1 l2 : live h (l1 ++ l2) → live (free_values h l1) l2.
Proof. revert h. induction l1 as [|e l1 IH]; intros h Hl; [done|]. apply live_cons in Hl as (_ & Hl & _). by apply IH. Qed.

Lemma free_values_app h l1 l2 : free_values h (l1 ++ l2) = free_values (free_values h l1) l2.
Proof. apply fold_left_app. Qed.

Lemma owns_live h l : owns h l → live h l.
Proof. intros [H1 H2 _]. split; [done|]. intros r Hr. by apply H2. Qed.

Section Store.
Context (limit : nat) (ρ : places).

(** What [find] answers: a pointer into the table, which may be written through. *)
Lemma wp_find st k p kp (Φ : ptr → hPropI obj) :
  (0 < length (table st))%nat → (length (concat (table st)) < limit)%nat →
  store_at ρ st p -∗ chars_at k kp -∗
  (∀ q, chars_at k kp -∗
     match lookup_entry st k with
     | None => <affine> ⌜q = NULL⌝ ∗ store_at ρ st p
     | Some e => ∃ l lk c next, <affine> ⌜q = Some l⌝
         ∗ l ↦ OfStoreEntry (mkCStoreEntry (Some lk) c (Store.expiry e) next)
         ∗ lk ↦ OChars (Store.key e ++ [NUL]) ∗ data_at ρ (Store.value e) c
         ∗ ∀ e', store_entry_at ρ e' next q -∗ store_at ρ (set_entry st k (λ _, e')) p
     end -∗ Φ q) -∗
  wp (find limit p kp) Φ.
Proof.
  iIntros (Hpos Hlen) "(%l & %lt & %ps & -> & Hl & Ht & Hc) (%lk & -> & Hk) HΦ".
  iApply wp_bind. iApply (wp_load_store with "Hl"). iIntros "Hl".
  iApply wp_bind. iApply (wp_load_chars with "Hk"). iIntros "Hk". rewrite slot_nul.
  pose proof (slot_bound (length (table st)) k Hpos) as Hslot.
  iDestruct (chains_at_split ρ _ _ _ Hslot with "Hc") as "(%b & %p & %H & Hb & Hc)". destruct H as [Eb Ep].
  assert (bucket st k = b) as Ebk by by rewrite /bucket Eb.
  iApply wp_bind. iApply (wp_load_index with "Ht"); [done|]. iIntros "Ht".
  pose proof (length_bucket st k) as Hbk. rewrite Ebk in Hbk.
  iApply (wp_walk with "Hb"); [lia|]. iIntros (q) "Hq". iApply ("HΦ" with "[Hk]"); [iExists lk; by iFrame|].
  rewrite /lookup_entry Ebk. destruct (find_entry k b) as [e|] eqn:Ef.
  - iDestruct "Hq" as "(%l0 & %lk0 & %c0 & %next & -> & Hl0 & Hk0 & Hc0 & Hq)".
    iExists l0, lk0, c0, next. iFrame "Hl0 Hk0 Hc0". iSplit; [done|]. iIntros (e') "He'".
    iDestruct ("Hc" with "(Hq He')") as "Hc". rewrite (set_entry_insert _ _ _ _ Eb).
    iExists l, lt, ps. cbn [table Store.used]. rewrite length_insert (list_insert_id _ _ p) //. by iFrame.
  - iDestruct "Hq" as "[-> Hb]". iSplit; [done|]. iDestruct ("Hc" with "Hb") as "Hc".
    iExists l, lt, ps. rewrite !list_insert_id //. by iFrame.
Qed.

(** ** Freeing *)

Definition short (h : Store.heap) : Prop := map_Forall (λ _ s, (length (Stream.entries s) < limit)%nat) h.

Lemma wp_free_data v c h (Φ : () → hPropI obj) :
  value_live h v → short h →
  data_at ρ v c -∗ heap_at ρ h -∗ (heap_at ρ (free_value h v) -∗ Φ ()) -∗ wp (free_data limit c) Φ.
Proof.
  destruct v as [d|r]; cbn [value_live data_at free_value]; intros Hlive Hs.
  - iIntros "(%l & -> & Hl) Hh HΦ". iApply (wp_free with "Hl"). by iApply "HΦ".
  - iIntros "-> Hh HΦ". destruct Hlive as [s Hr]. rewrite /heap_at (big_sepM_delete _ _ _ _ Hr).
    iDestruct "Hh" as "[Hr Hh]". iApply (wp_freeStream with "Hr"); [by apply (Hs r)|]. by iApply "HΦ".
Qed.

Lemma wp_freeEntry e next p h (Φ : () → hPropI obj) :
  value_live h (Store.value e) → short h →
  store_entry_at ρ e next p -∗ heap_at ρ h -∗ (heap_at ρ (free_value h (Store.value e)) -∗ Φ ()) -∗
  wp (freeEntry limit p) Φ.
Proof.
  iIntros (Hl Hs) "He Hh HΦ". iDestruct (store_entry_open with "He") as "(%l & %lk & %c & -> & Hl & Hk & Hc)".
  iApply wp_bind. iApply (wp_load_store_entry with "Hl"). iIntros "Hl". cbn [se_key se_value].
  iApply wp_bind. iApply (wp_free with "Hk"). iApply wp_bind. iApply (wp_free_data with "Hc Hh"); [done..|].
  iIntros "Hh". iApply (wp_free with "Hl"). by iApply "HΦ".
Qed.

Lemma short_free h v : short h → short (free_value h v).
Proof. destruct v as [|r]; [done|]. intros Hs. by apply map_Forall_delete. Qed.

Lemma short_drop h l : short h → short (free_values h l).
Proof. revert h. induction l as [|e l IH]; intros h Hs; [done|]. by apply IH, short_free. Qed.

(** The rest of a chain, entry by entry. *)
Lemma chain_open e b p :
  chain_at ρ (e :: b) p ⊢ ∃ l lk c next, <affine> ⌜p = Some l⌝
    ∗ l ↦ OfStoreEntry (mkCStoreEntry (Some lk) c (Store.expiry e) next)
    ∗ lk ↦ OChars (Store.key e ++ [NUL]) ∗ data_at ρ (Store.value e) c ∗ chain_at ρ b next.
Proof.
  iIntros "(%next & He & Hb)". iDestruct (store_entry_open with "He") as "(%l & %lk & %c & -> & Hl & Hk & Hc)".
  iExists l, lk, c, next. by iFrame.
Qed.

Lemma wp_free_chain fuel b p h (Φ : () → hPropI obj) :
  (length b < fuel)%nat → live h b → short h →
  chain_at ρ b p -∗ heap_at ρ h -∗ (heap_at ρ (free_values h b) -∗ Φ ()) -∗ wp (free_chain limit fuel p) Φ.
Proof.
  revert b p h. induction fuel as [|fuel IH]; intros b p h Hf Hl Hs; [lia|]. destruct b as [|e b].
  - iIntros "-> Hh HΦ". iApply wp_ret. by iApply "HΦ".
  - iIntros "Hb Hh HΦ". iDestruct (chain_open with "Hb") as "(%l & %lk & %c & %next & -> & Hl & Hk & Hc & Hb)".
    apply live_cons in Hl as (He & Hl & _). cbn [free_chain].
    iApply wp_bind. iApply (wp_load_store_entry with "Hl"). iIntros "Hl". cbn [se_next].
    iApply wp_bind. iApply (wp_freeEntry e next (Some l) with "[Hl Hk Hc] Hh"); [done..| |].
    { iApply store_entry_open. iExists l, lk, c. by iFrame. }
    iIntros "Hh". iApply (IH with "Hb Hh HΦ"); [cbn in Hf; lia|done|by apply short_free].
Qed.

(** ** Sweeping *)

(** A link that holds a pointer, and the memory around it. *)
Definition is_link (lk : link) (L : ptr → hPropI obj) : Prop :=
  (∀ p (Φ : ptr → hPropI obj), L p ∗ (L p -∗ Φ p) ⊢ wp (read_link lk) Φ)
  ∧ (∀ p q (Φ : () → hPropI obj), L p ∗ (L q -∗ Φ ()) ⊢ wp (write_link lk q) Φ).

Lemma is_link_slot lt ps1 ps2 : is_link (Slot (Some lt) (length ps1)) (λ p, lt ↦ OPtrs (ps1 ++ p :: ps2))%I.
Proof.
  split.
  - iIntros (p Φ) "[Hl HΦ]". iApply (wp_load_index with "Hl HΦ"). by rewrite list_lookup_middle.
  - iIntros (p q Φ) "[Hl HΦ]". iApply (wp_store_index with "Hl"); [rewrite length_app; cbn; lia|].
    by rewrite insert_app_r_alt // Nat.sub_diag.
Qed.

Lemma is_link_next l k c x : is_link (Next (Some l)) (λ p, l ↦ OfStoreEntry (mkCStoreEntry k c x p))%I.
Proof.
  split.
  - iIntros (p Φ) "[Hl HΦ]". iApply wp_bind. iApply (wp_load_store_entry with "Hl"). iIntros "Hl".
    iApply wp_ret. by iApply "HΦ".
  - iIntros (p q Φ) "[Hl HΦ]". by iApply (wp_set_entry_next with "Hl").
Qed.

Lemma wp_sweep fuel now b h lk L p ls lt n u (Φ : () → hPropI obj) :
  (length b < fuel)%nat → is_link lk L → live h b → short h →
  chain_at ρ b p -∗ L p -∗ heap_at ρ h -∗ ls ↦ OStore lt n u -∗
  (∀ p', chain_at ρ (kept_at now b) p' -∗ L p' -∗ heap_at ρ (free_values h (gone_at now b)) -∗
     ls ↦ OStore lt n (u - Z.of_nat (length (gone_at now b))) -∗ Φ ()) -∗
  wp (sweep limit fuel now (Some ls) lk) Φ.
Proof.
  revert b h lk L p u Φ. induction fuel as [|fuel IH]; intros b h lk L p u Φ Hf [Hrd Hwr] Hl Hs; [lia|].
  iIntros "Hb HL Hh Hls HΦ". cbn [sweep]. iApply wp_bind. iApply (Hrd p). iFrame "HL". iIntros "HL".
  destruct b as [|e b].
  - iDestruct "Hb" as "->". iApply wp_ret. iApply ("HΦ" with "[] HL Hh"); [done|]. by rewrite Z.sub_0_r.
  - iDestruct (chain_open with "Hb") as "(%l & %lk' & %c & %next & -> & Hl & Hk & Hc & Hb)".
    apply live_cons in Hl as (He & Hl1 & Hl2). cbn in Hf.
    iApply wp_bind. iApply (wp_load_store_entry with "Hl"). iIntros "Hl". cbn [se_expiry se_next].
    rewrite kept_cons gone_cons. change (negb (Store.expiry e =? 0)%Z && (Store.expiry e <? now)%Z) with (expired_at now e).
    destruct (expired_at now e).
    + iApply wp_bind. iApply (Hwr (Some l) next). iFrame "HL". iIntros "HL".
      iApply wp_bind. iApply (wp_freeEntry e next (Some l) with "[Hl Hk Hc] Hh"); [done..| |].
      { iApply store_entry_open. iExists l, lk', c. by iFrame. }
      iIntros "Hh". iApply wp_bind. iApply (wp_load_store with "Hls"). iIntros "Hls".
      iApply wp_bind. iApply (wp_store with "Hls"). iIntros "Hls".
      iApply (IH with "Hb HL Hh Hls"); [lia|done|done|by apply short_free|].
      iIntros (p') "Hb HL Hh Hls". iApply ("HΦ" with "Hb HL Hh"). cbn [length].
      by replace (u - Z.of_nat (S (length (gone_at now b))))%Z with (u - 1 - Z.of_nat (length (gone_at now b)))%Z by lia.
    + iApply (IH _ _ _ (λ p, l ↦ OfStoreEntry (mkCStoreEntry (Some lk') c (Store.expiry e) p))%I with "Hb Hl Hh Hls");
        [lia|apply is_link_next|done|done|].
      iIntros (p') "Hb Hl Hh Hls". iApply ("HΦ" with "[Hl Hk Hc Hb] HL Hh Hls").
      by iApply (chain_cons with "Hl Hk Hc Hb").
Qed.

(** ** Whole tables *)

Section Table.
Context (h : Store.heap) (st : RedisStore) (Hlive : live h (concat (table st))) (Hshort : short h).
Context (Hlen : (length (concat (table st)) < limit)%nat).

Lemma bucket_short dn b rest : table st = dn ++ b :: rest → (length b < limit)%nat.
Proof using Hlen. clear -Hlen. intros E. move: Hlen. rewrite E concat_app /= !length_app. lia. Qed.

Lemma live_from dn rest (P : Store.StoreEntry → Prop) `{!∀ e, Decision (P e)} :
  table st = dn ++ rest → live (free_values h (filter P (concat dn))) (concat rest).
Proof using Hlive. intros E. apply live_drop. by rewrite -concat_app -E. Qed.

Lemma live_app_l l1 l2 h' : live h' (l1 ++ l2) → live h' l1.
Proof.
  intros [H1 H2]. rewrite /live omap_app in H1 H2 *. apply NoDup_app in H1 as (H1 & _ & _). split; [done|].
  intros r Hr. apply H2. set_solver.
Qed.

Lemma gone_at_app now l1 l2 : gone_at now (l1 ++ l2) = gone_at now l1 ++ gone_at now l2.
Proof. apply filter_app. Qed.

Lemma wp_clearExpired now p (Φ : () → hPropI obj) :
  store_at ρ st p -∗ heap_at ρ h -∗
  (store_at ρ (Store.clearExpired now h st).2 p -∗ heap_at ρ (Store.clearExpired now h st).1 -∗ Φ ()) -∗
  wp (clearExpired limit now p) Φ.
Proof using Hlive Hshort Hlen.
  iIntros "(%l & %lt & %ps & -> & Hl & Ht & Hc) Hh HΦ". iApply wp_bind. iApply (wp_load_store with "Hl"). iIntros "Hl".
  iApply (wp_for (λ dn rest, ∃ ps1 ps2, <affine> ⌜length ps1 = length dn⌝ ∗ lt ↦ OPtrs (ps1 ++ ps2)
    ∗ chains_at ρ (map (kept_at now) dn) ps1 ∗ chains_at ρ rest ps2 ∗ heap_at ρ (free_values h (gone_at now (concat dn)))
    ∗ l ↦ OStore (Some lt) (length (table st)) (Store.used st - Z.of_nat (length (gone_at now (concat dn)))))%I
    with "[Hl Ht Hc Hh]").
  - intros dn b rest E Ψ. iIntros "(%ps1 & %ps2 & %Hps & Ht & Hdn & Hc & Hh & Hl) HΨ".
    destruct ps2 as [|p ps2]; [done|]. iDestruct "Hc" as "[Hb Hc]".
    pose proof (live_from dn (b :: rest) (λ e, expired_at now e = true) E) as Hlv. cbn [concat] in Hlv.
    rewrite -Hps. iApply (wp_sweep _ _ _ _ _ _ _ l with "Hb Ht Hh Hl");
      [by eapply bucket_short|apply is_link_slot|by eapply live_app_l|by apply short_drop|].
    iIntros (p') "Hb Ht Hh Hl". iApply "HΨ". iExists (ps1 ++ [p']), ps2.
    rewrite -app_assoc map_app concat_app /= app_nil_r gone_at_app free_values_app (length_app (gone_at now (concat dn))) Nat2Z.inj_add Z.sub_add_distr.
    iFrame. iSplit; [by rewrite !length_app Hps|]. iApply chains_at_app. cbn. iFrame.
  - iExists [], ps. cbn. rewrite Z.sub_0_r. by iFrame.
  - iIntros "(%ps1 & %ps2 & %Hps & Ht & Hdn & Hc & Hh & Hl)". destruct ps2; [|by iDestruct "Hc" as "[]"].
    rewrite app_nil_r. iApply ("HΦ" with "[Hl Ht Hdn] Hh"). iExists l, lt, ps1. cbn [Store.clearExpired table Store.used snd].
    rewrite length_map. by iFrame.
Qed.

Lemma free_values_owned : owns h (concat (table st)) → free_values h (concat (table st)) = ∅.
Proof using.
  clear. generalize (concat (table st)). intros l. revert h. induction l as [|e l IH]; intros h [H1 H2 H3]; cbn.
  - apply map_empty. intros r. apply eq_None_not_Some. rewrite -H2. set_solver.
  - apply IH. cbn in H1, H2. destruct (ref_of e) as [r|] eqn:Er; rewrite /ref_of in Er.
    + destruct (Store.value e) as [|r']; [done|]. injection Er as ->. apply NoDup_cons in H1 as [Hr H1]. cbn.
      split; [done| |by apply map_Forall_delete].
      intros r'. rewrite lookup_delete_is_Some -H2. set_solver.
    + by destruct (Store.value e).
Qed.

Lemma wp_freeStore p (Φ : () → hPropI obj) :
  owns h (concat (table st)) → store_at ρ st p -∗ heap_at ρ h -∗ Φ () -∗ wp (freeStore limit p) Φ.
Proof using Hlive Hshort Hlen.
  intros Howns. iIntros "(%l & %lt & %ps & -> & Hl & Ht & Hc) Hh HΦ". iApply wp_bind. iApply (wp_load_store with "Hl"). iIntros "Hl".
  iApply wp_bind. iApply (wp_for (λ dn rest, ∃ ps1 ps2, <affine> ⌜length ps1 = length dn⌝ ∗ lt ↦ OPtrs (ps1 ++ ps2)
    ∗ chains_at ρ rest ps2 ∗ heap_at ρ (free_values h (concat dn)))%I with "[Ht Hc Hh]").
  - intros dn b rest E Ψ. iIntros "(%ps1 & %ps2 & %Hps & Ht & Hc & Hh) HΨ".
    destruct ps2 as [|p ps2]; [done|]. iDestruct "Hc" as "[Hb Hc]".
    assert (live (free_values h (concat dn)) (b ++ concat rest)) as Hlv by (apply live_drop_all; by rewrite -(concat_app dn (b :: rest)) -E).
    iApply wp_bind. iApply (wp_load_index with "Ht"); [by rewrite -Hps list_lookup_middle|]. iIntros "Ht".
    iApply (wp_free_chain with "Hb Hh"); [by eapply bucket_short|by eapply live_app_l|by apply short_drop|].
    iIntros "Hh". iApply "HΨ". iExists (ps1 ++ [p]), ps2. rewrite -app_assoc concat_app /= app_nil_r free_values_app.
    iFrame. by rewrite !length_app Hps.
  - iExists [], ps. by iFrame.
  - iIntros "(%ps1 & %ps2 & %Hps & Ht & Hc & Hh)". destruct ps2; [|by iDestruct "Hc" as "[]"].
    iApply wp_bind. iApply (wp_free with "Ht"). rewrite free_values_owned // /heap_at big_sepM_empty. by iApply (wp_free with "Hl").
Qed.
End Table.

(** ** Growing *)

Lemma push_insert (t : list (list Store.StoreEntry)) e b :
  t !! slot (length t) (Store.key e) = Some b → push t e = <[slot (length t) (Store.key e) := e :: b]> t.
Proof. intros Hb. rewrite /push list_insert_alter. apply list_alter_ext; [|done]. intros b'. rewrite Hb. by intros [= <-]. Qed.

Lemma wp_relink fuel n b t lt qs p (Φ : () → hPropI obj) :
  (length b < fuel)%nat → length t = n → (0 < n)%nat →
  chain_at ρ b p -∗ lt ↦ OPtrs qs -∗ chains_at ρ t qs -∗
  (∀ qs', lt ↦ OPtrs qs' -∗ chains_at ρ (fold_left push b t) qs' -∗ Φ ()) -∗
  wp (relink fuel (Some lt) n p) Φ.
Proof.
  revert b t qs p. induction fuel as [|fuel IH]; intros b t qs p Hf Hn Ht; [lia|]. destruct b as [|e b].
  - iIntros "-> Hlt Hc HΦ". iApply wp_ret. iApply ("HΦ" with "Hlt Hc").
  - iIntros "Hb Hlt Hc HΦ". iDestruct (chain_open with "Hb") as "(%l & %lk & %c & %next & -> & Hl & Hk & Hd & Hb)".
    cbn [relink]. iApply wp_bind. iApply (wp_load_store_entry with "Hl"). iIntros "Hl". cbn [se_key se_next].
    iApply wp_bind. iApply (wp_load_chars with "Hk"). iIntros "Hk". rewrite slot_nul. subst n.
    iDestruct (chains_at_split ρ _ _ _ (slot_bound _ (Store.key e) Ht) with "Hc") as "(%b' & %p' & %H & Hb' & Hc)".
    destruct H as [Eb Ep].
    iApply wp_bind. iApply (wp_load_index with "Hlt"); [done|]. iIntros "Hlt".
    iApply wp_bind. iApply (wp_set_entry_next with "Hl"). iIntros "Hl". cbn [se_key se_value se_expiry].
    iApply wp_bind. iApply (wp_store_index with "Hlt"); [by eapply lookup_lt_Some|]. iIntros "Hlt".
    iDestruct ("Hc" $! (e :: b') (Some l) with "[Hl Hk Hd Hb']") as "Hc"; [by iApply (chain_cons with "Hl Hk Hd Hb'")|].
    rewrite -(push_insert _ _ _ Eb). cbn in Hf.
    iApply (IH with "Hb Hlt Hc HΦ"); [lia|by rewrite length_push|done].
Qed.

Lemma wp_resize st p (Φ : () → hPropI obj) :
  (0 < length (table st))%nat → (length (concat (table st)) < limit)%nat →
  store_at ρ st p -∗ (store_at ρ (Store.resize st) p -∗ Φ ()) -∗ wp (resize limit p) Φ.
Proof.
  iIntros (Hpos Hlen) "(%l & %lt & %ps & -> & Hl & Ht & Hc) HΦ". iApply wp_bind. iApply (wp_load_store with "Hl"). iIntros "Hl".
  iApply wp_bind. iApply wp_malloc. iIntros (ln) "Hn". iApply wp_bind.
  set (t0 := replicate (length (table st) * 2) (@nil Store.StoreEntry)).
  iApply (wp_for (λ dn rest, ∃ ps1 ps2 qs, <affine> ⌜length ps1 = length dn⌝ ∗ lt ↦ OPtrs (ps1 ++ ps2)
    ∗ chains_at ρ rest ps2 ∗ ln ↦ OPtrs qs ∗ chains_at ρ (fold_left push (concat dn) t0) qs)%I with "[Ht Hc Hn]").
  - intros dn b rest E Ψ. iIntros "(%ps1 & %ps2 & %qs & %Hps & Ht & Hc & Hn & Hq) HΨ".
    destruct ps2 as [|p ps2]; [done|]. iDestruct "Hc" as "[Hb Hc]".
    iApply wp_bind. iApply (wp_load_index with "Ht"); [by rewrite -Hps list_lookup_middle|]. iIntros "Ht".
    iApply (wp_relink with "Hb Hn Hq"); [by eapply bucket_short|by rewrite fold_push_length length_replicate|lia|].
    iIntros (qs') "Hn Hq". iApply "HΨ". iExists (ps1 ++ [p]), ps2, qs'. rewrite -app_assoc concat_app /= app_nil_r fold_left_app.
    iFrame. by rewrite !length_app Hps.
  - iExists [], ps, (replicate (length (table st) * 2) NULL). iFrame. iSplit; [done|]. by iApply chains_at_empty.
  - iIntros "(%ps1 & %ps2 & %qs & %Hps & Ht & Hc & Hn & Hq)". destruct ps2; [|by iDestruct "Hc" as "[]"].
    iApply wp_bind. iApply (wp_free with "Ht"). iApply (wp_store with "Hl"). iIntros "Hl". iApply "HΦ".
    iExists l, ln, qs. cbn [Store.resize table Store.used]. rewrite fold_push_length length_replicate. by iFrame.
Qed.

(** ** SET, GET and EXPIRE *)

Lemma wp_createStore (Φ : ptr → hPropI obj) :
  (∀ p, store_at ρ Store.createStore p -∗ Φ p) -∗ wp createStore Φ.
Proof.
  iIntros "HΦ". iApply wp_bind. iApply wp_malloc. iIntros (l) "Hl". iApply wp_bind. iApply wp_malloc. iIntros (lt) "Ht".
  iApply wp_bind. iApply (wp_store with "Hl"). iIntros "Hl". iApply wp_ret. iApply "HΦ".
  iExists l, lt, (replicate INITIAL_STORE_SIZE NULL). iFrame "Hl Ht". iSplit; [done|].
  by iApply (chains_at_empty ρ INITIAL_STORE_SIZE).
Qed.

Lemma wp_insert_entry st k kp l lk c v x p (Φ : () → hPropI obj) :
  (0 < length (table st))%nat →
  store_at ρ st p -∗ chars_at k kp -∗ l ↦ OFresh -∗ lk ↦ OChars (cstr k ++ [NUL]) -∗ data_at ρ v c -∗
  (∀ next, l ↦ OfStoreEntry (mkCStoreEntry (Some lk) c x next) -∗
     (l ↦ OfStoreEntry (mkCStoreEntry (Some lk) c x next) -∗ store_at ρ (push_entry st (mkStoreEntry (cstr k) v x)) p) -∗
     chars_at k kp -∗ Φ ()) -∗
  wp (insert_entry p kp (Some l) (Some lk) c x) Φ.
Proof.
  iIntros (Hpos) "(%ls & %lt & %ps & -> & Hs & Ht & Hc) (%lkp & -> & Hkp) Hl Hk Hd HΦ".
  iApply wp_bind. iApply (wp_load_store with "Hs"). iIntros "Hs".
  iApply wp_bind. iApply (wp_load_chars with "Hkp"). iIntros "Hkp". rewrite slot_nul.
  iDestruct (chains_at_split ρ _ _ _ (slot_bound _ k Hpos) with "Hc") as "(%b & %p' & %H & Hb & Hc)". destruct H as [Eb Ep].
  iApply wp_bind. iApply (wp_load_index with "Ht"); [done|]. iIntros "Ht".
  iApply wp_bind. iApply (wp_store with "Hl"). iIntros "Hl".
  iApply wp_bind. iApply (wp_store_index with "Ht"); [by eapply lookup_lt_Some|]. iIntros "Ht".
  iApply (wp_store with "Hs"). iIntros "Hs". iApply ("HΦ" with "Hl [-Hkp]"); [|iExists lkp; by iFrame]. iIntros "Hl".
  iDestruct ("Hc" $! (mkStoreEntry (cstr k) v x :: b) (Some l) with "[Hl Hk Hd Hb]") as "Hc".
  { iApply (chain_cons ρ (mkStoreEntry (cstr k) v x) with "Hl Hk Hd Hb"). }
  iExists ls, lt, (<[slot (length (table st)) k := Some l]> ps).
  rewrite /push_entry. cbn [table Store.used]. rewrite length_push (push_insert _ _ b); cbn [Store.key]; rewrite slot_cstr //. by iFrame.
Qed.

Section Operation.
Context (h : Store.heap) (st : RedisStore) (Hdb : db_wf h st) (Hshort : short h).
Context (Hlen : (length (concat (table st)) < limit)%nat).

Lemma lookup_live k e : lookup_entry st k = Some e → value_live h (Store.value e).
Proof using Hdb.
  destruct Hdb as [Hwf Ho]. intros Hl. destruct (lookup_entry_some st Hwf k e Hl) as (_ & rest & Hp & _).
  apply (live_cons h e rest). apply owns_live. by rewrite -Hp.
Qed.

Lemma wp_replace_value k e c lk l next v lv more p (Φ : Z → hPropI obj) :
  lookup_entry st k = Some e →
  l ↦ OfStoreEntry (mkCStoreEntry (Some lk) c (Store.expiry e) next) -∗ lk ↦ OChars (Store.key e ++ [NUL]) -∗
  data_at ρ (Store.value e) c -∗
  (∀ e', store_entry_at ρ e' next (Some l) -∗ store_at ρ (set_entry st k (λ _, e')) p) -∗
  heap_at ρ h -∗ lv ↦ OChars (v ++ more) -∗
  (store_at ρ (set_entry st k (λ e, mkStoreEntry (Store.key e) (VString v) (Store.expiry e))) p -∗
   heap_at ρ (free_value h (Store.value e)) -∗ lv ↦ OChars (v ++ more) -∗ Φ STORE_OK) -∗
  wp (e ← load_store_entry (Some l);
      _ ← free_data limit (se_value e);
      data ← copy_data (Some lv) (length v);
      _ ← set_value (Some l) (CData data (length v));
      mret STORE_OK) Φ.
Proof using Hdb Hshort.
  iIntros (Hl) "Hl Hk Hd Hst Hh Hv HΦ".
  iApply wp_bind. iApply (wp_load_store_entry with "Hl"). iIntros "Hl". cbn [se_value].
  iApply wp_bind. iApply (wp_free_data with "Hd Hh"); [by eapply lookup_live|done|]. iIntros "Hh".
  iApply wp_bind. iApply (wp_copy_data with "Hv"). iIntros (c') "Hv Hc'".
  iApply wp_bind. iApply (wp_set_value with "Hl"). iIntros "Hl". cbn [se_key se_expiry se_next].
  iApply wp_ret. iApply ("HΦ" with "[-Hh Hv] Hh Hv"). rewrite (set_entry_found st k e Hl). iApply "Hst".
  iApply store_entry_open. iExists l, lk, _. cbn [Store.expiry Store.key Store.value]. iFrame "Hl Hk".
  iSplit; [done|]. iExists c'. by iFrame.
Qed.

Lemma store_at_some st' p : store_at ρ st' p ⊢ <affine> ⌜is_Some p⌝ ∗ store_at ρ st' p.
Proof.
  iIntros "(%l & %lt & %ps & -> & H)". iSplit; [done|]. iExists l, lt, ps. by iFrame.
Qed.

Lemma chars_at_some k p : chars_at k p ⊢ <affine> ⌜is_Some p⌝ ∗ chars_at k p.
Proof. iIntros "(%l & -> & H)". iSplit; [done|]. iExists l. by iFrame. Qed.

(** The growth that may precede a SET. *)
Lemma wp_maybe_resize p (Φ : () → hPropI obj) :
  store_at ρ st p -∗
  (store_at ρ (if load_exceeded (Store.used st) (Store.size st) then Store.resize st else st) p -∗ Φ ()) -∗
  wp (if load_exceeded (Store.used st) (Store.size st) then resize limit p else mret ()) Φ.
Proof using Hdb Hlen.
  iIntros "Hst HΦ". destruct (load_exceeded _ _).
  - iApply (wp_resize with "Hst HΦ"); [by apply wf_length_pos, Hdb|done].
  - iApply wp_ret. by iApply "HΦ".
Qed.
End Operation.

Lemma length_maybe_resize st :
  store_wf st →
  let st1 := if load_exceeded (Store.used st) (Store.size st) then Store.resize st else st in
  length (concat (table st1)) = length (concat (table st)).
Proof. intros Hwf st1. subst st1. case_match; [|done]. destruct (resize_effect st Hwf) as (_ & _ & Hp & _). by rewrite Hp. Qed.

Lemma wp_storeSet h st k v kp lv more p (Φ : Z → hPropI obj) :
  db_wf h st → short h → (length (concat (table st)) < limit)%nat →
  store_at ρ st p -∗ heap_at ρ h -∗ chars_at k kp -∗ lv ↦ OChars (v ++ more) -∗
  (store_at ρ (Store.storeSet h st k v).2 p -∗ heap_at ρ (Store.storeSet h st k v).1.2 -∗ chars_at k kp -∗
   lv ↦ OChars (v ++ more) -∗ Φ (Store.storeSet h st k v).1.1) -∗
  wp (storeSet limit p kp (Some lv) (length v)) Φ.
Proof.
  iIntros (Hdb Hs Hlen) "Hst Hh Hk Hv HΦ". iDestruct (store_at_some with "Hst") as "[%Hp Hst]".
  iDestruct (chars_at_some with "Hk") as "[%Hkp Hk]". rewrite /storeSet bool_decide_eq_false_2.
  2: { destruct Hp as [? ->], Hkp as [? ->]. by intros [?|[?|?]]. }
  iDestruct "Hst" as "(%l & %lt & %ps & -> & Hl & Ht)". iApply wp_bind. iApply (wp_load_store with "Hl"). iIntros "Hl".
  iAssert (store_at ρ st (Some l)) with "[Hl Ht]" as "Hst"; [iExists l, lt, ps; by iFrame|].
  iApply wp_bind. iApply (wp_maybe_resize _ _ Hdb Hlen with "Hst"). iIntros "Hst".
  pose proof (length_maybe_resize st (proj1 Hdb)) as Hl1. destruct (maybe_resize_spec h st Hdb) as [Hdb1 _].
  rewrite /Store.storeSet. set (st1 := if load_exceeded _ _ then _ else _) in *. rewrite -Hl1 in Hlen.
  clearbody st1. clear Hl1 Hdb st.
  iApply wp_bind. iApply (wp_find with "Hst Hk"); [by apply wf_length_pos, Hdb1|done|].
  iIntros (q) "Hk Hq". destruct (lookup_entry st1 k) as [e|] eqn:El.
  - iDestruct "Hq" as "(%le & %lk & %c & %next & -> & Hle & Hlk & Hd & Hq)".
    iApply (wp_replace_value with "Hle Hlk Hd Hq Hh Hv"); [done..|]. iIntros "Hst Hh Hv".
    iApply ("HΦ" with "Hst Hh Hk Hv").
  - iDestruct "Hq" as "[-> Hst]". iApply wp_bind. iApply wp_malloc. iIntros (le) "Hle".
    iApply wp_bind. iApply (wp_strdup with "Hk"). iIntros (lk) "Hk (%lk' & -> & Hlk)".
    iApply wp_bind. iApply (wp_copy_data with "Hv"). iIntros (c) "Hv Hc".
    iApply wp_bind. iApply (wp_insert_entry _ _ _ _ _ (CData (Some c) (length v)) (VString v) 0 with "Hst Hk Hle Hlk [Hc]");
      [by apply wf_length_pos, Hdb1|iExists c; by iFrame|]. iIntros (next) "Hle Hst Hk".
    iApply wp_ret. iApply ("HΦ" with "(Hst Hle) Hh Hk Hv").
Qed.

Lemma wp_setExpiry h st k x kp p (Φ : Z → hPropI obj) :
  db_wf h st → (length (concat (table st)) < limit)%nat →
  store_at ρ st p -∗ chars_at k kp -∗
  (store_at ρ (Store.setExpiry st k x).2 p -∗ chars_at k kp -∗ Φ (Store.setExpiry st k x).1) -∗
  wp (setExpiry limit p kp x) Φ.
Proof.
  iIntros (Hdb Hlen) "Hst Hk HΦ". iApply wp_bind. iApply (wp_find with "Hst Hk"); [by apply wf_length_pos, Hdb|done|].
  iIntros (q) "Hk Hq". rewrite /Store.setExpiry. destruct (lookup_entry st k) as [e|] eqn:El.
  - iDestruct "Hq" as "(%le & %lk & %c & %next & -> & Hle & Hlk & Hd & Hq)".
    iApply wp_bind. iApply (wp_set_expiry with "Hle"). iIntros "Hle". cbn [se_key se_value se_next].
    iApply wp_ret. iApply ("HΦ" with "[-Hk] Hk"). cbn [snd]. rewrite (set_entry_found st k e El). iApply "Hq".
    iApply store_entry_open. iExists le, lk, c. by iFrame.
  - iDestruct "Hq" as "[-> Hst]". iApply wp_ret. iApply ("HΦ" with "Hst Hk").
Qed.

(** What [storeGet] answers: a copy of its own. *)
Definition value_copy (v : option bytes) (r : option (ptr * nat)) : hPropI obj :=
  match v with
  | Some d => ∃ c, <affine> ⌜r = Some (Some c, length d)⌝ ∗ c ↦ OChars d
  | None => <affine> ⌜r = None⌝
  end.

Lemma wp_storeGet h st now k kp p (Φ : option (ptr * nat) → hPropI obj) :
  db_wf h st → (length (concat (table st)) < limit)%nat →
  store_at ρ st p -∗ chars_at k kp -∗
  (∀ r, store_at ρ st p -∗ chars_at k kp -∗ value_copy (Store.storeGet now st k) r -∗ Φ r) -∗
  wp (storeGet limit now p kp) Φ.
Proof.
  iIntros (Hdb Hlen) "Hst Hk HΦ". iDestruct (store_at_some with "Hst") as "[%Hp Hst]".
  iDestruct (chars_at_some with "Hk") as "[%Hkp Hk]". rewrite /storeGet bool_decide_eq_false_2.
  2: { destruct Hp as [? ->], Hkp as [? ->]. by intros [?|?]. }
  iApply wp_bind. iApply (wp_find with "Hst Hk"); [by apply wf_length_pos, Hdb|done|].
  iIntros (q) "Hk Hq". rewrite /Store.storeGet. destruct (lookup_entry st k) as [e|] eqn:El.
  2: { iDestruct "Hq" as "[-> Hst]". iApply wp_ret. by iApply ("HΦ" with "Hst Hk"). }
  iDestruct "Hq" as "(%le & %lk & %c & %next & -> & Hle & Hlk & Hd & Hq)".
  iApply wp_bind. iApply (wp_load_store_entry with "Hle"). iIntros "Hle". cbn [se_expiry se_value].
  iAssert (data_at ρ (Store.value e) c -∗ store_at ρ st p)%I with "[Hle Hlk Hq]" as "Hst".
  { iIntros "Hd". rewrite -{2}(set_entry_same st k e El). iApply "Hq". iApply store_entry_open. iExists le, lk, c. by iFrame. }
  destruct (negb _ && _); [iApply wp_ret; iApply ("HΦ" with "(Hst Hd) Hk"); done|].
  destruct (Store.value e) as [d|r].
  - iDestruct "Hd" as "(%lc & -> & Hlc)". iApply wp_bind.
    iApply (wp_copy_data lc d [] with "[Hlc]"); [by rewrite app_nil_r|]. iIntros (c) "Hlc Hc". iApply wp_ret. rewrite app_nil_r.
    iApply ("HΦ" with "(Hst [Hlc]) Hk"); [iExists lc; by iFrame|]. iExists c. by iFrame.
  - iDestruct "Hd" as "->". iApply wp_ret. iApply ("HΦ" with "(Hst [//]) Hk"). done.
Qed.
End Store.

(** ** XADD *)

(** A pointer that nothing in the table uses may be given to a new stream. *)
Lemma chain_places ρ ρ' b p :
  (∀ e r, e ∈ b → ref_of e = Some r → ρ r = ρ' r) → chain_at ρ b p ⊢ chain_at ρ' b p.
Proof.
  revert p. induction b as [|e b IH]; intros p H; [done|].
  iIntros "(%next & (%l & %k & %c & -> & Hl & Hk & Hd) & Hb)". iExists next. iSplitR "Hb".
  - iExists l, k, c. iFrame "Hl Hk". iSplit; [done|]. rewrite /data_at. destruct (Store.value e) as [d|r] eqn:Ev; [done|].
    rewrite -(H e) //; [left|by rewrite /ref_of Ev].
  - iApply IH; [|done]. intros e' r He'. apply H. by right.
Qed.

Lemma chains_places ρ ρ' t ps :
  (∀ e r, e ∈ concat t → ref_of e = Some r → ρ r = ρ' r) → chains_at ρ t ps ⊢ chains_at ρ' t ps.
Proof.
  revert ps. induction t as [|b t IH]; intros [|p ps] H; cbn in H |- *; try done.
  iIntros "[Hb Ht]". iSplitL "Hb"; [iApply (chain_places with "Hb")|iApply (IH with "Ht")];
    intros e r He; apply H; apply elem_of_app; auto.
Qed.

Lemma store_places ρ r q h st p :
  db_wf h st → h !! r = None → store_at ρ st p ⊢ store_at (<[r := q]> ρ) st p.
Proof.
  intros [_ Ho] Hr. iIntros "(%l & %lt & %ps & -> & Hl & Ht & Hc)". iExists l, lt, ps. iFrame "Hl Ht". iSplit; [done|].
  iApply (chains_places with "Hc"). intros e r' He Er. rewrite fn_lookup_insert_ne //. intros <-.
  assert (r ∈ omap ref_of (concat (table st))) as Hr' by (apply list_elem_of_omap; by exists e).
  apply (own_live _ _ Ho) in Hr'. rewrite Hr in Hr'. by destruct Hr'.
Qed.

Lemma heap_places ρ r q h s :
  h !! r = None → heap_at ρ h ∗ stream_at s q ⊢ heap_at (<[r := q]> ρ) (<[r := s]> h).
Proof.
  intros Hr. iIntros "[Hh Hs]". rewrite /heap_at big_sepM_insert // fn_lookup_insert. iFrame "Hs".
  iApply (big_sepM_impl with "Hh"). iIntros "!>" (r' s') "%Hr' Hs". rewrite fn_lookup_insert_ne //. intros <-. congruence.
Qed.

(** Appending to a stream of the heap. *)
Lemma wp_heap_add ρ h r p s now text fs vs reply s' woke i f v (Φ : ptr → hPropI obj) :
  h !! r = Some s → ρ r = p → in_u64 now → length fs = length vs →
  Stream.streamAdd now s text fs vs = Ok (reply, s', woke) →
  heap_at ρ h -∗ chars_at text i -∗ array_at fs f -∗ array_at vs v -∗
  (∀ q, heap_at ρ (<[r := s']> h) -∗ chars_at text i -∗ array_at fs f -∗ array_at vs v -∗ chars_or_null reply q -∗ Φ q) -∗
  wp (StreamMemory.streamAdd now p i f v (length fs)) Φ.
Proof.
  iIntros (Hr <- Hnow Hlen Ha) "Hh Hi Hf Hv HΦ". rewrite /heap_at (big_sepM_delete _ h r s) //. iDestruct "Hh" as "[Hs Hh]".
  iApply (wp_streamAdd with "Hs Hi Hf Hv"); [done..|]. iIntros (q) "Hs Hi Hf Hv Hq".
  iApply ("HΦ" with "[Hs Hh] Hi Hf Hv Hq"). rewrite -insert_delete_eq big_sepM_insert ?lookup_delete_eq //. iFrame.
Qed.

Lemma wp_storeStreamAdd limit ρ h st now j k text fs vs reply woke h' st' p kp i f v (Φ : ptr → hPropI obj) :
  db_wf h st → (length (concat (table st)) < limit)%nat → in_u64 now → length fs = length vs →
  Store.storeStreamAdd now j h st k text fs vs = Ok (reply, woke, h', st') →
  store_at ρ st p -∗ heap_at ρ h -∗ chars_at k kp -∗ chars_at text i -∗ array_at fs f -∗ array_at vs v -∗
  (∀ ρ' q, <affine> ⌜∀ r, is_Some (h !! r) → ρ' r = ρ r⌝ -∗ store_at ρ' st' p -∗ heap_at ρ' h' -∗
     chars_at k kp -∗ chars_at text i -∗ array_at fs f -∗ array_at vs v -∗ chars_or_null reply q -∗ Φ q) -∗
  wp (storeStreamAdd limit now j p kp i f v (length fs)) Φ.
Proof.
  iIntros (Hdb Hlen Hnow Hfs Ha) "Hst Hh Hk Hi Hf Hv HΦ". iApply wp_bind.
  iApply (wp_find with "Hst Hk"); [by apply wf_length_pos, Hdb|done|]. iIntros (q) "Hk Hq".
  rewrite /Store.storeStreamAdd in Ha. destruct (lookup_entry st k) as [e|] eqn:El.
  - iDestruct "Hq" as "(%le & %lk & %c & %next & -> & Hle & Hlk & Hd & Hq)".
    destruct (Store.value e) as [d|r] eqn:Ev; [done|]. iDestruct "Hd" as "->".
    apply bind_ok_inv in Ha as (s & Hs%deref_ok_inv & ([[? s'] ?] & Ea & [= <- <- <- <-])%bind_ok_inv).
    iApply wp_bind. iApply wp_ret. iApply wp_bind. iApply (wp_load_store_entry with "Hle"). iIntros "Hle". cbn [se_value].
    iApply (wp_heap_add with "Hh Hi Hf Hv"); [done..|]. iIntros (q) "Hh Hi Hf Hv Hr".
    iApply ("HΦ" with "[//] [Hle Hlk Hq] Hh Hk Hi Hf Hv Hr"). rewrite -{2}(set_entry_same st k e El). iApply "Hq".
    iApply store_entry_open. iExists le, lk, _. rewrite Ev. by iFrame.
  - iDestruct "Hq" as "[-> Hst]". set (r := fresh (dom h)) in Ha.
    assert (h !! r = None) as Hr by apply not_elem_of_dom, is_fresh.
    apply bind_ok_inv in Ha as (s & Hs%deref_ok_inv & ([[? s'] ?] & Ea & [= <- <- <- <-])%bind_ok_inv).
    rewrite lookup_insert_eq in Hs. injection Hs as <-.
    iApply wp_bind. iApply wp_bind. iApply wp_malloc. iIntros (le) "Hle".
    iApply wp_bind. iApply (wp_strdup with "Hk"). iIntros (?) "Hk (%lk & -> & Hlk)".
    iApply wp_bind. iApply wp_malloc. iIntros (ls) "Hls".
    iAssert (stream_at Stream.createStream (Some ls)) with "[Hls]" as "Hls".
    { iExists ls, NULL, NULL. iFrame. iSplit; [done|]. by iLeft. }
    iDestruct (heap_places ρ r (Some ls) with "[$Hh $Hls]") as "Hh"; [done|].
    iDestruct (store_places ρ r (Some ls) h st with "Hst") as "Hst"; [done..|].
    iApply wp_bind. iApply (wp_insert_entry _ _ _ _ _ _ (CStream (Some ls)) (VStream r) with "Hst Hk Hle Hlk []");
      [by apply wf_length_pos, Hdb|cbn; by rewrite fn_lookup_insert|]. iIntros (next) "Hle Hst Hk".
    iApply wp_ret. iApply wp_bind. iApply (wp_load_store_entry with "Hle"). iIntros "Hle". cbn [se_value].
    iDestruct ("Hst" with "Hle") as "Hst".
    iApply (wp_heap_add with "Hh Hi Hf Hv"); [apply lookup_insert_eq|apply fn_lookup_insert|done..|]. iIntros (q) "Hh Hi Hf Hv Hr".
    iApply ("HΦ" with "[] Hst Hh Hk Hi Hf Hv Hr"). iPureIntro. intros r' [s Hs]. rewrite fn_lookup_insert_ne //. congruence.
Qed.
