(* ===== verification/StoreLifecycle.v ===== *)
(** * The life of a store in memory (src/app/redis_store.c)

    A store from [createStore] to [freeStore], through any sequence of
    operations: the operations of [StoreMemory] against the finite map that
    [Store] implements. *)

From S2P Require Import Prelude Heap CLib Stream Store Memory StreamMemory StoreMemory.
From iris.proofmode Require Import proofmode.

(** ** Operations with their arguments

    Each operation with its arguments in blocks of their own, which the caller
    frees afterwards, as it frees what the operation answers. *)

Fixpoint new_strings (ss : list bytes) : Mem obj (list ptr) :=
  match ss with
  | [] => mret []
  | s :: ss => p ← new_chars s; ps ← new_strings ss; mret (p :: ps)
  end.
Definition new_array (ss : list bytes) : Mem obj ptr := ps ← new_strings ss; malloc (OPtrs ps).

Definition do_op (limit : nat) (st : ptr) (o : store_op) : Mem obj () :=
  match o with
  | OpSet k v =>
      key ← new_chars k; value ← new_chars v;
      _ ← storeSet limit st key value (length v);
      _ ← free key; free value
  | OpExpire k x => key ← new_chars k; _ ← setExpiry limit st key x; free key
  | OpXadd now j k id fs vs =>
      key ← new_chars k; i ← new_chars id; f ← new_array fs; v ← new_array vs;
      reply ← storeStreamAdd limit now j st key i f v (length fs);
      _ ← free reply; _ ← free key; _ ← free i;
      _ ← for_from 0 (length fs) (λ n, p ← load_index f n; _ ← free p; p ← load_index v n; free p);
      _ ← free f; free v
  | OpClear now_s => clearExpired limit now_s st
  end.
Fixpoint do_ops (limit : nat) (st : ptr) (l : list store_op) : Mem obj () :=
  match l with [] => mret () | o :: l => _ ← do_op limit st o; do_ops limit st l end.

(** GET, with what it answers read and freed. *)
Definition do_get (limit : nat) (now : Z) (st : ptr) (k : bytes) : Mem obj (option bytes) :=
  key ← new_chars k;
  r ← storeGet limit now st key;
  _ ← free key;
  match r with
  | Some (p, len) => d ← load_chars p; _ ← free p; mret (Some (take len d))
  | None => mret None
  end.

(** Each field of an XADD has a value. *)
Definition op_even (o : store_op) : Prop :=
  match o with OpXadd _ _ _ _ fs vs => length fs = length vs | _ => True end.

Lemma wp_new_strings ss (Φ : list ptr → hPropI obj) :
  (∀ ps, strings_at ss ps -∗ Φ ps) -∗ wp (new_strings ss) Φ.
Proof.
  revert Φ. induction ss as [|s ss IH]; intros Φ; iIntros "HΦ".
  - iApply wp_ret. by iApply "HΦ".
  - iApply wp_bind. iApply wp_new_chars. iIntros (l) "Hl". iApply wp_bind. iApply IH. iIntros (ps) "Hps".
    iApply wp_ret. iApply "HΦ". cbn. iFrame "Hps". iExists l. by iFrame.
Qed.

Lemma wp_new_array ss (Φ : ptr → hPropI obj) : (∀ p, array_at ss p -∗ Φ p) -∗ wp (new_array ss) Φ.
Proof.
  iIntros "HΦ". iApply wp_bind. iApply wp_new_strings. iIntros (ps) "Hps". iApply wp_malloc. iIntros (l) "Hl".
  iApply "HΦ". iExists l, ps. by iFrame.
Qed.

(** At most [n] keys, and at most [n] entries in each stream. *)
Definition at_most (n : nat) (h : Store.heap) (st : RedisStore) : Prop :=
  (length (concat (table st)) ≤ n)%nat ∧ map_Forall (λ _ s, (length (Stream.entries s) ≤ n)%nat) h.

Lemma at_most_short n limit h st : at_most n h st → (n < limit)%nat → short limit h ∧ (length (concat (table st)) < limit)%nat.
Proof. intros [H1 H2] Hn. split; [|lia]. intros r s Hr. apply H2 in Hr. cbn in Hr. lia. Qed.

Lemma run_op_wf h st o h' st' : db_wf h st → op_ok o → run_op (h, st) o = Ok (h', st') → db_wf h' st'.
Proof.
  intros Hdb Ho E. pose proof (run_op_implements h st o Hdb Ho) as H. rewrite E in H.
  destruct (spec_op (view h st) o); cbn in H; [|done..]. by destruct H as (? & ? & [= <- <-] & ? & _).
Qed.

Lemma streamAdd_length now s id fs vs r s' w :
  Stream.streamAdd now s id fs vs = Ok (r, s', w) → (length (Stream.entries s') ≤ S (length (Stream.entries s)))%nat.
Proof.
  rewrite /Stream.streamAdd. destruct (parseStreamID now id) as [i|]; [|intros [= _ <- _]; lia].
  intros (q & _ & E)%bind_ok_inv. repeat case_match; injection E as _ <- _; cbn; rewrite ?length_app /=; lia.
Qed.

Lemma free_values_subseteq h l : free_values h l ⊆ h.
Proof.
  revert h. induction l as [|e l IH]; intros h; [done|]. cbn. etrans; [apply IH|].
  destruct (Store.value e); [done|]. apply delete_subseteq.
Qed.

(** An operation adds at most one key, and at most one entry to a stream. *)
Lemma run_op_used h st o h' st' : run_op (h, st) o = Ok (h', st') → (Store.used st' ≤ Store.used st + 1)%Z.
Proof.
  destruct o as [k v|k x|now j k id fs vs|now_s]; cbn [run_op].
  - rewrite /Store.storeSet. set (st1 := if load_exceeded _ _ then _ else _).
    assert (Store.used st1 = Store.used st) as E by (subst st1; by case_match).
    destruct (lookup_entry st1 k); intros [= _ <-]; cbn; lia.
  - rewrite /Store.setExpiry. intros [= _ <-]. destruct (lookup_entry st k); cbn; lia.
  - intros ([[[r w] h1] st1] & E & [= _ <-])%bind_ok_inv. revert E. rewrite /Store.storeStreamAdd.
    destruct (lookup_entry st k) as [e|]; [destruct (Store.value e); [done|]|];
      intros (s & _ & ([[? ?] ?] & _ & [= _ _ _ <-])%bind_ok_inv)%bind_ok_inv; cbn; lia.
  - intros [= _ <-]. cbn. lia.
Qed.

Lemma run_op_streams n h st o h' st' :
  map_Forall (λ _ s, (length (Stream.entries s) ≤ n)%nat) h → run_op (h, st) o = Ok (h', st') →
  map_Forall (λ _ s, (length (Stream.entries s) ≤ S n)%nat) h'.
Proof.
  intros Hh E. assert (∀ h2, h2 ⊆ h → map_Forall (λ _ s, (length (Stream.entries s) ≤ S n)%nat) h2) as Hsub.
  { intros h2 Hs r s Hr. specialize (Hh r s (lookup_weaken _ _ _ _ Hr Hs)). cbn in Hh. lia. }
  revert E. destruct o as [k v|k x|now j k id fs vs|now_s]; cbn [run_op].
  - rewrite /Store.storeSet. set (st1 := if load_exceeded _ _ then _ else _).
    destruct (lookup_entry st1 k) as [e|]; intros [= <- _]; [|by apply Hsub].
    apply Hsub. destruct (Store.value e); [done|apply delete_subseteq].
  - intros [= <- _]. by apply Hsub.
  - intros ([[[r w] h1] st1] & E & [= <- _])%bind_ok_inv. revert E. rewrite /Store.storeStreamAdd.
    destruct (lookup_entry st k) as [e|]; [destruct (Store.value e) as [|ref]; [done|]|];
      intros (s & Hs%deref_ok_inv & ([[? s'] ?] & Ea%streamAdd_length & [= _ _ <- _])%bind_ok_inv)%bind_ok_inv.
    + apply map_Forall_insert_2; [|by apply Hsub]. specialize (Hh ref s Hs). cbn in Hh. lia.
    + rewrite lookup_insert_eq in Hs. injection Hs as <-. cbn in Ea.
      apply map_Forall_insert_2; [lia|]. apply map_Forall_insert_2; [cbn; lia|by apply Hsub].
  - intros [= <- _]. apply Hsub, free_values_subseteq.
Qed.

Lemma run_op_at_most n h st o h' st' :
  db_wf h st → op_ok o → at_most n h st → run_op (h, st) o = Ok (h', st') → db_wf h' st' ∧ at_most (S n) h' st'.
Proof.
  intros Hdb Ho [H1 H2] E. pose proof (run_op_wf _ _ _ _ _ Hdb Ho E) as Hdb'. split; [done|]. split; [|by eapply run_op_streams].
  pose proof (run_op_used _ _ _ _ _ E). pose proof (wf_used _ (proj1 Hdb)). pose proof (wf_used _ (proj1 Hdb')). lia.
Qed.

Lemma run_ops_at_most n h st l h' st' :
  db_wf h st → Forall op_ok l → at_most n h st → run_ops (h, st) l = Ok (h', st') → at_most (n + length l) h' st'.
Proof.
  revert n h st. induction l as [|o l IH]; intros n h st Hdb Ho Hn E; cbn [length].
  - injection E as <- <-. by rewrite Nat.add_0_r.
  - apply Forall_cons in Ho as [Ho Hos]. apply bind_ok_inv in E as ([h1 st1] & E1 & E).
    destruct (run_op_at_most _ _ _ _ _ _ Hdb Ho Hn E1) as [Hdb1 Hn1]. rewrite Nat.add_succ_r. by apply (IH (S n) h1 st1).
Qed.

Lemma free_store_run limit h st p m mf :
  db_wf h st → short limit h → (length (concat (table st)) < limit)%nat →
  some_store h st p m → m ##ₘ mf → freeStore limit p (m ∪ mf) = Ok ((), mf).
Proof.
  intros Hdb Hs Hlen Hm Hd. destruct (wp_run (freeStore limit p) (some_store h st p) (λ _, emp)%I m mf) as ([] & m3 & E & _ & He); [|done..|].
  - iIntros "(%ρ & Hst & Hh)". iApply (wp_freeStore _ _ h st with "Hst Hh"); [by apply owns_live, Hdb|done|done|apply Hdb|done].
  - rewrite E. by rewrite He map_empty_union.
Qed.

(** A stream that was there stays where it is. *)
Lemma wp_do_op limit ρ h st o h' st' p (Φ : () → hPropI obj) :
  db_wf h st → op_ok o → op_even o → short limit h → (length (concat (table st)) < limit)%nat →
  run_op (h, st) o = Ok (h', st') →
  store_at ρ st p -∗ heap_at ρ h -∗
  (∀ ρ', <affine> ⌜∀ r, is_Some (h !! r) → ρ' r = ρ r⌝ -∗ store_at ρ' st' p -∗ heap_at ρ' h' -∗ Φ ()) -∗
  wp (do_op limit p o) Φ.
Proof.
  iIntros (Hdb Ho Hev Hs Hlen E) "Hst Hh HΦ". destruct o as [k v|k x|now j k id fs vs|now_s]; cbn [do_op run_op op_ok op_even] in *.
  - iApply wp_bind. iApply wp_new_chars. iIntros (lk) "Hk". iApply wp_bind. iApply wp_new_chars. iIntros (lv) "Hv".
    iApply wp_bind. iApply (wp_storeSet _ _ _ _ k with "Hst Hh [Hk] Hv"); [done..|iExists lk; by iFrame|].
    destruct (Store.storeSet h st k v) as [[rc h1] st1]. injection E as -> ->. cbn [fst snd].
    iIntros "Hst Hh (%l & %El & Hk) Hv". injection El as <-. iApply wp_bind. iApply (wp_free with "Hk"). iApply (wp_free with "Hv").
    iApply ("HΦ" with "[//] Hst Hh").
  - injection E as <- <-. iApply wp_bind. iApply wp_new_chars. iIntros (lk) "Hk".
    iApply wp_bind. iApply (wp_setExpiry _ _ _ _ k with "Hst [Hk]"); [done..|iExists lk; by iFrame|].
    iIntros "Hst Hk". iApply (wp_free_chars with "Hk"). iApply ("HΦ" with "[//] Hst Hh").
  - apply bind_ok_inv in E as ([[[r w] h1] st1] & E & [= <- <-]).
    iApply wp_bind. iApply wp_new_chars. iIntros (lk) "Hk". iApply wp_bind. iApply wp_new_chars. iIntros (li) "Hi".
    iApply wp_bind. iApply wp_new_array. iIntros (f) "Hf". iApply wp_bind. iApply wp_new_array. iIntros (v) "Hv".
    iApply wp_bind. iApply (wp_storeStreamAdd _ _ _ _ _ _ k id with "Hst Hh [Hk] [Hi] Hf Hv"); [done..|iExists lk; by iFrame|iExists li; by iFrame|].
    iIntros (ρ' q) "%Hρ Hst Hh Hk Hi (%lf & %ps & -> & Hf & Hfs) (%lv & %qs & -> & Hv & Hvs) Hr".
    iApply wp_bind. iApply (wp_free_chars_or_null with "Hr"). iApply wp_bind. iApply (wp_free_chars with "Hk").
    iApply wp_bind. iApply (wp_free_chars with "Hi"). iApply wp_bind.
    iApply (wp_free_pairs with "Hf Hfs Hv Hvs"); [done|]. iIntros "Hf Hv".
    iApply wp_bind. iApply (wp_free with "Hf"). iApply (wp_free with "Hv"). iApply ("HΦ" with "[//] Hst Hh").
  - iApply (wp_clearExpired _ _ h st with "Hst Hh"); [by apply owns_live, Hdb|done..|].
    destruct (Store.clearExpired now_s h st) as [h1 st1]. injection E as -> ->. iIntros "Hst Hh". iApply ("HΦ" with "[//] Hst Hh").
Qed.

Lemma wp_do_ops limit ρ n h st l h' st' p (Φ : () → hPropI obj) :
  db_wf h st → Forall op_ok l → Forall op_even l → at_most n h st → (n + length l < limit)%nat →
  run_ops (h, st) l = Ok (h', st') →
  store_at ρ st p -∗ heap_at ρ h -∗ (∀ ρ', store_at ρ' st' p -∗ heap_at ρ' h' -∗ Φ ()) -∗ wp (do_ops limit p l) Φ.
Proof.
  revert ρ n h st. induction l as [|o l IH]; intros ρ n h st Hdb Ho Hev Hn Hlt E; cbn in Hlt.
  - injection E as <- <-. iIntros "Hst Hh HΦ". iApply wp_ret. iApply ("HΦ" with "Hst Hh").
  - apply Forall_cons in Ho as [Ho Hos]. apply Forall_cons in Hev as [He Hes].
    apply bind_ok_inv in E as ([h1 st1] & E1 & E). destruct (run_op_at_most _ _ _ _ _ _ Hdb Ho Hn E1) as [Hdb1 Hn1].
    destruct (at_most_short n limit h st Hn) as [Hs Hlen]; [lia|].
    iIntros "Hst Hh HΦ". iApply wp_bind. iApply (wp_do_op with "Hst Hh"); [done..|]. iIntros (ρ') "_ Hst Hh".
    iApply (IH ρ' (S n) with "Hst Hh HΦ"); [done..|lia|done].
Qed.

Lemma wp_do_get limit ρ h st now k p (Φ : option bytes → hPropI obj) :
  db_wf h st → (length (concat (table st)) < limit)%nat →
  store_at ρ st p -∗ (store_at ρ st p -∗ Φ (Store.storeGet now st k)) -∗ wp (do_get limit now p k) Φ.
Proof.
  iIntros (Hdb Hlen) "Hst HΦ". iApply wp_bind. iApply wp_new_chars. iIntros (lk) "Hk".
  iApply wp_bind. iApply (wp_storeGet _ _ _ _ _ k with "Hst [Hk]"); [done..|iExists lk; by iFrame|].
  iIntros (r) "Hst Hk Hr". iApply wp_bind. iApply (wp_free_chars with "Hk"). destruct (Store.storeGet now st k) as [d|].
  - iDestruct "Hr" as "(%c & -> & Hc)". iApply wp_bind. iApply (wp_load_chars with "Hc"). iIntros "Hc".
    iApply wp_bind. iApply (wp_free with "Hc"). iApply wp_ret. rewrite firstn_all. by iApply "HΦ".
  - iDestruct "Hr" as "->". iApply wp_ret. by iApply "HΦ".
Qed.

(** ** The property *)

(** C5. The store from its creation to its release.  Whatever SETs, expiries,
    XADDs and sweeps it goes through, the operations on its blocks follow the
    pointers without a fault and do to the memory what the map promises: GET
    answers from the map, with a copy; what the callers passed in is theirs to
    free; and [freeStore] gives back every block, so that the rest of the
    memory is as it was before [createStore]. *)
Theorem store_lifecycle limit l m mf :
  Forall op_ok l → Forall op_even l → (length l < limit)%nat → spec_ops KV.empty l = Ok m →
  ∃ p m1, (s ← createStore; _ ← do_ops limit s l; mret s) mf = Ok (p, m1 ∪ mf) ∧ m1 ##ₘ mf
    ∧ freeStore limit p (m1 ∪ mf) = Ok ((), mf)
    ∧ ∀ now k, ∃ m2, do_get limit now p k (m1 ∪ mf) = Ok (KV.get now m k, m2 ∪ mf) ∧ m2 ##ₘ mf
        ∧ freeStore limit p (m2 ∪ mf) = Ok ((), mf).
Proof.
  intros Ho He Hl Hm. pose proof (run_ops_implements ∅ Store.createStore l createStore_wf Ho) as H.
  rewrite createStore_view Hm in H. destruct H as (h & st & E & Hdb & <-).
  assert (at_most 0 ∅ Store.createStore) as H0 by (split; [vm_compute; lia|apply map_Forall_empty]).
  destruct (at_most_short _ limit h st (run_ops_at_most _ _ _ _ _ _ createStore_wf Ho H0 E)) as [Hs Hlen]; [done|].
  destruct (wp_run (s ← createStore; _ ← do_ops limit s l; mret s) emp
    (some_store h st) ∅ mf) as (p & m1 & E1 & Hd1 & H1); [|done|apply map_disjoint_empty_l|].
  { iIntros "_". iApply wp_bind. iApply (wp_createStore (λ _, NULL)). iIntros (p) "Hst".
    iApply wp_bind. iApply (wp_do_ops _ _ 0 with "Hst []"); [apply createStore_wf|done|done|done|done|done|by rewrite /heap_at big_sepM_empty|].
    iIntros (ρ) "Hst Hh". iApply wp_ret. iExists ρ. iFrame. }
  rewrite map_empty_union in E1. exists p, m1. split_and!; [done|done|by eapply free_store_run|]. intros now k.
  destruct (wp_run (do_get limit now p k) (some_store h st p) (λ r, <affine> ⌜r = Store.storeGet now st k⌝ ∗ some_store h st p)%I
    m1 mf) as (r & m2 & E2 & Hd2 & H2); [|exact H1|done|].
  { iIntros "(%ρ & Hst & Hh)". iApply (wp_do_get with "Hst"); [done|done|]. iIntros "Hst". iSplit; [done|]. iExists ρ. iFrame. }
  destruct H2 as (m3 & m4 & -> & _ & [Hr ->] & H2). rewrite /= in Hr. subst m3. rewrite map_empty_union in E2 Hd2.
  exists m4. rewrite E2 -(storeGet_spec now h st k (proj1 Hdb)). split_and!; [done|done|by eapply free_store_run].
Qed.

Definition ex_map : KV.state := match spec_ops KV.empty ex_ops with Ok m => m | _ => ∅ end.

Lemma store_lifecycle_witness :
  ∃ p m1, (s ← createStore; _ ← do_ops 9 s ex_ops; mret s) ∅ = Ok (p, m1 ∪ ∅) ∧ m1 ##ₘ ∅
    ∧ freeStore 9 p (m1 ∪ ∅) = Ok ((), ∅)
    ∧ ∀ now k, ∃ m2, do_get 9 now p k (m1 ∪ ∅) = Ok (KV.get now ex_map k, m2 ∪ ∅) ∧ m2 ##ₘ ∅
        ∧ freeStore 9 p (m2 ∪ ∅) = Ok ((), ∅).
Proof.
  apply (store_lifecycle 9 ex_ops ex_map).
  - exact ex_ops_ok.
  - repeat constructor.
  - apply (bool_decide_unpack _). exact I.
  - vm_compute. reflexivity.
Defined.
