(* ===== verification/Replicas.v ===== *)
(** * The server record and its replicas (app/server.h, app/handshake.h,
      app/replicas.c)

    The records of the headers, and the operations on the list of replicas.
    A socket is its descriptor; what the operating system answers to a write
    is a function of the writes before it ([write_result]), and the writes and
    closes the program makes are kept in order ([io]). *)
From S2P Require Import Prelude.
From S2P Require Import CLib.
From S2P Require Import Resp.
From S2P Require Import Store.

(** ** Sockets *)

Inductive io := Wrote (fd : Z) (data : bytes) | Closed (fd : Z).
(** The result of [write] or [send], given everything done before. *)
Abbreviation write_result := (list io → Z → bytes → Z).
(** A write transfers some of the bytes, or fails. *)
Definition writes_ok (w : write_result) : Prop :=
  ∀ log fd data, w log fd data = -1 ∨ 0 ≤ w log fd data ≤ Z.of_nat (length data).
(** Every write to a descriptor of [good] transfers everything. *)
Definition writes_all (w : write_result) (good : list Z) : Prop :=
  ∀ log fd data, fd ∈ good → w log fd data = Z.of_nat (length data).

(** ** The records *)

Definition INITIAL_REPLICA_CAPACITY : Z := 16.
Record MasterInfo := mkMasterInfo { mi_host : bytes; mi_port : Z; mi_fd : Z }.
Record Replica := mkReplica { r_fd : Z; ack_offset : Z }.
Record Replicas := mkReplicas { replicas : list Replica; replica_capacity : Z }.
Definition replica_count (rs : Replicas) : Z := Z.of_nat (length (replicas rs)).
Record ReplicationInfo := mkReplicationInfo {
  master_info : option MasterInfo;
  replication_id : bytes;
  repl_offset : Z;
  ri_replicas : option Replicas
}.
Record ServerStats := mkServerStats {
  tcp_backlog : Z;
  clients_count : Z;
  total_commands_processed : Z;
  keyspace_hits : Z;
  keyspace_misses : Z
}.
Record RedisServer := mkRedisServer {
  bindaddr : bytes;
  port : Z;
  db : RedisStore;
  dir : bytes;
  rdb_filename : bytes;
  repl_info : ReplicationInfo;
  stats : ServerStats
}.

Definition set_db (st : RedisStore) (s : RedisServer) : RedisServer :=
  mkRedisServer (bindaddr s) (port s) st (dir s) (rdb_filename s) (repl_info s) (stats s).
Definition set_repl (ri : ReplicationInfo) (s : RedisServer) : RedisServer :=
  mkRedisServer (bindaddr s) (port s) (db s) (dir s) (rdb_filename s) ri (stats s).
Definition set_replicas (rs : option Replicas) (ri : ReplicationInfo) : ReplicationInfo :=
  mkReplicationInfo (master_info ri) (replication_id ri) (repl_offset ri) rs.
Definition add_offset (n : Z) (ri : ReplicationInfo) : ReplicationInfo :=
  mkReplicationInfo (master_info ri) (replication_id ri) (repl_offset ri + n) (ri_replicas ri).
Definition is_master (ri : ReplicationInfo) : bool :=
  match master_info ri with None => true | Some _ => false end.

(** The invariant of the record: a replica has a master and no list, a
    master the reverse. *)
Definition repl_wf (ri : ReplicationInfo) : Prop :=
  match master_info ri, ri_replicas ri with
  | None, Some rs => replica_count rs ≤ replica_capacity rs ∧ 0 < replica_capacity rs
  | Some _, None => True
  | _, _ => False
  end.

(** ** Operations *)

Definition initReplicaList (ri : ReplicationInfo) : ReplicationInfo :=
  set_replicas (Some (mkReplicas [] INITIAL_REPLICA_CAPACITY)) ri.

(** On a server that is itself a replica the list is [NULL]. *)
Definition addReplica (fd : Z) (ri : ReplicationInfo) : res ReplicationInfo :=
  rs ← deref (ri_replicas ri);
  let capacity := if replica_capacity rs <=? replica_count rs
                  then replica_capacity rs * 2 else replica_capacity rs in
  Ok (set_replicas (Some (mkReplicas (replicas rs ++ [mkReplica fd 0]) capacity)) ri).

Fixpoint remove_first (fd : Z) (l : list Replica) : list Replica :=
  match l with
  | [] => []
  | r :: l' => if r_fd r =? fd then l' else r :: remove_first fd l'
  end.
Definition removeReplica (fd : Z) (rs : Replicas) : Replicas :=
  mkReplicas (remove_first fd (replicas rs)) (replica_capacity rs).

(** The loop of [propagateCommand] at index [i]; a replica whose write fails
    is removed and closed, and [i] stays where it is.  Every iteration
    brings the end nearer, so the list's length is fuel enough. *)
Fixpoint propagate_loop (fuel : nat) (w : write_result) (cmd : bytes) (i : nat)
    (rs : Replicas) (offset : Z) (log : list io) : Replicas * Z * list io :=
  match fuel with
  | O => (rs, offset, log)
  | S fuel' =>
      match replicas rs !! i with
      | None => (rs, offset, log)
      | Some r =>
          let written := w log (r_fd r) cmd in
          let log := log ++ [Wrote (r_fd r) cmd] in
          if written <? 0 then
            propagate_loop fuel' w cmd i (removeReplica (r_fd r) rs) (offset + written)
              (log ++ [Closed (r_fd r)])
          else propagate_loop fuel' w cmd (S i) rs (offset + written) log
      end
  end.

Definition command_elements (v : RespValue) : res (list RespValue) :=
  match v with RespArray es => Ok es | _ => UB end.

Definition propagateCommand (w : write_result) (command : RespValue)
    (ri : ReplicationInfo) (log : list io) : res (ReplicationInfo * list io) :=
  es ← command_elements command;
  let cmd_str := cstr (createRespArrayFromElements es) in
  rs ← deref (ri_replicas ri);
  let '(rs, offset, log) :=
    propagate_loop (length (replicas rs)) w cmd_str 0 rs (repl_offset ri) log in
  Ok (mkReplicationInfo (master_info ri) (replication_id ri) offset (Some rs), log).

(** ** What a propagation is meant to do: one write to each replica in order,
    keeping those that accept it *)
Fixpoint deliver (w : write_result) (cmd : bytes) (l : list Replica) (log : list io)
    : list Replica * Z * list io :=
  match l with
  | [] => ([], 0, log)
  | r :: l' =>
      let written := w log (r_fd r) cmd in
      let log := log ++ [Wrote (r_fd r) cmd] in
      if written <? 0 then
        let '(kept, n, log) := deliver w cmd l' (log ++ [Closed (r_fd r)]) in
        (kept, written + n, log)
      else
        let '(kept, n, log) := deliver w cmd l' log in (r :: kept, written + n, log)
  end.

Lemma remove_first_app fd l r l' :
  fd ∉ map r_fd l → r_fd r = fd → remove_first fd (l ++ r :: l') = l ++ l'.
Proof.
  intros Hl Hr. induction l as [|x l IH]; simpl in *.
  - by rw Hr Z.eqb_refl.
  - apply not_elem_of_cons in Hl as [Hx Hl].
    rw (proj2 (Z.eqb_neq _ _)); [|congruence]. by rw IH.
Qed.

Lemma propagate_loop_deliver w cmd todo done cap offset log :
  NoDup (map r_fd (done ++ todo)) →
  propagate_loop (length todo) w cmd (length done) (mkReplicas (done ++ todo) cap) offset log =
  let '(kept, n, log') := deliver w cmd todo log in
  (mkReplicas (done ++ kept) cap, offset + n, log').
Proof.
  revert done offset log. induction todo as [|r todo IH]; intros done offset log Hd.
  { cbn. by rw Z.add_0_r. }
  cbn [length propagate_loop replicas deliver]. rw list_lookup_middle; [|done].
  rw map_app NoDup_app in Hd. destruct Hd as (Hd1 & Hd2 & Hd3).
  destruct (w log (r_fd r) cmd <? 0) eqn:E.
  - rw /removeReplica /= remove_first_app; [|intros Hx; by apply (Hd2 _ Hx); left|done].
    rw IH; [|].
    + destruct (deliver _ _ _ _) as [[kept n] log']. by rw Z.add_assoc.
    + rw map_app NoDup_app. apply NoDup_cons in Hd3 as [_ Hd3].
      split_and!; [done| |done]. intros x Hx Hx'. apply (Hd2 _ Hx). by right.
  - rw (_ : S (length done) = length (done ++ [r])); [|rw length_app /=; lia].
    rw (_ : done ++ r :: todo = (done ++ [r]) ++ todo); [|by rw -app_assoc]. rw IH; [|].
    + destruct (deliver _ _ _ _) as [[kept n] log']. by rw Z.add_assoc -app_assoc.
    + rw -app_assoc map_app NoDup_app. split_and!; done.
Qed.

(** With every write accepted in full, the list stays and each replica adds
    the command's length. *)
Lemma deliver_all w cmd l log :
  writes_all w (map r_fd l) →
  deliver w cmd l log =
  (l, Z.of_nat (length l) * Z.of_nat (length cmd),
   log ++ map (λ r, Wrote (r_fd r) cmd) l).
Proof.
  revert log. induction l as [|r l IH]; intros log Hw; [by rw /= app_nil_r|].
  cbn [deliver]. rw Hw; [|by left]. rw (proj2 (Z.ltb_ge _ _)); [|lia].
  rw IH; [|intros lg fd d Hfd; apply Hw; by right]. rw -app_assoc.
  do 2 f_equal. cbn [length]. lia.
Qed.

Lemma deliver_subset w cmd l log : (deliver w cmd l log).1.1 ⊆ l.
Proof.
  revert log. induction l as [|r l IH]; intros log; [done|]. cbn [deliver].
  destruct (_ <? 0); [specialize (IH ((log ++ [Wrote (r_fd r) cmd]) ++ [Closed (r_fd r)]))
                     |specialize (IH (log ++ [Wrote (r_fd r) cmd]))];
    destruct (deliver _ _ _ _) as [[kept n] log']; simpl in *; set_solver.
Qed.

Lemma deliver_length w cmd l log : (length (deliver w cmd l log).1.1 ≤ length l)%nat.
Proof.
  revert log. induction l as [|r l IH]; intros log; [done|]. cbn [deliver].
  destruct (_ <? 0); [specialize (IH ((log ++ [Wrote (r_fd r) cmd]) ++ [Closed (r_fd r)]))
                     |specialize (IH (log ++ [Wrote (r_fd r) cmd]))];
    destruct (deliver _ _ _ _) as [[kept n] log']; simpl in *; lia.
Qed.

(** What has been done stays done, and each of the replicas is written to. *)
Lemma deliver_log w cmd l log : log `prefix_of` (deliver w cmd l log).2.
Proof.
  revert log. induction l as [|r l IH]; intros log; [done|]. cbn [deliver].
  destruct (_ <? 0);
    [specialize (IH ((log ++ [Wrote (r_fd r) cmd]) ++ [Closed (r_fd r)]))|specialize (IH (log ++ [Wrote (r_fd r) cmd]))];
    destruct (deliver _ _ _ _) as [[kept n] log']; cbn in *.
  - rw -app_assoc in IH. by eapply prefix_app_l.
  - by eapply prefix_app_l.
Qed.

Lemma deliver_writes w cmd l log fd :
  fd ∈ map r_fd l → Wrote fd cmd ∈ (deliver w cmd l log).2.
Proof.
  revert log. induction l as [|r l IH]; intros log Hfd; [by apply not_elem_of_nil in Hfd|]. cbn [deliver].
  assert (∀ k, log ++ [Wrote (r_fd r) cmd] `prefix_of` k → r_fd r = fd → Wrote fd cmd ∈ k) as Hhead.
  { intros k [k' ->] <-. set_solver. }
  cbn in Hfd. apply elem_of_cons in Hfd. destruct (_ <? 0).
  - pose proof (deliver_log w cmd l ((log ++ [Wrote (r_fd r) cmd]) ++ [Closed (r_fd r)])) as Hp.
    specialize (IH ((log ++ [Wrote (r_fd r) cmd]) ++ [Closed (r_fd r)])).
    destruct (deliver _ _ _ _) as [[kept n] log']. cbn in *. destruct Hfd as [->|Hfd]; [|by apply IH].
    apply Hhead; [|done]. by eapply prefix_app_l.
  - pose proof (deliver_log w cmd l (log ++ [Wrote (r_fd r) cmd])) as Hp.
    specialize (IH (log ++ [Wrote (r_fd r) cmd])).
    destruct (deliver _ _ _ _) as [[kept n] log']. cbn in *. destruct Hfd as [->|Hfd]; [by apply Hhead|by apply IH].
Qed.

Lemma remove_first_length fd l : (length (remove_first fd l) ≤ length l)%nat.
Proof. induction l as [|r l IH]; simpl; [done|]. case_match; simpl; lia. Qed.

Lemma propagate_loop_count fuel w cmd i rs offset log :
  (length (replicas (propagate_loop fuel w cmd i rs offset log).1.1) ≤ length (replicas rs))%nat
  ∧ replica_capacity (propagate_loop fuel w cmd i rs offset log).1.1 = replica_capacity rs.
Proof.
  revert i rs offset log. induction fuel as [|fuel IH]; intros i rs offset log; [done|].
  cbn [propagate_loop]. case_match; [|done]. case_match; [|apply IH].
  match goal with |- context [propagate_loop _ _ _ _ ?r ?o ?l] => destruct (IH i r o l) as [H1 ->] end.
  split; [|done]. etrans; [apply H1|]. apply remove_first_length.
Qed.

(** Propagation keeps the replication record in order. *)
Lemma propagateCommand_wf w command ri log ri' log' :
  repl_wf ri → propagateCommand w command ri log = Ok (ri', log') →
  repl_wf ri' ∧ master_info ri' = master_info ri.
Proof.
  rw /repl_wf /propagateCommand. destruct (ri_replicas ri) as [rs|]; intros Hwf H; ok_inv H;
    [|destruct (command_elements _); done].
  simplify_eq/=. pose proof (propagate_loop_count (length (replicas r0)) w
    (cstr (createRespArrayFromElements r)) 0 r0 (repl_offset ri) log) as [Hc Hk].
  destruct (propagate_loop _ _ _ _ _ _ _) as [[rs' off] lg]. simplify_eq/=.
  destruct (master_info ri); [done|]. unfold replica_count in *. rw Hk. split; [lia|done].
Qed.

Lemma addReplica_wf fd ri :
  repl_wf ri → master_info ri = None →
  ∃ ri', addReplica fd ri = Ok ri' ∧ repl_wf ri' ∧ master_info ri' = None
    ∧ ∃ rs rs', ri_replicas ri = Some rs ∧ ri_replicas ri' = Some rs'
       ∧ replicas rs' = replicas rs ++ [mkReplica fd 0].
Proof.
  rw /repl_wf /addReplica. intros Hwf Hm. rw Hm in Hwf.
  destruct (ri_replicas ri) as [rs|]; [|done]. eexists. split; [done|]. cbn.
  rw Hm. split; [|by eauto 7]. unfold replica_count in *. rw /= length_app /=.
  destruct (Z.leb_spec (replica_capacity rs) (Z.of_nat (length (replicas rs)))); lia.
Qed.

(** ** The properties *)

(** C29. On a master whose replicas have distinct sockets, propagating a
    command writes its serialisation exactly once to every replica, in order;
    the replicas whose write fails are closed and dropped and the others kept,
    although the loop removes from the list it walks.  The offset moves by the
    sum of what the writes return. *)
Theorem propagate_each_once w es ri rs log :
  ri_replicas ri = Some rs → NoDup (map r_fd (replicas rs)) →
  let cmd := cstr (createRespArrayFromElements es) in
  let '(kept, n, log') := deliver w cmd (replicas rs) log in
  propagateCommand w (RespArray es) ri log =
  Ok (mkReplicationInfo (master_info ri) (replication_id ri) (repl_offset ri + n)
        (Some (mkReplicas kept (replica_capacity rs))), log').
Proof.
  intros Hr Hd cmd. pose proof (propagate_loop_deliver w cmd (replicas rs) [] (replica_capacity rs)
    (repl_offset ri) log Hd) as Hp.
  destruct (deliver w cmd (replicas rs) log) as [[kept n] log'] eqn:E.
  rw /propagateCommand Hr. cbn [command_elements mbind res_bind deref].
  destruct rs as [l cap]. cbn in Hp |- *. by rw Hp.
Qed.

Definition ex_repl : ReplicationInfo :=
  mkReplicationInfo None (bs "8371b4fb") 10 (Some (mkReplicas [mkReplica 7 0; mkReplica 8 0; mkReplica 9 0] 16)).
(** Socket 8 is broken. *)
Definition ex_write : write_result := λ _ fd data, if fd =? 8 then -1 else Z.of_nat (length data).
Definition ex_set : list RespValue := [RespBulk (bs "SET"); RespBulk (bs "k"); RespBulk (bs "v")].

Lemma propagate_each_once_witness :
  propagateCommand ex_write (RespArray ex_set) ex_repl [] =
  let cmd := cstr (createRespArrayFromElements ex_set) in
  Ok (mkReplicationInfo None (bs "8371b4fb") (10 + 53)
        (Some (mkReplicas [mkReplica 7 0; mkReplica 9 0] 16)),
      [Wrote 7 cmd; Wrote 8 cmd; Closed 8; Wrote 9 cmd]).
Proof.
  pose proof (propagate_each_once ex_write ex_set ex_repl
    (mkReplicas [mkReplica 7 0; mkReplica 8 0; mkReplica 9 0] 16) [] eq_refl ltac:(by_decide)) as H.
  vm_compute in H. vm_compute. exact H.
Defined.

(** When every replica accepts the whole command, the master's offset
    grows by the command's length times the number of replicas, so with two
    or more of them it runs ahead of the offset each replica keeps. *)
Theorem propagate_offset_per_replica w es ri rs log :
  ri_replicas ri = Some rs → NoDup (map r_fd (replicas rs)) →
  writes_all w (map r_fd (replicas rs)) →
  let cmd := cstr (createRespArrayFromElements es) in
  propagateCommand w (RespArray es) ri log =
  Ok (add_offset (replica_count rs * Z.of_nat (length cmd)) ri,
      log ++ map (λ r, Wrote (r_fd r) cmd) (replicas rs)).
Proof.
  intros Hr Hd Hw cmd. rw /propagateCommand Hr. cbn [command_elements mbind res_bind deref].
  pose proof (propagate_loop_deliver w cmd (replicas rs) [] (replica_capacity rs)
    (repl_offset ri) log Hd) as Hp. rw deliver_all in Hp; [|done].
  destruct rs as [l cap], ri. cbn in Hp, Hr |- *. rw Hp. by rw Hr.
Qed.

Lemma propagate_offset_per_replica_witness :
  let rs := mkReplicas [mkReplica 7 0; mkReplica 9 0] 16 in
  let ri := mkReplicationInfo None (bs "8371b4fb") 0 (Some rs) in
  let cmd := cstr (createRespArrayFromElements ex_set) in
  propagateCommand ex_write (RespArray ex_set) ri [] =
  Ok (add_offset 54 ri, [Wrote 7 cmd; Wrote 9 cmd]).
Proof.
  refine (propagate_offset_per_replica ex_write ex_set
    (mkReplicationInfo None (bs "8371b4fb") 0 (Some (mkReplicas [mkReplica 7 0; mkReplica 9 0] 16)))
    _ [] eq_refl _ _); [by_decide|].
  intros log fd data Hfd. rw !elem_of_cons in Hfd. rw /ex_write. case_match; [set_solver by lia|done].
Defined.
