(* ===== verification/World.v ===== *)
(** * What a command runs in

    The state that the commands share (the server record, the streams in
    memory, the two condition-variable states, the clock and the log of socket
    writes), the environment they run against, and the monad of computations
    on that state.  An operation that blocks hands the state to the
    environment, which stands for the other threads, and goes on with the
    state it gets back. *)
From S2P Require Import Prelude.
From S2P Require Import CLib.
From S2P Require Import Stream.
From S2P Require Import Store.
From S2P Require Import Replicas.

(** ** State *)

(** [signalled] records whether [condition] was signalled since the last
    [WAIT] began. *)
Record WaitState := mkWaitState {
  remaining_count : Z;
  acks_received : Z;
  completed : bool;
  signalled : bool
}.

(** [clock] is in nanoseconds since the Epoch. *)
Record World := mkWorld {
  server : RedisServer;
  streams : heap;
  wait_state : WaitState;
  has_new_data : bool;
  clock : Z;
  ios : list io
}.

Definition now_ms (w : World) : Z := clock w / 10 ^ 6.
Definition now_s (w : World) : Z := clock w / 10 ^ 9.

Definition with_server (s : RedisServer) (w : World) : World :=
  mkWorld s (streams w) (wait_state w) (has_new_data w) (clock w) (ios w).
Definition with_db (h : heap) (st : RedisStore) (w : World) : World :=
  mkWorld (set_db st (server w)) h (wait_state w) (has_new_data w) (clock w) (ios w).
Definition with_repl (ri : ReplicationInfo) (w : World) : World :=
  with_server (set_repl ri (server w)) w.
Definition with_wait (s : WaitState) (w : World) : World :=
  mkWorld (server w) (streams w) s (has_new_data w) (clock w) (ios w).
Definition with_new_data (b : bool) (w : World) : World :=
  mkWorld (server w) (streams w) (wait_state w) b (clock w) (ios w).
Definition with_ios (l : list io) (w : World) : World :=
  mkWorld (server w) (streams w) (wait_state w) (has_new_data w) (clock w) l.

Abbreviation repl w := (repl_info (server w)).
Abbreviation store w := (db (server w)).

(** ** Environment *)

(** A deadline is a [struct timespec]. *)
Inductive waiting :=
| DataForever
| DataUntil (sec nsec : Z)
| AcksUntil (sec nsec : Z)
| Sleep (ms : Z).

(** [wait_result]: whether the wait was signalled (it timed out otherwise)
    and the state then; [None] when it never returns. *)
Record Env := mkEnv {
  files : bytes → option bytes;
  writes : write_result;
  memory : junk;
  wait_result : waiting → World → option (bool * World)
}.

(** ** The monad *)

Definition M (A : Type) : Type := World → res (A * World).

#[export] Instance M_ret : MRet M := λ A a w, Ok (a, w).
#[export] Instance M_bind : MBind M := λ A B f m w,
  match m w with Ok (a, w') => f a w' | UB => UB | Diverge => Diverge end.

Definition lift {A} (r : res A) : M A := λ w, a ← r; Ok (a, w).
Definition gets {A} (f : World → A) : M A := λ w, Ok (f w, w).
Definition modify (f : World → World) : M unit := λ w, Ok ((), f w).

(** Block until the environment wakes the caller. *)
Definition block (env : Env) (k : waiting) : M bool := λ w,
  match wait_result env k w with Some r => Ok r | None => Diverge end.

(** [send] and [write] on a socket; the callers here ignore the result. *)
Definition send (fd : Z) (data : bytes) : M unit :=
  modify (λ w, with_ios (ios w ++ [Wrote fd data]) w).

(** ** The invariant of the shared state *)

Record world_wf (w : World) : Prop := {
  ww_db : db_wf (streams w) (store w);
  ww_repl : repl_wf (repl w);
  ww_clock : 0 ≤ clock w < 10 ^ 6 * 2 ^ 63
}.

(** The other threads keep the invariant, do not turn a master into a
    replica, and do not turn the clock back. *)
Definition env_ok (env : Env) : Prop :=
  ∀ k w b w', world_wf w → wait_result env k w = Some (b, w') →
    world_wf w' ∧ is_master (repl w') = is_master (repl w) ∧ clock w ≤ clock w'.

(** [keeps m]: run from a good state, [m] leaves a good state whenever it
    returns. *)
Class keeps {A} (m : M A) : Prop := keep :
  ∀ w a w', world_wf w → m w = Ok (a, w') →
    world_wf w' ∧ is_master (repl w') = is_master (repl w) ∧ clock w ≤ clock w'.

Lemma M_bind_ok {A B} (m : M A) (f : A → M B) w b w' :
  (m ≫= f) w = Ok (b, w') → ∃ a w1, m w = Ok (a, w1) ∧ f a w1 = Ok (b, w').
Proof. rw {1}/mbind /M_bind. destruct (m w) as [[a w1]| |]; naive_solver. Qed.

(** The equations of the monad, one step at a time. *)
Lemma bindE {A B} (m : M A) (f : A → M B) w :
  (m ≫= f) w = match m w with Ok (a, w') => f a w' | UB => UB | Diverge => Diverge end.
Proof. done. Qed.

Lemma liftE {A B} (r : res A) (f : A → M B) w :
  (lift r ≫= f) w = match r with Ok a => f a w | UB => UB | Diverge => Diverge end.
Proof. by rw bindE /lift; destruct r. Qed.

Lemma getsE {A B} (g : World → A) (f : A → M B) w : (gets g ≫= f) w = f (g w) w.
Proof. done. Qed.

Lemma modifyE {B} (g : World → World) (f : unit → M B) w : (modify g ≫= f) w = f () (g w).
Proof. done. Qed.

Lemma retE {A B} (a : A) (f : A → M B) w : (mret a ≫= f) w = f a w.
Proof. done. Qed.

Lemma M_ret_ok {A} (a b : A) w w' : (mret a : M A) w = Ok (b, w') → b = a ∧ w' = w.
Proof. by intros [= -> ->]. Qed.

Lemma lift_ok {A} (r : res A) w a w' : lift r w = Ok (a, w') → r = Ok a ∧ w' = w.
Proof. rw /lift. destruct r; naive_solver. Qed.

#[export] Instance keeps_ret {A} (a : A) : keeps (mret a : M A).
Proof. intros w b w' Hw [= <- <-]. split_and!; try done; apply Hw. Qed.

#[export] Instance keeps_lift {A} (r : res A) : keeps (lift r).
Proof. intros w b w' Hw [_ ->]%lift_ok. split_and!; try done; apply Hw. Qed.

#[export] Instance keeps_gets {A} (f : World → A) : keeps (gets f).
Proof. intros w b w' Hw [= <- <-]. split_and!; try done; apply Hw. Qed.

#[export] Instance keeps_bind {A B} (m : M A) (f : A → M B) :
  keeps m → (∀ a, keeps (f a)) → keeps (m ≫= f).
Proof.
  intros Hm Hf w b w' Hw (a & w1 & H1 & H2)%M_bind_ok.
  destruct (Hm _ _ _ Hw H1) as (Hw1 & Hr1 & Hc1).
  destruct (Hf _ _ _ _ Hw1 H2) as (Hw2 & Hr2 & Hc2).
  split_and!; [done..|congruence|lia].
Qed.

#[export] Instance keeps_if {A} (b : bool) (m1 m2 : M A) :
  keeps m1 → keeps m2 → keeps (if b then m1 else m2).
Proof. by destruct b. Qed.

#[export] Instance keeps_option {A B} (o : option B) (m1 : B → M A) (m2 : M A) :
  (∀ b, keeps (m1 b)) → keeps m2 → keeps (match o with Some b => m1 b | None => m2 end).
Proof. by destruct o. Qed.

#[export] Instance keeps_pair {A B C} (p : B * C) (m : B → C → M A) :
  (∀ b c, keeps (m b c)) → keeps (let '(b, c) := p in m b c).
Proof. by destruct p. Qed.

#[export] Instance keeps_mapM {A B} (f : A → M B) (l : list A) :
  (∀ a, keeps (f a)) → keeps (mapM f l).
Proof. intros Hf. induction l as [|a l IH]; simpl; apply _. Qed.

(** A change of the state that keeps the database, the replication record
    and the clock in order. *)
Lemma keeps_modify (f : World → World) :
  (∀ w, world_wf w → world_wf (f w) ∧ is_master (repl (f w)) = is_master (repl w) ∧ clock w ≤ clock (f w)) →
  keeps (modify f).
Proof. intros Hf w a w' Hw [= _ <-]. by apply Hf. Qed.

Lemma world_wf_same w w' :
  world_wf w → server w' = server w → streams w' = streams w → clock w' = clock w → world_wf w'.
Proof. intros [H1 H2 H3] E1 E2 E3. split; by rw ?E1 ?E2 ?E3. Qed.

#[export] Instance keeps_send fd d : keeps (send fd d).
Proof.
  apply keeps_modify. intros w Hw. split_and!; [by eapply world_wf_same|done..].
Qed.

#[export] Instance keeps_wait s : keeps (modify (with_wait s)).
Proof. apply keeps_modify. intros w Hw. split_and!; [by eapply world_wf_same|done..]. Qed.

#[export] Instance keeps_new_data b : keeps (modify (with_new_data b)).
Proof. apply keeps_modify. intros w Hw. split_and!; [by eapply world_wf_same|done..]. Qed.

Lemma keeps_block env k : env_ok env → keeps (block env k).
Proof.
  intros He w b w' Hw. rw /block. destruct (wait_result env k w) as [[b' w1]|] eqn:E; [|done].
  intros [= <- <-]. by eapply He.
Qed.

Lemma now_ms_u64 w : world_wf w → in_u64 (now_ms w).
Proof. intros [_ _ Hc]. rw /now_ms /in_u64. lia. Qed.
