(* ===== verification/Command.v ===== *)
(** * Commands (app/command.c, app/command.h)

    One definition per handler, the command table, and [executeCommand] with
    its arity check, transaction queue and propagation.  [EXEC] runs the
    queued commands through [executeCommand] again, whose argument [depth]
    bounds that recursion: [Invariants] shows that two levels are enough. *)
From S2P Require Import Prelude.
From S2P Require Import CLib.
From S2P Require Import Stream.
From S2P Require Import Resp.
From S2P Require Import Store.
From S2P Require Import Rdb.
From S2P Require Import CommandQueue.
From S2P Require Import Replicas.
From S2P Require Import World.

(** The state of a connection, less its receive buffer, which no command
    touches ([Client] keeps it); the one the replication link runs commands
    with is all zeros and has no queue. *)
Record ClientState := mkClient {
  c_fd : Z;
  in_transaction : bool;
  c_queue : option CommandQueue
}.
Definition set_transaction (b : bool) (c : ClientState) : ClientState :=
  mkClient (c_fd c) b (c_queue c).
Definition set_queue (q : CommandQueue) (c : ClientState) : ClientState :=
  mkClient (c_fd c) (in_transaction c) (Some q).

(** A reply is a C string, or [NULL]. *)
Abbreviation reply := (option bytes).

(** ** Reading the arguments *)

(** [command->data.array.elements[i]->data.string.str], and the length. *)
Definition arg (command : RespValue) (i : nat) : M bytes :=
  lift (es ← command_elements command; v ← deref (es !! i); data_string v).
Definition argc (command : RespValue) : M nat :=
  lift (es ← command_elements command; Ok (length es)).

(** Signed addition of [long long]s. *)
Definition add_s64 (a b : Z) : res Z :=
  if (LLONG_MIN <=? a + b) && (a + b <=? LLONG_MAX) then Ok (a + b) else UB.

(** ** The store as the handlers call it *)

Definition store_set (k v : bytes) : M unit :=
  modify (λ w, let '(_, h, st) := storeSet (streams w) (store w) k v in with_db h st w).
Definition store_get (k : bytes) : M (option bytes) := gets (λ w, storeGet (now_ms w) (store w) k).
Definition store_expire (k : bytes) (x : Z) : M unit :=
  modify (λ w, with_db (streams w) (setExpiry (store w) k x).2 w).
(** [streamAdd] sets the flag when it appends. *)
Definition store_xadd (env : Env) (k id : bytes) (fields values : list bytes) : M (option bytes) := λ w,
  '(result, woke, h, st) ←
    storeStreamAdd (now_ms w) (memory env) (streams w) (store w) k id fields values;
  let w := with_db h st w in
  Ok (result, if woke : bool then with_new_data true w else w).
Definition store_stream (k : bytes) : M (option nat) := gets (λ w, storeGetStream (store w) k).
Definition deref_stream (r : nat) : M Stream := λ w, s ← deref (streams w !! r); Ok (s, w).

(** ** The handlers *)

Section Handlers.
Context (env : Env).

Definition handleSet (command : RespValue) : M reply :=
  key ← arg command 1;
  value ← arg command 2;
  _ ← store_set key value;
  n ← argc command;
  if (n <? 5)%nat then mret (Some (createSimpleString (bs "OK")))
  else
    option ← arg command 3;
    if negb (strcasecmp_eq option (bs "px")) then mret (Some (createSimpleString (bs "OK")))
    else
      pxValue ← arg command 4;
      let milliseconds := atoll pxValue in
      if milliseconds <=? 0 then mret (Some (createSimpleString (bs "OK")))
      else
        now ← gets now_ms;
        expiry ← lift (add_s64 now milliseconds);
        _ ← store_expire key expiry;
        mret (Some (createSimpleString (bs "OK"))).

Definition open_rdb : M (option RdbReader) :=
  gets (λ w, createRdbReader (files env) (dir (server w)) (rdb_filename (server w))).

Definition handleGet (command : RespValue) : M reply :=
  key ← arg command 1;
  memValue ← store_get key;
  match memValue with
  | Some v => mret (Some (createBulkString v))
  | None =>
      reader ← open_rdb;
      match reader with
      | None => mret (Some createNullBulkString)
      | Some reader =>
          now ← gets now_ms;
          rdbValue ← lift (getRdbValue now key reader);
          match rdbValue with
          | Some v => mret (Some (createBulkString v))
          | None => mret (Some createNullBulkString)
          end
      end
  end.

Definition handleType (command : RespValue) : M reply :=
  key ← arg command 1;
  type ← gets (λ w, getValueType (now_s w) (store w) key);
  mret (Some (createSimpleString (match type with
                                  | TYPE_STRING => bs "string"
                                  | TYPE_STREAM => bs "stream"
                                  | TYPE_NONE => bs "none"
                                  end))).

Definition handleEcho (command : RespValue) : M reply :=
  message ← arg command 1;
  mret (Some (createBulkString message)).

Definition handlePing (command : RespValue) : M reply := mret (Some (createSimpleString (bs "PONG"))).

(** [fields[i]] is element [3 + 2 * i] and [values[i]] the one after it. *)
Definition handleXadd (command : RespValue) : M reply :=
  key ← arg command 1;
  id ← arg command 2;
  n ← argc command;
  let numFields := ((n - 3) / 2)%nat in
  fields ← mapM (λ i, arg command (3 + i * 2)) (List.seq 0 numFields);
  values ← mapM (λ i, arg command (4 + i * 2)) (List.seq 0 numFields);
  result ← store_xadd env key id fields values;
  result ← lift (deref result);
  if decide (head result = Some DASH)
  then mret (Some (createError (drop 1 result)))
  else mret (Some (createBulkString (cstr result))).

Definition handleXrange (command : RespValue) : M reply :=
  key ← arg command 1;
  start ← arg command 2;
  end_ ← arg command 3;
  stream ← store_stream key;
  match stream with
  | None => mret (Some (createXrangeResponse [] 0))
  | Some r =>
      s ← deref_stream r;
      now ← gets now_ms;
      mret (Some (match streamRange now s start end_ with
                  | Some (entries, count) => createXrangeResponse entries count
                  | None => createXrangeResponse [] (junk_int (memory env))
                  end))
  end.

(** ** XREAD *)

Record XreadArgs := mkXreadArgs { streamsPos : Z; blockMs : Z; blocking : bool; numStreams : nat }.

(** The scan for [STREAMS] and [BLOCK] from argument [i] on. *)
Fixpoint scan_xread (i : Z) (args : list bytes) (a : XreadArgs) : XreadArgs :=
  match args with
  | [] => a
  | s :: rest =>
      if strcasecmp_eq s (bs "STREAMS") then
        scan_xread (i + 1) rest (mkXreadArgs i (blockMs a) (blocking a) (numStreams a))
      else if strcasecmp_eq s (bs "BLOCK") then
        match rest with
        | v :: rest' =>
            scan_xread (i + 2) rest' (mkXreadArgs (streamsPos a) (atoi v) true (numStreams a))
        | [] => a
        end
      else scan_xread (i + 1) rest a
  end.

Definition parseXreadArgs (command : RespValue) : M (option XreadArgs) :=
  es ← lift (command_elements command);
  args ← lift (list_data_string (drop 1 es));
  let a := scan_xread 1 args (mkXreadArgs (-1) 0 false 0) in
  mret (if streamsPos a =? -1 then None
        else Some (mkXreadArgs (streamsPos a) (blockMs a) (blocking a)
                     (Z.to_nat ((Z.of_nat (length es) - streamsPos a - 1) / 2)))).

(** The stream pointer, the key and the ID to read after. *)
Abbreviation target := (option nat * bytes * bytes)%type.
Definition setupXreadStreams (command : RespValue) (a : XreadArgs) : M (list target) :=
  let pos := Z.to_nat (streamsPos a) in
  mapM (λ i,
    key ← arg command (pos + 1 + i);
    rawId ← arg command (pos + 1 + numStreams a + i);
    stream ← store_stream key;
    if strncmp_eq rawId (bs "$") 1 then
      lastEntry ← match stream with
                  | Some r => s ← deref_stream r; mret (tail_of s)
                  | None => mret None
                  end;
      mret (stream, key, match lastEntry with Some e => cstr (id e) | None => bs "0-0" end)
    else mret (stream, key, cstr rawId))
  (List.seq 0 (numStreams a)).

(** Follow the stream pointers: one that was freed meanwhile is dangling. *)
Definition follow (l : list target) : M (list (option Stream * bytes * bytes)) :=
  mapM (λ '(r, key, id),
    match r with
    | Some r => s ← deref_stream r; mret (Some s, key, id)
    | None => mret (None, key, id)
    end) l.

(** [pthread_cond_timedwait] refuses a deadline whose nanoseconds are not in
    range, without waiting; the caller takes every result but a timeout for a
    wake-up. *)
Definition waitForStreamData (timeoutMs : Z) : M bool :=
  now ← gets clock;
  let sec := now / 10 ^ 9 + Z.quot timeoutMs 1000 in
  let nsec := now mod 10 ^ 9 + Z.rem timeoutMs 1000 * 1000000 in
  _ ← modify (with_new_data false);
  if (nsec <? 0) || (10 ^ 9 <=? nsec) then mret true
  else block env (DataUntil sec nsec).

Definition waitForStreamDataInfinite : M bool :=
  _ ← modify (with_new_data false);
  _ ← block env DataForever;
  mret true.

Definition handleXread (command : RespValue) : M reply :=
  args ← parseXreadArgs command;
  match args with
  | None => mret (Some (createError (bs "ERR syntax error")))
  | Some a =>
      targets ← setupXreadStreams command a;
      l ← follow targets;
      now ← gets now_ms;
      let '(infos, hasData) := processStreamReads now (memory env) l in
      if blocking a && negb hasData then
        gotData ← (if blockMs a =? 0 then waitForStreamDataInfinite
                   else waitForStreamData (blockMs a));
        if gotData : bool then
          l ← follow targets;
          now ← gets now_ms;
          mret (Some (createXreadResponse (recheckStreams now (memory env) l)))
        else mret (Some createNullBulkString)
      else mret (Some (createXreadResponse infos))
  end.

(** ** INCR *)

Definition handleIncrement (command : RespValue) : M reply :=
  key ← arg command 1;
  value ← store_get key;
  match value with
  | Some v =>
      let '(numValue, endptr) := strtoll (v ++ [NUL]) in
      if negb (bool_decide (endptr = [])) then
        mret (Some (createError (bs "ERR value is not an integer or out of range")))
      else
        numValue ← lift (add_s64 numValue 1);
        let newStr := snprintf 32 (print_s numValue) in
        _ ← store_set key (cstr newStr);
        mret (Some (createInteger numValue))
  | None =>
      _ ← store_set key (bs "1");
      mret (Some (createInteger 1))
  end.

(** ** CONFIG, KEYS, INFO *)

Definition handleConfigGet (command : RespValue) : M reply :=
  param ← arg command 2;
  if strcasecmp_eq param (bs "dir") then
    dir ← gets (λ w, dir (server w));
    mret (Some (createRespArrayFromElements
                  [createRespString (bs "dir"); createRespString (cstr dir)]))
  else mret (Some (createRespArray [])).

Definition handleKeys (command : RespValue) : M reply :=
  pattern ← arg command 1;
  if negb (strcmp_eq pattern (bs "*")) then mret (Some (createRespArray []))
  else
    reader ← open_rdb;
    match reader with
    | None => mret (Some (createRespArray []))
    | Some reader =>
        keys ← lift (getRdbKeys reader);
        mret (Some (match keys with
                    | Some keys => createRespArrayFromElements keys
                    | None => createRespArray []
                    end))
    end.

Definition info_text (ri : ReplicationInfo) : bytes :=
  bs "role:" ++ (if is_master ri then bs "master" else bs "slave") ++ CRLF
    ++ bs "master_replid:" ++ cstr (replication_id ri) ++ CRLF
    ++ bs "master_repl_offset:" ++ print_s (repl_offset ri).
Definition handleInfo (command : RespValue) : M reply :=
  ri ← gets (λ w, repl w);
  response ← lift (createFormattedBulkString (info_text ri));
  mret (Some response).

(** ** REPLCONF, PSYNC, WAIT *)

Definition add_ack (s : WaitState) : WaitState :=
  let acks := u64 (acks_received s + 1) in
  let remaining := u64 (remaining_count s - 1) in
  mkWaitState remaining acks (completed s) (signalled s || (remaining <=? acks)).

Definition handleReplConf (command : RespValue) : M reply :=
  subcommand ← arg command 1;
  if strcasecmp_eq subcommand (bs "getack") then
    ri ← gets (λ w, repl w);
    mret (Some (createRespArrayFromElements
                  [createRespString (bs "REPLCONF"); createRespString (bs "ACK");
                   createRespString (cstr (snprintf 32 (print_s (repl_offset ri))))]))
  else if strcasecmp_eq subcommand (bs "ack") then
    _ ← modify (λ w, with_wait (add_ack (wait_state w)) w);
    mret None
  else mret (Some (createSimpleString (bs "OK"))).

Definition EMPTY_RDB : bytes :=
  map chr [82; 69; 68; 73; 83; 48; 48; 48; 57; 255; 9; 10; 64; 63; 114; 110; 100].

Definition handlePsync (command : RespValue) (client : ClientState) : M reply :=
  ri ← gets (λ w, repl w);
  if negb (is_master ri) then mret None
  else
    let fullresync := createFormattedSimpleString
      (bs "FULLRESYNC " ++ cstr (replication_id ri) ++ " "%char :: print_s (repl_offset ri)) in
    let buffer := append_str createRespBuffer fullresync in
    let prefix := snprintf 32 ("$"%char :: print_u (Z.of_nat (length EMPTY_RDB)) ++ CRLF) in
    let buffer := (appendRespBuffer true buffer prefix).2 in
    let buffer := (appendRespBuffer true buffer EMPTY_RDB).2 in
    let response := strndup buffer in
    ri ← lift (addReplica (c_fd client) ri);
    _ ← modify (with_repl ri);
    mret (Some response).

Definition getack : bytes :=
  createRespArrayFromElements
    [createRespString (bs "REPLCONF"); createRespString (bs "GETACK"); createRespString (bs "*")].

(** The wait state is read and written under its mutex, which the handler
    also holds while it sleeps out the rest of the timeout. *)
Definition handleWait (command : RespValue) : M reply :=
  numreplicas ← arg command 1;
  timeout ← arg command 2;
  let numreplicas := u64 (atoll numreplicas) in
  let timeout_ms := s32 (atoll timeout) in
  ri ← gets (λ w, repl w);
  rs ← lift (deref (ri_replicas ri));
  if is_master ri && (repl_offset ri =? 0) then
    mret (Some (createInteger (replica_count rs)))
  else
    _ ← mapM (λ r, send (r_fd r) (cstr getack)) (replicas rs);
    _ ← modify (with_wait (mkWaitState numreplicas 0 false false));
    start ← gets clock;
    let sec := start / 10 ^ 9 + Z.quot timeout_ms 1000 in
    let nsec := start mod 10 ^ 9 + Z.rem timeout_ms 1000 * 1000000 in
    let '(sec, nsec) := if 10 ^ 9 <=? nsec then (sec + 1, nsec - 10 ^ 9) else (sec, nsec) in
    _ ← (if nsec <? 0 then mret true else block env (AcksUntil sec nsec));
    current ← gets clock;
    let elapsed_ms := (current / 10 ^ 9 - start / 10 ^ 9) * 1000
                      + Z.quot (current mod 10 ^ 9 - start mod 10 ^ 9) 1000000 in
    state ← gets wait_state;
    _ ← (if elapsed_ms <? timeout_ms then block env (Sleep (timeout_ms - elapsed_ms))
         else mret true);
    _ ← modify (with_wait (mkWaitState (remaining_count state) (acks_received state) true (signalled state)));
    mret (Some (createInteger (acks_received state))).

(** ** Transactions *)

Definition handleMulti (client : ClientState) : M (reply * ClientState) :=
  mret (Some (createSimpleString (bs "OK")), set_transaction true client).

(** The loop of [handleExec] from index [i]; [n] slots are left in
    [responses], which was allocated for the size the queue had. *)
Fixpoint exec_loop (exec : RespValue → ClientState → M (reply * ClientState))
    (n i : nat) (client : ClientState) : M (list (option RespValue) * ClientState) :=
  q ← lift (deref (c_queue client));
  match q_commands q !! i with
  | None => mret ([], client)
  | Some cmd =>
      match n with
      | O => lift UB
      | S n' =>
          '(response, client) ← exec cmd client;
          response ← lift (deref response);
          value ← lift (parseResponseToRespValue (memory env) response);
          '(responses, client) ← exec_loop exec n' (S i) client;
          mret (value :: responses, client)
      end
  end.

Definition handleExec (exec : RespValue → ClientState → M (reply * ClientState))
    (client : ClientState) : M (reply * ClientState) :=
  if negb (in_transaction client) then
    mret (Some (createError (bs "ERR EXEC without MULTI")), client)
  else
    q ← lift (deref (c_queue client));
    '(responses, client) ← exec_loop exec (length (q_commands q)) 0 (set_transaction false client);
    q ← lift (deref (c_queue client));
    elements ← lift (mapM deref (take (length (q_commands q)) responses));
    mret (Some (createRespArrayFromElements elements),
          set_transaction false (set_queue (clearCommandQueue q) client)).

Definition handleDiscard (client : ClientState) : M (reply * ClientState) :=
  if negb (in_transaction client) then
    mret (Some (createError (bs "ERR DISCARD without MULTI")), client)
  else
    q ← lift (deref (c_queue client));
    mret (Some (createSimpleString (bs "OK")),
          set_transaction false (set_queue (clearCommandQueue q) client)).

(** ** The table *)

Inductive Handler :=
| HSet | HGet | HPing | HEcho | HType | HXadd | HXrange | HXread | HIncrement
| HMulti | HExec | HDiscard | HConfigGet | HKeys | HInfo | HReplConf | HPsync | HWait.

Record CommandHandler := mkHandler { h_name : bytes; h_handler : Handler; minArgs : Z; maxArgs : Z }.

Definition baseCommands : list CommandHandler :=
  [mkHandler (bs "SET") HSet 3 5; mkHandler (bs "GET") HGet 2 2; mkHandler (bs "PING") HPing 1 1;
   mkHandler (bs "ECHO") HEcho 2 2; mkHandler (bs "TYPE") HType 2 2; mkHandler (bs "XADD") HXadd 4 (-1);
   mkHandler (bs "XRANGE") HXrange 4 4; mkHandler (bs "XREAD") HXread 4 (-1);
   mkHandler (bs "INCR") HIncrement 2 2; mkHandler (bs "MULTI") HMulti 1 1;
   mkHandler (bs "EXEC") HExec 1 1; mkHandler (bs "DISCARD") HDiscard 0 (-1);
   mkHandler (bs "CONFIG") HConfigGet 3 3; mkHandler (bs "KEYS") HKeys 2 2;
   mkHandler (bs "INFO") HInfo 1 2; mkHandler (bs "REPLCONF") HReplConf 3 3;
   mkHandler (bs "PSYNC") HPsync 3 3; mkHandler (bs "WAIT") HWait 3 3].

Definition find_handler (name : bytes) : option CommandHandler :=
  head (filter (λ h, strcasecmp_eq name (h_name h) = true) baseCommands).

Definition plain (m : M reply) (client : ClientState) : M (reply * ClientState) :=
  r ← m; mret (r, client).

Definition run_handler (exec : RespValue → ClientState → M (reply * ClientState)) (h : Handler)
    (command : RespValue) (client : ClientState) : M (reply * ClientState) :=
  match h with
  | HSet => plain (handleSet command) client
  | HGet => plain (handleGet command) client
  | HPing => plain (handlePing command) client
  | HEcho => plain (handleEcho command) client
  | HType => plain (handleType command) client
  | HXadd => plain (handleXadd command) client
  | HXrange => plain (handleXrange command) client
  | HXread => plain (handleXread command) client
  | HIncrement => plain (handleIncrement command) client
  | HMulti => handleMulti client
  | HExec => handleExec exec client
  | HDiscard => handleDiscard client
  | HConfigGet => plain (handleConfigGet command) client
  | HKeys => plain (handleKeys command) client
  | HInfo => plain (handleInfo command) client
  | HReplConf => plain (handleReplConf command) client
  | HPsync => plain (handlePsync command client) client
  | HWait => plain (handleWait command) client
  end.

(** ** Dispatch *)

Definition arity_ok (h : CommandHandler) (n : Z) : bool :=
  negb ((n <? minArgs h) || (negb (maxArgs h =? -1) && (maxArgs h <? n))).
Definition is_control (name : bytes) : bool :=
  strcasecmp_eq name (bs "MULTI") || strcasecmp_eq name (bs "EXEC") || strcasecmp_eq name (bs "DISCARD").
(** The condition as the compiler reads it: [&&] binds before [||]. *)
Definition propagates (master : bool) (name : bytes) : bool :=
  (master && strcasecmp_eq name (bs "SET")) || strcasecmp_eq name (bs "DEL")
  || strcasecmp_eq name (bs "INCR") || strcasecmp_eq name (bs "XADD").

Definition propagate (command : RespValue) : M unit := λ w,
  '(ri, log) ← propagateCommand (writes env) command (repl w) (ios w);
  Ok ((), with_ios log (with_repl ri w)).

Definition well_formed (command : RespValue) : bool :=
  match command with RespArray (_ :: _) => true | _ => false end.

(** [executeCommand], with the function [EXEC] calls back as a parameter. *)
Definition execute (exec : RespValue → ClientState → M (reply * ClientState))
    (command : RespValue) (client : ClientState) : M (reply * ClientState) :=
  if negb (well_formed command) then
    mret (Some (createError (bs "wrong number of arguments")), client)
  else
    name ← arg command 0;
    match find_handler name with
    | None => mret (Some (createError (bs "unknown command")), client)
    | Some h =>
        n ← argc command;
        if negb (arity_ok h (Z.of_nat n)) then
          mret (Some (createError (bs "wrong number of arguments")), client)
        else if is_control name then run_handler exec (h_handler h) command client
        else if in_transaction client then
          q ← lift (deref (c_queue client));
          mret (Some (createSimpleString (bs "QUEUED")), set_queue (queueCommand q command) client)
        else
          '(result, client) ← run_handler exec (h_handler h) command client;
          master ← gets (λ w, is_master (repl w));
          _ ← (if propagates master name then propagate command else mret ());
          mret (result, client)
    end.

Fixpoint executeCommand (depth : nat) (command : RespValue) (client : ClientState)
    : M (reply * ClientState) :=
  match depth with
  | O => lift Diverge
  | S depth' => execute (executeCommand depth') command client
  end.

End Handlers.
