(* ===== verification/Invariants.v ===== *)
(** * What every command keeps

    The shared state's invariant through each handler ([keeps] instances,
    composed by instance search), the client's invariant, and the depth at
    which [EXEC] recurses. *)
From S2P Require Import Prelude.
From S2P Require Import CLib.
From S2P Require Import Stream.
From S2P Require Import Resp.
From S2P Require Import Store.
From S2P Require Import Rdb.
From S2P Require Import CommandQueue.
From S2P Require Import Replicas.
From S2P Require Import World.
From S2P Require Import Command.

(** ** The primitive operations *)

Lemma with_db_wf w h st : world_wf w → db_wf h st → world_wf (with_db h st w).
Proof. intros [_ H2 H3] Hd. by split. Qed.

#[export] Instance keeps_store_set k v : keeps (store_set k v).
Proof.
  apply keeps_modify. intros w Hw.
  destruct (storeSet_spec _ _ k v (ww_db _ Hw)) as (h' & st' & -> & Hd & _).
  split_and!; [by apply with_db_wf|done..].
Qed.

#[export] Instance keeps_store_get k : keeps (store_get k).
Proof. apply _. Qed.

#[export] Instance keeps_store_stream k : keeps (store_stream k).
Proof. apply _. Qed.

#[export] Instance keeps_store_expire k x : keeps (store_expire k x).
Proof.
  apply keeps_modify. intros w Hw.
  destruct (setExpiry_spec _ _ k x (ww_db _ Hw)) as (st' & -> & Hd & _).
  split_and!; [by apply with_db_wf|done..].
Qed.

#[export] Instance keeps_store_xadd env k id fs vs : keeps (store_xadd env k id fs vs).
Proof.
  intros w a w' Hw H. rw /store_xadd in H.
  pose proof (storeStreamAdd_spec (now_ms w) (memory env) _ _ k id fs vs (ww_db _ Hw) (now_ms_u64 _ Hw)) as Hs.
  destruct (KV.xadd _ _ _ _ _ _ _) as [[[r0 wk0] m]| |]; [|by rw Hs in H|done].
  destruct Hs as (h' & st' & E & Hd & _). rw E in H. simplify_eq/=.
  destruct wk0; (split_and!; [|done|done]);
    [eapply world_wf_same; [by apply (with_db_wf w)|done..]|by apply with_db_wf].
Qed.

#[export] Instance keeps_deref_stream r : keeps (deref_stream r).
Proof.
  intros w a w' Hw H. rw /deref_stream in H. ok_inv H. simplify_eq. split_and!; [done..|lia].
Qed.

#[export] Instance keeps_propagate env c : keeps (propagate env c).
Proof.
  intros w a w' Hw H. rw /propagate in H. ok_inv H. destruct r as [ri log]. simplify_eq.
  destruct (propagateCommand_wf _ _ _ _ _ _ (ww_repl _ Hw) Er) as [Hr Hm].
  split_and!; [|by rw /is_master /= Hm|done].
  destruct Hw as [H1 _ H3]. by split.
Qed.

#[export] Instance keeps_ack : keeps (modify (λ w, with_wait (add_ack (wait_state w)) w)).
Proof. apply keeps_modify. intros w Hw. split_and!; [by eapply world_wf_same|done..]. Qed.

#[export] Instance keeps_psync command client : keeps (handlePsync command client).
Proof.
  intros w a w' Hw H. rw /handlePsync in H. apply M_bind_ok in H as (ri & w1 & [= <- <-] & H).
  destruct (is_master (repl w)) eqn:Em; cbn [negb] in H; [|by injection H as <- <-].
  apply M_bind_ok in H as (ri & w1 & [E ->]%lift_ok & H). apply M_bind_ok in H as ([] & w2 & [= <-] & H).
  rw /is_master in Em. destruct (master_info (repl w)) eqn:Emi; [done|].
  destruct (addReplica_wf (c_fd client) _ (ww_repl _ Hw) Emi) as (ri' & E' & Hr & Hm & _).
  assert (ri = ri') as -> by congruence. apply M_ret_ok in H as [_ ->]. split; [|split; [|apply Z.le_refl]].
  2: { change (is_master ri' = true). by rw /is_master Hm. }
  destruct Hw as [H1 _ H3]. by split.
Qed.

(** ** The handlers *)

Section Handlers.
Context (env : Env) (Henv : env_ok env).

#[local] Instance keeps_block' k : keeps (block env k).
Proof using Henv. by apply keeps_block. Qed.

Lemma keeps_handleXread c : keeps (handleXread env c).
Proof using Henv.
  rw /handleXread /parseXreadArgs /setupXreadStreams /follow /waitForStreamData
    /waitForStreamDataInfinite. apply _.
Qed.

Lemma keeps_handleWait c : keeps (handleWait env c).
Proof using Henv. rw /handleWait. apply _. Qed.

Lemma keeps_exec_loop exec n i client :
  (∀ cmd cl, keeps (exec cmd cl)) → keeps (exec_loop env exec n i client).
Proof using Henv.
  intros Hexec. revert i client. induction n as [|n IH]; intros i client; cbn [exec_loop]; apply _.
Qed.

Lemma keeps_run_handler exec h cmd client :
  (∀ cmd cl, keeps (exec cmd cl)) → keeps (run_handler env exec h cmd client).
Proof using Henv.
  intros Hexec. destruct h; rw /run_handler /plain.
  - rw /handleSet. apply _.
  - rw /handleGet /open_rdb. apply _.
  - rw /handlePing. apply _.
  - rw /handleEcho. apply _.
  - rw /handleType. apply _.
  - rw /handleXadd. apply keeps_bind; [|apply _].
    repeat (apply keeps_bind; [apply _|intros ?]). case_decide; apply _.
  - rw /handleXrange. apply _.
  - apply keeps_bind; [apply keeps_handleXread|apply _].
  - rw /handleIncrement. apply _.
  - rw /handleMulti. apply _.
  - rw /handleExec. pose proof (λ n i cl, keeps_exec_loop exec n i cl Hexec). apply _.
  - rw /handleDiscard. apply _.
  - rw /handleConfigGet. apply _.
  - rw /handleKeys /open_rdb. apply _.
  - rw /handleInfo. apply _.
  - rw /handleReplConf. apply _.
  - apply _.
  - apply keeps_bind; [apply keeps_handleWait|apply _].
Qed.

Lemma keeps_execute exec cmd client :
  (∀ cmd cl, keeps (exec cmd cl)) → keeps (execute env exec cmd client).
Proof using Henv.
  intros Hexec. pose proof (λ h c cl, keeps_run_handler exec h c cl Hexec). rw /execute. apply _.
Qed.

Lemma keeps_executeCommand depth cmd client : keeps (executeCommand env depth cmd client).
Proof using Henv.
  revert cmd client. induction depth as [|depth IH]; intros cmd client; [apply _|].
  by apply keeps_execute.
Qed.

End Handlers.

(** ** Clients and their queues *)

(** What can be in a queue: commands of the table, other than the three that
    are never queued. *)
Definition queueable (command : RespValue) : Prop :=
  ∃ es v name h, command = RespArray es ∧ head es = Some v ∧ data_string v = Ok name
    ∧ find_handler name = Some h ∧ is_control name = false.
(** The queue is in order, and empty outside a transaction. *)
Definition client_ok (c : ClientState) : Prop :=
  ∃ q, c_queue c = Some q ∧ queue_wf q ∧ Forall queueable (q_commands q)
    ∧ (in_transaction c = false → q_commands q = []).

Lemma find_handler_some name h :
  find_handler name = Some h → h ∈ baseCommands ∧ strcasecmp_eq name (h_name h) = true.
Proof.
  rw /find_handler. intros H.
  assert (h ∈ filter (λ h, strcasecmp_eq name (h_name h) = true) baseCommands) as Hin.
  { destruct (filter _ _) as [|x l]; [done|]. cbn in H. simplify_eq. by left. }
  apply list_elem_of_filter in Hin as [? ?]. done.
Qed.

Lemma strcasecmp_same a b c : strcasecmp_eq a b = true → strcasecmp_eq a c = strcasecmp_eq b c.
Proof. intros H%bool_decide_eq_true. by rw /strcasecmp_eq H. Qed.

Definition control_handler (h : Handler) : bool :=
  match h with HMulti | HExec | HDiscard => true | _ => false end.

Lemma control_name name h :
  find_handler name = Some h → is_control name = control_handler (h_handler h).
Proof.
  intros [Hin Hname]%find_handler_some.
  rw /is_control !(strcasecmp_same name (h_name h) _ Hname) -/(is_control (h_name h)).
  assert (Forall (λ h, is_control (h_name h) = control_handler (h_handler h)) baseCommands) as Hall by by_decide.
  rw Forall_forall in Hall. by apply Hall.
Qed.

(** The handlers other than the three take the client as it is and do not
    call back. *)
Lemma plain_handler env h :
  control_handler h = false →
  ∃ m, ∀ exec cmd cl, run_handler env exec h cmd cl = plain (m cmd cl) cl.
Proof.
  intros Hc. destruct h; try done; by (eexists (λ cmd cl, _); intros; reflexivity).
Qed.

(** [executeCommand] on a queueable command outside a transaction. *)
Lemma execute_idle env cmd cl :
  queueable cmd → in_transaction cl = false →
  ∃ m : M reply, ∀ exec w, execute env exec cmd cl w = plain m cl w.
Proof.
  intros (es & v & name & h & -> & Hes & Hv & Hf & Hc) Ht.
  destruct es as [|v' es]; [done|]. injection Hes as ->.
  destruct (plain_handler env (h_handler h)) as [m Hm]; [by rw -(control_name name)|].
  destruct (arity_ok h (Z.of_nat (length (v :: es)))) eqn:Ea.
  - exists (r ← m (RespArray (v :: es)) cl; master ← gets (λ w, is_master (repl w));
            _ ← (if propagates master name then propagate env (RespArray (v :: es)) else mret ());
            mret r).
    intros exec w. rw /execute /= /mbind /M_bind /arg /lift /= Hv /= Hf Ea /= Hc Ht Hm.
    rw /plain /mbind /M_bind /=. destruct (m _ _ _) as [[r w1]| |]; [|done..]. cbn.
    by destruct (if propagates _ _ then _ else _) as [[? ?]| |].
  - exists (mret (Some (createError (bs "wrong number of arguments")))).
    intros exec w. by rw /execute /= /mbind /M_bind /arg /lift /= Hv /= Hf Ea.
Qed.

Lemma plainE {B} (m : M reply) cl (f : reply * ClientState → M B) w :
  (plain m cl ≫= f) w = match m w with Ok (r, w') => f (r, cl) w' | UB => UB | Diverge => Diverge end.
Proof. rw /plain !bindE. by destruct (m w) as [[r w']| |]. Qed.

(** ** EXEC *)

(** A queued command run outside a transaction does not depend on the depth,
    and leaves the client as it is. *)
Lemma executeCommand_idle env d d' cmd cl w :
  queueable cmd → in_transaction cl = false →
  executeCommand env (S d) cmd cl w = executeCommand env (S d') cmd cl w.
Proof.
  intros Hq Ht. destruct (execute_idle env cmd cl Hq Ht) as [m Hm]. cbn [executeCommand]. by rw !Hm.
Qed.

Lemma executeCommand_idle_client env d cmd cl w r cl' w' :
  queueable cmd → in_transaction cl = false →
  executeCommand env (S d) cmd cl w = Ok ((r, cl'), w') → cl' = cl.
Proof.
  intros Hq Ht. destruct (execute_idle env cmd cl Hq Ht) as [m Hm]. cbn [executeCommand].
  rw Hm /plain. intros (r1 & w1 & _ & H)%M_bind_ok. by apply M_ret_ok in H as [[= _ ->] _].
Qed.

Lemma exec_loopE env exec n i cl q w :
  c_queue cl = Some q →
  exec_loop env exec n i cl w =
  match q_commands q !! i with
  | None => Ok (([], cl), w)
  | Some cmd =>
      match n with
      | O => UB
      | S n' =>
          ('(response, client) ← exec cmd cl;
           response ← lift (deref response);
           value ← lift (parseResponseToRespValue (memory env) response);
           '(responses, client) ← exec_loop env exec n' (S i) client;
           mret (value :: responses, client)) w
      end
  end.
Proof.
  intros Hq. destruct n as [|n]; cbn [exec_loop]; rw liftE Hq; cbn [deref];
    by destruct (q_commands q !! i).
Qed.

Lemma exec_loop_depth env d d' n i cl q w :
  in_transaction cl = false → c_queue cl = Some q → Forall queueable (q_commands q) →
  exec_loop env (executeCommand env (S d)) n i cl w =
  exec_loop env (executeCommand env (S d')) n i cl w.
Proof.
  intros Ht Hq Hqs. revert i w. induction n as [|n IH]; intros i w; rw !(exec_loopE _ _ _ _ _ q) //.
  destruct (q_commands q !! i) as [cmd|] eqn:Ei; [|done].
  assert (queueable cmd) as Hc by (eapply Forall_lookup_1; done).
  rw !(bindE (executeCommand _ _ _ _)) (executeCommand_idle env d d' cmd cl w Hc Ht).
  destruct (executeCommand env (S d') cmd cl w) as [[[r cl'] w']| |] eqn:E; [|done..].
  apply executeCommand_idle_client in E as ->; [|done..].
  rw !liftE. destruct (deref r); [|done..].
  rw !liftE. destruct (parseResponseToRespValue _ _); [|done..]. by rw !bindE IH.
Qed.

Lemma exec_loop_client env d n i cl q w vs cl' w' :
  in_transaction cl = false → c_queue cl = Some q → Forall queueable (q_commands q) →
  exec_loop env (executeCommand env (S d)) n i cl w = Ok ((vs, cl'), w') → cl' = cl.
Proof.
  intros Ht Hq Hqs. revert i w vs cl' w'. induction n as [|n IH]; intros i w vs cl' w'; rw (exec_loopE _ _ _ _ _ q) //;
    destruct (q_commands q !! i) as [cmd|] eqn:Ei; try (by intros [= _ <- _]); try done.
  assert (queueable cmd) as Hc by (eapply Forall_lookup_1; done).
  intros ([r cl1] & w1 & E & H)%M_bind_ok.
  apply executeCommand_idle_client in E as ->; [|done..].
  apply M_bind_ok in H as (r1 & w2 & _ & H). apply M_bind_ok in H as (v & w3 & _ & H).
  apply M_bind_ok in H as ([vs1 cl2] & w4 & E2 & [[= _ ->] _]%M_ret_ok). by eapply IH.
Qed.

(** ** A command and its client *)

(** What [executeCommand] does before it runs the handler. *)
Inductive step_kind := Refused (r : bytes) | Runs (name : bytes) (h : CommandHandler).
Definition classify (command : RespValue) : res step_kind :=
  if negb (well_formed command) then Ok (Refused (createError (bs "wrong number of arguments")))
  else
    es ← command_elements command;
    v ← deref (es !! 0%nat);
    name ← data_string v;
    Ok (match find_handler name with
        | None => Refused (createError (bs "unknown command"))
        | Some h => if arity_ok h (Z.of_nat (length es)) then Runs name h
                    else Refused (createError (bs "wrong number of arguments"))
        end).

Lemma executeE env exec cmd cl w :
  execute env exec cmd cl w =
  match classify cmd with
  | Ok (Refused r) => Ok ((Some r, cl), w)
  | Ok (Runs name h) =>
      if is_control name then run_handler env exec (h_handler h) cmd cl w
      else if in_transaction cl then
        match c_queue cl with
        | Some q => Ok ((Some (createSimpleString (bs "QUEUED")), set_queue (queueCommand q cmd) cl), w)
        | None => UB
        end
      else ('(result, client) ← run_handler env exec (h_handler h) cmd cl;
            master ← gets (λ w, is_master (repl w));
            _ ← (if propagates master name then propagate env cmd else mret ());
            mret (result, client)) w
  | UB => UB
  | Diverge => Diverge
  end.
Proof.
  rw /execute /classify. destruct cmd as [| | | |[|v es]]; try done. cbn [well_formed negb].
  rw /arg liftE. cbn [command_elements mbind res_bind deref lookup list_lookup].
  destruct (data_string v) as [name| |]; [rw bind_ok|done..].
  destruct (find_handler name) as [h|]; [|done].
  rw /argc liftE. cbn [command_elements mbind res_bind].
  destruct (arity_ok h _); [|done]. cbn [negb].
  destruct (is_control name); [done|]. destruct (in_transaction cl); [|done].
  rw liftE. by destruct (c_queue cl).
Qed.

Lemma classify_queueable cmd name h :
  classify cmd = Ok (Runs name h) → is_control name = false → queueable cmd.
Proof.
  rw /classify. destruct cmd as [| | | |[|v es]]; try done. cbn [well_formed negb].
  cbn [command_elements mbind res_bind deref lookup list_lookup].
  destruct (data_string v) as [nm| |] eqn:Ev; [|done..]. cbn [mbind res_bind].
  destruct (find_handler nm) as [h'|] eqn:Ef; [|done].
  destruct (arity_ok h' _); [|done]. intros [= <- <-] Hc. by exists (v :: es), v, nm, h'.
Qed.

Lemma executeCommandE env d cmd cl w :
  executeCommand env (S d) cmd cl w = execute env (executeCommand env d) cmd cl w.
Proof. done. Qed.

(** ** Transactions *)

(** The commands one after the other, outside a transaction. *)
Fixpoint run_each (env : Env) (cmds : list RespValue) (cl : ClientState) : M (list bytes) :=
  match cmds with
  | [] => mret []
  | cmd :: rest =>
      '(r, _) ← executeCommand env 1 cmd cl;
      r ← lift (deref r);
      rs ← run_each env rest cl;
      mret (r :: rs)
  end.

Lemma exec_loop_run env cl q vs i w w' :
  in_transaction cl = false → c_queue cl = Some q → Forall queueable (q_commands q) →
  Forall flat vs →
  run_each env (drop i (q_commands q)) cl w = Ok (map encode vs, w') →
  exec_loop env (executeCommand env 1) (length (drop i (q_commands q))) i cl w =
  Ok ((map Some vs, cl), w').
Proof.
  intros Ht Hq Hqs. revert i w. induction vs as [|v vs IH]; intros i w Hv H.
  - rw (exec_loopE _ _ _ _ _ q) //. destruct (q_commands q !! i) as [cmd|] eqn:Ei.
    + rw (drop_S _ cmd i Ei) in H. cbn [run_each] in H. apply M_bind_ok in H as ([r c1] & w1 & _ & H).
      apply M_bind_ok in H as (r1 & w2 & _ & H). apply M_bind_ok in H as (rs & w3 & _ & H).
      by apply M_ret_ok in H as [? _].
    + apply lookup_ge_None_1 in Ei. rw drop_ge in H; [|done]. by apply M_ret_ok in H as [_ ->].
  - rw (exec_loopE _ _ _ _ _ q) //. apply Forall_cons in Hv as [Hv Hvs].
    destruct (q_commands q !! i) as [cmd|] eqn:Ei;
      [|apply lookup_ge_None_1 in Ei; rw drop_ge in H; [by apply M_ret_ok in H as [? _]|done]].
    assert (queueable cmd) as Hc by (eapply Forall_lookup_1; done).
    rw (drop_S _ cmd i Ei) in H |- *. cbn [run_each length] in H |- *.
    apply M_bind_ok in H as ([r c1] & w1 & E1 & H).
    rw bindE E1. apply executeCommand_idle_client in E1 as ->; [|done..].
    apply M_bind_ok in H as (r1 & w2 & [->%deref_ok_inv ->]%lift_ok & H).
    apply M_bind_ok in H as (rs & w3 & E3 & [[= <- <-] ->]%M_ret_ok).
    rw !liftE. cbn [deref]. rw liftE parseResponse_flat; [|done].
    rw bindE IH //.
Qed.

Lemma run_each_length env cmds cl w rs w' :
  run_each env cmds cl w = Ok (rs, w') → length rs = length cmds.
Proof.
  revert w rs w'. induction cmds as [|c cmds IH]; intros w rs w' H.
  - by apply M_ret_ok in H as [-> _].
  - cbn [run_each] in H. apply M_bind_ok in H as ([r c1] & w1 & _ & H).
    apply M_bind_ok in H as (r1 & w2 & _ & H). apply M_bind_ok in H as (rs1 & w3 & E & H).
    apply M_ret_ok in H as [-> _]. cbn. f_equal. by eapply IH.
Qed.

Lemma mapM_deref_some {A} (l : list A) : mapM deref (map Some l) = Ok l.
Proof. induction l as [|a l IH]; [done|]. cbn [map mapM]. by rw IH. Qed.

Lemma createRespArray_encode vs :
  Forall clean vs → createRespArrayFromElements vs = array_of (map encode vs).
Proof. intros Hv. apply (elementStr_encode (RespArray vs)). by apply clean_array. Qed.

(** ** The properties *)

(** C36. Two levels of [executeCommand] are enough: for a client whose queue
    holds only what the server queues, the result of any command, [EXEC]
    included, is the same with every larger bound on the recursion. *)
Theorem exec_depth_two env d cmd cl w :
  client_ok cl → executeCommand env (S (S d)) cmd cl w = executeCommand env 2 cmd cl w.
Proof.
  intros (q & Hq & _ & Hqs & _). rw !(executeCommandE _ (S _)) !executeE.
  destruct (classify cmd) as [[r|name h]| |]; [done| |done..].
  assert (run_handler env (executeCommand env (S d)) (h_handler h) cmd cl w =
    run_handler env (executeCommand env 1) (h_handler h) cmd cl w) as Hrun.
  { destruct (h_handler h); try done. cbn [run_handler]. rw /handleExec.
    destruct (in_transaction cl); cbn [negb]; [|done]. rw !liftE Hq. cbn [deref].
    by rw !bindE (exec_loop_depth env d 0 _ _ _ q). }
  destruct (is_control name); [by rw Hrun|]. destruct (in_transaction cl); [done|].
  by rw !(bindE (run_handler _ _ _ _ _)) Hrun.
Qed.

(** Outside a transaction the queue is empty, so a command's effect on the
    client is one of four. *)
Lemma set_queue_same cl q b :
  c_queue cl = Some q → in_transaction cl = b → set_transaction b (set_queue q cl) = cl.
Proof. destruct cl; cbn. by intros -> ->. Qed.

Lemma run_handler_client env h cmd cl r cl' w w' :
  client_ok cl → run_handler env (executeCommand env 1) h cmd cl w = Ok ((r, cl'), w') →
  client_ok cl' ∧ c_fd cl' = c_fd cl.
Proof.
  intros (q & Hq & Hwf & Hqs & Hidle) H.
  assert (client_ok cl) as Hcl by (by exists q).
  assert (∀ b, client_ok (set_transaction b (set_queue createCommandQueue cl))) as Hreset.
  { intros b. exists createCommandQueue. split_and!; [done|apply createCommandQueue_wf|done|done]. }
  destruct (control_handler h) eqn:Eh.
  2: { destruct (plain_handler env h Eh) as [m Hm]. rw Hm /plain in H.
       apply M_bind_ok in H as (r1 & w1 & _ & [[= -> ->] _]%M_ret_ok). done. }
  destruct h; try done; cbn [run_handler] in H.
  - rw /handleMulti in H. apply M_ret_ok in H as [[= -> ->] _]. split; [|done].
    by exists q.
  - rw /handleExec in H. destruct (in_transaction cl); cbn [negb] in H;
      [|by apply M_ret_ok in H as [[= -> ->] _]].
    apply M_bind_ok in H as (q1 & w1 & [E1%deref_ok_inv ->]%lift_ok & H).
    apply M_bind_ok in H as ([vs cl1] & w2 & E2 & H).
    apply (exec_loop_client _ _ _ _ _ q) in E2 as ->; [|done..].
    apply M_bind_ok in H as (q2 & w3 & _ & H). apply M_bind_ok in H as (els & w4 & _ & H).
    apply M_ret_ok in H as [[= -> ->] _]. split; [|done]. apply (Hreset false).
  - rw /handleDiscard in H. destruct (in_transaction cl); cbn [negb] in H;
      [|by apply M_ret_ok in H as [[= -> ->] _]].
    apply M_bind_ok in H as (q1 & w1 & _ & [[= -> ->] _]%M_ret_ok).
    split; [|done]. apply (Hreset false).
Qed.

Lemma executeCommand_client env cmd cl r cl' w w' :
  client_ok cl → executeCommand env 2 cmd cl w = Ok ((r, cl'), w') →
  client_ok cl' ∧ c_fd cl' = c_fd cl.
Proof.
  intros Hcl. rw (executeCommandE _ 1) executeE.
  destruct (classify cmd) as [[r1|name h]| |] eqn:Ec; [by intros [= _ <- _]| |done..].
  destruct (is_control name) eqn:En; [by apply run_handler_client|].
  destruct Hcl as (q & Hq & Hwf & Hqs & Hidle). destruct (in_transaction cl) eqn:Et.
  - rw Hq. intros [= _ <- _]. split; [|done]. exists (queueCommand q cmd).
    split_and!; [done|by apply queueCommand_wf| |by cbn; rw Et].
    rw queueCommand_commands Forall_app. split; [done|].
    constructor; [by eapply classify_queueable|done].
  - intros ([r1 cl1] & w1 & H1 & H)%M_bind_ok.
    apply run_handler_client in H1; [|by exists q; rw Et].
    apply M_bind_ok in H as (m & w2 & _ & H). apply M_bind_ok in H as (u & w3 & _ & H).
    by apply M_ret_ok in H as [[= -> ->] _].
Qed.

(** C3. Whatever a client sends, if executing it returns, the shared state is
    still in order (the hash table's placement, count and unique ownership of
    streams, the replication record, the clock) and the server has not changed
    role; the client's queue is in order, and empty unless a transaction is
    open.  The other threads are only assumed to keep the same invariant while
    the command blocks. *)
Theorem execute_invariant env cmd cl w r cl' w' :
  env_ok env → world_wf w → client_ok cl →
  executeCommand env 2 cmd cl w = Ok ((r, cl'), w') →
  world_wf w' ∧ is_master (repl w') = is_master (repl w) ∧ client_ok cl' ∧ c_fd cl' = c_fd cl.
Proof.
  intros He Hw Hc H. destruct (keeps_executeCommand env He 2 cmd cl w _ w' Hw H) as (H1 & H2 & _).
  apply executeCommand_client in H as (H3 & H4); [|done]. done.
Qed.

(** C6. [EXEC] runs the queued commands in the order they were queued, from
    the state each leaves, and answers the array of their replies; the
    transaction is closed and the queue emptied.  This holds of replies that
    survive the reply parser: simple strings, errors, integers, bulk strings
    and flat arrays of them. *)
Theorem exec_runs_queue env cl q vs w w' :
  client_ok cl → in_transaction cl = true → c_queue cl = Some q →
  run_each env (q_commands q) (set_transaction false cl) w = Ok (map encode vs, w') →
  Forall flat vs →
  executeCommand env 2 (RespArray [RespBulk (bs "EXEC")]) cl w =
  Ok ((Some (array_of (map encode vs)), set_transaction false (set_queue createCommandQueue cl)), w').
Proof.
  intros (q' & Hq' & _ & Hqs & _) Ht Hq Hrun Hv. rw Hq in Hq'. injection Hq' as <-.
  rw (executeCommandE _ 1) executeE.
  rw (_ : classify _ = Ok (Runs (bs "EXEC") (mkHandler (bs "EXEC") HExec 1 1))); [|by vm_compute].
  rw (_ : is_control (bs "EXEC") = true); [|by vm_compute]. cbn [h_handler run_handler].
  rw /handleExec Ht. cbn [negb]. rw liftE Hq. cbn [deref].
  pose proof (run_each_length _ _ _ _ _ _ Hrun) as Hlen.
  rw bindE -{1}(drop_0 (q_commands q)) (exec_loop_run _ _ q vs _ _ w') //.
  rw liftE. cbn [c_queue set_transaction]. rw Hq. cbn [deref]. rw liftE.
  rw length_map in Hlen. rw take_ge; [|by rw length_map Hlen]. rw mapM_deref_some.
  rw createRespArray_encode; [done|]. eapply Forall_impl; [exact Hv|apply flat_clean].
Qed.

(** ** An example server *)

Definition ex_config_server (ri : ReplicationInfo) : RedisServer :=
  mkRedisServer (bs "127.0.0.1") 6379 createStore (bs "/tmp") (bs "dump.rdb") ri
    (mkServerStats 511 0 0 0 0).
Definition ex_master : ReplicationInfo :=
  mkReplicationInfo None (bs "8371b4fb1155b71f4a04d3e1bc3e18c4a990aeeb") 0
    (Some (mkReplicas [mkReplica 7 0] 16)).
Definition ex_world : World :=
  mkWorld (ex_config_server ex_master) ∅ (mkWaitState 0 0 false false) false (1700000000 * 10 ^ 9) [].
(** No files, every write accepted, zeroed memory, waits that time out. *)
Definition ex_env : Env :=
  mkEnv (λ _, None) (λ _ _ d, Z.of_nat (length d)) Zeroed (λ _ w, Some (false, w)).
Definition ex_client : ClientState := mkClient 5 false (Some createCommandQueue).
Definition words (l : list string) : RespValue := RespArray (map (λ s, RespBulk (bs s)) l).

Lemma ex_world_wf : world_wf ex_world.
Proof. split; [apply createStore_wf|by vm_compute|by vm_compute]. Qed.

Lemma ex_env_ok : env_ok ex_env.
Proof. intros k w b w' Hw [= _ <-]. split_and!; try done; apply Hw. Qed.

Lemma ex_client_ok : client_ok ex_client.
Proof. exists createCommandQueue. split_and!; [done|apply createCommandQueue_wf|done|done]. Qed.

Lemma execute_invariant_witness :
  ∃ r cl' w', executeCommand ex_env 2 (words ["SET"; "k"; "v"; "PX"; "100"]) ex_client ex_world = Ok ((r, cl'), w')
    ∧ world_wf w' ∧ is_master (repl w') = is_master (repl ex_world) ∧ client_ok cl' ∧ c_fd cl' = c_fd ex_client.
Proof.
  destruct (executeCommand ex_env 2 (words ["SET"; "k"; "v"; "PX"; "100"]) ex_client ex_world)
    as [[[r cl'] w']| |] eqn:E.
  - exists r, cl', w'. split; [done|].
    exact (execute_invariant _ _ _ _ _ _ _ ex_env_ok ex_world_wf ex_client_ok E).
  - apply (f_equal is_ok) in E. vm_compute in E. by case (Bool.diff_true_false E).
  - apply (f_equal is_ok) in E. vm_compute in E. by case (Bool.diff_true_false E).
Defined.

Lemma exec_depth_two_witness :
  executeCommand ex_env 7 (words ["EXEC"]) ex_client ex_world =
  executeCommand ex_env 2 (words ["EXEC"]) ex_client ex_world.
Proof. apply exec_depth_two. exact ex_client_ok. Defined.

Definition ex_queue : CommandQueue :=
  queueCommand (queueCommand createCommandQueue (words ["SET"; "n"; "41"])) (words ["INCR"; "n"]).
Definition ex_open_client : ClientState := mkClient 5 true (Some ex_queue).

Lemma ex_open_client_ok : client_ok ex_open_client.
Proof.
  exists ex_queue. split; [done|split; [do 2 apply queueCommand_wf; apply createCommandQueue_wf|split; [|done]]].
  change (Forall queueable [words ["SET"; "n"; "41"]; words ["INCR"; "n"]]).
  rw !Forall_cons. split; [|split; [|done]].
  - exists (map (λ s, RespBulk (bs s)) ["SET"; "n"; "41"]%string), (RespBulk (bs "SET")), (bs "SET"), (mkHandler (bs "SET") HSet 3 5).
    split_and!; by vm_compute.
  - exists (map (λ s, RespBulk (bs s)) ["INCR"; "n"]%string), (RespBulk (bs "INCR")), (bs "INCR"), (mkHandler (bs "INCR") HIncrement 2 2).
    split_and!; by vm_compute.
Qed.

Lemma exec_runs_queue_witness :
  ∃ w', executeCommand ex_env 2 (words ["EXEC"]) ex_open_client ex_world =
        Ok ((Some (bs "*2" ++ CRLF ++ bs "+OK" ++ CRLF ++ bs ":42" ++ CRLF),
             set_transaction false (set_queue createCommandQueue ex_open_client)), w').
Proof.
  destruct (run_each ex_env (q_commands ex_queue) (set_transaction false ex_open_client) ex_world)
    as [[rs w']| |] eqn:E.
  - exists w'.
    assert (rs = map encode [RespString (bs "OK"); RespInteger 42]) as ->.
    { apply (f_equal (λ r, match r with Ok (rs, _) => rs | _ => [] end)) in E. by vm_compute in E. }
    refine (exec_runs_queue ex_env ex_open_client ex_queue [RespString (bs "OK"); RespInteger 42] _ w'
              ex_open_client_ok eq_refl eq_refl E _).
    repeat constructor; try by_decide; by vm_compute.
  - apply (f_equal is_ok) in E. vm_compute in E. by case (Bool.diff_true_false E).
  - apply (f_equal is_ok) in E. vm_compute in E. by case (Bool.diff_true_false E).
Defined.
