(* ===== verification/Handlers.v ===== *)
(** * What the commands answer

    The handlers against the abstract map of [Store] ([KV]): reply and effect
    on every branch. *)
From S2P Require Import Prelude.
From S2P Require Import CLib.
From S2P Require Import Stream.
From S2P Require Import Resp.
From S2P Require Import Store.
From S2P Require Import Rdb.
From S2P Require Import CommandQueue.
From S2P Require Import Replicas.
From S2P Require Import World.
From S2P Require Import Command.
From S2P Require Import Invariants.

(** ** Vocabulary *)

Abbreviation OK_REPLY := (createSimpleString (bs "OK")).

(** The database a client sees. *)
Definition wview (w : World) : KV.state := view (streams w) (store w).

(** A command as a client sends it. *)
Definition request (l : list bytes) : RespValue := RespArray (map RespBulk l).

(** The call answered [text] and changed nothing but the database, to [m]. *)
Definition answers (r : res (reply * World)) (text : bytes) (w : World) (m : KV.state) : Prop :=
  ∃ h st, r = Ok (Some text, with_db h st w) ∧ world_wf (with_db h st w) ∧ view h st = m.

(** ** The primitives, one step at a time *)

Lemma argE {B} l i (f : bytes → M B) w :
  (arg (request l) i ≫= f) w = match l !! i with Some s => f s w | None => UB end.
Proof.
  rw /arg liftE. cbn [command_elements mbind res_bind request].
  rw list_lookup_fmap. by destruct (l !! i).
Qed.

Lemma argcE {B} l (f : nat → M B) w : (argc (request l) ≫= f) w = f (length l) w.
Proof. by rw /argc liftE /= length_map. Qed.

Lemma store_getE {B} k (f : option bytes → M B) w :
  world_wf w → (store_get k ≫= f) w = f (KV.get (now_ms w) (wview w) k) w.
Proof.
  intros [[Hw _] _ _]. rw /store_get getsE. by rw (storeGet_spec _ (streams w)).
Qed.

Lemma store_setE k v w :
  world_wf w → ∃ h st, world_wf (with_db h st w) ∧ view h st = KV.set (wview w) k v
    ∧ ∀ B (f : unit → M B), (store_set k v ≫= f) w = f () (with_db h st w).
Proof.
  intros Hw. destruct (storeSet_spec _ _ k v (ww_db _ Hw)) as (h & st & E & Hd & Hv).
  exists h, st. split; [by apply with_db_wf|]. split; [done|].
  intros B f. by rw /store_set modifyE E.
Qed.

Lemma store_expireE k x w :
  world_wf w → ∃ st, world_wf (with_db (streams w) st w) ∧ view (streams w) st = KV.expire (wview w) k x
    ∧ ∀ B (f : unit → M B), (store_expire k x ≫= f) w = f () (with_db (streams w) st w).
Proof.
  intros Hw. destruct (setExpiry_spec _ _ k x (ww_db _ Hw)) as (st & E & Hd & Hv).
  exists st. split; [by apply with_db_wf|]. split; [done|].
  intros B f. by rw /store_expire modifyE E.
Qed.


Lemma add_s64_one n : in_s64 n → add_s64 n 1 = if decide (n = LLONG_MAX) then UB else Ok (n + 1).
Proof.
  rw /in_s64 /add_s64 /LLONG_MIN /LLONG_MAX. intros Hn. case_decide.
  - rw andb_false_intro2; [|apply Z.leb_gt; lia]. done.
  - rw (proj2 (Z.leb_le _ _)); [|lia]. rw (proj2 (Z.leb_le _ _)); [done|lia].
Qed.

(** Read the next argument. *)
Ltac next_arg := rw argE; cbn [lookup list_lookup].

(** ** SET, GET, INCR *)

(** The expiry that the options of [SET] ask for. *)
Definition px_option (opts : list bytes) : option Z :=
  match opts with
  | o :: n :: _ => if strcasecmp_eq o (bs "px") && (0 <? atoll n) then Some (atoll n) else None
  | _ => None
  end.

(** C23. [SET key value] with any options answers [OK] and maps the key to the
    value, with the expiry the key had before if there was one; [PX] with a
    positive number of milliseconds replaces the expiry by that time from now,
    unless that instant does not fit in 64 bits, which is undefined; every
    other option is ignored. *)
Theorem set_outcome name k v opts w :
  world_wf w →
  let r := handleSet (request (name :: k :: v :: opts)) w in
  let m := KV.set (wview w) k v in
  match px_option opts with
  | None => answers r OK_REPLY w m
  | Some ms => if decide (now_ms w + ms ≤ LLONG_MAX)
               then answers r OK_REPLY w (KV.expire m k (now_ms w + ms)) else r = UB
  end.
Proof.
  intros Hw r m. rw /r /handleSet. do 2 next_arg.
  destruct (store_setE k v w Hw) as (h & st & Hw1 & Hv1 & ->).
  assert (answers (Ok (Some OK_REPLY, with_db h st w)) OK_REPLY w m) as Hplain.
  { by exists h, st. }
  rw argcE. destruct opts as [|o [|n opts]]; [apply Hplain..|].
  cbn [length Nat.ltb Nat.leb px_option]. next_arg.
  destruct (strcasecmp_eq o (bs "px")); cbn [negb andb]; [|apply Hplain].
  next_arg. destruct (Z.leb_spec (atoll n) 0) as [Hn|Hn].
  { rw (proj2 (Z.ltb_ge _ _)); [|done]. apply Hplain. }
  rw (proj2 (Z.ltb_lt _ _)); [|done]. rw getsE liftE /add_s64.
  change (now_ms (with_db h st w)) with (now_ms w).
  pose proof (now_ms_u64 _ Hw) as Hnow. rw /in_u64 in Hnow.
  rw (proj2 (Z.leb_le LLONG_MIN _)); [|rw /LLONG_MIN; lia]. cbn [andb].
  case_decide as Hfit; [rw (proj2 (Z.leb_le _ _)); [|done]|by rw (proj2 (Z.leb_gt _ _)); [|lia]].
  destruct (store_expireE k (now_ms w + atoll n) _ Hw1) as (st2 & Hw2 & Hv2 & ->).
  exists h, st2. split; [done|]. split; [done|]. rw Hv2. by rw /m -Hv1.
Qed.

(** C24. [GET] answers the value in memory if the key holds an unexpired
    string; otherwise what the dump file holds for the key, if there is one
    that opens; otherwise the null bulk string.  It changes nothing. *)
Theorem get_outcome env name k w :
  world_wf w →
  handleGet env (request [name; k]) w =
  match KV.get (now_ms w) (wview w) k with
  | Some v => Ok (Some (bulk v), w)
  | None =>
      match createRdbReader (files env) (dir (server w)) (rdb_filename (server w)) with
      | None => Ok (Some createNullBulkString, w)
      | Some reader =>
          v ← getRdbValue (now_ms w) k reader;
          Ok (Some (match v with Some v => bulk v | None => createNullBulkString end), w)
      end
  end.
Proof.
  intros Hw. rw /handleGet. next_arg. rw store_getE; [|done].
  destruct (KV.get _ _ _) as [v|]; [by rw createBulkString_bulk|].
  rw /open_rdb getsE. destruct (createRdbReader _ _ _) as [reader|]; [|done].
  rw getsE liftE. destruct (getRdbValue _ _ _) as [[v|]| |]; try done.
  by rw createBulkString_bulk.
Qed.

(** C26. [INCR] on a key that GET does not see (absent, expired or a stream)
    stores "1" and answers 1; on a string that reads as a number in full it
    stores and answers the number plus one, except at the largest [long long]
    (to which larger numbers are clamped), where the addition is undefined; on
    any other string it answers an error and changes nothing. *)
Theorem incr_outcome name k w :
  world_wf w →
  let r := handleIncrement (request [name; k]) w in
  match KV.get (now_ms w) (wview w) k with
  | None => answers r (encode (RespInteger 1)) w (KV.set (wview w) k (bs "1"))
  | Some v =>
      let '(n, rest) := strtoll v in
      if decide (rest = []) then
        if decide (n = LLONG_MAX) then r = UB
        else answers r (encode (RespInteger (n + 1))) w (KV.set (wview w) k (print_s (n + 1)))
      else r = Ok (Some (createError (bs "ERR value is not an integer or out of range")), w)
  end.
Proof.
  intros Hw r. rw /r /handleIncrement. next_arg. rw store_getE; [|done].
  destruct (KV.get _ _ _) as [v|].
  - pose proof (strtoll_range v) as Hn. rw strtoll_app_nul.
    destruct (strtoll v) as [n rest]. cbn [fst] in Hn.
    destruct (decide (rest = [])) as [->|Hr]; [rw bool_decide_true; [|done]|by rw bool_decide_false].
    cbn [negb]. rw liftE (add_s64_one n Hn). case_decide as Hmax; [done|].
    assert (in_s64 (n + 1)) as Hn1.
    { rw /in_s64 /LLONG_MAX in Hn Hmax |- *. lia. }
    rw snprintf_fits; [|pose proof (print_s_length (n + 1) Hn1); lia].
    rw cstr_nonul; [|by apply print_s_free].
    destruct (store_setE k (print_s (n + 1)) w Hw) as (h & st & Hw1 & Hv1 & ->).
    exists h, st. by rw createInteger_spec.
  - destruct (store_setE k (bs "1") w Hw) as (h & st & Hw1 & Hv1 & ->).
    exists h, st. by rw createInteger_spec.
Qed.

(** The example server after a few commands. *)
Definition ex_step (c : RespValue) (w : World) : World :=
  match executeCommand ex_env 2 c ex_client w with Ok (_, w') => w' | _ => w end.
Definition ex_world1 : World := ex_step (words ["XADD"; "s"; "5-1"; "f"; "1"]) (ex_step (words ["SET"; "n"; "41"]) ex_world).

Lemma ex_step_wf c w : world_wf w → world_wf (ex_step c w).
Proof.
  intros Hw. rw /ex_step. destruct (executeCommand _ _ _ _ _) as [[[r cl] w']| |] eqn:E; [|done..].
  by apply (keeps_executeCommand ex_env ex_env_ok 2 c ex_client w _ _ Hw E).
Qed.

Lemma ex_world1_wf : world_wf ex_world1.
Proof. do 2 apply ex_step_wf. apply ex_world_wf. Qed.

Lemma set_outcome_witness :
  answers (handleSet (request [bs "SET"; bs "n"; bs "7"; bs "px"; bs "100"]) ex_world1) OK_REPLY ex_world1
    (KV.expire (KV.set (wview ex_world1) (bs "n") (bs "7")) (bs "n") (now_ms ex_world1 + 100)).
Proof.
  pose proof (set_outcome (bs "SET") (bs "n") (bs "7") [bs "px"; bs "100"] ex_world1 ex_world1_wf) as H.
  cbn zeta in H. change (px_option _) with (Some 100) in H. cbv iota in H.
  case_decide as Hfit; [exact H|by destruct Hfit; vm_compute].
Defined.

Lemma get_outcome_witness :
  handleGet ex_env (request [bs "GET"; bs "n"]) ex_world1 = Ok (Some (bulk (bs "41")), ex_world1)
  ∧ handleGet ex_env (request [bs "GET"; bs "s"]) ex_world1 = Ok (Some createNullBulkString, ex_world1).
Proof.
  split; (rw get_outcome; [|apply ex_world1_wf]).
  - rw (_ : KV.get _ _ _ = Some (bs "41")); [done|by vm_compute].
  - rw (_ : KV.get _ _ _ = None); [done|by vm_compute].
Defined.

Lemma incr_outcome_witness :
  answers (handleIncrement (request [bs "INCR"; bs "n"]) ex_world1) (bs ":42" ++ CRLF) ex_world1
    (KV.set (wview ex_world1) (bs "n") (bs "42")).
Proof.
  pose proof (incr_outcome (bs "INCR") (bs "n") ex_world1 ex_world1_wf) as H.
  rw (_ : KV.get _ _ _ = Some (bs "41")) in H; [|by vm_compute].
  change (strtoll (bs "41")) with (41, @nil ascii) in H. cbv iota zeta in H.
  exact H.
Defined.

(** ** Transactions *)

(** C37. Inside a transaction a command of the table is not run: it is appended
    to the queue and answered [QUEUED], whatever it would do; a command that
    is unknown or has the wrong number of arguments is answered with an error
    and leaves the transaction and its queue as they are.  Neither touches the
    shared state. *)
Theorem transaction_queues env d cmd cl q w :
  in_transaction cl = true → c_queue cl = Some q →
  match classify cmd with
  | Ok (Runs name h) =>
      is_control name = false →
      ∃ cl', executeCommand env (S d) cmd cl w = Ok ((Some (createSimpleString (bs "QUEUED")), cl'), w)
        ∧ in_transaction cl' = true ∧ c_fd cl' = c_fd cl
        ∧ ∃ q', c_queue cl' = Some q' ∧ q_commands q' = q_commands q ++ [cmd]
  | Ok (Refused r) => executeCommand env (S d) cmd cl w = Ok ((Some r, cl), w)
  | _ => executeCommand env (S d) cmd cl w = UB
  end.
Proof.
  intros Ht Hq. rw executeCommandE executeE. destruct (classify cmd) as [[r|name h]| |] eqn:E; [done| |done|].
  - intros ->. rw Ht Hq. eexists. split; [done|]. split; [done|]. split; [done|].
    eexists. split; [done|]. apply queueCommand_commands.
  - exfalso. rw /classify in E. destruct cmd as [| | | |[|v es]]; try done. cbn in E.
    by destruct (data_string v) as [nm| |] eqn:Ev; [..|by destruct v].
Qed.

Lemma transaction_queues_witness :
  ∃ cl', executeCommand ex_env 2 (words ["GET"; "n"]) ex_open_client ex_world1 =
         Ok ((Some (createSimpleString (bs "QUEUED")), cl'), ex_world1)
    ∧ in_transaction cl' = true ∧ c_fd cl' = 5
    ∧ ∃ q', c_queue cl' = Some q' ∧ q_commands q' = q_commands ex_queue ++ [words ["GET"; "n"]].
Proof.
  exact (transaction_queues ex_env 1 (words ["GET"; "n"]) ex_open_client ex_queue ex_world1 eq_refl eq_refl eq_refl).
Defined.

(** A command of the table other than the writers, outside a transaction, on
    a master or not: the handler's answer. *)
Lemma run_reader env d cmd name h cl m r w :
  classify cmd = Ok (Runs name h) → is_control name = false → in_transaction cl = false →
  propagates true name = false →
  (∀ exec, run_handler env exec (h_handler h) cmd cl = plain m cl) →
  m w = Ok (r, w) →
  executeCommand env (S d) cmd cl w = Ok ((r, cl), w).
Proof.
  intros Hc Hn Ht Hp Hh Hm. rw executeCommandE executeE Hc Hn Ht Hh plainE Hm.
  assert (∀ b, propagates b name = false) as Hb.
  { intros []; [done|]. rw /propagates in Hp |- *. by destruct (strcasecmp_eq name (bs "SET")). }
  by rw getsE Hb.
Qed.

(** The null bulk string read back by [EXEC]. *)
Lemma exec_loop_null env exec cl q cmd w w' :
  c_queue cl = Some q → q_commands q = [cmd] →
  exec cmd cl w = Ok ((Some createNullBulkString, cl), w') →
  exec_loop env exec 1 0 cl w = Ok (([None], cl), w').
Proof.
  intros Hq Hc He. rw (exec_loopE _ _ _ _ _ q) // Hc. cbn [lookup list_lookup]. rw bindE He liftE. cbn [deref].
  rw liftE. rw (_ : parseResponseToRespValue _ _ = Ok None); [|by destruct (memory env)].
  by rw bindE (exec_loopE _ _ _ _ _ q) // Hc.
Qed.

(** A transaction that consists of a [GET] of a key without a value
    cannot be executed: the null bulk string it answers is not one the reply
    parser fills in, and [EXEC] then reads a value that was never written. *)
Theorem exec_null_reply env cl q k w :
  world_wf w → c_queue cl = Some q → in_transaction cl = true →
  q_commands q = [request [bs "GET"; k]] →
  KV.get (now_ms w) (wview w) k = None →
  createRdbReader (files env) (dir (server w)) (rdb_filename (server w)) = None →
  executeCommand env 2 (RespArray [RespBulk (bs "EXEC")]) cl w = UB.
Proof.
  intros Hw Hq Ht Hcmd Hk Hrdb. rw (executeCommandE _ 1) executeE.
  rw (_ : classify _ = Ok (Runs (bs "EXEC") (mkHandler (bs "EXEC") HExec 1 1))); [|by vm_compute].
  rw (_ : is_control (bs "EXEC") = true); [|by vm_compute]. cbn [h_handler run_handler].
  rw /handleExec Ht. cbn [negb]. rw liftE Hq. cbn [deref]. rw bindE Hcmd. cbn [length].
  assert (executeCommand env 1 (request [bs "GET"; k]) (set_transaction false cl) w =
          Ok ((Some createNullBulkString, set_transaction false cl), w)) as Hget.
  { eapply (run_reader _ _ _ (bs "GET") (mkHandler (bs "GET") HGet 2 2) _ (handleGet env _)); try done.
    by rw get_outcome // Hk Hrdb. }
  rw (exec_loop_null _ _ _ q (request [bs "GET"; k]) w w) // liftE.
  cbn [c_queue set_transaction]. by rw Hq /= liftE Hcmd.
Qed.

Lemma exec_null_reply_witness :
  executeCommand ex_env 2 (words ["EXEC"])
    (mkClient 5 true (Some (queueCommand createCommandQueue (words ["GET"; "missing"])))) ex_world1 = UB.
Proof.
  apply (exec_null_reply ex_env (mkClient 5 true (Some (queueCommand createCommandQueue (words ["GET"; "missing"]))))
           (queueCommand createCommandQueue (words ["GET"; "missing"])) (bs "missing") ex_world1 ex_world1_wf
           eq_refl eq_refl eq_refl); [by vm_compute|done].
Defined.

(** ** XADD *)

Lemma mapM_args args (f : nat → nat) l w :
  Forall (λ i, (f i < length args)%nat) l →
  mapM (λ i, arg (request args) (f i)) l w = Ok (omap (λ i, args !! f i) l, w).
Proof.
  intros Hl. induction Hl as [|i l Hi Hl IH]; [done|]. cbn [mapM].
  rw argE. destruct (args !! f i) as [s|] eqn:E; [|apply lookup_ge_None in E; lia].
  rw bindE IH. cbn. by rw E.
Qed.

(** The field and value arguments of [XADD]. *)
Definition xadd_fields (rest : list bytes) : list bytes :=
  omap (λ i, rest !! (i * 2)%nat) (List.seq 0 (length rest / 2)).
Definition xadd_values (rest : list bytes) : list bytes :=
  omap (λ i, rest !! (1 + i * 2)%nat) (List.seq 0 (length rest / 2)).

Lemma handleXaddE env name k id rest w :
  handleXadd env (request (name :: k :: id :: rest)) w =
  (result ← store_xadd env k id (xadd_fields rest) (xadd_values rest);
   result ← lift (deref result);
   if decide (head result = Some DASH)
   then mret (Some (createError (drop 1 result)))
   else mret (Some (createBulkString (cstr result)))) w.
Proof.
  rw /handleXadd. do 2 next_arg. rw argcE. cbn zeta.
  rw (_ : (length (name :: k :: id :: rest) - 3) / 2 = length rest / 2)%nat;
    [|f_equal; cbn [length]; lia].
  assert (Forall (λ i, i < length rest / 2)%nat (List.seq 0 (length rest / 2))) as Hseq.
  { apply Forall_seq. lia. }
  pose proof (Nat.div_mod_eq (length rest) 2).
  rw bindE (mapM_args _ (λ i, 3 + i * 2)%nat);
    [|eapply Forall_impl; [exact Hseq|intros i Hi; cbn [length] in *; lia]].
  rw bindE (mapM_args _ (λ i, 4 + i * 2)%nat);
    [|eapply Forall_impl; [exact Hseq|intros i Hi; cbn [length] in *; lia]].
  done.
Qed.

(** The stream that [XADD] appends to: a new one if the key is absent, whose
    expiry is what fresh memory holds; none if the key holds a string. *)
Definition xadd_target (env : Env) (w : World) (k : bytes) : option (Stream * Z) :=
  match wview w !! cstr k with
  | Some (KString _, _) => None
  | Some (KStream s, x) => Some (s, x)
  | None => Some (createStream, junk_int (memory env))
  end.

Lemma store_xaddE env k id fs vs w :
  world_wf w →
  match xadd_target env w k with
  | None => store_xadd env k id fs vs w = UB
  | Some (s, x) => ∀ reply s' woke, streamAdd (now_ms w) s id fs vs = Ok (reply, s', woke) →
      ∃ h st, store_xadd env k id fs vs w =
                Ok (reply, if woke : bool then with_new_data true (with_db h st w) else with_db h st w)
        ∧ world_wf (with_db h st w) ∧ view h st = <[cstr k := (KStream s', x)]> (wview w)
  end.
Proof.
  intros Hw. rw /store_xadd /xadd_target.
  pose proof (storeStreamAdd_spec (now_ms w) (memory env) _ _ k id fs vs (ww_db _ Hw) (now_ms_u64 _ Hw)) as Hs.
  rw -/(wview w) /KV.xadd in Hs. destruct (wview w !! cstr k) as [[[d|s] x]|]; cbn [mbind res_bind] in Hs; [by rw Hs|..];
    intros reply s' woke Ha; rw Ha in Hs; cbn [mbind res_bind] in Hs; destruct Hs as (h & st & -> & Hd & Hv);
    exists h, st; split_and!; [done|by apply with_db_wf|done|done|by apply with_db_wf|done].
Qed.


Definition ex_one : Stream := mkStream [mkStreamEntry (bs "5-1") [bs "f"] [bs "1"]].

Lemma ex_one_wf : stream_wf ex_one.
Proof.
  apply (snoc_wf createStream (mkStreamID 5 1) [bs "f"] [bs "1"]);
    try done; try (apply fits_of_bound; vm_compute; split; congruence); try by_decide.
  apply createStream_wf.
Qed.


(** [XADD] with an ID that is not one crashes the server: the store
    answers [NULL], of which the handler reads the first byte.  So does any
    [XADD] to a key that holds a string. *)
Theorem xadd_crashes env name k id rest w :
  world_wf w →
  parseStreamID (now_ms w) id = None ∨ (∃ d x, wview w !! cstr k = Some (KString d, x)) →
  handleXadd env (request (name :: k :: id :: rest)) w = UB.
Proof.
  intros Hw Hbad. rw handleXaddE bindE.
  pose proof (store_xaddE env k id (xadd_fields rest) (xadd_values rest) w Hw) as H. rw /xadd_target in H.
  destruct Hbad as [Hid|(d & x & Hk)]; [|by rw Hk in H; rw H].
  assert (∀ s, streamAdd (now_ms w) s id (xadd_fields rest) (xadd_values rest) = Ok (None, s, false)) as Ha.
  { intros s. by rw /streamAdd Hid. }
  destruct (wview w !! cstr k) as [[[d|s] x]|]; [by rw H|..];
    destruct (H _ _ _ (Ha _)) as (h & st & -> & _); by rw liftE.
Qed.

Lemma xadd_crashes_witness :
  handleXadd ex_env (request [bs "XADD"; bs "s"; bs "abc"; bs "f"; bs "1"]) ex_world1 = UB
  ∧ handleXadd ex_env (request [bs "XADD"; bs "n"; bs "*"; bs "f"; bs "1"]) ex_world1 = UB.
Proof.
  split; apply xadd_crashes; [exact ex_world1_wf|left; by vm_compute|exact ex_world1_wf|right].
  exists (bs "41"), 0. by vm_compute.
Defined.

(** ** WAIT *)

(** [k] acknowledgements, as replicas send them. *)
Definition acks (k : nat) : M unit :=
  _ ← mapM (λ _, handleReplConf (request [bs "REPLCONF"; bs "ACK"; bs "0"])) (List.seq 0 k); mret ().

Lemma ackE w :
  handleReplConf (request [bs "REPLCONF"; bs "ACK"; bs "0"]) w =
  Ok (None, with_wait (add_ack (wait_state w)) w).
Proof. done. Qed.

Lemma acks_run k l w :
  length l = k →
  mapM (λ _ : nat, handleReplConf (request [bs "REPLCONF"; bs "ACK"; bs "0"])) l w =
  Ok (replicate k None, with_wait (Nat.iter k add_ack (wait_state w)) w).
Proof.
  revert k w. induction l as [|x l IH]; intros k w Hk; subst k; [by destruct w|].
  cbn [mapM length]. rw bindE ackE bindE (IH (length l)) //.
  by rw /= -Nat.iter_succ_r.
Qed.

Lemma iter_acks n k :
  0 ≤ n < 2 ^ 63 → Z.of_nat k ≤ n →
  Nat.iter k add_ack (mkWaitState n 0 false false) =
  mkWaitState (n - Z.of_nat k) (Z.of_nat k) false (bool_decide (0 < k)%nat && bool_decide (n ≤ 2 * Z.of_nat k)).
Proof.
  intros Hn. induction k as [|k IH]; intros Hk; [cbn; f_equal; lia|].
  rw Nat.iter_succ IH; [|lia]. rw /add_ack /=. rw !u64_small; [|rw /in_u64; lia..].
  f_equal; [lia|lia|].
  destruct (Z.leb_spec (n - Z.of_nat k - 1) (Z.of_nat k + 1)); repeat case_bool_decide; try done; lia.
Qed.

(** A [WAIT] for [n] replicas is signalled as soon as half of them have
    acknowledged: every acknowledgement raises the count it is compared with
    and lowers the bound. *)
Theorem wait_signalled_at_half n k w :
  0 ≤ n < 2 ^ 63 → (0 < k)%nat → Z.of_nat k ≤ n →
  wait_state w = mkWaitState n 0 false false →
  ∃ w', acks k w = Ok ((), w')
    ∧ acks_received (wait_state w') = Z.of_nat k
    ∧ signalled (wait_state w') = bool_decide (n ≤ 2 * Z.of_nat k).
Proof.
  intros Hn Hk Hkn Hw. rw /acks bindE (acks_run k) ?length_seq //. eexists. split; [done|].
  cbn [wait_state with_wait]. rw Hw iter_acks; [|done..]. split; [done|].
  cbn [signalled]. rw bool_decide_true //.
Qed.

Lemma wait_signalled_at_half_witness :
  ∃ w', acks 1 (with_wait (mkWaitState 2 0 false false) ex_world) = Ok ((), w')
    ∧ acks_received (wait_state w') = 1 ∧ signalled (wait_state w') = true.
Proof.
  apply (wait_signalled_at_half 2 1 (with_wait (mkWaitState 2 0 false false) ex_world)); [lia|lia|lia|done].
Defined.

(** ** XREAD *)

(** A blocking read of one stream. *)
Definition xread_block (ms k i : bytes) : RespValue :=
  request [bs "XREAD"; bs "BLOCK"; ms; bs "STREAMS"; k; i].

(** The words that the scan for options reacts to. *)
Definition ordinary (s : bytes) : Prop :=
  strcasecmp_eq s (bs "STREAMS") = false ∧ strcasecmp_eq s (bs "BLOCK") = false.

Lemma parseXread_block ms k i w :
  ordinary k → ordinary i →
  parseXreadArgs (xread_block ms k i) w = Ok (Some (mkXreadArgs 3 (atoi ms) true 1), w).
Proof.
  intros [Hk1 Hk2] [Hi1 Hi2]. rw /parseXreadArgs liftE. cbn [command_elements xread_block request].
  rw liftE. change (drop 1 (map RespBulk ?l)) with (map RespBulk (drop 1 l)).
  rw list_data_string_bulk. cbn [drop scan_xread].
  change (strcasecmp_eq (bs "BLOCK") (bs "STREAMS")) with false.
  change (strcasecmp_eq (bs "BLOCK") (bs "BLOCK")) with true.
  change (strcasecmp_eq (bs "STREAMS") (bs "STREAMS")) with true. cbv iota.
  by rw Hk1 Hk2 Hi1 Hi2.
Qed.

(** The ID that a read starts after: [$] stands for the stream's last entry. *)
Definition start_id (s : option Stream) (i : bytes) : bytes :=
  if strncmp_eq i (bs "$") 1
  then match s ≫= tail_of with Some e => cstr (id e) | None => bs "0-0" end
  else cstr i.

Lemma setupXread_block ms k i a w s :
  streamsPos a = 3 → numStreams a = 1%nat →
  match storeGetStream (store w) k with Some r => s = streams w !! r ∧ is_Some s | None => s = None end →
  setupXreadStreams (xread_block ms k i) a w =
  Ok ([(storeGetStream (store w) k, k, start_id s i)], w).
Proof.
  intros Hp Hn Hs. rw /setupXreadStreams Hp Hn. cbn [List.seq mapM Z.to_nat Pos.to_nat Pos.iter_op Nat.add].
  rw bindE. rw /xread_block. change (Z.to_nat 3 + 1 + 0)%nat with 4%nat. change (Z.to_nat 3 + 1 + 1 + 0)%nat with 5%nat.
  do 2 next_arg. rw /store_stream getsE /start_id.
  destruct (strncmp_eq i (bs "$") 1); [|by destruct (storeGetStream _ _)].
  destruct (storeGetStream (store w) k) as [r|]; [|by subst s].
  destruct Hs as [-> [s' Hs']]. rw bindE bindE /deref_stream Hs'. done.
Qed.

(** One pass over the one target. *)
Lemma follow_one r k t w :
  follow [(r, k, t)] w =
  match r with
  | None => Ok ([(None, k, t)], w)
  | Some r => match streams w !! r with Some s => Ok ([(Some s, k, t)], w) | None => UB end
  end.
Proof.
  rw /follow. cbn [mapM]. destruct r as [r|]; [|done]. rw bindE bindE /deref_stream.
  by destruct (streams w !! r).
Qed.

Definition no_data (j : junk) (now : Z) (s : option Stream) (k t : bytes) : Prop :=
  si_count (read_stream now j s k t) = 0.

(** Everything up to the wait, and from the wait on. *)
Lemma xread_block_split env ms k i w s :
  ordinary k → ordinary i →
  match storeGetStream (store w) k with Some r => s = streams w !! r ∧ is_Some s | None => s = None end →
  no_data (memory env) (now_ms w) s k (start_id s i) →
  handleXread env (xread_block ms k i) w =
  (gotData ← (if atoi ms =? 0 then waitForStreamDataInfinite env else waitForStreamData env (atoi ms));
   if gotData : bool then
     l ← follow [(storeGetStream (store w) k, k, start_id s i)];
     now ← gets now_ms;
     mret (Some (createXreadResponse (recheckStreams now (memory env) l)))
   else mret (Some createNullBulkString)) w.
Proof.
  intros Hk Hi Hs Hno. rw /handleXread bindE parseXread_block // bindE (setupXread_block _ _ _ _ _ s) //.
  rw bindE follow_one.
  assert (match storeGetStream (store w) k with
          | None => Ok ([(None, k, start_id s i)], w)
          | Some r => match streams w !! r with Some s0 => Ok ([(Some s0, k, start_id s i)], w) | None => UB end
          end = Ok ([(s, k, start_id s i)], w)) as ->.
  { destruct (storeGetStream (store w) k) as [r|]; [|by subst s].
    destruct Hs as [-> [s' Hs']]. by rw Hs'. }
  rw getsE /processStreamReads. cbn [recheckStreams map existsb].
  rw /no_data in Hno. rw Hno. done.
Qed.

Lemma wait_infiniteE {B} env (f : bool → M B) w :
  (waitForStreamDataInfinite env ≫= f) w =
  match wait_result env DataForever (with_new_data false w) with
  | None => Diverge
  | Some (_, w') => f true w'
  end.
Proof.
  rw bindE /waitForStreamDataInfinite modifyE bindE /block.
  by destruct (wait_result _ _ _) as [[b w']|].
Qed.


(** A blocking [XREAD] of a key that holds no stream yet never delivers:
    whatever is added to the key while it waits, the answer is an empty list
    for it. *)
Theorem xread_block_missing_key env k i w :
  ordinary k → ordinary i → storeGetStream (store w) k = None →
  handleXread env (xread_block (bs "0") k i) w =
  match wait_result env DataForever (with_new_data false w) with
  | None => Diverge
  | Some (_, w') => Ok (Some (createXreadResponse [mkStreamInfo (cstr k) [] 0]), w')
  end.
Proof.
  intros Hk Hi Hr. rw (xread_block_split _ _ _ _ _ None) //; [|by rw Hr].
  change (atoi (bs "0") =? 0) with true. cbv iota. rw wait_infiniteE.
  destruct (wait_result _ _ _) as [[b w']|]; [|done]. by rw Hr bindE follow_one.
Qed.

(** A blocking [XREAD] with a timeout does not wait at all when the
    milliseconds of its deadline carry into the next second: the deadline is
    refused, and the refusal taken for a wake-up. *)
Theorem xread_deadline_refused env ms k i w :
  ordinary k → ordinary i → storeGetStream (store w) k = None →
  0 < atoi ms → 10 ^ 9 ≤ clock w mod 10 ^ 9 + atoi ms mod 1000 * 10 ^ 6 →
  handleXread env (xread_block ms k i) w =
  Ok (Some (createXreadResponse [mkStreamInfo (cstr k) [] 0]), with_new_data false w).
Proof.
  intros Hk Hi Hr Hms Hns. rw (xread_block_split _ _ _ _ _ None) //; [|by rw Hr].
  rw (proj2 (Z.eqb_neq _ _)); [|lia].
  assert (waitForStreamData env (atoi ms) w = Ok (true, with_new_data false w)) as Hwait.
  { rw /waitForStreamData getsE modifyE Z.rem_mod_nonneg; [|lia..].
    rw (proj2 (Z.leb_le (10 ^ 9) _)); [|lia]. by rw orb_true_r. }
  by rw bindE Hwait Hr bindE follow_one.
Qed.

(** Another client adds an entry to [s], and one to [q], while the first one
    waits. *)
Definition ex_busy_env : Env :=
  mkEnv (λ _, None) (λ _ _ d, Z.of_nat (length d)) Zeroed
    (λ _ w, Some (true, ex_step (words ["XADD"; "q"; "1-1"; "g"; "9"]) (ex_step (words ["XADD"; "s"; "6-1"; "g"; "2"]) w))).
Definition ex_stream_ref : nat := default 0%nat (storeGetStream (store ex_world1) (bs "s")).
Definition ex_stream_s : Stream := default createStream (streams ex_world1 !! ex_stream_ref).


Lemma xread_block_missing_key_witness :
  ∃ w', handleXread ex_busy_env (xread_block (bs "0") (bs "q") (bs "0-0")) ex_world1 =
        Ok (Some (createXreadResponse [mkStreamInfo (bs "q") [] 0]), w')
    ∧ is_Some (storeGetStream (store w') (bs "q")).
Proof.
  eexists. split.
  - apply (xread_block_missing_key ex_busy_env (bs "q") (bs "0-0") ex_world1); [by split|by split|by vm_compute].
  - eexists. by vm_compute.
Defined.

Lemma xread_deadline_refused_witness :
  let w := mkWorld (server ex_world1) (streams ex_world1) (wait_state ex_world1) false
             (1700000000 * 10 ^ 9 + 900 * 10 ^ 6) [] in
  handleXread ex_busy_env (xread_block (bs "200") (bs "q") (bs "0-0")) w =
  Ok (Some (createXreadResponse [mkStreamInfo (bs "q") [] 0]), with_new_data false w).
Proof.
  apply xread_deadline_refused; [by split|by split|by vm_compute|by vm_compute|by vm_compute].
Defined.
