(* ===== verification/XreadMemory.v ===== *)
(** * XREAD in memory (src/app/command.c, src/app/stream.c)

    The pointers of an XREAD call: the arrays of streams, keys and
    identifiers, the records that the reads fill and [freeStreamInfo] frees,
    and the handler from the request to the reply, against [Command.handleXread]. *)

From S2P Require Import Prelude Heap CLib Stream Resp Store Memory StreamMemory StoreMemory StoreLifecycle World Command Invariants Handlers.
From iris.proofmode Require Import proofmode.

(** ** Accesses *)

Definition load_info (p : ptr) (i : nat) : Mem obj CInfo :=
  o ← load p;
  match o with
  | OInfos cs => match cs !! i with Some c => mret c | None => undefined end
  | _ => undefined
  end.
Definition store_info (p : ptr) (i : nat) (c : CInfo) : Mem obj () :=
  o ← load p;
  match o with
  | OInfos cs => if (i <? length cs)%nat then Heap.store p (OInfos (<[i := c]> cs)) else undefined
  | _ => undefined
  end.

(** [command->data.array.elements[i]->data.string.str] *)
Definition arg_str (command : ptr) (i : nat) : Mem obj ptr :=
  v ← load_resp command;
  match v with
  | CArray elements _ =>
      e ← load_index elements i;
      v ← load_resp e;
      match v with
      | CString str _ | CError str _ | CBulk str _ => mret str
      | CInteger _ | CArray _ _ => undefined
      end
  | _ => undefined
  end.

(** The strings of the elements [i], ..., [i + n - 1] of an array. *)
Fixpoint load_strings (p : ptr) (i n : nat) : Mem obj (list bytes) :=
  match n with
  | O => mret []
  | S n' => q ← load_index p i; d ← load_chars q; ds ← load_strings p (S i) n'; mret (d :: ds)
  end.

(** ** The streams that are read *)

Section Operations.
Context (limit : nat).

(** One iteration of the loop of [processStreamReads] and [recheckStreams]. *)
Definition read_stream (now : Z) (infos : ptr) (i : nat) (stream key id : ptr) : Mem obj () :=
  k ← strdup key;
  c ← load_info infos i;
  _ ← store_info infos i (mkCInfo k (i_entries c) (i_count c));
  match stream with
  | Some _ =>
      text ← load_chars id;
      r ← streamRead limit now stream text;
      match r with
      | Some (es, n) => store_info infos i (mkCInfo k es (Z.of_nat n))
      | None => store_info infos i (mkCInfo k NULL (i_count c))
      end
  | None => store_info infos i (mkCInfo k NULL 0)
  end.

Fixpoint read_streams (now : Z) (streams keys ids infos : ptr) (i n : nat) (hasData : bool) : Mem obj bool :=
  match n with
  | O => mret hasData
  | S n' =>
      stream ← load_index streams i;
      key ← load_index keys i;
      id ← load_index ids i;
      _ ← read_stream now infos i stream key id;
      c ← load_info infos i;
      read_streams now streams keys ids infos (S i) n'
        (if bool_decide (stream ≠ NULL) && (0 <? i_count c)%Z then true else hasData)
  end.

(** The fresh records: no pointer in them is read before it is written, but a
    count may be. *)
Definition malloc_infos (j : junk) (n : nat) : Mem obj ptr :=
  malloc (OInfos (replicate n (mkCInfo NULL NULL (junk_int j)))).

Definition processStreamReads (now : Z) (j : junk) (streams keys ids : ptr) (numStreams : nat) : Mem obj (ptr * bool) :=
  if bool_decide (streams = NULL ∨ keys = NULL ∨ ids = NULL ∨ numStreams = 0%nat) then mret (NULL, false)
  else
    infos ← malloc_infos j numStreams;
    hasData ← read_streams now streams keys ids infos 0 numStreams false;
    mret (infos, hasData).

(** The same loop, which does not look at the counts. *)
Definition recheckStreams (now : Z) (j : junk) (streams keys ids : ptr) (numStreams : nat) : Mem obj ptr :=
  infos ← malloc_infos j numStreams;
  _ ← read_streams now streams keys ids infos 0 numStreams false;
  mret infos.

Definition freeStreamInfo (streams : ptr) (numStreams : nat) : Mem obj () :=
  _ ← for_from 0 numStreams (λ i,
        c ← load_info streams i;
        _ ← free (i_key c);
        free_entries limit (i_entries c));
  free streams.

(** ** The handler *)

(** What [createXreadResponse] reads of a record: of the entries, the first.
    The buffers it makes and frees on the way are left out. *)
Definition response_info (c : CInfo) : Mem obj StreamInfo :=
  key ← load_chars (i_key c);
  match i_entries c with
  | None => mret (mkStreamInfo key [] (i_count c))
  | Some _ =>
      if (i_count c =? 0)%Z then mret (mkStreamInfo key [] (i_count c))
      else
        e ← load_entry (i_entries c);
        id ← load_chars (e_id e);
        fields ← load_strings (e_fields e) 0 (e_numFields e);
        values ← load_strings (e_values e) 0 (e_numFields e);
        mret (mkStreamInfo key [mkStreamEntry id fields values] (i_count c))
  end.
Fixpoint response_infos (streams : ptr) (i n : nat) : Mem obj (list StreamInfo) :=
  match n with
  | O => mret []
  | S n' => c ← load_info streams i; x ← response_info c; xs ← response_infos streams (S i) n'; mret (x :: xs)
  end.
Definition createXreadResponse (streams : ptr) (numStreams : nat) : Mem obj ptr :=
  infos ← response_infos streams 0 numStreams;
  new_chars (Resp.createXreadResponse infos).

Definition parseXreadArgs (command : ptr) : Mem obj (option XreadArgs) :=
  v ← load_resp command;
  match v with
  | CArray _ len =>
      args ← mapM (λ i, s ← arg_str command i; load_chars s) (List.seq 1 (len - 1));
      let a := scan_xread 1 args (mkXreadArgs (-1) 0 false 0) in
      mret (if (streamsPos a =? -1)%Z then None
            else Some (mkXreadArgs (streamsPos a) (blockMs a) (blocking a)
                         (Z.to_nat ((Z.of_nat len - streamsPos a - 1) / 2))))
  | _ => undefined
  end.

(** The identifier to read after: [$] stands for the last entry. *)
Definition read_after (stream rawId : ptr) : Mem obj ptr :=
  raw ← load_chars rawId;
  if strncmp_eq raw (bs "$") 1 then
    match stream with
    | Some _ =>
        '(_, lastEntry) ← load_stream stream;
        match lastEntry with
        | Some _ => e ← load_entry lastEntry; strdup (e_id e)
        | None => new_chars (bs "0-0")
        end
    | None => new_chars (bs "0-0")
    end
  else strdup rawId.

(** One iteration of the loop of [setupXreadStreams]: the key stays the
    request's, the identifier is a copy. *)
Definition setup_stream (st command : ptr) (pos n : nat) (streams keys ids : ptr) (i : nat) : Mem obj () :=
  key ← arg_str command (pos + 1 + i);
  _ ← store_index keys i key;
  rawId ← arg_str command (pos + 1 + n + i);
  stream ← storeGetStream limit st key;
  _ ← store_index streams i stream;
  id ← read_after stream rawId;
  store_index ids i id.

Definition setupXreadStreams (st command : ptr) (a : XreadArgs) : Mem obj (ptr * ptr * ptr) :=
  let n := numStreams a in
  streams ← malloc (OPtrs (replicate n NULL));
  keys ← malloc (OPtrs (replicate n NULL));
  ids ← malloc (OPtrs (replicate n NULL));
  _ ← for_from 0 n (setup_stream st command (Z.to_nat (streamsPos a)) n streams keys ids);
  mret (streams, keys, ids).

Definition freeXreadArgs (streams keys ids : ptr) (numStreams : nat) : Mem obj () :=
  _ ← free streams;
  _ ← free keys;
  match ids with
  | Some _ => _ ← for_from 0 numStreams (λ i, id ← load_index ids i; free id); free ids
  | None => mret ()
  end.

(** [wait ms] is the blocking call with what the other threads do meanwhile to
    the memory; it answers whether to read again, and the time then. *)
Context (wait : Z → Mem obj (bool * Z)).

Definition handleXread (now : Z) (j : junk) (st command : ptr) : Mem obj ptr :=
  args ← parseXreadArgs command;
  match args with
  | None => new_chars (createError (bs "ERR syntax error"))
  | Some a =>
      let n := numStreams a in
      '(streams, keys, ids) ← setupXreadStreams st command a;
      '(infos, hasData) ← processStreamReads now j streams keys ids n;
      if blocking a && negb hasData then
        '(gotData, now') ← wait (blockMs a);
        _ ← freeStreamInfo infos n;
        if gotData : bool then
          infos ← recheckStreams now' j streams keys ids n;
          response ← createXreadResponse infos n;
          _ ← freeStreamInfo infos n;
          _ ← freeXreadArgs streams keys ids n;
          mret response
        else
          _ ← freeXreadArgs streams keys ids n;
          new_chars createNullBulkString
      else
        response ← createXreadResponse infos n;
        _ ← freeStreamInfo infos n;
        _ ← freeXreadArgs streams keys ids n;
        mret response
  end.
End Operations.

(** ** Ownership *)

(** A record and everything it points to. *)
Definition info_at (i : StreamInfo) (c : CInfo) : hPropI obj :=
  chars_at (si_key i) (i_key c) ∗ segment_at (si_entries i) (i_entries c) NULL ∗ <affine> ⌜i_count c = si_count i⌝.
Definition infos_at (infos : list StreamInfo) (p : ptr) : hPropI obj :=
  (<affine> ⌜infos = [] ∧ p = NULL⌝
   ∨ ∃ l cs, <affine> ⌜p = Some l⌝ ∗ l ↦ OInfos cs ∗ [∗ list] i;c ∈ infos;cs, info_at i c)%I.

(** A request, with the pointers to its strings in sight. *)
Fixpoint bulks_at (args : list bytes) (strs ps : list ptr) : hPropI obj :=
  match args, strs, ps with
  | [], [], [] => emp
  | a :: args, s :: strs, p :: ps =>
      (∃ l, <affine> ⌜p = Some l⌝ ∗ l ↦ OResp (CBulk s (length a))) ∗ bulks_at args strs ps
  | _, _, _ => False
  end%I.
Definition request_at (args : list bytes) (strs : list ptr) (p : ptr) : hPropI obj :=
  ∃ l le ps, <affine> ⌜p = Some l⌝ ∗ l ↦ OResp (CArray (Some le) (length args)) ∗ le ↦ OPtrs ps
    ∗ bulks_at args strs ps ∗ strings_at args strs.

(** A stream, by its reference, the key and the identifier to read after. *)
Abbreviation target := (option nat * bytes * bytes)%type.

(** The three arrays: pointers to streams of the heap, pointers to strings of
    the request, and identifiers of their own. *)
Definition place (ρ : places) (r : option nat) : ptr := match r with Some r => ρ r | None => NULL end.
Definition keys_of (args : list bytes) (strs : list ptr) (ts : list target) (kps : list ptr) : Prop :=
  Forall2 (λ t kp, (t.1.2, kp) ∈ zip args strs) ts kps.
Definition arrays_at (ρ : places) (ts : list target) (kps ips : list ptr) (ls lk ld : loc) : hPropI obj :=
  ls ↦ OPtrs (map (λ t, place ρ t.1.1) ts) ∗ lk ↦ OPtrs kps ∗ ld ↦ OPtrs ips ∗ strings_at (map snd ts) ips.
Definition targets_at (ρ : places) (args : list bytes) (strs : list ptr) (ts : list target) (s k d : ptr) : hPropI obj :=
  ∃ ls lk ld kps ips, <affine> ⌜s = Some ls ∧ k = Some lk ∧ d = Some ld ∧ keys_of args strs ts kps⌝
    ∗ arrays_at ρ ts kps ips ls lk ld.

(** ** The rules for typed accesses *)

Lemma wp_load_info l cs i c (Φ : CInfo → hPropI obj) :
  cs !! i = Some c → l ↦ OInfos cs -∗ (l ↦ OInfos cs -∗ Φ c) -∗ wp (load_info (Some l) i) Φ.
Proof.
  iIntros (Hi) "Hl HΦ". iApply wp_bind. iApply (wp_load with "Hl"). iIntros "Hl".
  rewrite Hi. iApply wp_ret. by iApply "HΦ".
Qed.

Lemma wp_store_info l cs i c (Φ : () → hPropI obj) :
  (i < length cs)%nat → l ↦ OInfos cs -∗ (l ↦ OInfos (<[i := c]> cs) -∗ Φ ()) -∗ wp (store_info (Some l) i c) Φ.
Proof.
  iIntros (Hi) "Hl HΦ". iApply wp_bind. iApply (wp_load with "Hl"). iIntros "Hl".
  rewrite (proj2 (Nat.ltb_lt _ _) Hi). by iApply (wp_store with "Hl").
Qed.

(** Loading a string through a pointer, which stays. *)
Lemma wp_load_string s p (Φ : bytes → hPropI obj) :
  chars_at s p -∗ (chars_at s p -∗ Φ (s ++ [NUL])) -∗ wp (load_chars p) Φ.
Proof.
  iIntros "(%l & -> & Hl) HΦ". iApply (wp_load_chars with "Hl"). iIntros "Hl". iApply "HΦ". iExists l. by iFrame.
Qed.

(** One string of an array. *)
Lemma strings_acc ss ps i s :
  ss !! i = Some s →
  strings_at ss ps ⊢ ∃ p, <affine> ⌜ps !! i = Some p⌝ ∗ chars_at s p ∗ (chars_at s p -∗ strings_at ss ps).
Proof.
  revert ps i. induction ss as [|s' ss IH]; intros [|p ps] [|i] Hi; try done; cbn in Hi; try (by iIntros "[]").
  - injection Hi as ->. iIntros "[Hs Hss]". iExists p. iFrame. iSplit; [done|]. iIntros "Hs". by iFrame.
  - iIntros "[Hs Hss]". iDestruct (IH ps i Hi with "Hss") as "(%q & %Hq & Hq & Hss)". iExists q. iFrame "Hq". iSplit; [done|].
    iIntros "Hq". iFrame. by iApply "Hss".
Qed.

Lemma strings_at_length ss ps : strings_at ss ps ⊢ <affine> ⌜length ss = length ps⌝ ∗ strings_at ss ps.
Proof.
  revert ps. induction ss as [|s ss IH]; intros [|p ps]; cbn; try (by iIntros "[]"); [by iIntros "?"; iFrame|].
  iIntros "[Hs Hss]". iDestruct (IH with "Hss") as "[%E Hss]". iFrame. by rewrite E.
Qed.

Lemma key_acc args strs k kp :
  (k, kp) ∈ zip args strs → strings_at args strs ⊢ chars_at k kp ∗ (chars_at k kp -∗ strings_at args strs).
Proof.
  intros (i & Hi)%list_elem_of_lookup. apply lookup_zip_with_Some in Hi as (? & ? & [= <- <-] & Hk & Hp).
  iIntros "Hss". iDestruct (strings_acc _ _ _ _ Hk with "Hss") as "(%q & %Hq & Hq & Hss)".
  rewrite Hp in Hq. injection Hq as <-. iFrame.
Qed.

Lemma wp_load_strings l ps ss dn rest (Φ : list bytes → hPropI obj) :
  ss = dn ++ rest →
  l ↦ OPtrs ps -∗ strings_at ss ps -∗ (l ↦ OPtrs ps -∗ strings_at ss ps -∗ Φ (map (λ s, s ++ [NUL]) rest)) -∗
  wp (load_strings (Some l) (length dn) (length rest)) Φ.
Proof.
  revert dn Φ. induction rest as [|s rest IH]; intros dn Φ E; cbn [load_strings length List.map]; iIntros "Hl Hss HΦ".
  - iApply wp_ret. iApply ("HΦ" with "Hl Hss").
  - iDestruct (strings_acc ss ps (length dn) s with "Hss") as "(%p & %Hp & Hs & Hss)"; [by rewrite E list_lookup_middle|].
    iApply wp_bind. iApply (wp_load_index with "Hl"); [done|]. iIntros "Hl".
    iApply wp_bind. iApply (wp_load_string with "Hs"). iIntros "Hs". iDestruct ("Hss" with "Hs") as "Hss".
    iApply wp_bind. rewrite -(Nat.add_1_r (length dn)) -(length_app dn [s]).
    iApply (IH with "Hl Hss"); [by rewrite E -assoc_L|]. iIntros "Hl Hss". iApply wp_ret. iApply ("HΦ" with "Hl Hss").
Qed.

(** ** Reading *)

(** What a target stands for when the streams are [h]. *)
Definition resolves (h : Store.heap) (t : target) (x : option Stream * bytes * bytes) : Prop :=
  x.1.2 = t.1.2 ∧ x.2 = t.2 ∧
  match t.1.1 with Some r => ∃ s, h !! r = Some s ∧ x.1.1 = Some s | None => x.1.1 = None end.
Definition info_of (now : Z) (j : junk) (x : option Stream * bytes * bytes) : StreamInfo :=
  Stream.read_stream now j x.1.1 x.1.2 x.2.

(** The streams are short enough for [limit] and hold C strings. *)
Record readable (limit : nat) (h : Store.heap) : Prop := {
  rd_short : short limit h;
  rd_nul_free : map_Forall (λ _ s, Forall nul_free (entries s)) h
}.

Lemma streamRead_nul now s d : Stream.streamRead now s (d ++ [NUL]) = Stream.streamRead now s d.
Proof. by rewrite /Stream.streamRead parseStreamID_nul. Qed.

(** Reading a stream of the heap, by any of the pointers to it. *)
Lemma wp_heap_read limit now ρ h r s text (Φ : option (ptr * nat) → hPropI obj) :
  readable limit h → h !! r = Some s →
  heap_at ρ h -∗
  (∀ q, heap_at ρ h -∗
     match Stream.streamRead now s text with
     | Some (es, count) => ∃ p, <affine> ⌜q = Some (p, Z.to_nat count) ∧ (0 ≤ count)%Z⌝ ∗ segment_at es p NULL
     | None => <affine> ⌜q = None⌝
     end -∗ Φ q) -∗
  wp (streamRead limit now (ρ r) text) Φ.
Proof.
  iIntros (Hh Hr) "Hh HΦ". destruct (Stream.streamRead now s text) as [[es count]|] eqn:E.
  - iDestruct (big_sepM_lookup_acc _ h r s Hr with "Hh") as "[Hs Hh]".
    iApply (wp_streamRead with "Hs"); [by apply (rd_short _ _ Hh _ _ Hr)|by apply (rd_nul_free _ _ Hh _ _ Hr)|done|].
    iIntros (p) "Hs Hp". iApply ("HΦ" with "(Hh Hs)"). iExists p. iFrame. iPureIntro. split; [done|].
    revert E. rewrite /Stream.streamRead. destruct (parseStreamID now text); [|done]. intros [= _ <-]. lia.
  - revert E. rewrite /Stream.streamRead /streamRead. destruct (parseStreamID now text); [done|]. intros _.
    iApply wp_ret. by iApply ("HΦ" with "Hh").
Qed.

Lemma heap_some ρ h r s : h !! r = Some s → heap_at ρ h ⊢ <affine> ⌜is_Some (ρ r)⌝ ∗ heap_at ρ h.
Proof.
  intros Hr. iIntros "Hh". iDestruct (big_sepM_lookup_acc _ h r s Hr with "Hh") as "[(%l & %hd & %tl & %E & Hs) Hh]".
  iSplit; [iPureIntro; by rewrite E|]. iApply "Hh". iExists l, hd, tl. by iFrame.
Qed.

Lemma wp_read_stream limit now j ρ h t x kp dp l cs i c (Φ : () → hPropI obj) :
  readable limit h → resolves h t x → cs !! i = Some c → i_count c = junk_int j →
  heap_at ρ h -∗ chars_at t.1.2 kp -∗ chars_at t.2 dp -∗ l ↦ OInfos cs -∗
  (∀ c', heap_at ρ h -∗ chars_at t.1.2 kp -∗ chars_at t.2 dp -∗ l ↦ OInfos (<[i := c']> cs) -∗
     info_at (info_of now j x) c' -∗ Φ ()) -∗
  wp (read_stream limit now (Some l) i (place ρ t.1.1) kp dp) Φ.
Proof.
  destruct t as [[r k] d], x as [[st k'] d']. rewrite /resolves /info_of. cbn [fst snd]. intros Hh (-> & -> & Hst) Hi Hc.
  iIntros "Hh Hk Hd Hl HΦ". iApply wp_bind. iApply (wp_strdup with "Hk"). iIntros (q) "Hk Hq".
  pose proof (lookup_lt_Some _ _ _ Hi) as Hlt.
  iApply wp_bind. iApply (wp_load_info with "Hl"); [done|]. iIntros "Hl".
  iApply wp_bind. iApply (wp_store_info with "Hl"); [done|]. iIntros "Hl". destruct r as [r|]; cbn [place] in *.
  - destruct Hst as (s & Hs & ->). iDestruct (heap_some ρ h r s with "Hh") as "[%Hp Hh]"; [done|]. destruct Hp as [lp Hp].
    rewrite Hp. iApply wp_bind. iApply (wp_load_string with "Hd"). iIntros "Hd". iApply wp_bind. rewrite -Hp.
    iApply (wp_heap_read with "Hh"); [done..|]. iIntros (a) "Hh Ha". rewrite streamRead_nul /Stream.read_stream.
    destruct (Stream.streamRead now s d) as [[es count]|].
    + iDestruct "Ha" as "(%p & %Ha & Hp)". destruct Ha as [-> Hn]. iApply (wp_store_info with "Hl"); [by rewrite length_insert|].
      rewrite list_insert_insert_eq. iIntros "Hl". iApply ("HΦ" with "Hh Hk Hd Hl"). iFrame. iPureIntro. cbn. lia.
    + iDestruct "Ha" as "->". iApply (wp_store_info with "Hl"); [by rewrite length_insert|].
      rewrite list_insert_insert_eq. iIntros "Hl". iApply ("HΦ" with "Hh Hk Hd Hl"). iFrame. iPureIntro. by cbn.
  - rewrite Hst. iApply (wp_store_info with "Hl"); [by rewrite length_insert|].
    rewrite list_insert_insert_eq. iIntros "Hl". iApply ("HΦ" with "Hh Hk Hd Hl"). iFrame. iPureIntro. by cbn.
Qed.

(** The test on a count that the loop makes. *)
Lemma counts_data now j ρ h t x c :
  resolves h t x → i_count c = si_count (info_of now j x) → (∀ r s, h !! r = Some s → is_Some (ρ r)) →
  bool_decide (place ρ t.1.1 ≠ NULL) && (0 <? i_count c)%Z = (0 <? si_count (info_of now j x))%Z.
Proof.
  intros (_ & _ & Hst) -> Hρ. destruct t as [[[r|] k] d]; cbn [fst place] in *.
  - destruct Hst as (s & Hs & _). destruct (Hρ r s Hs) as [l ->]. by rewrite bool_decide_true.
  - rewrite /info_of Hst. by case_bool_decide.
Qed.

Lemma heap_places_some ρ h : heap_at ρ h ⊢ <affine> ⌜∀ r s, h !! r = Some s → is_Some (ρ r)⌝ ∗ heap_at ρ h.
Proof.
  rewrite /heap_at. induction h as [|r s h Hr IH] using map_ind.
  - iIntros "Hh". iFrame. iPureIntro. intros r s Hr. by rewrite lookup_empty in Hr.
  - rewrite big_sepM_insert //. iIntros "[(%l & %hd & %tl & %E & Hs) Hh]". iDestruct (IH with "Hh") as "[%Hh Hh]". iFrame "Hh".
    iSplit; [|iExists l, hd, tl; by iFrame]. iPureIntro. intros r' s' [[<- _]|[_ Hr']]%lookup_insert_Some; [by rewrite E|by eapply Hh].
Qed.

Section Loop.
Context (limit : nat) (now : Z) (j : junk) (ρ : places) (h : Store.heap) (args : list bytes) (strs : list ptr).
Context (ts : list target) (kps ips : list ptr) (ls lk ld l : loc).
Context (Hread : readable limit h) (Hkeys : keys_of args strs ts kps).

(** What the loop reads and leaves. *)
Definition inputs : hPropI obj := arrays_at ρ ts kps ips ls lk ld ∗ strings_at args strs ∗ heap_at ρ h.

Lemma wp_read_rest rest dn xs hasData cs (Φ : bool → hPropI obj) :
  ts = dn ++ rest → Forall2 (resolves h) rest xs → length cs = length dn →
  inputs -∗ l ↦ OInfos (cs ++ replicate (length rest) (mkCInfo NULL NULL (junk_int j))) -∗
  (∀ cs', inputs -∗ l ↦ OInfos (cs ++ cs') -∗ ([∗ list] i;c ∈ map (info_of now j) xs;cs', info_at i c) -∗
     Φ (existsb (λ i, 0 <? si_count i)%Z (map (info_of now j) xs) || hasData)) -∗
  wp (read_streams limit now (Some ls) (Some lk) (Some ld) (Some l) (length dn) (length rest) hasData) Φ.
Proof using Hread Hkeys.
  intros E Hx. revert dn hasData cs Φ E. induction Hx as [|t x rest xs Ht Hx IH]; intros dn hasData cs Φ E Hcs;
    cbn [length read_streams replicate List.map existsb].
  { iIntros "Hin Hl HΦ". iApply wp_ret. iApply ("HΦ" with "Hin Hl"). done. }
  iIntros "((Hls & Hlk & Hld & Hids) & Hargs & Hh) Hl HΦ".
  assert (ts !! length dn = Some t) as Et by (by rewrite E list_lookup_middle).
  destruct (Forall2_lookup_l _ _ _ _ _ Hkeys Et) as (kp & Hkp & Hz).
  iDestruct (strings_acc _ _ (length dn) t.2 with "Hids") as "(%dp & %Hdp & Hd & Hids)"; [by rewrite list_lookup_fmap Et|].
  iDestruct (key_acc _ _ _ _ Hz with "Hargs") as "[Hk Hargs]". iDestruct (heap_places_some with "Hh") as "[%Hρ Hh]".
  iApply wp_bind. iApply (wp_load_index with "Hls"); [by rewrite list_lookup_fmap Et|]. iIntros "Hls".
  iApply wp_bind. iApply (wp_load_index with "Hlk"); [done|]. iIntros "Hlk".
  iApply wp_bind. iApply (wp_load_index with "Hld"); [done|]. iIntros "Hld".
  iApply wp_bind. iApply (wp_read_stream with "Hh Hk Hd Hl"); [done|done|by rewrite -Hcs list_lookup_middle|done|].
  iIntros (c) "Hh Hk Hd Hl (Hik & Hie & %Hc)". rewrite -{1}Hcs insert_app_r_alt // Nat.sub_diag. cbn [list_insert insert].
  iApply wp_bind. iApply (wp_load_info with "Hl"); [by rewrite -Hcs list_lookup_middle|]. iIntros "Hl".
  rewrite (counts_data _ _ _ _ _ _ _ Ht Hc Hρ) -(Nat.add_1_r (length dn)) -(length_app dn [t]).
  rewrite (cons_middle c cs) app_assoc.
  iApply (IH with "[Hls Hlk Hld Hd Hids Hk Hargs Hh] Hl"); [by rewrite E -app_assoc|by rewrite !length_app Hcs| |].
  - iFrame. iSplitL "Hd Hids"; [by iApply "Hids"|by iApply "Hargs"].
  - iIntros (cs') "Hin Hl Hcs". rewrite -app_assoc. iDestruct ("HΦ" $! (c :: cs') with "Hin Hl [Hik Hie Hcs]") as "HΦ".
    { cbn. by iFrame. }
    by destruct (0 <? si_count (info_of now j x))%Z, (existsb _ _).
Qed.
End Loop.

Lemma recheck_map now j xs : Stream.recheckStreams now j xs = map (info_of now j) xs.
Proof. apply map_ext. by intros [[st k] d]. Qed.

Section Reads.
Context (limit : nat) (now : Z) (j : junk) (ρ : places) (h : Store.heap) (args : list bytes) (strs : list ptr).
Context (ts : list target) (xs : list (option Stream * bytes * bytes)).
Context (Hread : readable limit h) (Hxs : Forall2 (resolves h) ts xs).

Lemma wp_read_all {A} s k d (f : ptr → bool → Mem obj A) (Φ : A → hPropI obj) :
  targets_at ρ args strs ts s k d -∗ strings_at args strs -∗ heap_at ρ h -∗
  (∀ p, targets_at ρ args strs ts s k d -∗ strings_at args strs -∗ heap_at ρ h -∗
     infos_at (Stream.recheckStreams now j xs) p -∗ wp (f p (Stream.processStreamReads now j xs).2) Φ) -∗
  wp (infos ← malloc_infos j (length ts); hasData ← read_streams limit now s k d infos 0 (length ts) false;
      f infos hasData) Φ.
Proof using Hread Hxs.
  iIntros "(%ls & %lk & %ld & %kps & %ips & %H & Ha) Hargs Hh HΦ". destruct H as (-> & -> & -> & Hk).
  iApply wp_bind. iApply wp_malloc. iIntros (l) "Hl". iApply wp_bind.
  iApply (wp_read_rest limit now j ρ h args strs ts kps ips ls lk ld l Hread Hk ts [] xs false [] with "[$Ha $Hargs $Hh] Hl"); [done..|].
  iIntros (cs) "(Ha & Hargs & Hh) Hl Hcs". rewrite /Stream.processStreamReads /= recheck_map orb_false_r.
  iApply ("HΦ" with "[Ha] Hargs Hh"); [iExists ls, lk, ld, kps, ips; by iFrame|]. iRight. iExists l, cs. by iFrame.
Qed.

Lemma wp_processStreamReads s k d (Φ : ptr * bool → hPropI obj) :
  targets_at ρ args strs ts s k d -∗ strings_at args strs -∗ heap_at ρ h -∗
  (∀ p, targets_at ρ args strs ts s k d -∗ strings_at args strs -∗ heap_at ρ h -∗
     infos_at (Stream.processStreamReads now j xs).1 p -∗ Φ (p, (Stream.processStreamReads now j xs).2)) -∗
  wp (processStreamReads limit now j s k d (length ts)) Φ.
Proof using Hread Hxs.
  iIntros "Ht Hargs Hh HΦ". rewrite /processStreamReads. destruct (decide (ts = [])) as [->|Hne].
  - apply Forall2_nil_inv_l in Hxs as ->. rewrite bool_decide_true; [|naive_solver]. iApply wp_ret.
    iApply ("HΦ" with "Ht Hargs Hh"). by iLeft.
  - iDestruct "Ht" as "(%ls & %lk & %ld & %kps & %ips & %H & Ha)". rewrite bool_decide_false.
    2: { destruct H as (-> & -> & -> & _). destruct ts; naive_solver. }
    iApply (wp_read_all with "[Ha] Hargs Hh"); [iExists ls, lk, ld, kps, ips; by iFrame|].
    iIntros (p) "Ht Hargs Hh Hp". iApply wp_ret. iApply ("HΦ" with "Ht Hargs Hh Hp").
Qed.

Lemma wp_recheckStreams s k d (Φ : ptr → hPropI obj) :
  targets_at ρ args strs ts s k d -∗ strings_at args strs -∗ heap_at ρ h -∗
  (∀ p, targets_at ρ args strs ts s k d -∗ strings_at args strs -∗ heap_at ρ h -∗
     infos_at (Stream.recheckStreams now j xs) p -∗ Φ p) -∗
  wp (recheckStreams limit now j s k d (length ts)) Φ.
Proof using Hread Hxs.
  iIntros "Ht Hargs Hh HΦ". iApply (wp_read_all s k d (λ p _, mret p) with "Ht Hargs Hh").
  iIntros (p) "Ht Hargs Hh Hp". iApply wp_ret. iApply ("HΦ" with "Ht Hargs Hh Hp").
Qed.
End Reads.

(** ** Freeing *)

Lemma wp_freeStreamInfo limit infos p (Φ : () → hPropI obj) :
  Forall (λ i, (length (si_entries i) < limit)%nat) infos →
  infos_at infos p -∗ Φ () -∗ wp (freeStreamInfo limit p (length infos)) Φ.
Proof.
  intros Hs. iIntros "[%H|(%l & %cs & -> & Hl & Hcs)] HΦ".
  { destruct H as [-> ->]. iApply wp_bind. iApply wp_ret. by iApply wp_free_null. }
  iApply wp_bind. iApply (wp_for (λ dn rest, ∃ cs1 cs2, <affine> ⌜cs = cs1 ++ cs2 ∧ length cs1 = length dn⌝
    ∗ l ↦ OInfos cs ∗ [∗ list] i;c ∈ rest;cs2, info_at i c)%I with "[Hl Hcs]").
  - intros dn i rest E Ψ. iIntros "(%cs1 & %cs2 & %H & Hl & Hcs) HΨ". destruct H as [-> Hlen].
    iDestruct (big_sepL2_cons_inv_l with "Hcs") as (c cs2') "(%Ec & (Hk & He & _) & Hcs)". subst cs2.
    iApply wp_bind. iApply (wp_load_info with "Hl"); [by rewrite -Hlen list_lookup_middle|]. iIntros "Hl".
    iApply wp_bind. iApply (wp_free_chars with "Hk"). iApply (wp_free_entries with "He").
    { rewrite Forall_forall in Hs. apply Hs. rewrite E. apply elem_of_app. right. by left. }
    iApply "HΨ". iExists (cs1 ++ [c]), cs2'. rewrite -app_assoc. iFrame. iPureIntro. by rewrite !length_app Hlen.
  - iExists [], cs. by iFrame.
  - iIntros "(%cs1 & %cs2 & %H & Hl & Hcs)". destruct cs2; [|by iDestruct "Hcs" as "[]"]. by iApply (wp_free with "Hl").
Qed.

Lemma wp_freeXreadArgs ρ args strs ts s k d (Φ : () → hPropI obj) :
  targets_at ρ args strs ts s k d -∗ Φ () -∗ wp (freeXreadArgs s k d (length ts)) Φ.
Proof.
  iIntros "(%ls & %lk & %ld & %kps & %ips & %H & Hls & Hlk & Hld & Hids) HΦ". destruct H as (-> & -> & -> & _).
  iApply wp_bind. iApply (wp_free with "Hls"). iApply wp_bind. iApply (wp_free with "Hlk"). iApply wp_bind.
  rewrite -(length_map snd ts).
  iApply (wp_for (λ (dn rest : list bytes), ∃ ps1 ps2, <affine> ⌜ips = ps1 ++ ps2 ∧ length ps1 = length dn⌝
    ∗ ld ↦ OPtrs ips ∗ strings_at rest ps2)%I with "[Hld Hids]").
  - intros dn i rest E Ψ. iIntros "(%ps1 & %ps2 & %H & Hl & Hs) HΨ". destruct H as [-> Hlen].
    destruct ps2 as [|p ps2]; [by iDestruct "Hs" as "[]"|]. iDestruct "Hs" as "[Hi Hs]".
    iApply wp_bind. iApply (wp_load_index with "Hl"); [by rewrite -Hlen list_lookup_middle|]. iIntros "Hl".
    iApply (wp_free_chars with "Hi"). iApply "HΨ". iExists (ps1 ++ [p]), ps2. rewrite -app_assoc. iFrame.
    iPureIntro. by rewrite !length_app Hlen.
  - iExists [], ips. by iFrame.
  - iIntros "(%ps1 & %ps2 & %H & Hl & Hs)". destruct ps2; [|by iDestruct "Hs" as "[]"]. by iApply (wp_free with "Hl").
Qed.

(** ** The reply *)

Lemma wp_response_info i c (Φ : StreamInfo → hPropI obj) :
  info_at i c -∗ (∀ x, <affine> ⌜xread_pieces x = xread_pieces i⌝ -∗ info_at i c -∗ Φ x) -∗ wp (response_info c) Φ.
Proof.
  destruct i as [key es count], c as [k e n]. rewrite /info_at /response_info. cbn [si_key si_entries si_count i_key i_entries i_count].
  iIntros "(Hk & He & ->) HΦ". iApply wp_bind. iApply (wp_load_string with "Hk"). iIntros "Hk".
  destruct es as [|x es]; cbn [segment_at].
  { iDestruct "He" as "->". iApply wp_ret. iApply ("HΦ" with "[] [$Hk]"); [|by iSplit].
    iPureIntro. by rewrite /xread_pieces /= cstr_app_nul. }
  iDestruct "He" as "(%next & He & Hes)".
  iDestruct (entry_open with "He") as "(%l & %i & %lf & %lv & %ps & %qs & %H & Hl & Hi & Hf & Hfs & Hv & Hvs)".
  destruct H as [-> Hlen]. destruct (count =? 0)%Z eqn:En.
  { iApply wp_ret. iApply ("HΦ" with "[]").
    { iPureIntro. by rewrite /xread_pieces /= cstr_app_nul En. }
    iFrame "Hk". iSplit; [|done]. iExists next. iFrame "Hes". iApply entry_open. iExists l, i, lf, lv, ps, qs. by iFrame. }
  iApply wp_bind. iApply (wp_load_entry with "Hl"). iIntros "Hl". cbn [e_id e_fields e_values e_numFields].
  iApply wp_bind. iApply (wp_load_string with "Hi"). iIntros "Hi".
  iApply wp_bind. iApply (wp_load_strings lf ps (fields x) [] with "Hf Hfs"); [done|]. iIntros "Hf Hfs".
  iApply wp_bind. rewrite Hlen. iApply (wp_load_strings lv qs (values x) [] with "Hv Hvs"); [done|]. iIntros "Hv Hvs".
  iApply wp_ret. iApply ("HΦ" with "[]").
  - iPureIntro. rewrite /xread_pieces /= cstr_app_nul En /entry_pieces /numFields /= cstr_app_nul length_map.
    do 6 f_equal. rewrite zip_with_fmap_l zip_with_fmap_r. f_equal. apply zip_with_ext; [|done..].
    intros f v. by rewrite !cstr_app_nul.
  - iFrame "Hk". iSplit; [|done]. iExists next. iFrame "Hes". iApply entry_open. iExists l, i, lf, lv, ps, qs. by rewrite Hlen; iFrame.
Qed.

Lemma wp_response_rest l cs infos rest dn (Φ : list StreamInfo → hPropI obj) :
  infos = dn ++ rest →
  l ↦ OInfos cs -∗ ([∗ list] i;c ∈ infos;cs, info_at i c) -∗
  (∀ xs, <affine> ⌜map xread_pieces xs = map xread_pieces rest⌝ -∗ l ↦ OInfos cs -∗
     ([∗ list] i;c ∈ infos;cs, info_at i c) -∗ Φ xs) -∗
  wp (response_infos (Some l) (length dn) (length rest)) Φ.
Proof.
  revert dn Φ. induction rest as [|i rest IH]; intros dn Φ E; cbn [length response_infos]; iIntros "Hl Hcs HΦ".
  - iApply wp_ret. by iApply ("HΦ" with "[] Hl Hcs").
  - assert (infos !! length dn = Some i) as Hi by (by rewrite E list_lookup_middle).
    iDestruct (big_sepL2_length with "Hcs") as %Hlen.
    destruct (lookup_lt_is_Some_2 cs (length dn)) as [c Hc]; [rewrite -Hlen; by eapply lookup_lt_Some|].
    iDestruct (big_sepL2_lookup_acc _ _ _ _ _ _ Hi Hc with "Hcs") as "[Hi Hcs]".
    iApply wp_bind. iApply (wp_load_info with "Hl"); [done|]. iIntros "Hl".
    iApply wp_bind. iApply (wp_response_info with "Hi"). iIntros (x) "%Hx Hi". iDestruct ("Hcs" with "Hi") as "Hcs".
    iApply wp_bind. rewrite -(Nat.add_1_r (length dn)) -(length_app dn [i]).
    iApply (IH with "Hl Hcs"); [by rewrite E -app_assoc|]. iIntros (xs) "%Hxs Hl Hcs".
    iApply wp_ret. iApply ("HΦ" with "[] Hl Hcs"). iPureIntro. cbn. by rewrite Hx Hxs.
Qed.

Lemma response_pieces infos xs :
  map xread_pieces xs = map xread_pieces infos → Resp.createXreadResponse xs = Resp.createXreadResponse infos.
Proof. intros E. by rewrite /Resp.createXreadResponse E -(length_map xread_pieces xs) E length_map. Qed.

Lemma wp_createXreadResponse infos p (Φ : ptr → hPropI obj) :
  infos_at infos p -∗ (∀ q, infos_at infos p -∗ chars_at (Resp.createXreadResponse infos) q -∗ Φ q) -∗
  wp (createXreadResponse p (length infos)) Φ.
Proof.
  iIntros "[%H|(%l & %cs & -> & Hl & Hcs)] HΦ".
  - destruct H as [-> ->]. iApply wp_bind. iApply wp_ret. iApply wp_new_chars. iIntros (q) "Hq".
    iApply ("HΦ" with "[]"); [by iLeft|]. iExists q. by iFrame.
  - iApply wp_bind. iApply (wp_response_rest l cs infos infos [] with "Hl Hcs"); [done|]. iIntros (xs) "%Hxs Hl Hcs".
    iApply wp_new_chars. iIntros (q) "Hq". rewrite (response_pieces _ _ Hxs).
    iApply ("HΦ" with "[Hl Hcs]"); [iRight; iExists l, cs; by iFrame|]. iExists q. by iFrame.
Qed.


(** ** Parsing the arguments *)

Lemma scan_xread_nul args i a : scan_xread i (map (λ s, s ++ [NUL]) args) a = scan_xread i args a.
Proof.
  revert i a. induction args as [args IH] using (induction_ltof1 _ length). unfold ltof in IH. intros i a.
  destruct args as [|s args]; [done|]. cbn [List.map scan_xread]. rewrite !strcasecmp_eq_nul.
  destruct (strcasecmp_eq s (bs "STREAMS")); [apply IH; cbn; lia|].
  destruct (strcasecmp_eq s (bs "BLOCK")); [|apply IH; cbn; lia].
  destruct args as [|v args]; [done|]. cbn [List.map]. rewrite atoi_nul. apply IH. cbn. lia.
Qed.

Lemma bulks_acc args strs ps i a :
  args !! i = Some a →
  bulks_at args strs ps ⊢ ∃ str l, <affine> ⌜strs !! i = Some str ∧ ps !! i = Some (Some l)⌝
    ∗ l ↦ OResp (CBulk str (length a)) ∗ (l ↦ OResp (CBulk str (length a)) -∗ bulks_at args strs ps).
Proof.
  revert strs ps i. induction args as [|b args IH]; intros [|s strs] [|p ps] [|i] Hi; try done; cbn in Hi |- *; try (by iIntros "[]").
  - injection Hi as ->. iIntros "[(%l & -> & Hl) Hs]". iExists s, l. iFrame. iSplit; [done|]. iIntros "Hl". iExists l. by iFrame.
  - iIntros "[Hp Hs]". iDestruct (IH strs ps i Hi with "Hs") as "(%str & %l & %H & Hl & Hs)". iExists str, l. iFrame "Hl".
    iSplit; [done|]. iIntros "Hl". iFrame. by iApply "Hs".
Qed.

(** The strings of a request, out of it. *)
Lemma request_acc args strs p : request_at args strs p ⊢ strings_at args strs ∗ (strings_at args strs -∗ request_at args strs p).
Proof.
  iIntros "(%l & %le & %ps & -> & Hl & Hle & Hb & Hs)". iFrame "Hs". iIntros "Hs". iExists l, le, ps. by iFrame.
Qed.

Lemma request_value args p : value_at (request args) p ⊣⊢ ∃ strs, request_at args strs p.
Proof.
  assert (∀ ps, values_at (map RespBulk args) ps ⊣⊢ ∃ strs, bulks_at args strs ps ∗ strings_at args strs) as Hv.
  { induction args as [|a args IH]; intros [|p' ps]; cbn [List.map values_at bulks_at].
    - iSplit; [iIntros "_"; by iExists []|iIntros "(%strs & Hb & Hs)"]. by destruct strs; [|iDestruct "Hb" as "[]"].
    - iSplit; [iIntros "[]"|]. iIntros "(%strs & Hb & _)". by destruct strs; iDestruct "Hb" as "[]".
    - iSplit; [iIntros "[]"|]. iIntros "(%strs & Hb & _)". by destruct strs; iDestruct "Hb" as "[]".
    - rewrite IH. iSplit.
      + iIntros "[(%l & -> & %str & Hl & Hstr) (%strs & Hb & Hs)]". iExists (str :: strs). cbn. by iFrame.
      + iIntros "(%strs & Hb & Hs)". destruct strs as [|str strs]; [by iDestruct "Hb" as "[]"|].
        iDestruct "Hb" as "[(%l & -> & Hl) Hb]". iDestruct "Hs" as "[Ha Hs]". iSplitL "Hl Ha"; [|iExists strs; by iFrame].
        iExists l. iSplit; [done|]. iExists str. by iFrame. }
  rewrite /request value_at_array length_map. setoid_rewrite Hv. iSplit.
  - iIntros "(%l & %le & %ps & -> & Hl & Hle & %strs & Hb & Hs)". iExists strs, l, le, ps. by iFrame.
  - iIntros "(%strs & %l & %le & %ps & -> & Hl & Hle & Hb & Hs)". iExists l, le, ps. by iFrame.
Qed.

Lemma wp_arg_str args strs p i a (Φ : ptr → hPropI obj) :
  args !! i = Some a →
  request_at args strs p -∗ (∀ q, <affine> ⌜(a, q) ∈ zip args strs⌝ -∗ request_at args strs p -∗ Φ q) -∗ wp (arg_str p i) Φ.
Proof.
  intros Hi. iIntros "(%l & %le & %ps & -> & Hl & Hle & Hb & Hs) HΦ".
  iDestruct (bulks_acc _ _ _ _ _ Hi with "Hb") as "(%str & %lb & %H & Hlb & Hb)". destruct H as [Hstr Hp].
  iApply wp_bind. iApply (wp_load_resp with "Hl"). iIntros "Hl".
  iApply wp_bind. iApply (wp_load_index with "Hle"); [done|]. iIntros "Hle".
  iApply wp_bind. iApply (wp_load_resp with "Hlb"). iIntros "Hlb". iApply wp_ret. iApply ("HΦ" with "[]").
  - iPureIntro. apply list_elem_of_lookup. exists i. by rewrite lookup_zip_with Hi Hstr.
  - iExists l, le, ps. iFrame. iSplit; [done|]. by iApply "Hb".
Qed.

Lemma wp_request_arg args strs p i a (Φ : bytes → hPropI obj) :
  args !! i = Some a →
  request_at args strs p -∗ (request_at args strs p -∗ Φ (a ++ [NUL])) -∗ wp (s ← arg_str p i; load_chars s) Φ.
Proof.
  iIntros (Hi) "Hp HΦ". iApply wp_bind. iApply (wp_arg_str with "Hp"); [done|]. iIntros (q) "%Hq Hp".
  iDestruct (request_acc with "Hp") as "[Hs Hp]". iDestruct (key_acc _ _ _ _ Hq with "Hs") as "[Ha Hs]".
  iApply (wp_load_string with "Ha"). iIntros "Ha". iApply "HΦ". iApply "Hp". by iApply "Hs".
Qed.

Lemma wp_load_args args strs p dn rest (Φ : list bytes → hPropI obj) :
  args = dn ++ rest →
  request_at args strs p -∗ (request_at args strs p -∗ Φ (map (λ s, s ++ [NUL]) rest)) -∗
  wp (mapM (λ i, s ← arg_str p i; load_chars s) (List.seq (length dn) (length rest))) Φ.
Proof.
  revert dn Φ. induction rest as [|a rest IH]; intros dn Φ E; cbn [length List.seq mapM List.map]; iIntros "Hp HΦ".
  - iApply wp_ret. by iApply "HΦ".
  - iApply wp_bind. iApply (wp_request_arg with "Hp"); [by rewrite E list_lookup_middle|]. iIntros "Hp".
    iApply wp_bind. rewrite -(Nat.add_1_r (length dn)) -(length_app dn [a]).
    iApply (IH with "Hp"); [by rewrite E -app_assoc|]. iIntros "Hp". iApply wp_ret. by iApply "HΦ".
Qed.

(** What [Command.parseXreadArgs] makes of a request. *)
Definition xread_args (args : list bytes) : option XreadArgs :=
  let a := scan_xread 1 (drop 1 args) (mkXreadArgs (-1) 0 false 0) in
  if (streamsPos a =? -1)%Z then None
  else Some (mkXreadArgs (streamsPos a) (blockMs a) (blocking a)
               (Z.to_nat ((Z.of_nat (length args) - streamsPos a - 1) / 2))).

Lemma parseXread_request args w : Command.parseXreadArgs (request args) w = Ok (xread_args args, w).
Proof.
  rewrite /Command.parseXreadArgs liftE. cbn [Replicas.command_elements request].
  by rewrite liftE skipn_map list_data_string_bulk length_map.
Qed.

Lemma wp_parseXreadArgs args strs p (Φ : option XreadArgs → hPropI obj) :
  request_at args strs p -∗ (request_at args strs p -∗ Φ (xread_args args)) -∗ wp (parseXreadArgs p) Φ.
Proof.
  iIntros "(%l & %le & %ps & -> & Hl & Hr) HΦ". iApply wp_bind. iApply (wp_load_resp with "Hl"). iIntros "Hl".
  iAssert (request_at args strs (Some l)) with "[Hl Hr]" as "Hp"; [iExists l, le, ps; by iFrame|].
  iApply wp_bind. destruct args as [|a args]; [iApply wp_ret; iApply wp_ret; by iApply "HΦ"|].
  cbn [length]. rewrite Nat.sub_succ Nat.sub_0_r.
  iApply (wp_load_args (a :: args) strs (Some l) [a] args with "Hp"); [done|]. iIntros "Hp".
  iApply wp_ret. rewrite scan_xread_nul. by iApply "HΦ".
Qed.

(** ** Setting up the arrays *)

(** What a pass of the loop makes of the arguments. *)
Definition start_of (h : Store.heap) (r : option nat) (raw : bytes) (s : option Stream) : Prop :=
  strncmp_eq raw (bs "$") 1 = true → match r with Some r => is_Some s ∧ h !! r = s | None => s = None end.
Definition target_of (args : list bytes) (a : XreadArgs) (w : World) (i : nat) (t : target) : Prop :=
  ∃ k raw s, args !! (Z.to_nat (streamsPos a) + 1 + i)%nat = Some k
    ∧ args !! (Z.to_nat (streamsPos a) + 1 + numStreams a + i)%nat = Some raw
    ∧ start_of (streams w) (Store.storeGetStream (store w) k) raw s
    ∧ t = (Store.storeGetStream (store w) k, k, start_id s raw).

(** Calls that leave the state alone, one after the other. *)
Lemma mapM_same {A B} (f : A → M B) (P : A → B → Prop) l w ys w' :
  (∀ x y w1, f x w = Ok (y, w1) → w1 = w ∧ P x y) → mapM f l w = Ok (ys, w') → w' = w ∧ Forall2 P l ys.
Proof.
  intros Hf. revert ys w'. induction l as [|x l IH]; intros ys w'; cbn [mapM].
  - intros [-> ->]%M_ret_ok. by split; [|constructor].
  - intros (y & w1 & [-> HP]%Hf & (ys' & w2 & [-> Hys]%IH & [-> ->]%M_ret_ok)%M_bind_ok)%M_bind_ok.
    by split; [|constructor].
Qed.

Lemma setup_targets args a w ts w' :
  Command.setupXreadStreams (request args) a w = Ok (ts, w') →
  w' = w ∧ Forall2 (target_of args a w) (List.seq 0 (numStreams a)) ts.
Proof.
  apply mapM_same. intros i t w1. rewrite argE. destruct (args !! _) as [k|] eqn:Ek; [|done].
  rewrite argE. destruct (args !! (_ + numStreams a + i)%nat) as [raw|] eqn:Er; [|done]. rewrite /store_stream getsE.
  intros H. assert (∃ s, start_of (streams w) (Store.storeGetStream (store w) k) raw s
    ∧ t = (Store.storeGetStream (store w) k, k, start_id s raw) ∧ w1 = w) as (s & Hs & -> & ->);
    [|split; [done|by exists k, raw, s]].
  revert H. rewrite /start_of /start_id. destruct (strncmp_eq raw (bs "$") 1).
  2: { intros [= <- <-]. by exists None. }
  destruct (Store.storeGetStream (store w) k) as [r|].
  - rewrite bindE bindE /deref_stream. destruct (streams w !! r) as [s|] eqn:E; [|done].
    intros [= <- <-]. exists (Some s). by split; [|split].
  - intros [= <- <-]. by exists None.
Qed.

Lemma follow_resolves ts w xs w' :
  follow ts w = Ok (xs, w') → w' = w ∧ Forall2 (resolves (streams w)) ts xs.
Proof.
  apply mapM_same. intros [[[r|] k] d] x w1.
  - rewrite bindE /deref_stream. destruct (streams w !! r) as [s|] eqn:E; [|done].
    intros [= <- <-]. split; [done|]. split_and!; [done..|by exists s].
  - intros [= <- <-]. done.
Qed.

Lemma wp_storeGetStream limit ρ h st k p kp (Φ : ptr → hPropI obj) :
  db_wf h st → (length (concat (table st)) < limit)%nat →
  store_at ρ st p -∗ chars_at k kp -∗
  (store_at ρ st p -∗ chars_at k kp -∗ Φ (place ρ (Store.storeGetStream st k))) -∗
  wp (storeGetStream limit p kp) Φ.
Proof.
  iIntros (Hdb Hlen) "Hst Hk HΦ". iApply wp_bind. iApply (wp_find with "Hst Hk"); [by apply wf_length_pos, Hdb|done|].
  iIntros (q) "Hk Hq". rewrite /Store.storeGetStream. destruct (lookup_entry st k) as [e|] eqn:El.
  2: { iDestruct "Hq" as "[-> Hst]". iApply wp_ret. iApply ("HΦ" with "Hst Hk"). }
  iDestruct "Hq" as "(%le & %lk & %c & %next & -> & Hle & Hlk & Hd & Hq)".
  iApply wp_bind. iApply (wp_load_store_entry with "Hle"). iIntros "Hle". cbn [se_value].
  iAssert (data_at ρ (Store.value e) c -∗ store_at ρ st p)%I with "[Hle Hlk Hq]" as "Hst".
  { iIntros "Hd". rewrite -{2}(set_entry_same st k e El). iApply "Hq". iApply store_entry_open. iExists le, lk, c. by iFrame. }
  destruct (Store.value e) as [d|r].
  - iDestruct "Hd" as "(%lc & -> & Hlc)". iApply wp_ret. iApply ("HΦ" with "(Hst [Hlc]) Hk"). iExists lc. by iFrame.
  - iDestruct "Hd" as "->". iApply wp_ret. iApply ("HΦ" with "(Hst [//]) Hk").
Qed.

Lemma wp_read_after ρ h r raw s rp (Φ : ptr → hPropI obj) :
  start_of h r raw s →
  heap_at ρ h -∗ chars_at raw rp -∗
  (∀ q, heap_at ρ h -∗ chars_at raw rp -∗ chars_at (start_id s raw) q -∗ Φ q) -∗
  wp (read_after (place ρ r) rp) Φ.
Proof.
  iIntros (Hs) "Hh Hr HΦ". iApply wp_bind. iApply (wp_load_string with "Hr"). iIntros "Hr".
  rewrite strncmp_eq_nul. revert Hs. rewrite /start_of /start_id. destruct (strncmp_eq raw (bs "$") 1); intros Hs.
  2: { iApply (wp_strdup with "Hr"). iIntros (q) "Hr Hq". iApply ("HΦ" with "Hh Hr Hq"). }
  specialize (Hs eq_refl). destruct r as [r|]; cbn [place].
  2: { rewrite Hs. iApply wp_new_chars. iIntros (q) "Hq". iApply ("HΦ" with "Hh Hr"). iExists q. by iFrame. }
  destruct Hs as [[x ->] Hx]. iDestruct (big_sepM_lookup_acc _ h r x Hx with "Hh") as "[Hx Hh]".
  iDestruct (stream_tail with "Hx") as "(%l & %head & %tail & -> & Hl & [[%H Hx]|(%e & %lt & %i & %f & %v & %n & %H & Hlt & Hi & Hx)])";
    destruct H as [Ht ->]; cbn [mbind option_bind]; rewrite Ht;
    iApply wp_bind; iApply (wp_load_stream with "Hl"); iIntros "Hl".
  - iApply wp_new_chars. iIntros (q) "Hq". iApply ("HΦ" with "(Hh (Hx Hl)) Hr"). iExists q. by iFrame.
  - iApply wp_bind. iApply (wp_load_entry with "Hlt"). iIntros "Hlt". cbn [e_id].
    iApply (wp_strdup (id e) with "[Hi]"); [iExists i; by iFrame|]. iIntros (q) "(%i' & %Ei & Hi) Hq". injection Ei as <-.
    iApply ("HΦ" with "(Hh (Hx Hl Hlt Hi)) Hr Hq").
Qed.

Section Setup.
Context (limit : nat) (ρ : places) (w : World) (args : list bytes) (strs : list ptr) (a : XreadArgs) (st c : ptr).
Context (Hdb : db_wf (streams w) (store w)) (Hlen : (length (concat (table (store w))) < limit)%nat).

(** The arrays when the targets [dn] are in and [m] are missing, with what
    the loop reads. *)
Definition filling (ls lk ld : loc) (dn : list target) (m : nat) : hPropI obj :=
  ∃ kps ips, <affine> ⌜keys_of args strs dn kps⌝
    ∗ ls ↦ OPtrs (map (λ t, place ρ t.1.1) dn ++ replicate m NULL)
    ∗ lk ↦ OPtrs (kps ++ replicate m NULL) ∗ ld ↦ OPtrs (ips ++ replicate m NULL) ∗ strings_at (map snd dn) ips
    ∗ store_at ρ (store w) st ∗ heap_at ρ (streams w) ∗ request_at args strs c.

Lemma fill_slot (ps : list ptr) m p i :
  length ps = i → <[i := p]> (ps ++ replicate (S m) NULL) = (ps ++ [p]) ++ replicate m NULL.
Proof. intros <-. by rewrite insert_app_r_alt // Nat.sub_diag -app_assoc. Qed.

Lemma wp_setup_stream ls lk ld dn t m (Φ : () → hPropI obj) :
  target_of args a w (length dn) t →
  filling ls lk ld dn (S m) -∗ (filling ls lk ld (dn ++ [t]) m -∗ Φ ()) -∗
  wp (setup_stream limit st c (Z.to_nat (streamsPos a)) (numStreams a) (Some ls) (Some lk) (Some ld) (length dn)) Φ.
Proof using Hdb Hlen.
  intros (k & raw & s & Hk & Hr & Hs & ->). iIntros "(%kps & %ips & %Hkps & Hls & Hlk & Hld & Hids & Hst & Hh & Hc) HΦ".
  iDestruct (strings_at_length with "Hids") as "[%Hi Hids]". rewrite length_map in Hi.
  pose proof (Forall2_length _ _ _ Hkps) as Hl.
  iApply wp_bind. iApply (wp_arg_str with "Hc"); [exact Hk|]. iIntros (kp) "%Hkp Hc".
  iApply wp_bind. iApply (wp_store_index with "Hlk"); [rewrite length_app Hl; cbn; lia|]. iIntros "Hlk".
  iApply wp_bind. iApply (wp_arg_str with "Hc"); [exact Hr|]. iIntros (rp) "%Hrp Hc".
  iApply wp_bind. iDestruct (request_acc with "Hc") as "[Hargs Hc]". iDestruct (key_acc _ _ _ _ Hkp with "Hargs") as "[Hk Hargs]".
  iApply (wp_storeGetStream with "Hst Hk"); [done|done|]. iIntros "Hst Hk". iDestruct ("Hargs" with "Hk") as "Hargs".
  iApply wp_bind. iApply (wp_store_index with "Hls"); [rewrite length_app length_map; cbn; lia|]. iIntros "Hls".
  iApply wp_bind. iDestruct (key_acc _ _ _ _ Hrp with "Hargs") as "[Hr Hargs]".
  iApply (wp_read_after with "Hh Hr"); [done|]. iIntros (q) "Hh Hr Hq". iDestruct ("Hargs" with "Hr") as "Hargs".
  iApply (wp_store_index with "Hld"); [rewrite length_app -Hi; cbn; lia|]. iIntros "Hld". iApply "HΦ".
  iExists (kps ++ [kp]), (ips ++ [q]). rewrite !map_app (fill_slot kps) // (fill_slot ips) // fill_slot ?length_map //.
  iFrame "Hls Hlk Hld Hst Hh". iSplit; [|iSplitL "Hids Hq"; [|by iApply "Hc"]].
  - iPureIntro. apply Forall2_app; [done|]. by constructor.
  - iApply strings_at_snoc. iFrame.
Qed.

Lemma wp_setupXreadStreams ts (Φ : ptr * ptr * ptr → hPropI obj) :
  Forall2 (target_of args a w) (List.seq 0 (numStreams a)) ts →
  store_at ρ (store w) st -∗ heap_at ρ (streams w) -∗ request_at args strs c -∗
  (∀ s k d, store_at ρ (store w) st -∗ heap_at ρ (streams w) -∗ request_at args strs c -∗
     targets_at ρ args strs ts s k d -∗ Φ (s, k, d)) -∗
  wp (setupXreadStreams limit st c a) Φ.
Proof using Hdb Hlen.
  intros Hts. pose proof (Forall2_length _ _ _ Hts) as Hn. rewrite length_seq in Hn.
  iIntros "Hst Hh Hc HΦ". iApply wp_bind. iApply wp_malloc. iIntros (ls) "Hls".
  iApply wp_bind. iApply wp_malloc. iIntros (lk) "Hlk". iApply wp_bind. iApply wp_malloc. iIntros (ld) "Hld".
  iApply wp_bind. rewrite {4}Hn.
  iApply (wp_for (λ dn rest, filling ls lk ld dn (length rest)) with "[Hst Hh Hc Hls Hlk Hld]").
  - intros dn t rest E Ψ. iIntros "Hf HΨ". iApply (wp_setup_stream with "Hf"); [|done].
    destruct (Forall2_lookup_r _ _ _ (length dn) t Hts) as (i & Hi & Ht); [by rewrite E list_lookup_middle|].
    by apply lookup_seq in Hi as [-> _].
  - iExists [], []. rewrite Hn. iFrame. iPureIntro. constructor.
  - iIntros "(%kps & %ips & %Hk & Hls & Hlk & Hld & Hids & Hst & Hh & Hc)". rewrite !app_nil_r.
    iApply wp_ret. iApply ("HΦ" with "Hst Hh Hc"). iExists ls, lk, ld, kps, ips. by iFrame.
Qed.
End Setup.

(** ** The handler *)

(** The chains, the streams and the strings are within what the loops of the
    model go through. *)
Record within (limit : nat) (h : Store.heap) (st : RedisStore) : Prop := {
  wi_db : db_wf h st;
  wi_chains : (length (concat (table st)) < limit)%nat;
  wi_streams : readable limit h
}.
Definition world_at (limit : nat) (ρ : places) (w : World) (p : ptr) : hPropI obj :=
  <affine> ⌜within limit (streams w) (store w)⌝ ∗ store_at ρ (store w) p ∗ heap_at ρ (streams w).

Definition xread_wait (env : Env) (ms : Z) : M bool :=
  if (ms =? 0)%Z then waitForStreamDataInfinite env else waitForStreamData env ms.

(** [wait] does to the memory what the environment does to the state [w]
    while the call is blocked; a stream that is not freed stays where it is. *)
Definition waits (limit : nat) (env : Env) (wait : Z → Mem obj (bool * Z)) (p : ptr) (w : World) (ms : Z) : Prop :=
  ∀ b w' ρ, xread_wait env ms w = Ok (b, w') →
    world_at limit ρ w p ⊢ wp (wait ms) (λ r, ∃ ρ',
      <affine> ⌜r = (b, now_ms w') ∧ ∀ i, is_Some (streams w !! i) → is_Some (streams w' !! i) → ρ' i = ρ i⌝
      ∗ world_at limit ρ' w' p).

(** The outcomes of [Command.handleXread]. *)
Definition xread_outcome (env : Env) (args : list bytes) (w : World) (text : option bytes) (w' : World) : Prop :=
  match xread_args args with
  | None => text = Some (createError (bs "ERR syntax error")) ∧ w' = w
  | Some a => ∃ ts xs,
      Forall2 (target_of args a w) (List.seq 0 (numStreams a)) ts ∧ Forall2 (resolves (streams w)) ts xs ∧
      let '(infos, hasData) := Stream.processStreamReads (now_ms w) (memory env) xs in
      if blocking a && negb hasData then
        ∃ b, xread_wait env (blockMs a) w = Ok (b, w') ∧
          if b : bool then ∃ xs', Forall2 (resolves (streams w')) ts xs'
            ∧ text = Some (Resp.createXreadResponse (Stream.recheckStreams (now_ms w') (memory env) xs'))
          else text = Some createNullBulkString
      else w' = w ∧ text = Some (Resp.createXreadResponse infos)
  end.

Lemma xread_outcomes env args w text w' :
  Command.handleXread env (request args) w = Ok (text, w') → xread_outcome env args w text w'.
Proof.
  rewrite /Command.handleXread /xread_outcome bindE parseXread_request. destruct (xread_args args) as [a|].
  2: { by intros [-> ->]%M_ret_ok. }
  intros (ts & w1 & [-> Hts]%setup_targets & (xs & w2 & [-> Hxs]%follow_resolves & H)%M_bind_ok)%M_bind_ok.
  exists ts, xs. split; [done|]. split; [done|]. rewrite getsE in H.
  destruct (Stream.processStreamReads _ _ _) as [infos hasData]. destruct (blocking a && negb hasData).
  2: { by apply M_ret_ok in H as [-> ->]. }
  apply M_bind_ok in H as (b & w3 & Hw & H). exists b. destruct b.
  - apply M_bind_ok in H as (xs' & w4 & [-> Hxs']%follow_resolves & H). rewrite getsE in H.
    apply M_ret_ok in H as [-> ->]. split; [done|]. by exists xs'.
  - by apply M_ret_ok in H as [-> ->].
Qed.

Lemma read_short limit now j h ts xs :
  (0 < limit)%nat → readable limit h → Forall2 (resolves h) ts xs →
  Forall (λ i, (length (si_entries i) < limit)%nat) (Stream.recheckStreams now j xs).
Proof.
  intros Hpos Hh Hxs. rewrite recheck_map Forall_map. induction Hxs as [|t x ts xs (_ & _ & Ht) _ IH]; constructor; [|done].
  rewrite /info_of. destruct x as [[st k] d], (t.1.1) as [r|]; cbn [fst snd] in *; [|by subst st].
  destruct Ht as (s & Hs & ->). rewrite /Stream.read_stream /Stream.streamRead. destruct (parseStreamID now d) as [i|]; [|done].
  eapply Nat.le_lt_trans; [apply select_length|]. by apply (rd_short _ _ Hh _ _ Hs).
Qed.

Lemma wp_answer limit ρ args strs ts infos p s k d (Φ : ptr → hPropI obj) :
  Forall (λ i, (length (si_entries i) < limit)%nat) infos → length infos = length ts →
  infos_at infos p -∗ targets_at ρ args strs ts s k d -∗
  (∀ q, chars_at (Resp.createXreadResponse infos) q -∗ Φ q) -∗
  wp (response ← createXreadResponse p (length ts); _ ← freeStreamInfo limit p (length ts);
      _ ← freeXreadArgs s k d (length ts); mret response) Φ.
Proof.
  iIntros (Hs Hlen) "Hp Ht HΦ". iApply wp_bind. rewrite -{1}Hlen. iApply (wp_createXreadResponse with "Hp"). iIntros (q) "Hp Hq".
  iApply wp_bind. rewrite -{1}Hlen. iApply (wp_freeStreamInfo with "Hp"); [done|].
  iApply wp_bind. iApply (wp_freeXreadArgs with "Ht"). iApply wp_ret. by iApply "HΦ".
Qed.

(** The arrays after the wait: the streams that are still read are where they
    were. *)
Lemma targets_stay ρ ρ' h h' args strs ts xs xs' s k d :
  (∀ i, is_Some (h !! i) → is_Some (h' !! i) → ρ' i = ρ i) →
  Forall2 (resolves h) ts xs → Forall2 (resolves h') ts xs' →
  targets_at ρ args strs ts s k d ⊢ targets_at ρ' args strs ts s k d.
Proof.
  intros Hρ Hx Hx'. iIntros "(%ls & %lk & %ld & %kps & %ips & %H & Hls & Hr)". iExists ls, lk, ld, kps, ips. iFrame "Hr". iSplit; [done|].
  replace (map (λ t, place ρ' t.1.1) ts) with (map (λ t, place ρ t.1.1) ts); [done|].
  clear -Hρ Hx Hx'. revert xs' Hx'. induction Hx as [|t x ts xs Ht _ IH]; intros xs' Hx'; [done|].
  inversion Hx' as [|? x' ? xs'' Ht' Hx'']; subst. cbn [List.map]. f_equal; [|by eapply IH].
  destruct Ht as (_ & _ & Ht), Ht' as (_ & _ & Ht'). destruct (t.1.1) as [r|]; [|done]. cbn [place].
  destruct Ht as (y & Hy & _), Ht' as (y' & Hy' & _). rewrite Hρ //; by eexists.
Qed.

Section Handler.
Context (limit : nat) (env : Env) (wait : Z → Mem obj (bool * Z)) (st c : ptr).

(** From the first read on. *)
Lemma wp_xread_served ρ args strs a w ts xs text w' s k d p (Φ : ptr → hPropI obj) :
  waits limit env wait st w (blockMs a) → within limit (streams w) (store w) → length ts = numStreams a → Forall2 (resolves (streams w)) ts xs →
  (let '(infos, hasData) := Stream.processStreamReads (now_ms w) (memory env) xs in
   if blocking a && negb hasData then
     ∃ b, xread_wait env (blockMs a) w = Ok (b, w') ∧
       if b : bool then ∃ xs', Forall2 (resolves (streams w')) ts xs'
         ∧ text = Resp.createXreadResponse (Stream.recheckStreams (now_ms w') (memory env) xs')
       else text = createNullBulkString
   else w' = w ∧ text = Resp.createXreadResponse infos) →
  world_at limit ρ w st -∗ request_at args strs c -∗ targets_at ρ args strs ts s k d -∗
  infos_at (Stream.processStreamReads (now_ms w) (memory env) xs).1 p -∗
  (∀ ρ' q, world_at limit ρ' w' st -∗ request_at args strs c -∗ chars_at text q -∗ Φ q) -∗
  wp (if blocking a && negb (Stream.processStreamReads (now_ms w) (memory env) xs).2 then
        '(gotData, now') ← wait (blockMs a);
        _ ← freeStreamInfo limit p (numStreams a);
        if gotData : bool then
          infos ← recheckStreams limit now' (memory env) s k d (numStreams a);
          response ← createXreadResponse infos (numStreams a);
          _ ← freeStreamInfo limit infos (numStreams a);
          _ ← freeXreadArgs s k d (numStreams a);
          mret response
        else
          _ ← freeXreadArgs s k d (numStreams a);
          new_chars createNullBulkString
      else
        response ← createXreadResponse p (numStreams a);
        _ ← freeStreamInfo limit p (numStreams a);
        _ ← freeXreadArgs s k d (numStreams a);
        mret response) Φ.
Proof.
  intros Hwait Hw <- Hxs Hout. iIntros "Hw Hc Ht Hp HΦ". rewrite /Stream.processStreamReads in Hout |- *. cbn [fst snd] in *.
  assert (0 < limit)%nat as Hpos by (destruct (wi_chains _ _ _ Hw); lia).
  pose proof (read_short _ (now_ms w) (memory env) _ _ _ Hpos (wi_streams _ _ _ Hw) Hxs) as Hs.
  pose proof (Forall2_length _ _ _ Hxs) as Hn.
  assert (∀ now l, length l = length ts → length (Stream.recheckStreams now (memory env) l) = length ts) as Hrl
    by (intros now l <-; apply length_map).
  destruct (blocking a && negb _).
  2: { destruct Hout as [-> ->]. iApply (wp_answer with "Hp Ht"); [done|by apply Hrl|]. iIntros (q). iApply ("HΦ" with "Hw Hc"). }
  destruct Hout as (b & Eb & Hout). iApply wp_bind. iDestruct (Hwait _ _ _ Eb with "Hw") as "Hw".
  iApply (wp_wand with "Hw"). iIntros ([gotData now']) "(%ρ' & %H & Hw)". destruct H as [[= -> ->] Hρ].
  iApply wp_bind. rewrite -{1}(Hrl (now_ms w) xs) //. iApply (wp_freeStreamInfo with "Hp"); [done|]. destruct b.
  - destruct Hout as (xs' & Hxs' & ->). iDestruct (targets_stay with "Ht") as "Ht"; [done..|].
    iDestruct "Hw" as "(%Hw' & Hst & Hh)". iDestruct (request_acc with "Hc") as "[Hargs Hc]".
    iApply wp_bind. iApply (wp_recheckStreams with "Ht Hargs Hh"); [by apply Hw'|done|]. iIntros (p') "Ht Hargs Hh Hp".
    iApply (wp_answer with "Hp Ht"); [by eapply read_short; [|apply Hw'|]|by apply Hrl; rewrite (Forall2_length _ _ _ Hxs')|].
    iIntros (q). iApply ("HΦ" with "[$Hst $Hh //] (Hc Hargs)").
  - rewrite Hout. iApply wp_bind. iApply (wp_freeXreadArgs with "Ht"). iApply wp_new_chars. iIntros (q) "Hq".
    iApply ("HΦ" with "Hw Hc"). iExists q. by iFrame.
Qed.

Lemma wp_handleXread ρ args strs w text w' (Φ : ptr → hPropI obj) :
  (∀ a, xread_args args = Some a → waits limit env wait st w (blockMs a)) →
  xread_outcome env args w (Some text) w' →
  world_at limit ρ w st -∗ request_at args strs c -∗
  (∀ ρ' q, world_at limit ρ' w' st -∗ request_at args strs c -∗ chars_at text q -∗ Φ q) -∗
  wp (handleXread limit wait (now_ms w) (memory env) st c) Φ.
Proof.
  rewrite /xread_outcome. iIntros (Hwait Hout) "(%Hw & Hst & Hh) Hc HΦ". iApply wp_bind.
  iApply (wp_parseXreadArgs with "Hc"). iIntros "Hc". destruct (xread_args args) as [a|]; [specialize (Hwait a eq_refl)|].
  2: { destruct Hout as [[= ->] ->]. iApply wp_new_chars. iIntros (q) "Hq".
       iApply ("HΦ" with "[$Hst $Hh //] Hc"). iExists q. by iFrame. }
  destruct Hout as (ts & xs & Hts & Hxs & Hout). pose proof (Forall2_length _ _ _ Hts) as Hn. rewrite length_seq in Hn.
  iApply wp_bind. iApply (wp_setupXreadStreams with "Hst Hh Hc"); [apply Hw|apply Hw|done|].
  iIntros (s k d) "Hst Hh Hc Ht". iDestruct (request_acc with "Hc") as "[Hargs Hc]".
  iApply wp_bind. rewrite {1}Hn. iApply (wp_processStreamReads with "Ht Hargs Hh"); [apply Hw|done|].
  iIntros (p) "Ht Hargs Hh Hp". iApply (wp_xread_served with "[$Hst $Hh //] (Hc Hargs) Ht Hp HΦ"); [done|done|by rewrite Hn|done|].
  rewrite /Stream.processStreamReads in Hout. destruct (blocking a && negb _); [|by destruct Hout as [-> [= ->]]].
  destruct Hout as (b & Hb & Hout). exists b. split; [done|].
  destruct b; [destruct Hout as (xs' & Hx & [= ->]); by exists xs'|by injection Hout].
Qed.
End Handler.

(** ** The property *)


(** ** Stores that were built by operations are within reach *)

Lemma streamAdd_nul_free now s text fs vs r s' woke :
  in_u64 now → Stream.streamAdd now s text fs vs = Ok (r, s', woke) →
  Forall nul_free (entries s) → Forall nul_free (entries s').
Proof.
  intros Hnow. rewrite /Stream.streamAdd. destruct (parseStreamID now text) as [i|] eqn:Ep; [|by intros [= _ <- _]].
  pose proof (parseStreamID_valid now text i Hnow Ep) as [Hm Hs].
  intros (q & Hq & Ha)%bind_ok_inv Hn. assert (in_u64 q) as Hq'.
  { revert Hq. clear Ha. case_match; [apply getNextSequence_u64|by intros [= <-]]. }
  cbv zeta in Ha. destruct (Stream.isValidNextID _ _ _); cbn [negb] in Ha.
  - injection Ha as _ <- _. cbn [entries]. apply Forall_app. split; [done|]. constructor; [|done].
    split; [by apply (generateStreamID_nonul (mkStreamID (ms i) q))|].
    split; apply Forall_map, Forall_true; intros b; apply cstr_is_nonul.
  - case_match; by injection Ha as _ <- _.
Qed.

Lemma run_op_nul_free h st o h' st' :
  op_ok o → run_op (h, st) o = Ok (h', st') →
  map_Forall (λ _ s, Forall nul_free (entries s)) h → map_Forall (λ _ s, Forall nul_free (entries s)) h'.
Proof.
  intros Ho E Hh. assert (∀ h2, h2 ⊆ h → map_Forall (λ _ s, Forall nul_free (entries s)) h2) as Hsub.
  { intros h2 Hs r s Hr. by apply (Hh r s), (lookup_weaken _ _ _ _ Hr). }
  revert E. destruct o as [k v|k x|now j k id fs vs|now_s]; cbn [run_op op_ok] in *.
  - rewrite /Store.storeSet. set (st1 := if load_exceeded _ _ then _ else _).
    destruct (lookup_entry st1 k) as [e|]; intros [= <- _]; [|done].
    apply Hsub. destruct (Store.value e); [done|apply delete_subseteq].
  - by intros [= <- _].
  - intros ([[[r w] h1] st1] & E & [= <- _])%bind_ok_inv. revert E. rewrite /Store.storeStreamAdd.
    destruct (lookup_entry st k) as [e|]; [destruct (Store.value e) as [|ref]; [done|]|];
      intros (s & Hs%deref_ok_inv & ([[? s'] ?] & Ea & [= _ _ <- _])%bind_ok_inv)%bind_ok_inv.
    + apply map_Forall_insert_2; [|done]. eapply streamAdd_nul_free; [done..|by apply (Hh ref s)].
    + rewrite lookup_insert_eq in Hs. injection Hs as <-.
      apply map_Forall_insert_2; [eapply streamAdd_nul_free; [done..|constructor]|].
      apply map_Forall_insert_2; [constructor|done].
  - intros [= <- _]. apply Hsub, free_values_subseteq.
Qed.

Lemma run_ops_nul_free l h st h' st' :
  Forall op_ok l → run_ops (h, st) l = Ok (h', st') →
  map_Forall (λ _ s, Forall nul_free (entries s)) h → map_Forall (λ _ s, Forall nul_free (entries s)) h'.
Proof.
  intros Ho. revert h st. induction Ho as [|o l Ho _ IH]; intros h st; [by intros [= <- _]|].
  intros ([h1 st1] & E & E')%bind_ok_inv Hh. eapply IH; [done|]. by eapply run_op_nul_free.
Qed.

(** Every store that fewer than [limit] operations built. *)
Lemma built_within limit l h st :
  Forall op_ok l → (length l < limit)%nat → run_ops (∅, Store.createStore) l = Ok (h, st) → within limit h st.
Proof.
  intros Ho Hl E. assert (at_most 0 ∅ Store.createStore) as H0 by (split; [vm_compute; lia|apply map_Forall_empty]).
  destruct (at_most_short _ limit h st (run_ops_at_most _ _ _ _ _ _ createStore_wf Ho H0 E)) as [Hs Hlen]; [done|].
  split; [|done|split; [done|]].
  - pose proof (run_ops_implements ∅ Store.createStore l createStore_wf Ho) as H. rewrite E in H.
    destruct (spec_ops _ l); cbn in H; [|done..]. by destruct H as (? & ? & [= <- <-] & ? & _).
  - eapply run_ops_nul_free; [done..|apply map_Forall_empty].
Qed.

(** ** Witness *)

(** A request that is made of fresh blocks. *)
Fixpoint new_bulks (args : list bytes) : Mem obj (list ptr) :=
  match args with
  | [] => mret []
  | a :: args => s ← new_chars a; p ← malloc (OResp (CBulk s (length a))); ps ← new_bulks args; mret (p :: ps)
  end.
Definition new_request (args : list bytes) : Mem obj ptr :=
  ps ← new_bulks args; le ← malloc (OPtrs ps); malloc (OResp (CArray le (length args))).

Lemma wp_new_bulks args (Φ : list ptr → hPropI obj) :
  (∀ ps, values_at (map RespBulk args) ps -∗ Φ ps) -∗ wp (new_bulks args) Φ.
Proof.
  revert Φ. induction args as [|a args IH]; intros Φ; iIntros "HΦ".
  - iApply wp_ret. by iApply "HΦ".
  - iApply wp_bind. iApply wp_new_chars. iIntros (s) "Hs". iApply wp_bind. iApply wp_malloc. iIntros (p) "Hp".
    iApply wp_bind. iApply IH. iIntros (ps) "Hps". iApply wp_ret. iApply "HΦ". cbn. iFrame "Hps".
    iExists p. iSplit; [done|]. iExists (Some s). by iFrame.
Qed.

Lemma wp_new_request args (Φ : ptr → hPropI obj) :
  (∀ p, value_at (request args) p -∗ Φ p) -∗ wp (new_request args) Φ.
Proof.
  iIntros "HΦ". iApply wp_bind. iApply wp_new_bulks. iIntros (ps) "Hps". iApply wp_bind. iApply wp_malloc. iIntros (le) "Hle".
  iApply wp_malloc. iIntros (l) "Hl". iApply "HΦ". rewrite /request value_at_array length_map. iExists l, le, ps. by iFrame.
Qed.

(** A memory with a store and a request. *)
Lemma some_memory l h st args :
  Forall op_ok l → Forall op_even l → run_ops (∅, Store.createStore) l = Ok (h, st) →
  ∃ ρ p c m, (store_at ρ st p ∗ heap_at ρ h ∗ value_at (request args) c)%I m.
Proof.
  intros Ho He E. assert (at_most 0 ∅ Store.createStore) as H0 by (split; [vm_compute; lia|apply map_Forall_empty]).
  destruct (wp_run (s ← createStore; _ ← do_ops (S (length l)) s l; c ← new_request args; mret (s, c)) emp
    (λ r, ∃ ρ, store_at ρ st r.1 ∗ heap_at ρ h ∗ value_at (request args) r.2)%I ∅ ∅) as ([p c] & m & _ & _ & (ρ & Hm)).
  - iIntros "_". iApply wp_bind. iApply (wp_createStore (λ _, NULL)). iIntros (p) "Hst".
    iApply wp_bind. iApply (wp_do_ops _ _ 0 with "Hst []"); [apply createStore_wf|done|done|done|lia|done|by rewrite /heap_at big_sepM_empty|].
    iIntros (ρ) "Hst Hh". iApply wp_bind. iApply wp_new_request. iIntros (c) "Hc". iApply wp_ret. iExists ρ. iFrame.
  - done.
  - apply map_disjoint_empty_l.
  - by exists ρ, p, c, m.
Qed.

(** While the call waits, another client runs one operation. *)
Definition one_op_env (h : Store.heap) (st : RedisStore) : Env :=
  mkEnv (λ _, None) (λ _ _ d, Z.of_nat (length d)) Zeroed (λ _ w, Some (true, with_db h st w)).
Definition one_op_wait (limit : nat) (p : ptr) (o : store_op) (now : Z) (_ : Z) : Mem obj (bool * Z) :=
  _ ← do_op limit p o; mret (true, now).

Lemma one_op_waits limit p o h st w :
  op_ok o → op_even o → run_op (streams w, store w) o = Ok (h, st) → within limit h st →
  waits limit (one_op_env h st) (one_op_wait limit p o (now_ms w)) p w 0.
Proof.
  intros Ho He E Hw' b w' ρ. cbn. intros [= <- <-]. iIntros "(%Hw & Hst & Hh)". iApply wp_bind.
  iApply (wp_do_op with "Hst Hh"); [apply Hw|done|done|apply Hw|apply Hw|done|].
  iIntros (ρ') "%Hρ Hst Hh". iApply wp_ret. iExists ρ'. iFrame. iPureIntro.
  split; [|done]. split; [done|]. intros r Hr _. by apply Hρ.
Qed.

Definition ex_add : store_op := OpXadd 9 Zeroed (bs "s") (bs "6-1") [bs "g"] [bs "2"].
Definition ex_added : Store.heap * RedisStore :=
  match run_op ex_db ex_add with Ok d => d | _ => ex_db end.
Definition ex_reader : World := with_db ex_db.1 ex_db.2 ex_world.
Definition ex_xread : list bytes := map bs ["XREAD"; "BLOCK"; "0"; "STREAMS"; "s"; "$"]%string.

