(* ===== verification/Server.v ===== *)
(** * The server and its link to a master (app/server.c)

    Construction of the server record, the periodic sweep, and the loop that
    runs on a replica and executes what its master sends.  A connection's
    input is the list of what [recv] returns. *)
From S2P Require Import Prelude.
From S2P Require Import CLib.
From S2P Require Import Resp.
From S2P Require Import Store.
From S2P Require Import Config.
From S2P Require Import Replicas.
From S2P Require Import World.
From S2P Require Import Command.
From S2P Require Import Invariants.

(** ** Construction *)

Definition REPLICATION_ID : bytes := bs "8371b4fb1155b71f4a04d3e1bc3e18c4a990aeeb".

(** [strdup] of a [NULL] host is undefined. *)
Definition createServer (j : junk) (config : ServerConfig) : res RedisServer :=
  let ri := mkReplicationInfo None REPLICATION_ID 0 None in
  ri ← (if cfg_is_replica config then
          host ← deref (cfg_master_host config);
          Ok (mkReplicationInfo (Some (mkMasterInfo (cstr host) (cfg_master_port config) (junk_int j)))
                (replication_id ri) (repl_offset ri) (ri_replicas ri))
        else Ok (initReplicaList ri));
  Ok (mkRedisServer (cfg_bindaddr config) (cfg_port config) createStore (cfg_dir config)
        (cfg_dbfilename config) ri (mkServerStats 511 0 0 0 0)).

Definition serverCron : M unit :=
  modify (λ w, let '(h, st) := clearExpired (now_s w) (streams w) (store w) in with_db h st w).

(** ** The link to the master *)

(** What [recv] returns: some bytes, 0, an error that ends the connection, or
    [EAGAIN]. *)
Inductive received := Data (data : bytes) | Disconnected | Failed | WouldBlock.

Definition isValidCommand (command : RespValue) : bool :=
  match command with RespArray (RespString _ :: _) => true | _ => false end.

Definition isReplconfGetack (command : RespValue) : M bool :=
  name ← arg command 0;
  n ← argc command;
  if strcasecmp_eq name (bs "REPLCONF") && (1 <? n)%nat then
    sub ← arg command 1;
    mret (strcasecmp_eq sub (bs "GETACK"))
  else mret false.

Section Replica.
Context (env : Env).

Definition processCommand (command : RespValue) (fd : Z) : M unit :=
  '(response, _) ← executeCommand env 2 command (mkClient 0 false None);
  match response with
  | None => mret ()
  | Some response =>
      getack ← isReplconfGetack command;
      if getack : bool then send fd (cstr response) else mret ()
  end.

(** The inner loop of [handleReplicationCommands]: it ends only where the
    buffer holds no complete value, so an input that is not well formed keeps
    it busy for ever. *)
Fixpoint command_loop (fuel : nat) (fd : Z) (b : RespBuffer) : M RespBuffer :=
  match fuel with
  | O => lift Diverge
  | S fuel' =>
      '(status, command, b) ← lift (parseResp (memory env) b);
      if status =? RESP_INCOMPLETE then mret b
      else
        match command with
        | Some command =>
            if status =? RESP_OK then
              if isValidCommand command then
                cmd_bytes ← lift (calculateCommandSize command);
                _ ← processCommand command fd;
                _ ← modify (λ w, with_repl (add_offset cmd_bytes (repl w)) w);
                command_loop fuel' fd b
              else command_loop fuel' fd b
            else command_loop fuel' fd b
        | None => command_loop fuel' fd b
        end
  end.

(** The buffer on the stack has 4096 bytes, and a zero is stored after what
    was received: a full one is written past its end. *)
Fixpoint handleReplicationCommands (fd : Z) (b : RespBuffer) (input : list received) : M RespBuffer :=
  match input with
  | Data data :: input' =>
      if (4096 <=? length data)%nat then lift UB
      else
        let b := (appendRespBuffer true b data).2 in
        b ← command_loop (S (length (rb_buffer b))) fd b;
        handleReplicationCommands fd b input'
  | _ => mret b
  end.

End Replica.

(** ** The properties *)

(** Nothing the parser yields passes the test for a valid command, which asks
    for a simple string where the parser makes a bulk string. *)
Lemma parsed_not_valid v : parsed_shape v → isValidCommand v = false.
Proof. by intros [[s ->]|[[|s ss] ->]]. Qed.

Lemma command_loop_idle env fuel fd b w b' w' :
  command_loop env fuel fd b w = Ok (b', w') → w' = w.
Proof.
  revert b w. induction fuel as [|fuel IH]; intros b w H; [done|]. cbn [command_loop] in H.
  apply M_bind_ok in H as ([[st v] b1] & w1 & [Ep ->]%lift_ok & H).
  destruct (st =? RESP_INCOMPLETE); [by apply M_ret_ok in H as [_ ->]|].
  destruct v as [v|]; [|by eapply IH].
  destruct (Z.eqb_spec st RESP_OK) as [->|]; [|by eapply IH].
  apply parseResp_ok in Ep as (v0 & t & [= <-] & Hs & _). rw (parsed_not_valid v Hs) in H.
  by eapply IH.
Qed.

(** C39. A replica never applies anything its master sends: whatever arrives on
    the link, as long as the loop returns, the database, the replication
    offset and everything else are as before, and nothing was answered. *)
Theorem replica_ignores_master env fd b input w b' w' :
  handleReplicationCommands env fd b input w = Ok (b', w') → w' = w.
Proof.
  revert b w. induction input as [|[d| | |] input IH]; intros b w H; cbn [handleReplicationCommands] in H;
    try by apply M_ret_ok in H as [_ ->].
  case_match; [done|]. apply M_bind_ok in H as (b1 & w1 & H1 & H2).
  apply command_loop_idle in H1 as ->. by eapply IH.
Qed.

Lemma replica_ignores_master_witness :
  ∃ b' w', handleReplicationCommands ex_env 3 createRespBuffer
             [Data (resp_command [bs "SET"; bs "k"; bs "v"]); Data (resp_command [bs "PING"])] ex_world
           = Ok (b', w') ∧ rb_buffer b' = [] ∧ w' = ex_world.
Proof.
  destruct (handleReplicationCommands ex_env 3 createRespBuffer
    [Data (resp_command [bs "SET"; bs "k"; bs "v"]); Data (resp_command [bs "PING"])] ex_world)
    as [[b' w']| |] eqn:E.
  - exists b', w'. split; [done|]. split; [|by apply replica_ignores_master in E].
    apply (f_equal (λ r, match r with Ok (b, _) => rb_buffer b | _ => [NUL] end)) in E.
    vm_compute in E. by destruct b'.
  - apply (f_equal is_ok) in E. vm_compute in E. by case (Bool.diff_true_false E).
  - apply (f_equal is_ok) in E. vm_compute in E. by case (Bool.diff_true_false E).
Defined.

(** Bytes that do not begin a RESP array or bulk string make the replica
    spin: from such a buffer the loop never returns, with any fuel. *)
Theorem replica_spins_on_garbage env fuel fd b c rest w :
  rb_buffer b = c :: rest → (2 ≤ length rest)%nat → c ≠ "*"%char → c ≠ "$"%char →
  command_loop env fuel fd b w = Diverge.
Proof.
  intros Hb Hl H1 H2. induction fuel as [|fuel IH]; [done|]. cbn [command_loop].
  assert (parseResp (memory env) b = Ok (RESP_ERR, None, b)) as Hp.
  { rw /parseResp /rb_used Hb. rw (proj2 (Z.ltb_ge _ _)); [|cbn [length]; lia].
    cbn. by rw !decide_False. }
  by rw liftE Hp.
Qed.

Lemma replica_spins_on_garbage_witness :
  command_loop ex_env 1000 3 (mkRespBuffer (bs "+OK" ++ CRLF) 4096) ex_world = Diverge.
Proof. by eapply (replica_spins_on_garbage _ _ _ _ "+"%char (bs "OK" ++ CRLF)); [|cbn; lia| |]. Defined.

(** The server made from a configuration has an empty database, the
    configured settings and a replication record in order; but a replica whose
    master was given as two arguments, as the README does, has no host, and
    making its server is undefined. *)
Theorem createServer_outcome j c :
  (if cfg_is_replica c && negb (bool_decide (is_Some (cfg_master_host c)))
   then createServer j c = UB
   else ∃ s, createServer j c = Ok s
     ∧ repl_wf (repl_info s) ∧ db_wf ∅ (db s) ∧ is_master (repl_info s) = negb (cfg_is_replica c)
     ∧ port s = cfg_port c ∧ dir s = cfg_dir c ∧ rdb_filename s = cfg_dbfilename c)
  ∧ createServer j (parseConfig [bs "./fastkey"; bs "--replicaof"; bs "localhost"; bs "6379"]) = UB.
Proof.
  split; [|by vm_compute]. rw /createServer. destruct (cfg_is_replica c) eqn:Hr.
  - destruct (cfg_master_host c) as [host|]; [|done]. rw bool_decide_true; [|done]. cbn.
    eexists. split_and!; try done; apply createStore_wf.
  - cbn. eexists. split_and!; try done; apply createStore_wf.
Qed.
