(* ===== verification/ServerMemory.v ===== *)
(** * The configuration and the server in memory (src/app/config.c, server.c, replicas.c)

    What [parseConfig] and [createServer] allocate and what [freeConfig],
    [freeServer] and [freeReplicas] give back, pointer by pointer.  A server
    points to three of the strings of its configuration. *)

From S2P Require Import Prelude Heap CLib Store Config Replicas Server Memory StreamMemory StoreMemory.
From iris.proofmode Require Import proofmode.

(** ** Accesses *)

Record CConfig := mkCConfig {
  cc_dir : ptr; cc_dbfilename : ptr; cc_port : Z; cc_bindaddr : ptr;
  cc_master_host : ptr; cc_master_port : Z; cc_is_replica : bool
}.
Definition OfConfig (c : CConfig) : obj :=
  OConfig (cc_dir c) (cc_dbfilename c) (cc_port c) (cc_bindaddr c) (cc_master_host c) (cc_master_port c) (cc_is_replica c).
Definition load_config (p : ptr) : Mem obj CConfig :=
  o ← load p;
  match o with OConfig d f k b h mp r => mret (mkCConfig d f k b h mp r) | _ => undefined end.

Record CServer := mkCServer {
  cs_bindaddr : ptr; cs_dir : ptr; cs_filename : ptr; cs_db : ptr; cs_repl_info : ptr; cs_fd : Z; cs_port : Z
}.
Definition OfServer (s : CServer) : obj :=
  OServer (cs_bindaddr s) (cs_dir s) (cs_filename s) (cs_db s) (cs_repl_info s) (cs_fd s) (cs_port s).
Definition load_server (p : ptr) : Mem obj CServer :=
  o ← load p; match o with OServer b d f db r fd k => mret (mkCServer b d f db r fd k) | _ => undefined end.
Definition load_repl_info (p : ptr) : Mem obj (ptr * ptr * ptr * Z) :=
  o ← load p; match o with OReplInfo m r i x => mret (m, r, i, x) | _ => undefined end.
Definition load_master (p : ptr) : Mem obj (ptr * Z * Z) :=
  o ← load p; match o with OMaster h k fd => mret (h, k, fd) | _ => undefined end.
Definition load_replicas (p : ptr) : Mem obj (ptr * nat * nat) :=
  o ← load p; match o with OReplicas a n k => mret (a, n, k) | _ => undefined end.
Definition load_fds (p : ptr) : Mem obj (list Z) :=
  o ← load p; match o with OFds l => mret l | _ => undefined end.

(** [if (p) free(p)] *)
Definition free_if (p : ptr) : Mem obj () := match p with Some _ => free p | None => mret () end.
(** [strdup(argv[i])] *)
Definition dup_arg (argv : ptr) (i : nat) : Mem obj ptr := v ← load_index argv i; strdup v.

(** ** The configuration *)

(** The loop of [parseConfig]; every round moves [i] on. *)
Fixpoint parse_from (fuel argc i : nat) (argv config : ptr) : Mem obj () :=
  match fuel with
  | O => diverge
  | S fuel' =>
      if (argc <=? i)%nat then mret ()
      else
        arg ← load_index argv i;
        a ← load_chars arg;
        c ← load_config config;
        let more := (i + 1 <? argc)%nat in
        if strcmp_eq a (bs "--dir") && more then
          _ ← free (cc_dir c);
          d ← dup_arg argv (i + 1);
          _ ← store config (OConfig d (cc_dbfilename c) (cc_port c) (cc_bindaddr c) (cc_master_host c) (cc_master_port c) (cc_is_replica c));
          parse_from fuel' argc (i + 2) argv config
        else if strcmp_eq a (bs "--dbfilename") && more then
          _ ← free (cc_dbfilename c);
          f ← dup_arg argv (i + 1);
          _ ← store config (OConfig (cc_dir c) f (cc_port c) (cc_bindaddr c) (cc_master_host c) (cc_master_port c) (cc_is_replica c));
          parse_from fuel' argc (i + 2) argv config
        else if strcmp_eq a (bs "--port") && more then
          v ← load_index argv (i + 1);
          text ← load_chars v;
          _ ← store config (OConfig (cc_dir c) (cc_dbfilename c) (atoi text) (cc_bindaddr c) (cc_master_host c) (cc_master_port c) (cc_is_replica c));
          parse_from fuel' argc (i + 2) argv config
        else if strcmp_eq a (bs "--bind") && more then
          _ ← free (cc_bindaddr c);
          b ← dup_arg argv (i + 1);
          _ ← store config (OConfig (cc_dir c) (cc_dbfilename c) (cc_port c) b (cc_master_host c) (cc_master_port c) (cc_is_replica c));
          parse_from fuel' argc (i + 2) argv config
        else if strcmp_eq a (bs "--replicaof") && more then
          _ ← store config (OConfig (cc_dir c) (cc_dbfilename c) (cc_port c) (cc_bindaddr c) (cc_master_host c) (cc_master_port c) true);
          replicaof ← dup_arg argv (i + 1);
          text ← load_chars replicaof;
          _ ← match strchr text " "%char with
              | Some (host, space) =>
                  _ ← store replicaof (OChars (host ++ NUL :: drop 1 space ++ [NUL]));
                  h ← strdup replicaof;
                  store config (OConfig (cc_dir c) (cc_dbfilename c) (cc_port c) (cc_bindaddr c) h (atoi (drop 1 space)) true)
              | None => mret ()
              end;
          _ ← free replicaof;
          parse_from fuel' argc (i + 2) argv config
        else parse_from fuel' argc (i + 1) argv config
  end.

Definition parseConfig (argc : nat) (argv : ptr) : Mem obj ptr :=
  config ← malloc OFresh;
  dir ← new_chars (bs "/tmp");
  dbfilename ← new_chars (bs "dump.rdb");
  bindaddr ← new_chars (bs "127.0.0.1");
  _ ← store config (OConfig dir dbfilename 6379 bindaddr NULL 0 false);
  _ ← parse_from (S argc) argc 1 argv config;
  mret config.

Definition freeConfig (config : ptr) : Mem obj () :=
  match config with
  | None => mret ()
  | Some _ =>
      c ← load_config config;
      _ ← free (cc_dir c);
      _ ← free (cc_dbfilename c);
      _ ← free (cc_bindaddr c);
      _ ← free (cc_master_host c);
      free config
  end.

(** ** The server *)

Definition initReplicaList (repl_info : ptr) : Mem obj () :=
  rs ← malloc OFresh;
  '(m, _, i, x) ← load_repl_info repl_info;
  _ ← store repl_info (OReplInfo m rs i x);
  arr ← malloc (OFds []);
  store rs (OReplicas arr 0 (Z.to_nat INITIAL_REPLICA_CAPACITY)).

Definition createServer (j : junk) (config : ptr) : Mem obj ptr :=
  server ← malloc OFresh;
  c ← load_config config;
  repl_info ← malloc OFresh;
  _ ← store server (OServer (cc_bindaddr c) (cc_dir c) (cc_dbfilename c) NULL repl_info 0 (cc_port c));
  replication_id ← new_chars REPLICATION_ID;
  _ ← store repl_info (OReplInfo NULL NULL replication_id 0);
  _ ← (if cc_is_replica c then
         mi ← malloc OFresh;
         _ ← store repl_info (OReplInfo mi NULL replication_id 0);
         host ← strdup (cc_master_host c);
         store mi (OMaster host (cc_master_port c) (junk_int j))
       else initReplicaList repl_info);
  db ← createStore;
  _ ← store server (OServer (cc_bindaddr c) (cc_dir c) (cc_dbfilename c) db repl_info 0 (cc_port c));
  mret server.

(** The descriptors that are closed, in order. *)
Definition freeReplicas (repl_info : ptr) : Mem obj (list Z) :=
  '(m, rs, i, x) ← load_repl_info repl_info;
  '(arr, count, _) ← load_replicas rs;
  fds ← load_fds arr;
  _ ← free arr;
  _ ← free rs;
  _ ← store repl_info (OReplInfo m NULL i x);
  mret (take count fds).

Definition freeServer (limit : nat) (server : ptr) : Mem obj (list Z) :=
  match server with
  | None => mret []
  | Some _ =>
      s ← load_server server;
      _ ← free_if (cs_bindaddr s);
      _ ← match cs_db s with Some _ => freeStore limit (cs_db s) | None => mret () end;
      _ ← free_if (cs_dir s);
      _ ← free_if (cs_filename s);
      fds ← match cs_repl_info s with
            | Some _ =>
                '(mi, _, _, _) ← load_repl_info (cs_repl_info s);
                fds ← match mi with
                      | Some _ => '(host, _, _) ← load_master mi; _ ← free host; _ ← free mi; mret []
                      | None => freeReplicas (cs_repl_info s)
                      end;
                '(_, _, id, _) ← load_repl_info (cs_repl_info s);
                _ ← free id;
                _ ← free (cs_repl_info s);
                mret fds
            | None => mret []
            end;
      _ ← free server;
      mret ((if (0 <? cs_fd s)%Z then [cs_fd s] else []) ++ fds)
  end.

(** ** The main program

    [main.c], as far as its memory goes; the pool and the log have blocks of
    their own.  [init] and [pool] say whether [initServer] and
    [createThreadPool] succeed.  The loop that accepts connections ends with a
    signal. *)

Definition cleanup_resources (limit : nat) (g_server g_config : ptr) : Mem obj (list Z) :=
  fds ← match g_server with Some _ => freeServer limit g_server | None => mret [] end;
  _ ← match g_config with Some _ => freeConfig g_config | None => mret () end;
  mret fds.

Definition main (limit : nat) (j : junk) (argc : nat) (argv : ptr) (init pool : bool) : Mem obj Z :=
  g_config ← parseConfig argc argv;
  match g_config with
  | None => mret 1%Z
  | Some _ =>
      g_server ← createServer j g_config;
      match g_server with
      | None => _ ← freeConfig g_config; mret 1%Z
      | Some _ =>
          if negb init then _ ← freeServer limit g_server; _ ← freeConfig g_config; mret 1%Z
          else if negb pool then _ ← cleanup_resources limit g_server g_config; mret 1%Z
          else _ ← cleanup_resources limit g_server g_config; mret 0%Z
      end
  end.

(** ** Ownership *)

Definition config_at (c : ServerConfig) (p : ptr) : hPropI obj :=
  ∃ l d f b h, <affine> ⌜p = Some l⌝
    ∗ l ↦ OfConfig (mkCConfig d f (cfg_port c) b h (cfg_master_port c) (cfg_is_replica c))
    ∗ chars_at (cfg_dir c) d ∗ chars_at (cfg_dbfilename c) f ∗ chars_at (cfg_bindaddr c) b
    ∗ chars_or_null (cfg_master_host c) h.

(** Strings that nothing points to. *)
Fixpoint lost_at (ss : list bytes) : hPropI obj :=
  match ss with [] => emp | s :: ss => (∃ p, chars_at s p) ∗ lost_at ss end%I.

(** The hosts that a later [--replicaof] replaces. *)
Fixpoint lost_hosts (c : ServerConfig) (argv : list bytes) : list bytes :=
  match argv with
  | a :: ((v :: rest) as next) =>
      if strcmp_eq a (bs "--dir") then lost_hosts (with_dir v c) rest
      else if strcmp_eq a (bs "--dbfilename") then lost_hosts (with_dbfilename v c) rest
      else if strcmp_eq a (bs "--port") then lost_hosts (with_port v c) rest
      else if strcmp_eq a (bs "--bind") then lost_hosts (with_bindaddr v c) rest
      else if strcmp_eq a (bs "--replicaof") then
        match strchr v " "%char, cfg_master_host c with
        | Some _, Some host => host :: lost_hosts (with_replicaof v c) rest
        | _, _ => lost_hosts (with_replicaof v c) rest
        end
      else lost_hosts c next
  | _ => []
  end.

Definition master_at (mi : option MasterInfo) (p : ptr) : hPropI obj :=
  match mi with
  | Some mi => ∃ l h, <affine> ⌜p = Some l⌝ ∗ l ↦ OMaster h (mi_port mi) (mi_fd mi) ∗ chars_at (mi_host mi) h
  | None => <affine> ⌜p = NULL⌝
  end.
Definition replicas_at (rs : option Replicas) (p : ptr) : hPropI obj :=
  match rs with
  | Some rs => ∃ l la, <affine> ⌜p = Some l⌝
      ∗ l ↦ OReplicas (Some la) (length (replicas rs)) (Z.to_nat (replica_capacity rs)) ∗ la ↦ OFds (map r_fd (replicas rs))
  | None => <affine> ⌜p = NULL⌝
  end.
Definition repl_info_at (ri : ReplicationInfo) (p : ptr) : hPropI obj :=
  ∃ l m rs i, <affine> ⌜p = Some l⌝ ∗ l ↦ OReplInfo m rs i (repl_offset ri)
    ∗ chars_at (replication_id ri) i ∗ master_at (master_info ri) m ∗ replicas_at (ri_replicas ri) rs.

(** A server without the strings it shares, at [b], [d] and [f]. *)
Definition server_at (h : Store.heap) (s : RedisServer) (fd : Z) (b d f p : ptr) : hPropI obj :=
  ∃ l dbp rp, <affine> ⌜p = Some l⌝ ∗ l ↦ OfServer (mkCServer b d f dbp rp fd (port s))
    ∗ some_store h (db s) dbp ∗ repl_info_at (repl_info s) rp.

(** The descriptors of the replicas a server has. *)
Definition replica_fds (ri : ReplicationInfo) : list Z :=
  match master_info ri, ri_replicas ri with None, Some rs => map r_fd (replicas rs) | _, _ => [] end.

(** ** Typed accesses *)

Lemma wp_load_config l c (Φ : CConfig → hPropI obj) :
  l ↦ OfConfig c -∗ (l ↦ OfConfig c -∗ Φ c) -∗ wp (load_config (Some l)) Φ.
Proof. iIntros "Hl HΦ". iApply wp_bind. iApply (wp_load with "Hl"). iIntros "Hl". destruct c. iApply wp_ret. by iApply "HΦ". Qed.

Lemma wp_load_server l s (Φ : CServer → hPropI obj) :
  l ↦ OfServer s -∗ (l ↦ OfServer s -∗ Φ s) -∗ wp (load_server (Some l)) Φ.
Proof. iIntros "Hl HΦ". iApply wp_bind. iApply (wp_load with "Hl"). iIntros "Hl". destruct s. iApply wp_ret. by iApply "HΦ". Qed.

Lemma wp_load_repl_info l m r i x (Φ : ptr * ptr * ptr * Z → hPropI obj) :
  l ↦ OReplInfo m r i x -∗ (l ↦ OReplInfo m r i x -∗ Φ (m, r, i, x)) -∗ wp (load_repl_info (Some l)) Φ.
Proof. iIntros "Hl HΦ". iApply wp_bind. iApply (wp_load with "Hl"). iIntros "Hl". iApply wp_ret. by iApply "HΦ". Qed.

(** ** Arguments *)

Lemma strings_at_lookup ss ps i s :
  ss !! i = Some s → strings_at ss ps ⊢ ∃ p, <affine> ⌜ps !! i = Some p⌝ ∗ chars_at s p ∗ (chars_at s p -∗ strings_at ss ps).
Proof.
  revert ps i. induction ss as [|s' ss IH]; intros [|p ps] i Hi; cbn in Hi |- *; try (by iIntros "[]"); [done|].
  iIntros "[Hs Hss]". destruct i as [|i].
  - injection Hi as <-. iExists p. iFrame "Hs". iSplit; [done|]. iIntros "$". done.
  - iDestruct (IH ps i Hi with "Hss") as "(%q & %Hq & Hq & Hss)". iExists q. iFrame "Hq". iSplit; [done|].
    iIntros "Hq". iFrame "Hs". by iApply "Hss".
Qed.

Section Arguments.
Context (argv : list bytes).

Lemma wp_load_arg {A} i s ap (f : ptr → Mem obj A) (Φ : A → hPropI obj) :
  argv !! i = Some s → array_at argv ap -∗
  (∀ l, l ↦ OChars (s ++ [NUL]) -∗ (l ↦ OChars (s ++ [NUL]) -∗ array_at argv ap) -∗ wp (f (Some l)) Φ) -∗
  wp (load_index ap i ≫= f) Φ.
Proof.
  iIntros (Hi) "(%la & %ps & -> & Hl & Hps) HΦ".
  iDestruct (strings_at_lookup _ _ _ _ Hi with "Hps") as "(%p & %Hp & (%l & -> & Hs) & Hps)".
  iApply wp_bind. iApply (wp_load_index with "Hl"); [done|]. iIntros "Hl". iApply ("HΦ" with "Hs"). iIntros "Hs".
  iExists la, ps. iFrame "Hl". iSplit; [done|]. iApply "Hps". iExists l. by iFrame.
Qed.

Lemma wp_dup_arg i s ap (Φ : ptr → hPropI obj) :
  argv !! i = Some s → array_at argv ap -∗ (∀ q, array_at argv ap -∗ chars_at (cstr s) q -∗ Φ q) -∗ wp (dup_arg ap i) Φ.
Proof.
  iIntros (Hi) "Ha HΦ". iApply (wp_load_arg with "Ha"); [done|]. iIntros (l) "Hl Ha".
  iApply (wp_strdup s with "[Hl]"); [iExists l; by iFrame|]. iIntros (q) "(%l' & %E & Hl) Hq". injection E as <-.
  iApply ("HΦ" with "(Ha Hl) Hq").
Qed.
End Arguments.

Lemma strcmp_eq_nul_l a b : strcmp_eq (a ++ [NUL]) b = strcmp_eq a b.
Proof. by rewrite /strcmp_eq cstr_app_nul. Qed.
Lemma strchr_dup v c : strchr (cstr v ++ [NUL]) c = strchr v c.
Proof. by rewrite /strchr cstr_app_nul cstr_idemp. Qed.

Lemma lost_at_app l1 l2 : lost_at l1 ∗ lost_at l2 ⊢ lost_at (l1 ++ l2).
Proof. induction l1 as [|s l1 IH]; cbn; [by iIntros "[_ ?]"|]. iIntros "[[$ H1] H2]". iApply IH. iFrame. Qed.

(** ** The configuration *)

(** [--replicaof], after the flag is set. *)
Lemma wp_set_master c v d f b h l lr (Φ : () → hPropI obj) :
  l ↦ OfConfig (mkCConfig d f (cfg_port c) b h (cfg_master_port c) true) -∗
  chars_or_null (cfg_master_host c) h -∗ lr ↦ OChars (cstr v ++ [NUL]) -∗
  (∀ h', l ↦ OfConfig (mkCConfig d f (cfg_port c) b h' (cfg_master_port (with_replicaof v c)) true) -∗
     chars_or_null (cfg_master_host (with_replicaof v c)) h' -∗
     lost_at (match strchr v " "%char, cfg_master_host c with Some _, Some host => [host] | _, _ => [] end) -∗
     (∃ t, chars_at t (Some lr)) -∗ Φ ()) -∗
  wp (match strchr (cstr v ++ [NUL]) " "%char with
      | Some (host, space) =>
          _ ← store (Some lr) (OChars (host ++ NUL :: drop 1 space ++ [NUL]));
          h' ← strdup (Some lr);
          store (Some l) (OConfig d f (cfg_port c) b h' (atoi (drop 1 space)) true)
      | None => mret ()
      end) Φ.
Proof.
  iIntros "Hl Hh Hr HΦ". rewrite strchr_dup /with_replicaof. destruct (strchr v " "%char) as [[host space]|] eqn:E.
  - assert (NUL ∉ host) as Hn.
    { rewrite /strchr in E. apply split_at_some in E as (E & _). intros Hin. apply (cstr_is_nonul v). rewrite E. set_solver. }
    iApply wp_bind. iApply (wp_store with "Hr"). iIntros "Hr". rewrite app_comm_cons app_assoc.
    iApply wp_bind. iApply (wp_strdup _ (Some lr) with "[Hr]"); [iExists lr; by iFrame|]. iIntros (q) "Hr Hq".
    rewrite cstr_at_nul //. iApply (wp_store with "Hl"). iIntros "Hl". iApply ("HΦ" $! q with "Hl Hq [Hh]").
    + destruct (cfg_master_host c) as [old|]; cbn; [|done]. iSplit; [|done]. by iExists h.
    + by iExists _.
  - iApply wp_ret. iApply ("HΦ" $! h with "Hl Hh []"); [by destruct (cfg_master_host c)|]. iExists (cstr v), lr. by iFrame.
Qed.

Lemma parse_args_cons c a v rest :
  parse_args c (a :: v :: rest) =
  if strcmp_eq a (bs "--dir") then parse_args (with_dir v c) rest
  else if strcmp_eq a (bs "--dbfilename") then parse_args (with_dbfilename v c) rest
  else if strcmp_eq a (bs "--port") then parse_args (with_port v c) rest
  else if strcmp_eq a (bs "--bind") then parse_args (with_bindaddr v c) rest
  else if strcmp_eq a (bs "--replicaof") then parse_args (with_replicaof v c) rest
  else parse_args c (v :: rest).
Proof. reflexivity. Qed.

Lemma lost_hosts_cons c a v rest :
  lost_hosts c (a :: v :: rest) =
  if strcmp_eq a (bs "--dir") then lost_hosts (with_dir v c) rest
  else if strcmp_eq a (bs "--dbfilename") then lost_hosts (with_dbfilename v c) rest
  else if strcmp_eq a (bs "--port") then lost_hosts (with_port v c) rest
  else if strcmp_eq a (bs "--bind") then lost_hosts (with_bindaddr v c) rest
  else if strcmp_eq a (bs "--replicaof") then
    match strchr v " "%char, cfg_master_host c with Some _, Some host => [host] | _, _ => [] end
      ++ lost_hosts (with_replicaof v c) rest
  else lost_hosts c (v :: rest).
Proof. cbn [lost_hosts]. repeat case_match; reflexivity. Qed.

Lemma wp_parse_from argv ap fuel i c p (Φ : () → hPropI obj) :
  (length argv - i < fuel)%nat → array_at argv ap -∗ config_at c p -∗
  (array_at argv ap -∗ config_at (parse_args c (drop i argv)) p -∗ lost_at (lost_hosts c (drop i argv)) -∗ Φ ()) -∗
  wp (parse_from fuel (length argv) i ap p) Φ.
Proof.
  revert i c. induction fuel as [|fuel IH]; intros i c Hf; [lia|]. cbn [parse_from].
  destruct (Nat.leb_spec (length argv) i) as [Hi|Hi].
  { iIntros "Ha Hc HΦ". iApply wp_ret. rewrite drop_ge //. iApply ("HΦ" with "Ha Hc"). done. }
  destruct (lookup_lt_is_Some_2 argv i Hi) as [a Ea]. rewrite (drop_S _ _ _ Ea).
  iIntros "Ha (%l & %d & %f & %b & %h & -> & Hl & Hd & Hf & Hb & Hh) HΦ".
  iApply (wp_load_arg with "Ha"); [done|]. iIntros (la) "Hla Ha". iApply wp_bind. iApply (wp_load_chars with "Hla"). iIntros "Hla".
  iDestruct ("Ha" with "Hla") as "Ha". iApply wp_bind. iApply (wp_load_config with "Hl"). iIntros "Hl".
  cbn [cc_dir cc_dbfilename cc_port cc_bindaddr cc_master_host cc_master_port cc_is_replica]. rewrite !strcmp_eq_nul_l.
  destruct (Nat.ltb_spec (i + 1) (length argv)) as [Hm|Hm].
  2: { rewrite !andb_false_r. assert (drop (S i) argv = []) as E by (apply drop_ge; lia).
    iApply (IH (i + 1)%nat c with "Ha [Hl Hd Hf Hb Hh]"); [lia|iExists l, d, f, b, h; by iFrame|].
    rewrite Nat.add_1_r E. iIntros "Ha Hc Hlost". iApply ("HΦ" with "Ha Hc"). done. }
  destruct (lookup_lt_is_Some_2 argv (i + 1) Hm) as [v Ev]. rewrite !andb_true_r.
  assert (drop (S i) argv = v :: drop (i + 2) argv) as E by (rewrite -Nat.add_1_r (drop_S _ _ _ Ev); do 2 f_equal; lia).
  rewrite E parse_args_cons lost_hosts_cons.
  destruct (strcmp_eq a (bs "--dir")); [|destruct (strcmp_eq a (bs "--dbfilename")); [|destruct (strcmp_eq a (bs "--port"));
    [|destruct (strcmp_eq a (bs "--bind")); [|destruct (strcmp_eq a (bs "--replicaof"))]]]].
  - iApply wp_bind. iApply (wp_free_chars with "Hd"). iApply wp_bind. iApply (wp_dup_arg with "Ha"); [done|]. iIntros (q) "Ha Hq".
    iApply wp_bind. iApply (wp_store with "Hl"). iIntros "Hl".
    iApply (IH (i + 2)%nat (with_dir v c) with "Ha [Hl Hq Hf Hb Hh] HΦ"); [lia|iExists l, q, f, b, h; by iFrame].
  - iApply wp_bind. iApply (wp_free_chars with "Hf"). iApply wp_bind. iApply (wp_dup_arg with "Ha"); [done|]. iIntros (q) "Ha Hq".
    iApply wp_bind. iApply (wp_store with "Hl"). iIntros "Hl".
    iApply (IH (i + 2)%nat (with_dbfilename v c) with "Ha [Hl Hq Hd Hb Hh] HΦ"); [lia|iExists l, d, q, b, h; by iFrame].
  - iApply (wp_load_arg with "Ha"); [done|]. iIntros (lv) "Hlv Ha". iApply wp_bind. iApply (wp_load_chars with "Hlv"). iIntros "Hlv".
    iDestruct ("Ha" with "Hlv") as "Ha". iApply wp_bind. iApply (wp_store with "Hl"). iIntros "Hl". rewrite atoi_nul.
    iApply (IH (i + 2)%nat (with_port v c) with "Ha [Hl Hd Hf Hb Hh] HΦ"); [lia|iExists l, d, f, b, h; by iFrame].
  - iApply wp_bind. iApply (wp_free_chars with "Hb"). iApply wp_bind. iApply (wp_dup_arg with "Ha"); [done|]. iIntros (q) "Ha Hq".
    iApply wp_bind. iApply (wp_store with "Hl"). iIntros "Hl".
    iApply (IH (i + 2)%nat (with_bindaddr v c) with "Ha [Hl Hq Hd Hf Hh] HΦ"); [lia|iExists l, d, f, q, h; by iFrame].
  - iApply wp_bind. iApply (wp_store with "Hl"). iIntros "Hl". iApply wp_bind. iApply (wp_dup_arg with "Ha"); [done|].
    iIntros (q) "Ha (%lr & -> & Hr)". iApply wp_bind. iApply (wp_load_chars with "Hr"). iIntros "Hr".
    iApply wp_bind. iApply (wp_set_master with "Hl Hh Hr"). iIntros (h') "Hl Hh Hlost (%t & Hr)".
    iApply wp_bind. iApply (wp_free_chars with "Hr").
    iApply (IH (i + 2)%nat (with_replicaof v c) with "Ha [Hl Hd Hf Hb Hh]"); [lia| |].
    { iExists l, d, f, b, h'. rewrite /with_replicaof. destruct (strchr v " ") as [[host space]|]; by iFrame. }
    iIntros "Ha Hc Hl2". iApply ("HΦ" with "Ha Hc"). iApply lost_at_app. iFrame.
  - iApply (IH (i + 1)%nat c with "Ha [Hl Hd Hf Hb Hh]"); [lia|iExists l, d, f, b, h; by iFrame|].
    by rewrite Nat.add_1_r E.
Qed.

Lemma wp_parseConfig argv ap (Φ : ptr → hPropI obj) :
  array_at argv ap -∗
  (∀ p, array_at argv ap -∗ config_at (Config.parseConfig argv) p -∗ lost_at (lost_hosts default_config (drop 1 argv)) -∗ Φ p) -∗
  wp (parseConfig (length argv) ap) Φ.
Proof.
  iIntros "Ha HΦ". iApply wp_bind. iApply wp_malloc. iIntros (l) "Hl".
  iApply wp_bind. iApply wp_new_chars. iIntros (d) "Hd". iApply wp_bind. iApply wp_new_chars. iIntros (f) "Hf".
  iApply wp_bind. iApply wp_new_chars. iIntros (b) "Hb". iApply wp_bind. iApply (wp_store with "Hl"). iIntros "Hl".
  iApply wp_bind. iApply (wp_parse_from _ _ _ _ default_config with "Ha [-HΦ]"); [lia| |].
  { iExists l, (Some d), (Some f), (Some b), NULL. iFrame "Hl". iSplit; [done|].
    iSplitL "Hd"; [iExists d; by iFrame|]. iSplitL "Hf"; [iExists f; by iFrame|]. iSplitL; [iExists b; by iFrame|]. done. }
  iIntros "Ha Hc Hlost". iApply wp_ret. iApply ("HΦ" with "Ha Hc Hlost").
Qed.

Lemma wp_freeConfig c p (Φ : () → hPropI obj) : config_at c p -∗ Φ () -∗ wp (freeConfig p) Φ.
Proof.
  iIntros "(%l & %d & %f & %b & %h & -> & Hl & Hd & Hf & Hb & Hh) HΦ". iApply wp_bind.
  iApply (wp_load_config with "Hl"). iIntros "Hl". cbn [cc_dir cc_dbfilename cc_bindaddr cc_master_host].
  iApply wp_bind. iApply (wp_free_chars with "Hd"). iApply wp_bind. iApply (wp_free_chars with "Hf").
  iApply wp_bind. iApply (wp_free_chars with "Hb"). iApply wp_bind. iApply (wp_free_chars_or_null with "Hh"). by iApply (wp_free with "Hl").
Qed.

(** ** The server *)

Lemma wp_initReplicaList l i x (Φ : () → hPropI obj) :
  l ↦ OReplInfo NULL NULL i x -∗
  (∀ rs, l ↦ OReplInfo NULL rs i x -∗ replicas_at (Some (mkReplicas [] INITIAL_REPLICA_CAPACITY)) rs -∗ Φ ()) -∗
  wp (initReplicaList (Some l)) Φ.
Proof.
  iIntros "Hl HΦ". iApply wp_bind. iApply wp_malloc. iIntros (lr) "Hr".
  iApply wp_bind. iApply (wp_load_repl_info with "Hl"). iIntros "Hl". iApply wp_bind. iApply (wp_store with "Hl"). iIntros "Hl".
  iApply wp_bind. iApply wp_malloc. iIntros (la) "Ha". iApply (wp_store with "Hr"). iIntros "Hr".
  iApply ("HΦ" with "Hl"). iExists lr, la. by iFrame.
Qed.

Lemma wp_createServer j c s p (Φ : ptr → hPropI obj) :
  Server.createServer j c = Ok s → config_at c p -∗
  (∀ q l d f b h, <affine> ⌜p = Some l⌝ -∗
     l ↦ OfConfig (mkCConfig d f (cfg_port c) b h (cfg_master_port c) (cfg_is_replica c)) -∗
     chars_at (cfg_dir c) d -∗ chars_at (cfg_dbfilename c) f -∗ chars_at (cfg_bindaddr c) b -∗
     chars_or_null (cfg_master_host c) h -∗ server_at ∅ s 0 b d f q -∗ Φ q) -∗
  wp (createServer j p) Φ.
Proof.
  rewrite /Server.createServer. iIntros (Hs) "(%l & %d & %f & %b & %h & -> & Hl & Hd & Hf & Hb & Hh) HΦ".
  iApply wp_bind. iApply wp_malloc. iIntros (ls) "Hls". iApply wp_bind. iApply (wp_load_config with "Hl"). iIntros "Hl".
  cbn [cc_dir cc_dbfilename cc_port cc_bindaddr cc_master_host cc_master_port cc_is_replica].
  iApply wp_bind. iApply wp_malloc. iIntros (lr) "Hr". iApply wp_bind. iApply (wp_store with "Hls"). iIntros "Hls".
  iApply wp_bind. iApply wp_new_chars. iIntros (li) "Hi". iApply wp_bind. iApply (wp_store with "Hr"). iIntros "Hr". iApply wp_bind.
  apply bind_ok_inv in Hs as (ri & Hri & [= <-]).
  iAssert (wp (if cfg_is_replica c then _ else _) (λ _, chars_or_null (cfg_master_host c) h ∗ repl_info_at ri (Some lr)))%I
    with "[Hr Hh Hi]" as "Hrepl"; last first.
  { iApply (wp_wand with "Hrepl"). iIntros ([]) "[Hh Hri]". iApply wp_bind. iApply (wp_createStore (λ _, NULL)). iIntros (dbp) "Hdb".
    iApply wp_bind. iApply (wp_store with "Hls"). iIntros "Hls". iApply wp_ret.
    iApply ("HΦ" with "[//] Hl Hd Hf Hb Hh"). iExists ls, dbp, (Some lr). iFrame "Hls Hri". iSplit; [done|].
    iExists (λ _, NULL). iFrame "Hdb". by rewrite /heap_at big_sepM_empty. }
  destruct (cfg_is_replica c).
  - apply bind_ok_inv in Hri as (host & Hhost%deref_ok_inv & [= <-]). rewrite Hhost.
    iApply wp_bind. iApply wp_malloc. iIntros (lm) "Hm". iApply wp_bind. iApply (wp_store with "Hr"). iIntros "Hr".
    iApply wp_bind. iApply (wp_strdup with "Hh"). iIntros (q) "Hh Hq". iApply (wp_store with "Hm"). iIntros "Hm".
    iFrame "Hh". iExists lr, (Some lm), NULL, (Some li). iFrame "Hr". iSplit; [done|]. iSplitL "Hi"; [iExists li; by iFrame|].
    iSplitL; [|done]. iExists lm, q. by iFrame.
  - injection Hri as <-. iApply (wp_initReplicaList with "Hr"). iIntros (rs) "Hr Hrs". iFrame "Hh".
    iExists lr, NULL, rs, (Some li). iFrame "Hr Hrs". iSplit; [done|]. iSplitL; [iExists li; by iFrame|]. done.
Qed.

Lemma wp_freeReplicas l i x rs p (Φ : list Z → hPropI obj) :
  l ↦ OReplInfo NULL p i x -∗ replicas_at (Some rs) p -∗
  (l ↦ OReplInfo NULL NULL i x -∗ Φ (map r_fd (replicas rs))) -∗ wp (freeReplicas (Some l)) Φ.
Proof.
  iIntros "Hl (%lr & %la & -> & Hr & Ha) HΦ". iApply wp_bind. iApply (wp_load_repl_info with "Hl"). iIntros "Hl".
  iApply wp_bind. iApply wp_bind. iApply (wp_load with "Hr"). iIntros "Hr". iApply wp_ret.
  iApply wp_bind. iApply wp_bind. iApply (wp_load with "Ha"). iIntros "Ha". iApply wp_ret.
  iApply wp_bind. iApply (wp_free with "Ha"). iApply wp_bind. iApply (wp_free with "Hr").
  iApply wp_bind. iApply (wp_store with "Hl"). iIntros "Hl". iApply wp_ret.
  rewrite -(length_map r_fd) firstn_all. by iApply "HΦ".
Qed.

Lemma wp_free_if s p (Φ : () → hPropI obj) : chars_at s p -∗ Φ () -∗ wp (free_if p) Φ.
Proof. iIntros "(%l & -> & Hl) HΦ". by iApply (wp_free with "Hl"). Qed.

(** What [freeServer] does with the replication record. *)
Lemma wp_free_repl_info ri p (Φ : list Z → hPropI obj) :
  repl_wf ri → repl_info_at ri p -∗ Φ (replica_fds ri) -∗
  wp (match p with
      | Some _ =>
          '(mi, _, _, _) ← load_repl_info p;
          fds ← match mi with
                | Some _ => '(host, _, _) ← load_master mi; _ ← free host; _ ← free mi; mret []
                | None => freeReplicas p
                end;
          '(_, _, id, _) ← load_repl_info p;
          _ ← free id;
          _ ← free p;
          mret fds
      | None => mret []
      end) Φ.
Proof.
  rewrite /repl_wf /replica_fds. iIntros (Hwf) "(%l & %m & %rs & %i & -> & Hl & Hi & Hm & Hrs) HΦ".
  iApply wp_bind. iApply (wp_load_repl_info with "Hl"). iIntros "Hl".
  destruct (master_info ri) as [mi|], (ri_replicas ri) as [r|]; try done.
  - iDestruct "Hm" as "(%lm & %h & -> & Hm & Hh)". iDestruct "Hrs" as "->".
    iApply wp_bind. iApply wp_bind. iApply wp_bind. iApply (wp_load with "Hm"). iIntros "Hm". iApply wp_ret.
    iApply wp_bind. iApply (wp_free_chars with "Hh"). iApply wp_bind. iApply (wp_free with "Hm"). iApply wp_ret.
    iApply wp_bind. iApply (wp_load_repl_info with "Hl"). iIntros "Hl". iApply wp_bind. iApply (wp_free_chars with "Hi").
    iApply wp_bind. iApply (wp_free with "Hl"). by iApply wp_ret.
  - iDestruct "Hm" as "->". iApply wp_bind. iApply (wp_freeReplicas with "Hl Hrs"). iIntros "Hl".
    iApply wp_bind. iApply (wp_load_repl_info with "Hl"). iIntros "Hl". iApply wp_bind. iApply (wp_free_chars with "Hi").
    iApply wp_bind. iApply (wp_free with "Hl"). by iApply wp_ret.
Qed.

Lemma wp_freeServer limit h s fd b d f p (Φ : list Z → hPropI obj) :
  db_wf h (db s) → short limit h → (length (concat (table (db s))) < limit)%nat → repl_wf (repl_info s) →
  server_at h s fd b d f p -∗ chars_at (bindaddr s) b -∗ chars_at (dir s) d -∗ chars_at (rdb_filename s) f -∗
  Φ ((if (0 <? fd)%Z then [fd] else []) ++ replica_fds (repl_info s)) -∗ wp (freeServer limit p) Φ.
Proof.
  iIntros (Hdb Hs Hlen Hri) "(%l & %dbp & %rp & -> & Hl & (%ρ & Hst & Hh) & Hri) Hb Hd Hf HΦ".
  iApply wp_bind. iApply (wp_load_server with "Hl"). iIntros "Hl". cbn [cs_bindaddr cs_dir cs_filename cs_db cs_repl_info cs_fd].
  iApply wp_bind. iApply (wp_free_if with "Hb"). iDestruct (store_at_some with "Hst") as "[%Hp Hst]". destruct Hp as [ldb ->].
  iApply wp_bind. iApply (wp_freeStore _ _ h (db s) with "Hst Hh"); [by apply owns_live, Hdb|done|done|apply Hdb|].
  iApply wp_bind. iApply (wp_free_if with "Hd"). iApply wp_bind. iApply (wp_free_if with "Hf").
  iApply wp_bind. iApply (wp_free_repl_info with "Hri"); [done|].
  iApply wp_bind. iApply (wp_free with "Hl"). by iApply wp_ret.
Qed.

(** Freeing a configuration whose directory is not there. *)
Lemma freeConfig_dangling l ld c m :
  m !! l = Some (OfConfig c) → cc_dir c = Some ld → m !! ld = None → freeConfig (Some l) m = UB.
Proof.
  intros Hl Hd Hn. destruct c as [d f k b h mp r]. cbn in Hd. subst d.
  by rewrite /freeConfig /load_config /mbind /Mem_bind /load Hl /= Hn.
Qed.

(** What [Server.createServer] makes. *)
Lemma createServer_made j c s :
  Server.createServer j c = Ok s →
  db_wf ∅ (db s) ∧ length (concat (table (db s))) = 0%nat ∧ repl_wf (repl_info s) ∧ replica_fds (repl_info s) = []
  ∧ bindaddr s = cfg_bindaddr c ∧ dir s = cfg_dir c ∧ rdb_filename s = cfg_dbfilename c.
Proof.
  rewrite /Server.createServer. intros (ri & Hri & [= <-])%bind_ok_inv. cbn [db repl_info bindaddr dir rdb_filename].
  split_and!; try done; [apply createStore_wf|..]; revert Hri; destruct (cfg_is_replica c); try by intros [= <-].
  - by intros (host & _ & [= <-])%bind_ok_inv.
  - by intros (host & _ & [= <-])%bind_ok_inv.
Qed.

(** The server made from a configuration, freed, leaves the configuration with
    pointers to what is gone. *)
Lemma shutdown_undefined j limit c s p m mf :
  Server.createServer j c = Ok s → (0 < limit)%nat → config_at c p m → m ##ₘ mf →
  ∃ l lq m1 m2, p = Some l ∧ createServer j p (m ∪ mf) = Ok (Some lq, m1)
    ∧ freeServer limit (Some lq) m1 = Ok ([], m2)
    ∧ freeConfig p m2 = UB.
Proof.
  intros Hs Hlim Hm Hd. set (cc := λ d f b h, mkCConfig d f (cfg_port c) b h (cfg_master_port c) (cfg_is_replica c)).
  destruct (wp_run (createServer j p) (config_at c p) (λ q, ∃ l lq d f b h, <affine> ⌜p = Some l ∧ q = Some lq⌝
    ∗ (l ↦ OfConfig (cc d f b h) ∗ chars_or_null (cfg_master_host c) h)
    ∗ (chars_at (cfg_dir c) d ∗ server_at ∅ s 0 b d f q ∗ chars_at (cfg_bindaddr c) b ∗ chars_at (cfg_dbfilename c) f))%I m mf)
    as (q & m1 & E & Hd1 & H1); [|done..|].
  { iIntros "Hc". iApply (wp_createServer with "Hc"); [done|]. iIntros (q l d f b h) "-> Hl Hd Hf Hb Hh (%lq & %dbp & %rp & -> & Hs)".
    iExists l, lq, d, f, b, h. iSplit; [done|]. iFrame "Hl Hh Hd Hb Hf". iExists lq, dbp, rp. by iFrame. }
  destruct H1 as (l & lq & d & f & b & h & m0 & m1' & -> & _ & [He Hp] & (mk & ms & -> & Hks & Hk & Hsv)).
  rewrite /= in He Hp. destruct Hp as [-> ->]. subst m0. rewrite map_empty_union in E Hd1. apply map_disjoint_union_l in Hd1 as [Hk1 Hs1].
  exists l, lq, (mk ∪ ms ∪ mf), (mk ∪ mf). split_and!; [done|done| |].
  - destruct (createServer_made _ _ _ Hs) as (Hdb & Hlen & Hri & Hfds & Eb & Ed & Ef). rewrite -Eb -Ed -Ef in Hsv.
    destruct (wp_run (freeServer limit (Some lq)) (chars_at (dir s) d ∗ server_at ∅ s 0 b d f (Some lq) ∗ chars_at (bindaddr s) b ∗ chars_at (rdb_filename s) f) (λ r, <affine> ⌜r = []⌝)%I ms (mk ∪ mf)) as (r & m' & E2 & _ & [Hr Hm']);
      [|exact Hsv|by apply map_disjoint_union_r|].
    + iIntros "(Hd & Hs & Hb & Hf)". iApply (wp_freeServer limit ∅ with "Hs Hb Hd Hf"); [done|apply map_Forall_empty|lia|done|].
      by rewrite Hfds.
    + rewrite /= in Hr Hm'. rewrite Hr map_empty_union in E2. by rewrite (map_union_comm mk ms) // -assoc_L E2 Hm'.
  - destruct Hk as (mc & mh & -> & _ & Hc & _). destruct Hsv as (md & mr & -> & Hdr & Hd2 & _).
    destruct Hd2 as (ld & m3 & m4 & -> & _ & [He Hp] & Hd2). rewrite /= in He Hp Hc Hd2. subst.
    rewrite map_empty_union in Hks Hs1. apply (freeConfig_dangling l ld (cc (Some ld) f b h)); [|done|].
    + by rewrite -assoc_L lookup_union_l' lookup_singleton_eq.
    + apply map_disjoint_union_r in Hks as [Hks _]. apply map_disjoint_union_l in Hs1 as [Hs1 _].
      rewrite map_disjoint_singleton_r in Hks. rewrite map_disjoint_singleton_l in Hs1. by apply lookup_union_None.
Qed.

(** ** The properties *)

(** C32. [parseConfig] reads its arguments and leaves them alone; the blocks it
    makes are exactly those of the configuration that [Config.parseConfig]
    describes, which [freeConfig] gives back, and one block for each host that a
    later [--replicaof] replaced, which nothing gives back. *)
Theorem config_owns_strings argv ap m mf :
  array_at argv ap m → m ##ₘ mf →
  ∃ p m1, parseConfig (length argv) ap (m ∪ mf) = Ok (p, m1 ∪ mf) ∧ m1 ##ₘ mf
    ∧ (config_at (Config.parseConfig argv) p ∗ array_at argv ap ∗ lost_at (lost_hosts default_config (drop 1 argv)))%I m1
    ∧ ∃ m2, freeConfig p (m1 ∪ mf) = Ok ((), m2 ∪ mf)
        ∧ (array_at argv ap ∗ lost_at (lost_hosts default_config (drop 1 argv)))%I m2.
Proof.
  intros Hm Hd. destruct (wp_run (parseConfig (length argv) ap) (array_at argv ap)
    (λ p, config_at (Config.parseConfig argv) p ∗ array_at argv ap ∗ lost_at (lost_hosts default_config (drop 1 argv)))%I m mf)
    as (p & m1 & E & Hd1 & H1); [|done..|].
  { iIntros "Ha". iApply (wp_parseConfig with "Ha"). iIntros (p) "Ha Hc Hl". iFrame. }
  exists p, m1. split_and!; [done..|].
  destruct (wp_run (freeConfig p) (config_at (Config.parseConfig argv) p ∗ array_at argv ap ∗ lost_at (lost_hosts default_config (drop 1 argv)))
    (λ _, array_at argv ap ∗ lost_at (lost_hosts default_config (drop 1 argv)))%I m1 mf) as ([] & m2 & E2 & _ & H2); [|done..|by exists m2].
  iIntros "(Hc & Ha)". by iApply (wp_freeConfig with "Hc").
Qed.

(** [freeServer] gives back every block of the server and the three strings
    of the configuration, and nothing else, whatever the store holds; it closes
    the listening socket and, on a master, every replica. *)
Theorem free_server_exact limit h s fd b d f p m mf :
  db_wf h (db s) → short limit h → (length (concat (table (db s))) < limit)%nat → repl_wf (repl_info s) →
  (server_at h s fd b d f p ∗ chars_at (bindaddr s) b ∗ chars_at (dir s) d ∗ chars_at (rdb_filename s) f)%I m → m ##ₘ mf →
  freeServer limit p (m ∪ mf) = Ok ((if (0 <? fd)%Z then [fd] else []) ++ replica_fds (repl_info s), mf).
Proof.
  intros Hdb Hs Hlen Hri Hm Hd.
  destruct (wp_run (freeServer limit p)
    (server_at h s fd b d f p ∗ chars_at (bindaddr s) b ∗ chars_at (dir s) d ∗ chars_at (rdb_filename s) f)
    (λ r, <affine> ⌜r = (if (0 <? fd)%Z then [fd] else []) ++ replica_fds (repl_info s)⌝)%I m mf) as (r & m' & E & _ & Hr & Hm'); [|done..|].
  - iIntros "(Hs & Hb & Hd & Hf)". by iApply (wp_freeServer with "Hs Hb Hd Hf").
  - rewrite E. rewrite /= in Hm'. by rewrite Hr Hm' map_empty_union.
Qed.

(** C33. The server and its configuration both hold the address, the directory
    and the file name, and every way out of [main] frees both: for any command
    line from which a server can be made, whether the sockets or the threads
    cannot be had or the program is stopped by a signal, the three strings are
    freed twice. *)
Theorem main_frees_twice j limit argv s ap init pool m mf :
  Server.createServer j (Config.parseConfig argv) = Ok s → (0 < limit)%nat → array_at argv ap m → m ##ₘ mf →
  main limit j (length argv) ap init pool (m ∪ mf) = UB.
Proof.
  intros Hs Hlim Hm Hd. destruct (wp_run (parseConfig (length argv) ap) (array_at argv ap)
    (λ p, config_at (Config.parseConfig argv) p ∗ array_at argv ap ∗ lost_at (lost_hosts default_config (drop 1 argv)))%I m mf)
    as (p & m1 & E & Hd1 & H1); [|done..|].
  { iIntros "Ha". iApply (wp_parseConfig with "Ha"). iIntros (p) "Ha Hc Hl". iFrame. }
  destruct H1 as (mc & mr & -> & Hcr & Hc & _). apply map_disjoint_union_l in Hd1 as [Hc1 Hr1]. rewrite -assoc_L in E.
  destruct (shutdown_undefined j limit _ s p mc (mr ∪ mf) Hs Hlim Hc) as (l & lq & m2 & m3 & -> & E2 & E3 & E4);
    [by apply map_disjoint_union_r|].
  rewrite /main /cleanup_resources /mbind /Mem_bind E E2. by destruct init, pool; cbn [negb]; rewrite E3 E4.
Qed.

(** ** Witnesses *)

Definition ex_argv : list bytes := [bs "fastkey"; bs "--replicaof"; bs "host 1"].
Definition ex_argv_memory : gmap loc obj :=
  {[1%positive := OPtrs [Some 2%positive; Some 3%positive; Some 4%positive]]}
  ∪ ({[2%positive := OChars (bs "fastkey" ++ [NUL])]} ∪ ({[3%positive := OChars (bs "--replicaof" ++ [NUL])]}
  ∪ {[4%positive := OChars (bs "host 1" ++ [NUL])]})).

Lemma ex_argv_at : array_at ex_argv (Some 1%positive) ex_argv_memory.
Proof.
  assert ((1%positive ↦ OPtrs [Some 2%positive; Some 3%positive; Some 4%positive]
    ∗ 2%positive ↦ OChars (bs "fastkey" ++ [NUL]) ∗ 3%positive ↦ OChars (bs "--replicaof" ++ [NUL])
    ∗ 4%positive ↦ OChars (bs "host 1" ++ [NUL]))%I ex_argv_memory) as H.
  { repeat (apply sep_holds; [exact eq_refl| |solve_map_disjoint]). exact eq_refl. }
  revert H. apply entails_holds. iIntros "(H1 & H2 & H3 & H4)".
  iExists 1%positive, [Some 2%positive; Some 3%positive; Some 4%positive]. iSplit; [done|]. iFrame "H1". cbn [strings_at ex_argv].
  iSplitL "H2"; [iExists 2%positive; by iFrame|]. iSplitL "H3"; [iExists 3%positive; by iFrame|].
  iSplitL; [iExists 4%positive; by iFrame|done].
Qed.

Lemma config_owns_strings_witness :
  ∃ p m1, parseConfig 3 (Some 1%positive) (ex_argv_memory ∪ ∅) = Ok (p, m1 ∪ ∅) ∧ m1 ##ₘ ∅
    ∧ (config_at (mkServerConfig (bs "/tmp") (bs "dump.rdb") 6379 (bs "127.0.0.1") (Some (bs "host")) 1 true) p
       ∗ array_at ex_argv (Some 1%positive) ∗ emp)%I m1
    ∧ ∃ m2, freeConfig p (m1 ∪ ∅) = Ok ((), m2 ∪ ∅) ∧ (array_at ex_argv (Some 1%positive) ∗ emp)%I m2.
Proof. exact (config_owns_strings ex_argv (Some 1%positive) ex_argv_memory ∅ ex_argv_at (map_disjoint_empty_r _)). Defined.

Definition ex_shared : gmap loc obj :=
  {[2%positive := OChars (bs "/tmp" ++ [NUL])]} ∪ ({[3%positive := OChars (bs "dump.rdb" ++ [NUL])]}
  ∪ {[4%positive := OChars (bs "127.0.0.1" ++ [NUL])]}).
Definition ex_config_memory : gmap loc obj :=
  {[1%positive := OConfig (Some 2%positive) (Some 3%positive) 6379 (Some 4%positive) NULL 0 false]} ∪ ex_shared.

Lemma ex_shared_at :
  (chars_at (bs "/tmp") (Some 2%positive) ∗ chars_at (bs "dump.rdb") (Some 3%positive)
   ∗ chars_at (bs "127.0.0.1") (Some 4%positive))%I ex_shared.
Proof.
  assert ((2%positive ↦ OChars (bs "/tmp" ++ [NUL]) ∗ 3%positive ↦ OChars (bs "dump.rdb" ++ [NUL])
    ∗ 4%positive ↦ OChars (bs "127.0.0.1" ++ [NUL]))%I ex_shared) as H.
  { repeat (apply sep_holds; [exact eq_refl| |solve_map_disjoint]). exact eq_refl. }
  revert H. apply entails_holds. iIntros "(H2 & H3 & H4)".
  iSplitL "H2"; [iExists 2%positive; by iFrame|]. iSplitL "H3"; [iExists 3%positive; by iFrame|iExists 4%positive; by iFrame].
Qed.

Lemma ex_config_at : config_at default_config (Some 1%positive) ex_config_memory.
Proof.
  assert ((1%positive ↦ OConfig (Some 2%positive) (Some 3%positive) 6379 (Some 4%positive) NULL 0 false
    ∗ chars_at (bs "/tmp") (Some 2%positive) ∗ chars_at (bs "dump.rdb") (Some 3%positive)
    ∗ chars_at (bs "127.0.0.1") (Some 4%positive))%I ex_config_memory) as H.
  { apply sep_holds; [exact eq_refl|exact ex_shared_at|solve_map_disjoint]. }
  revert H. apply entails_holds. iIntros "(H1 & H2 & H3 & H4)".
  iExists 1%positive, (Some 2%positive), (Some 3%positive), (Some 4%positive), NULL. by iFrame.
Qed.

Definition ex_server : RedisServer :=
  mkRedisServer (bs "127.0.0.1") 6379 Store.createStore (bs "/tmp") (bs "dump.rdb")
    (mkReplicationInfo None (bs "id") 0 (Some (mkReplicas [mkReplica 7 0] 16))) (mkServerStats 511 0 0 0 0).
Definition ex_server_memory : gmap loc obj :=
  {[1%positive := OServer (Some 4%positive) (Some 2%positive) (Some 3%positive) (Some 5%positive) (Some 7%positive) 3 6379]}
  ∪ ({[5%positive := OStore (Some 6%positive) 16 0]} ∪ ({[6%positive := OPtrs (replicate 16 NULL)]}
  ∪ ({[7%positive := OReplInfo NULL (Some 8%positive) (Some 10%positive) 0]}
  ∪ ({[8%positive := OReplicas (Some 9%positive) 1 16]} ∪ ({[9%positive := OFds [7%Z]]}
  ∪ ({[10%positive := OChars (bs "id" ++ [NUL])]} ∪ ex_shared)))))).

Lemma ex_server_at :
  (server_at ∅ ex_server 3 (Some 4%positive) (Some 2%positive) (Some 3%positive) (Some 1%positive)
   ∗ chars_at (bs "127.0.0.1") (Some 4%positive) ∗ chars_at (bs "/tmp") (Some 2%positive)
   ∗ chars_at (bs "dump.rdb") (Some 3%positive))%I ex_server_memory.
Proof.
  assert ((1%positive ↦ OServer (Some 4%positive) (Some 2%positive) (Some 3%positive) (Some 5%positive) (Some 7%positive) 3 6379
    ∗ 5%positive ↦ OStore (Some 6%positive) 16 0 ∗ 6%positive ↦ OPtrs (replicate 16 NULL)
    ∗ 7%positive ↦ OReplInfo NULL (Some 8%positive) (Some 10%positive) 0
    ∗ 8%positive ↦ OReplicas (Some 9%positive) 1 16 ∗ 9%positive ↦ OFds [7%Z]
    ∗ 10%positive ↦ OChars (bs "id" ++ [NUL])
    ∗ chars_at (bs "/tmp") (Some 2%positive) ∗ chars_at (bs "dump.rdb") (Some 3%positive)
    ∗ chars_at (bs "127.0.0.1") (Some 4%positive))%I ex_server_memory) as H.
  { repeat (apply sep_holds; [exact eq_refl| |solve_map_disjoint]). exact ex_shared_at. }
  revert H. apply entails_holds. iIntros "(H1 & H5 & H6 & H7 & H8 & H9 & H10 & $ & $ & $)".
  iExists 1%positive, (Some 5%positive), (Some 7%positive). iFrame "H1". iSplit; [done|]. iSplitL "H5 H6".
  - iExists (λ _, NULL). rewrite /heap_at big_sepM_empty. iSplitL; [|done]. iExists 5%positive, 6%positive, (replicate 16 NULL).
    iFrame "H5 H6". iSplit; [done|]. by iApply (chains_at_empty _ 16).
  - iExists 7%positive, NULL, (Some 8%positive), (Some 10%positive). iFrame "H7". iSplit; [done|].
    iSplitL "H10"; [iExists 10%positive; by iFrame|]. iSplit; [done|]. iExists 8%positive, 9%positive. by iFrame.
Qed.

Lemma free_server_exact_witness :
  freeServer 1 (Some 1%positive) (ex_server_memory ∪ {[11%positive := OFresh]}) = Ok ([3%Z; 7%Z], {[11%positive := OFresh]}).
Proof.
  apply (free_server_exact 1 ∅ ex_server 3 (Some 4%positive) (Some 2%positive) (Some 3%positive)).
  - exact createStore_wf.
  - apply map_Forall_empty.
  - apply (bool_decide_unpack _). exact I.
  - split; apply (bool_decide_unpack _); exact I.
  - exact ex_server_at.
  - apply map_disjoint_singleton_r. reflexivity.
Defined.

Lemma main_frees_twice_witness :
  main 1 Zeroed 3 (Some 1%positive) true true (ex_argv_memory ∪ ∅) = UB.
Proof.
  destruct (Server.createServer Zeroed (Config.parseConfig ex_argv)) as [s| |] eqn:E; [|discriminate E|discriminate E].
  apply (main_frees_twice Zeroed 1 ex_argv s (Some 1%positive) true true ex_argv_memory ∅ E).
  - apply (bool_decide_unpack _). exact I.
  - exact ex_argv_at.
  - apply map_disjoint_empty_r.
Defined.
