(* ===== verification/Client.v ===== *)
(** * Client connections (app/client_handler.c, sendReply of app/networking.c)

    A connection is the client's state and its receive buffer; its input is
    the list of what [recv] returns.  The loops run over a finite prefix of
    that list: at its end the connection waits for more. *)
From S2P Require Import Prelude.
From S2P Require Import CLib.
From S2P Require Import Resp.
From S2P Require Import Store.
From S2P Require Import CommandQueue.
From S2P Require Import Replicas.
From S2P Require Import World.
From S2P Require Import Command.
From S2P Require Import Invariants.
From S2P Require Import Server.

Definition MAX_CLIENTS : Z := 1024.

(** [NULL] for a descriptor that is out of range, which is closed. *)
Definition handleNewClient (fd : Z) : M (option (ClientState * RespBuffer)) :=
  if MAX_CLIENTS <=? fd then
    _ ← modify (λ w, with_ios (ios w ++ [Closed fd]) w);
    mret None
  else mret (Some (mkClient fd false (Some createCommandQueue), createRespBuffer)).

Definition freeClientState (client : ClientState) : M unit :=
  modify (λ w, with_ios (ios w ++ [Closed (c_fd client)]) w).

Definition sendReply (fd : Z) (reply : bytes) : M unit :=
  if fd <? 0 then mret () else send fd (cstr reply).

Section Client.
Context (env : Env).

Definition handleClientCommand (command : RespValue) (client : ClientState) : M ClientState :=
  if negb (well_formed command) then mret client
  else
    '(response, client) ← executeCommand env 2 command client;
    match response with
    | Some response => _ ← sendReply (c_fd client) response; mret client
    | None => mret client
    end.

(** [while (parseResp(...) == RESP_OK)]: every round consumes input, so the
    bytes in the buffer bound the rounds. *)
Fixpoint parse_loop (fuel : nat) (client : ClientState) (b : RespBuffer) : M (ClientState * RespBuffer) :=
  match fuel with
  | O => lift Diverge
  | S fuel' =>
      '(status, command, b) ← lift (parseResp (memory env) b);
      if status =? RESP_OK then
        command ← lift (deref command);
        client ← handleClientCommand command client;
        parse_loop fuel' client b
      else mret (client, b)
  end.

Fixpoint handleClientData (input : list received) (client : ClientState) (b : RespBuffer)
    : M (ClientState * RespBuffer) :=
  match input with
  | Data data :: input' =>
      let b := (appendRespBuffer true b data).2 in
      '(client, b) ← parse_loop (S (length (rb_buffer b))) client b;
      handleClientData input' client b
  | WouldBlock :: input' => handleClientData input' client b
  | _ => mret (client, b)
  end.

Definition handleClientConnection (fd : Z) (input : list received) : M unit :=
  client ← handleNewClient fd;
  match client with
  | Some (client, b) =>
      '(client, _) ← handleClientData input client b;
      freeClientState client
  | None => mret ()
  end.

(** ** What a connection is meant to do: the commands in order *)
Fixpoint serve (cmds : list (list bytes)) (client : ClientState) : M ClientState :=
  match cmds with
  | [] => mret client
  | args :: cmds' =>
      client ← handleClientCommand (RespArray (map RespBulk args)) client;
      serve cmds' client
  end.

End Client.

(** The arguments fit the sizes the parser reads. *)
Definition sized (args : list bytes) : Prop := int_sized args ∧ Forall int_sized args.
(** The beginning of a command that is not all of it. *)
Definition partial (p : bytes) : Prop :=
  ∃ args, sized args ∧ p `prefix_of` resp_command args ∧ p ≠ resp_command args.
Definition wire (cmds : list (list bytes)) : bytes := concat (map resp_command cmds).

Lemma partial_nil : partial [].
Proof.
  exists []. split; [split; [rw /int_sized /INT_MAX /=; lia|done]|].
  split; [apply prefix_nil|]. intros E. by apply (resp_command_nonempty []).
Qed.

Lemma partial_prefix x p : x `prefix_of` p → partial p → partial x.
Proof.
  intros Hx (args & Hs & Hp & Hne). exists args. split; [done|]. split; [by etrans|].
  intros ->. apply Hne. destruct Hx as [k ->], Hp as [k' Hk'].
  rw -app_assoc in Hk'. assert (k = []) as ->; [|by rw app_nil_r].
  rw -{1}(app_nil_r (resp_command args)) in Hk'. apply app_inv_head in Hk'. by destruct k.
Qed.

Lemma wire_cons args cmds : wire (args :: cmds) = resp_command args ++ wire cmds.
Proof. done. Qed.

(** Whatever part of the input has arrived is some whole commands and the
    beginning of the next. *)
Lemma arrived y rest cmds p :
  Forall sized cmds → partial p → y ++ rest = wire cmds ++ p →
  ∃ cmds1 cmds2 q, cmds = cmds1 ++ cmds2 ∧ y = wire cmds1 ++ q ∧ partial q
    ∧ q ++ rest = wire cmds2 ++ p.
Proof.
  intros Hc Hp. revert y. induction Hc as [|args cmds Ha Hc IH]; intros y Hy.
  { exists [], [], y. split_and!; [done|done| |done].
    eapply partial_prefix; [|exact Hp]. by exists rest. }
  rw wire_cons -app_assoc in Hy. apply app_eq_inv in Hy as [(k & -> & Hr)|(k & Hk & Hr)].
  - destruct (IH k) as (c1 & c2 & q & -> & -> & Hq & Hqr); [by symmetry|].
    exists (args :: c1), c2, q. split_and!; [done|by rw wire_cons -app_assoc|done|done].
  - destruct (decide (k = [])) as [->|Hne].
    + rw app_nil_r in Hk. subst y.
      exists [args], cmds, []. split_and!; [done|by rw wire_cons !app_nil_r|apply partial_nil|by rw Hr].
    + exists [], (args :: cmds), y. split_and!; [done|done| |].
      * exists args. split; [done|]. split; [by exists k|]. intros ->.
        rw -{1}(app_nil_r (resp_command args)) in Hk. apply app_inv_head in Hk. by subst k.
      * by rw Hr wire_cons Hk -!app_assoc.
Qed.

(** ** The loop over a buffer of whole commands *)

Lemma serve_app env c1 c2 client w :
  serve env (c1 ++ c2) client w = (client ← serve env c1 client; serve env c2 client) w.
Proof.
  revert client w. induction c1 as [|a c1 IH]; intros client w; [done|].
  cbn [app serve]. rw !bindE. destruct (handleClientCommand _ _ _ _) as [[cl w1]| |]; [|done..].
  by rw IH bindE.
Qed.

Lemma parse_loop_wire env fuel cmds q n client w :
  memory env = Zeroed → Forall sized cmds → partial q → (length cmds < fuel)%nat →
  parse_loop env fuel client (mkRespBuffer (wire cmds ++ q) n) w =
  (client ← serve env cmds client; mret (client, mkRespBuffer q n)) w.
Proof.
  intros Hj Hc Hq. revert fuel client w. induction Hc as [|args cmds [Ha1 Ha2] Hc IH]; intros fuel client w Hf;
    (destruct fuel as [|fuel]; [cbn in Hf; lia|]); cbn [parse_loop serve]; rw liftE Hj.
  - destruct Hq as (args & [Ha1 Ha2] & Hp & Hne). rw (parseResp_prefix _ _ args) //.
    by rw andb_false_r.
  - rw wire_cons -app_assoc parseResp_command //. cbn beta iota. rw Z.eqb_refl liftE. cbn [deref].
    rw !bindE. destruct (handleClientCommand _ _ _ _) as [[cl w1]| |]; [|done..].
    rw IH; [|cbn in Hf; lia]. by rw bindE.
Qed.

Lemma wire_length cmds : (length cmds ≤ length (wire cmds))%nat.
Proof.
  induction cmds as [|args cmds IH]; [done|]. rw wire_cons length_app. cbn [length].
  pose proof (resp_command_nonempty args). destruct (resp_command args); [done|]. cbn [length]. lia.
Qed.

(** The beginning of a command does not contain a whole one. *)
Lemma partial_not_whole args r : sized args → ¬ partial (resp_command args ++ r).
Proof.
  intros [Ha1 Ha2] (args' & [Hb1 Hb2] & Hp & Hne).
  pose proof (parseResp_prefix Zeroed _ args' 0 Hb1 Hb2 Hp Hne) as H1.
  rw parseResp_command // in H1. rw andb_false_r in H1. discriminate H1.
Qed.

(** Input cut in any way is served like its commands. *)
Lemma chunks_served env chunks cmds p client n w :
  memory env = Zeroed → Forall sized cmds → partial p →
  concat chunks = wire cmds ++ p →
  match serve env cmds client w with
  | Ok (client', w') =>
      ∃ b, handleClientData env (map Data chunks) client (mkRespBuffer [] n) w = Ok ((client', b), w')
        ∧ rb_buffer b = p
  | UB => handleClientData env (map Data chunks) client (mkRespBuffer [] n) w = UB
  | Diverge => handleClientData env (map Data chunks) client (mkRespBuffer [] n) w = Diverge
  end.
Proof.
  intros Hj Hc Hp Hw. assert (partial []) as Hq by apply partial_nil.
  assert ([] ++ concat chunks = wire cmds ++ p) as Hqw by done. clear Hw. revert Hq Hqw.
  generalize (@nil ascii). revert cmds client n w Hc.
  induction chunks as [|d chunks IH]; intros cmds client n w Hc q Hq Hqw.
  { cbn [concat] in Hqw. rw app_nil_r in Hqw. subst q. destruct cmds as [|args cmds]; [cbn; eauto|].
    exfalso. apply Forall_cons in Hc as [Ha _]. rw wire_cons -app_assoc in Hq.
    by eapply partial_not_whole. }
  cbn [concat] in Hqw. rw app_assoc in Hqw.
  destruct (arrived (q ++ d) (concat chunks) cmds p Hc Hp Hqw) as (c1 & c2 & q' & -> & Hy & Hq' & Hrest).
  apply Forall_app in Hc as [Hc1 Hc2].
  cbn [map handleClientData].
  destruct (appendRespBuffer true (mkRespBuffer q n) d).2 as [bd bn] eqn:Eb.
  assert (bd = wire c1 ++ q') as ->.
  { rw -Hy. pose proof (append_data (mkRespBuffer q n) d) as Ha. by rw Eb in Ha. }
  rw bindE parse_loop_wire //; [|cbn [rb_buffer]; rw length_app; pose proof (wire_length c1); lia].
  rw serve_app !bindE. destruct (serve env c1 client w) as [[cl1 w1]| |]; [|done..].
  exact (IH c2 cl1 bn w1 Hc2 q' Hq' Hrest).
Qed.

(** ** The properties *)


(** Three pieces, cut inside the commands. *)
Definition ex_cmds : list (list bytes) := [[bs "SET"; bs "k"; bs "v"]; [bs "GET"; bs "k"]].
Definition ex_chunks : list bytes :=
  let l := wire ex_cmds ++ bs "*1" in [take 9 l; take 20 (drop 9 l); drop 29 l].

Lemma ex_cmds_sized : Forall sized ex_cmds.
Proof. repeat constructor; rw /int_sized /INT_MAX /=; lia. Qed.

Lemma ex_partial : partial (bs "*1").
Proof.
  exists [bs "PING"]. split; [repeat constructor; rw /int_sized /INT_MAX /=; lia|].
  split; [by eexists|by intros ?%(f_equal length)].
Qed.


(** A client that once sends bytes that begin neither an array nor a bulk
    string is never answered again: they are not consumed, and every later
    command is only added behind them. *)
Theorem client_wedged env chunks client b c rest w :
  rb_buffer b = c :: rest → (2 ≤ length rest)%nat → c ≠ "*"%char → c ≠ "$"%char →
  ∃ b', handleClientData env (map Data chunks) client b w = Ok ((client, b'), w)
    ∧ rb_buffer b' = rb_buffer b ++ concat chunks.
Proof.
  revert b rest. induction chunks as [|d chunks IH]; intros b rest Hb Hl H1 H2.
  { exists b. by rw app_nil_r. }
  cbn [map handleClientData concat].
  pose proof (append_data b d) as Ha. destruct (appendRespBuffer true b d).2 as [bd bn].
  cbn [rb_buffer] in Ha. subst bd. rw bindE.
  assert (parse_loop env (S (length (rb_buffer (mkRespBuffer (rb_buffer b ++ d) bn)))) client
            (mkRespBuffer (rb_buffer b ++ d) bn) w
          = Ok ((client, mkRespBuffer (rb_buffer b ++ d) bn), w)) as ->.
  { cbn [parse_loop]. rw liftE.
    assert (parseResp (memory env) (mkRespBuffer (rb_buffer b ++ d) bn)
            = Ok (RESP_ERR, None, mkRespBuffer (rb_buffer b ++ d) bn)) as ->; [|done].
    rw /parseResp /rb_used Hb. rw (proj2 (Z.ltb_ge _ _)); [|cbn [rb_buffer]; lens].
    cbn. by rw !decide_False. }
  destruct (IH (mkRespBuffer (rb_buffer b ++ d) bn) (rest ++ d)) as (b' & Hb' & Hc);
    [by rw Hb|lens|done|done|].
  exists b'. split; [done|]. by rw Hc -app_assoc.
Qed.

Lemma client_wedged_witness :
  ∃ b', handleClientData ex_env (map Data [resp_command [bs "PING"]]) ex_client
          (mkRespBuffer (bs "PING" ++ CRLF) 4096) ex_world = Ok ((ex_client, b'), ex_world)
    ∧ rb_buffer b' = (bs "PING" ++ CRLF) ++ concat [resp_command [bs "PING"]].
Proof.
  apply (client_wedged ex_env [resp_command [bs "PING"]] ex_client (mkRespBuffer (bs "PING" ++ CRLF) 4096)
           "P"%char (bs "ING" ++ CRLF)); [done|cbn; lia|done|done].
Defined.
