(* ===== verification/Sessions.v ===== *)
(** * Many connections on one server (src/app/client_handler.c)

    The connection threads of [Client] interleaved.  A connection is between
    two calls of [recv], or in the parse loop with a buffer to go through; a
    step takes one of them through one [recv], or through one round of the
    parse loop with the command it finds.  The specification is a server that
    runs one command at a time, for whichever client sent it. *)

From S2P Require Import Prelude CLib Resp Store CommandQueue Replicas World Command.
From S2P Require Import Invariants Handlers Server Client.

(** ** The system *)

Record Conn := mkConn { cn_client : ClientState; cn_buffer : RespBuffer; cn_parsing : bool }.
Record System := mkSystem { sy_world : World; sy_conns : gmap Z Conn }.

Definition pass (ns : Z) (w : World) : World :=
  mkWorld (server w) (streams w) (wait_state w) (has_new_data w) (clock w + ns) (ios w).

(** [Pass] lets time go by. *)
Inductive event := Connect (fd : Z) | Receive (fd : Z) (r : received) | Serve (fd : Z) | Pass (ns : Z).

Section System.
Context (env : Env).

Definition connect (fd : Z) (conns : gmap Z Conn) : M (gmap Z Conn) :=
  client ← handleNewClient fd;
  mret (match client with
        | Some (client, b) => <[fd := mkConn client b false]> conns
        | None => conns
        end).

(** One turn of the loop of [handleClientData], up to the parse loop. *)
Definition receive (fd : Z) (c : Conn) (r : received) (conns : gmap Z Conn) : M (gmap Z Conn) :=
  match r with
  | Data data =>
      mret (<[fd := mkConn (cn_client c) (appendRespBuffer true (cn_buffer c) data).2 true]> conns)
  | WouldBlock => mret conns
  | Disconnected | Failed =>
      _ ← freeClientState (cn_client c);
      mret (delete fd conns)
  end.

(** One turn of the parse loop. *)
Definition parse_round (fd : Z) (c : Conn) (conns : gmap Z Conn) : M (gmap Z Conn) :=
  '(status, command, b) ← lift (parseResp (memory env) (cn_buffer c));
  if status =? RESP_OK then
    command ← lift (deref command);
    client ← handleClientCommand env command (cn_client c);
    mret (<[fd := mkConn client b true]> conns)
  else mret (<[fd := mkConn (cn_client c) b false]> conns).

(** The events that can happen, and what they do. *)
Definition act (e : event) (s : System) : option (M (gmap Z Conn)) :=
  match e with
  | Connect fd =>
      match sy_conns s !! fd with
      | None => if 0 <=? fd then Some (connect fd (sy_conns s)) else None
      | Some _ => None
      end
  | Receive fd r =>
      match sy_conns s !! fd with
      | Some c => if cn_parsing c then None else Some (receive fd c r (sy_conns s))
      | None => None
      end
  | Serve fd =>
      match sy_conns s !! fd with
      | Some c => if cn_parsing c then Some (parse_round fd c (sy_conns s)) else None
      | None => None
      end
  | Pass ns =>
      if (0 <=? ns) && (clock (sy_world s) + ns <? 10 ^ 6 * 2 ^ 63)
      then Some (_ ← modify (pass ns); mret (sy_conns s)) else None
  end.

Definition happens (e : event) (s : System) : option (res System) :=
  m ← act e s;
  Some ('(conns, w) ← m (sy_world s); Ok (mkSystem w conns)).

(** A schedule that can happen and reaches [s]. *)
Inductive run (s0 : System) : list event → System → Prop :=
| run_nil : run s0 [] s0
| run_snoc es e s s' : run s0 es s → happens e s = Some (Ok s') → run s0 (es ++ [e]) s'.

Fixpoint exec (es : list event) (s : System) : option System :=
  match es with
  | [] => Some s
  | e :: es' => match happens e s with Some (Ok s') => exec es' s' | _ => None end
  end.

Lemma run_app s0 es1 s1 es2 s2 : run s0 es1 s1 → run s1 es2 s2 → run s0 (es1 ++ es2) s2.
Proof.
  intros H1 H2. induction H2 as [|es e s s' _ IH Hs]; [by rw app_nil_r|].
  rw app_assoc. by eapply run_snoc.
Qed.

Lemma exec_run es s s' : exec es s = Some s' → run s es s'.
Proof.
  revert s. induction es as [|e es IH]; intros s H; cbn [exec] in H; [simplify_eq; constructor|].
  destruct (happens e s) as [[s1| |]|] eqn:E; try done.
  apply (run_app _ [e] s1); [|by apply IH]. by apply (run_snoc _ [] _ s); [constructor|].
Qed.

Lemma happens_ok e s s' :
  happens e s = Some (Ok s') →
  ∃ m, act e s = Some m ∧ m (sy_world s) = Ok (sy_conns s', sy_world s').
Proof.
  rw /happens. destruct (act e s) as [m|]; [|done]. intros [= H].
  apply bind_ok_inv in H as ([conns w] & Hm & [= <-]). by exists m.
Qed.

End System.

(** ** The specification: one command at a time *)

Inductive call := Opened (fd : Z) | Called (fd : Z) (args : list bytes) | Dropped (fd : Z) | Passed (ns : Z).

Definition answer_call (env : Env) (c : call) (clients : gmap Z ClientState) : M (gmap Z ClientState) :=
  match c with
  | Opened fd =>
      client ← handleNewClient fd;
      mret (match client with Some (client, _) => <[fd := client]> clients | None => clients end)
  | Called fd args =>
      client ← lift (deref (clients !! fd));
      client ← handleClientCommand env (request args) client;
      mret (<[fd := client]> clients)
  | Dropped fd =>
      client ← lift (deref (clients !! fd));
      _ ← freeClientState client;
      mret (delete fd clients)
  | Passed ns => _ ← modify (pass ns); mret clients
  end.
Fixpoint replay (env : Env) (h : list call) (clients : gmap Z ClientState) : M (gmap Z ClientState) :=
  match h with
  | [] => mret clients
  | c :: h' => clients ← answer_call env c clients; replay env h' clients
  end.

(** What the peer has sent on [fd], and the commands run for it, since it
    connected. *)
Definition sent_by (fd : Z) (acc : bytes) (e : event) : bytes :=
  match e with
  | Connect fd' => if fd' =? fd then [] else acc
  | Receive fd' (Data d) => if fd' =? fd then acc ++ d else acc
  | _ => acc
  end.
Definition input (fd : Z) (es : list event) : bytes := foldl (sent_by fd) [] es.
Definition called_by (fd : Z) (acc : list (list bytes)) (c : call) : list (list bytes) :=
  match c with
  | Opened fd' => if fd' =? fd then [] else acc
  | Called fd' args => if fd' =? fd then acc ++ [args] else acc
  | _ => acc
  end.
Definition served (fd : Z) (h : list call) : list (list bytes) := foldl (called_by fd) [] h.

Definition sends (fd : Z) (es : list event) : Prop :=
  ∃ cmds p, Forall sized cmds ∧ partial p ∧ input fd es = wire cmds ++ p.
(** Every client has always sent commands, the last perhaps not in full. *)
Definition polite (es : list event) : Prop :=
  ∀ es1 es2 fd, es = es1 ++ es2 → sends fd es1.

Lemma input_snoc fd es e : input fd (es ++ [e]) = sent_by fd (input fd es) e.
Proof. by rw /input foldl_app. Qed.

Lemma sends_nothing fd es : input fd es = [] → sends fd es.
Proof. intros E. exists [], []. split_and!; [done|apply partial_nil|done]. Qed.

Lemma polite_nil : polite [].
Proof. intros es1 es2 fd E. symmetry in E. apply app_eq_nil in E as [-> ->]. by apply sends_nothing. Qed.

Lemma polite_snoc es e :
  polite es → match e with Receive fd (Data _) => sends fd (es ++ [e]) | _ => True end → polite (es ++ [e]).
Proof.
  intros Hp He es1 es2 fd E. destruct es2 as [|e' es2 _] using rev_ind.
  - rw app_nil_r in E. subst es1.
    assert (sends fd es) as Hold by (apply (Hp es []); by rw app_nil_r).
    assert (sent_by fd (input fd es) e = input fd es → sends fd (es ++ [e])) as Hsame.
    { rw /sends input_snoc. by intros ->. }
    destruct e as [fd'|fd' r|fd'|ns]; [|destruct r|..]; try (by apply Hsame).
    + destruct (Z.eqb_spec fd' fd) as [->|Hne]; [|apply Hsame; cbn; by rw (proj2 (Z.eqb_neq _ _))].
      apply sends_nothing. by rw input_snoc /= Z.eqb_refl.
    + destruct (Z.eqb_spec fd' fd) as [->|Hne]; [done|apply Hsame; cbn; by rw (proj2 (Z.eqb_neq _ _))].
  - rw app_assoc in E. apply app_inj_tail in E as [-> _]. by apply (Hp es1 es2).
Qed.

Lemma served_snoc fd h c : served fd (h ++ [c]) = called_by fd (served fd h) c.
Proof. by rw /served foldl_app. Qed.

Lemma replay_app env h1 h2 clients w :
  replay env (h1 ++ h2) clients w = (clients ← replay env h1 clients; replay env h2 clients) w.
Proof.
  revert clients w. induction h1 as [|c h1 IH]; intros clients w; [done|].
  cbn [app replay]. rw !bindE. destruct (answer_call _ _ _ _) as [[cl w1]| |]; [|done..].
  by rw IH bindE.
Qed.

Lemma replay_snoc env h c clients w clients1 w1 clients2 w2 :
  replay env h clients w = Ok (clients1, w1) → answer_call env c clients1 w1 = Ok (clients2, w2) →
  replay env (h ++ [c]) clients w = Ok (clients2, w2).
Proof. intros H1 H2. rw replay_app bindE H1. cbn [replay]. by rw bindE H2. Qed.

Lemma wire_snoc cmds args : wire (cmds ++ [args]) = wire cmds ++ resp_command args.
Proof. by rw /wire map_app concat_app /= app_nil_r. Qed.

Lemma map_bulk_inj a a' : map RespBulk a = map RespBulk a' → a = a'.
Proof. revert a'. induction a as [|x a IH]; intros [|x' a'] E; simplify_eq/=; [done|]. f_equal; auto. Qed.

(** Whole commands at the front of the input are its first commands. *)
Lemma wire_split c1 b cmds p :
  Forall sized c1 → Forall sized cmds → partial p → wire c1 ++ b = wire cmds ++ p →
  ∃ c2, cmds = c1 ++ c2 ∧ b = wire c2 ++ p.
Proof.
  intros H1. revert cmds. induction H1 as [|a c1 Ha H1 IH]; intros cmds Hc Hp E; [by exists cmds|].
  rw wire_cons -app_assoc in E. destruct Hc as [|a' cmds [Ha1' Ha2'] Hc].
  - exfalso. change (wire [] ++ p) with p in E.
    apply (partial_not_whole a (wire c1 ++ b) Ha). by rw E.
  - rw wire_cons -app_assoc in E. destruct Ha as [Ha1 Ha2].
    pose proof (parseResp_command Zeroed a (wire c1 ++ b) 0 Ha1 Ha2) as P.
    rw E parseResp_command // in P. injection P as P1 P2.
    assert (a' = a) as -> by (by apply map_bulk_inj).
    destruct (IH cmds) as (c2 & -> & ->); [done..|]. by exists c2.
Qed.

(** ** Invariants *)

Definition conns_ok (conns : gmap Z Conn) : Prop :=
  map_Forall (λ fd c, client_ok (cn_client c) ∧ c_fd (cn_client c) = fd) conns.

Lemma handleNewClient_ok fd w r w' :
  handleNewClient fd w = Ok (r, w') →
  (∃ cl b, r = Some (cl, b) ∧ cl = mkClient fd false (Some createCommandQueue)
     ∧ b = createRespBuffer ∧ w' = w)
  ∨ (r = None ∧ w' = with_ios (ios w ++ [Closed fd]) w).
Proof.
  rw /handleNewClient. case_match; [rw modifyE|]; intros [-> ->]%M_ret_ok; [by right|].
  left. by eexists _, _.
Qed.

Lemma new_client_ok fd : client_ok (mkClient fd false (Some createCommandQueue)).
Proof. exists createCommandQueue. split_and!; [done|apply createCommandQueue_wf|done|done]. Qed.

#[export] Instance keeps_close fd : keeps (modify (λ w, with_ios (ios w ++ [Closed fd]) w)).
Proof. apply keeps_modify. intros w Hw. split_and!; [by eapply world_wf_same|done..]. Qed.

#[export] Instance keeps_new_client fd : keeps (handleNewClient fd).
Proof. rw /handleNewClient. apply _. Qed.

#[export] Instance keeps_free_client cl : keeps (freeClientState cl).
Proof. rw /freeClientState. apply _. Qed.

Section Invariant.
Context (env : Env) (Henv : env_ok env).

#[local] Instance keeps_command d cmd cl : keeps (executeCommand env d cmd cl).
Proof using Henv. by apply keeps_executeCommand. Qed.

Lemma keeps_handleClientCommand cmd cl : keeps (handleClientCommand env cmd cl).
Proof using Henv. rw /handleClientCommand /sendReply. apply _. Qed.

Lemma handleClientCommand_client cmd cl w cl' w' :
  client_ok cl → handleClientCommand env cmd cl w = Ok (cl', w') → client_ok cl' ∧ c_fd cl' = c_fd cl.
Proof using Type.
  intros Hc. rw /handleClientCommand. case_match; [by intros [-> _]%M_ret_ok|].
  intros ([r cl1] & w1 & H1 & H2)%M_bind_ok. apply executeCommand_client in H1 as [H1 H1']; [|done].
  destruct r as [r|]; [apply M_bind_ok in H2 as (_ & w2 & _ & H2)|];
    by apply M_ret_ok in H2 as [-> _].
Qed.

Lemma conns_ok_insert fd c conns :
  conns_ok conns → client_ok (cn_client c) → c_fd (cn_client c) = fd → conns_ok (<[fd := c]> conns).
Proof using Type. intros Hc H1 H2. by apply map_Forall_insert_2. Qed.

(** The state after a computation that is known to keep the invariant. *)
Ltac by_keeps Hm :=
  match type of Hm with
  | ?m _ = _ => let H := fresh in assert (keeps m) as H by apply _; by eapply H
  end.

Lemma happens_world e s s' :
  world_wf (sy_world s) → happens env e s = Some (Ok s') →
  world_wf (sy_world s') ∧ is_master (repl (sy_world s')) = is_master (repl (sy_world s))
  ∧ clock (sy_world s) ≤ clock (sy_world s').
Proof using Henv.
  pose proof keeps_handleClientCommand as Hk. intros Hw (m & Ha & Hm)%happens_ok.
  destruct e as [fd|fd r|fd|ns]; cbn [act] in Ha; repeat case_match; simplify_eq.
  - rw /connect in Hm. by_keeps Hm.
  - destruct r; cbn [receive] in Hm; by_keeps Hm.
  - rw /parse_round in Hm. by_keeps Hm.
  - rw modifyE in Hm. apply M_ret_ok in Hm as [_ ->]. cbn. destruct Hw as [H1 H2 H3].
    split; [split; [done..|cbn; lia]|]. split; [done|lia].
Qed.

Lemma happens_conns e s s' :
  conns_ok (sy_conns s) → happens env e s = Some (Ok s') → conns_ok (sy_conns s').
Proof using Type.
  intros Hc (m & Ha & Hm)%happens_ok.
  destruct e as [fd|fd r|fd|ns]; cbn [act] in Ha; [|destruct (sy_conns s !! fd) as [c|] eqn:Efd; [|done]..|].
  - repeat case_match; simplify_eq. rw /connect in Hm. apply M_bind_ok in Hm as (r & w1 & H1 & H2).
    apply M_ret_ok in H2 as [-> _]. apply handleNewClient_ok in H1 as [(cl & b & -> & -> & _)|[-> _]]; [|done].
    apply conns_ok_insert; [done|apply new_client_ok|done].
  - case_match; simplify_eq. destruct (Hc fd c Efd) as [H1 H2].
    destruct r; cbn [receive] in Hm; [| | |by apply M_ret_ok in Hm as [-> _]].
    + apply M_ret_ok in Hm as [-> _]. by apply conns_ok_insert.
    + rw bindE in Hm. apply M_ret_ok in Hm as [-> _]. by apply map_Forall_delete.
    + rw bindE in Hm. apply M_ret_ok in Hm as [-> _]. by apply map_Forall_delete.
  - case_match; simplify_eq. destruct (Hc fd c Efd) as [H1 H2]. rw /parse_round in Hm.
    apply M_bind_ok in Hm as ([[st v] b] & w1 & _ & Hm). case_match.
    + apply M_bind_ok in Hm as (v' & w2 & _ & Hm). apply M_bind_ok in Hm as (cl & w3 & Hcmd & Hm).
      apply M_ret_ok in Hm as [-> _]. apply handleClientCommand_client in Hcmd as [H3 H4]; [|done].
      apply conns_ok_insert; [done|done|by rw /= H4].
    + apply M_ret_ok in Hm as [-> _]. by apply conns_ok_insert.
  - case_match; simplify_eq. rw modifyE in Hm. by apply M_ret_ok in Hm as [-> _].
Qed.
End Invariant.


(** ** Linearisation *)

(** The connection on [fd] after the events [es], of which the commands in [h]
    have been run. *)
Definition linked (es : list event) (h : list call) (fd : Z) (c : Conn) : Prop :=
  Forall sized (served fd h) ∧ input fd es = wire (served fd h) ++ rb_buffer (cn_buffer c)
  ∧ (cn_parsing c = false → partial (rb_buffer (cn_buffer c))).
Definition linearised (env : Env) (w0 : World) (es : list event) (s : System) (h : list call) : Prop :=
  replay env h ∅ w0 = Ok (cn_client <$> sy_conns s, sy_world s)
  ∧ map_Forall (linked es h) (sy_conns s).

Lemma linked_same es h e l fd c :
  (∀ acc, sent_by fd acc e = acc) → (∀ acc, foldl (called_by fd) acc l = acc) →
  linked es h fd c → linked (es ++ [e]) (h ++ l) fd c.
Proof. intros He Hl. by rw /linked input_snoc He /served foldl_app Hl. Qed.

Lemma linearised_insert env w0 es e s h l fd c conns w :
  (∀ fd' acc, fd' ≠ fd → sent_by fd' acc e = acc) →
  (∀ fd' acc, fd' ≠ fd → foldl (called_by fd') acc l = acc) →
  map_Forall (linked es h) (sy_conns s) → linked (es ++ [e]) (h ++ l) fd c →
  replay env (h ++ l) ∅ w0 = Ok (<[fd := cn_client c]> (cn_client <$> sy_conns s), w) →
  conns = <[fd := c]> (sy_conns s) → linearised env w0 (es ++ [e]) (mkSystem w conns) (h ++ l).
Proof.
  intros He Hl Hs Hc Hr ->. split; [by rw fmap_insert|].
  intros fd' c'. rw lookup_insert_Some. intros [[<- <-]|[Hne Hc']]; [done|].
  apply linked_same; [intros acc; by apply He|intros acc; by apply Hl|by apply Hs].
Qed.

Lemma connect_linearised env w0 es s h fd m conns w :
  linearised env w0 es s h → act env (Connect fd) s = Some m → m (sy_world s) = Ok (conns, w) →
  linearised env w0 (es ++ [Connect fd]) (mkSystem w conns) (h ++ [Opened fd]).
Proof.
  intros [Hr Hc] Ha Hm. cbn [act] in Ha. repeat case_match; simplify_eq. rw /connect in Hm.
  apply M_bind_ok in Hm as (r & w1 & H1 & H2). apply M_ret_ok in H2 as [-> ->].
  assert (replay env (h ++ [Opened fd]) ∅ w0 =
          Ok (match r with Some (client, _) => <[fd := client]> (cn_client <$> sy_conns s)
                         | None => cn_client <$> sy_conns s end, w1)) as Hr'.
  { eapply replay_snoc; [exact Hr|]. cbn [answer_call]. by rw bindE H1. }
  assert (∀ fd' acc, fd' ≠ fd → sent_by fd' acc (Connect fd) = acc) as He.
  { intros fd' acc Hne. cbn. by rw (proj2 (Z.eqb_neq _ _)). }
  assert (∀ fd' acc, fd' ≠ fd → foldl (called_by fd') acc [Opened fd] = acc) as Hl.
  { intros fd' acc Hne. cbn. by rw (proj2 (Z.eqb_neq _ _)). }
  apply handleNewClient_ok in H1 as [(cl & b & -> & -> & -> & ->)|[-> ->]].
  - eapply (linearised_insert _ _ _ _ _ _ _ _ (mkConn _ _ _)); [exact He|exact Hl|exact Hc| |exact Hr'|done]. rw /linked input_snoc served_snoc. cbn. rw Z.eqb_refl.
    split_and!; [done..|]. intros _. apply partial_nil.
  - split; [done|]. intros fd' c' Hc'. cbn in Hc'. destruct (decide (fd' = fd)) as [->|Hne]; [congruence|].
    apply linked_same; [intros acc; by apply He|intros acc; by apply Hl|by apply Hc].
Qed.

(** What the peer has sent, as commands, and what is left of them. *)
Lemma linked_split es h fd c cmds p :
  linked es h fd c → Forall sized cmds → partial p → input fd es = wire cmds ++ p →
  ∃ rest, cmds = served fd h ++ rest ∧ rb_buffer (cn_buffer c) = wire rest ++ p
    ∧ (cn_parsing c = false → rest = []).
Proof.
  intros (H1 & H2 & H3) Hc Hp Hi. rw H2 in Hi.
  destruct (wire_split _ _ _ _ H1 Hc Hp Hi) as (rest & -> & Hb). exists rest. split_and!; [done..|].
  intros Hpar. specialize (H3 Hpar). destruct rest as [|a rest]; [done|]. exfalso.
  rw Hb wire_cons -app_assoc in H3. apply Forall_app in Hc as [_ [Ha _]%Forall_cons].
  by eapply partial_not_whole.
Qed.

Lemma receive_linearised env w0 es s h fd r m conns w :
  linearised env w0 es s h → act env (Receive fd r) s = Some m → m (sy_world s) = Ok (conns, w) →
  ∃ l, linearised env w0 (es ++ [Receive fd r]) (mkSystem w conns) (h ++ l).
Proof.
  intros [Hr Hc] Ha Hm. cbn [act] in Ha. destruct (sy_conns s !! fd) as [c|] eqn:Efd; [|done].
  destruct (cn_parsing c) eqn:Ep; [done|]. injection Ha as <-.
  assert (∀ fd' acc, fd' ≠ fd → sent_by fd' acc (Receive fd r) = acc) as He.
  { intros fd' acc Hne. cbn. rw (proj2 (Z.eqb_neq _ _)); [by destruct r|done]. }
  assert (Hdrop : freeClientState (cn_client c) (sy_world s) = Ok ((), w) →
    linearised env w0 (es ++ [Receive fd r]) (mkSystem w (delete fd (sy_conns s))) (h ++ [Dropped fd])).
  { intros Hf. split.
    - eapply replay_snoc; [exact Hr|]. cbn [answer_call]. rw liftE lookup_fmap Efd /= bindE Hf fmap_delete //.
    - cbn [sy_conns]. intros fd' c' [Hne Hc']%lookup_delete_Some. apply linked_same; [by intros; apply He|done|by apply Hc]. }
  destruct r as [d| | |]; cbn [receive] in Hm.
  - apply M_ret_ok in Hm as [-> ->]. exists []. destruct (Hc fd c Efd) as (H1 & H2 & H3).
    eapply (linearised_insert _ _ _ _ _ _ _ _ (mkConn _ _ _)); [exact He|done|exact Hc| | |done].
    + rw /linked input_snoc /sent_by Z.eqb_refl app_nil_r /= append_data H2 -app_assoc. done.
    + rw app_nil_r insert_id; [done|by rw lookup_fmap Efd].
  - exists [Dropped fd]. apply M_bind_ok in Hm as ([] & w1 & H1 & H2). apply M_ret_ok in H2 as [-> ->]. by apply Hdrop.
  - exists [Dropped fd]. apply M_bind_ok in Hm as ([] & w1 & H1 & H2). apply M_ret_ok in H2 as [-> ->]. by apply Hdrop.
  - exists []. apply M_ret_ok in Hm as [-> ->]. rw app_nil_r. split; [done|].
    cbn [sy_conns]. intros fd' c' Hc'. rw -(app_nil_r h). by apply linked_same; [|done|apply Hc].
Qed.

Lemma serve_linearised env w0 es s h fd cmds p m conns w :
  memory env = Zeroed → Forall sized cmds → partial p → input fd es = wire cmds ++ p →
  linearised env w0 es s h → act env (Serve fd) s = Some m → m (sy_world s) = Ok (conns, w) →
  ∃ l, linearised env w0 (es ++ [Serve fd]) (mkSystem w conns) (h ++ l).
Proof.
  intros Hj Hsz Hp Hi [Hr Hc] Ha Hm. cbn [act] in Ha. destruct (sy_conns s !! fd) as [c|] eqn:Efd; [|done].
  destruct (cn_parsing c) eqn:Ep; [|done]. injection Ha as <-.
  pose proof (Hc fd c Efd) as Hl. destruct (linked_split _ _ _ _ _ _ Hl Hsz Hp Hi) as (rest & -> & Hb & _).
  destruct Hl as (H1 & H2 & _). rw /parse_round in Hm. apply Forall_app in Hsz as [_ Hsz].
  destruct c as [cl [buf n] par]. cbn in Hb, Hm, H2, Ep. subst buf par.
  destruct rest as [|args rest].
  - destruct Hp as (args & [Ha1 Ha2] & Hp & Hne). cbn [wire map concat app] in Hm.
    rw liftE Hj (parseResp_prefix _ _ args) // andb_false_r in Hm. apply M_ret_ok in Hm as [-> ->].
    exists []. eapply (linearised_insert _ _ _ _ _ _ _ _ (mkConn _ _ _)); [done|done|exact Hc| | |done].
    + rw /linked input_snoc app_nil_r. split_and!; [done|done|]. intros _. by exists args.
    + rw app_nil_r insert_id; [done|by rw lookup_fmap Efd].
  - apply Forall_cons in Hsz as [[Ha1 Ha2] Hsz]. rw wire_cons -app_assoc in Hm.
    rw liftE Hj parseResp_command // in Hm. cbn beta iota in Hm. rw Z.eqb_refl liftE in Hm. cbn [deref] in Hm.
    apply M_bind_ok in Hm as (cl' & w1 & Hcmd & Hm). apply M_ret_ok in Hm as [-> ->].
    exists [Called fd args]. eapply (linearised_insert _ _ _ _ _ _ _ _ (mkConn _ _ _)); [done| |exact Hc| | |done].
    + intros fd' acc Hne. cbn. by rw (proj2 (Z.eqb_neq _ _)).
    + rw /linked input_snoc served_snoc /= Z.eqb_refl. split_and!; [|by rw H2 wire_snoc wire_cons -!app_assoc|done].
      apply Forall_app. split; [done|]. by apply Forall_singleton.
    + eapply replay_snoc; [exact Hr|]. cbn [answer_call]. rw liftE lookup_fmap Efd /= bindE Hcmd //.
Qed.

(** ** The steps and the loops *)

Lemma run_one env e s s' : happens env e s = Some (Ok s') → run env s [e] s'.
Proof. intros H. by apply (run_snoc env s [] e s); [constructor|]. Qed.

Lemma parse_loop_runs env fuel fd cl b w cl' b' w' conns :
  parse_loop env fuel cl b w = Ok ((cl', b'), w') →
  ∃ n, run env (mkSystem w (<[fd := mkConn cl b true]> conns)) (replicate n (Serve fd))
           (mkSystem w' (<[fd := mkConn cl' b' false]> conns)).
Proof.
  revert cl b w. induction fuel as [|fuel IH]; intros cl b w Hl; [done|]. cbn [parse_loop] in Hl.
  apply M_bind_ok in Hl as ([[st v] b1] & w1 & [Hp ->]%lift_ok & Hl).
  destruct (st =? RESP_OK) eqn:Est.
  - apply M_bind_ok in Hl as (v1 & w2 & [Hv ->]%lift_ok & Hl).
    apply M_bind_ok in Hl as (cl1 & w3 & Hcmd & Hl). destruct (IH _ _ _ Hl) as [n Hn].
    exists (S n). eapply (run_app env _ [Serve fd]); [|exact Hn].
    apply run_one. rw /happens /=. rw lookup_insert_eq /= /parse_round liftE Hp Est liftE Hv bindE Hcmd /=.
    by rw insert_insert_eq.
  - apply M_ret_ok in Hl as [[= -> ->] ->]. exists 1%nat. apply run_one.
    rw /happens /=. rw lookup_insert_eq /= /parse_round liftE Hp Est /=. by rw insert_insert_eq.
Qed.

(** What [recv] returned on a descriptor in a schedule of that descriptor's
    events only. *)
Definition received_on (e : event) : option received :=
  match e with Receive _ r => Some r | _ => None end.
Definition about (fd : Z) (e : event) : Prop :=
  match e with Receive fd' _ | Serve fd' => fd' = fd | _ => False end.
Definition goes_on (r : received) : Prop :=
  match r with Data _ | WouldBlock => True | _ => False end.



(** ** A descriptor that outlives its connection *)

Definition is_replica_fd (fd : Z) (w : World) : Prop :=
  match ri_replicas (repl w) with Some rs => fd ∈ map r_fd (replicas rs) | None => False end.

(** C30. A replica that disconnects stays in the list: nothing on the way out
    removes it.  The operating system gives its descriptor to the next client,
    who from then on is sent every command that is propagated, between the
    replies to its own. *)
Theorem replica_descriptor_reused env fd c conns w es :
  conns !! fd = Some c → cn_parsing c = false → c_fd (cn_client c) = fd → 0 ≤ fd < MAX_CLIENTS →
  is_replica_fd fd w →
  ∃ w', run env (mkSystem w conns) [Receive fd Disconnected; Connect fd]
          (mkSystem w' (<[fd := mkConn (mkClient fd false (Some createCommandQueue)) createRespBuffer false]> conns))
    ∧ is_replica_fd fd w'
    ∧ (∀ rs, ri_replicas (repl w') = Some rs → NoDup (map r_fd (replicas rs)) →
       let cmd := cstr (createRespArrayFromElements es) in
       ∃ w'', propagate env (RespArray es) w' = Ok ((), w'') ∧ Wrote fd cmd ∈ ios w'').
Proof.
  intros Hc Hp Hfd Hr Hi. exists (with_ios (ios w ++ [Closed fd]) w). split; [|split; [done|]].
  - eapply (run_snoc _ _ [Receive fd Disconnected] _ (mkSystem _ (delete fd conns))).
    + apply run_one. rw /happens /= Hc Hp /= Hfd //.
    + rw /happens /=. rw lookup_delete_eq (proj2 (Z.leb_le _ _)) /=; [|lia].
      rw /connect bindE /handleNewClient (proj2 (Z.leb_gt _ _)); [|lia]. cbn.
      by rw insert_delete_eq.
  - intros rs Hrs Hd cmd. cbn in Hrs. rw /is_replica_fd Hrs in Hi.
    rw /propagate /propagateCommand. cbn [repl_info server with_ios ios]. rw Hrs.
    cbn [command_elements mbind res_bind deref].
    pose proof (propagate_loop_deliver (writes env) cmd (replicas rs) [] (replica_capacity rs)
      (repl_offset (repl w)) (ios w ++ [Closed fd]) Hd) as Hl.
    destruct rs as [l cap]. cbn in Hl, Hi |- *. rw Hl.
    destruct (deliver _ _ _ _) as [[kept n] log] eqn:Ed. eexists. split; [done|].
    cbn. change log with (kept, n, log).2. rw -Ed. by apply deliver_writes.
Qed.

(** ** Examples *)

(** Two clients; the first command of one arrives in two pieces, around the
    whole command of the other. *)
Definition ex_set : bytes := resp_command [bs "SET"; bs "k"; bs "v"].
Definition ex_get : bytes := resp_command [bs "GET"; bs "k"].
Definition ex_schedule : list event :=
  [Connect 5; Connect 6; Receive 5 (Data (take 9 ex_set)); Serve 5;
   Receive 6 (Data ex_get); Receive 5 (Data (drop 9 ex_set)); Serve 6; Pass 10; Serve 5].
Definition ex_reached : System := default (mkSystem ex_world ∅) (exec ex_env ex_schedule (mkSystem ex_world ∅)).

Lemma ex_schedule_run : run ex_env (mkSystem ex_world ∅) ex_schedule ex_reached.
Proof.
  apply exec_run. rw /ex_reached.
  destruct (exec ex_env ex_schedule (mkSystem ex_world ∅)) as [s|] eqn:E; [done|].
  apply (f_equal (λ o, match o with Some _ => true | None => false end)) in E.
  vm_compute in E. by case (Bool.diff_true_false E).
Qed.

Lemma ex_schedule_polite : polite ex_schedule.
Proof.
  change (polite (((((((([] ++ [Connect 5]) ++ [Connect 6]) ++ [Receive 5 (Data (take 9 ex_set))]) ++ [Serve 5])
    ++ [Receive 6 (Data ex_get)]) ++ [Receive 5 (Data (drop 9 ex_set))]) ++ [Serve 6]) ++ [Pass 10] ++ [Serve 5])).
  rw app_assoc. repeat apply polite_snoc; try done; [apply polite_nil| | |].
  - exists [], (take 9 ex_set). split_and!; [done| |by vm_compute].
    exists [bs "SET"; bs "k"; bs "v"]. split; [repeat constructor; rw /int_sized /INT_MAX /=; lia|].
    split; [by eexists|by intros ?%(f_equal length)].
  - exists [[bs "GET"; bs "k"]], []. split_and!; [|apply partial_nil|by vm_compute].
    repeat constructor; rw /int_sized /INT_MAX /=; lia.
  - exists [[bs "SET"; bs "k"; bs "v"]], []. split_and!; [|apply partial_nil|by vm_compute].
    repeat constructor; rw /int_sized /INT_MAX /=; lia.
Qed.




(** Descriptor 7 is a replica of [ex_world]. *)
Lemma replica_descriptor_reused_witness :
  let conns := <[7 := mkConn (mkClient 7 false (Some createCommandQueue)) createRespBuffer false]> (∅ : gmap Z Conn) in
  ∃ w', run ex_env (mkSystem ex_world conns) [Receive 7 Disconnected; Connect 7]
          (mkSystem w' (<[7 := mkConn (mkClient 7 false (Some createCommandQueue)) createRespBuffer false]> conns))
    ∧ is_replica_fd 7 w'
    ∧ (∀ rs, ri_replicas (repl w') = Some rs → NoDup (map r_fd (replicas rs)) →
       let cmd := cstr (createRespArrayFromElements [RespBulk (bs "SET"); RespBulk (bs "k"); RespBulk (bs "v")]) in
       ∃ w'', propagate ex_env (RespArray [RespBulk (bs "SET"); RespBulk (bs "k"); RespBulk (bs "v")]) w' = Ok ((), w'')
         ∧ Wrote 7 cmd ∈ ios w'').
Proof.
  apply (replica_descriptor_reused ex_env 7 (mkConn (mkClient 7 false (Some createCommandQueue)) createRespBuffer false));
    [done|done|done|rw /MAX_CLIENTS; lia|by left].
Defined.
