(* ===== verification/Interleave.v ===== *)
(** * Commands between the locks of the store (src/app/command.c,
      src/app/redis_store.c)

    The store takes its lock for each call, not for a command: a command that
    calls it twice can have the commands of other threads in between.  Here a
    command is a program whose steps are the calls of the store; [INCR], which
    reads the value, computes, and writes it, is one of two steps. *)

From S2P Require Import Prelude CLib Resp Store Replicas World Command Invariants Handlers.

(** ** Programs of atomic steps *)

Inductive prog (A : Type) : Type :=
| Done (a : A)
| Atomic {B : Type} (m : M B) (k : B → prog A).
Arguments Done {A} a.
Arguments Atomic {A B} m k.

(** The program with nothing in between. *)
Fixpoint alone {A} (p : prog A) : M A :=
  match p with
  | Done a => mret a
  | Atomic m k => b ← m; alone (k b)
  end.

(** The next step of a program, if it has not ended. *)
Definition advance {A} (p : prog A) (w : World) : option (res (prog A * World)) :=
  match p with
  | Done _ => None
  | Atomic m k => Some ('(b, w') ← m w; Ok (k b, w'))
  end.

(** Threads that run programs on one server, in any order. *)
Inductive turn {A} : World * list (prog A) → World * list (prog A) → Prop :=
| turn_step i w ts p p' w' :
    ts !! i = Some p → advance p w = Some (Ok (p', w')) → turn (w, ts) (w', <[i := p']> ts).

(** ** INCR *)

(** What is done with the value read, up to the reply. *)
Definition incr_write (key : bytes) (value : option bytes) : prog reply :=
  match value with
  | Some v =>
      let '(numValue, endptr) := strtoll (v ++ [NUL]) in
      if negb (bool_decide (endptr = [])) then
        Done (Some (createError (bs "ERR value is not an integer or out of range")))
      else
        Atomic (numValue ← lift (add_s64 numValue 1);
                let newStr := snprintf 32 (print_s numValue) in
                _ ← store_set key (cstr newStr);
                mret numValue)
               (λ numValue, Done (Some (createInteger numValue)))
  | None => Atomic (store_set key (bs "1")) (λ _, Done (Some (createInteger 1)))
  end.
Definition incr_prog (command : RespValue) : prog reply :=
  Atomic (key ← arg command 1; value ← store_get key; mret (key, value))
         (λ '(key, value), incr_write key value).

Lemma incr_prog_alone command w : alone (incr_prog command) w = handleIncrement command w.
Proof.
  cbn [alone incr_prog]. rw /handleIncrement !bindE.
  destruct (arg command 1 w) as [[key w1]| |]; [|done..]. rw !bindE.
  destruct (store_get key w1) as [[[v|] w2]| |]; [|done..]. cbn [mret M_ret incr_write].
  destruct (strtoll (v ++ [NUL])) as [n r]. case_match; [done|]. cbn [alone]. rw bindE !liftE.
  destruct (add_s64 n 1) as [n1| |]; [|done..]. rw !bindE.
  by destruct (store_set key _ w2) as [[[] w3]| |].
Qed.

(** ** Racing increments *)

Section Race.
Context (name key : bytes) (n : Z) (total : nat).

Definition incr : prog reply := incr_prog (request [name; key]).
(** The key holds the number [v]. *)
Definition holds (v : Z) (w : World) : Prop :=
  world_wf w ∧ KV.get (now_ms w) (wview w) key = Some (print_s v).

(** A thread: not begun; having read a number; finished, of which there are
    [d]. *)
Inductive phase (d : nat) : prog reply → Prop :=
| phase_start : phase d incr
| phase_read m : n ≤ m ≤ n + Z.of_nat d → phase d (incr_write key (Some (print_s m)))
| phase_done m : n + 1 ≤ m ≤ n + Z.of_nat d → phase d (Done (Some (createInteger m))).

Definition finished (p : prog reply) : bool := match p with Done _ => true | Atomic _ _ => false end.

(** What every reachable state satisfies. *)
Definition race_inv (s : World * list (prog reply)) : Prop :=
  let '(w, ts) := s in
  let d := count finished ts in
  length ts = total ∧ Forall (phase d) ts
  ∧ ∃ v, holds v w ∧ n ≤ v ≤ n + Z.of_nat d ∧ ((0 < d)%nat → n + 1 ≤ v).

Lemma phase_mono d d' p : (d ≤ d')%nat → phase d p → phase d' p.
Proof using Type. intros Hd Hp. destruct Hp; constructor; lia. Qed.

Lemma get_set_same now m v v' :
  KV.get now m key = Some v → KV.get now (KV.set m key v') key = Some v'.
Proof using Type.
  rw /KV.get /KV.set lookup_insert_eq. destruct (m !! cstr key) as [[[d|s] x]|]; [|done..].
  by cbn; case_decide.
Qed.

Lemma print_parse m : in_s64 m → strtoll (print_s m ++ [NUL]) = (m, []).
Proof using Type. intros Hm. by rw strtoll_app_nul strtoll_print_s. Qed.

(** The two steps of an increment. *)
Lemma advance_start v w : holds v w → advance incr w = Some (Ok (incr_write key (Some (print_s v)), w)).
Proof using Type.
  intros [Hw Hg]. cbn [advance incr incr_prog]. next_arg. rw store_getE; [|done]. by rw Hg.
Qed.

Lemma advance_write v m w :
  holds v w → in_s64 m → m < LLONG_MAX →
  ∃ w', advance (incr_write key (Some (print_s m))) w = Some (Ok (Done (Some (createInteger (m + 1))), w'))
    ∧ holds (m + 1) w'.
Proof using Type.
  intros [Hw Hg] Hm Hlt. cbn [incr_write]. rw print_parse //. rw bool_decide_true; [|done].
  cbn [negb advance]. rw liftE (add_s64_one m Hm) decide_False; [|lia].
  assert (in_s64 (m + 1)) as Hm1 by (rw /in_s64 /LLONG_MAX in Hm Hlt |- *; lia).
  rw snprintf_fits; [|pose proof (print_s_length (m + 1) Hm1); lia].
  rw cstr_nonul; [|by apply print_s_free].
  destruct (store_setE key (print_s (m + 1)) w Hw) as (h & st & Hw1 & Hv1 & ->).
  eexists. split; [done|]. split; [done|].
  change (now_ms (with_db h st w)) with (now_ms w). rw /wview /= Hv1. by eapply get_set_same.
Qed.

Context (Hn : in_s64 n) (Hmax : n + Z.of_nat total ≤ LLONG_MAX).

Lemma write_unfinished m : in_s64 m → finished (incr_write key (Some (print_s m))) = false.
Proof using Type. intros Hm. cbn [incr_write]. by rw print_parse. Qed.

Lemma race_step s s' : race_inv s → turn s s' → race_inv s'.
Proof using Hn Hmax.
  intros Hinv Hs. destruct Hs as [i w ts p p' w' Hi Ha].
  destruct Hinv as (Hlen & Hph & v & Hv & Hb & Hpos). 
  assert (count finished ts ≤ total)%nat as Hd by (rw -Hlen; apply length_filter).
  assert (in_s64 v) as Hvs by (unfold in_s64, LLONG_MAX in *; lia).
  pose proof (Forall_lookup_1 _ _ _ _ Hph Hi) as Hp.
  pose proof (count_insert finished ts i p p' Hi) as Hc.
  assert (finished p = false → (count finished ts < total)%nat) as Hlt
    by (intros Hf; rw -Hlen; by eapply count_lt).
  destruct Hp as [|m Hm|m Hm]; [| |done].
  - rw (advance_start v) // in Ha.
    assert (p' = incr_write key (Some (print_s v)) ∧ w' = w) as [-> ->] by (split; congruence).
    rw write_unfinished // in Hc.
    change (finished incr) with false in Hc.
    assert (count finished (<[i:=incr_write key (Some (print_s v))]> ts) = count finished ts) as E by lia.
    rw /race_inv E length_insert. split; [done|]. split; [|by exists v].
    apply Forall_insert; [done|]. by constructor.
  - assert (in_s64 m) as Hms by (unfold in_s64, LLONG_MAX in *; lia). rw write_unfinished // in Hc.
    destruct (advance_write v m w Hv Hms) as (w1 & Ha' & Hv').
    { specialize (Hlt (write_unfinished m Hms)). lia. }
    rw Ha in Ha'. simplify_eq. cbn in Hc. rw /race_inv length_insert. split; [done|]. split.
    + apply Forall_insert; [|constructor; lia]. eapply Forall_impl; [exact Hph|].
      intros q. apply phase_mono. lia.
    + exists (m + 1). split; [done|]. split; lia.
Qed.

Lemma race_reach s s' : race_inv s → rtc turn s s' → race_inv s'.
Proof using Hn Hmax. intros H1 H2. induction H2 as [|s s1 s' Hs _ IH]; [done|]. by apply IH, (race_step s). Qed.

End Race.

(** C27. Threads that increment one counter at the same time, in any order of
    their calls of the store: when all have answered, the counter has grown by
    at least one and at most by their number, and so has each answer.  Below
    that number, updates are lost. *)
Theorem incr_race_bounds name key n total w0 w ts :
  (0 < total)%nat → in_s64 n → n + Z.of_nat total ≤ LLONG_MAX → holds key n w0 →
  rtc turn (w0, replicate total (incr name key)) (w, ts) → Forall (λ p, finished p = true) ts →
  ∃ v, holds key v w ∧ n + 1 ≤ v ≤ n + Z.of_nat total
    ∧ Forall (λ p, ∃ m, p = Done (Some (createInteger m)) ∧ n + 1 ≤ m ≤ n + Z.of_nat total) ts.
Proof.
  intros Htot Hn Hmax H0 Hr Hf.
  assert (race_inv name key n total (w0, replicate total (incr name key))) as Hinv.
  { split; [apply length_replicate|]. split; [apply Forall_replicate; constructor|].
    assert (count finished (replicate total (incr name key)) = 0%nat) as -> by (clear; by induction total).
    exists n. split; [done|]. lia. }
  apply race_reach with (s' := (w, ts)) in Hinv as (Hlen & Hph & v & Hv & Hb & Hpos); [|done..].
  assert (count finished ts = total) as Hd.
  { rw -Hlen. by apply count_all. }
  rw Hd in Hb, Hpos, Hph. exists v. split; [done|]. split; [lia|].
  rw !Forall_forall in Hf, Hph |- *. intros p Hp. specialize (Hf p Hp). destruct (Hph p Hp) as [|m Hm|m Hm].
  - done.
  - rw write_unfinished in Hf; [done|]. unfold in_s64, LLONG_MAX in *; lia.
  - by exists m.
Qed.

Lemma both_read_first name key n w :
  in_s64 n → n < LLONG_MAX → holds key n w →
  ∃ w', rtc turn (w, [incr name key; incr name key])
          (w', [Done (Some (createInteger (n + 1))); Done (Some (createInteger (n + 1)))])
    ∧ holds key (n + 1) w'.
Proof.
  intros Hn Hmax H0. destruct (advance_write key n n w H0 Hn Hmax) as (w1 & E1 & H1).
  destruct (advance_write key (n + 1) n w1 H1 Hn Hmax) as (w2 & E2 & H2).
  exists w2. split; [|done].
  eapply rtc_l; [by eapply (turn_step 0); [|by apply (advance_start name key n)]|].
  eapply rtc_l; [by eapply (turn_step 1); [|by apply (advance_start name key n)]|].
  eapply rtc_l; [by eapply (turn_step 0); [|exact E1]|].
  eapply rtc_l; [by eapply (turn_step 1); [|exact E2]|]. apply rtc_refl.
Qed.

(** C28. An update is lost: there is an order in which two clients increment a
    counter, both are answered the same number, and it has grown by one. *)
Theorem incr_lost_update name key n w :
  in_s64 n → n < LLONG_MAX → holds key n w →
  ∃ w', rtc turn (w, [incr name key; incr name key])
          (w', [Done (Some (createInteger (n + 1))); Done (Some (createInteger (n + 1)))])
    ∧ holds key (n + 1) w'.
Proof. apply both_read_first. Qed.

(** The counter of the example server holds 41. *)
Lemma ex_holds : holds (bs "n") 41 ex_world1.
Proof. split; [apply ex_world1_wf|by vm_compute]. Qed.

Lemma incr_race_bounds_witness :
  ∃ w v, rtc turn (ex_world1, replicate 2 (incr (bs "INCR") (bs "n")))
           (w, [Done (Some (createInteger 42)); Done (Some (createInteger 42))])
    ∧ holds (bs "n") v w ∧ 42 ≤ v ≤ 43.
Proof.
  destruct (both_read_first (bs "INCR") (bs "n") 41 ex_world1) as (w & Hr & _);
    [by split|by vm_compute|apply ex_holds|].
  destruct (incr_race_bounds (bs "INCR") (bs "n") 41 2 ex_world1 w _ ltac:(lia) ltac:(by split)
    ltac:(by vm_compute) ex_holds Hr ltac:(by repeat constructor)) as (v & Hv & Hb & _).
  exists w, v. split; [exact Hr|]. split; [exact Hv|]. change (41 + Z.of_nat 2) with 43 in Hb. lia.
Defined.

Lemma incr_lost_update_witness :
  ∃ w', rtc turn (ex_world1, [incr (bs "INCR") (bs "n"); incr (bs "INCR") (bs "n")])
          (w', [Done (Some (createInteger 42)); Done (Some (createInteger 42))])
    ∧ holds (bs "n") 42 w'.
Proof. apply (incr_lost_update (bs "INCR") (bs "n") 41 ex_world1); [by split|by vm_compute|apply ex_holds]. Defined.
