(* ===== verification/Handshake.v ===== *)
(** * The replica's side of the handshake (src/app/handshake.c,
      src/app/networking.c)

    Exact reads and writes on a socket, and [startReplication] as a
    computation over the bytes the master will send before it closes the
    connection.  Its failures all close the socket and answer -1. *)

From S2P Require Import Prelude CLib Resp Replicas.

(** ** Sockets *)

(** What is still to come from the peer, and the log of writes and closes. *)
Record link := mkLink { incoming : bytes; l_log : list io }.

(** The loop of [writeExactly]: every round transfers something, so the bytes
    left bound the rounds. *)
Fixpoint write_loop (fuel : nat) (w : write_result) (fd : Z) (data : bytes) (log : list io)
    : bool * list io :=
  match fuel with
  | O => (true, log)
  | S fuel' =>
      match data with
      | [] => (true, log)
      | _ =>
          let count := w log fd data in
          let log := log ++ [Wrote fd data] in
          if count <=? 0 then (false, log)
          else write_loop fuel' w fd (drop (Z.to_nat count) data) log
      end
  end.
Definition writeExactly (w : write_result) (fd : Z) (data : bytes) (log : list io) : bool * list io :=
  if (fd <? 0) || bool_decide (data = []) then (false, log)
  else write_loop (length data) w fd data log.

Definition readExactly (fd : Z) (n : nat) (inc : bytes) : option (bytes * bytes) :=
  if (fd <? 0) || (n =? 0)%nat then None
  else if (length inc <? n)%nat then None else Some (take n inc, drop n inc).

(** [acc] is what is in the buffer, [room] what is left of it. *)
Fixpoint read_line_loop (room : nat) (acc inc : bytes) : option (bytes * bytes) :=
  match room with
  | O => Some (acc, inc)
  | S room' =>
      match inc with
      | [] => None
      | c :: inc' =>
          let acc' := acc ++ [c] in
          if decide (c = LF ∧ last acc = Some CR) then Some (acc', inc')
          else read_line_loop room' acc' inc'
      end
  end.
Definition readLine (fd : Z) (max_len : nat) (inc : bytes) : option (bytes * bytes) :=
  if (fd <? 0) || (max_len <=? 1)%nat then None else read_line_loop (max_len - 1) [] inc.

(** [dial] is what the network answers to a connection. *)
Definition connectToHost (dial : bytes → Z → option Z) (host : bytes) (port : Z) : option Z :=
  if port <=? 0 then None
  else dial (if strcmp_eq host (bs "localhost") then bs "127.0.0.1" else host) port.

(** ** Steps of the exchange *)

Definition H (A : Type) : Type := link → option A * link.
#[export] Instance H_ret : MRet H := λ A a l, (Some a, l).
#[export] Instance H_bind : MBind H := λ A B f m l,
  match m l with (Some a, l') => f a l' | (None, l') => (None, l') end.

Definition fail {A} (fd : Z) : H A := λ l, (None, mkLink (incoming l) (l_log l ++ [Closed fd])).

Definition send_command (w : write_result) (fd : Z) (elements : list bytes) : H unit := λ l,
  let '(ok, log) := writeExactly w fd (cstr (createRespArray elements)) (l_log l) in
  let l := mkLink (incoming l) log in
  if ok : bool then (Some (), l) else fail fd l.

(** [readLine] into the buffer of 1024 bytes, then a test of what it holds. *)
Definition read_reply (fd : Z) (accepts : bytes → bool) : H bytes := λ l,
  match readLine fd 1024 (incoming l) with
  | None => fail fd l
  | Some (line, rest) =>
      let l := mkLink rest (l_log l) in
      if accepts line then (Some line, l) else fail fd l
  end.
Definition starts_with (p : string) (line : bytes) : bool :=
  strncmp_eq line (bs p) (length (bs p)).

(** The loop that reads the dump. *)
Definition read_rdb (fd size : Z) : H unit := λ l,
  if Z.of_nat (length (incoming l)) <? size then fail fd (mkLink [] (l_log l))
  else (Some (), mkLink (drop (Z.to_nat size) (incoming l)) (l_log l)).

Definition PING_COMMAND : list bytes := [bs "PING"].
Definition PORT_COMMAND (port : Z) : list bytes :=
  [bs "REPLCONF"; bs "listening-port"; snprintf 32 (print_s port)].
Definition CAPA_COMMAND : list bytes := [bs "REPLCONF"; bs "capa"; bs "psync2"].
Definition PSYNC_COMMAND : list bytes := [bs "PSYNC"; bs "?"; bs "-1"].

Definition startReplication (dial : bytes → Z → option Z) (w : write_result)
    (master_info : MasterInfo) (listening_port : Z) : H MasterInfo := λ l,
  match connectToHost dial (mi_host master_info) (mi_port master_info) with
  | None => (None, l)
  | Some fd =>
      (_ ← send_command w fd PING_COMMAND;
       _ ← read_reply fd (starts_with "+PONG");
       _ ← send_command w fd (PORT_COMMAND listening_port);
       _ ← read_reply fd (starts_with "+OK");
       _ ← send_command w fd CAPA_COMMAND;
       _ ← read_reply fd (starts_with "+OK");
       _ ← send_command w fd PSYNC_COMMAND;
       _ ← read_reply fd (starts_with "+FULLRESYNC");
       size ← read_reply fd (starts_with "$");
       _ ← read_rdb fd (atoi (drop 1 size));
       mret (mkMasterInfo (mi_host master_info) (mi_port master_info) fd)) l
  end.

(** ** Lemmas *)

Lemma read_line_loop_line l r room acc :
  LF ∉ l → (length l + 2 ≤ room)%nat →
  read_line_loop room acc (l ++ CRLF ++ r) = Some (acc ++ l ++ CRLF, r).
Proof.
  revert room acc. induction l as [|c l IH]; intros room acc Hl Hr.
  - destruct room as [|[|room]]; [cbn in Hr; lia..|]. cbn [app read_line_loop CRLF].
    case_decide as H1; [by destruct H1|]. case_decide as H2; [by rw -app_assoc|].
    destruct H2. by rw last_snoc.
  - apply not_elem_of_cons in Hl as [Hc Hl]. destruct room as [|room]; [cbn in Hr; lia|].
    cbn [app read_line_loop]. rw decide_False; [|by intros [-> _]].
    rw IH; [|done|cbn in Hr; lia]. by rw -app_assoc.
Qed.

Lemma readLine_line fd l r :
  0 ≤ fd → LF ∉ l → (length l ≤ 1021)%nat → readLine fd 1024 (l ++ CRLF ++ r) = Some (l ++ CRLF, r).
Proof.
  intros Hfd Hl Hn. rw /readLine (proj2 (Z.ltb_ge _ _)) //. cbn [orb Nat.leb].
  apply read_line_loop_line; [done|lia].
Qed.

Lemma read_reply_line {B} fd p l r log (f : bytes → H B) :
  0 ≤ fd → LF ∉ l → (length l ≤ 1021)%nat → starts_with p (l ++ CRLF) = true →
  (read_reply fd (starts_with p) ≫= f) (mkLink (l ++ CRLF ++ r) log) = f (l ++ CRLF) (mkLink r log).
Proof.
  intros Hfd Hl Hn Hp. rw /mbind /H_bind /read_reply. cbn [incoming]. by rw readLine_line // Hp.
Qed.

Lemma writeExactly_all w fd data log :
  0 ≤ fd → data ≠ [] → writes_all w [fd] → writeExactly w fd data log = (true, log ++ [Wrote fd data]).
Proof.
  intros Hfd Hd Hw. rw /writeExactly (proj2 (Z.ltb_ge _ _)) // bool_decide_false //. cbn [orb].
  destruct data as [|c data]; [done|]. cbn [length write_loop].
  rw Hw; [|by left]. rw (proj2 (Z.leb_gt _ _)); [|cbn [length]; lia].
  rw Nat2Z.id drop_all. by destruct (length data).
Qed.

Lemma send_command_all {B} w fd es inc log (f : unit → H B) :
  0 ≤ fd → writes_all w [fd] →
  (send_command w fd es ≫= f) (mkLink inc log) =
  f () (mkLink inc (log ++ [Wrote fd (resp_command (map cstr es))])).
Proof.
  intros Hfd Hw. rw /mbind /H_bind /send_command. cbn [l_log incoming].
  assert (cstr (createRespArray es) = resp_command (map cstr es)) as ->.
  { rw -createRespArray_spec. apply cstr_idemp. }
  rw writeExactly_all //; apply resp_command_nonempty.
Qed.

(** ** The exchange with a master that accepts *)

(** What such a master sends: three short answers, the resynchronisation
    line, and the dump with its length. *)
Definition accepted (full dump : bytes) : bytes :=
  (bs "+PONG" ++ CRLF) ++ (bs "+OK" ++ CRLF) ++ (bs "+OK" ++ CRLF)
  ++ (bs "+FULLRESYNC" ++ full ++ CRLF)
  ++ ("$"%char :: print_u (Z.of_nat (length dump)) ++ CRLF) ++ dump.

Lemma starts_with_app p l : NUL ∉ bs p → starts_with p (bs p ++ l) = true.
Proof.
  intros Hp. rw /starts_with /strncmp_eq cstr_nonul_app // (cstr_nonul (bs p)) //.
  rw take_app_length take_ge //. by apply bool_decide_true.
Qed.

Lemma startReplication_accepted dial w mi port fd full dump rest log :
  connectToHost dial (mi_host mi) (mi_port mi) = Some fd → 0 ≤ fd → writes_all w [fd] →
  LF ∉ full → (length full ≤ 1000)%nat → Z.of_nat (length dump) ≤ INT_MAX →
  startReplication dial w mi port (mkLink (accepted full dump ++ rest) log) =
  (Some (mkMasterInfo (mi_host mi) (mi_port mi) fd),
   mkLink rest (log ++ map (λ es, Wrote fd (resp_command (map cstr es)))
                        [PING_COMMAND; PORT_COMMAND port; CAPA_COMMAND; PSYNC_COMMAND])).
Proof.
  intros Hc Hfd Hw Hlf Hlen Hd. rw /startReplication Hc /accepted -!app_assoc.
  rw send_command_all // read_reply_line //; [|by_decide|cbn; lia].
  rw send_command_all // read_reply_line //; [|by_decide|cbn; lia].
  rw send_command_all // read_reply_line //; [|by_decide|cbn; lia].
  rw send_command_all //.
  rw (app_assoc (bs "+FULLRESYNC") full). rw read_reply_line; [|done| | |].
  2: { rw not_elem_of_app. split; [by_decide|done]. }
  2: { rw length_app. cbn. lia. }
  2: { rw -app_assoc. apply starts_with_app. by_decide. }
  change ("$"%char :: print_u ?n ++ CRLF) with (line "$" n ++ CRLF). rw -app_assoc read_reply_line; [|done| | |].
  2: { apply line_free; [done|done|lia]. }
  2: { rw /line. cbn [length]. pose proof (print_u_length_max (Z.of_nat (length dump))). lia. }
  2: { rw /line. apply (starts_with_app "$"). by_decide. }
  cbn [drop app line]. rw drop_0 atoi_print_u; [|lia|done].
  rw /mbind /H_bind /read_rdb. cbn [incoming l_log].
  rw (proj2 (Z.ltb_ge _ _)); [|rw length_app; lia]. rw Nat2Z.id drop_app_length /=.
  by rw -!app_assoc.
Qed.
