(* ===== verification/Replication.v ===== *)
(** * A replica joining a master

    The two sides of the handshake put together: what [startReplication]
    sends is served by a master's connection loop, and what the master answers
    is what [startReplication] accepts. *)

From S2P Require Import Prelude CLib Resp Store CommandQueue Replicas World Command.
From S2P Require Import Invariants Handlers Server Client Handshake.

Definition handshake_requests (port : Z) : list (list bytes) :=
  [PING_COMMAND; PORT_COMMAND port; CAPA_COMMAND; PSYNC_COMMAND].

(** ** The master's side *)

Lemma serve_reply env cmd client r w w' :
  well_formed cmd = true → 0 ≤ c_fd client →
  executeCommand env 2 cmd client w = Ok ((Some r, client), w') →
  handleClientCommand env cmd client w =
  Ok (client, with_ios (ios w' ++ [Wrote (c_fd client) (cstr r)]) w').
Proof.
  intros Hf Hfd He. rw /handleClientCommand Hf. cbn [negb]. rw bindE He. cbn beta iota.
  rw bindE /sendReply (proj2 (Z.ltb_ge _ _)) //.
Qed.

(** The same where the state is only read, several times over. *)
Lemma serve_cons env args cmds client r w :
  0 ≤ c_fd client → well_formed (request args) = true →
  executeCommand env 2 (request args) client w = Ok ((Some r, client), w) →
  serve env (args :: cmds) client w =
  serve env cmds client (with_ios (ios w ++ [Wrote (c_fd client) (cstr r)]) w).
Proof. intros Hfd Hf He. cbn [serve]. by rw bindE (serve_reply _ (request args) _ r _ w). Qed.

Definition psync_reply (ri : ReplicationInfo) : bytes :=
  ("+"%char :: (bs "FULLRESYNC " ++ replication_id ri ++ " "%char :: print_s (repl_offset ri)) ++ CRLF)
  ++ bs "$17" ++ CRLF ++ EMPTY_RDB.

(** The identifier that a server has is a word of forty characters. *)
Definition id_ok (ri : ReplicationInfo) : Prop :=
  NUL ∉ replication_id ri ∧ LF ∉ replication_id ri ∧ (length (replication_id ri) ≤ 900)%nat
  ∧ in_s64 (repl_offset ri).

Lemma psync_line_free c ri :
  id_ok ri → c ∉ replication_id ri → is_digit c = false → c ≠ DASH → c ≠ " "%char → c ∉ bs "FULLRESYNC " →
  c ∉ bs "FULLRESYNC " ++ replication_id ri ++ " "%char :: print_s (repl_offset ri).
Proof.
  intros _ H1 H2 H3 H4 H5. rw !not_elem_of_app not_elem_of_cons. split_and!; try done. by apply print_s_free.
Qed.

Lemma handlePsync_master cmd client w :
  world_wf w → is_master (repl w) = true → id_ok (repl w) →
  ∃ ri, handlePsync cmd client w = Ok (Some (psync_reply (repl w)), with_repl ri w)
    ∧ addReplica (c_fd client) (repl w) = Ok ri.
Proof.
  intros Hw Hm Hid. rw /handlePsync getsE Hm. cbn [negb].
  rw /is_master in Hm. destruct (master_info (repl w)) eqn:Emi; [done|].
  destruct (addReplica_wf (c_fd client) _ (ww_repl _ Hw) Emi) as (ri & E & _ & _ & _).
  exists ri. split; [|done]. rw liftE E modifyE. f_equal. f_equal. f_equal.
  destruct Hid as (Hn & Hl & Hlen & Hoff). pose proof (print_s_length _ Hoff) as Hp.
  assert (id_ok (repl w)) as Hid by done.
  rw (cstr_nonul (replication_id _)) // /createFormattedSimpleString snprintf_fits;
    [|rw !length_app length_cons; cbn [bs String.list_ascii_of_string length]; lia].
  rw /createSimpleString (cstr_nonul (bs _ ++ _)); [|by apply psync_line_free; try done; by_decide].
  rw (_ : snprintf 32 _ = bs "$17" ++ CRLF); [|by vm_compute].
  rw /strndup !append_data. cbn [rb_buffer createRespBuffer app].
  rw /psync_reply. set (line := bs "FULLRESYNC " ++ _).
  assert (NUL ∉ line) as Hline by (apply psync_line_free; try done; by_decide).
  assert (NUL ∉ "+"%char :: line ++ CRLF) as Hnul.
  { rw not_elem_of_cons not_elem_of_app. split_and!; [done|done|by_decide]. }
  rw (cstr_nonul ("+"%char :: _)) //. rw cstr_nonul; [by rw -app_assoc|].
  rw !not_elem_of_app. split; [split; [done|by_decide]|by_decide].
Qed.

Lemma executePsync env cl w ri r :
  in_transaction cl = false →
  handlePsync (request PSYNC_COMMAND) cl w = Ok (Some r, with_repl ri w) →
  executeCommand env 2 (request PSYNC_COMMAND) cl w = Ok ((Some r, cl), with_repl ri w).
Proof.
  intros Ht Hp. rw (executeCommandE _ 1) executeE.
  rw (_ : classify _ = Ok (Runs (bs "PSYNC") (mkHandler (bs "PSYNC") HPsync 3 3))); [|by vm_compute].
  rw (_ : is_control (bs "PSYNC") = false); [|by vm_compute]. rw Ht.
  cbn [h_handler run_handler]. rw plainE Hp getsE. rw (_ : propagates _ (bs "PSYNC") = false); [done|].
  by destruct (is_master _).
Qed.

Lemma handleReplConf_ok a b w :
  strcasecmp_eq a (bs "getack") = false → strcasecmp_eq a (bs "ack") = false →
  handleReplConf (request [bs "REPLCONF"; a; b]) w = Ok (Some OK_REPLY, w).
Proof. intros H1 H2. rw /handleReplConf. next_arg. by rw H1 H2. Qed.

Lemma execute_replconf env a b cl w :
  in_transaction cl = false →
  strcasecmp_eq a (bs "getack") = false → strcasecmp_eq a (bs "ack") = false →
  executeCommand env 2 (request [bs "REPLCONF"; a; b]) cl w = Ok ((Some OK_REPLY, cl), w).
Proof.
  intros Ht H1 H2.
  eapply (run_reader _ _ _ (bs "REPLCONF") (mkHandler (bs "REPLCONF") HReplConf 3 3) _
            (handleReplConf (request [bs "REPLCONF"; a; b]))); [reflexivity..|exact Ht| | |].
  - by vm_compute.
  - reflexivity.
  - by apply handleReplConf_ok.
Qed.

Lemma execute_ping env cl w :
  in_transaction cl = false →
  executeCommand env 2 (request PING_COMMAND) cl w = Ok ((Some (createSimpleString (bs "PONG")), cl), w).
Proof.
  intros Ht. eapply (run_reader _ _ _ (bs "PING") (mkHandler (bs "PING") HPing 1 1) _
                       (handlePing (request PING_COMMAND)));
    [by vm_compute|by vm_compute|exact Ht|by vm_compute|reflexivity..].
Qed.

(** The four replies. *)
Definition handshake_replies (ri : ReplicationInfo) : list bytes :=
  [bs "+PONG" ++ CRLF; bs "+OK" ++ CRLF; bs "+OK" ++ CRLF; psync_reply ri].

Lemma psync_reply_nonul ri : id_ok ri → NUL ∉ psync_reply ri.
Proof.
  intros Hid. pose proof Hid as (Hn & _). rw /psync_reply.
  assert (NUL ∉ bs "FULLRESYNC " ++ replication_id ri ++ " "%char :: print_s (repl_offset ri)) as Hline.
  { apply psync_line_free; try done; by_decide. }
  rw not_elem_of_app not_elem_of_cons not_elem_of_app. split; [split; [done|split; [done|by_decide]]|by_decide].
Qed.

Lemma master_serves env port client w :
  world_wf w → is_master (repl w) = true → id_ok (repl w) →
  in_transaction client = false → 0 ≤ c_fd client →
  ∃ ri, addReplica (c_fd client) (repl w) = Ok ri
    ∧ serve env (handshake_requests port) client w =
      Ok (client, with_ios (ios w ++ map (Wrote (c_fd client)) (handshake_replies (repl w))) (with_repl ri w)).
Proof.
  intros Hw Hm Hid Ht Hfd.
  set (w3 := with_ios (((ios w ++ [Wrote (c_fd client) (bs "+PONG" ++ CRLF)])
                         ++ [Wrote (c_fd client) (bs "+OK" ++ CRLF)])
                         ++ [Wrote (c_fd client) (bs "+OK" ++ CRLF)]) w).
  assert (world_wf w3) as Hw3 by (by eapply world_wf_same).
  destruct (handlePsync_master (request PSYNC_COMMAND) client w3 Hw3 Hm Hid) as (ri & Hp & Ha).
  exists ri. split; [done|]. rw /handshake_requests.
  rw (serve_cons _ _ _ _ (createSimpleString (bs "PONG"))) //; [|by apply execute_ping].
  rw (serve_cons _ _ _ _ OK_REPLY) //; [|by apply execute_replconf].
  rw (serve_cons _ _ _ _ OK_REPLY) //; [|by apply execute_replconf].
  change (serve env [PSYNC_COMMAND] client w3 = Ok (client,
    with_ios (ios w ++ map (Wrote (c_fd client)) (handshake_replies (repl w))) (with_repl ri w))).
  cbn [serve]. rw bindE (serve_reply _ (request PSYNC_COMMAND) _ (psync_reply (repl w)) _ (with_repl ri w3)) //;
    [|by apply executePsync].
  rw (cstr_nonul (psync_reply _)); [|by apply psync_reply_nonul].
  rw /w3 /handshake_replies. cbn [ios with_ios with_repl with_server map]. by rw -!app_assoc.
Qed.

(** ** The replica's side *)

Lemma handshake_replies_accepted ri :
  concat (handshake_replies ri) =
  accepted (" "%char :: replication_id ri ++ " "%char :: print_s (repl_offset ri)) EMPTY_RDB.
Proof.
  rw /handshake_replies /accepted /psync_reply. cbn [concat]. rw app_nil_r.
  change ("$"%char :: print_u _ ++ CRLF) with (bs "$17" ++ CRLF).
  set (x := " "%char :: print_s (repl_offset ri)). by rw -!app_assoc.
Qed.

Lemma requests_cstr port :
  map (λ es, resp_command (map cstr es)) (handshake_requests port) = map resp_command (handshake_requests port).
Proof.
  rw /handshake_requests. cbn [map]. rw /PORT_COMMAND. cbn [map].
  rw (cstr_nonul (snprintf _ _)); [done|].
  intros Hx%subseteq_take. by apply print_s_free in Hx.
Qed.

Lemma requests_sized port : Forall sized (handshake_requests port).
Proof.
  assert (length (snprintf 32 (print_s port)) ≤ 31)%nat by (rw /snprintf length_take; lia).
  rw /handshake_requests /PORT_COMMAND !Forall_cons /sized /int_sized /INT_MAX !Forall_cons /=.
  split_and!; try done; try lia.
Qed.

(** ** The property *)


Definition ex_joining : World :=
  mkWorld (ex_config_server (initReplicaList (mkReplicationInfo None REPLICATION_ID 0 None))) ∅
    (mkWaitState 0 0 false false) false 0 [].

