(* ===== verification/ThreadPool.v ===== *)
(** * The thread pool (src/app/thread_pool.h, src/app/thread_pool.c)

    Worker threads over a bounded stack of tasks, as a step relation.  A
    critical section is one step; a thread that waits on a condition variable
    gives the lock up, and takes another step when it is signalled, or woken
    for no reason, as POSIX allows.  A signal wakes one of the threads that
    wait; a broadcast wakes all of them.  Threads that call [threadPoolAdd]
    and find the stack full wait in [adders]. *)

From S2P Require Import Prelude.

Section Pool.
Context {T : Type}.

(** Where a worker is: before the test of its outer loop; past it, or woken,
    and about to take the lock; waiting for [not_empty]; running a task; gone. *)
Inductive Worker := AtLoop | AtLock | Waiting | Running (t : T) | Exited.

(** A call of [threadPoolAdd] that waits for [not_full], and whether it has
    been woken. *)
Record Adder := mkAdder { a_task : T; a_awake : bool }.

(** [accepted] and [finished] are histories: the tasks whose call was let in,
    and those that a worker has completed. *)
Record ThreadPool := mkPool {
  tasks : list T;
  task_capacity : nat;
  running : bool;
  workers : list Worker;
  adders : list Adder;
  accepted : list T;
  finished : list T
}.

Definition createThreadPool (num_threads : nat) : ThreadPool :=
  mkPool [] (num_threads * 2) true (replicate num_threads AtLoop) [] [] [].

(** ** The critical sections *)

(** What a worker does once it has the lock. *)
Inductive turn := Sleeps | Leaves | Takes (t : T) (rest : list T).
Definition worker_turn (p : ThreadPool) : turn :=
  if bool_decide (length (tasks p) = 0%nat) && running p then Sleeps
  else if negb (running p) then Leaves
  else match last (tasks p) with
       | Some t => Takes t (take (length (tasks p) - 1) (tasks p))
       | None => Leaves
       end.

(** What [threadPoolAdd] does once it has the lock, on entry and when woken:
    only the first tests whether the pool is still running. *)
Inductive add_turn := Refused | Blocks | Pushes (ts : list T).
Definition add_resumed (p : ThreadPool) (t : T) : add_turn :=
  if bool_decide (length (tasks p) = task_capacity p) then Blocks else Pushes (tasks p ++ [t]).
Definition add_entered (p : ThreadPool) (t : T) : add_turn :=
  if negb (running p) then Refused else add_resumed p t.

(** [pthread_cond_signal] on [not_empty] and on [not_full]. *)
Definition signal_worker (ws ws' : list Worker) : Prop :=
  (∃ i, ws !! i = Some Waiting ∧ ws' = <[i := AtLock]> ws)
  ∨ ((∀ i, ws !! i ≠ Some Waiting) ∧ ws' = ws).
Definition signal_adder (ad ad' : list Adder) : Prop :=
  (∃ i t, ad !! i = Some (mkAdder t false) ∧ ad' = <[i := mkAdder t true]> ad)
  ∨ ((∀ i t, ad !! i ≠ Some (mkAdder t false)) ∧ ad' = ad).
(** [pthread_cond_broadcast] on [not_empty]. *)
Definition wake (w : Worker) : Worker := match w with Waiting => AtLock | _ => w end.

(** ** Steps *)

Definition set_worker (i : nat) (w : Worker) (p : ThreadPool) : ThreadPool :=
  mkPool (tasks p) (task_capacity p) (running p) (<[i := w]> (workers p)) (adders p)
    (accepted p) (finished p).

Inductive step (p : ThreadPool) : ThreadPool → Prop :=
(* the outer loop's test, without the lock *)
| step_loop i :
    workers p !! i = Some AtLoop →
    step p (set_worker i (if running p then AtLock else Exited) p)
| step_sleep i :
    workers p !! i = Some AtLock → worker_turn p = Sleeps → step p (set_worker i Waiting p)
| step_spurious i :
    workers p !! i = Some Waiting → step p (set_worker i AtLock p)
| step_leave i :
    workers p !! i = Some AtLock → worker_turn p = Leaves → step p (set_worker i Exited p)
| step_take i t rest ad' :
    workers p !! i = Some AtLock → worker_turn p = Takes t rest → signal_adder (adders p) ad' →
    step p (mkPool rest (task_capacity p) (running p) (<[i := Running t]> (workers p)) ad'
              (accepted p) (finished p))
| step_finish i t :
    workers p !! i = Some (Running t) →
    step p (mkPool (tasks p) (task_capacity p) (running p) (<[i := AtLoop]> (workers p)) (adders p)
              (accepted p) (finished p ++ [t]))
| step_add_refused t : add_entered p t = Refused → step p p
| step_add_blocks t :
    add_entered p t = Blocks →
    step p (mkPool (tasks p) (task_capacity p) (running p) (workers p) (adders p ++ [mkAdder t false])
              (accepted p ++ [t]) (finished p))
| step_add_pushes t ts ws' :
    add_entered p t = Pushes ts → signal_worker (workers p) ws' →
    step p (mkPool ts (task_capacity p) (running p) ws' (adders p) (accepted p ++ [t]) (finished p))
| step_adder_spurious i t :
    adders p !! i = Some (mkAdder t false) →
    step p (mkPool (tasks p) (task_capacity p) (running p) (workers p)
              (<[i := mkAdder t true]> (adders p)) (accepted p) (finished p))
| step_adder_blocks i t :
    adders p !! i = Some (mkAdder t true) → add_resumed p t = Blocks →
    step p (mkPool (tasks p) (task_capacity p) (running p) (workers p)
              (<[i := mkAdder t false]> (adders p)) (accepted p) (finished p))
| step_adder_pushes i t ts ws' :
    adders p !! i = Some (mkAdder t true) → add_resumed p t = Pushes ts →
    signal_worker (workers p) ws' →
    step p (mkPool ts (task_capacity p) (running p) ws' (delete i (adders p)) (accepted p) (finished p))
(* the first critical section of threadPoolDestroy *)
| step_destroy :
    step p (mkPool (tasks p) (task_capacity p) false (map wake (workers p)) (adders p)
              (accepted p) (finished p)).

Inductive reachable (n : nat) : ThreadPool → Prop :=
| reach_init : reachable n (createThreadPool n)
| reach_step p p' : reachable n p → step p p' → reachable n p'.

(** ** The invariant *)

Definition task_of (w : Worker) : option T := match w with Running t => Some t | _ => None end.
Definition at_lock (w : Worker) : bool := match w with AtLock => true | _ => false end.
Definition waiting (w : Worker) : bool := match w with Waiting => true | _ => false end.

(** A worker sleeps only while the awake ones are enough for the tasks there
    are, and a blocked call only while the awake ones are enough for the free
    slots. *)
Record pool_wf (n : nat) (p : ThreadPool) : Prop := {
  pw_capacity : task_capacity p = (n * 2)%nat;
  pw_bound : (length (tasks p) ≤ task_capacity p)%nat;
  pw_workers : length (workers p) = n;
  pw_account : accepted p ≡ₚ tasks p ++ map a_task (adders p) ++ omap task_of (workers p) ++ finished p;
  pw_workers_awake : running p = true → (∃ i, workers p !! i = Some Waiting) →
    (length (tasks p) ≤ count at_lock (workers p))%nat;
  pw_adders_awake : (∃ i t, adders p !! i = Some (mkAdder t false)) →
    (task_capacity p - length (tasks p) ≤ count a_awake (adders p))%nat;
  pw_stopped : running p = false → ∀ i, workers p !! i ≠ Some Waiting
}.

Lemma worker_turn_sleeps p : worker_turn p = Sleeps → tasks p = [] ∧ running p = true.
Proof.
  rw /worker_turn. destruct (tasks p) as [|t ts]; simpl.
  - by destruct (running p).
  - destruct (running p); simpl; [|done]. by case_match.
Qed.

Lemma worker_turn_leaves p : worker_turn p = Leaves → running p = false.
Proof.
  rw /worker_turn. destruct (running p); [|done]. rw andb_true_r. cbn [negb].
  destruct (tasks p) as [|t ts _] using rev_ind; [done|]. rw last_snoc. by case_bool_decide.
Qed.

Lemma worker_turn_takes p t rest :
  worker_turn p = Takes t rest → tasks p = rest ++ [t] ∧ running p = true.
Proof.
  rw /worker_turn. destruct (running p); [|by rw andb_false_r]. rw andb_true_r. cbn [negb].
  case_match; [done|]. destruct (tasks p) as [|x ts _] using rev_ind; [done|].
  rw last_snoc length_app Nat.add_sub take_app_length. by intros [= -> ->].
Qed.

Lemma add_resumed_pushes p t ts :
  add_resumed p t = Pushes ts → ts = tasks p ++ [t] ∧ length (tasks p) ≠ task_capacity p.
Proof. rw /add_resumed. case_bool_decide; [done|]. by intros [= <-]. Qed.

Lemma add_resumed_blocks p t : add_resumed p t = Blocks → length (tasks p) = task_capacity p.
Proof. rw /add_resumed. by case_bool_decide. Qed.

Lemma add_entered_running p t r : add_entered p t = r → r ≠ Refused → running p = true ∧ add_resumed p t = r.
Proof. rw /add_entered. by destruct (running p); cbn; intros <-. Qed.

(** A signal only moves a thread from the waiting ones to the awake ones. *)
Lemma signal_worker_effect ws ws' :
  signal_worker ws ws' →
  length ws' = length ws ∧ omap task_of ws' = omap task_of ws
  ∧ (∀ i, ws' !! i = Some Waiting → (count at_lock ws < count at_lock ws')%nat)
  ∧ ((∀ i, ws !! i ≠ Some Waiting) → ∀ i, ws' !! i ≠ Some Waiting).
Proof.
  intros [(i & Hi & ->)|[Hno ->]]; [|split_and!; [done|done|intros i Hi; by destruct (Hno i)|done]].
  destruct (lookup_split _ _ _ Hi) as (l1 & l2 & Hl & _ & _ & Hins).
  rw Hins. split_and!; [by rw Hl !length_app|by rw Hl !omap_app| |].
  - intros j Hj. rw Hl !count_app !count_cons /=. lia.
  - intros Hno. by destruct (Hno i).
Qed.

Lemma signal_adder_effect ad ad' :
  signal_adder ad ad' →
  map a_task ad' = map a_task ad
  ∧ (∀ i t, ad' !! i = Some (mkAdder t false) → (count a_awake ad < count a_awake ad')%nat
       ∧ ∃ j u, ad !! j = Some (mkAdder u false)).
Proof.
  intros [(i & t & Hi & ->)|[Hno ->]]; [|split; [done|]; intros i t Hi; by destruct (Hno i t)].
  destruct (lookup_split _ _ _ Hi) as (l1 & l2 & Hl & _ & _ & Hins).
  rw Hins. split; [by rw Hl !map_app|].
  intros j u Hj. split; [rw Hl !count_app !count_cons /=; lia|by exists i, t].
Qed.

(** Replacing one worker. *)
Lemma workers_insert ws i w w' :
  ws !! i = Some w →
  length (<[i := w']> ws) = length ws
  ∧ (∃ l, omap task_of ws ≡ₚ option_list (task_of w) ++ l
        ∧ omap task_of (<[i := w']> ws) ≡ₚ option_list (task_of w') ++ l)
  ∧ (count at_lock (<[i := w']> ws) + Nat.b2n (at_lock w) = count at_lock ws + Nat.b2n (at_lock w'))%nat.
Proof.
  intros Hi. destruct (lookup_split _ _ _ Hi) as (l1 & l2 & Hl & _ & _ & Hins). rw Hins Hl.
  split; [by rw !length_app|]. split.
  - exists (omap task_of l1 ++ omap task_of l2). rw !omap_app /=.
    split; [destruct (task_of w)|destruct (task_of w')]; simpl; try done; by rw -Permutation_middle.
  - rw !count_app !count_cons. lia.
Qed.

Lemma waiting_insert ws i w :
  w ≠ Waiting → (∃ j, (<[i := w]> ws : list Worker) !! j = Some Waiting) → ∃ j, ws !! j = Some Waiting.
Proof.
  intros Hw (j & Hj). exists j. destruct (decide (i = j)) as [->|Hne].
  - destruct (decide (j < length ws)%nat) as [Hlt|Hge].
    + rw list_lookup_insert_eq in Hj; [by injection Hj|done].
    + rw list_insert_ge in Hj; [done|lia].
  - by rw list_lookup_insert_ne in Hj.
Qed.

(** A step that replaces one worker by another that runs what it ran. *)
Lemma pool_wf_worker n p i w w' :
  pool_wf n p → workers p !! i = Some w → task_of w = task_of w' →
  (w' = Waiting → tasks p = [] ∧ running p = true) →
  (w = AtLock → w' ≠ Waiting → running p = false) →
  pool_wf n (set_worker i w' p).
Proof.
  intros [H1 H2 H3 H4 H5 H6 H7] Hi Ht Hwait Hlock.
  destruct (workers_insert _ _ _ w' Hi) as (Hlen & (l & Hl & Hl') & Hcount).
  assert (waiting w' = true ∧ w' = Waiting ∨ w' ≠ Waiting) as Hw' by (destruct w'; auto).
  split; cbn [set_worker tasks task_capacity running workers adders accepted finished]; try done.
  - by rw Hlen.
  - rw H4. do 2 f_equiv. by rw Hl' -Ht -Hl.
  - intros Hr Hex. destruct Hw' as [[_ E]|Hne].
    + destruct (Hwait E) as [-> _]. simpl. lia.
    + specialize (H5 Hr (waiting_insert _ _ _ Hne Hex)).
      assert (w ≠ AtLock) as Hnl by (intros ->; by rw (Hlock eq_refl Hne) in Hr).
      destruct w; try done; cbn in Hcount; lia.
  - intros Hr j Hj. destruct Hw' as [[_ E]|Hne]; [destruct (Hwait E); congruence|].
    destruct (waiting_insert _ i _ Hne (ex_intro _ j Hj)) as [k Hk]. by eapply H7.
Qed.

(** A push, by whichever call: the task goes on the stack and a sleeping
    worker, if there is one, is woken. *)
Lemma pool_wf_push n p t ws' ad' ac' :
  pool_wf n p → signal_worker (workers p) ws' → length (tasks p) ≠ task_capacity p →
  ac' ≡ₚ t :: tasks p ++ map a_task ad' ++ omap task_of (workers p) ++ finished p →
  ((∃ i u, ad' !! i = Some (mkAdder u false)) →
   (task_capacity p - S (length (tasks p)) ≤ count a_awake ad')%nat) →
  pool_wf n (mkPool (tasks p ++ [t]) (task_capacity p) (running p) ws' ad' ac' (finished p)).
Proof.
  intros [H1 H2 H3 H4 H5 H6 H7] Hs Hne Hac Had.
  destruct (signal_worker_effect _ _ Hs) as (Hlen & Homap & Hcount & Hno).
  split; cbn [tasks task_capacity running workers adders accepted finished]; try done.
  - rw length_app /=. lia.
  - by rw Hlen.
  - rw Hac Homap -app_assoc /=. by rw -Permutation_middle.
  - intros Hr [j Hj]. rw length_app /=. specialize (Hcount j Hj).
    enough (length (tasks p) ≤ count at_lock (workers p))%nat by lia.
    destruct Hs as [(k & Hk & _)|[Hnone ->]]; [by apply H5; eauto|by destruct (Hnone j)].
  - intros Hex. rw length_app /=. rw Nat.add_1_r. by apply Had.
  - intros Hr. by apply Hno, H7.
Qed.

(** Replacing one blocked call. *)
Lemma adders_insert ad i a a' :
  ad !! i = Some a → a_task a = a_task a' →
  map a_task (<[i := a']> ad) = map a_task ad
  ∧ (count a_awake (<[i := a']> ad) + Nat.b2n (a_awake a) = count a_awake ad + Nat.b2n (a_awake a'))%nat.
Proof.
  intros Hi Ht. destruct (lookup_split _ _ _ Hi) as (l1 & l2 & Hl & _ & _ & Hins). rw Hins Hl.
  rw !map_app !count_app !count_cons /= Ht. split; [done|lia].
Qed.

Lemma delete_asleep ad l1 l2 a j u :
  ad = l1 ++ a :: l2 → (l1 ++ l2) !! j = Some (mkAdder u false) →
  ∃ k s, ad !! k = Some (mkAdder s false).
Proof.
  intros -> Hj%list_elem_of_lookup_2. assert (mkAdder u false ∈ l1 ++ a :: l2) as [k Hk]%list_elem_of_lookup_1.
  { rw elem_of_app elem_of_cons. apply elem_of_app in Hj. tauto. }
  by exists k, u.
Qed.

Lemma init_wf n : pool_wf n (createThreadPool n).
Proof.
  split; cbn; try done; try lia.
  - apply length_replicate.
  - induction n; done.
  - intros (i & t & Hi). by rw lookup_nil in Hi.
Qed.

Lemma pool_wf_take n p i t rest ad' :
  pool_wf n p → workers p !! i = Some AtLock → worker_turn p = Takes t rest → signal_adder (adders p) ad' →
  pool_wf n (mkPool rest (task_capacity p) (running p) (<[i := Running t]> (workers p)) ad'
               (accepted p) (finished p)).
Proof.
  intros [H1 H2 H3 H4 H5 H6 H7] Hi [Ht Hr]%worker_turn_takes Had.
  destruct (workers_insert _ _ _ (Running t) Hi) as (Hlen & (l & Hl & Hl') & Hcount).
  destruct (signal_adder_effect _ _ Had) as [Hmap Hsleep]. rw Ht length_app /= in H2 H5 H6.
  split; cbn [tasks task_capacity running workers adders accepted finished]; try done; try lia; try congruence.
  - rw H4 Hmap Hl Hl' Ht /=. solve_Permutation.
  - intros _ Hex%waiting_insert; [|done]. specialize (H5 Hr Hex). cbn in Hcount. lia.
  - intros (j & u & Hj). destruct (Hsleep j u Hj) as [Hc (k & s & Hk)].
    specialize (H6 (ex_intro _ k (ex_intro _ s Hk))). lia.
Qed.

Lemma pool_wf_finish n p i t :
  pool_wf n p → workers p !! i = Some (Running t) →
  pool_wf n (mkPool (tasks p) (task_capacity p) (running p) (<[i := AtLoop]> (workers p)) (adders p)
               (accepted p) (finished p ++ [t])).
Proof.
  intros [H1 H2 H3 H4 H5 H6 H7] Hi.
  destruct (workers_insert _ _ _ AtLoop Hi) as (Hlen & (l & Hl & Hl') & Hcount).
  split; cbn [tasks task_capacity running workers adders accepted finished]; try done; try congruence.
  - rw H4 Hl Hl' /=. solve_Permutation.
  - intros Hr Hex%waiting_insert; [|done]. specialize (H5 Hr Hex). cbn in Hcount. lia.
  - intros Hr j Hj. destruct (waiting_insert _ i AtLoop ltac:(done) (ex_intro _ j Hj)) as [k Hk].
    by eapply H7.
Qed.

(** A change in the blocked calls alone. *)
Lemma pool_wf_adders n p ad' ac' :
  pool_wf n p →
  ac' ≡ₚ tasks p ++ map a_task ad' ++ omap task_of (workers p) ++ finished p →
  ((∃ i u, ad' !! i = Some (mkAdder u false)) →
   (task_capacity p - length (tasks p) ≤ count a_awake ad')%nat) →
  pool_wf n (mkPool (tasks p) (task_capacity p) (running p) (workers p) ad' ac' (finished p)).
Proof. intros [H1 H2 H3 H4 H5 H6 H7] Hac Had. by split. Qed.

Lemma pool_wf_destroy n p :
  pool_wf n p →
  pool_wf n (mkPool (tasks p) (task_capacity p) false (map wake (workers p)) (adders p)
               (accepted p) (finished p)).
Proof.
  intros [H1 H2 H3 H4 H5 H6 H7].
  split; cbn [tasks task_capacity running workers adders accepted finished]; try done.
  - by rw length_map.
  - rw H4. do 2 f_equiv. f_equiv. clear. induction (workers p) as [|w l IH]; [done|].
    by destruct w; cbn; rw -?IH.
  - intros _ i Hi. apply list_lookup_fmap_Some in Hi as ([] & ? & ?); done.
Qed.

Lemma pool_wf_step n p p' : pool_wf n p → step p p' → pool_wf n p'.
Proof.
  intros Hwf Hs. pose proof Hwf as [H1 H2 H3 H4 H5 H6 H7]. destruct Hs as
    [i Hi|i Hi Ht|i Hi|i Hi Ht|i t rest ad' Hi Ht Had|i t Hi|t Ht|t Ht|t ts ws' Ht Hsig
    |i t Hi|i t Hi Ht|i t ts ws' Hi Ht Hsig|].
  - eapply pool_wf_worker; [done|exact Hi|by destruct (running p)| |done]. by destruct (running p).
  - apply worker_turn_sleeps in Ht as [? ?]. by eapply pool_wf_worker.
  - eapply pool_wf_worker; [done|exact Hi|done..].
  - apply worker_turn_leaves in Ht. by eapply pool_wf_worker.
  - by eapply pool_wf_take.
  - by eapply pool_wf_finish.
  - done.
  - apply add_entered_running in Ht as [_ Ht]; [|done]. apply add_resumed_blocks in Ht.
    apply pool_wf_adders; [done| |intros; lia].
    rw H4 map_app /=. solve_Permutation.
  - apply add_entered_running in Ht as [_ [-> Hne]%add_resumed_pushes]; [|done].
    apply pool_wf_push; [done..| |].
    + rw H4. solve_Permutation.
    + intros Hex. specialize (H6 Hex). lia.
  - destruct (adders_insert _ _ _ (mkAdder t true) Hi) as [Hm Hc]; [done|].
    apply pool_wf_adders; [done|by rw Hm|]. intros _. cbn in Hc.
    specialize (H6 (ex_intro _ i (ex_intro _ t Hi))). lia.
  - apply add_resumed_blocks in Ht. destruct (adders_insert _ _ _ (mkAdder t false) Hi) as [Hm Hc]; [done|].
    apply pool_wf_adders; [done|by rw Hm|]. intros _. lia.
  - apply add_resumed_pushes in Ht as [-> Hne].
    destruct (lookup_split _ _ _ Hi) as (l1 & l2 & Hl & _ & Hdel & _).
    apply pool_wf_push; [done..| |].
    + rw H4 Hdel Hl !map_app /=. solve_Permutation.
    + rw Hdel. intros (j & u & Hj). specialize (H6 (delete_asleep _ _ _ _ _ _ Hl Hj)).
      rw Hl !count_app count_cons /= in H6. rw count_app. lia.
  - by apply pool_wf_destroy.
Qed.

Lemma reachable_wf n p : reachable n p → pool_wf n p.
Proof. induction 1; [apply init_wf|by eapply pool_wf_step]. Qed.

(** One step of a pool that has been stopped. *)
Lemma stopped_step p p' :
  running p = false → step p p' →
  running p' = false ∧ task_capacity p' = task_capacity p ∧ tasks p `prefix_of` tasks p'
  ∧ (length (tasks p) = task_capacity p →
     tasks p' = tasks p ∧ map a_task (adders p') = map a_task (adders p))
  ∧ omap task_of (workers p') ++ finished p' ≡ₚ omap task_of (workers p) ++ finished p.
Proof.
  intros Hr Hs. assert (∀ i w w', workers p !! i = Some w → task_of w = task_of w' →
    omap task_of (<[i := w']> (workers p)) ≡ₚ omap task_of (workers p)) as Hins.
  { intros i w w' Hi Ht. destruct (workers_insert _ _ _ w' Hi) as (_ & (l & Hl & Hl') & _). by rw Hl' -Ht -Hl. }
  destruct Hs as [i Hi|i Hi Ht|i Hi|i Hi Ht|i t rest ad' Hi Ht Had|i t Hi|t Ht|t Ht|t ts ws' Ht Hsig
    |i t Hi|i t Hi Ht|i t ts ws' Hi Ht Hsig|];
    cbn [set_worker tasks task_capacity running workers adders accepted finished].
  - split_and!; try done. rw (Hins _ _ _ Hi) //. by destruct (running p).
  - by apply worker_turn_sleeps in Ht as [_ ?]; congruence.
  - split_and!; try done. by rw (Hins _ _ _ Hi).
  - split_and!; try done. by rw (Hins _ _ _ Hi).
  - apply worker_turn_takes in Ht as [_ ?]. congruence.
  - split_and!; try done. destruct (workers_insert _ _ _ AtLoop Hi) as (_ & (l & Hl & Hl') & _).
    rw Hl Hl' /=. solve_Permutation.
  - by split_and!.
  - apply add_entered_running in Ht as [? _]; [congruence|done].
  - apply add_entered_running in Ht as [? _]; [congruence|done].
  - split_and!; try done. by destruct (adders_insert _ _ _ (mkAdder t true) Hi).
  - split_and!; try done. by destruct (adders_insert _ _ _ (mkAdder t false) Hi).
  - apply add_resumed_pushes in Ht as [-> Hne]. split_and!; try done; [by apply prefix_app_r|].
    by destruct (signal_worker_effect _ _ Hsig) as (_ & -> & _).
  - split_and!; try done. f_equiv. clear. induction (workers p) as [|w l IH]; [done|].
    by destruct w; cbn; rw -?IH.
Qed.

End Pool.

Arguments Worker : clear implicits.
Arguments Adder : clear implicits.
Arguments ThreadPool : clear implicits.

(** ** The properties *)

(** C8. In every state a pool of [n] workers can reach, in any interleaving
    and with any spurious wake-ups, the stack holds at most [2 n] tasks, and
    every task whose call was let in is in exactly one place: on the stack,
    with a blocked call, running, or finished.  None is lost or run twice. *)
Theorem pool_accounts {T} n (p : ThreadPool T) :
  reachable n p →
  (length (tasks p) ≤ 2 * n)%nat ∧ length (workers p) = n
  ∧ accepted p ≡ₚ tasks p ++ map a_task (adders p) ++ omap task_of (workers p) ++ finished p.
Proof. intros [H1 H2 H3 H4 _ _ _]%reachable_wf. split; [lia|done]. Qed.

(** C9. No wake-up is lost while the pool runs: if there is a task on the stack
    and a worker sleeps, then some worker is awake and takes the last task as
    its next step; if there is a free slot and a call of [threadPoolAdd]
    sleeps, then some blocked call is awake and pushes its task as its next
    step. *)
Theorem pool_no_lost_wakeup {T} n (p : ThreadPool T) :
  reachable n p →
  (running p = true → tasks p ≠ [] → (∃ i, workers p !! i = Some Waiting) →
   ∃ i t, workers p !! i = Some AtLock ∧ last (tasks p) = Some t
     ∧ worker_turn p = Takes t (take (length (tasks p) - 1) (tasks p)))
  ∧ (length (tasks p) ≠ task_capacity p → (∃ i t, adders p !! i = Some (mkAdder t false)) →
     ∃ i t, adders p !! i = Some (mkAdder t true) ∧ add_resumed p t = Pushes (tasks p ++ [t])).
Proof.
  intros [H1 H2 H3 H4 H5 H6 H7]%reachable_wf. split.
  - intros Hr Hne Hex. specialize (H5 Hr Hex).
    destruct (tasks p) as [|t ts _] eqn:Et using rev_ind; [done|]. rw length_app /= in H5.
    destruct (count_pos at_lock (workers p)) as (i & w & Hi & Hw); [lia|].
    destruct w; try done. exists i, t. split; [done|]. rw last_snoc. split; [done|].
    rw /worker_turn Et last_snoc Hr andb_true_r. case_bool_decide as Hl; [|done].
    rw length_app /= in Hl. lia.
  - intros Hne Hex. specialize (H6 Hex).
    destruct (count_pos a_awake (adders p)) as (i & [t b] & Hi & Hw); [lia|].
    cbn in Hw. subst b. exists i, t. split; [done|]. rw /add_resumed bool_decide_false //.
Qed.

(** C34. Once [threadPoolDestroy] has stopped the pool, no task that is on the
    stack is ever taken from it, however the threads go on; and if the stack
    is full then, every call blocked in [threadPoolAdd] stays blocked for
    ever. *)
Theorem pool_stop_strands {T} (p p' : ThreadPool T) :
  rtc step p p' → running p = false →
  tasks p `prefix_of` tasks p'
  ∧ omap task_of (workers p') ++ finished p' ≡ₚ omap task_of (workers p) ++ finished p
  ∧ (length (tasks p) = task_capacity p → map a_task (adders p') = map a_task (adders p)).
Proof.
  intros Hs Hr. assert (running p' = false ∧ task_capacity p' = task_capacity p ∧ tasks p `prefix_of` tasks p'
    ∧ (length (tasks p) = task_capacity p → tasks p' = tasks p ∧ map a_task (adders p') = map a_task (adders p))
    ∧ omap task_of (workers p') ++ finished p' ≡ₚ omap task_of (workers p) ++ finished p) as H;
    [|naive_solver].
  induction Hs as [p|p q p' Hpq _ IH]; [by split_and!|].
  destruct (stopped_step _ _ Hr Hpq) as (Hr1 & Hc1 & Hp1 & Hf1 & Ho1).
  destruct (IH Hr1) as (Hr2 & Hc2 & Hp2 & Hf2 & Ho2).
  split_and!; [done|congruence|by etrans| |by etrans].
  intros Hl. destruct (Hf1 Hl) as [E1 E2]. destruct Hf2 as [E3 E4]; [congruence|]. split; congruence.
Qed.

(** Two workers, both asleep, and a task that wakes the first. *)
Definition ex_pool : ThreadPool Z :=
  mkPool [7] 4 true [AtLock; Waiting] [] [7] [].

Lemma ex_pool_reachable : reachable 2 ex_pool.
Proof.
  eapply reach_step; [eapply reach_step; [eapply reach_step; [eapply reach_step; [eapply reach_step;
    [apply reach_init| ]| ]| ]| ]| ].
  - by apply (step_loop _ 0%nat).
  - by apply (step_loop _ 1%nat).
  - by apply (step_sleep _ 0%nat).
  - by apply (step_sleep _ 1%nat).
  - match goal with |- step ?q _ =>
      exact (step_add_pushes q 7 [7] [AtLock; Waiting] eq_refl
               (or_introl (ex_intro _ 0%nat (conj eq_refl eq_refl)))) end.
Qed.

Lemma pool_accounts_witness :
  (length (tasks ex_pool) ≤ 2 * 2)%nat ∧ length (workers ex_pool) = 2%nat
  ∧ accepted ex_pool ≡ₚ tasks ex_pool ++ map a_task (adders ex_pool) ++ omap task_of (workers ex_pool) ++ finished ex_pool.
Proof. apply pool_accounts. exact ex_pool_reachable. Defined.

Lemma pool_no_lost_wakeup_witness :
  ∃ i t, workers ex_pool !! i = Some AtLock ∧ last (tasks ex_pool) = Some t
    ∧ worker_turn ex_pool = Takes t (take (length (tasks ex_pool) - 1) (tasks ex_pool)).
Proof.
  apply (pool_no_lost_wakeup 2 ex_pool ex_pool_reachable); [done|done|]. by exists 1%nat.
Defined.

(** A stopped pool with a full stack, a task running and a blocked call. *)
Definition ex_stopped : ThreadPool Z :=
  mkPool [1; 2] 2 false [Running 3] [mkAdder 4 false] [3; 1; 2; 4] [].

Lemma pool_stop_strands_witness :
  let p' := mkPool [1; 2] 2 false [AtLoop] [mkAdder 4 false] [3; 1; 2; 4] [3] in
  tasks ex_stopped `prefix_of` tasks p'
  ∧ omap task_of (workers p') ++ finished p' ≡ₚ omap task_of (workers ex_stopped) ++ finished ex_stopped
  ∧ (length (tasks ex_stopped) = task_capacity ex_stopped →
     map a_task (adders p') = map a_task (adders ex_stopped)).
Proof.
  apply pool_stop_strands; [|done]. eapply rtc_l; [|apply rtc_refl].
  by apply (step_finish ex_stopped 0%nat).
Defined.
