(* ===== verification/Sockets.v ===== *)
(** * Sockets and the accept loop (src/app/networking.c, main.c)

    The calls that open and close descriptors, with every way in which they
    can fail, and the loop of [main] that hands connections to the pool.  The
    state is the set of open descriptors; a call that opens one gets the lowest
    that is free, as POSIX says, and the operating system decides in advance
    which calls succeed ([fates]; calls past its end do). *)

From S2P Require Import Prelude CLib.

(** ** The operating system *)

Record os := mkOs { opened : gset Z; fates : list bool }.

Definition Sys (A : Type) : Type := os → A * os.
#[export] Instance Sys_ret : MRet Sys := λ A a s, (a, s).
#[export] Instance Sys_bind : MBind Sys := λ A B f c s, let '(a, s') := c s in f a s'.

(** Whether the next call succeeds. *)
Definition call : Sys bool := λ s, (default true (head (fates s)), mkOs (opened s) (tail (fates s))).

(** The lowest descriptor that is not open. *)
Definition lowest (s : gset Z) : Z :=
  default 0 (head (filter (λ n, n ∉ s) (seqZ 0 (Z.of_nat (size s) + 1)))).

Definition take_lowest : Sys Z := λ s,
  (lowest (opened s), mkOs ({[lowest (opened s)]} ∪ opened s) (fates s)).
(** [socket] and [accept]: a new descriptor, or -1. *)
Definition open_fd : Sys Z := ok ← call; if ok : bool then take_lowest else mret (-1).
Definition close (fd : Z) : Sys () := λ s, ((), mkOs (opened s ∖ {[fd]}) (fates s)).

(** ** Operations *)

Section Networking.
(** Whether [inet_pton] takes a text for an address. *)
Context (inet_pton : bytes → bool).

(** The return value and [server->fd] afterwards. *)
Definition initServerSocket (bindaddr : bytes) (fd : Z) : Sys (Z * Z) :=
  server_fd ← open_fd;
  if server_fd =? -1 then mret (-1, fd)
  else
    reuse ← call;
    if negb reuse then _ ← close server_fd; mret (-1, fd)
    else if negb (inet_pton bindaddr) then _ ← close server_fd; mret (-1, fd)
    else
      bound ← call;
      if negb bound then _ ← close server_fd; mret (-1, fd)
      else
        listening ← call;
        if negb listening then _ ← close server_fd; mret (-1, fd)
        else mret (0, server_fd).

(** Reading and setting the flags of the socket are two calls. *)
Definition acceptClient : Sys Z :=
  client_fd ← open_fd;
  if client_fd <? 0 then mret (-1)
  else
    flags ← call;
    if negb flags then _ ← close client_fd; mret (-1)
    else
      nonblock ← call;
      if negb nonblock then _ ← close client_fd; mret (-1) else mret client_fd.

Definition connectToHost (host : option bytes) (port : Z) : Sys Z :=
  match host with
  | None => mret (-1)
  | Some host =>
      if port <=? 0 then mret (-1)
      else
        let ip := if strcmp_eq host (bs "localhost") then bs "127.0.0.1" else host in
        fd ← open_fd;
        if fd <? 0 then mret (-1)
        else if negb (inet_pton ip) then _ ← close fd; mret (-1)
        else
          connected ← call;
          if negb connected then _ ← close fd; mret (-1) else mret fd
  end.
End Networking.

(** The count of clients afterwards. *)
Definition closeClientConnection (clients_count client_fd : Z) : Sys Z :=
  if client_fd <? 0 then mret clients_count
  else _ ← close client_fd; mret (if 0 <? clients_count then clients_count - 1 else clients_count).

(** [initServer]: the return value and [server->fd].  [master] is the host and
    the port of the master of a replica; the exchange with it and the creation
    of the thread are calls that may fail. *)
Definition initServer (inet_pton : bytes → bool) (bindaddr : bytes) (fd : Z) (master : option (option bytes * Z))
    : Sys (Z * Z) :=
  '(rc, fd) ← initServerSocket inet_pton bindaddr fd;
  if negb (rc =? 0) then mret (1, fd)
  else
    match master with
    | None => mret (0, fd)
    | Some (host, port) =>
        link ← connectToHost inet_pton host port;
        if link <? 0 then mret (1, fd)
        else
          handshake ← call;
          if negb handshake then _ ← close link; mret (1, fd)
          else
            thread ← call;
            if negb thread then mret (1, fd) else mret (0, fd)
    end.

(** One round of the loop of [main]: the descriptor that the pool has taken
    over, if any.  Memory for the argument may run out, and the pool may
    refuse the task. *)
Definition accept_round : Sys (option Z) :=
  clientFd ← acceptClient;
  if 0 <=? clientFd then
    arg ← call;
    if negb arg then _ ← close clientFd; mret None
    else
      added ← call;
      if negb added then _ ← close clientFd; mret None else mret (Some clientFd)
  else mret None.

(** ** The process *)

(** The descriptors, and those that tasks of the pool own. *)
Record process := mkProcess { sys : os; tasks : gset Z }.

Inductive step : process → process → Prop :=
| Accepts s handed s' t :
    accept_round s = (handed, s') →
    step (mkProcess s t) (mkProcess s' (option_to_set handed ∪ t))
| Finishes s t fd :
    fd ∈ t → step (mkProcess s t) (mkProcess (close fd s).2 (t ∖ {[fd]})).

(** ** Lemmas *)

Lemma lowest_spec s : lowest s ∉ s ∧ 0 ≤ lowest s.
Proof.
  unfold lowest. destruct (filter (λ n, n ∉ s) (seqZ 0 (Z.of_nat (size s) + 1))) as [|n l] eqn:E; simpl.
  - exfalso. assert (list_to_set (seqZ 0 (Z.of_nat (size s) + 1)) ⊆ s) as Hsub%subseteq_size.
    { intros n Hn%elem_of_list_to_set. destruct (decide (n ∈ s)) as [|Hns]; [done|]. exfalso.
      apply (not_elem_of_nil n). rw -E. by apply list_elem_of_filter. }
    rw size_list_to_set in Hsub; [|apply NoDup_seqZ]. rw length_seqZ in Hsub. lia.
  - assert (n ∈ filter (λ n, n ∉ s) (seqZ 0 (Z.of_nat (size s) + 1))) as Hn by (rw E; by left).
    apply list_elem_of_filter in Hn as [Hn [Hr _]%elem_of_seqZ]. done.
Qed.

(** The descriptor [r] was obtained between two states, or -1 and nothing changed. *)
Definition acquired (s : os) (r : Z) (s' : os) : Prop :=
  (r = -1 ∧ opened s' = opened s) ∨ (0 ≤ r ∧ r ∉ opened s ∧ opened s' = {[r]} ∪ opened s).

Lemma open_fd_acquired s : acquired s (open_fd s).1 (open_fd s).2.
Proof.
  unfold open_fd, acquired, mbind, Sys_bind, call. destruct (default true (head (fates s))); cbn; [right|by left].
  destruct (lowest_spec (opened s)). done.
Qed.

(** Closing what was obtained undoes it. *)
Lemma acquired_closed s r s1 s2 :
  acquired s r s1 → r ≠ -1 → opened s2 = opened s1 ∖ {[r]} → acquired s (-1) s2.
Proof. intros [[-> _]|(_ & Hr & E)] Hne E2; [done|]. left. split; [done|]. rw E2 E. set_solver. Qed.

Lemma acquired_failed s r s1 s2 : acquired s r s1 → r < 0 → opened s2 = opened s1 → acquired s (-1) s2.
Proof. intros [[-> E]|(? & _)] Hr E2; [left; by rw E2|lia]. Qed.

Lemma acquired_keep s r s1 s2 : acquired s r s1 → opened s2 = opened s1 → acquired s r s2.
Proof. intros [[-> E]|(? & ? & E)] E2; [left|right]; by rw E2. Qed.

(** After the call that opens the descriptor, each check that fails closes it. *)
Ltac sys_checks :=
  repeat (cbn; match goal with |- context [if ?b then _ else _] => destruct b eqn:? end); cbn.
Ltac sys_acquired :=
  match goal with
  | H : acquired ?s ?r ?s1 |- acquired ?s ?r _ => by apply (acquired_keep s r s1)
  | H : acquired ?s ?r ?s1 |- acquired ?s (-1) _ =>
      first [apply (acquired_closed s r s1); [done|lia|done] | apply (acquired_failed s r s1); [done|lia|done]]
  end.

Lemma acceptClient_acquired s : acquired s (acceptClient s).1 (acceptClient s).2.
Proof.
  pose proof (open_fd_acquired s) as H. unfold acceptClient, call, mbind, Sys_bind. destruct (open_fd s) as [fd s1].
  cbn in H. sys_checks; sys_acquired.
Qed.

Section Acquire.
Context (inet_pton : bytes → bool).

Lemma connectToHost_acquired host port s :
  acquired s (connectToHost inet_pton host port s).1 (connectToHost inet_pton host port s).2.
Proof.
  unfold connectToHost. destruct host as [host|]; [|by left]. destruct (port <=? 0); [by left|].
  pose proof (open_fd_acquired s) as H. unfold call, mbind, Sys_bind. destruct (open_fd s) as [fd s1].
  cbn in H. sys_checks; sys_acquired.
Qed.

(** The server's socket is the one obtained, or stays what it was. *)
Lemma initServerSocket_acquired bindaddr fd s :
  let '((rc, fd'), s') := initServerSocket inet_pton bindaddr fd s in
  (rc = 0 ∧ fd' ≠ -1 ∧ acquired s fd' s') ∨ (rc = -1 ∧ fd' = fd ∧ acquired s (-1) s').
Proof.
  pose proof (open_fd_acquired s) as H. unfold initServerSocket, call, mbind, Sys_bind. destruct (open_fd s) as [r s1].
  cbn in H. sys_checks; (right; split_and!; [done|done|sys_acquired]) || (left; split_and!; [done|lia|sys_acquired]).
Qed.

(** It listens when the address is one and none of the four calls fails. *)
Lemma initServerSocket_succeeds bindaddr fd s :
  (initServerSocket inet_pton bindaddr fd s).1.1 = 0 ↔
  inet_pton bindaddr = true ∧ Forall (λ ok, ok = true) (take 4 (fates s)).
Proof.
  unfold initServerSocket, open_fd, take_lowest, call, mbind, Sys_bind. pose proof (proj2 (lowest_spec (opened s))) as Hl.
  destruct (fates s) as [|[] [|[] [|[] [|[] f]]]]; cbn; repeat (rw (proj2 (Z.eqb_neq (lowest (opened s)) (-1))); [|lia]);
    destruct (inet_pton bindaddr); cbn; rw ?Forall_cons ?take_0 ?Forall_nil; intuition congruence.
Qed.
End Acquire.

(** What a start leaves open beside the listening socket: at most the link to
    the master, also when its thread could not be made. *)
Lemma initServer_outcome inet_pton bindaddr fd master s :
  let '((rc, fd'), s') := initServer inet_pton bindaddr fd master s in
  (rc = 1 ∧ fd' = fd ∧ opened s' = opened s)
  ∨ ∃ s1 link, acquired s fd' s1 ∧ fd' ≠ -1 ∧ acquired s1 link s' ∧ (rc = 0 ∨ rc = 1)
      ∧ (rc = 0 → (master = None ↔ link = -1)).
Proof.
  pose proof (initServerSocket_acquired inet_pton bindaddr fd s) as H. unfold initServer, mbind, Sys_bind.
  destruct (initServerSocket inet_pton bindaddr fd s) as [[rc fd'] s1].
  destruct H as [(-> & Hfd & Ha)|(-> & -> & [[_ Ha]|[? _]])]; [|by left|lia].
  destruct master as [[host port]|]; cbn.
  2: { right. exists s1, (-1). split_and!; [done|done|by left|by left|by intros _]. }
  pose proof (connectToHost_acquired inet_pton host port s1) as H. destruct (connectToHost inet_pton host port s1) as [link s2].
  cbn in H. unfold call. sys_checks; right; exists s1.
  - exists (-1). split_and!; [done|done|sys_acquired|by right|done].
  - exists (-1). split_and!; [done|done|sys_acquired|by right|done].
  - exists link. split_and!; [done|done|sys_acquired|by right|done].
  - exists link. split_and!; [done|done|sys_acquired|by left|]. intros _. split; [done|lia].
Qed.

Lemma accept_round_acquired s :
  acquired s (default (-1) (accept_round s).1) (accept_round s).2 ∧ (accept_round s).1 ≠ Some (-1).
Proof.
  pose proof (acceptClient_acquired s) as H. unfold accept_round, call, mbind, Sys_bind. destruct (acceptClient s) as [fd s1].
  cbn in H. sys_checks; (split; [sys_acquired|]); intros [= ->]; done.
Qed.

(** The descriptors of [base], and those of the tasks, are open. *)
Definition accounted (base : gset Z) (p : process) : Prop :=
  tasks p ## base ∧ opened (sys p) = base ∪ tasks p.

Lemma step_accounted base p p' : step p p' → accounted base p → accounted base p'.
Proof.
  unfold accounted. intros [s handed s' t E|s t fd Ht]; cbn; intros [Hd Ho].
  - destruct (accept_round_acquired s) as [Ha Hn]. rw E in Ha Hn. cbn in Ha, Hn.
    destruct handed as [fd|]; cbn in *.
    + destruct Ha as [[-> _]|(_ & Hfd & E2)]; [done|]. rw E2. set_solver.
    + destruct Ha as [[_ E2]|(? & _)]; [|lia]. rw E2. set_solver.
  - split; [set_solver|]. rw Ho. set_solver.
Qed.

(** ** The properties *)

(** C31. No call that makes a socket leaves one behind when it fails.  Whatever
    fails and wherever, [initServerSocket], [acceptClient] and [connectToHost]
    either answer a new descriptor, which is then the only one that was not
    open before, or fail with the descriptors as they were; and the server
    listens exactly when the address is one and no call fails. *)
Theorem sockets_never_leak inet_pton bindaddr fd host port s :
  (let '((rc, fd'), s') := initServerSocket inet_pton bindaddr fd s in
   (rc = 0 ∧ fd' ≠ -1 ∧ acquired s fd' s') ∨ (rc = -1 ∧ fd' = fd ∧ acquired s (-1) s'))
  ∧ ((initServerSocket inet_pton bindaddr fd s).1.1 = 0 ↔
     inet_pton bindaddr = true ∧ Forall (λ ok, ok = true) (take 4 (fates s)))
  ∧ acquired s (acceptClient s).1 (acceptClient s).2
  ∧ acquired s (connectToHost inet_pton host port s).1 (connectToHost inet_pton host port s).2.
Proof.
  split_and!; [apply initServerSocket_acquired|apply initServerSocket_succeeds|apply acceptClient_acquired|apply connectToHost_acquired].
Qed.


Definition ex_start : process := mkProcess (mkOs (list_to_set [0; 1; 2; 3]) []) ∅.
Definition ex_one : process := mkProcess (mkOs ({[4]} ∪ opened (sys ex_start)) []) (option_to_set (Some 4) ∪ ∅).

