(* ===== verification/Logger.v ===== *)
(** * The log (src/app/logger.c)

    One level for the whole program, and two places that lines go to: the
    terminal, with colours, and a file while it is open. *)

From S2P Require Import Prelude CLib.

Inductive LogLevel := LOG_TRACE | LOG_DEBUG | LOG_INFO | LOG_WARN | LOG_ERROR | LOG_FATAL.

(** The order of the enumeration. *)
Definition level_number (l : LogLevel) : Z :=
  match l with
  | LOG_TRACE => 0 | LOG_DEBUG => 1 | LOG_INFO => 2 | LOG_WARN => 3 | LOG_ERROR => 4 | LOG_FATAL => 5
  end.
Definition level_strings (l : LogLevel) : bytes :=
  match l with
  | LOG_TRACE => bs "TRACE" | LOG_DEBUG => bs "DEBUG" | LOG_INFO => bs "INFO"
  | LOG_WARN => bs "WARN" | LOG_ERROR => bs "ERROR" | LOG_FATAL => bs "FATAL"
  end.
Definition ESC (code : string) : bytes := chr 27 :: bs code.
Definition level_colors (l : LogLevel) : bytes :=
  match l with
  | LOG_TRACE => ESC "[94m" | LOG_DEBUG => ESC "[36m" | LOG_INFO => ESC "[32m"
  | LOG_WARN => ESC "[33m" | LOG_ERROR => ESC "[31m" | LOG_FATAL => ESC "[35m"
  end.

(** The file with what has been written to it, the level, and the terminal. *)
Record Log := mkLog { log_open : bool; log_file : bytes; current_level : LogLevel; terminal : bytes }.

(** What a call of [logger_log] is given, with the time it happens at. *)
Record entry := mkEntry { e_level : LogLevel; e_time : bytes; e_file : bytes; e_line : Z; e_text : bytes }.

(** ["%-5s"] *)
Definition pad5 (s : bytes) : bytes := s ++ replicate (5 - length s) " "%char.

Definition terminal_line (e : entry) : bytes :=
  level_colors (e_level e) ++ e_time e ++ bs " " ++ pad5 (level_strings (e_level e)) ++ ESC "[0m" ++ bs " "
  ++ ESC "[90m" ++ e_file e ++ bs ":" ++ print_s (e_line e) ++ bs ":" ++ ESC "[0m" ++ bs " " ++ e_text e ++ [LF].
Definition file_line (e : entry) : bytes :=
  e_time e ++ bs " " ++ pad5 (level_strings (e_level e)) ++ bs " " ++ e_file e ++ bs ":" ++ print_s (e_line e) ++ bs ": "
  ++ e_text e ++ [LF].

(** [opens] is whether [fopen] succeeds, which appends to what is there; if it
    does not the level stays. *)
Definition logger_init (filename : option bytes) (opens : bool) (level : LogLevel) (l : Log) : Log :=
  match filename with
  | Some _ =>
      if opens then mkLog true (log_file l) level (terminal l)
      else mkLog false (log_file l) (current_level l) (terminal l)
  | None => mkLog (log_open l) (log_file l) level (terminal l)
  end.
Definition logger_set_level (level : LogLevel) (l : Log) : Log :=
  mkLog (log_open l) (log_file l) level (terminal l).
Definition logger_log (e : entry) (l : Log) : Log :=
  if level_number (e_level e) <? level_number (current_level l) then l
  else mkLog (log_open l) (if log_open l then log_file l ++ file_line e else log_file l) (current_level l)
         (terminal l ++ terminal_line e).
Definition logger_close (l : Log) : Log := mkLog false (log_file l) (current_level l) (terminal l).

(** ** What is logged *)

Definition logs (es : list entry) (l : Log) : Log := fold_left (λ l e, logger_log e l) es l.
(** The entries that pass the level. *)
Definition passing (level : LogLevel) (es : list entry) : list entry :=
  filter (λ e, level_number level ≤ level_number (e_level e)) es.

(** Both places get the entries that pass the level, in order, and the file
    only while it is open. *)
Lemma logs_passing es l :
  logs es l = mkLog (log_open l)
    (log_file l ++ (if log_open l then concat (map file_line (passing (current_level l) es)) else []))
    (current_level l) (terminal l ++ concat (map terminal_line (passing (current_level l) es))).
Proof.
  unfold logs, passing. revert l. induction es as [|e es IH]; intros l; cbn [fold_left].
  - destruct l as [[] f v t]; cbn; by rw !app_nil_r.
  - rw IH /logger_log filter_cons. case_decide as Hp; case_match; try lia; [|done].
    destruct l as [[] f v t]; cbn; by rw -?app_assoc.
Qed.

(** After [logger_init] with a file that cannot be opened, and after
    [logger_close], nothing goes to the file. *)
Lemma logs_closed es l name level :
  log_file (logs es (logger_close l)) = log_file l
  ∧ log_file (logs es (logger_init (Some name) false level l)) = log_file l.
Proof. split; by rw logs_passing /= app_nil_r. Qed.
